(* ===== verification/_CoqProject ===== *)
-Q . S2P
Prelude.v
Ipc.v
Ring.v
RingInv.v
RingSeq.v
Recover.v
RingConc.v
RingConcInv.v
RingConcSim.v
RingConcRead.v
RingConcThm.v
GoStd.v
Schema.v
Parse.v
ParseThm.v
Check.v
CheckThm.v
Layout.v
RefCodec.v
RefCodecThm.v
Tools.v
GoGen.v
GoGenThm.v
GoCodec.v
Utf8.v
CCode.v
CCodec.v
CGenText.v
CGen.v
CppGenText.v
CppGen.v
PyGenText.v
PyGen.v
PyGenThm.v
Interop.v
Queue.v
QueueThm.v
QueueFlow.v
QueueLife.v
EventWin.v
Channel.v
ChannelFlow.v
Park.v
Conn.v
SockEvent.v
SockServer.v
Service.v
ServiceLife.v
Names.v
NameWin.v
Life.v
LifeConn.v
FileLock.v
Endpoint.v
EndpointThm.v
Paths.v
PipeEvent.v
Watch.v
Deadline.v
TypedCall.v
