(* ===== verification/Prelude.v ===== *)
(** * go-ipc: a verification development

    go-ipc moves messages between processes of one machine. Its core is a ring buffer in
    shared memory with any number of producers and one consumer ([ring.go]), which survives
    producers that die between two accesses ([recover.go], [queue_peer.go]). A queue
    ([queue.go]) is a ring with a name ([name.go], [name_unix.go], [name_windows.go]), a
    watch on the processes at its ends ([identity.go], [life_unix.go], [life_windows.go])
    and two events on which callers park ([event_unix.go], [event_sock.go],
    [event_windows.go]). A channel ([channel.go]) is two queues, a connection ([conn.go],
    [deadline.go]) is a byte stream over a channel, and a service ([service.go]) answers
    calls over a channel per client. [filelock] locks files. [ipcgen] compiles schemas of
    messages: it parses and checks a schema, lays its messages out, has a reference codec,
    and writes codecs in Go, C, C++ and Python ([ipcgen/internal]). All paths are below
    [src/].

    ** How the code is modelled

    Go's machine integers are values of [Z] with the wrap-around written out ([u64], [u32],
    [i32]); bytes are [byte], a buffer is a list of them, and little-endian fields are
    coqutil's [le_split] and [le_combine]. A fallible function returns a [result], an
    [option] or a sum. Code that runs alone is a function on explicit state. Code whose
    point is the interleaving is a step function on a state that holds one program counter
    for each goroutine or process; one step is one atomic access, one system call or one
    critical section, and a run is a list of labels, so that runs evaluate. Memory is
    sequentially consistent, as Go's [sync/atomic] promises. What the kernel, the clock, the
    context of a call or another package answers is an argument or a label, never a fixed
    value. The code that [ipcgen] writes is modelled twice: as the text the generator
    prints, and as the function that this text computes.

    ** The files

    Prelude: integers, bytes, lists and per-thread sums, shared by all. Ipc: the errors and
    [validateName].

    The ring. Ring: the control block and every operation of a handle ([tryClaim], [Commit],
    [Abort], [tryWrite], [Read], [initRing], [AttachRing]). RingInv: the region as a window
    tiled by claims. RingSeq: one handle alone is a queue of messages; reading survives any
    memory contents. Recover: [stalled], [reclaim], [acquireSlot] and [unstall]; a claim of
    a dead producer in front of the reader is skipped. RingConc runs the same code one
    shared-memory access at a time with producers that die; RingConcInv has its invariant,
    RingConcSim the abstract queue of claims and the forward simulation, RingConcRead the
    steps of the consumer, and RingConcThm the refinement of runs, the ring at rest, and the
    two races in which a claim is stranded: the refinement holds of every run up to the
    first of them, which takes the death of a producer.

    Queues. Queue: the calls of a handle as a state and error monad over the handle and the
    ring. QueueThm: handles of any processes that use the ring and die never share a claim
    slot; its class [Frame] carries relations through calls. QueueFlow: the handles are a
    first-in first-out queue, receiving ends, and the calls that wait return only what an
    attempt returned. QueueLife: [enter], [leave] and [Close] interleaved; when the segment
    is unmapped. Park: [park], [wakeReceiver], [wakeSenders], [unstall] and the watches on
    producers interleaved, with senders that die inside a call; who may sleep. Channel:
    [CreateChannel] and [OpenChannel]; each direction has one reader, which is the premise
    of RingConc. ChannelFlow: the operations of a channel, whose receiving queue asks the
    sending one for the peer; two ends that talk and close.

    Making and removing. Endpoint: the constructors and [Close] and [Unlink] of queues,
    channels, connections, clients, services and events as sequences of calls of the
    operating system, of which any may fail; descriptors, files, the life socket of the
    process and its table of watches are explicit, and the shared memory package is the
    class [Shm] with the laws [ShmLaws]. EndpointThm: nothing leaks and nothing is left
    behind, and what was created opens. Names: the lock of a name, the incarnation file,
    creation, sweeping and unlinking interleaved, and the scan for clients; NameWin: the
    same on Windows. FileLock: [Lock] and [TryLock]. Paths: the runtime directory and the
    paths of all files, with Go's [filepath].

    Processes. Life: the socket by which others see that a process lives, and the sweep of
    the sockets that processes left. LifeConn: the connections by which a process is
    watched, with the listener that the garbage collector may close. Watch: [onExit] and its
    callbacks.

    Events. PipeEvent, SockEvent and EventWin: the three implementations, their tokens and
    cancellations; the gate of EventWin is simulated by that of QueueLife. SockServer:
    creation, accepting and shutdown of a socket event.

    Above the queues. Deadline: deadlines of a connection against the clock and late timers.
    Conn: [Read] and [Write] as a stream over the queue of QueueFlow. Service: frames,
    handlers, sessions and calls over the class [Fifo], of which [queue_fifo] is the
    instance that QueueFlow gives. ServiceLife: adoption of clients and [Close]. TypedCall:
    typed calls with the generated codec.

    The schema compiler. GoStd: the parts of Go's library it uses. Schema, Parse, Check:
    schemas, the parser and the checker; ParseThm and CheckThm: they return, and what a
    checked schema satisfies; Layout: fields lie in their message, aligned and apart, and
    cycles are found exactly. RefCodec and RefCodecThm: the reference codec neither panics
    nor disagrees with itself. Tools: loading, the JSON description, the choice of a
    generator and the command. GoGen: the text of the Go generator and, from the same syntax
    tree, what it computes; GoGenThm and GoCodec: the Go codec is correct. Utf8: the C check
    of UTF-8 is Go's. CCode and CCodec: memory and the helper functions of the C and C++
    code; CGenText and CGen: the text and the functions of the C generator; CppGenText and
    CppGen, PyGenText, PyGen and PyGenThm: those of C++ and Python. Interop: the four
    languages and the reference codec agree.

    ** What the theorems show

    Refinement and equivalence: [ring_refines_queue] for every interleaving with deaths up
    to a race, [ring_at_rest], [handles_fifo], [channel_delivers], [conn_stream],
    [session_answers], [languages_encode_alike], [languages_decode_alike], [cycles_exact].
    Round trips: [Encode_decodes], [go_roundtrip], [created_queue_opens],
    [typed_call_generated]. Invariants: [claims_own_slots], [sock_tokens_conserved],
    [pipe_tokens_conserved]. Bounds: [c_encode_correct], [layout_sound]. Safety:
    [live_never_dead], [endpoints_balanced], [endpoints_tidy], [lock_exclusive],
    [channel_one_reader], [live_name_resolves], [win_name_lives_with_holder],
    [receiver_not_missed], [Close_unmaps_last], [event_close_frees_last],
    [wait_ends_with_process], [callbacks_once], [deadline_exact], [files_in_directory],
    [Close_leaves_no_session]. Liveness: [unstall_recovers], [dead_is_found],
    [never_all_parked], [ended_wait_not_blocked], [sock_close_hangs_up].

    The theorems whose names say a failure ([reclaim_race_strands_claim],
    [Close_unmaps_in_use], [event_handles_closed_in_use], [signal_on_closed_handle],
    [stale_cancel_reports_closed], [parked_sender_missed], [lost_signal_strands_message],
    [dead_claim_parks_all], [watch_ends_early], [deadline_breaks_stream],
    [sock_wait_stranded], [accept_error_strands], [exit_during_call_unreported],
    [unlink_after_close_steals_name], [late_cancel_loses_cancellation],
    [reserved_type_id_accepted], [c_name_clash], [fixed_size_exceeds_max],
    [max_message_overflows_align]) give runs or inputs on which the code does not do what it
    means to; where there is a matching safety theorem, it states the condition that
    excludes them.

    ** Parameters

    [gofmt] is a function on text; the conversions of Python's format f are functions with
    the laws that CPython documents; the width of [size_t] is any of at least 32 bits; the
    shared memory package is a class; the hash of [sockPath], the flag parser of [ipcgen]
    and the path functions of Windows are functions. Each theorem that asks for laws of a
    parameter has a witness with a concrete one.

    ** Fuel and bounds

    The loops of [Read], [tryClaim], the lexer, the parser, the checker and the codecs take
    fuel computed from their input, and theorems show that it is enough ([Read_total],
    [receive_total], [Parse_total], [Check_total], [codec_total]). A loop that retries
    because of another process is a loop of the step function and has no fuel. [conn_stream]
    and [session_answers] take lists of outcomes of calls; a caller that is still blocked
    after the last one gives [None]. Park has any number of senders; that tokens suffice for
    all of them is shown for up to 4096, the number that one write to a pipe delivers.
    Sequence numbers, generations and cursors are 64 bits wide; the theorems of Service and
    Deadline ask for fewer than 2^64 calls.

    ** Not modelled

    The kernel and the runtime below the calls: mapping of memory, sockets, the scheduler
    and the poller, whose answers are arguments and labels. The declaration of the flags of
    [ipcgen], its messages on standard error, and the texts of errors. Accessors ([Name],
    [Tx], [Rx], [Ordinal], [LocalAddr]). The files of generated code and their [go:generate]
    lines; the C, C++ and Python libraries of the repository, which are not the Go program. *)

From stdpp Require Import base numbers list list_numbers option.
From coqutil Require Import Byte Word.LittleEndianList.
From Stdlib Require Import ZArith Lia Bool.

#[export] Set Warnings "-clear-no-such-hyp".

#[global] Open Scope Z_scope.

(** ** Machine integers *)

Declare Scope word_scope.
Delimit Scope word_scope with word.

(** Values of Go's [uint64], [uint32], [int32] and [int64] after an
    arithmetic operation or a conversion. *)
Definition u64 (z : Z) : Z := z mod 2 ^ 64.
Definition u32 (z : Z) : Z := z mod 2 ^ 32.
Definition i32 (z : Z) : Z := (z + 2 ^ 31) mod 2 ^ 32 - 2 ^ 31.
Definition i64 (z : Z) : Z := (z + 2 ^ 63) mod 2 ^ 64 - 2 ^ 63.

Notation "a +64 b" := (u64 (a + b)) (at level 50, left associativity) : word_scope.
Notation "a -64 b" := (u64 (a - b)) (at level 50, left associativity) : word_scope.
#[global] Open Scope word_scope.

Definition MaxInt32 : Z := 2 ^ 31 - 1.
Definition MaxUint64 : Z := 2 ^ 64 - 1.

Create HintDb word discriminated.
Create Rewrite HintDb bytes.

Lemma u64_small z : 0 <= z < 2 ^ 64 -> u64 z = z.
Proof. apply Z.mod_small. Qed.

Lemma u64_range z : 0 <= u64 z < 2 ^ 64.
Proof. apply Z.mod_pos_bound; lia. Qed.

Lemma u32_small z : 0 <= z < 2 ^ 32 -> u32 z = z.
Proof. apply Z.mod_small. Qed.

Lemma u32_range z : 0 <= u32 z < 2 ^ 32.
Proof. apply Z.mod_pos_bound; lia. Qed.

Lemma i32_small z : - 2 ^ 31 <= z < 2 ^ 31 -> i32 z = z.
Proof. intros; unfold i32; rewrite Z.mod_small; lia. Qed.

Lemma i32_range z : - 2 ^ 31 <= i32 z < 2 ^ 31.
Proof. unfold i32. pose proof (Z.mod_pos_bound (z + 2 ^ 31) (2 ^ 32)). lia. Qed.

Lemma i32_mod z : i32 (z mod 2 ^ 32) = i32 z.
Proof. unfold i32. by rewrite Zplus_mod_idemp_l. Qed.

#[export] Hint Resolve u64_range u32_range i32_range : word.

(** [solve_word] removes wrap-around from operations that stay in range. *)
Ltac unwrap :=
  repeat match goal with
  | |- context [u64 ?z] => rewrite (u64_small z) by lia
  | |- context [u32 ?z] => rewrite (u32_small z) by lia
  | |- context [i32 ?z] => rewrite (i32_small z) by lia
  | H : context [u64 ?z] |- _ => rewrite (u64_small z) in H by lia
  | H : context [u32 ?z] |- _ => rewrite (u32_small z) in H by lia
  | H : context [i32 ?z] |- _ => rewrite (i32_small z) in H by lia
  end.

(** ** Boolean guards *)

(** Turns the boolean tests of the code, in hypotheses, into propositions. *)
Ltac reflect_bools :=
  repeat match goal with
  | H : (_ && _) = true |- _ => apply andb_true_iff in H as [? ?]
  | H : (_ || _) = false |- _ => apply orb_false_iff in H as [? ?]
  | H : negb _ = true |- _ => apply negb_true_iff in H
  | H : negb _ = false |- _ => apply negb_false_iff in H
  | H : (_ <? _) = true |- _ => apply Z.ltb_lt in H
  | H : (_ <? _) = false |- _ => apply Z.ltb_ge in H
  | H : (_ <=? _) = true |- _ => apply Z.leb_le in H
  | H : (_ <=? _) = false |- _ => apply Z.leb_gt in H
  | H : (_ =? _) = true |- _ => apply Z.eqb_eq in H
  | H : (_ =? _) = false |- _ => apply Z.eqb_neq in H
  end.

(** ** Byte regions

    A mapped region is a list of bytes addressed from 0. [sub] is the slice
    [l[off : off+len]], [blit] overwrites the bytes from [off] on. *)

Definition zlen {A} (l : list A) : Z := Z.of_nat (length l).

Definition sub {A} (l : list A) (off len : Z) : list A :=
  take (Z.to_nat len) (drop (Z.to_nat off) l).

Definition blit {A} (l : list A) (off : Z) (bs : list A) : list A :=
  take (Z.to_nat off) l ++ bs ++ drop (Z.to_nat off + length bs) l.

Definition zeros (n : Z) : list byte := replicate (Z.to_nat n) Byte.x00.

(** Little-endian fields, as the structs overlaid on the region have them. *)
Definition put32 (v : Z) : list byte := le_split 4 v.
Definition get_u32 (l : list byte) (off : Z) : Z := le_combine (sub l off 4).
Definition get_i32 (l : list byte) (off : Z) : Z := i32 (get_u32 l off).
Definition put64 (v : Z) : list byte := le_split 8 v.
Definition get_u64 (l : list byte) (off : Z) : Z := le_combine (sub l off 8).

Arguments u64 : simpl never.
Arguments u32 : simpl never.
Arguments i32 : simpl never.
Arguments i64 : simpl never.
Arguments sub : simpl never.
Arguments blit : simpl never.
Arguments zeros : simpl never.
Arguments put32 : simpl never.
Arguments put64 : simpl never.

Section lists.
Context {A : Type}.
Implicit Types l bs : list A.

Lemma zlen_nonneg l : 0 <= zlen l.
Proof. unfold zlen; lia. Qed.

Lemma zlen_nil : zlen (@nil A) = 0.
Proof. done. Qed.

Lemma zlen_cons x l : zlen (x :: l) = 1 + zlen l.
Proof. unfold zlen; simpl; lia. Qed.

Lemma zlen_app l1 l2 : zlen (l1 ++ l2) = zlen l1 + zlen l2.
Proof. unfold zlen; rewrite length_app; lia. Qed.

Lemma zlen_blit l off bs :
  0 <= off -> off + zlen bs <= zlen l -> zlen (blit l off bs) = zlen l.
Proof. unfold zlen, blit; intros. rewrite !length_app, length_take, length_drop. lia. Qed.

Lemma zlen_sub l off n :
  0 <= off -> 0 <= n -> off + n <= zlen l -> zlen (sub l off n) = n.
Proof. unfold zlen, sub; intros. rewrite length_take, length_drop. lia. Qed.

Lemma lookup_sub l off n (i : nat) :
  0 <= off ->
  sub l off n !! i = if decide (Z.of_nat i < n) then l !! (Z.to_nat off + i)%nat else None.
Proof.
  intros. unfold sub. case_decide.
  - by rewrite lookup_take_lt, lookup_drop by lia.
  - rewrite lookup_take_ge by lia. done.
Qed.

Lemma lookup_blit l off bs (i : nat) :
  0 <= off -> off + zlen bs <= zlen l ->
  blit l off bs !! i =
    if decide (off <= Z.of_nat i < off + zlen bs)
    then bs !! Z.to_nat (Z.of_nat i - off) else l !! i.
Proof.
  unfold zlen, blit; intros. case_decide.
  - rewrite lookup_app_r by (rewrite length_take; lia).
    rewrite length_take, lookup_app_l by lia. f_equal; lia.
  - destruct (decide (Z.of_nat i < off)).
    + rewrite lookup_app_l by (rewrite length_take; lia). by rewrite lookup_take_lt by lia.
    + rewrite lookup_app_r by (rewrite length_take; lia).
      rewrite length_take, lookup_app_r by lia. rewrite lookup_drop. f_equal; lia.
Qed.

(** A write outside a slice leaves the slice alone. *)
Lemma sub_blit_disj l off bs a n :
  0 <= off -> off + zlen bs <= zlen l -> 0 <= a ->
  off + zlen bs <= a \/ a + n <= off ->
  sub (blit l off bs) a n = sub l a n.
Proof.
  intros. apply list_eq; intros i. rewrite !lookup_sub by lia.
  case_decide; [|done]. rewrite lookup_blit by lia. rewrite decide_False by lia. done.
Qed.

(** A write inside a slice is the same write on the slice. *)
Lemma sub_blit_inner l off bs a n :
  0 <= a -> a <= off -> off + zlen bs <= a + n -> a + n <= zlen l ->
  sub (blit l off bs) a n = blit (sub l a n) (off - a) bs.
Proof.
  intros. pose proof (zlen_nonneg bs). apply list_eq; intros i.
  rewrite (lookup_blit (sub l a n)) by (rewrite ?zlen_sub; lia).
  rewrite !lookup_sub by lia. rewrite lookup_blit by lia.
  repeat case_decide; try lia; try done.
  f_equal; lia.
Qed.

Lemma sub_sub l a n b m :
  0 <= a -> 0 <= b -> b + m <= n -> sub (sub l a n) b m = sub l (a + b) m.
Proof.
  intros. apply list_eq; intros i. rewrite !lookup_sub by lia.
  repeat case_decide; try done; try lia. f_equal; lia.
Qed.

Lemma sub_app_l l1 l2 n : 0 <= n -> n <= zlen l1 -> sub (l1 ++ l2) 0 n = take (Z.to_nat n) l1.
Proof. unfold sub, zlen; intros. rewrite drop_0, take_app_le by lia. done. Qed.

Lemma sub_all l n : n = zlen l -> sub l 0 n = l.
Proof. unfold sub, zlen; intros ->. rewrite drop_0. apply take_ge; lia. Qed.

Lemma sub_app_mid l1 l2 l3 off n :
  off = zlen l1 -> n = zlen l2 -> sub (l1 ++ l2 ++ l3) off n = l2.
Proof.
  unfold sub, zlen; intros -> ->. rewrite !Nat2Z.id, drop_app_length. by rewrite take_app_length.
Qed.

Lemma sub_app_r l1 l2 off n :
  zlen l1 <= off -> sub (l1 ++ l2) off n = sub l2 (off - zlen l1) n.
Proof.
  unfold sub, zlen; intros. rewrite drop_app_ge by lia. do 2 f_equal; lia.
Qed.

Lemma blit_app_mid l1 l2 l3 bs off :
  off = zlen l1 -> zlen bs = zlen l2 -> blit (l1 ++ l2 ++ l3) off bs = l1 ++ bs ++ l3.
Proof.
  unfold blit, zlen; intros -> Hlen. rewrite Nat2Z.id, take_app_length.
  rewrite <-drop_drop, drop_app_length.
  rewrite drop_app_ge by lia. do 2 f_equal.
  replace (length bs - length l2)%nat with 0%nat by lia. by rewrite drop_0.
Qed.

(** A write inside the middle part of a concatenation. *)
Lemma blit_app_inner l1 l2 l3 bs off :
  0 <= off -> off + zlen bs <= zlen l2 ->
  blit (l1 ++ l2 ++ l3) (zlen l1 + off) bs = l1 ++ blit l2 off bs ++ l3.
Proof.
  unfold blit, zlen; intros.
  replace (Z.to_nat (Z.of_nat (length l1) + off)) with (length l1 + Z.to_nat off)%nat by lia.
  rewrite take_app_add. rewrite <-!app_assoc. f_equal.
  rewrite take_app_le by lia. f_equal. f_equal.
  rewrite <-Nat.add_assoc, <-drop_drop, drop_app_length. by rewrite drop_app_le by lia.
Qed.

Lemma blit_nil l off : blit l off [] = l.
Proof. unfold blit; simpl. rewrite Nat.add_0_r. apply take_drop. Qed.

Lemma sub_split l off n m :
  0 <= off -> 0 <= n -> 0 <= m -> sub l off (n + m) = sub l off n ++ sub l (off + n) m.
Proof.
  unfold sub; intros. rewrite !Z2Nat.inj_add by lia. rewrite <-drop_drop, take_take_drop. done.
Qed.
End lists.

Lemma zlen_zeros n : 0 <= n -> zlen (zeros n) = n.
Proof. unfold zlen, zeros. rewrite length_replicate. lia. Qed.

Lemma sub_zeros n off m : 0 <= off -> off + m <= n -> sub (zeros n) off m = zeros m.
Proof.
  intros. unfold sub, zeros. rewrite drop_replicate, take_replicate. f_equal; lia.
Qed.

Lemma zeros_app n m : 0 <= n -> 0 <= m -> zeros (n + m) = zeros n ++ zeros m.
Proof. intros; unfold zeros. rewrite Z2Nat.inj_add by lia. apply replicate_add. Qed.

Lemma zlen_put32 v : zlen (put32 v) = 4.
Proof. unfold zlen, put32. by rewrite length_le_split. Qed.

Lemma zlen_put64 v : zlen (put64 v) = 8.
Proof. unfold zlen, put64. by rewrite length_le_split. Qed.

#[export] Hint Rewrite @zlen_app @zlen_cons @zlen_nil zlen_put32 zlen_put64 : bytes.

Lemma get_u32_put l1 v l2 off :
  off = zlen l1 -> get_u32 (l1 ++ put32 v ++ l2) off = u32 v.
Proof.
  intros. unfold get_u32. rewrite sub_app_mid by (autorewrite with bytes; lia).
  unfold put32. by rewrite le_combine_split.
Qed.

Lemma get_u32_put_0 v l : get_u32 (put32 v ++ l) 0 = u32 v.
Proof. exact (get_u32_put [] v l 0 eq_refl). Qed.

Lemma get_i32_put l1 v l2 off :
  off = zlen l1 -> get_i32 (l1 ++ put32 v ++ l2) off = i32 v.
Proof. intros. unfold get_i32. rewrite get_u32_put by done. apply i32_mod. Qed.

Lemma get_u64_put l1 v l2 off :
  off = zlen l1 -> get_u64 (l1 ++ put64 v ++ l2) off = u64 v.
Proof.
  intros. unfold get_u64. rewrite sub_app_mid by (autorewrite with bytes; lia).
  unfold put64. by rewrite le_combine_split.
Qed.

Lemma get_u64_put_0 v l : get_u64 (put64 v ++ l) 0 = u64 v.
Proof. exact (get_u64_put [] v l 0 eq_refl). Qed.

Lemma get_u32_skip l1 l2 off : zlen l1 <= off -> get_u32 (l1 ++ l2) off = get_u32 l2 (off - zlen l1).
Proof. intros. unfold get_u32. by rewrite sub_app_r. Qed.

Lemma get_u64_skip l1 l2 off : zlen l1 <= off -> get_u64 (l1 ++ l2) off = get_u64 l2 (off - zlen l1).
Proof. intros. unfold get_u64. by rewrite sub_app_r. Qed.

Lemma get_u32_zeros n off : 0 <= off -> off + 4 <= n -> get_u32 (zeros n) off = 0.
Proof. intros. unfold get_u32. by rewrite sub_zeros by lia. Qed.

Lemma put32_zero : put32 0 = zeros 4.
Proof. reflexivity. Qed.

(** ** Powers of two and cursors *)

Definition power2 (c : Z) : Prop := exists k, 0 <= k /\ c = 2 ^ k.

Lemma power2_pos c : power2 c -> 0 < c.
Proof. intros (k & ? & ->). apply Z.pow_pos_nonneg; lia. Qed.

Lemma land_mask x c : power2 c -> Z.land x (c - 1) = x mod c.
Proof. intros (k & ? & ->). replace (2 ^ k - 1) with (Z.ones k) by (rewrite Z.ones_equiv; lia).
  by apply Z.land_ones. Qed.

(** ** A value per thread *)

Section Threads.
  Context {A : Type}.
  Implicit Types (l : list A) (f : A -> Z).

Fixpoint total f l : Z := match l with [] => 0 | x :: l => f x + total f l end.

Lemma total_app f l1 l2 : total f (l1 ++ l2) = total f l1 + total f l2.
Proof. induction l1 as [|x l1 IH]; cbn; lia. Qed.

Lemma total_insert f l i x y : l !! i = Some x -> total f (<[i := y]> l) = total f l - f x + f y.
Proof.
  revert i. induction l as [|z l IH]; intros [|i] H; [done|done| |].
  - injection H as ->. cbn. lia.
  - change (<[S i := y]> (z :: l)) with (z :: <[i := y]> l). cbn [total]. rewrite (IH i H). lia.
Qed.

Lemma total_le f g l : (forall x, f x <= g x) -> total f l <= total g l.
Proof. intros H. induction l as [|x l IH]; [done|]. cbn. specialize (H x). lia. Qed.

Lemma total_nonneg f l : (forall x, 0 <= f x) -> 0 <= total f l.
Proof. intros H. induction l as [|x l IH]; [done|]. cbn. specialize (H x). lia. Qed.

Lemma total_lookup f l i x : (forall y, 0 <= f y) -> l !! i = Some x -> f x <= total f l.
Proof.
  intros H0. revert i. induction l as [|z l IH]; intros [|i] H; [done|done| |].
  - injection H as ->. cbn. pose proof (total_nonneg f l H0). lia.
  - cbn. specialize (H0 z). specialize (IH i H). lia.
Qed.

Lemma total_zero f l : (forall i x, l !! i = Some x -> f x = 0) -> total f l = 0.
Proof.
  induction l as [|x l IH]; intros H; [done|]. cbn. rewrite (H 0%nat x eq_refl), IH; [done|].
  intros i y Hi. by apply (H (S i)).
Qed.

(** The threads after thread [i] moved to [y]. *)
Lemma moved_cases l i y j x :
  <[i := y]> l !! j = Some x -> (j = i /\ x = y) \/ (j <> i /\ l !! j = Some x).
Proof. intros H. apply list_lookup_insert_Some in H as [(-> & -> & _)|[? ?]]; auto. Qed.

Lemma moved_here l i x y : l !! i = Some x -> <[i := y]> l !! i = Some y.
Proof. intros H. apply list_lookup_insert_eq. by eapply lookup_lt_Some. Qed.

Lemma moved_other l i y j x : l !! j = Some x -> j <> i -> <[i := y]> l !! j = Some x.
Proof. intros H Hne. by rewrite list_lookup_insert_ne. Qed.
End Threads.
