(* ===== verification/Ipc.v ===== *)
(** * The package's errors and name check ([src/ipc.go])

    The error values, the result type of a fallible call and
    [validateName]. An error that the code wraps with more text is modelled by
    the value [errors.Is] finds in it. *)

From stdpp Require Import base list strings.
From Stdlib Require Import Ascii String.
From S2P Require Import Prelude.

Inductive error : Set :=
  | ErrClosed | ErrFull | ErrEmpty | ErrMessageTooLarge | ErrReservedType
  | ErrInvalidName | ErrInvalidCapacity | ErrTooSmall | ErrBadLayout
  | ErrCorrupt | ErrUnaligned | ErrNotPollable | ErrPeerGone | ErrInUse
  | ErrNotConsumer | ErrTooManyClaims.

#[export] Instance error_eq_dec : EqDecision error.
Proof. solve_decision. Defined.

(** A Go pair [(value, error)]: the value is meaningful when the error is nil. *)
Inductive result (A : Type) : Type :=
  | Ok (a : A)
  | Err (e : error).
Arguments Ok {A} _.
Arguments Err {A} _.

(** [strings.ContainsAny(name, chars)]: some byte of [name] is one of [chars]. *)
Fixpoint containsAny (name chars : string) : bool :=
  match name with
  | EmptyString => false
  | String c rest =>
      existsb (Ascii.eqb c) (list_ascii_of_string chars) || containsAny rest chars
  end.

Definition separators : string := "/\".

Definition validateName (name : string) : option error :=
  if String.eqb name "" then Some ErrInvalidName
  else if containsAny name separators then Some ErrInvalidName
  else if String.eqb name "." || String.eqb name ".." then Some ErrInvalidName
  else None.
