(* ===== verification/Ring.v ===== *)
(** * The ring buffer ([src/ring.go])

    The control block, the data region and the operations of one handle on
    them, run without interference. [RingConc] interleaves the same operations
    one shared-memory access at a time. *)

From stdpp Require Import base numbers list list_numbers option.
From coqutil Require Import Byte Word.LittleEndianList.
From Stdlib Require Import ZArith Lia Bool.
From S2P Require Import Prelude Ipc.

(** ** Constants *)

Definition cacheLine : Z := 128.
Definition ringMagic : Z := 0x676F2D6970632D31.
Definition ringVersion : Z := 2.
Definition RecordHeaderSize : Z := 8.
Definition ClaimSlots : Z := 256.
Definition slotSize : Z := 64.
Definition controlSize : Z := 4 * cacheLine.
Definition HeaderSize : Z := controlSize + ClaimSlots * slotSize.
Definition MinCapacity : Z := 4096.
Definition recordAlignment : Z := 8.
Definition TypePadding : Z := 0xFFFFFFFF.
Definition noIntent : Z := MaxUint64.
Definition noProc : Z := 0.

(** ** The control block *)

Record claimSlot : Type := mkSlot { owner : Z; at_ : Z; size_ : Z }.

Record ringHeader : Type := mkHeader {
  magic : Z; version : Z; flags : Z; capacity : Z; consumer : Z;
  tail : Z; head : Z; headCache : Z; recvWaiters : Z; sendWaiters : Z;
  slots : list claimSlot }.

(** The handle and the memory behind it. *)
Record Ring : Type := mkRing { hdr : ringHeader; data : list byte; mask : Z }.

Definition set_hdr (f : ringHeader -> ringHeader) (r : Ring) : Ring :=
  mkRing (f (hdr r)) (data r) (mask r).
Definition set_data (d : list byte) (r : Ring) : Ring := mkRing (hdr r) d (mask r).

Definition with_consumer (v : Z) (h : ringHeader) : ringHeader :=
  mkHeader (magic h) (version h) (flags h) (capacity h) v (tail h) (head h)
    (headCache h) (recvWaiters h) (sendWaiters h) (slots h).
Definition with_tail (v : Z) (h : ringHeader) : ringHeader :=
  mkHeader (magic h) (version h) (flags h) (capacity h) (consumer h) v (head h)
    (headCache h) (recvWaiters h) (sendWaiters h) (slots h).
Definition with_head (v : Z) (h : ringHeader) : ringHeader :=
  mkHeader (magic h) (version h) (flags h) (capacity h) (consumer h) (tail h) v
    (headCache h) (recvWaiters h) (sendWaiters h) (slots h).
Definition with_headCache (v : Z) (h : ringHeader) : ringHeader :=
  mkHeader (magic h) (version h) (flags h) (capacity h) (consumer h) (tail h) (head h)
    v (recvWaiters h) (sendWaiters h) (slots h).
Definition with_waiters (rw sw : Z) (h : ringHeader) : ringHeader :=
  mkHeader (magic h) (version h) (flags h) (capacity h) (consumer h) (tail h) (head h)
    (headCache h) rw sw (slots h).
Definition with_slots (s : list claimSlot) (h : ringHeader) : ringHeader :=
  mkHeader (magic h) (version h) (flags h) (capacity h) (consumer h) (tail h) (head h)
    (headCache h) (recvWaiters h) (sendWaiters h) s.

(** Stores to the fields of one claim slot. *)
Definition upd_slot (i : Z) (f : claimSlot -> claimSlot) (h : ringHeader) : ringHeader :=
  with_slots (alter f (Z.to_nat i) (slots h)) h.
Definition store_at (i v : Z) : Ring -> Ring :=
  set_hdr (upd_slot i (fun s => mkSlot (owner s) v (size_ s))).
Definition store_size (i v : Z) : Ring -> Ring :=
  set_hdr (upd_slot i (fun s => mkSlot (owner s) (at_ s) v)).
Definition store_owner (i v : Z) : Ring -> Ring :=
  set_hdr (upd_slot i (fun s => mkSlot v (at_ s) (size_ s))).

(** ** The struct overlaid on the buffer *)

Definition slot_bytes (s : claimSlot) : list byte :=
  put64 (owner s) ++ put64 (at_ s) ++ put64 (size_ s) ++ zeros (slotSize - 24).

Definition header_bytes (h : ringHeader) : list byte :=
  (put64 (magic h) ++ put32 (version h) ++ put32 (flags h) ++ put64 (capacity h) ++
   put64 (consumer h) ++ zeros (cacheLine - 32)) ++
  (put64 (tail h) ++ zeros (cacheLine - 8)) ++
  (put64 (head h) ++ zeros (cacheLine - 8)) ++
  (put64 (headCache h) ++ put32 (recvWaiters h) ++ put32 (sendWaiters h) ++
   zeros (cacheLine - 16)) ++
  mjoin (slot_bytes <$> slots h).

Definition overlay_slot (buf : list byte) (i : nat) : claimSlot :=
  let o := controlSize + slotSize * Z.of_nat i in
  mkSlot (get_u64 buf o) (get_u64 buf (o + 8)) (get_u64 buf (o + 16)).

Definition overlay (buf : list byte) : ringHeader :=
  mkHeader (get_u64 buf 0) (get_u32 buf 8) (get_u32 buf 12) (get_u64 buf 16) (get_u64 buf 24)
    (get_u64 buf cacheLine) (get_u64 buf (2 * cacheLine)) (get_u64 buf (3 * cacheLine))
    (get_i32 buf (3 * cacheLine + 8)) (get_i32 buf (3 * cacheLine + 12))
    (overlay_slot buf <$> seq 0 (Z.to_nat ClaimSlots)).

(** ** Constructors *)

Definition RingSize (cap : Z) : Z := HeaderSize + cap.

Definition newRing (h : ringHeader) (buf : list byte) (cap : Z) : Ring :=
  mkRing h (sub buf HeaderSize cap) (cap - 1).

(** [bits.Len64]: the number of bits needed to represent the value. *)
Definition Len64 (x : Z) : Z := if x =? 0 then 0 else Z.log2 x + 1.

(** [addr] is the address of the first byte of [buf]. *)
Definition initRing (buf : list byte) (addr : Z) (cons : Z) : result Ring :=
  if zlen buf <? HeaderSize + MinCapacity then Err ErrTooSmall
  else if negb (addr mod 8 =? 0) then Err ErrUnaligned
  else
    let cap := Z.shiftl 1 (Len64 (zlen buf - HeaderSize) - 1) in
    let buf := zeros (zlen buf) in
    let h := mkHeader ringMagic ringVersion 0 cap cons 0 0 0 0 0
               (replicate (Z.to_nat ClaimSlots) (mkSlot 0 noIntent 0)) in
    Ok (newRing h buf cap).

Definition InitRing (buf : list byte) (addr : Z) : result Ring := initRing buf addr noProc.

Definition AttachRing (buf : list byte) (addr : Z) : result Ring :=
  if zlen buf <? HeaderSize + MinCapacity then Err ErrTooSmall
  else if negb (addr mod 8 =? 0) then Err ErrUnaligned
  else
    let h := overlay buf in
    if negb (magic h =? ringMagic) || negb (version h =? ringVersion) then Err ErrBadLayout
    else
      let cap := capacity h in
      if (cap <? MinCapacity) || negb (Z.land cap (cap -64 1) =? 0)
         || (zlen buf <? HeaderSize +64 cap)
      then Err ErrBadLayout
      else Ok (newRing h buf cap).

(** The buffer behind a ring, with [rest] bytes after the data region. *)
Definition ring_buffer (r : Ring) (rest : list byte) : list byte :=
  header_bytes (hdr r) ++ data r ++ rest.

(** ** Sizes *)

Definition Capacity (r : Ring) : Z := mask r + 1.

Definition MaxMessageSize (r : Ring) : Z :=
  let limit := Z.quot (Capacity r) 2 - RecordHeaderSize in
  if limit >? MaxInt32 - RecordHeaderSize then MaxInt32 - RecordHeaderSize else limit.

Definition Buffered (r : Ring) : Z := i64 (tail (hdr r) -64 head (hdr r)).

Definition Empty (r : Ring) : bool := head (hdr r) =? tail (hdr r).

Definition align (n : Z) : Z :=
  u64 (Z.land (i32 (n + recordAlignment - 1)) (Z.lnot (recordAlignment - 1))).

(** ** Header accesses *)

Definition loadLength (r : Ring) (idx : Z) : Z := get_i32 (data r) idx.
Definition storeLength (idx v : Z) (r : Ring) : Ring := set_data (blit (data r) idx (put32 v)) r.
Definition casLength (idx old v : Z) (r : Ring) : Ring * bool :=
  if loadLength r idx =? old then (storeLength idx v r, true) else (r, false).
Definition loadType (r : Ring) (idx : Z) : Z := get_u32 (data r) (idx + 4).
Definition storeType (idx v : Z) (r : Ring) : Ring :=
  set_data (blit (data r) (idx + 4) (put32 v)) r.

(** ** Claims *)

(** [Bytes] is the region [[c_index + 8, c_index + c_total)] of the data. *)
Record Claim : Type := mkClaim { c_index : Z; c_total : Z; c_slot : Z }.

Definition claim_bytes (r : Ring) (c : Claim) : list byte :=
  sub (data r) (c_index c + RecordHeaderSize) (c_total c - RecordHeaderSize).

(** The caller stores [bs] at offset [off] of [Bytes]. *)
Definition fill_claim (c : Claim) (off : Z) (bs : list byte) (r : Ring) : Ring :=
  set_data (blit (data r) (c_index c + RecordHeaderSize + off) bs) r.

Definition release (slot : Z) (r : Ring) : Ring :=
  if 0 <=? slot then store_at slot noIntent r else r.

Definition Commit (c : Claim) (r : Ring) : Ring :=
  release (c_slot c) (storeLength (c_index c) (c_total c) r).

Definition Abort (c : Claim) (r : Ring) : Ring :=
  release (c_slot c) (storeLength (c_index c) (c_total c) (storeType (c_index c) TypePadding r)).

Definition hasRoom (tl hd cap need : Z) : bool :=
  if (tl <? hd) || (cap <? (tl -64 hd)) then false
  else need <=? (cap -64 (tl -64 hd)).

(** What one attempt of the claim loop ends with. *)
Inductive attempt : Type :=
  | Retry
  | Full (r : Ring)
  | Claimed (r : Ring) (index : Z).

(** The end of a pass that found room: the intent, the compare-and-swap on
    [tail], which nothing moved since the load, and the padding. *)
Definition claim_take (slot aligned tl need : Z) (r : Ring) : attempt :=
  let index := Z.land tl (mask r) in
  let toEnd := u64 (Capacity r) -64 index in
  let r := if 0 <=? slot then store_at slot tl (store_size slot need r) else r in
  let r := set_hdr (with_tail (tl +64 need)) r in
  if negb (need =? aligned)
  then Claimed (storeLength index (i32 toEnd) (storeType index TypePadding r)) 0
  else Claimed r index.

(** One pass of the loop of [tryClaim]: the record needs [aligned] bytes. *)
Definition claim_pass (slot aligned : Z) (r : Ring) : attempt :=
  let cap := u64 (Capacity r) in
  let tl := tail (hdr r) in
  let hd := headCache (hdr r) in
  let index := Z.land tl (mask r) in
  let toEnd := cap -64 index in
  let need := if toEnd <? aligned then aligned +64 toEnd else aligned in
  if negb (hasRoom tl hd cap need) then
    let hd := head (hdr r) in
    if tl <? hd then Retry
    else if negb (hasRoom tl hd cap need) then Full (release slot r)
    else claim_take slot aligned tl need (set_hdr (with_headCache hd) r)
  else claim_take slot aligned tl need r.

Fixpoint claim_loop (fuel : nat) (slot aligned : Z) (r : Ring) : option attempt :=
  match fuel with
  | O => None
  | S fuel =>
      match claim_pass slot aligned r with
      | Retry => claim_loop fuel slot aligned r
      | a => Some a
      end
  end.

(** [None] when the loop ran out of fuel. *)
Definition tryClaim (fuel : nat) (slot typ length : Z) (r : Ring) : option (Ring * result Claim) :=
  if typ =? TypePadding then Some (r, Err ErrReservedType)
  else if (length <? 0) || (MaxMessageSize r <? length) then Some (r, Err ErrMessageTooLarge)
  else
    let recordLen := i32 (RecordHeaderSize + length) in
    match claim_loop fuel slot (align recordLen) r with
    | None | Some Retry => None
    | Some (Full r) => Some (r, Err ErrFull)
    | Some (Claimed r index) =>
        let r := storeLength index (i32 (- recordLen)) (storeType index typ r) in
        Some (r, Ok (mkClaim index recordLen slot))
    end.

Definition TryClaim (fuel : nat) (typ length : Z) (r : Ring) : option (Ring * result Claim) :=
  tryClaim fuel (-1) typ length r.

Definition tryWrite (fuel : nat) (slot typ : Z) (payload : list byte) (r : Ring)
    : option (Ring * option error) :=
  match tryClaim fuel slot typ (zlen payload) r with
  | None => None
  | Some (r, Err e) => Some (r, Some e)
  | Some (r, Ok c) => Some (Commit c (fill_claim c 0 payload r), None)
  end.

Definition TryWrite (fuel : nat) (typ : Z) (payload : list byte) (r : Ring)
    : option (Ring * option error) := tryWrite fuel (-1) typ payload r.

(** ** Reading *)

(** A call of the read callback: the type and the payload it is passed. *)
Abbreviation delivery := (Z * list byte)%type.

(** The outcome of a read: the messages passed to the callback in order (their
    number is the count returned) and the error. *)
Record read_result : Type := mkRead { rd_ring : Ring; rd_out : list delivery; rd_err : option error }.

(** What one pass of the loop of [Read] finds at [index]. *)
Inductive pass : Type :=
  | Stop
  | Corrupt
  | Record_ (r : Ring) (step : Z) (msg : list delivery).

(** The body of the loop. [left_] is [available - consumed]. *)
Definition read_pass (left_ index : Z) (r : Ring) : pass :=
  let length := loadLength r index in
  if length <=? 0 then Stop
  else
    let step := align length in
    if (length <? RecordHeaderSize) || (left_ <? step) || (u64 (Capacity r) <? (index +64 step))
    then Corrupt
    else
      let typ := loadType r index in
      let msg :=
        if typ =? TypePadding then []
        else [(typ, sub (data r) (index + RecordHeaderSize) (length - RecordHeaderSize))] in
      let r := set_data (blit (data r) (index + 4) (zeros (step - 4))) r in
      let r := storeLength index 0 r in
      Record_ r step msg.

(** The loop of [Read]; [None] when it ran out of fuel. [out] is what was
    passed to the callback so far; [hd] and [available] were loaded before. *)
Fixpoint read_loop (fuel : nat) (limit hd available consumed : Z) (out : list delivery) (r : Ring)
    : option read_result :=
  match fuel with
  | O => None
  | S fuel =>
      let finish :=
        Some (mkRead (if 0 <? consumed then set_hdr (with_head (hd +64 consumed)) r else r)
                out None) in
      if (zlen out <? limit) && (consumed <? available) then
        match read_pass (available -64 consumed) (Z.land (hd +64 consumed) (mask r)) r with
        | Stop => finish
        | Corrupt => Some (mkRead r out (Some ErrCorrupt))
        | Record_ r step msg =>
            read_loop fuel limit hd available (consumed +64 step) (out ++ msg) r
        end
      else finish
  end.

(** Every pass consumes at least 8 of the [available] bytes. *)
Definition read_fuel (available : Z) : nat := S (S (Z.to_nat (available / 8))).

Definition Read (limit : Z) (r : Ring) : option read_result :=
  if limit <=? 0 then Some (mkRead r [] None)
  else
    let hd := head (hdr r) in
    let available := tail (hdr r) -64 hd in
    read_loop (read_fuel available) limit hd available 0 [] r.

(** [TryRecv] copies the message into [dst] when it fits ([cap(dst)] bytes) and
    into a fresh slice otherwise: the bytes returned are the same. *)
Definition TryRecv (r : Ring) : option (Ring * result delivery) :=
  match Read 1 r with
  | None => None
  | Some (mkRead r _ (Some e)) => Some (r, Err e)
  | Some (mkRead r [] None) => Some (r, Err ErrEmpty)
  | Some (mkRead r (m :: _) None) => Some (r, Ok m)
  end.
