(* ===== verification/RingInv.v ===== *)
(** * Representation of the ring's contents

    The data region seen from a cursor is a window: the bytes of the region
    rotated so that the byte of the cursor comes first. The claims between two
    cursors are segments that tile the window, and what is not claimed is zero.
    The lemmas here give the effect of each header access, fill, claim and
    release on that view; the sequential and the concurrent theorems share
    them. *)

From stdpp Require Import base numbers list list_numbers option.
From coqutil Require Import Byte Word.LittleEndianList.
From Stdlib Require Import ZArith Lia Bool.
From S2P Require Import Prelude Ipc Ring.

(** ** Windows *)

Definition window (d : list byte) (hd : Z) : list byte :=
  let i := hd mod zlen d in sub d i (zlen d - i) ++ sub d 0 i.

Lemma mod_window (hd p n : Z) :
  0 < n -> hd <= p < hd + n ->
  p mod n = if decide (hd mod n + (p - hd) < n) then hd mod n + (p - hd)
            else hd mod n + (p - hd) - n.
Proof.
  intros Hn Hp. pose proof (Z.mod_pos_bound hd n Hn).
  pose proof (Z.div_mod hd n ltac:(lia)).
  case_decide.
  - symmetry; apply (Z.mod_unique _ _ (hd / n)); lia.
  - symmetry; apply (Z.mod_unique _ _ (hd / n + 1)); lia.
Qed.

Lemma zlen_window d hd : 0 < zlen d -> zlen (window d hd) = zlen d.
Proof.
  intros Hd. unfold window. pose proof (Z.mod_pos_bound hd (zlen d) Hd).
  rewrite zlen_app, !zlen_sub by lia. lia.
Qed.

Lemma lookup_window d hd (i : nat) :
  0 < zlen d -> Z.of_nat i < zlen d ->
  window d hd !! i = d !! Z.to_nat ((hd + Z.of_nat i) mod zlen d).
Proof.
  intros Hd Hi. unfold window. pose proof (Z.mod_pos_bound hd (zlen d) Hd).
  rewrite (mod_window hd (hd + Z.of_nat i)) by lia.
  assert (Hl : zlen (sub d (hd mod zlen d) (zlen d - hd mod zlen d)) = zlen d - hd mod zlen d)
    by (apply zlen_sub; lia).
  unfold zlen at 1 in Hl. case_decide.
  - rewrite lookup_app_l by lia. rewrite lookup_sub by lia. rewrite decide_True by lia.
    f_equal; lia.
  - rewrite lookup_app_r by lia. rewrite lookup_sub by lia. rewrite decide_True by lia.
    f_equal; lia.
Qed.

(** Equality of two byte lists of the same length, byte by byte. *)
Lemma list_eq_zlen (l1 l2 : list byte) :
  zlen l1 = zlen l2 ->
  (forall i : nat, Z.of_nat i < zlen l1 -> l1 !! i = l2 !! i) -> l1 = l2.
Proof.
  unfold zlen. intros Hl Heq. apply list_eq_same_length with (n := length l2); [lia|lia|].
  intros i x y Hi Hx Hy. rewrite Heq in Hx by lia. congruence.
Qed.

(** A write at a cursor is the same write in the window. *)
Lemma window_blit d hd p bs :
  0 < zlen d ->
  hd <= p -> p + zlen bs <= hd + zlen d -> p mod zlen d + zlen bs <= zlen d ->
  window (blit d (p mod zlen d) bs) hd = blit (window d hd) (p - hd) bs.
Proof.
  intros Hd ???. pose proof (Z.mod_pos_bound p (zlen d) Hd). pose proof (zlen_nonneg bs).
  assert (Hl : zlen (blit d (p mod zlen d) bs) = zlen d) by (apply zlen_blit; lia).
  apply list_eq_zlen.
  { rewrite zlen_blit; rewrite ?zlen_window; lia. }
  intros i Hi. rewrite zlen_window in Hi by lia.
  rewrite lookup_blit by (rewrite ?zlen_window; lia).
  rewrite !lookup_window by lia. rewrite Hl.
  set (q := (hd + Z.of_nat i) mod zlen d).
  assert (Hq : q = p mod zlen d + (hd + Z.of_nat i - p) \/
               (hd + Z.of_nat i < p \/ p + zlen bs <= hd + Z.of_nat i) /\
               (q < p mod zlen d \/ p mod zlen d + zlen bs <= q)).
  { unfold q. rewrite (mod_window hd (hd + Z.of_nat i)) by lia.
    destruct (decide (p = hd + zlen d)) as [->|].
    { right. lia. }
    rewrite (mod_window hd p) in * by lia. pose proof (Z.mod_pos_bound hd (zlen d) Hd).
    repeat case_decide; lia. }
  pose proof (Z.mod_pos_bound (hd + Z.of_nat i) (zlen d) Hd) as Hqb. fold q in Hqb.
  rewrite lookup_blit by lia. destruct Hq as [Hq|[??]].
  - case_decide; case_decide; try lia; [f_equal; lia|done].
  - rewrite !decide_False by lia. done.
Qed.

(** A read at a cursor is the same read in the window. *)
Lemma sub_window d hd p n :
  0 < zlen d -> 0 <= n ->
  hd <= p -> p + n <= hd + zlen d -> p mod zlen d + n <= zlen d ->
  sub d (p mod zlen d) n = sub (window d hd) (p - hd) n.
Proof.
  intros Hd ????. pose proof (Z.mod_pos_bound p (zlen d) Hd).
  apply list_eq; intros i. rewrite !lookup_sub by lia. case_decide; [|done].
  rewrite lookup_window by lia. f_equal.
  replace (hd + Z.of_nat (Z.to_nat (p - hd) + i)) with (p + Z.of_nat i) by lia.
  rewrite (mod_window p (p + Z.of_nat i)) by lia. case_decide; lia.
Qed.

(** Moving the cursor forward moves the bytes it passed to the far end. *)
Lemma window_advance d hd n :
  0 < zlen d -> 0 <= n <= zlen d ->
  window d (hd + n) = sub (window d hd) n (zlen d - n) ++ sub (window d hd) 0 n.
Proof.
  intros Hd Hn. apply list_eq_zlen.
  { rewrite zlen_app, !zlen_sub, !zlen_window by (rewrite ?zlen_window; lia). lia. }
  intros i Hi. rewrite zlen_window in Hi by lia. rewrite lookup_window by lia.
  assert (Hl : zlen (sub (window d hd) n (zlen d - n)) = zlen d - n)
    by (apply zlen_sub; rewrite ?zlen_window; lia).
  unfold zlen at 1 in Hl. destruct (decide (Z.of_nat i < zlen d - n)).
  - rewrite lookup_app_l by lia. rewrite lookup_sub, decide_True by lia.
    rewrite lookup_window by lia.
    replace (hd + Z.of_nat (Z.to_nat n + i)) with (hd + n + Z.of_nat i) by lia. done.
  - rewrite lookup_app_r by lia. rewrite lookup_sub, decide_True by lia.
    rewrite lookup_window by lia. f_equal.
    replace (hd + n + Z.of_nat i) with
      (hd + Z.of_nat (Z.to_nat 0 + (i - length (sub (window d hd) n (zlen d - n)))) + 1 * zlen d)
      by lia.
    by rewrite Z.mod_add by lia.
Qed.

Lemma window_zeros n hd : 0 < n -> window (zeros n) hd = zeros n.
Proof.
  intros. unfold window. rewrite zlen_zeros by lia.
  pose proof (Z.mod_pos_bound hd n ltac:(lia)).
  rewrite !sub_zeros by lia. rewrite <-zeros_app by lia. f_equal; lia.
Qed.

(** ** Record sizes *)

Lemma align_spec n : 0 <= n -> n + 7 < 2 ^ 31 -> align n = (n + 7) / 8 * 8.
Proof.
  intros. unfold align, recordAlignment. rewrite i32_small by lia.
  rewrite <-Z.ldiff_land. change (8 - 1) with (Z.ones 3). rewrite Z.ldiff_ones_r by lia.
  rewrite Z.shiftl_mul_pow2, Z.shiftr_div_pow2 by lia. change (2 ^ 3) with 8.
  replace (n + 8 - 1) with (n + 7) by lia.
  apply u64_small. pose proof (Z.div_mod (n + 7) 8 ltac:(lia)).
  pose proof (Z.mod_pos_bound (n + 7) 8 ltac:(lia)). lia.
Qed.

(** A record of [n] bytes takes the [m]-byte segment it is aligned to. *)
Lemma align_fits n m :
  0 <= n -> n + 7 < 2 ^ 31 -> m mod 8 = 0 -> m - 8 < n <= m -> align n = m.
Proof.
  intros. rewrite align_spec by lia.
  pose proof (Z.div_mod (n + 7) 8 ltac:(lia)).
  pose proof (Z.mod_pos_bound (n + 7) 8 ltac:(lia)).
  pose proof (Z.div_mod m 8 ltac:(lia)). lia.
Qed.

Lemma align_bounds n :
  0 <= n -> n + 7 < 2 ^ 31 ->
  align n mod 8 = 0 /\ n <= align n < n + 8.
Proof.
  intros. rewrite align_spec by lia.
  pose proof (Z.div_mod (n + 7) 8 ltac:(lia)).
  pose proof (Z.mod_pos_bound (n + 7) 8 ltac:(lia)).
  split; [apply Z.mod_mul; lia|lia].
Qed.

Lemma hasRoom_spec tl hd cap need :
  0 <= hd <= tl -> tl < 2 ^ 64 -> 0 <= cap < 2 ^ 64 ->
  hasRoom tl hd cap need = (need <=? cap - (tl - hd)) && (tl - hd <=? cap).
Proof.
  intros. unfold hasRoom. unwrap.
  destruct (Z.ltb_spec tl hd); [lia|]. simpl.
  destruct (Z.ltb_spec cap (tl - hd)).
  - rewrite (proj2 (Z.leb_gt (tl - hd) cap)) by lia. by rewrite andb_false_r.
  - rewrite (proj2 (Z.leb_le (tl - hd) cap)) by lia. rewrite andb_true_r.
    by rewrite u64_small by lia.
Qed.

(** ** Segments *)

(** One claim of the data region: its header fields and the bytes after them. *)
Record seg : Type := mkSeg { s_len : Z; s_typ : Z; s_body : list byte }.

Definition seg_size (s : seg) : Z := RecordHeaderSize + zlen (s_body s).
Definition seg_bytes (s : seg) : list byte := put32 (s_len s) ++ put32 (s_typ s) ++ s_body s.
Definition segs_bytes (segs : list seg) : list byte := mjoin (seg_bytes <$> segs).
Definition segs_size (segs : list seg) : Z := zlen (segs_bytes segs).
Definition zero_seg (n : Z) : seg := mkSeg 0 0 (zeros (n - RecordHeaderSize)).

(** The length field is 0, the length of a record that fills the segment, or
    that length negated. *)
Definition len_ok (s : seg) : Prop :=
  s_len s = 0 \/
  exists n, Z.max 8 (seg_size s - 7) <= n <= seg_size s /\ (s_len s = n \/ s_len s = - n).

(** A segment placed at cursor [pos] of a region of [cap] bytes. *)
Record seg_at (cap pos : Z) (s : seg) : Prop := {
  seg_aligned : seg_size s mod 8 = 0;
  seg_small : seg_size s < 2 ^ 31;
  seg_straight : pos mod cap + seg_size s <= cap;
  seg_typ : 0 <= s_typ s < 2 ^ 32;
  seg_len : len_ok s }.

Fixpoint segs_at (cap pos : Z) (segs : list seg) : Prop :=
  match segs with
  | [] => True
  | s :: rest => seg_at cap pos s /\ segs_at cap (pos + seg_size s) rest
  end.

Lemma zlen_seg_bytes s : zlen (seg_bytes s) = seg_size s.
Proof. unfold seg_bytes, seg_size, RecordHeaderSize. autorewrite with bytes. lia. Qed.

Lemma seg_size_ge s : 8 <= seg_size s.
Proof. unfold seg_size, RecordHeaderSize. pose proof (zlen_nonneg (s_body s)). lia. Qed.

Lemma segs_bytes_app l1 l2 : segs_bytes (l1 ++ l2) = segs_bytes l1 ++ segs_bytes l2.
Proof. unfold segs_bytes. by rewrite fmap_app, join_app. Qed.

Lemma segs_bytes_cons s l : segs_bytes (s :: l) = seg_bytes s ++ segs_bytes l.
Proof. done. Qed.

Lemma segs_size_app l1 l2 : segs_size (l1 ++ l2) = segs_size l1 + segs_size l2.
Proof. unfold segs_size. by rewrite segs_bytes_app, zlen_app. Qed.

Lemma segs_size_cons s l : segs_size (s :: l) = seg_size s + segs_size l.
Proof. unfold segs_size. by rewrite segs_bytes_cons, zlen_app, zlen_seg_bytes. Qed.

Lemma segs_size_nil : segs_size [] = 0.
Proof. done. Qed.

Lemma segs_size_nonneg l : 0 <= segs_size l.
Proof. apply zlen_nonneg. Qed.

Lemma seg_bytes_zero n : 8 <= n -> seg_bytes (zero_seg n) = zeros n.
Proof.
  intros. unfold seg_bytes, zero_seg; cbn [s_len s_typ s_body]. rewrite put32_zero.
  unfold RecordHeaderSize. rewrite <-!zeros_app by lia. f_equal; lia.
Qed.

Lemma seg_size_zero n : 8 <= n -> seg_size (zero_seg n) = n.
Proof. intros. unfold seg_size, zero_seg, RecordHeaderSize; simpl. rewrite zlen_zeros; lia. Qed.

#[export] Hint Rewrite zlen_seg_bytes segs_size_app segs_size_cons segs_size_nil : bytes.

Lemma segs_at_app cap pos l1 l2 :
  segs_at cap pos (l1 ++ l2) <-> segs_at cap pos l1 /\ segs_at cap (pos + segs_size l1) l2.
Proof.
  revert pos. induction l1 as [|s l1 IH]; intros pos; simpl.
  - rewrite segs_size_nil, Z.add_0_r. tauto.
  - rewrite IH, segs_size_cons, Z.add_assoc. tauto.
Qed.

Lemma segs_size_mod8 cap pos l : segs_at cap pos l -> segs_size l mod 8 = 0.
Proof.
  revert pos. induction l as [|s l IH]; intros pos; [done|].
  intros [Hs Hl]. rewrite segs_size_cons, Z.add_mod by lia.
  rewrite (seg_aligned _ _ _ Hs), (IH _ Hl). done.
Qed.

(** ** The invariant *)

(** What never changes once a ring is set up. *)
Record ring_ok (r : Ring) : Prop := {
  ok_pow : power2 (zlen (data r));
  ok_min : MinCapacity <= zlen (data r);
  ok_max : zlen (data r) < 2 ^ 62;
  ok_cap : capacity (hdr r) = zlen (data r);
  ok_mask : mask r = zlen (data r) - 1 }.

(** The claims [segs] tile the bytes from [head + consumed] to [tail]. The
    reader has zeroed the [consumed] bytes after [head] but not given them
    back, and no producer has claimed the bytes after [tail]. *)
Record tiles (r : Ring) (consumed : Z) (segs : list seg) : Prop := {
  t_ok : ring_ok r;
  t_cache : 0 <= headCache (hdr r) <= head (hdr r);
  t_consumed : 0 <= consumed;
  t_tail : tail (hdr r) = head (hdr r) + consumed + segs_size segs;
  t_room : tail (hdr r) <= head (hdr r) + zlen (data r);
  t_nowrap : tail (hdr r) < 2 ^ 64;
  t_align : (head (hdr r) + consumed) mod 8 = 0;
  t_segs : segs_at (zlen (data r)) (head (hdr r) + consumed) segs;
  t_window : window (data r) (head (hdr r)) =
    zeros consumed ++ segs_bytes segs ++ zeros (head (hdr r) + zlen (data r) - tail (hdr r)) }.

Lemma ring_pos r : ring_ok r -> 0 < zlen (data r).
Proof. intros []. unfold MinCapacity in *. lia. Qed.

Lemma Capacity_ok r : ring_ok r -> Capacity r = zlen (data r).
Proof. intros []. unfold Capacity. lia. Qed.

Lemma u64_Capacity r : ring_ok r -> u64 (Capacity r) = zlen (data r).
Proof. intros Hok. rewrite Capacity_ok by done. pose proof (ring_pos r Hok). destruct Hok. apply u64_small. lia. Qed.

Lemma index_ok r c : ring_ok r -> Z.land c (mask r) = c mod zlen (data r).
Proof. intros []. rewrite ok_mask0. by apply land_mask. Qed.

Lemma cap_mod8 cap : power2 cap -> 4096 <= cap -> (8 | cap).
Proof.
  intros (k & Hk & ->) Hmin.
  assert (3 <= k).
  { destruct (decide (3 <= k)); [done|].
    assert (2 ^ k <= 2 ^ 3) by (apply Z.pow_le_mono_r; lia). lia. }
  exists (2 ^ (k - 3)). change 8 with (2 ^ 3). rewrite <-Z.pow_add_r by lia. f_equal; lia.
Qed.

Lemma index_mod8 cap c : (8 | cap) -> c mod 8 = 0 -> (c mod cap) mod 8 = 0.
Proof. intros. by rewrite Z.mod_mod_divide. Qed.

(** Cursors at multiples of 8 leave room for a header before the end. *)
Lemma index_room cap c : 0 < cap -> (8 | cap) -> c mod 8 = 0 -> c mod cap + 8 <= cap.
Proof.
  intros Hcap Hdvd Hc. pose proof (index_mod8 cap c Hdvd Hc) as Hm.
  assert (H8 : cap mod 8 = 0) by (apply Z.mod_divide; [lia|done]).
  pose proof (Z.mod_pos_bound c cap Hcap).
  pose proof (Z.div_mod cap 8 ltac:(lia)).
  pose proof (Z.div_mod (c mod cap) 8 ltac:(lia)). lia.
Qed.

Lemma ok_dvd r : ring_ok r -> (8 | zlen (data r)).
Proof. intros []. by apply cap_mod8. Qed.

(** ** Effects on the tiling *)

Section effects.
Context (r : Ring) (k : Z) (pre : list seg) (s : seg) (post : list seg).
Context (T : tiles r k (pre ++ s :: post)).
Let cap := zlen (data r).
Let pos := head (hdr r) + k + segs_size pre.

Lemma t_head_nonneg : 0 <= head (hdr r).
Proof using T. destruct T as [? []]. lia. Qed.

Lemma t_pos_bounds : head (hdr r) + k <= pos /\ pos + seg_size s <= tail (hdr r).
Proof using T.
  destruct T as [_ _ _ Htl _ _ _ _ _]. revert Htl. unfold pos. autorewrite with bytes. intros.
  pose proof (segs_size_nonneg pre). pose proof (segs_size_nonneg post). lia.
Qed.

Lemma t_here : seg_at cap pos s.
Proof using T. destruct T as [_ _ _ _ _ _ _ Hs _]. apply segs_at_app in Hs as [_ [? _]]. done. Qed.

(** Reading inside the segment is reading its bytes. *)
Lemma t_read off n :
  0 <= off -> 0 <= n -> off + n <= seg_size s ->
  sub (data r) (pos mod cap + off) n = sub (seg_bytes s) off n.
Proof using T.
  intros. pose proof t_here as Hs. pose proof t_pos_bounds. pose proof t_head_nonneg.
  destruct T as [Hok _ Hk Htl Hroom _ _ _ Hw]. pose proof (ring_pos r Hok).
  pose proof (seg_straight _ _ _ Hs).
  replace (sub (data r) (pos mod cap + off) n)
    with (sub (sub (data r) (pos mod cap) (seg_size s)) off n) by (apply sub_sub; lia || (pose proof (Z.mod_pos_bound pos cap); lia)).
  f_equal. unfold cap. rewrite (sub_window (data r) (head (hdr r))) by (fold cap; pose proof (seg_size_ge s); lia).
  rewrite Hw, segs_bytes_app, segs_bytes_cons, <-!app_assoc, (app_assoc (zeros k)).
  apply sub_app_mid; rewrite ?zlen_app, ?zlen_zeros, ?zlen_seg_bytes by lia; unfold pos, segs_size; lia.
Qed.

Lemma t_loadLength : loadLength r (pos mod cap) = s_len s.
Proof using T.
  pose proof (t_read 0 4 ltac:(lia) ltac:(lia) ltac:(pose proof (seg_size_ge s); lia)) as Hr.
  rewrite Z.add_0_r in Hr. unfold loadLength, get_i32, get_u32. rewrite Hr.
  change (i32 (get_u32 (seg_bytes s) 0) = s_len s). unfold seg_bytes.
  rewrite get_u32_put_0. unfold u32. rewrite i32_mod. apply i32_small.
  pose proof t_here as [_ Hsm _ _ Hl]. pose proof (seg_size_ge s).
  destruct Hl as [->|(n & ? & [->| ->])]; lia.
Qed.

Lemma t_loadType : loadType r (pos mod cap) = s_typ s.
Proof using T.
  pose proof (t_read 4 4 ltac:(lia) ltac:(lia) ltac:(pose proof (seg_size_ge s); lia)) as Hr.
  unfold loadType, get_u32. rewrite Hr. change (get_u32 (seg_bytes s) 4 = s_typ s). unfold seg_bytes.
  rewrite get_u32_put by (by rewrite zlen_put32). apply u32_small. apply (seg_typ _ _ _ t_here).
Qed.

Lemma t_payload n :
  8 <= n <= seg_size s ->
  sub (data r) (pos mod cap + RecordHeaderSize) (n - RecordHeaderSize) = take (Z.to_nat (n - 8)) (s_body s).
Proof using T.
  intros. unfold RecordHeaderSize. rewrite t_read by lia.
  unfold seg_bytes. rewrite app_assoc, sub_app_r by (autorewrite with bytes; lia).
  autorewrite with bytes. unfold sub. by rewrite drop_0.
Qed.

(** Writing inside the segment changes that segment and nothing else. *)
Lemma t_write off bs s' :
  0 <= off -> off + zlen bs <= seg_size s -> seg_bytes s' = blit (seg_bytes s) off bs ->
  seg_at cap pos s' ->
  tiles (set_data (blit (data r) (pos mod cap + off) bs) r) k (pre ++ s' :: post).
Proof using T.
  intros Hoff Hlen Hb Hs'. pose proof t_here as Hs. pose proof t_pos_bounds. pose proof t_head_nonneg.
  destruct T as [Hok Hc Hk Htl Hroom Hnw Hal Hsegs Hw]. pose proof (ring_pos r Hok).
  pose proof (seg_straight _ _ _ Hs). pose proof (seg_size_ge s). pose proof (zlen_nonneg bs).
  pose proof (Z.mod_pos_bound pos cap ltac:(lia)).
  assert (Hsz : seg_size s' = seg_size s).
  { rewrite <-!zlen_seg_bytes, Hb. apply zlen_blit; rewrite ?zlen_seg_bytes; lia. }
  assert (Hd : zlen (blit (data r) (pos mod cap + off) bs) = cap) by (apply zlen_blit; fold cap; lia).
  assert (Hw' : window (blit (data r) (pos mod cap + off) bs) (head (hdr r)) =
      blit (window (data r) (head (hdr r))) (pos + off - head (hdr r)) bs).
  { destruct (decide (bs = [])) as [->|Hne]; [by rewrite !blit_nil|].
    assert (0 < zlen bs) by (destruct bs; [done|unfold zlen; simpl; lia]).
    assert (Hm : pos mod cap + off = (pos + off) mod cap).
    { rewrite (mod_window pos (pos + off)) by lia. case_decide; lia. }
    rewrite Hm. apply window_blit; fold cap; lia. }
  assert (Hsz' : segs_size (pre ++ s' :: post) = segs_size (pre ++ s :: post))
    by (autorewrite with bytes; lia).
  split; cbn [data hdr set_data]; rewrite ?Hd, ?Hsz'; try done.
  - destruct Hok. split; cbn [data hdr set_data mask]; rewrite ?Hd; done.
  - fold cap in Hsegs. apply segs_at_app in Hsegs as [? [? ?]].
    apply segs_at_app. split; [done|]. split; [done|]. by rewrite Hsz.
  - rewrite Hw', Hw, !segs_bytes_app, !segs_bytes_cons, <-!app_assoc, !(app_assoc (zeros k)).
    replace (pos + off - head (hdr r)) with (zlen (zeros k ++ segs_bytes pre) + off).
    2:{ rewrite zlen_app, zlen_zeros by lia. unfold pos, segs_size. lia. }
    rewrite blit_app_inner by (rewrite ?zlen_seg_bytes; lia). by rewrite Hb.
Qed.

Lemma t_storeLength v s' :
  s' = mkSeg v (s_typ s) (s_body s) -> len_ok s' ->
  tiles (storeLength (pos mod cap) v r) k (pre ++ s' :: post).
Proof using T.
  intros -> Hl. pose proof t_here as []. pose proof (seg_size_ge s). unfold storeLength.
  rewrite <-(Z.add_0_r (pos mod cap)).
  apply t_write; rewrite ?zlen_put32; try lia.
  - unfold seg_bytes; cbn [s_len s_typ s_body].
    symmetry. apply (blit_app_mid []); rewrite ?zlen_put32; done.
  - by split.
Qed.

Lemma t_storeType v s' :
  s' = mkSeg (s_len s) v (s_body s) -> 0 <= v < 2 ^ 32 ->
  tiles (storeType (pos mod cap) v r) k (pre ++ s' :: post).
Proof using T.
  intros -> Hv. pose proof t_here as []. pose proof (seg_size_ge s). unfold storeType.
  apply t_write; rewrite ?zlen_put32; try lia.
  - unfold seg_bytes; cbn [s_len s_typ s_body].
    symmetry. apply blit_app_mid; by rewrite ?zlen_put32.
  - by split.
Qed.

(** The caller writes into the payload. *)
Lemma t_fill off bs s' :
  0 <= off -> off + zlen bs <= zlen (s_body s) ->
  s' = mkSeg (s_len s) (s_typ s) (blit (s_body s) off bs) ->
  tiles (set_data (blit (data r) (pos mod cap + RecordHeaderSize + off) bs) r) k (pre ++ s' :: post).
Proof using T.
  intros ?? ->. pose proof t_here as []. pose proof (seg_size_ge s). unfold RecordHeaderSize.
  assert (Hbl : zlen (blit (s_body s) off bs) = zlen (s_body s)) by (apply zlen_blit; lia).
  assert (Hsz : seg_size (mkSeg (s_len s) (s_typ s) (blit (s_body s) off bs)) = seg_size s)
    by (unfold seg_size; cbn [s_body]; lia).
  rewrite <-Z.add_assoc. apply t_write; try (unfold seg_size, RecordHeaderSize in *; lia).
  - unfold seg_bytes; cbn [s_len s_typ s_body]. rewrite !app_assoc.
    rewrite <-(app_nil_r (s_body s)) at 2.
    replace (8 + off) with (zlen (put32 (s_len s) ++ put32 (s_typ s)) + off)
      by (autorewrite with bytes; lia).
    rewrite blit_app_inner by lia. by rewrite app_nil_r.
  - split; rewrite ?Hsz; try done. unfold len_ok. rewrite Hsz. done.
Qed.

(** The reader clears everything after the length field. *)
Lemma t_clear :
  tiles (set_data (blit (data r) (pos mod cap + 4) (zeros (seg_size s - 4))) r) k
    (pre ++ mkSeg (s_len s) 0 (zeros (zlen (s_body s))) :: post).
Proof using T.
  pose proof t_here as []. pose proof (seg_size_ge s). pose proof (zlen_nonneg (s_body s)).
  assert (Hsz : seg_size (mkSeg (s_len s) 0 (zeros (zlen (s_body s)))) = seg_size s)
    by (unfold seg_size; cbn [s_body]; rewrite zlen_zeros; lia).
  apply t_write; rewrite ?zlen_zeros; try lia.
  - unfold seg_bytes; cbn [s_len s_typ s_body]. rewrite put32_zero, <-zeros_app by lia.
    rewrite <-(app_nil_r (put32 (s_typ s) ++ s_body s)).
    rewrite blit_app_mid; rewrite ?zlen_put32; try done.
    + rewrite app_nil_r. do 2 f_equal. unfold seg_size, RecordHeaderSize. lia.
    + rewrite zlen_zeros, zlen_app, zlen_put32 by lia. unfold seg_size, RecordHeaderSize. lia.
  - split; rewrite ?Hsz; cbn [s_typ]; try done; try lia. unfold len_ok. rewrite Hsz. done.
Qed.
End effects.

(** The index of the segment after [pre]. It is stated on the control block,
    which stores to the data leave alone. *)
Definition seg_index (r : Ring) (k : Z) (pre : list seg) : Z :=
  (head (hdr r) + k + segs_size pre) mod capacity (hdr r).

Section accesses.
Context (r : Ring) (k : Z) (pre : list seg) (s : seg) (post : list seg).
Context (T : tiles r k (pre ++ s :: post)).

Lemma seg_index_eq :
  seg_index r k pre = (head (hdr r) + k + segs_size pre) mod zlen (data r).
Proof using T. unfold seg_index. by rewrite (ok_cap _ (t_ok _ _ _ T)). Qed.

Lemma tiles_loadLength : loadLength r (seg_index r k pre) = s_len s.
Proof using T. rewrite seg_index_eq. by eapply t_loadLength. Qed.

Lemma tiles_loadType : loadType r (seg_index r k pre) = s_typ s.
Proof using T. rewrite seg_index_eq. by eapply t_loadType. Qed.

Lemma tiles_payload n :
  8 <= n <= seg_size s ->
  sub (data r) (seg_index r k pre + RecordHeaderSize) (n - RecordHeaderSize) =
  take (Z.to_nat (n - 8)) (s_body s).
Proof using T. rewrite seg_index_eq. by eapply t_payload. Qed.

Lemma tiles_storeLength v :
  len_ok (mkSeg v (s_typ s) (s_body s)) ->
  tiles (storeLength (seg_index r k pre) v r) k (pre ++ mkSeg v (s_typ s) (s_body s) :: post).
Proof using T. intros. rewrite seg_index_eq. by eapply t_storeLength. Qed.

Lemma tiles_storeType v :
  0 <= v < 2 ^ 32 ->
  tiles (storeType (seg_index r k pre) v r) k (pre ++ mkSeg (s_len s) v (s_body s) :: post).
Proof using T. intros. rewrite seg_index_eq. by eapply t_storeType. Qed.

Lemma tiles_fill off bs :
  0 <= off -> off + zlen bs <= zlen (s_body s) ->
  tiles (set_data (blit (data r) (seg_index r k pre + RecordHeaderSize + off) bs) r) k
    (pre ++ mkSeg (s_len s) (s_typ s) (blit (s_body s) off bs) :: post).
Proof using T. intros. rewrite seg_index_eq. by eapply t_fill. Qed.

Lemma tiles_clear :
  tiles (set_data (blit (data r) (seg_index r k pre + 4) (zeros (seg_size s - 4))) r) k
    (pre ++ mkSeg (s_len s) 0 (zeros (zlen (s_body s))) :: post).
Proof using T. rewrite seg_index_eq. by eapply t_clear. Qed.

(** The segment ends within the data region. *)
Lemma tiles_straight : seg_index r k pre + seg_size s <= zlen (data r).
Proof using T. rewrite seg_index_eq. eapply seg_straight. by eapply t_here. Qed.

Lemma tiles_seg_len : len_ok s /\ seg_size s < 2 ^ 31 /\ seg_size s mod 8 = 0.
Proof using T. destruct (t_here _ _ _ _ _ T). done. Qed.
End accesses.

(** Stores to other fields of the control block keep the tiling. *)
Lemma tiles_hdr r r' k segs :
  tiles r k segs ->
  data r' = data r -> mask r' = mask r -> capacity (hdr r') = capacity (hdr r) ->
  head (hdr r') = head (hdr r) -> tail (hdr r') = tail (hdr r) ->
  0 <= headCache (hdr r') <= head (hdr r) ->
  tiles r' k segs.
Proof.
  intros [[] ? ? ? ? ? ? ? ?] Hd Hm Hc Hh Ht Hhc.
  split; rewrite ?Hd, ?Hm, ?Hc, ?Hh, ?Ht; try done.
  split; rewrite ?Hd, ?Hm, ?Hc; done.
Qed.

Lemma seg_at_zero cap pos n :
  8 <= n < 2 ^ 31 -> n mod 8 = 0 -> pos mod cap + n <= cap -> seg_at cap pos (zero_seg n).
Proof.
  intros. split; rewrite ?seg_size_zero by lia; try done; try lia.
  by left.
Qed.

(** A producer that moves the tail claims zeroed bytes. *)
Lemma tiles_claim r k segs n :
  tiles r k segs -> 8 <= n < 2 ^ 31 -> n mod 8 = 0 ->
  tail (hdr r) mod zlen (data r) + n <= zlen (data r) ->
  tail (hdr r) + n <= head (hdr r) + zlen (data r) -> tail (hdr r) + n < 2 ^ 64 ->
  tiles (set_hdr (with_tail (tail (hdr r) + n)) r) k (segs ++ [zero_seg n]).
Proof.
  intros T Hn H8 Hst Hroom Hnw. destruct T as [Hok Hc Hk Htl _ _ Hal Hs Hw].
  split; cbn [data hdr set_hdr with_tail head tail headCache]; try done.
  - destruct Hok. split; done.
  - autorewrite with bytes. rewrite seg_size_zero by lia. lia.
  - apply segs_at_app. split; [done|]. split; [|done].
    apply seg_at_zero; [done..|]. by rewrite <-Htl.
  - rewrite Hw, segs_bytes_app, segs_bytes_cons, <-!app_assoc, seg_bytes_zero by lia.
    do 2 f_equal. cbn [segs_bytes mjoin list_join fmap list_fmap app]. rewrite <-zeros_app by lia.
    f_equal. lia.
Qed.

(** The reader has zeroed the first segment. *)
Lemma tiles_absorb r k n segs :
  8 <= n -> tiles r k (zero_seg n :: segs) -> tiles r (k + n) segs.
Proof.
  intros Hn [Hok Hc Hk Htl Hroom Hnw Hal [Hs Hsegs] Hw].
  rewrite segs_size_cons, seg_size_zero in Htl by lia. rewrite seg_size_zero in Hsegs by lia.
  destruct Hs as [Hs8 _ _ _ _]. rewrite seg_size_zero in Hs8 by lia.
  split; try done; try lia.
  - rewrite Z.add_assoc, Z.add_mod, Hal, Hs8 by lia. done.
  - by rewrite Z.add_assoc.
  - rewrite Hw, segs_bytes_cons, seg_bytes_zero, <-app_assoc, app_assoc by lia.
    by rewrite <-zeros_app by lia.
Qed.

(** The reader gives the consumed bytes back. *)
Lemma tiles_head r k segs :
  tiles r k segs -> tiles (set_hdr (with_head (head (hdr r) + k)) r) 0 segs.
Proof.
  intros [Hok Hc Hk Htl Hroom Hnw Hal Hs Hw]. pose proof (ring_pos r Hok).
  pose proof (segs_size_nonneg segs).
  split; cbn [data hdr set_hdr with_head head tail headCache]; rewrite ?Z.add_0_r; try done; try lia.
  - destruct Hok. split; done.
  - rewrite window_advance by lia. rewrite Hw.
    rewrite sub_app_r by (rewrite zlen_zeros; lia). rewrite zlen_zeros by lia.
    rewrite Z.sub_diag, sub_all.
    2:{ rewrite zlen_app, zlen_zeros by lia. unfold segs_size in *. lia. }
    rewrite sub_app_l by (rewrite ?zlen_zeros; lia).
    rewrite take_ge by (unfold zeros; rewrite length_replicate; lia).
    rewrite <-app_assoc, <-zeros_app by lia. change (zeros 0) with (@nil byte). cbn [app].
    do 2 f_equal. lia.
Qed.

(** A freshly formatted ring holds nothing. *)
Lemma tiles_init r :
  ring_ok r -> tail (hdr r) = 0 -> head (hdr r) = 0 -> headCache (hdr r) = 0 ->
  data r = zeros (zlen (data r)) -> tiles r 0 [].
Proof.
  intros Hok Ht Hh Hc Hd. pose proof (ring_pos r Hok).
  split; rewrite ?Ht, ?Hh, ?Hc; try done; try lia.
  rewrite Hd at 1. rewrite window_zeros by done.
  change (zeros 0) with (@nil byte). cbn [app segs_bytes mjoin list_join fmap list_fmap].
  f_equal. lia.
Qed.
