(* ===== verification/RingSeq.v ===== *)
(** * One handle on the ring, without interference

    What [tryClaim], [Commit], [Abort], [tryWrite], [Read] and [TryRecv] do to
    the claims in the ring, that a formatted buffer attaches, and that the
    reader survives any memory contents. *)

From stdpp Require Import base numbers list list_numbers option.
From coqutil Require Import Byte Word.LittleEndianList.
From Stdlib Require Import ZArith Lia Bool.
From S2P Require Import Prelude Ipc Ring RingInv.

(** ** Claims *)

(** The bytes a claim of [n] takes at cursor [tl], and the padding it puts
    before the record when the record would straddle the end. *)
Definition claim_need (cap tl n : Z) : Z :=
  if cap - tl mod cap <? n then n + (cap - tl mod cap) else n.
Definition pad_seg (n : Z) : seg := mkSeg n TypePadding (zeros (n - RecordHeaderSize)).
Definition pads (cap tl n : Z) : list seg :=
  if cap - tl mod cap <? n then [pad_seg (cap - tl mod cap)] else [].

(** The cursor stays clear of its 64-bit limit: a claim takes less than 2^32. *)
Definition cursor_room (r : Ring) : Prop := tail (hdr r) + 2 ^ 32 <= 2 ^ 64.

(** The slots once the producer has published its intent. *)
Definition claim_intent (slot tl need : Z) (l : list claimSlot) : list claimSlot :=
  if 0 <=? slot then alter (fun s => mkSlot (owner s) tl need) (Z.to_nat slot) l else l.

(** The control block after a claim of [need] bytes through [slot]. *)
Definition claimed_hdr (slot need : Z) (r : Ring) (h : ringHeader) : Prop :=
  tail h = tail (hdr r) + need /\ head h = head (hdr r) /\ consumer h = consumer (hdr r) /\
  recvWaiters h = recvWaiters (hdr r) /\ sendWaiters h = sendWaiters (hdr r) /\
  slots h = claim_intent slot (tail (hdr r)) need (slots (hdr r)).

Lemma seg_size_pad n : 8 <= n -> seg_size (pad_seg n) = n.
Proof. intros. unfold seg_size, pad_seg, RecordHeaderSize; simpl. rewrite zlen_zeros; lia. Qed.

Lemma slots_intent slot tl need r :
  slots (hdr (if 0 <=? slot then store_at slot tl (store_size slot need r) else r)) =
  claim_intent slot tl need (slots (hdr r)).
Proof.
  unfold claim_intent. case_match; [|done]. cbn.
  apply list_eq; intros i. destruct (decide (i = Z.to_nat slot)) as [->|].
  - rewrite !list_lookup_alter_eq. by destruct (slots (hdr r) !! _).
  - by rewrite !list_lookup_alter_ne by done.
Qed.

Lemma tiles_store_slot slot v w r k segs :
  tiles r k segs ->
  tiles (if 0 <=? slot then store_at slot v (store_size slot w r) else r) k segs.
Proof. intros T. case_match; [|done]. eapply tiles_hdr; try done. apply T. Qed.

Lemma tiles_release slot r k segs : tiles r k segs -> tiles (release slot r) k segs.
Proof. intros T. unfold release. case_match; [|done]. eapply tiles_hdr; try done. apply T. Qed.

Lemma tail_mod8 r k segs : tiles r k segs -> tail (hdr r) mod 8 = 0.
Proof.
  intros T. rewrite (t_tail _ _ _ T), Z.add_mod, (t_align _ _ _ T) by lia.
  by rewrite (segs_size_mod8 _ _ _ (t_segs _ _ _ T)).
Qed.

Lemma head_le_tail r k segs : tiles r k segs -> 0 <= head (hdr r) + k <= tail (hdr r).
Proof.
  intros T. pose proof (t_tail _ _ _ T). pose proof (t_consumed _ _ _ T).
  pose proof (t_cache _ _ _ T). pose proof (segs_size_nonneg segs). lia.
Qed.

(** The bytes from a cursor to the end of its lap. *)
Definition lap_left (cap c : Z) : Z := cap - c mod cap.

Lemma lap_left_spec cap c :
  0 < cap -> (8 | cap) -> c mod 8 = 0 ->
  8 <= lap_left cap c <= cap /\ lap_left cap c mod 8 = 0 /\ (c + lap_left cap c) mod cap = 0.
Proof.
  intros Hcap Hdvd H8. unfold lap_left. pose proof (index_room cap c Hcap Hdvd H8).
  pose proof (Z.mod_pos_bound c cap Hcap). pose proof (index_mod8 _ _ Hdvd H8). split; [lia|]. split.
  - apply Z.mod_divide; [lia|]. apply Z.divide_sub_r; [done|]. by apply Z.mod_divide.
  - replace (c + _) with ((c / cap + 1) * cap) by (pose proof (Z.div_mod c cap ltac:(lia)); lia).
    apply Z.mod_mul; lia.
Qed.

(** Moving the tail over the rest of the lap and a record after it. *)
Lemma tiles_claim_two r k segs n toEnd :
  tiles r k segs -> 8 <= n < 2 ^ 31 -> n mod 8 = 0 ->
  toEnd = lap_left (zlen (data r)) (tail (hdr r)) -> toEnd < n ->
  tail (hdr r) + (n + toEnd) <= head (hdr r) + zlen (data r) -> tail (hdr r) + (n + toEnd) < 2 ^ 64 ->
  tiles (set_hdr (with_tail (tail (hdr r) + (n + toEnd))) r) k (segs ++ zero_seg toEnd :: [zero_seg n]).
Proof.
  intros T Hn Hn8 HE HEn Hroom Hnw. pose proof (t_ok _ _ _ T) as Hok. pose proof (ring_pos r Hok).
  destruct (lap_left_spec (zlen (data r)) (tail (hdr r))) as (? & ? & Hz);
    [lia|by apply ok_dvd|by eapply tail_mod8|]. rewrite <-HE in *.
  pose proof (head_le_tail _ _ _ T). pose proof (t_consumed _ _ _ T).
  assert (T1 : tiles (set_hdr (with_tail (tail (hdr r) + toEnd)) r) k (segs ++ [zero_seg toEnd]))
    by (apply tiles_claim; try done; unfold lap_left in *; lia).
  eapply tiles_claim with (n := n) in T1; cbn [hdr data set_hdr with_tail head tail] in *;
    try done; try lia.
  rewrite <-app_assoc in T1. eapply tiles_hdr; [exact T1|..]; try done.
  - cbn. lia.
  - cbn. apply T.
Qed.

(** The same, with the padding record written. *)
Lemma tiles_claim_wrap r k segs n toEnd :
  tiles r k segs -> 8 <= n < 2 ^ 31 -> n mod 8 = 0 ->
  toEnd = zlen (data r) - tail (hdr r) mod zlen (data r) -> toEnd < n ->
  tail (hdr r) + (n + toEnd) <= head (hdr r) + zlen (data r) -> tail (hdr r) + (n + toEnd) < 2 ^ 64 ->
  let idx := tail (hdr r) mod zlen (data r) in
  tiles (storeLength idx toEnd (storeType idx TypePadding
           (set_hdr (with_tail (tail (hdr r) + (n + toEnd))) r))) k
    (segs ++ [pad_seg toEnd; zero_seg n]).
Proof.
  intros T Hn Hn8 HE HEn Hroom Hnw idx. pose proof (t_ok _ _ _ T) as Hok. pose proof (ring_pos r Hok).
  destruct (lap_left_spec (zlen (data r)) (tail (hdr r))) as (? & ? & Hz);
    [lia|by apply ok_dvd|by eapply tail_mod8|]. unfold lap_left in *. rewrite <-HE in *.
  pose proof (tiles_claim_two r k segs n toEnd T Hn Hn8 HE HEn Hroom Hnw) as T2.
  assert (Hidx : idx = seg_index (set_hdr (with_tail (tail (hdr r) + (n + toEnd))) r) k segs).
  { unfold idx, seg_index. cbn. rewrite (ok_cap _ Hok). f_equal. pose proof (t_tail _ _ _ T). lia. }
  rewrite Hidx.
  apply (tiles_storeType _ _ _ _ _) with (v := TypePadding) in T2; [|unfold TypePadding; lia].
  apply (tiles_storeLength _ _ _ _ _) with (v := toEnd) in T2; [exact T2|].
  right. exists toEnd. unfold seg_size. cbn [s_body zero_seg s_len]. unfold RecordHeaderSize.
  rewrite zlen_zeros by lia. lia.
Qed.

(** The tail after the compare-and-swap and the padding, wherever the tail was. *)
Lemma tiles_advance r k segs n :
  tiles r k segs -> cursor_room r -> 8 <= n < 2 ^ 31 -> n mod 8 = 0 ->
  let tl := tail (hdr r) in let cap := zlen (data r) in
  let need := claim_need cap tl n in
  tl + need <= head (hdr r) + cap ->
  let r1 := set_hdr (with_tail (tl + need)) r in
  let idx := tl mod cap in
  tiles (if cap - idx <? n
         then storeLength idx (cap - idx) (storeType idx TypePadding r1) else r1) k
    ((segs ++ pads cap tl n) ++ [zero_seg n]).
Proof.
  intros T Hcr Hn Hn8. cbv zeta. unfold claim_need, pads, cursor_room in *.
  set (cap := zlen (data r)). set (tl := tail (hdr r)).
  case_match; reflect_bools; intros Hroom.
  - rewrite <-app_assoc. apply tiles_claim_wrap; try done; lia.
  - rewrite app_nil_r. apply tiles_claim; try done; fold cap tl; lia.
Qed.

(** What a claim that found room leaves behind. *)
Definition claim_post (slot n : Z) (r : Ring) (k : Z) (segs : list seg) (a : attempt) : Prop :=
  let tl := tail (hdr r) in let cap := zlen (data r) in
  exists r',
    a = Claimed r' (seg_index r' k (segs ++ pads cap tl n)) /\
    tiles r' k ((segs ++ pads cap tl n) ++ [zero_seg n]) /\
    claimed_hdr slot (claim_need cap tl n) r (hdr r').

Lemma claim_need_bounds cap tl n :
  0 < cap -> 8 <= n < 2 ^ 31 -> n <= claim_need cap tl n < 2 ^ 32.
Proof.
  intros. unfold claim_need. pose proof (Z.mod_pos_bound tl cap ltac:(lia)).
  case_match; reflect_bools; lia.
Qed.

(** The cursor after the padding is where the record starts. *)
Lemma pads_index cap tl n :
  0 < cap -> (8 | cap) -> tl mod 8 = 0 ->
  (tl + segs_size (pads cap tl n)) mod cap = if cap - tl mod cap <? n then 0 else tl mod cap.
Proof.
  intros Hcap Hdvd H8. pose proof (index_room cap tl Hcap Hdvd H8). unfold pads.
  destruct (cap - tl mod cap <? n) eqn:E; autorewrite with bytes.
  - rewrite seg_size_pad by lia. replace (_ + _) with ((tl / cap + 1) * cap)
      by (pose proof (Z.div_mod tl cap ltac:(lia)); lia).
    by rewrite Z.mod_mul by lia.
  - by rewrite Z.add_0_r.
Qed.

Lemma claim_take_spec slot n r k segs :
  tiles r k segs -> cursor_room r -> 8 <= n < 2 ^ 31 -> n mod 8 = 0 ->
  tail (hdr r) + claim_need (zlen (data r)) (tail (hdr r)) n <= head (hdr r) + zlen (data r) ->
  claim_post slot n r k segs
    (claim_take slot n (tail (hdr r)) (claim_need (zlen (data r)) (tail (hdr r)) n) r).
Proof.
  intros T Hcr Hn Hn8 Hfit. pose proof (t_ok _ _ _ T) as Hok. pose proof (ring_pos r Hok) as Hpos.
  pose proof (head_le_tail _ _ _ T). pose proof (tail_mod8 _ _ _ T) as Ht8. pose proof (ok_max _ Hok).
  unfold claim_post, claim_take, cursor_room in *. rewrite u64_Capacity, index_ok by done.
  set (cap := zlen (data r)) in *. set (tl := tail (hdr r)) in *. set (need := claim_need cap tl n) in *.
  pose proof (Z.mod_pos_bound tl cap Hpos). pose proof (claim_need_bounds cap tl n Hpos Hn).
  set (r1 := if 0 <=? slot then store_at slot tl (store_size slot need r) else r).
  assert (T1 : tiles r1 k segs) by (by apply tiles_store_slot).
  assert (E1 : tail (hdr r1) = tl /\ head (hdr r1) = head (hdr r) /\ zlen (data r1) = cap /\
     capacity (hdr r1) = cap /\ consumer (hdr r1) = consumer (hdr r) /\
     recvWaiters (hdr r1) = recvWaiters (hdr r) /\ sendWaiters (hdr r1) = sendWaiters (hdr r)).
  { pose proof (ok_cap _ Hok). unfold r1. case_match; cbn; repeat split; first [reflexivity | assumption | congruence]. }
  destruct E1 as (Et & Eh & Ed & Ec & Eco & Erw & Esw).
  pose proof (slots_intent slot tl need r : slots (hdr r1) = _) as Es.
  pose proof (tiles_advance r1 k segs n T1 ltac:(unfold cursor_room; lia) Hn Hn8) as Tadv.
  cbv zeta in Tadv. rewrite Et, Ed, Eh in Tadv. specialize (Tadv Hfit).
  assert (Hidx : forall r', head (hdr r') = head (hdr r) -> capacity (hdr r') = cap ->
      seg_index r' k (segs ++ pads cap tl n) = if cap - tl mod cap <? n then 0 else tl mod cap).
  { intros r' Hh' Hc'. unfold seg_index. rewrite Hh', Hc', segs_size_app, Z.add_assoc.
    replace (head (hdr r) + k + segs_size segs) with tl by (apply (t_tail _ _ _ T)).
    apply pads_index; try done. by apply ok_dvd. }
  fold need in Tadv. unwrap. revert Tadv. destruct (cap - tl mod cap <? n) eqn:E; intros Tadv.
  - assert (need = n + (cap - tl mod cap)) as Hneq by (unfold need, claim_need; by rewrite E).
    reflect_bools. destruct (Z.eqb_spec need n); [lia|]. unwrap. cbn [negb].
    eexists. split; [|split]; [|exact Tadv|unfold claimed_hdr; cbn; repeat split; first [reflexivity | assumption | congruence]].
    f_equal. symmetry. by apply Hidx.
  - assert (need = n) as Hneq by (unfold need, claim_need; by rewrite E).
    destruct (Z.eqb_spec need n); [|lia]. cbn [negb].
    eexists. split; [|split]; [|exact Tadv|unfold claimed_hdr; cbn; repeat split; first [reflexivity | assumption | congruence]].
    f_equal. symmetry. by apply Hidx.
Qed.

(** One pass of the claim loop on a ring that nobody else touches. *)
Lemma claim_pass_spec slot n r k segs :
  tiles r k segs -> cursor_room r -> 8 <= n < 2 ^ 31 -> n mod 8 = 0 ->
  let tl := tail (hdr r) in let cap := zlen (data r) in
  if tl + claim_need cap tl n <=? head (hdr r) + cap
  then claim_post slot n r k segs (claim_pass slot n r)
  else claim_pass slot n r = Full (release slot r).
Proof.
  intros T Hcr Hn Hn8. cbv zeta. unfold claim_pass.
  pose proof (t_ok _ _ _ T) as Hok. pose proof (ring_pos r Hok) as Hpos.
  rewrite u64_Capacity, index_ok by done.
  pose proof (head_le_tail _ _ _ T). pose proof (t_cache _ _ _ T) as Hcache.
  pose proof (t_nowrap _ _ _ T). pose proof (t_room _ _ _ T) as Hroom. pose proof (t_consumed _ _ _ T).
  pose proof (ok_max _ Hok).
  pose proof (Z.mod_pos_bound (tail (hdr r)) (zlen (data r)) Hpos).
  pose proof (claim_need_bounds (zlen (data r)) (tail (hdr r)) n Hpos Hn).
  pose proof (claim_take_spec slot n r k segs T Hcr Hn Hn8) as Hgo1.
  pose proof (claim_take_spec slot n (set_hdr (with_headCache (head (hdr r))) r) k segs) as Hgo2.
  assert (Hneed : (if (zlen (data r) -64 (tail (hdr r) mod zlen (data r))) <? n
      then n +64 (zlen (data r) -64 (tail (hdr r) mod zlen (data r))) else n)
      = claim_need (zlen (data r)) (tail (hdr r)) n).
  { unfold claim_need. by unwrap. }
  rewrite Hneed. set (need := claim_need (zlen (data r)) (tail (hdr r)) n) in *.
  rewrite !hasRoom_spec by lia.
  destruct (Z.leb_spec (tail (hdr r) + need) (head (hdr r) + zlen (data r))) as [Hfit|Hfull].
  - destruct ((need <=? zlen (data r) - (tail (hdr r) - headCache (hdr r))) && _) eqn:E; cbn [negb].
    + by apply Hgo1.
    + destruct (Z.ltb_spec (tail (hdr r)) (head (hdr r))); [lia|].
      rewrite (proj2 (Z.leb_le need (zlen (data r) - (tail (hdr r) - head (hdr r))))) by lia.
      rewrite (proj2 (Z.leb_le (tail (hdr r) - head (hdr r)) (zlen (data r)))) by lia. cbn [negb andb].
      apply Hgo2; try done. eapply tiles_hdr; try done. cbn. lia.
  - assert (Hno : forall h, h <= head (hdr r) -> (need <=? zlen (data r) - (tail (hdr r) - h)) = false)
      by (intros; apply Z.leb_gt; lia).
    rewrite !Hno by lia. cbn [negb andb].
    destruct (Z.ltb_spec (tail (hdr r)) (head (hdr r))); [lia|]. done.
Qed.

(** The record segment of a claim that is not committed, and of a message. *)
Definition open_seg (typ length : Z) (body : list byte) : seg :=
  mkSeg (- (RecordHeaderSize + length)) typ body.
Definition done_seg (typ : Z) (payload : list byte) : seg :=
  let n := align (RecordHeaderSize + zlen payload) in
  mkSeg (RecordHeaderSize + zlen payload) typ
    (payload ++ zeros (n - RecordHeaderSize - zlen payload)).

(** A length the ring accepts. The second bound keeps [align] within an int32;
    rings below 4 GiB have no message past it. *)
Definition len_fits (r : Ring) (length : Z) : Prop :=
  0 <= length <= MaxMessageSize r /\ length + 15 < 2 ^ 31.

Definition typ_fits (typ : Z) : Prop := 0 <= typ < TypePadding.

Definition fits (r : Ring) (length : Z) : Prop :=
  let cap := zlen (data r) in
  tail (hdr r) + claim_need cap (tail (hdr r)) (align (RecordHeaderSize + length)) <= head (hdr r) + cap.

Lemma align_header length :
  0 <= length -> length + 15 < 2 ^ 31 ->
  let n := align (RecordHeaderSize + length) in
  8 <= n < 2 ^ 31 /\ n mod 8 = 0 /\ n - 8 < RecordHeaderSize + length <= n.
Proof.
  intros. unfold n, RecordHeaderSize. pose proof (align_bounds (8 + length) ltac:(lia) ltac:(lia)). lia.
Qed.

Lemma tryClaim_spec fuel slot typ length r k segs :
  tiles r k segs -> cursor_room r -> typ_fits typ -> len_fits r length -> (0 < fuel)%nat ->
  let n := align (RecordHeaderSize + length) in
  let pre := segs ++ pads (zlen (data r)) (tail (hdr r)) n in
  (fits r length /\
   exists r', tryClaim fuel slot typ length r =
       Some (r', Ok (mkClaim (seg_index r' k pre) (RecordHeaderSize + length) slot)) /\
     tiles r' k (pre ++ [open_seg typ length (zeros (n - RecordHeaderSize))]) /\
     claimed_hdr slot (claim_need (zlen (data r)) (tail (hdr r)) n) r (hdr r')) \/
  (~ fits r length /\ tryClaim fuel slot typ length r = Some (release slot r, Err ErrFull)).
Proof.
  intros T Hcr Ht [Hl Hsm] Hf. cbv zeta. unfold typ_fits in Ht.
  destruct (align_header length ltac:(lia) Hsm) as (Hn & Hn8 & Hfit).
  unfold tryClaim, fits. destruct (Z.eqb_spec typ TypePadding) as [|_]; [lia|].
  destruct (Z.ltb_spec length 0); [lia|]. destruct (Z.ltb_spec (MaxMessageSize r) length); [lia|].
  cbn [orb]. rewrite (i32_small (RecordHeaderSize + length)) by (unfold RecordHeaderSize; lia).
  set (n := align (RecordHeaderSize + length)) in *.
  pose proof (claim_pass_spec slot n r k segs T Hcr Hn Hn8) as Hp. cbv zeta in Hp.
  destruct fuel as [|fuel]; [lia|]. cbn [claim_loop].
  destruct (Z.leb_spec (tail (hdr r) + claim_need (zlen (data r)) (tail (hdr r)) n)
              (head (hdr r) + zlen (data r))).
  - left. split; [done|]. destruct Hp as (r' & -> & T' & Hh).
    rewrite i32_small by (unfold RecordHeaderSize; lia).
    apply (tiles_storeType _ _ _ _ _) with (v := typ) in T'; [|unfold TypePadding in *; lia].
    apply (tiles_storeLength _ _ _ _ _) with (v := - (RecordHeaderSize + length)) in T'.
    + eexists. split; [|split; [exact T'|done]]. reflexivity.
    + right. exists (RecordHeaderSize + length). unfold seg_size; cbn [s_body s_len zero_seg].
      rewrite zlen_zeros by (unfold RecordHeaderSize; lia). unfold RecordHeaderSize in *. lia.
  - right. split; [lia|]. by rewrite Hp.
Qed.

Section commit.
Context (r : Ring) (k : Z) (pre post : list seg) (typ length : Z) (body : list byte) (slot : Z).
Context (T : tiles r k (pre ++ open_seg typ length body :: post)).
Context (Hlen : 0 <= length <= zlen body).
Let c := mkClaim (seg_index r k pre) (RecordHeaderSize + length) slot.

Lemma len_ok_neg n t b : len_ok (mkSeg (- n) t b) -> 0 < n -> len_ok (mkSeg n t b).
Proof using.
  unfold len_ok, seg_size; cbn. intros [?|(m & ? & ?)] ?; [lia|]. right. exists m. lia.
Qed.

Lemma open_len_ok : len_ok (open_seg typ length body).
Proof using T. by destruct (tiles_seg_len _ _ _ _ _ T). Qed.

(** A commit turns the claim into a record. *)
Lemma tiles_commit : tiles (Commit c r) k (pre ++ mkSeg (RecordHeaderSize + length) typ body :: post).
Proof using T Hlen.
  unfold Commit. apply tiles_release. cbn [c_index c_total c].
  apply (tiles_storeLength _ _ _ _ _ T). apply len_ok_neg; [apply open_len_ok|].
  unfold RecordHeaderSize. lia.
Qed.

(** An abort turns it into padding. *)
Lemma tiles_abort :
  tiles (Abort c r) k (pre ++ mkSeg (RecordHeaderSize + length) TypePadding body :: post).
Proof using T Hlen.
  unfold Abort. apply tiles_release. cbn [c_index c_total c].
  pose proof (tiles_storeType _ _ _ _ _ T TypePadding ltac:(unfold TypePadding; lia)) as T'.
  apply (tiles_storeLength _ _ _ _ _ T').
  cbn [s_typ s_body]. apply len_ok_neg; [apply open_len_ok|]. unfold RecordHeaderSize. lia.
Qed.

Lemma tiles_fill_claim off bs :
  0 <= off -> off + zlen bs <= length ->
  tiles (fill_claim c off bs r) k (pre ++ open_seg typ length (blit body off bs) :: post).
Proof using T Hlen. intros. apply (tiles_fill _ _ _ _ _ T); [done|]. cbn. lia. Qed.
End commit.

Lemma blit_prefix (bs : list byte) n : zlen bs <= n -> blit (zeros n) 0 bs = bs ++ zeros (n - zlen bs).
Proof.
  intros. pose proof (zlen_nonneg bs). unfold blit.
  change (bs ++ drop (0 + length bs) (zeros n) = bs ++ zeros (n - zlen bs)). f_equal.
  unfold zeros, zlen in *. rewrite drop_replicate. f_equal. lia.
Qed.

Lemma tryWrite_spec fuel slot typ payload r k segs :
  tiles r k segs -> cursor_room r -> typ_fits typ -> len_fits r (zlen payload) -> (0 < fuel)%nat ->
  let n := align (RecordHeaderSize + zlen payload) in
  let pre := segs ++ pads (zlen (data r)) (tail (hdr r)) n in
  (fits r (zlen payload) /\
   exists r', tryWrite fuel slot typ payload r = Some (r', None) /\
     tiles r' k (pre ++ [done_seg typ payload]) /\
     tail (hdr r') = tail (hdr r) + claim_need (zlen (data r)) (tail (hdr r)) n /\
     head (hdr r') = head (hdr r)) \/
  (~ fits r (zlen payload) /\ tryWrite fuel slot typ payload r = Some (release slot r, Some ErrFull)).
Proof.
  intros T Hcr Ht Hl Hf. cbv zeta. pose proof (zlen_nonneg payload).
  destruct (align_header (zlen payload)) as (Hn & Hn8 & Hnf); [lia|apply Hl|].
  destruct (tryClaim_spec fuel slot typ (zlen payload) r k segs T Hcr Ht Hl Hf)
    as [(Hfit & r1 & Hc & T1 & Hh)|(Hfit & Hc)]; unfold tryWrite; rewrite Hc.
  - left. split; [done|]. eexists. split; [reflexivity|].
    unfold RecordHeaderSize in Hnf.
    pose proof (tiles_fill_claim _ _ _ _ _ _ _ slot T1
      ltac:(rewrite zlen_zeros; unfold RecordHeaderSize; lia) 0 payload ltac:(lia) ltac:(lia)) as T2.
    rewrite blit_prefix in T2 by (unfold RecordHeaderSize; lia).
    eapply (tiles_commit _ _ _ _ _ _ _ slot) in T2.
    2:{ rewrite zlen_app, zlen_zeros by (unfold RecordHeaderSize; lia). unfold RecordHeaderSize. lia. }
    split; [exact T2|]. destruct Hh as (Ht' & Hh' & _).
    unfold Commit, release. case_match; cbn; rewrite ?Ht', ?Hh'; done.
  - right. done.
Qed.

(** ** Reads *)

(** The message of a committed record. Padding has none. *)
Definition deliver (s : seg) : list delivery :=
  if s_typ s =? TypePadding then []
  else [(s_typ s, take (Z.to_nat (s_len s - RecordHeaderSize)) (s_body s))].

Lemma deliver_length s : (length (deliver s) <= 1)%nat.
Proof. unfold deliver. case_match; cbn; lia. Qed.

(** The messages in front of the first claim that is not committed. *)
Fixpoint ready (segs : list seg) : list delivery :=
  match segs with
  | [] => []
  | s :: rest => if s_len s <=? 0 then [] else deliver s ++ ready rest
  end.

(** What a read of at most [limit] messages leaves. *)
Fixpoint after_read (limit : nat) (segs : list seg) : list seg :=
  match segs with
  | [] => []
  | s :: rest =>
      if (limit =? 0)%nat || (s_len s <=? 0) then segs
      else after_read (limit - length (deliver s)) rest
  end.

(** The reader passes one committed segment. *)
Lemma tiles_consume r k s rest :
  tiles r k (s :: rest) -> 0 < s_len s ->
  let idx := seg_index r k [] in
  tiles (storeLength idx 0 (set_data (blit (data r) (idx + 4) (zeros (seg_size s - 4))) r))
    (k + seg_size s) rest.
Proof.
  intros T Hlen idx. pose proof (seg_size_ge s). apply tiles_absorb; [done|].
  pose proof (tiles_clear r k [] s rest T) as T1. cbn [app] in T1.
  apply (tiles_storeLength _ _ [] _ _) with (v := 0) in T1; [|by left]. cbn [app s_typ s_body] in T1.
  unfold zero_seg. replace (seg_size s - RecordHeaderSize) with (zlen (s_body s)) by (unfold seg_size; lia).
  exact T1.
Qed.

Lemma read_pass_stop left_ r k s rest :
  tiles r k (s :: rest) -> s_len s <= 0 -> read_pass left_ (seg_index r k []) r = Stop.
Proof.
  intros T Hl. unfold read_pass. rewrite (tiles_loadLength r k [] s rest T).
  by rewrite (proj2 (Z.leb_le _ _)) by done.
Qed.

Lemma read_pass_record left_ r k s rest :
  tiles r k (s :: rest) -> 0 < s_len s -> seg_size s <= left_ ->
  let idx := seg_index r k [] in
  read_pass left_ idx r =
    Record_ (storeLength idx 0 (set_data (blit (data r) (idx + 4) (zeros (seg_size s - 4))) r))
      (seg_size s) (deliver s).
Proof.
  intros T Hl Hleft. cbv zeta. pose proof (t_ok _ _ _ T) as Hok. pose proof (ring_pos r Hok).
  pose proof (ok_max _ Hok). pose proof (seg_size_ge s).
  destruct (tiles_seg_len r k [] s rest T) as (Hlen & Hsm & H8).
  pose proof (tiles_straight r k [] s rest T) as Hst.
  destruct Hlen as [?|(n & Hn & [Hn'|?])]; [lia| |lia].
  assert (0 <= seg_index r k []) by (unfold seg_index; apply Z.mod_pos_bound; rewrite (ok_cap _ Hok); lia).
  pose proof (Z.div_mod (seg_size s) 8 ltac:(lia)).
  unfold read_pass. rewrite (tiles_loadLength r k [] s rest T), (tiles_loadType r k [] s rest T).
  rewrite (proj2 (Z.leb_gt _ _)) by lia. rewrite (align_fits _ (seg_size s)) by lia.
  rewrite u64_Capacity, u64_small by (done || lia).
  unfold RecordHeaderSize at 1. rewrite !(proj2 (Z.ltb_ge _ _)) by lia. cbn [orb].
  rewrite (tiles_payload r k [] s rest T) by lia. done.
Qed.

Lemma read_loop_spec fuel limit r k segs out :
  tiles r k segs -> (length segs < fuel)%nat ->
  exists r', read_loop fuel limit (head (hdr r)) (tail (hdr r) - head (hdr r)) k out r =
      Some (mkRead r' (out ++ take (Z.to_nat (limit - zlen out)) (ready segs)) None) /\
    tiles r' 0 (after_read (Z.to_nat (limit - zlen out)) segs).
Proof.
  revert r k segs out. induction fuel as [|fuel IH]; intros r k segs out T Hf; [lia|].
  cbn [read_loop]. pose proof (t_ok _ _ _ T) as Hok. pose proof (ring_pos r Hok).
  pose proof (head_le_tail _ _ _ T) as Hht. pose proof (t_nowrap _ _ _ T) as Hnw.
  pose proof (t_consumed _ _ _ T) as Hk. pose proof (t_tail _ _ _ T) as Htl.
  pose proof (t_cache _ _ _ T) as Hc.
  rewrite (u64_small (head (hdr r) + k)) by lia.
  assert (Hfin : exists r', Some (mkRead (if 0 <? k then set_hdr (with_head (head (hdr r) + k)) r else r)
                 out None) = Some (mkRead r' out None) /\ tiles r' 0 segs).
  { eexists; split; [reflexivity|]. case_match; reflect_bools; [by apply tiles_head|].
    by replace 0 with k by lia. }
  destruct segs as [|s rest].
  { rewrite segs_size_nil in Htl. rewrite (proj2 (Z.ltb_ge k _)) by lia.
    cbn [ready after_read]. rewrite andb_false_r, take_nil, app_nil_r. exact Hfin. }
  rewrite segs_size_cons in Htl. pose proof (seg_size_ge s). pose proof (segs_size_nonneg rest).
  rewrite (proj2 (Z.ltb_lt k _)) by lia. cbn [after_read ready].
  destruct (Z.ltb_spec (zlen out) limit) as [Hlim|Hlim]; cbn [andb].
  2:{ replace (Z.to_nat (limit - zlen out)) with 0%nat by lia. rewrite take_0, app_nil_r. exact Hfin. }
  rewrite (proj2 (Nat.eqb_neq _ 0)) by lia. cbn [orb].
  rewrite u64_small, index_ok by (done || lia).
  replace ((head (hdr r) + k) mod zlen (data r)) with (seg_index r k [])
    by (unfold seg_index; rewrite segs_size_nil, (ok_cap _ Hok); f_equal; lia).
  destruct (Z.leb_spec (s_len s) 0) as [Hl|Hl].
  { rewrite (read_pass_stop _ _ _ _ _ T Hl), take_nil, app_nil_r. exact Hfin. }
  rewrite (read_pass_record _ _ _ _ _ T Hl) by lia. rewrite u64_small by lia.
  pose proof (tiles_consume r k s rest T Hl) as T'. cbv zeta in T'.
  destruct (IH _ _ rest (out ++ deliver s) T') as (r' & Hr' & Tr'); [cbn in Hf; lia|].
  exists r'. rewrite zlen_app in *.
  replace (Z.to_nat (limit - (zlen out + zlen (deliver s))))
    with (Z.to_nat (limit - zlen out) - length (deliver s))%nat in * by (unfold zlen; lia).
  split; [|exact Tr']. cbn [hdr storeLength set_data] in Hr'.
  rewrite Hr', <-app_assoc. do 3 f_equal. rewrite take_app. f_equal.
  rewrite take_ge; [done|]. pose proof (deliver_length s). lia.
Qed.

Lemma segs_length segs : 8 * zlen segs <= segs_size segs.
Proof.
  induction segs as [|s segs IH]; [done|]. rewrite zlen_cons, segs_size_cons.
  pose proof (seg_size_ge s). lia.
Qed.

Lemma Read_spec limit r segs :
  tiles r 0 segs ->
  exists r', Read limit r = Some (mkRead r' (take (Z.to_nat limit) (ready segs)) None) /\
    tiles r' 0 (after_read (Z.to_nat limit) segs).
Proof.
  intros T. unfold Read. destruct (Z.leb_spec limit 0) as [Hl|Hl].
  - exists r. replace (Z.to_nat limit) with 0%nat by lia. split; [done|]. by destruct segs.
  - pose proof (head_le_tail _ _ _ T). pose proof (t_nowrap _ _ _ T). pose proof (t_cache _ _ _ T).
    rewrite u64_small by lia.
    destruct (read_loop_spec (read_fuel (tail (hdr r) - head (hdr r))) limit r 0 segs [] T)
      as (r' & Hr & Tr).
    + unfold read_fuel. pose proof (t_tail _ _ _ T). pose proof (segs_length segs) as Hs. unfold zlen in Hs.
      pose proof (Z.div_mod (tail (hdr r) - head (hdr r)) 8 ltac:(lia)).
      pose proof (Z.mod_pos_bound (tail (hdr r) - head (hdr r)) 8 ltac:(lia)). lia.
    + exists r'. change (zlen []) with 0 in Hr, Tr. by rewrite Z.sub_0_r in Hr, Tr.
Qed.

(** ** The ring as a queue of messages *)

(** Every claim is committed, and [msgs] are the messages not read yet. *)
Definition holds (r : Ring) (msgs : list delivery) : Prop :=
  exists segs, tiles r 0 segs /\ Forall (fun s => 0 < s_len s) segs /\ mjoin (deliver <$> segs) = msgs.

Lemma ready_committed segs :
  Forall (fun s => 0 < s_len s) segs -> ready segs = mjoin (deliver <$> segs).
Proof.
  induction 1 as [|s segs Hs _ IH]; [done|]. cbn. rewrite (proj2 (Z.leb_gt _ _)) by done. by rewrite IH.
Qed.

Lemma after_read_committed n segs :
  Forall (fun s => 0 < s_len s) segs ->
  Forall (fun s => 0 < s_len s) (after_read n segs) /\
  mjoin (deliver <$> after_read n segs) = drop n (mjoin (deliver <$> segs)).
Proof.
  intros Hs. revert n. induction Hs as [|s segs Hs Hall IH]; intros n; cbn [after_read].
  { cbn. by rewrite drop_nil. }
  destruct (Nat.eqb_spec n 0) as [->|Hn]; cbn [orb].
  { rewrite drop_0. split; [by constructor|done]. }
  rewrite (proj2 (Z.leb_gt _ _)) by done. destruct (IH (n - length (deliver s))%nat) as [Hf Heq].
  split; [done|]. rewrite Heq. cbn. rewrite drop_app. pose proof (deliver_length s).
  by rewrite (drop_ge (deliver s)) by lia.
Qed.

Lemma deliver_pads cap tl n : mjoin (deliver <$> pads cap tl n) = [].
Proof. unfold pads. by case_match. Qed.

Lemma pads_committed cap tl n :
  0 < cap -> (8 | cap) -> tl mod 8 = 0 -> Forall (fun s => 0 < s_len s) (pads cap tl n).
Proof.
  intros Hc Hd H8. pose proof (index_room cap tl Hc Hd H8). unfold pads.
  case_match; [|done]. constructor; [cbn; lia|done].
Qed.

Lemma deliver_done typ payload : typ_fits typ -> deliver (done_seg typ payload) = [(typ, payload)].
Proof.
  unfold typ_fits, deliver, done_seg. cbn [s_typ s_len s_body]. intros.
  rewrite (proj2 (Z.eqb_neq _ _)) by lia. do 2 f_equal.
  replace (Z.to_nat (RecordHeaderSize + zlen payload - RecordHeaderSize)) with (length payload)
    by (unfold zlen; lia).
  by rewrite take_app_length.
Qed.

(** Reads in front of a claim that is not committed. *)
Lemma ready_open segs s rest :
  Forall (fun s => 0 < s_len s) segs -> s_len s <= 0 ->
  ready (segs ++ s :: rest) = mjoin (deliver <$> segs).
Proof.
  intros Hall Hs. induction Hall as [|x l Hx _ IH]; cbn; [by rewrite (proj2 (Z.leb_le _ _)) by done|].
  rewrite (proj2 (Z.leb_gt _ _)) by done. by rewrite IH.
Qed.

Lemma after_read_open n segs s rest :
  Forall (fun s => 0 < s_len s) segs -> s_len s <= 0 ->
  after_read n (segs ++ s :: rest) = after_read n segs ++ s :: rest.
Proof.
  intros Hall Hs. revert n. induction Hall as [|x l Hx _ IH]; intros n; cbn [app after_read].
  - by rewrite (proj2 (Z.leb_le _ _)), orb_true_r by done.
  - rewrite (proj2 (Z.leb_gt _ _)), orb_false_r by done. case_match; [done|apply IH].
Qed.

(** The padding in front of a new record is committed and carries no message. *)
Lemma committed_pads r k segs n :
  tiles r k segs -> Forall (fun s => 0 < s_len s) segs ->
  let pre := segs ++ pads (zlen (data r)) (tail (hdr r)) n in
  Forall (fun s => 0 < s_len s) pre /\ mjoin (deliver <$> pre) = mjoin (deliver <$> segs).
Proof.
  intros T Hall. pose proof (t_ok _ _ _ T) as Hok. cbv zeta.
  rewrite Forall_app, fmap_app, join_app, deliver_pads, app_nil_r. split; [|done]. split; [done|].
  apply pads_committed; [by apply ring_pos|by apply ok_dvd|by eapply tail_mod8].
Qed.

(** Appending a message to a ring whose claims are all committed. *)
Lemma holds_write r segs typ payload :
  tiles r 0 segs -> Forall (fun s => 0 < s_len s) segs -> typ_fits typ ->
  forall r', tiles r' 0 ((segs ++ pads (zlen (data r)) (tail (hdr r))
      (align (RecordHeaderSize + zlen payload))) ++ [done_seg typ payload]) ->
  holds r' (mjoin (deliver <$> segs) ++ [(typ, payload)]).
Proof.
  intros T Hall Ht r' T'. eexists. split; [exact T'|].
  destruct (committed_pads r 0 segs (align (RecordHeaderSize + zlen payload)) T Hall) as [Hpre Hm].
  split.
  - apply Forall_app. split; [done|]. constructor; [|done].
    cbn. pose proof (zlen_nonneg payload). unfold RecordHeaderSize. lia.
  - rewrite fmap_app, join_app, Hm. cbn [fmap list_fmap mjoin list_join].
    by rewrite deliver_done, app_nil_r.
Qed.

Lemma holds_release slot r msgs : holds r msgs -> holds (release slot r) msgs.
Proof. intros (segs & T & ?). exists segs. split; [by apply tiles_release|done]. Qed.

(** ** The layout of the control block *)

Definition slot_ok (s : claimSlot) : Prop :=
  0 <= owner s < 2 ^ 64 /\ 0 <= at_ s < 2 ^ 64 /\ 0 <= size_ s < 2 ^ 64.

(** Every field holds a value of its type. *)
Record hdr_ok (h : ringHeader) : Prop := {
  hk_magic : 0 <= magic h < 2 ^ 64;
  hk_version : 0 <= version h < 2 ^ 32;
  hk_flags : 0 <= flags h < 2 ^ 32;
  hk_capacity : 0 <= capacity h < 2 ^ 64;
  hk_consumer : 0 <= consumer h < 2 ^ 64;
  hk_tail : 0 <= tail h < 2 ^ 64;
  hk_head : 0 <= head h < 2 ^ 64;
  hk_cache : 0 <= headCache h < 2 ^ 64;
  hk_recv : - 2 ^ 31 <= recvWaiters h < 2 ^ 31;
  hk_send : - 2 ^ 31 <= sendWaiters h < 2 ^ 31;
  hk_slots : zlen (slots h) = ClaimSlots;
  hk_slot : Forall slot_ok (slots h) }.

Lemma zlen_slot_bytes s : zlen (slot_bytes s) = slotSize.
Proof. unfold slot_bytes, slotSize. autorewrite with bytes. rewrite zlen_zeros; lia. Qed.

Lemma zlen_slots l : zlen (mjoin (slot_bytes <$> l)) = slotSize * zlen l.
Proof.
  induction l as [|s l IH]; [done|].
  change (mjoin (slot_bytes <$> s :: l)) with (slot_bytes s ++ mjoin (slot_bytes <$> l)).
  rewrite zlen_app, zlen_slot_bytes, IH, zlen_cons. lia.
Qed.

Ltac skip_fields :=
  repeat (first [rewrite get_u64_skip | rewrite get_u32_skip];
          [|autorewrite with bytes; rewrite ?zlen_zeros by lia; lia]);
  autorewrite with bytes; rewrite ?zlen_zeros by lia.

Lemma slots_field l rest (i : nat) s j :
  l !! i = Some s -> 0 <= j -> j + 8 <= slotSize ->
  get_u64 (mjoin (slot_bytes <$> l) ++ rest) (slotSize * Z.of_nat i + j) =
  get_u64 (slot_bytes s) j.
Proof.
  intros Hi Hj Hj'. apply list_elem_of_split_length in Hi as (l1 & l2 & -> & Hl).
  rewrite fmap_app, join_app.
  change (mjoin (slot_bytes <$> s :: l2)) with (slot_bytes s ++ mjoin (slot_bytes <$> l2)).
  rewrite <-!app_assoc. rewrite get_u64_skip by (rewrite zlen_slots; unfold zlen; lia).
  unfold get_u64. f_equal. apply list_eq; intros q. pose proof (zlen_slot_bytes s) as Hz.
  unfold zlen in Hz. rewrite zlen_slots. unfold zlen. rewrite !lookup_sub by lia.
  case_decide; [|done]. rewrite lookup_app_l by lia. f_equal. lia.
Qed.

Lemma overlay_slot_bytes h pre rest (i : nat) s :
  zlen pre = controlSize -> slots h !! i = Some s -> slot_ok s ->
  overlay_slot (pre ++ mjoin (slot_bytes <$> slots h) ++ rest) i = s.
Proof.
  intros Hp Hi (Ho & Ha & Hs). unfold overlay_slot. destruct s as [o a z]. cbn in *.
  assert (Hf : forall j, 0 <= j -> j + 8 <= slotSize ->
    get_u64 (pre ++ mjoin (slot_bytes <$> slots h) ++ rest) (controlSize + slotSize * Z.of_nat i + j) =
    get_u64 (slot_bytes (mkSlot o a z)) j).
  { intros j ??. rewrite get_u64_skip by (unfold slotSize; lia). rewrite Hp.
    rewrite <-(slots_field _ rest _ _ j Hi) by done. f_equal. lia. }
  rewrite <-(Z.add_0_r (controlSize + _)) at 1. rewrite !Hf by (unfold slotSize; lia).
  unfold slot_bytes; cbn [owner at_ size_].
  f_equal; skip_fields; rewrite get_u64_put_0; by apply u64_small.
Qed.

(** Reading the struct back from the bytes it was written to. *)
Lemma overlay_header h rest : hdr_ok h -> overlay (header_bytes h ++ rest) = h.
Proof.
  intros Hh. destruct Hh as [H1 H2 H3 H4 H5 H6 H7 H8 H9 H10 H11 H12].
  assert (Hslots : overlay_slot (header_bytes h ++ rest) <$> seq 0 (Z.to_nat ClaimSlots) = slots h).
  { apply list_eq; intros i. rewrite list_lookup_fmap.
    destruct (decide (i < Z.to_nat ClaimSlots)%nat) as [Hi|Hi].
    - rewrite lookup_seq_lt by done. cbn.
      destruct (lookup_lt_is_Some_2 (slots h) i) as [s Hs]; [unfold zlen in H11; lia|].
      rewrite Hs. f_equal. unfold header_bytes. rewrite !app_assoc, <-(app_assoc _ _ rest).
      apply overlay_slot_bytes; [|done|by eapply Forall_lookup_1].
      autorewrite with bytes. rewrite !zlen_zeros by (unfold cacheLine; lia). done.
    - rewrite lookup_seq_ge by lia. symmetry. apply lookup_ge_None. unfold zlen in H11. lia. }
  unfold overlay. rewrite Hslots. clear Hslots. unfold header_bytes, get_i32, cacheLine.
  rewrite <-!app_assoc.
  destruct h as [m v f c co t hd hc rw sw sl]. cbn [magic version flags capacity consumer tail head headCache
    recvWaiters sendWaiters slots] in *.
  f_equal; skip_fields; first
    [rewrite get_u64_put_0; apply u64_small; lia
    |rewrite get_u32_put_0; apply u32_small; lia
    |rewrite get_u32_put_0; unfold u32; rewrite i32_mod; apply i32_small; lia].
Qed.

Lemma zlen_header h : zlen (slots h) = ClaimSlots -> zlen (header_bytes h) = HeaderSize.
Proof.
  intros Hs. unfold header_bytes. autorewrite with bytes.
  rewrite zlen_slots, Hs, !zlen_zeros by (unfold cacheLine; lia). done.
Qed.

Lemma power2_land cap : power2 cap -> Z.land cap (cap - 1) = 0.
Proof. intros Hp. rewrite land_mask by done. apply Z.mod_same. pose proof (power2_pos _ Hp). lia. Qed.

Lemma power2_log2 n : 0 < n -> power2 (Z.shiftl 1 (Z.log2 n)) /\ Z.shiftl 1 (Z.log2 n) <= n < 2 * Z.shiftl 1 (Z.log2 n).
Proof.
  intros Hn. pose proof (Z.log2_nonneg n). rewrite Z.shiftl_1_l.
  pose proof (Z.log2_spec n Hn). rewrite Z.pow_succ_r in * by lia. split; [|lia]. by exists (Z.log2 n).
Qed.

(** ** Properties *)

(** A write either appends its message behind every message the ring
    holds, when the record and its padding fit, or returns [ErrFull] and leaves
    the messages as they were. *)
Theorem tryWrite_fifo fuel slot typ payload r msgs :
  holds r msgs -> cursor_room r -> typ_fits typ -> len_fits r (zlen payload) -> (0 < fuel)%nat ->
  exists r',
    (fits r (zlen payload) /\ tryWrite fuel slot typ payload r = Some (r', None) /\
     holds r' (msgs ++ [(typ, payload)])) \/
    (~ fits r (zlen payload) /\ tryWrite fuel slot typ payload r = Some (r', Some ErrFull) /\
     holds r' msgs).
Proof.
  intros Hh Hcr Ht Hl Hf. pose proof Hh as (segs & T & Hall & <-).
  destruct (tryWrite_spec fuel slot typ payload r 0 segs T Hcr Ht Hl Hf)
    as [(Hfit & r' & Hw & T' & _)|(Hfit & Hw)]; eexists.
  - left. split; [done|]. split; [exact Hw|]. by eapply holds_write.
  - right. split; [done|]. split; [exact Hw|]. by apply holds_release.
Qed.

(** A read passes the oldest messages, at most [limit] of them, in the
    order they were written and with the bytes they were written with, keeps
    the rest, and never finds the ring corrupt. *)
Theorem Read_fifo limit r msgs :
  holds r msgs ->
  exists r', Read limit r = Some (mkRead r' (take (Z.to_nat limit) msgs) None) /\
    holds r' (drop (Z.to_nat limit) msgs).
Proof.
  intros (segs & T & Hall & <-). destruct (Read_spec limit r segs T) as (r' & -> & T').
  rewrite (ready_committed segs Hall). eexists; split; [reflexivity|].
  destruct (after_read_committed (Z.to_nat limit) segs Hall). by exists (after_read (Z.to_nat limit) segs).
Qed.

(** With claims in progress, a read passes the messages in front of the
    first claim that is not committed and stops there; every later claim keeps
    its place and its bytes. *)
Theorem Read_stops_at_claim limit r segs s rest :
  tiles r 0 (segs ++ s :: rest) -> Forall (fun s => 0 < s_len s) segs -> s_len s <= 0 ->
  exists r' kept, Read limit r =
      Some (mkRead r' (take (Z.to_nat limit) (mjoin (deliver <$> segs))) None) /\
    tiles r' 0 (kept ++ s :: rest) /\
    mjoin (deliver <$> kept) = drop (Z.to_nat limit) (mjoin (deliver <$> segs)).
Proof.
  intros T Hall Hs. destruct (Read_spec limit r _ T) as (r' & -> & T').
  exists r', (after_read (Z.to_nat limit) segs).
  rewrite ready_open, after_read_open in * by done. split; [done|]. split; [done|]. by apply after_read_committed.
Qed.

(** The claim path: while a claim is open the reader sees only the older
    messages; a commit publishes the bytes the caller stored, behind them; an
    abort publishes nothing. *)
Theorem claim_publishes fuel slot typ bs r msgs :
  holds r msgs -> cursor_room r -> typ_fits typ -> len_fits r (zlen bs) -> (0 < fuel)%nat ->
  fits r (zlen bs) ->
  exists r1 c, tryClaim fuel slot typ (zlen bs) r = Some (r1, Ok c) /\
    zlen (claim_bytes r1 c) = zlen bs /\
    (forall limit, exists r2,
       Read limit r1 = Some (mkRead r2 (take (Z.to_nat limit) msgs) None)) /\
    holds (Commit c (fill_claim c 0 bs r1)) (msgs ++ [(typ, bs)]) /\
    holds (Abort c (fill_claim c 0 bs r1)) msgs.
Proof.
  intros (segs & T & Hall & <-) Hcr Ht Hl Hf Hfit. pose proof (zlen_nonneg bs).
  destruct (tryClaim_spec fuel slot typ (zlen bs) r 0 segs T Hcr Ht Hl Hf)
    as [(_ & r1 & Hc & T1 & _)|(? & _)]; [|done].
  destruct (align_header (zlen bs)) as (Hn & Hn8 & Hnf); [lia|apply Hl|].
  set (n := align (RecordHeaderSize + zlen bs)) in *.
  set (pre := segs ++ pads (zlen (data r)) (tail (hdr r)) n) in *.
  destruct (committed_pads r 0 segs n T Hall) as [Hpre Hmsgs]. fold pre in Hpre, Hmsgs.
  eexists r1, _. split; [exact Hc|].
  unfold RecordHeaderSize in Hnf.
  assert (Hb : 0 <= zlen bs <= zlen (zeros (n - RecordHeaderSize)))
    by (rewrite zlen_zeros; unfold RecordHeaderSize; lia).
  pose proof (tiles_fill_claim _ _ _ _ _ _ _ slot T1 Hb 0 bs ltac:(lia) ltac:(lia)) as T2.
  rewrite blit_prefix in T2 by (unfold RecordHeaderSize; lia).
  assert (Hb2 : 0 <= zlen bs <= zlen (bs ++ zeros (n - RecordHeaderSize - zlen bs)))
    by (rewrite zlen_app, zlen_zeros; unfold RecordHeaderSize; lia).
  split; [|split; [|split]].
  - unfold claim_bytes. cbn [c_index c_total].
    rewrite (tiles_payload _ _ _ _ _ T1) by (unfold seg_size, RecordHeaderSize in *; cbn [s_body open_seg]; lia).
    cbn [s_body open_seg]. unfold zlen, RecordHeaderSize in *. rewrite length_take. lia.
  - intros limit. destruct (Read_spec limit r1 _ T1) as (r2 & -> & _). exists r2.
    rewrite ready_open, Hmsgs; [done|done|]. cbn. unfold RecordHeaderSize. lia.
  - eapply holds_write; [exact T|done|done|]. exact (tiles_commit _ _ _ _ _ _ _ slot T2 Hb2).
  - pose proof (tiles_abort _ _ _ _ _ _ _ slot T2 Hb2) as T3. eexists; split; [exact T3|].
    split; [apply Forall_app; split; [done|]; constructor; [cbn; unfold RecordHeaderSize; lia|done]|].
    rewrite fmap_app, join_app, Hmsgs. cbn. by rewrite app_nil_r.
Qed.

(** An empty ring takes any message up to [MaxMessageSize], wherever its
    cursors are. *)
Theorem empty_ring_fits r length :
  tiles r 0 [] -> len_fits r length -> fits r length.
Proof.
  intros T [Hl Hsm]. pose proof (t_ok _ _ _ T) as Hok. pose proof (t_tail _ _ _ T) as Htl.
  rewrite segs_size_nil in Htl. pose proof (ring_pos r Hok). pose proof (ok_min _ Hok). unfold MinCapacity in *.
  destruct (align_header length ltac:(lia) Hsm) as (Hn & Hn8 & Hnf). unfold fits, RecordHeaderSize in *.
  assert (Hmax : 8 + length <= zlen (data r) / 2).
  { unfold MaxMessageSize in Hl. rewrite Capacity_ok in Hl by done.
    rewrite Z.quot_div_nonneg in Hl by lia. unfold RecordHeaderSize in Hl.
    revert Hl. case_match; reflect_bools; lia. }
  assert (Hhalf : align (8 + length) <= zlen (data r) / 2).
  { destruct (ok_pow _ Hok) as (e & ? & He).
    assert (H8 : (zlen (data r) / 2) mod 8 = 0).
    { rewrite He. assert (4 <= e).
      { destruct (decide (4 <= e)); [done|]. assert (2 ^ e <= 2 ^ 4) by (apply Z.pow_le_mono_r; lia). lia. }
      replace (2 ^ e) with (2 ^ (e - 4) * 8 * 2).
      - rewrite Z.div_mul by lia. apply Z.mod_mul; lia.
      - replace e with (e - 4 + 4) at 2 by lia. rewrite Z.pow_add_r by lia. lia. }
    pose proof (Z.div_mod (zlen (data r) / 2) 8 ltac:(lia)).
    pose proof (Z.div_mod (align (8 + length)) 8 ltac:(lia)). lia. }
  pose proof (Z.mul_div_le (zlen (data r)) 2 ltac:(lia)).
  unfold claim_need. case_match; reflect_bools; lia.
Qed.

(** The errors of a write that depend on its arguments alone: the ring is
    left untouched. *)
Theorem tryWrite_rejects fuel slot typ payload r :
  (typ = TypePadding -> tryWrite fuel slot typ payload r = Some (r, Some ErrReservedType)) /\
  (typ <> TypePadding -> MaxMessageSize r < zlen payload ->
   tryWrite fuel slot typ payload r = Some (r, Some ErrMessageTooLarge)).
Proof.
  unfold tryWrite, tryClaim. split.
  - intros ->. by rewrite Z.eqb_refl.
  - intros Hne Hbig. rewrite (proj2 (Z.eqb_neq _ _)) by done.
    by rewrite (proj2 (Z.ltb_lt _ _) Hbig), orb_true_r.
Qed.

Lemma initRing_ok buf addr cons :
  HeaderSize + MinCapacity <= zlen buf < 2 ^ 62 -> addr mod 8 = 0 ->
  exists r, initRing buf addr cons = Ok r /\ tiles r 0 [] /\
    capacity (hdr r) <= zlen buf - HeaderSize < 2 * capacity (hdr r) /\
    consumer (hdr r) = cons /\
    hdr r = mkHeader ringMagic ringVersion 0 (capacity (hdr r)) cons 0 0 0 0 0
              (replicate (Z.to_nat ClaimSlots) (mkSlot 0 noIntent 0)).
Proof.
  intros Hlen Ha. unfold initRing. rewrite (proj2 (Z.ltb_ge _ _)) by lia. rewrite Ha. cbn [negb Z.eqb].
  unfold MinCapacity in *. set (n := zlen buf - HeaderSize). assert (Hn : 4096 <= n) by (unfold n; lia).
  unfold Len64. rewrite (proj2 (Z.eqb_neq n 0)) by lia. rewrite Z.add_simpl_r.
  destruct (power2_log2 n) as (Hp & Hlo & Hhi); [lia|]. set (cap := Z.shiftl 1 (Z.log2 n)) in *.
  eexists. split; [reflexivity|]. cbn [hdr newRing capacity consumer].
  split; [|split; [lia|split; [done|done]]].
  assert (HH : 0 <= HeaderSize) by (unfold HeaderSize, controlSize, cacheLine, ClaimSlots, slotSize; lia).
  assert (Hd : sub (zeros (zlen buf)) HeaderSize cap = zeros cap) by (apply sub_zeros; unfold n in *; lia).
  assert (Hz : zlen (zeros cap) = cap) by (apply zlen_zeros; pose proof (power2_pos _ Hp); lia).
  assert (4096 <= cap).
  { assert (2 ^ 12 <= 2 ^ Z.log2 n).
    { apply Z.pow_le_mono_r; [lia|]. apply Z.log2_le_pow2; lia. }
    unfold cap. rewrite Z.shiftl_1_l. lia. }
  apply tiles_init; unfold newRing; cbn [hdr data tail head headCache]; rewrite ?Hd, ?Hz; try done.
  split; cbn [hdr data mask capacity]; rewrite ?Hd, ?Hz; try done. unfold n in *. lia.
Qed.

(** Formatting a buffer gives an empty ring whose data region is the
    largest power of two that fits, with its reader recorded and every claim
    slot free of intents. A buffer that is too small or not aligned is
    refused. *)
Theorem initRing_formats buf addr cons :
  zlen buf < 2 ^ 62 ->
  if zlen buf <? HeaderSize + MinCapacity then initRing buf addr cons = Err ErrTooSmall
  else if negb (addr mod 8 =? 0) then initRing buf addr cons = Err ErrUnaligned
  else exists r, initRing buf addr cons = Ok r /\ holds r [] /\ Empty r = true /\
         capacity (hdr r) <= zlen buf - HeaderSize < 2 * capacity (hdr r) /\
         consumer (hdr r) = cons /\
         Forall (fun s => at_ s = noIntent /\ owner s = noProc) (slots (hdr r)).
Proof.
  intros Hlen. case_match eqn:E1; [unfold initRing; by rewrite E1|].
  case_match eqn:E2; [unfold initRing; by rewrite E1, E2|]. reflect_bools.
  destruct (initRing_ok buf addr cons) as (r & Hr & T & Hc & Hco & Hh); [lia|done|].
  exists r. split; [done|]. split; [by exists []|]. split; [unfold Empty; by rewrite Hh|].
  split; [done|]. split; [done|]. rewrite Hh. by apply Forall_replicate.
Qed.

Lemma land_pred_power2 c : 0 < c -> Z.land c (c - 1) = 0 -> power2 c.
Proof.
  intros Hc Hl. pose proof (Z.log2_spec c Hc) as [Hlo Hhi]. pose proof (Z.log2_nonneg c).
  rewrite Z.pow_succ_r in Hhi by done. exists (Z.log2 c). split; [done|].
  destruct (decide (c = 2 ^ Z.log2 c)) as [|Hne]; [done|exfalso].
  assert (Hb : Z.testbit (Z.land c (c - 1)) (Z.log2 c) = true).
  { rewrite Z.land_spec, Z.bit_log2 by done. cbn [andb].
    replace (Z.log2 c) with (Z.log2 (c - 1)); [apply Z.bit_log2; lia|].
    apply Z.log2_unique; [done|]. rewrite Z.pow_succ_r by done. lia. }
  rewrite Hl, Z.bits_0 in Hb. done.
Qed.

Lemma HeaderSize_bound : 0 < HeaderSize < 2 ^ 20.
Proof. unfold HeaderSize, controlSize, cacheLine, ClaimSlots, slotSize. lia. Qed.

Lemma power2_u64 c : power2 c -> c < 2 ^ 64 -> c <= 2 ^ 63.
Proof.
  intros (k & Hk & ->) Hlt. apply Z.pow_le_mono_r; [lia|].
  destruct (decide (k <= 63)); [done|]. assert (2 ^ 64 <= 2 ^ k) by (apply Z.pow_le_mono_r; lia). lia.
Qed.

Lemma attach_checks cap len :
  0 <= cap < 2 ^ 64 ->
  (cap <? MinCapacity) || negb (Z.land cap (cap -64 1) =? 0) || (len <? HeaderSize +64 cap) = false <->
  MinCapacity <= cap /\ power2 cap /\ HeaderSize + cap <= len.
Proof.
  intros Hc. pose proof HeaderSize_bound. rewrite !orb_false_iff. unfold MinCapacity in *.
  rewrite !Z.ltb_ge, negb_false_iff, Z.eqb_eq. split.
  - intros [[? Hl] ?]. rewrite (u64_small (cap - 1)) in Hl by lia.
    assert (Hp : power2 cap) by (apply land_pred_power2; [lia|done]).
    pose proof (power2_u64 _ Hp). rewrite u64_small in * by lia. done.
  - intros (? & Hp & ?). pose proof (power2_u64 _ Hp). rewrite !u64_small by lia. by rewrite power2_land.
Qed.

(** A peer that attaches to the bytes of a ring gets that ring: the same
    control block and the same data region, whatever follows it. *)
Theorem AttachRing_roundtrip r rest addr :
  ring_ok r -> hdr_ok (hdr r) -> magic (hdr r) = ringMagic -> version (hdr r) = ringVersion ->
  addr mod 8 = 0 -> AttachRing (ring_buffer r rest) addr = Ok r.
Proof.
  intros Hok Hh Hm Hv Ha. pose proof (ring_pos r Hok). pose proof (ok_min _ Hok). pose proof (ok_max _ Hok).
  pose proof (zlen_header _ (hk_slots _ Hh)) as HH. pose proof (zlen_nonneg rest).
  unfold AttachRing, ring_buffer. rewrite (overlay_header _ (data r ++ rest) Hh), Hm, Hv, Ha.
  rewrite !zlen_app, HH. rewrite (proj2 (Z.ltb_ge _ _)) by lia. cbn [negb Z.eqb orb].
  rewrite (ok_cap _ Hok). rewrite (proj2 (attach_checks (zlen (data r)) _ ltac:(lia))).
  2:{ split; [done|]. split; [apply Hok|lia]. }
  cbn [negb]. f_equal. unfold newRing. destruct r as [h d m]. cbn [hdr data mask] in *. f_equal.
  - rewrite sub_app_mid; done.
  - pose proof (ok_mask _ Hok). cbn in *. lia.
Qed.

(** Whatever bytes a buffer holds, an attach either fails or gives a handle
    whose data region is a power of two of at least [MinCapacity] bytes inside
    the buffer. *)
Theorem AttachRing_sound buf addr r :
  zlen buf < 2 ^ 62 -> AttachRing buf addr = Ok r ->
  ring_ok r /\ HeaderSize + zlen (data r) <= zlen buf /\ data r = sub buf HeaderSize (zlen (data r)).
Proof.
  intros Hlen. unfold AttachRing. case_match; [done|]. case_match; [done|]. case_match; [done|].
  pose proof HeaderSize_bound. set (cap := capacity (overlay buf)).
  assert (Hcap : 0 <= cap < 2 ^ 64).
  { unfold cap, overlay; cbn [capacity]. unfold get_u64. pose proof (le_combine_bound (sub buf 16 8)) as Hb.
    pose proof (zlen_sub buf 16 8 ltac:(lia) ltac:(lia)
      ltac:(reflect_bools; unfold MinCapacity in *; lia)) as Hz.
    unfold zlen in Hz. rewrite Hz in Hb. done. }
  case_match eqn:E; [done|]. intros [= <-]. unfold newRing. cbn [data hdr mask].
  apply attach_checks in E as (Hmin & Hp & Hin); [|done].
  assert (Hz : zlen (sub buf HeaderSize cap) = cap) by (apply zlen_sub; lia). rewrite Hz.
  split; [|split; [lia|done]]. split; cbn [data hdr mask capacity]; rewrite ?Hz; try done. lia.
Qed.

Lemma ring_ok_data r d :
  ring_ok r -> zlen d = zlen (data r) -> ring_ok (set_data d r).
Proof. intros [] Hd. split; cbn; rewrite ?Hd; done. Qed.

(** The length field read at an index, when the checks of the reader pass. *)
Lemma align_checked len index cap :
  8 <= len < 2 ^ 31 -> 0 <= index < cap -> cap <= 2 ^ 31 -> (index +64 align len) <= cap ->
  8 <= len <= align len /\ index + align len <= cap.
Proof.
  intros Hl Hi Hc. destruct (decide (len + 7 < 2 ^ 31)) as [Hs|Hs].
  - destruct (align_bounds len ltac:(lia) Hs) as [_ ?]. rewrite u64_small by lia. lia.
  - (* the sum wraps around an int32, and the size is too large for any ring *)
    assert (Ha : align len = 2 ^ 64 - 2 ^ 31).
    { unfold align, recordAlignment.
      assert (E : len = 2 ^ 31 - 7 \/ len = 2 ^ 31 - 6 \/ len = 2 ^ 31 - 5 \/ len = 2 ^ 31 - 4 \/
                  len = 2 ^ 31 - 3 \/ len = 2 ^ 31 - 2 \/ len = 2 ^ 31 - 1) by lia.
      destruct E as [->|[->|[->|[->|[->|[->| ->]]]]]]; reflexivity. }
    rewrite Ha. rewrite u64_small by lia. lia.
Qed.

Lemma read_pass_total left_ index r :
  ring_ok r -> zlen (data r) <= 2 ^ 31 -> 0 <= index < zlen (data r) -> 0 <= left_ ->
  match read_pass left_ index r with
  | Record_ r' step msg =>
      8 <= step <= left_ /\ hdr r' = hdr r /\ ring_ok r' /\ zlen (data r') = zlen (data r) /\
      (length msg <= 1)%nat /\ Forall (fun m => zlen (snd m) + RecordHeaderSize <= zlen (data r)) msg
  | _ => True
  end.
Proof.
  intros Hok Hcap Hi Hleft. unfold read_pass. destruct (loadLength r index <=? 0); [done|].
  pose proof (i32_range (get_u32 (data r) index) : _ <= loadLength r index < _) as Hr.
  rewrite u64_Capacity by done.
  destruct ((loadLength r index <? RecordHeaderSize) || _ || _) eqn:E; [done|].
  apply orb_false_iff in E as [E E3]. apply orb_false_iff in E as [E1 E2]. reflect_bools.
  unfold RecordHeaderSize in *.
  destruct (align_checked (loadLength r index) index (zlen (data r))) as [Hl Hin]; try lia.
  set (len := loadLength r index) in *. set (step := align len) in *.
  assert (Hz1 : zlen (blit (data r) (index + 4) (zeros (step - 4))) = zlen (data r))
    by (apply zlen_blit; rewrite ?zlen_zeros; lia).
  assert (Hz2 : zlen (blit (blit (data r) (index + 4) (zeros (step - 4))) index (put32 0)) = zlen (data r))
    by (rewrite zlen_blit; rewrite ?zlen_put32; lia).
  split; [lia|]. split; [done|].
  split; [apply ring_ok_data; [by apply ring_ok_data|cbn; lia]|]. split; [done|].
  case_match; [split; [cbn; lia|done]|]. split; [cbn; lia|]. constructor; [|done]. cbn [snd].
  rewrite zlen_sub; lia.
Qed.

Lemma read_loop_total fuel limit hd available consumed out r :
  ring_ok r -> zlen (data r) <= 2 ^ 31 -> 0 <= consumed <= available -> available < 2 ^ 64 ->
  (available - consumed) / 8 < Z.of_nat fuel -> (0 < fuel)%nat ->
  zlen out <= Z.max 0 limit ->
  Forall (fun m => zlen (snd m) + RecordHeaderSize <= zlen (data r)) out ->
  exists res, read_loop fuel limit hd available consumed out r = Some res /\
    zlen (rd_out res) <= Z.max 0 limit /\ zlen (data (rd_ring res)) = zlen (data r) /\
    Forall (fun m => zlen (snd m) + RecordHeaderSize <= zlen (data r)) (rd_out res) /\
    match rd_err res with
    | None => exists n, consumed <= n <= available /\
                head (hdr (rd_ring res)) = if 0 <? n then hd +64 n else head (hdr r)
    | Some e => e = ErrCorrupt /\ hdr (rd_ring res) = hdr r
    end.
Proof.
  revert consumed out r. induction fuel as [|fuel IH]; intros consumed out r Hok Hcap Hc Ha Hf Hf0 Ho Hall; [lia|].
  cbn [read_loop].
  assert (Hfin : exists res, Some (mkRead (if 0 <? consumed then set_hdr (with_head (hd +64 consumed)) r else r)
      out None) = Some res /\ zlen (rd_out res) <= Z.max 0 limit /\ zlen (data (rd_ring res)) = zlen (data r) /\
    Forall (fun m => zlen (snd m) + RecordHeaderSize <= zlen (data r)) (rd_out res) /\
    match rd_err res with
    | None => exists n, consumed <= n <= available /\
                head (hdr (rd_ring res)) = if 0 <? n then hd +64 n else head (hdr r)
    | Some e => e = ErrCorrupt /\ hdr (rd_ring res) = hdr r
    end).
  { eexists; split; [reflexivity|]. cbn [rd_out rd_ring rd_err]. split; [done|].
    split; [by case_match|]. split; [done|]. exists consumed. split; [lia|]. by case_match. }
  destruct ((zlen out <? limit) && (consumed <? available)) eqn:E; [|exact Hfin]. reflect_bools.
  rewrite index_ok, (u64_small (available - consumed)) by (done || lia).
  pose proof (read_pass_total (available - consumed) ((hd +64 consumed) mod zlen (data r)) r Hok Hcap
    ltac:(apply Z.mod_pos_bound; by apply ring_pos) ltac:(lia)) as Hp.
  destruct (read_pass _ _ r) as [| |r' step msg]; [exact Hfin| |].
  { eexists; split; [reflexivity|]. cbn. done. }
  destruct Hp as (Hs & Hh & Hok' & Hd & Hm & Hmall). rewrite (u64_small (consumed + step)) by lia.
  pose proof (Z.div_mod (available - consumed) 8 ltac:(lia)).
  pose proof (Z.mod_pos_bound (available - consumed) 8 ltac:(lia)).
  pose proof (Z.div_mod (available - (consumed + step)) 8 ltac:(lia)).
  pose proof (Z.mod_pos_bound (available - (consumed + step)) 8 ltac:(lia)).
  destruct (IH (consumed + step) (out ++ msg) r') as (res & Hr & Hro & Hrd & Hra & Hre);
    rewrite ?Hd; try done; try lia.
  { rewrite zlen_app. unfold zlen in *. lia. }
  { by apply Forall_app. }
  exists res. rewrite Hd in *. split; [done|]. split; [done|]. split; [done|]. split; [done|].
  destruct (rd_err res); [by rewrite Hh in Hre|]. destruct Hre as (n & ? & ?). exists n. rewrite Hh in *.
  split; [lia|done].
Qed.

(** The reader is safe on any memory contents: a read of a handle whose
    data region is at most 2 GiB returns, passes at most [limit] messages, takes
    every payload from inside the data region, and reports no error but
    [ErrCorrupt], after which it has not moved its cursor. *)
Theorem Read_total limit r :
  ring_ok r -> zlen (data r) <= 2 ^ 31 -> 0 <= head (hdr r) < 2 ^ 64 -> 0 <= tail (hdr r) < 2 ^ 64 ->
  exists res, Read limit r = Some res /\
    zlen (rd_out res) <= Z.max 0 limit /\ zlen (data (rd_ring res)) = zlen (data r) /\
    Forall (fun m => zlen (snd m) + RecordHeaderSize <= zlen (data r)) (rd_out res) /\
    match rd_err res with
    | None => exists n, 0 <= n <= (tail (hdr r) -64 head (hdr r)) /\
                head (hdr (rd_ring res)) = if 0 <? n then head (hdr r) +64 n else head (hdr r)
    | Some e => e = ErrCorrupt /\ hdr (rd_ring res) = hdr r
    end.
Proof.
  intros Hok Hcap Hh Ht. unfold Read. destruct (Z.leb_spec limit 0).
  - eexists; split; [reflexivity|]. cbn [rd_out rd_ring rd_err]. rewrite zlen_nil. split; [lia|].
    split; [done|]. split; [done|]. exists 0. pose proof (u64_range (tail (hdr r) - head (hdr r))).
    split; [lia|done].
  - pose proof (u64_range (tail (hdr r) - head (hdr r))).
    apply read_loop_total; try done; try lia; unfold read_fuel; try lia.
    + pose proof (Z.div_pos (u64 (tail (hdr r) - head (hdr r))) 8). rewrite Z.sub_0_r. lia.
    + rewrite zlen_nil. lia.
Qed.

Lemma load_after_store idx v r :
  0 <= idx -> idx + 4 <= zlen (data r) -> - 2 ^ 31 <= v < 2 ^ 31 ->
  loadLength (storeLength idx v r) idx = v.
Proof.
  intros. unfold loadLength, storeLength, get_i32, get_u32; cbn [data set_data].
  assert (E : sub (blit (data r) idx (put32 v)) idx 4 = put32 v).
  { unfold blit. unfold sub. rewrite drop_app_length' by (rewrite length_take; unfold zlen in *; lia).
    apply take_app_length'. pose proof (zlen_put32 v). unfold zlen in *. lia. }
  rewrite E. unfold put32. rewrite le_combine_split. change (2 ^ (Z.of_nat 4 * 8)) with (2 ^ 32).
  rewrite i32_mod. by apply i32_small.
Qed.

Lemma zlen_storeLength idx v r :
  0 <= idx -> idx + 4 <= zlen (data r) -> zlen (data (storeLength idx v r)) = zlen (data r).
Proof. intros. cbn. rewrite zlen_blit; rewrite ?zlen_put32; lia. Qed.

Lemma zlen_storeType idx v r :
  0 <= idx -> idx + 8 <= zlen (data r) -> zlen (data (storeType idx v r)) = zlen (data r).
Proof. intros. cbn. rewrite zlen_blit; rewrite ?zlen_put32; lia. Qed.

(** A length that runs past the committed cursor. *)
Lemma Read_overlong limit r :
  let available := tail (hdr r) -64 head (hdr r) in
  let len := loadLength r (Z.land (u64 (head (hdr r) + 0)) (mask r)) in
  0 < limit -> 0 < len -> 0 < available < align len ->
  Read limit r = Some (mkRead r [] (Some ErrCorrupt)).
Proof.
  cbv zeta. intros Hl Hlen [Ha1 Ha2]. pose proof (u64_range (tail (hdr r) - head (hdr r))) as Hr.
  unfold Read, read_fuel. rewrite (proj2 (Z.leb_gt _ _)) by done.
  generalize (S (Z.to_nat ((tail (hdr r) -64 head (hdr r)) / 8))) as fuel. intros fuel.
  cbn [read_loop]. rewrite zlen_nil. rewrite (proj2 (Z.ltb_lt _ _)), (proj2 (Z.ltb_lt _ _)) by done.
  cbn [andb]. unfold read_pass. rewrite (proj2 (Z.leb_gt _ _)) by done.
  rewrite Z.sub_0_r, (u64_small (u64 _)) by lia.
  rewrite (proj2 (Z.ltb_lt (u64 (tail (hdr r) - head (hdr r))) _)) by done. by rewrite orb_true_r.
Qed.

(** In a ring of 4 GiB, a message of the largest size [MaxMessageSize]
    allows is accepted, and once it is committed the reader reports
    [ErrCorrupt]: the aligned size overflows an int32 in [align]. *)
Theorem max_message_overflows_align typ r :
  ring_ok r -> zlen (data r) = 2 ^ 32 -> tail (hdr r) = 0 -> head (hdr r) = 0 -> headCache (hdr r) = 0 ->
  typ_fits typ ->
  exists r1 c, tryClaim 1 (-1) typ (MaxMessageSize r) r = Some (r1, Ok c) /\
    Read 1 (Commit c r1) = Some (mkRead (Commit c r1) [] (Some ErrCorrupt)).
Proof.
  intros Hok Hd Ht Hh Hc Htyp. unfold typ_fits in Htyp.
  assert (HM : MaxMessageSize r = 2 ^ 31 - 9).
  { unfold MaxMessageSize. by rewrite Capacity_ok, Hd by done. }
  unfold tryClaim. rewrite (proj2 (Z.eqb_neq typ _)) by lia. rewrite HM, Z.ltb_irrefl. cbn [orb].
  change (2 ^ 31 - 9 <? 0) with false. cbn [orb claim_loop]. unfold claim_pass.
  rewrite u64_Capacity, index_ok, Ht, Hc, Hd by done.
  change (align (i32 (RecordHeaderSize + (2 ^ 31 - 9)))) with (2 ^ 64 - 2 ^ 31).
  change (0 mod 2 ^ 32) with 0. change (2 ^ 32 -64 0) with (2 ^ 32).
  change (2 ^ 32 <? 2 ^ 64 - 2 ^ 31) with true. cbn iota.
  change ((2 ^ 64 - 2 ^ 31) +64 2 ^ 32) with (2 ^ 31).
  change (hasRoom 0 0 (2 ^ 32) (2 ^ 31)) with true. cbn [negb]. unfold claim_take.
  rewrite u64_Capacity, index_ok, Hd by done. change (0 <=? -1) with false. cbn iota.
  change (2 ^ 31 =? 2 ^ 64 - 2 ^ 31) with false. cbn [negb].
  do 2 eexists. split; [reflexivity|]. unfold Commit. cbn [c_slot c_index c_total].
  unfold release. change (0 <=? -1) with false. cbn iota.
  match goal with |- context [storeLength 0 (i32 (RecordHeaderSize + _)) ?R] => set (r1 := R) end.
  change (i32 (RecordHeaderSize + (2 ^ 31 - 9))) with (2 ^ 31 - 1).
  assert (Hz : zlen (data r1) = 2 ^ 32).
  { assert (HL : forall v x, zlen (data x) = 2 ^ 32 -> zlen (data (storeLength 0 v x)) = 2 ^ 32)
      by (intros; rewrite zlen_storeLength; lia).
    assert (HT : forall v x, zlen (data x) = 2 ^ 32 -> zlen (data (storeType 0 v x)) = 2 ^ 32)
      by (intros; rewrite zlen_storeType; lia).
    by apply HL, HT, HL, HT. }
  assert (HL : loadLength (storeLength 0 (2 ^ 31 - 1) r1)
      (Z.land (u64 (head (hdr (storeLength 0 (2 ^ 31 - 1) r1)) + 0)) (mask (storeLength 0 (2 ^ 31 - 1) r1)))
      = 2 ^ 31 - 1).
  { change (head (hdr (storeLength 0 (2 ^ 31 - 1) r1))) with (head (hdr r)). rewrite Hh.
    change (u64 (0 + 0)) with 0. rewrite Z.land_0_l. apply load_after_store; lia. }
  assert (HA : tail (hdr (storeLength 0 (2 ^ 31 - 1) r1)) -64 head (hdr (storeLength 0 (2 ^ 31 - 1) r1)) = 2 ^ 31).
  { change (head (hdr (storeLength 0 (2 ^ 31 - 1) r1))) with (head (hdr r)). by rewrite Hh. }
  apply Read_overlong; [lia|rewrite HL; lia|]. rewrite HL, HA.
  change (align (2 ^ 31 - 1)) with (2 ^ 64 - 2 ^ 31). lia.
Qed.

(** ** Witnesses *)

Definition demo_header : ringHeader :=
  mkHeader ringMagic ringVersion 0 4096 noProc 0 0 0 0 0
    (replicate (Z.to_nat ClaimSlots) (mkSlot 0 noIntent 0)).
Definition demo : Ring := mkRing demo_header (zeros 4096) 4095.

Lemma demo_ok : ring_ok demo.
Proof.
  assert (Hz : zlen (data demo) = 4096) by (apply zlen_zeros; lia).
  split; rewrite ?Hz; try done. exists 12. done.
Qed.

Lemma demo_tiles : tiles demo 0 [].
Proof.
  apply tiles_init; [apply demo_ok|done..|].
  change (data demo) with (zeros 4096). by rewrite zlen_zeros by lia.
Qed.

Lemma demo_holds : holds demo [].
Proof. exists []. split; [apply demo_tiles|done]. Qed.

(** A ring with one claim of one byte open at its start. *)
Definition demo_open : Ring :=
  storeLength 0 (-9) (storeType 0 7 (set_hdr (with_tail 16) demo)).

Lemma demo_open_tiles : tiles demo_open 0 [open_seg 7 1 (zeros 8)].
Proof.
  pose proof (tiles_claim demo 0 [] 16 demo_tiles ltac:(lia) eq_refl) as T.
  assert (Hz : zlen (data demo) = 4096) by (apply zlen_zeros; lia). rewrite Hz in T.
  change (tail (hdr demo)) with 0 in T. change (head (hdr demo)) with 0 in T.
  specialize (T ltac:(rewrite Z.mod_0_l; lia) ltac:(lia) ltac:(lia)). cbn [app] in T.
  apply (tiles_storeType _ _ [] _ _) with (v := 7) in T; [|lia].
  apply (tiles_storeLength _ _ [] _ _) with (v := -9) in T; [exact T|].
  right. exists 9. unfold seg_size, RecordHeaderSize. cbn [s_body s_len zero_seg].
  rewrite zlen_zeros by (unfold RecordHeaderSize; lia). unfold RecordHeaderSize. lia.
Qed.

Definition hello : list byte := [Byte.x68; Byte.x69].

Lemma hello_fits : len_fits demo (zlen hello).
Proof. by split; [split|]. Qed.

Lemma demo_fits : fits demo (zlen hello).
Proof.
  unfold fits. assert (Hz : zlen (data demo) = 4096) by (apply zlen_zeros; lia).
  rewrite Hz. vm_compute. done.
Qed.

Lemma tryWrite_fifo_witness :
  holds demo [] /\
  exists r', (fits demo (zlen hello) /\ tryWrite 1 (-1) 7 hello demo = Some (r', None) /\
    holds r' ([] ++ [(7, hello)])) \/
   (~ fits demo (zlen hello) /\ tryWrite 1 (-1) 7 hello demo = Some (r', Some ErrFull) /\ holds r' []).
Proof.
  split; [apply demo_holds|].
  apply (tryWrite_fifo 1 (-1) 7 hello demo []); [apply demo_holds|by vm_compute|by split|apply hello_fits|lia].
Defined.

Lemma Read_fifo_witness :
  exists r', Read 3 demo = Some (mkRead r' (take 3 []) None) /\ holds r' (drop 3 []).
Proof. apply (Read_fifo 3 demo []). apply demo_holds. Defined.

Lemma Read_stops_at_claim_witness :
  exists r' kept, Read 3 demo_open = Some (mkRead r' (take 3 []) None) /\
    tiles r' 0 (kept ++ [open_seg 7 1 (zeros 8)]) /\ mjoin (deliver <$> kept) = drop 3 [].
Proof.
  apply (Read_stops_at_claim 3 demo_open [] (open_seg 7 1 (zeros 8)) []); [apply demo_open_tiles|done|done].
Defined.

Lemma claim_publishes_witness :
  exists r1 c, tryClaim 1 (-1) 7 (zlen hello) demo = Some (r1, Ok c) /\
    zlen (claim_bytes r1 c) = zlen hello /\
    (forall limit, exists r2, Read limit r1 = Some (mkRead r2 (take (Z.to_nat limit) []) None)) /\
    holds (Commit c (fill_claim c 0 hello r1)) ([] ++ [(7, hello)]) /\
    holds (Abort c (fill_claim c 0 hello r1)) [].
Proof.
  apply (claim_publishes 1 (-1) 7 hello demo []);
    [apply demo_holds|by vm_compute|by split|apply hello_fits|lia|apply demo_fits].
Defined.

Lemma empty_ring_fits_witness : fits demo 2040.
Proof. apply (empty_ring_fits demo 2040); [apply demo_tiles|by split; [split|]]. Defined.

Lemma tryWrite_rejects_witness :
  tryWrite 1 (-1) TypePadding hello demo = Some (demo, Some ErrReservedType) /\
  tryWrite 1 (-1) 7 (zeros 2041) demo = Some (demo, Some ErrMessageTooLarge).
Proof.
  split; [by apply (tryWrite_rejects 1 (-1) TypePadding hello demo)|].
  apply (tryWrite_rejects 1 (-1) 7 (zeros 2041) demo); [done|by vm_compute].
Defined.

Lemma initRing_formats_witness :
  if zlen (zeros 21000) <? HeaderSize + MinCapacity
  then initRing (zeros 21000) 16 5 = Err ErrTooSmall
  else if negb (16 mod 8 =? 0) then initRing (zeros 21000) 16 5 = Err ErrUnaligned
  else exists r, initRing (zeros 21000) 16 5 = Ok r /\ holds r [] /\ Empty r = true /\
         capacity (hdr r) <= zlen (zeros 21000) - HeaderSize < 2 * capacity (hdr r) /\
         consumer (hdr r) = 5 /\
         Forall (fun s => at_ s = noIntent /\ owner s = noProc) (slots (hdr r)).
Proof. apply (initRing_formats (zeros 21000) 16 5). rewrite zlen_zeros; lia. Defined.

Lemma demo_hdr_ok : hdr_ok demo_header.
Proof. split; try (cbn; lia); try done. by apply Forall_replicate. Qed.

Lemma AttachRing_roundtrip_witness : AttachRing (ring_buffer demo [Byte.x01]) 4096 = Ok demo.
Proof. apply (AttachRing_roundtrip demo [Byte.x01] 4096); [apply demo_ok|apply demo_hdr_ok|done..]. Defined.

Lemma AttachRing_sound_witness :
  ring_ok demo /\ HeaderSize + zlen (data demo) <= zlen (ring_buffer demo []) /\
  data demo = sub (ring_buffer demo []) HeaderSize (zlen (data demo)).
Proof.
  apply (AttachRing_sound (ring_buffer demo []) 4096 demo); [by vm_compute|].
  vm_compute. reflexivity.
Defined.

Lemma Read_total_witness :
  exists res, Read 1 demo = Some res /\
    zlen (rd_out res) <= Z.max 0 1 /\ zlen (data (rd_ring res)) = zlen (data demo) /\
    Forall (fun m => zlen (snd m) + RecordHeaderSize <= zlen (data demo)) (rd_out res) /\
    match rd_err res with
    | None => exists n, 0 <= n <= (tail (hdr demo) -64 head (hdr demo)) /\
                head (hdr (rd_ring res)) = if 0 <? n then head (hdr demo) +64 n else head (hdr demo)
    | Some e => e = ErrCorrupt /\ hdr (rd_ring res) = hdr demo
    end.
Proof. apply (Read_total 1 demo); [apply demo_ok|by vm_compute|by vm_compute|by vm_compute]. Defined.

(** An empty ring of 4 GiB. *)
Definition giant : Ring :=
  mkRing (mkHeader ringMagic ringVersion 0 (2 ^ 32) noProc 0 0 0 0 0 []) (zeros (2 ^ 32)) (2 ^ 32 - 1).

Lemma zlen_giant : zlen (data giant) = 2 ^ 32.
Proof. apply (zlen_zeros (2 ^ 32)). lia. Qed.

Lemma giant_ok : ring_ok giant.
Proof.
  split; rewrite ?zlen_giant; [by exists 32|unfold MinCapacity; lia|lia|reflexivity|reflexivity].
Qed.

Lemma max_message_overflows_align_witness :
  exists r1 c, tryClaim 1 (-1) 0 (MaxMessageSize giant) giant = Some (r1, Ok c) /\
    Read 1 (Commit c r1) = Some (mkRead (Commit c r1) [] (Some ErrCorrupt)).
Proof.
  apply (max_message_overflows_align 0 giant);
    [exact giant_ok|exact zlen_giant|reflexivity|reflexivity|reflexivity|by split].
Defined.
