(* ===== verification/Recover.v ===== *)
(** * Recovery of the claims of dead producers ([src/recover.go], [src/queue_peer.go])

    [stalled], [reclaim], [acquireSlot] and [dropSlot] of a ring, and the
    decision [Queue.unstall] takes with them, each run without interference.
    [RingConc] runs the same code one shared-memory access at a time. *)

From stdpp Require Import base numbers list list_numbers option.
From coqutil Require Import Byte Word.LittleEndianList.
From Stdlib Require Import ZArith Lia Bool.
From S2P Require Import Prelude Ipc Ring RingInv RingSeq.

(** ** Process identities ([src/identity.go]) *)

Definition pendingProc : Z := 1.
Definition watchable_bit : Z := Z.shiftl 1 63.
Definition anyProc : Z := Z.shiftl 1 62.

Definition watchable (id : Z) : bool := negb (Z.land id watchable_bit =? 0).

(** [raw] is the random word. *)
Definition randomID (raw : Z) : Z := Z.lor (Z.lor raw watchable_bit) anyProc.

(** ** Stalls *)

Record stall : Type := mkStall { st_at : Z; st_length : Z; st_slots : list Z }.

Definition slot (r : Ring) (idx : Z) : claimSlot :=
  default (mkSlot 0 noIntent 0) (slots (hdr r) !! Z.to_nat idx).

(** Whether the intent of a slot covers the cursor [hd]. *)
Definition covers (s : claimSlot) (hd : Z) : bool :=
  negb (at_ s =? noIntent) && (at_ s <=? hd) && (hd <? at_ s +64 size_ s).

Definition slot_range (r : Ring) : list Z := seqZ 0 (zlen (slots (hdr r))).

Definition stalled (r : Ring) : option stall :=
  let hd := head (hdr r) in
  if hd =? tail (hdr r) then None
  else
    let length := loadLength r (Z.land hd (mask r)) in
    if 0 <? length then None
    else Some (mkStall hd length (filter (fun idx => covers (slot r idx) hd = true) (slot_range r))).

Definition reclaim (st : stall) (end_ : Z) (dead : list Z) (r : Ring) : Ring * bool :=
  let index := Z.land (st_at st) (mask r) in
  let size := end_ -64 st_at st in
  let toEnd := u64 (Capacity r) -64 index in
  let size := if toEnd <? size then toEnd else size in
  let '(r, swapped) := casLength index (st_length st) (i32 size) r in
  if negb swapped then (r, false)
  else
    let r := storeType index TypePadding r in
    let r := if st_at st +64 size =? end_
             then foldl (fun r idx => store_at idx noIntent r) r dead else r in
    (r, true).

(** ** Slots *)

(** The first loop of [acquireSlot]: a compare-and-swap of each free slot. *)
Fixpoint acquire_free (self : Z) (idxs : list Z) (r : Ring) : option (Ring * Z) :=
  match idxs with
  | [] => None
  | idx :: idxs =>
      if owner (slot r idx) =? 0
      then Some (store_at idx noIntent (store_owner idx self r), idx)
      else acquire_free self idxs r
  end.

(** The second loop: the slots of dead owners. *)
Fixpoint acquire_dead (self hd : Z) (dead : Z -> bool) (idxs : list Z) (r : Ring)
  : option (Ring * Z) :=
  match idxs with
  | [] => None
  | idx :: idxs =>
      let s := slot r idx in
      if (owner s =? noProc) || (owner s =? self) then acquire_dead self hd dead idxs r
      else if negb (at_ s =? noIntent) && (hd <? at_ s +64 size_ s)
      then acquire_dead self hd dead idxs r
      else if negb (dead (owner s)) then acquire_dead self hd dead idxs r
      else Some (store_at idx noIntent (store_owner idx self r), idx)
  end.

Definition acquireSlot (self : Z) (dead : Z -> bool) (r : Ring) : Ring * result Z :=
  match acquire_free self (slot_range r) r with
  | Some (r, idx) => (r, Ok idx)
  | None =>
      match acquire_dead self (head (hdr r)) dead (slot_range r) r with
      | Some (r, idx) => (r, Ok idx)
      | None => (r, Err ErrTooManyClaims)
      end
  end.

Definition dropSlot (self idx : Z) (r : Ring) : Ring :=
  let r := store_at idx noIntent r in
  if owner (slot r idx) =? self then store_owner idx 0 r else r.

(** ** The decision of the receiver *)

(** What [unstall] returns: nothing to do or a claim to leave alone, a live
    producer to watch, dead producers that disagree, or what [reclaim] said. *)
Inductive verdict : Type :=
| LeaveAlone
| Watch (id : Z)
| Disagree
| Reclaimed (done : bool).

(** The loop over the slots that cover the stall. [Some] is an early return;
    otherwise the dead slots and the end of their claim. *)
Fixpoint judge (self : Z) (isDead : Z -> bool) (r : Ring) (at0 : Z) (idxs : list Z)
    (dead : list Z) (end_ : Z) : verdict + (list Z * Z) :=
  match idxs with
  | [] => inr (dead, end_)
  | idx :: idxs =>
      let s := slot r idx in
      if (owner s =? noProc) || (at_ s =? noIntent) || (at0 <? at_ s) || (at_ s +64 size_ s <=? at0)
      then judge self isDead r at0 idxs dead end_
      else if (owner s =? self) || negb (watchable (owner s)) then inl LeaveAlone
      else if negb (isDead (owner s)) then inl (Watch (owner s))
      else if (0 <? zlen dead) && negb (at_ s +64 size_ s =? end_) then inl Disagree
      else judge self isDead r at0 idxs (dead ++ [idx]) (at_ s +64 size_ s)
  end.

Definition unstall (self : Z) (isDead : Z -> bool) (r : Ring) : Ring * verdict :=
  match stalled r with
  | None => (r, LeaveAlone)
  | Some st =>
      match judge self isDead r (st_at st) (st_slots st) [] 0 with
      | inl v => (r, v)
      | inr (dead, end_) =>
          if zlen dead =? 0 then (r, LeaveAlone)
          else let '(r, ok) := reclaim st end_ dead r in (r, Reclaimed ok)
      end
  end.

(** ** Slots *)

#[global] Instance claimSlot_eq_dec : EqDecision claimSlot.
Proof. solve_decision. Defined.

Lemma slot_alter i f r idx :
  0 <= i < zlen (slots (hdr r)) -> 0 <= idx ->
  slot (set_hdr (upd_slot i f) r) idx = if decide (idx = i) then f (slot r idx) else slot r idx.
Proof.
  intros Hi Hidx. unfold slot, upd_slot. cbn. unfold zlen in *. case_decide as E.
  - subst. rewrite list_lookup_alter_eq.
    destruct (lookup_lt_is_Some_2 (slots (hdr r)) (Z.to_nat i)) as [x ->]; [lia|]. done.
  - by rewrite list_lookup_alter_ne by lia.
Qed.

Lemma slot_range_spec r idx : idx ∈ slot_range r <-> 0 <= idx < zlen (slots (hdr r)).
Proof. unfold slot_range. rewrite elem_of_seqZ. lia. Qed.

(** Slot [idx] now belongs to [self] and announces nothing; nothing else moved. *)
Record taken (self idx : Z) (r r' : Ring) : Prop := {
  tk_range : idx ∈ slot_range r;
  tk_slot : slot r' idx = mkSlot self noIntent (size_ (slot r idx));
  tk_others : forall j, j ∈ slot_range r -> j <> idx -> slot r' j = slot r j;
  tk_rest : r' = set_hdr (with_slots (slots (hdr r'))) r }.

Lemma take_slot self idx r :
  idx ∈ slot_range r -> taken self idx r (store_at idx noIntent (store_owner idx self r)).
Proof.
  intros Hin. pose proof Hin as Hr. rewrite slot_range_spec in Hr. unfold store_at, store_owner.
  assert (Hlen : zlen (slots (hdr (set_hdr (upd_slot idx (fun s => mkSlot self (at_ s) (size_ s))) r)))
                 = zlen (slots (hdr r))) by (cbn; unfold zlen; by rewrite length_alter).
  split; try done.
  - by rewrite !slot_alter, !decide_True by (rewrite ?Hlen; done || lia).
  - intros j Hj Hne. rewrite slot_range_spec in Hj.
    by rewrite !slot_alter, !decide_False by (rewrite ?Hlen; done || lia).
Qed.

Lemma acquire_free_spec self idxs r :
  match acquire_free self idxs r with
  | Some (r', idx) => idx ∈ idxs /\ owner (slot r idx) = 0 /\
      r' = store_at idx noIntent (store_owner idx self r)
  | None => forall j, j ∈ idxs -> owner (slot r j) <> 0
  end.
Proof.
  induction idxs as [|i idxs IH]; cbn; [by intros j ?%elem_of_nil|].
  destruct (Z.eqb_spec (owner (slot r i)) 0); [split_and!; try done; by left|].
  destruct (acquire_free self idxs r) as [[r' idx]|].
  - destruct IH as (? & ? & ?). split_and!; try done. by right.
  - intros j [->|?]%elem_of_cons; auto.
Qed.

(** A slot the second loop of [acquireSlot] may take. *)
Definition stealable (self hd : Z) (dead : Z -> bool) (s : claimSlot) : Prop :=
  owner s <> noProc /\ owner s <> self /\ dead (owner s) = true /\
  (at_ s = noIntent \/ at_ s +64 size_ s <= hd).

Lemma acquire_dead_spec self hd dead idxs r :
  match acquire_dead self hd dead idxs r with
  | Some (r', idx) => idx ∈ idxs /\ stealable self hd dead (slot r idx) /\
      r' = store_at idx noIntent (store_owner idx self r)
  | None => forall j, j ∈ idxs -> ~ stealable self hd dead (slot r j)
  end.
Proof.
  induction idxs as [|i idxs IH]; cbn [acquire_dead]; [by intros j ?%elem_of_nil|].
  assert (Hskip : ~ stealable self hd dead (slot r i) ->
    match acquire_dead self hd dead idxs r with
    | Some (r', idx) => idx ∈ i :: idxs /\ stealable self hd dead (slot r idx) /\
        r' = store_at idx noIntent (store_owner idx self r)
    | None => forall j, j ∈ i :: idxs -> ~ stealable self hd dead (slot r j)
    end).
  { intros Hno. destruct (acquire_dead self hd dead idxs r) as [[r' idx]|].
    - destruct IH as (? & ? & ?). split_and!; try done. by right.
    - intros j [->|?]%elem_of_cons; auto. }
  destruct (_ || _) eqn:B1.
  { apply Hskip. intros (? & ? & _). apply orb_prop in B1 as [?%Z.eqb_eq|?%Z.eqb_eq]; done. }
  destruct (_ && _) eqn:B2.
  { apply Hskip. intros (_ & _ & _ & Hp). apply andb_prop in B2 as [?%negb_true_iff%Z.eqb_neq ?%Z.ltb_lt].
    destruct Hp; [done|lia]. }
  destruct (dead (owner (slot r i))) eqn:B3; cbn [negb].
  - apply orb_false_elim in B1 as [?%Z.eqb_neq ?%Z.eqb_neq].
    split; [by left|]. split; [|done]. split_and!; [done..|].
    apply andb_false_iff in B2 as [?%negb_false_iff%Z.eqb_eq|?%Z.ltb_ge]; auto.
  - apply Hskip. intros (_ & _ & ? & _). congruence.
Qed.

(** [acquireSlot] takes the first free slot; with none free it takes a slot
    of a dead process whose claim the reader has passed, and it fails with
    [ErrTooManyClaims] only when there is no such slot either. It clears the
    intent of the slot it takes and touches nothing else. *)
Theorem acquireSlot_spec self dead r :
  match acquireSlot self dead r with
  | (r', Ok idx) => taken self idx r r' /\
      (owner (slot r idx) = 0 \/
       (forall j, j ∈ slot_range r -> owner (slot r j) <> 0) /\
       stealable self (head (hdr r)) dead (slot r idx))
  | (r', Err e) => e = ErrTooManyClaims /\ r' = r /\
      forall j, j ∈ slot_range r ->
        owner (slot r j) <> 0 /\ ~ stealable self (head (hdr r)) dead (slot r j)
  end.
Proof.
  unfold acquireSlot. pose proof (acquire_free_spec self (slot_range r) r) as Hf.
  destruct (acquire_free self (slot_range r) r) as [[r' idx]|].
  - destruct Hf as (Hin & H0 & ->). split; [by apply take_slot|by left].
  - pose proof (acquire_dead_spec self (head (hdr r)) dead (slot_range r) r) as Hd.
    destruct (acquire_dead _ _ _ _ _) as [[r' idx]|].
    + destruct Hd as (Hin & Hs & ->). split; [by apply take_slot|by right].
    + split_and!; [done|done|]. auto.
Qed.

(** ** Recovery of a claim *)

Lemma stalled_spec r s rest :
  tiles r 0 (s :: rest) -> s_len s <= 0 ->
  stalled r = Some (mkStall (head (hdr r)) (s_len s)
    (filter (fun idx => covers (slot r idx) (head (hdr r)) = true) (slot_range r))).
Proof.
  intros T Hs. pose proof (t_ok _ _ _ T) as Hok. pose proof (t_tail _ _ _ T) as Htl.
  rewrite segs_size_cons in Htl. pose proof (segs_size_nonneg rest). pose proof (seg_size_ge s).
  assert (Hidx : Z.land (head (hdr r)) (mask r) = seg_index r 0 []).
  { unfold seg_index. rewrite index_ok, segs_size_nil, (ok_cap _ Hok) by done. f_equal. lia. }
  unfold stalled. rewrite (proj2 (Z.eqb_neq _ _)) by lia.
  rewrite Hidx, (tiles_loadLength r 0 [] s rest T). by rewrite (proj2 (Z.ltb_ge _ _)) by lia.
Qed.

(** Turning the front claim into padding; [end_] is where the claim stops, past
    the segment only when the claim goes on after the wrap point. *)
Lemma reclaim_spec r s rest end_ idxs dead :
  tiles r 0 (s :: rest) -> s_len s <= 0 -> end_ < 2 ^ 64 ->
  end_ = head (hdr r) + seg_size s \/
  (head (hdr r) + seg_size s < end_ /\ seg_size s = lap_left (zlen (data r)) (head (hdr r))) ->
  exists r', reclaim (mkStall (head (hdr r)) (s_len s) idxs) end_ dead r = (r', true) /\
    tiles r' 0 (mkSeg (seg_size s) TypePadding (s_body s) :: rest).
Proof.
  intros T Hs Hw Hend. pose proof (t_ok _ _ _ T) as Hok. pose proof (t_tail _ _ _ T) as Htl.
  pose proof (t_cache _ _ _ T). pose proof (t_nowrap _ _ _ T). pose proof (ok_max _ Hok).
  rewrite segs_size_cons in Htl. pose proof (segs_size_nonneg rest). pose proof (seg_size_ge s).
  assert (Hidx : Z.land (head (hdr r)) (mask r) = seg_index r 0 []).
  { unfold seg_index. rewrite index_ok, segs_size_nil, (ok_cap _ Hok) by done. f_equal. lia. }
  assert (Hlap : seg_index r 0 [] = zlen (data r) - lap_left (zlen (data r)) (head (hdr r))).
  { rewrite (seg_index_eq r 0 [] s rest T), segs_size_nil. unfold lap_left. rewrite !Z.add_0_r. lia. }
  pose proof (tiles_straight r 0 [] s rest T) as Hst.
  destruct (tiles_seg_len r 0 [] s rest T) as (_ & Hsm & _).
  pose proof (Z.mod_pos_bound (head (hdr r)) (zlen (data r)) (ring_pos r Hok)).
  unfold reclaim. cbn [st_at st_length]. rewrite Hidx, u64_Capacity, !u64_small by (done || unfold lap_left in *; lia).
  assert (Hsize : (if zlen (data r) - seg_index r 0 [] <? end_ - head (hdr r)
      then zlen (data r) - seg_index r 0 [] else end_ - head (hdr r)) = seg_size s).
  { destruct (Z.ltb_spec (zlen (data r) - seg_index r 0 []) (end_ - head (hdr r))); lia. }
  rewrite Hsize. unfold casLength. rewrite (tiles_loadLength r 0 [] s rest T), Z.eqb_refl. cbn [negb].
  rewrite i32_small by lia.
  pose proof (tiles_storeLength r 0 [] s rest T (seg_size s)) as T'. cbn [app] in T'.
  specialize (T' ltac:(right; exists (seg_size s); unfold seg_size in *; cbn [s_body s_len] in *; lia)).
  pose proof (tiles_storeType _ _ [] _ _ T' TypePadding ltac:(unfold TypePadding; lia)) as T2. cbn [app] in T2.
  eexists. split; [reflexivity|].
  assert (Hfold : forall r1 l, tiles r1 0 l -> forall dead1,
    tiles (foldl (fun r idx => store_at idx noIntent r) r1 dead1) 0 l).
  { intros r1 l T1 dead1. revert r1 T1. induction dead1 as [|idx d IH]; intros r1 T1; [done|].
    cbn. apply IH. eapply tiles_hdr; [exact T1|done..|apply T1]. }
  destruct (_ =? end_); [by apply Hfold|done].
Qed.

(** The slots that cover the stall, all of dead producers that agree. *)
Lemma judge_agree self isDead r hd idxs dead end_ e :
  (forall idx, idx ∈ idxs -> covers (slot r idx) hd = true /\ owner (slot r idx) <> noProc /\
     owner (slot r idx) <> self /\ watchable (owner (slot r idx)) = true /\
     isDead (owner (slot r idx)) = true /\ at_ (slot r idx) +64 size_ (slot r idx) = e) ->
  dead = [] \/ end_ = e ->
  judge self isDead r hd idxs dead end_ = inr (dead ++ idxs, if zlen idxs =? 0 then end_ else e).
Proof.
  revert dead end_. induction idxs as [|idx idxs IH]; intros dead end_ Hall Hd.
  - cbn. by rewrite app_nil_r.
  - destruct (Hall idx ltac:(by left)) as (Hc & H0 & Hs & Hw & Hdead & He).
    unfold covers in Hc. apply andb_prop in Hc as [[Hni%negb_true_iff Hle%Z.leb_le]%andb_prop Hlt%Z.ltb_lt].
    cbn [judge]. rewrite Hni, (proj2 (Z.eqb_neq _ _) H0), (proj2 (Z.eqb_neq _ _) Hs), Hw, Hdead.
    rewrite (proj2 (Z.ltb_ge _ _)), (proj2 (Z.leb_gt _ _)) by lia. cbn [orb negb]. rewrite He.
    assert (Hagree : (0 <? zlen dead) && negb (e =? end_) = false).
    { destruct Hd as [-> | ->]; [done|]. by rewrite Z.eqb_refl, andb_false_r. }
    rewrite Hagree, IH; [|intros; apply Hall; by right|by right].
    rewrite <-app_assoc. cbn. do 2 f_equal. rewrite zlen_cons. pose proof (zlen_nonneg idxs).
    rewrite (proj2 (Z.eqb_neq (1 + zlen idxs) 0)) by lia. by case_match.
Qed.

(** C7: A claim of a dead producer does not hold up the queue. When every slot
    whose intent covers the stall belongs to a dead process, and they agree on
    where the claim stops, [unstall] turns the claim (or its part before the wrap
    point) into padding, and the next [Read] delivers what was committed behind
    it. *)
Theorem unstall_recovers self isDead r s rest e limit :
  tiles r 0 (s :: rest) -> s_len s <= 0 -> e < 2 ^ 64 ->
  e = head (hdr r) + seg_size s \/
  (head (hdr r) + seg_size s < e /\ seg_size s = lap_left (zlen (data r)) (head (hdr r))) ->
  (exists idx, idx ∈ slot_range r /\ covers (slot r idx) (head (hdr r)) = true) ->
  (forall idx, idx ∈ slot_range r -> covers (slot r idx) (head (hdr r)) = true ->
     owner (slot r idx) <> noProc /\ owner (slot r idx) <> self /\
     watchable (owner (slot r idx)) = true /\ isDead (owner (slot r idx)) = true /\
     at_ (slot r idx) +64 size_ (slot r idx) = e) ->
  exists r1 r2, unstall self isDead r = (r1, Reclaimed true) /\
    Read limit r1 = Some (mkRead r2 (take (Z.to_nat limit) (ready rest)) None).
Proof.
  intros T Hs Hw Hend (i & Hi & Hci) Hall. unfold unstall. rewrite (stalled_spec r s rest T Hs). cbn [st_at st_slots].
  set (found := filter _ _). rewrite (judge_agree _ _ _ _ found [] 0 e); [|intros idx Hidx|by left].
  - assert (Hin : i ∈ found) by (apply list_elem_of_filter; done).
    assert (Hpos : 0 < zlen found).
    { destruct found as [|x f]; [by apply elem_of_nil in Hin|]. rewrite zlen_cons. pose proof (zlen_nonneg f). lia. }
    rewrite (proj2 (Z.eqb_neq (zlen found) 0)) by lia. cbn [app].
    rewrite (proj2 (Z.eqb_neq (zlen found) 0)) by lia.
    destruct (reclaim_spec r s rest e found found T Hs Hw Hend) as (r' & -> & T').
    destruct (Read_spec limit r' _ T') as (r2 & Hr2 & _). exists r', r2. split; [done|].
    rewrite Hr2. cbn [ready s_len]. pose proof (seg_size_ge s).
    by rewrite (proj2 (Z.leb_gt _ _)) by lia.
  - apply list_elem_of_filter in Hidx as [Hc Hr]. destruct (Hall idx Hr Hc) as (? & ? & ? & ? & ?). done.
Qed.

(** ** Witnesses *)

(** A ring with one claim open at its start, made through slot 0. *)
Definition demo_dead : Ring :=
  store_size 0 16 (store_at 0 0 (store_owner 0 (randomID 1) demo_open)).

Lemma demo_dead_tiles : tiles demo_dead 0 [open_seg 7 1 (zeros 8)].
Proof. eapply tiles_hdr; [apply demo_open_tiles|done..|vm_compute; done]. Qed.

Lemma demo_dead_slot idx :
  0 <= idx < ClaimSlots ->
  slot demo_dead idx = if decide (idx = 0) then mkSlot (randomID 1) 0 16 else mkSlot 0 noIntent 0.
Proof.
  intros Hidx. assert (Hd : slot demo_open idx = mkSlot 0 noIntent 0).
  { unfold slot. change (slots (hdr demo_open)) with (replicate (Z.to_nat ClaimSlots) (mkSlot 0 noIntent 0)).
    rewrite lookup_replicate_2 by (unfold ClaimSlots in *; lia). done. }
  unfold demo_dead, store_size, store_at, store_owner.
  rewrite !slot_alter by (try (vm_compute; by split); lia). case_decide; by rewrite Hd.
Qed.

Lemma unstall_recovers_witness :
  exists r1 r2, unstall (randomID 2) (fun id => id =? randomID 1) demo_dead = (r1, Reclaimed true) /\
    Read 1 r1 = Some (mkRead r2 (take (Z.to_nat 1) (ready [])) None).
Proof.
  apply (unstall_recovers _ _ demo_dead (open_seg 7 1 (zeros 8)) [] 16 1);
    [apply demo_dead_tiles|done|done|left; vm_compute; done|exists 0; split; [vm_compute; left|done]|].
  intros idx Hin. rewrite slot_range_spec in Hin. rewrite demo_dead_slot by (vm_compute; vm_compute in Hin; done).
  case_decide; [|done]. intros _. vm_compute. split_and!; done.
Defined.
