(* ===== verification/RingConc.v ===== *)
(** * The ring under concurrency

    Any number of producers and the one consumer, interleaved one shared-memory
    access at a time, with processes that may die between any two accesses. A
    producer runs [acquireSlot], [tryClaim], [Commit], [Abort] and [dropSlot];
    the consumer runs [Read] and the [stalled]/[unstall]/[reclaim] sequence of
    [Queue.unstall]. A program counter holds the local variables of the code at
    the access it is about to make. Memory is sequentially consistent, as Go's
    atomics are; the plain accesses to a record are ordered by the accesses to
    the length beside it.

    The machine is executable: [step] is a function of the chosen action. *)

From stdpp Require Import base numbers list list_numbers option.
From coqutil Require Import Byte Word.LittleEndianList.
From Stdlib Require Import ZArith Lia Bool.
From S2P Require Import Prelude Ipc Ring RingInv RingSeq Recover.

(** ** Producers *)

(** The arguments of a call of [tryClaim] past its checks. *)
Record call : Type := mkCall { k_typ : Z; k_total : Z; k_aligned : Z }.

(** Where a producer is. It holds the claim slot [sl] from [PTake] on. *)
Inductive ppc : Type :=
(* acquireSlot *)
| PNone
| PFree (idx : Z)
| PDeadOwner (hd idx : Z)
| PDeadAt (hd idx own : Z)
| PDeadSize (hd idx own at0 : Z)
| PDeadAsk (hd idx own : Z)
| PDeadCas (hd idx own : Z)
| PTake (sl : Z)
(* tryClaim *)
| PIdle (sl : Z)
| PTail (sl : Z) (c : call)
| PCache (sl : Z) (c : call) (tl : Z)
| PHead (sl : Z) (c : call) (tl need : Z)
| PStoreCache (sl : Z) (c : call) (tl need hd : Z)
| PSize (sl : Z) (c : call) (tl need : Z)
| PAt (sl : Z) (c : call) (tl need : Z)
| PCas (sl : Z) (c : call) (tl need : Z)
| PPadType (sl : Z) (c : call) (tl : Z)
| PPadLen (sl : Z) (c : call) (tl : Z)
| PType (sl : Z) (c : call) (index : Z)
| PNeg (sl : Z) (c : call) (index : Z)
(* the claim, Commit and Abort *)
| PClaim (sl : Z) (c : call) (index : Z)
| PAbort (sl : Z) (c : call) (index : Z)
| PCommit (sl : Z) (c : call) (index : Z)
| PRelease (sl : Z)
(* dropSlot *)
| PDropAt (sl : Z)
| PDropOwner (sl : Z).

Record thread : Type := mkThread { proc : Z; pc : ppc }.

(** The locals of a pass of the claim loop that follow from [tail]. The mask
    belongs to the handle, not to the shared memory. *)
Definition pass_index (r : Ring) (tl : Z) : Z := Z.land tl (mask r).
Definition pass_toEnd (r : Ring) (tl : Z) : Z := u64 (Capacity r) -64 pass_index r tl.
Definition pass_need (r : Ring) (c : call) (tl : Z) : Z :=
  if pass_toEnd r tl <? k_aligned c then k_aligned c +64 pass_toEnd r tl else k_aligned c.

(** The next access of [acquireSlot]. [dead] are the processes that have died,
    and [ans] is what [isDead] answers: it never reports a live process dead. *)
Definition acquire_step (ans : bool) (dead : list Z) (self : Z) (p : ppc) (r : Ring)
    : option (ppc * Ring) :=
  match p with
  | PFree idx =>
      if idx <? ClaimSlots then
        if owner (slot r idx) =? 0 then Some (PTake idx, store_owner idx self r)
        else Some (PFree (idx + 1), r)
      else Some (PDeadOwner (head (hdr r)) 0, r)
  | PDeadOwner hd idx =>
      if idx <? ClaimSlots then
        let own := owner (slot r idx) in
        if (own =? noProc) || (own =? self) then Some (PDeadOwner hd (idx + 1), r)
        else Some (PDeadAt hd idx own, r)
      else Some (PNone, r)
  | PDeadAt hd idx own =>
      let at0 := at_ (slot r idx) in
      if at0 =? noIntent then Some (PDeadAsk hd idx own, r)
      else Some (PDeadSize hd idx own at0, r)
  | PDeadSize hd idx own at0 =>
      if hd <? at0 +64 size_ (slot r idx) then Some (PDeadOwner hd (idx + 1), r)
      else Some (PDeadAsk hd idx own, r)
  | PDeadAsk hd idx own =>
      if ans then (if bool_decide (own ∈ dead) then Some (PDeadCas hd idx own, r) else None)
      else Some (PDeadOwner hd (idx + 1), r)
  | PDeadCas hd idx own =>
      if owner (slot r idx) =? own then Some (PTake idx, store_owner idx self r)
      else Some (PDeadOwner hd (idx + 1), r)
  | PTake sl => Some (PIdle sl, store_at sl noIntent r)
  | PDropAt sl => Some (PDropOwner sl, store_at sl noIntent r)
  | PDropOwner sl =>
      Some (PNone, if owner (slot r sl) =? self then store_owner sl 0 r else r)
  | _ => None
  end.

(** The next access of [tryClaim], [Commit] or [Abort]. The cursors stop short
    of 2^64. *)
Definition claim_step (p : ppc) (r : Ring) : option (ppc * Ring) :=
  match p with
  | PTail sl c => Some (PCache sl c (tail (hdr r)), r)
  | PCache sl c tl =>
      let need := pass_need r c tl in
      if hasRoom tl (headCache (hdr r)) (u64 (Capacity r)) need
      then Some (PSize sl c tl need, r) else Some (PHead sl c tl need, r)
  | PHead sl c tl need =>
      let hd := head (hdr r) in
      if tl <? hd then Some (PTail sl c, r)
      else if hasRoom tl hd (u64 (Capacity r)) need then Some (PStoreCache sl c tl need hd, r)
      else Some (PRelease sl, r)
  | PStoreCache sl c tl need hd => Some (PSize sl c tl need, set_hdr (with_headCache hd) r)
  | PSize sl c tl need => Some (PAt sl c tl need, store_size sl need r)
  | PAt sl c tl need => Some (PCas sl c tl need, store_at sl tl r)
  | PCas sl c tl need =>
      if tail (hdr r) =? tl then
        if tl + need <? 2 ^ 64 then
          let r := set_hdr (with_tail (tl +64 need)) r in
          if negb (need =? k_aligned c) then Some (PPadType sl c tl, r)
          else Some (PType sl c (pass_index r tl), r)
        else None
      else Some (PTail sl c, r)
  | PPadType sl c tl => Some (PPadLen sl c tl, storeType (pass_index r tl) TypePadding r)
  | PPadLen sl c tl => Some (PType sl c 0, storeLength (pass_index r tl) (i32 (pass_toEnd r tl)) r)
  | PType sl c index => Some (PNeg sl c index, storeType index (k_typ c) r)
  | PNeg sl c index => Some (PClaim sl c index, storeLength index (i32 (- k_total c)) r)
  | PAbort sl c index => Some (PCommit sl c index, storeType index TypePadding r)
  | PCommit sl c index => Some (PRelease sl, storeLength index (k_total c) r)
  | PRelease sl => Some (PIdle sl, store_at sl noIntent r)
  | _ => None
  end.

Definition producer_step (ans : bool) (dead : list Z) (self : Z) (p : ppc) (r : Ring)
    : option (ppc * Ring) :=
  match claim_step p r with
  | Some out => Some out
  | None => acquire_step ans dead self p r
  end.

(** What the caller of a producer may do next. The type is a uint32. *)
Inductive command : Type :=
| Acquire
| Drop
| Call (typ length : Z)
| Fill (off : Z) (bs : list byte)
| Finish (commit : bool).

Definition command_step (cmd : command) (p : ppc) (r : Ring) : option (ppc * Ring) :=
  match cmd, p with
  | Acquire, PNone => Some (PFree 0, r)
  | Drop, PIdle sl => Some (PDropAt sl, r)
  | Call typ length, PIdle sl =>
      if (typ <? 0) || (TypePadding <? typ) then None
      else if (typ =? TypePadding) || (length <? 0) || (MaxMessageSize r <? length) then Some (PIdle sl, r)
      else
        let recordLen := i32 (RecordHeaderSize + length) in
        Some (PTail sl (mkCall typ recordLen (align recordLen)), r)
  | Fill off bs, PClaim sl c index =>
      if (0 <=? off) && (off + zlen bs <=? k_total c - RecordHeaderSize)
      then Some (p, fill_claim (mkClaim index (k_total c) sl) off bs r) else None
  | Finish commit, PClaim sl c index =>
      Some (if commit then PCommit sl c index else PAbort sl c index, r)
  | _, _ => None
  end.

(** ** The consumer *)

Inductive cpc : Type :=
| CIdle
(* Read *)
| CHead (limit : Z)
| CTail (limit hd : Z)
| CLen (limit hd available consumed count : Z)
| CType (limit hd available consumed count index length : Z)
| CPay (limit hd available consumed count index length typ : Z)
| CClear (limit hd available consumed count index step : Z)
| CZero (limit hd available consumed count index : Z)
| CStore (hd consumed : Z)
| CCorrupt
(* stalled *)
| UHead
| UTail (hd : Z)
| ULen (hd : Z)
| UAt (hd length idx : Z) (found : list Z)
| USize (hd length idx at0 : Z) (found : list Z)
(* unstall *)
| JOwner (st : stall) (idxs dead : list Z) (end_ : Z)
| JAt (st : stall) (idx : Z) (idxs dead : list Z) (end_ own : Z)
| JSize (st : stall) (idx : Z) (idxs dead : list Z) (end_ own at0 : Z)
| JAsk (st : stall) (idx : Z) (idxs dead : list Z) (end_ own range_end : Z)
(* reclaim *)
| RCas (st : stall) (end_ : Z) (dead : list Z)
| RType (st : stall) (end_ : Z) (dead : list Z) (size : Z)
| RSlots (end_ : Z) (dead : list Z)
| CDisagree.

(** The next access of [Read], and what it passes to the callback. *)
Definition read_step (c : cpc) (r : Ring) : option (cpc * Ring * list delivery) :=
  match c with
  | CHead limit => Some (CTail limit (head (hdr r)), r, [])
  | CTail limit hd => Some (CLen limit hd (tail (hdr r) -64 hd) 0 0, r, [])
  | CLen limit hd available consumed count =>
      if (count <? limit) && (consumed <? available) then
        let index := Z.land (hd +64 consumed) (mask r) in
        let length := loadLength r index in
        if length <=? 0 then Some (CStore hd consumed, r, [])
        else
          let step := align length in
          if (length <? RecordHeaderSize) || (available -64 consumed <? step)
             || (u64 (Capacity r) <? (index +64 step))
          then Some (CCorrupt, r, [])
          else Some (CType limit hd available consumed count index length, r, [])
      else Some (CStore hd consumed, r, [])
  | CType limit hd available consumed count index length =>
      let typ := loadType r index in
      if typ =? TypePadding
      then Some (CClear limit hd available (consumed +64 align length) count index (align length), r, [])
      else Some (CPay limit hd available consumed count index length typ, r, [])
  | CPay limit hd available consumed count index length typ =>
      Some (CClear limit hd available (consumed +64 align length) (count + 1) index (align length), r,
        [(typ, sub (data r) (index + RecordHeaderSize) (length - RecordHeaderSize))])
  | CClear limit hd available consumed count index step =>
      Some (CZero limit hd available consumed count index,
        set_data (blit (data r) (index + 4) (zeros (step - 4))) r, [])
  | CZero limit hd available consumed count index =>
      Some (CLen limit hd available consumed count, storeLength index 0 r, [])
  | CStore hd consumed =>
      Some (CIdle, if 0 <? consumed then set_hdr (with_head (hd +64 consumed)) r else r, [])
  | _ => None
  end.

(** Where the scan of [stalled] goes after slot [idx]. *)
Definition scan_next (hd length idx : Z) (found : list Z) : cpc :=
  if idx + 1 <? ClaimSlots then UAt hd length (idx + 1) found
  else JOwner (mkStall hd length found) found [] 0.

(** The next access of [stalled]. *)
Definition stalled_step (c : cpc) (r : Ring) : option (cpc * Ring) :=
  match c with
  | UHead => Some (UTail (head (hdr r)), r)
  | UTail hd => Some (if hd =? tail (hdr r) then CIdle else ULen hd, r)
  | ULen hd =>
      let length := loadLength r (Z.land hd (mask r)) in
      Some (if 0 <? length then CIdle else UAt hd length 0 [], r)
  | UAt hd length idx found =>
      let at0 := at_ (slot r idx) in
      Some (if negb (at0 =? noIntent) && (at0 <=? hd) then USize hd length idx at0 found
            else scan_next hd length idx found, r)
  | USize hd length idx at0 found =>
      Some (scan_next hd length idx
              (if hd <? at0 +64 size_ (slot r idx) then found ++ [idx] else found), r)
  | _ => None
  end.

(** The next access of [unstall] after [stalled]. [self] is the process of the
    receiver. *)
Definition judge_step (ans : bool) (gone : list Z) (self : Z) (c : cpc) (r : Ring)
    : option (cpc * Ring) :=
  match c with
  | JOwner st [] dead end_ => Some (if zlen dead =? 0 then CIdle else RCas st end_ dead, r)
  | JOwner st (idx :: idxs) dead end_ => Some (JAt st idx idxs dead end_ (owner (slot r idx)), r)
  | JAt st idx idxs dead end_ own => Some (JSize st idx idxs dead end_ own (at_ (slot r idx)), r)
  | JSize st idx idxs dead end_ own at0 =>
      let range_end := at0 +64 size_ (slot r idx) in
      Some (if (own =? noProc) || (at0 =? noIntent) || (st_at st <? at0) || (range_end <=? st_at st)
            then JOwner st idxs dead end_
            else if (own =? self) || negb (watchable own) then CIdle
            else JAsk st idx idxs dead end_ own range_end, r)
  | JAsk st idx idxs dead end_ own range_end =>
      if ans then
        if bool_decide (own ∈ gone) then
          Some (if (0 <? zlen dead) && negb (range_end =? end_) then CDisagree
                else JOwner st idxs (dead ++ [idx]) range_end, r)
        else None
      else Some (CIdle, r)
  | _ => None
  end.

(** The bytes [reclaim] turns into padding: up to [end_], or to the end of the
    lap. *)
Definition reclaim_size (r : Ring) (st : stall) (end_ : Z) : Z :=
  let size := end_ -64 st_at st in
  let toEnd := u64 (Capacity r) -64 Z.land (st_at st) (mask r) in
  if toEnd <? size then toEnd else size.

(** The next access of [reclaim]. An [unstall] whose dead producers disagree has returned
    [ErrCorrupt], and the receiver can be called again. *)
Definition reclaim_step (c : cpc) (r : Ring) : option (cpc * Ring) :=
  match c with
  | RCas st end_ dead =>
      let size := reclaim_size r st end_ in
      let '(r, swapped) := casLength (Z.land (st_at st) (mask r)) (st_length st) (i32 size) r in
      Some (if swapped then RType st end_ dead size else CIdle, r)
  | RType st end_ dead size =>
      Some (RSlots end_ (if st_at st +64 size =? end_ then dead else []),
        storeType (Z.land (st_at st) (mask r)) TypePadding r)
  | RSlots end_ [] => Some (CIdle, r)
  | RSlots end_ (idx :: dead) => Some (RSlots end_ dead, store_at idx noIntent r)
  | CDisagree => Some (CIdle, r)
  | _ => None
  end.

Definition consumer_step (ans : bool) (gone : list Z) (self : Z) (c : cpc) (r : Ring)
    : option (cpc * Ring * list delivery) :=
  match read_step c r with
  | Some out => Some out
  | None =>
      match stalled_step c r with
      | Some (c, r) => Some (c, r, [])
      | None =>
          match judge_step ans gone self c r with
          | Some (c, r) => Some (c, r, [])
          | None =>
              match reclaim_step c r with
              | Some (c, r) => Some (c, r, [])
              | None => None
              end
          end
      end
  end.

(** ** The system *)

(** [out] records every call of the callback of the consumer. *)
Record state : Type := mkState {
  ring : Ring; threads : list thread; cons : cpc; gone : list Z; out : list delivery }.

Inductive action : Type :=
| Run (t : nat) (ans : bool)
| Do (t : nat) (cmd : command)
| Die (p : Z)
| StartRead (limit : Z)
| StartUnstall
| Consume (ans : bool).

Definition alive (s : state) (th : thread) : bool := bool_decide (proc th ∉ gone s).

Definition update (s : state) (t : nat) (th : thread) (next : option (ppc * Ring)) : option state :=
  match next with
  | None => None
  | Some (p, r) =>
      Some (mkState r (<[t := mkThread (proc th) p]> (threads s)) (cons s) (gone s) (out s))
  end.

(** [self] is the process of the consumer. *)
Definition step (self : Z) (a : action) (s : state) : option state :=
  match a with
  | Run t ans =>
      match threads s !! t with
      | Some th =>
          if alive s th then update s t th (producer_step ans (gone s) (proc th) (pc th) (ring s))
          else None
      | None => None
      end
  | Do t cmd =>
      match threads s !! t with
      | Some th =>
          if alive s th then update s t th (command_step cmd (pc th) (ring s)) else None
      | None => None
      end
  | Die p => Some (mkState (ring s) (threads s) (cons s) (p :: gone s) (out s))
  | StartRead limit =>
      match cons s with
      | CIdle =>
          Some (mkState (ring s) (threads s) (if limit <=? 0 then CIdle else CHead limit) (gone s) (out s))
      | _ => None
      end
  | StartUnstall =>
      match cons s with
      | CIdle => Some (mkState (ring s) (threads s) UHead (gone s) (out s))
      | _ => None
      end
  | Consume ans =>
      match consumer_step ans (gone s) self (cons s) (ring s) with
      | Some (c, r, msgs) => Some (mkState r (threads s) c (gone s) (out s ++ msgs))
      | None => None
      end
  end.

(** A run, action by action. *)
Fixpoint run (self : Z) (acts : list action) (s : state) : option state :=
  match acts with
  | [] => Some s
  | a :: acts => match step self a s with Some s => run self acts s | None => None end
  end.
