(* ===== verification/RingConcInv.v ===== *)
(** * The invariant of the concurrent ring

    Every claim between the consumer and the tail has an owner until it is
    committed, aborted or reclaimed. The invariant ties the memory to the list
    of claims ([tiles]), each claim to the program counter of its owner, each
    program counter to the slot its thread holds, and the program counter of the
    consumer to the claims in front of it. *)

From stdpp Require Import base numbers sets list list_numbers option.
From coqutil Require Import Byte Word.LittleEndianList.
From Stdlib Require Import ZArith Lia Bool.
From S2P Require Import Prelude Ipc Ring RingInv RingSeq Recover RingConc.

(** ** Claims with their owners *)

(** A segment and the thread that has not settled it yet, if there is one. *)
Record aseg : Type := mkA { a_seg : seg; a_own : option nat }.

Definition segs_of (l : list aseg) : list seg := a_seg <$> l.

(** The claims of thread [t], each with its cursor; the list starts at [pos]. *)
Fixpoint owned (t : nat) (pos : Z) (l : list aseg) : list (Z * seg) :=
  match l with
  | [] => []
  | a :: l =>
      (if decide (a_own a = Some t) then [(pos, a_seg a)] else []) ++
      owned t (pos + seg_size (a_seg a)) l
  end.

Lemma segs_of_app l1 l2 : segs_of (l1 ++ l2) = segs_of l1 ++ segs_of l2.
Proof. apply fmap_app. Qed.

Lemma segs_of_cons a l : segs_of (a :: l) = a_seg a :: segs_of l.
Proof. done. Qed.

Lemma owned_app t pos l1 l2 :
  owned t pos (l1 ++ l2) = owned t pos l1 ++ owned t (pos + segs_size (segs_of l1)) l2.
Proof.
  revert pos. induction l1 as [|a l1 IH]; intros pos; cbn [app owned].
  - change (segs_of []) with (@nil seg). by rewrite segs_size_nil, Z.add_0_r.
  - rewrite IH, segs_of_cons, segs_size_cons, Z.add_assoc. by rewrite app_assoc.
Qed.

Lemma owned_cons_eq t pos s l : owned t pos (mkA s (Some t) :: l) = (pos, s) :: owned t (pos + seg_size s) l.
Proof. cbn. by rewrite decide_True by done. Qed.

Lemma owned_cons_ne t pos a l :
  a_own a <> Some t -> owned t pos (a :: l) = owned t (pos + seg_size (a_seg a)) l.
Proof. intros. cbn. by rewrite decide_False by done. Qed.

(** The first claim of a thread splits the list. *)
Lemma owned_split t pos l p s o :
  owned t pos l = (p, s) :: o ->
  exists pre post, l = pre ++ mkA s (Some t) :: post /\
    p = pos + segs_size (segs_of pre) /\ owned t pos pre = [] /\ owned t (p + seg_size s) post = o.
Proof.
  revert pos. induction l as [|a l IH]; intros pos; [done|]. cbn [owned].
  destruct (decide (a_own a = Some t)) as [Ha|Ha]; cbn [app].
  - intros [= -> <- <-]. exists [], l. change (segs_of []) with (@nil seg). rewrite segs_size_nil.
    destruct a; cbn in *; subst. by rewrite Z.add_0_r.
  - intros (pre & post & -> & -> & Hpre & Hpost)%IH.
    exists (a :: pre), post. rewrite owned_cons_ne by done. rewrite segs_of_cons, segs_size_cons.
    split_and!; try done; lia.
Qed.

Lemma owned_nil t pos l : owned t pos l = [] <-> forall a, a ∈ l -> a_own a <> Some t.
Proof.
  revert pos. induction l as [|a l IH]; intros pos; cbn [owned].
  - split; [|done]. intros _ a Ha. by apply not_elem_of_nil in Ha.
  - rewrite app_nil, IH. setoid_rewrite elem_of_cons. clear IH.
    case_decide as E; split.
    + intros [? _]. done.
    + intros H. by destruct (H a (or_introl eq_refl)).
    + intros [_ H] b [->|Hb]; auto.
    + auto.
Qed.

Lemma owned_bounds t pos l p s :
  (p, s) ∈ owned t pos l -> pos <= p /\ p + seg_size s <= pos + segs_size (segs_of l).
Proof.
  revert pos. induction l as [|a l IH]; intros pos; cbn [owned].
  - intros H. by apply elem_of_nil in H.
  - rewrite segs_of_cons, segs_size_cons. pose proof (seg_size_ge (a_seg a)).
    pose proof (segs_size_nonneg (segs_of l)). rewrite elem_of_app. intros [Hp|Hp].
    + case_decide; [|by apply elem_of_nil in Hp]. apply list_elem_of_singleton in Hp as [= -> ->]. lia.
    + apply IH in Hp. lia.
Qed.

(** Replacing a claim by one of the same size. *)
Section replace.
Context (t : nat) (pos : Z) (pre post : list aseg) (s s' : seg) (own' : option nat).
Context (Hsize : seg_size s' = seg_size s).
Let p := pos + segs_size (segs_of pre).

Lemma owned_replace_other t' :
  t' <> t -> (own' = Some t \/ own' = None) ->
  owned t' pos (pre ++ mkA s' own' :: post) = owned t' pos (pre ++ mkA s (Some t) :: post).
Proof using Hsize.
  intros Hne Hown. rewrite !owned_app, !owned_cons_ne; cbn [a_seg a_own].
  - by rewrite Hsize.
  - naive_solver.
  - destruct Hown as [-> | ->]; naive_solver.
Qed.

Lemma owned_replace_self :
  owned t pos pre = [] ->
  owned t pos (pre ++ mkA s' (Some t) :: post) = (p, s') :: owned t (p + seg_size s) post.
Proof using Hsize. intros Hpre. by rewrite owned_app, Hpre, owned_cons_eq, Hsize. Qed.

Lemma owned_replace_none :
  owned t pos pre = [] ->
  owned t pos (pre ++ mkA s' None :: post) = owned t (p + seg_size s) post.
Proof using Hsize. intros Hpre. rewrite owned_app, Hpre, owned_cons_ne by done. cbn. by rewrite Hsize. Qed.
End replace.

(** ** Slots *)

(** The slot a producer holds. *)
Definition slot_of (p : ppc) : option Z :=
  match p with
  | PNone | PFree _ | PDeadOwner _ _ | PDeadAt _ _ _ | PDeadSize _ _ _ _ | PDeadAsk _ _ _
  | PDeadCas _ _ _ => None
  | PTake sl | PIdle sl | PTail sl _ | PCache sl _ _ | PHead sl _ _ _ | PStoreCache sl _ _ _ _
  | PSize sl _ _ _ | PAt sl _ _ _ | PCas sl _ _ _ | PPadType sl _ _ | PPadLen sl _ _ | PType sl _ _
  | PNeg sl _ _ | PClaim sl _ _ | PAbort sl _ _ | PCommit sl _ _ | PRelease sl | PDropAt sl
  | PDropOwner sl => Some sl
  end.

(** ** Threads *)

Record call_ok (c : call) : Prop := {
  co_typ : typ_fits (k_typ c);
  co_total : 8 <= k_total c < 2 ^ 31 - 7;
  co_aligned : k_aligned c = align (k_total c) }.

(** The claims a program counter stands for, with what is written in them. *)
Definition pc_shape (cap : Z) (p : ppc) (full : list (Z * seg)) : Prop :=
  match p with
  | PPadType _ c tl =>
      full = [(tl, zero_seg (lap_left cap tl)); (tl + lap_left cap tl, zero_seg (k_aligned c))]
  | PPadLen _ c tl =>
      full = [(tl, mkSeg 0 TypePadding (zeros (lap_left cap tl - RecordHeaderSize)));
              (tl + lap_left cap tl, zero_seg (k_aligned c))]
  | PType _ c index => exists q, index = q mod cap /\ full = [(q, zero_seg (k_aligned c))]
  | PNeg _ c index =>
      exists q, index = q mod cap /\
        full = [(q, mkSeg 0 (k_typ c) (zeros (k_aligned c - RecordHeaderSize)))]
  | PClaim _ c index | PAbort _ c index =>
      exists q body, index = q mod cap /\ zlen body = k_aligned c - RecordHeaderSize /\
        full = [(q, mkSeg (- k_total c) (k_typ c) body)]
  | PCommit _ c index =>
      exists q typ body, index = q mod cap /\ zlen body = k_aligned c - RecordHeaderSize /\
        0 <= typ < 2 ^ 32 /\ full = [(q, mkSeg (- k_total c) typ body)]
  | _ => full = []
  end.

(** What the loads of a producer taught it. These facts are stable. *)
Definition pc_local (r : Ring) (dead : list Z) (p : ppc) : Prop :=
  let cap := zlen (data r) in
  match p with
  | PFree idx => 0 <= idx
  | PDeadOwner _ idx => 0 <= idx
  | PDeadAt _ idx own | PDeadSize _ idx own _ | PDeadAsk _ idx own =>
      0 <= idx < ClaimSlots
  | PDeadCas _ idx own => 0 <= idx < ClaimSlots /\ own ∈ dead
  | PTail _ c | PType _ c _ | PNeg _ c _ | PClaim _ c _ | PAbort _ c _ | PCommit _ c _ => call_ok c
  | PCache _ c tl => call_ok c /\ 0 <= tl <= tail (hdr r)
  | PHead _ c tl need =>
      call_ok c /\ 0 <= tl <= tail (hdr r) /\ need = claim_need cap tl (k_aligned c)
  | PStoreCache _ c tl need hd =>
      call_ok c /\ 0 <= tl <= tail (hdr r) /\ need = claim_need cap tl (k_aligned c) /\
      0 <= hd <= head (hdr r) /\ tl + need <= hd + cap
  | PSize _ c tl need | PAt _ c tl need | PCas _ c tl need =>
      call_ok c /\ 0 <= tl <= tail (hdr r) /\ need = claim_need cap tl (k_aligned c) /\
      tl + need <= head (hdr r) + cap
  | PPadType _ c tl | PPadLen _ c tl =>
      call_ok c /\ tl mod 8 = 0 /\ lap_left cap tl < k_aligned c
  | _ => True
  end.

(** The intent a slot must show: from the compare-and-swap until the claim is
    settled it covers the claim exactly to its end. *)
Definition covers_claim (full : list (Z * seg)) (s : claimSlot) : Prop :=
  0 <= at_ s /\ 0 < size_ s /\ at_ s + size_ s < 2 ^ 64 /\
  (forall q sg, (q, sg) ∈ full -> at_ s <= q /\ q + seg_size sg <= at_ s + size_ s) /\
  (forall pre q sg, full = pre ++ [(q, sg)] -> q + seg_size sg = at_ s + size_ s).

Definition intent (p : ppc) (full : list (Z * seg)) (s : claimSlot) : Prop :=
  match p with
  | PAt _ _ _ need => size_ s = need
  | PCas _ _ tl need => size_ s = need /\ at_ s = tl
  | PPadType _ _ _ | PPadLen _ _ _ | PType _ _ _ | PNeg _ _ _ | PClaim _ _ _ | PAbort _ _ _
  | PCommit _ _ _ => covers_claim full s
  | _ => True
  end.

(** A thread that still matters: it lives, or it died with claims. *)
Definition active (dead : list Z) (own : list (Z * seg)) (th : thread) : Prop :=
  proc th ∉ dead \/ own <> [].

(** [own] are the claims the thread has not settled. The consumer settles the
    claims of a dead thread for it, front to back. *)
Record thread_ok (r : Ring) (dead : list Z) (own : list (Z * seg)) (th : thread) : Prop := {
  th_proc : proc th <> 0;
  th_local : pc_local r dead (pc th);
  th_slot : forall sl, slot_of (pc th) = Some sl -> 0 <= sl < ClaimSlots;
  th_full : exists full,
    pc_shape (zlen (data r)) (pc th) full /\ own `suffix_of` full /\
    (proc th ∉ dead -> own = full) /\
    (forall sl, slot_of (pc th) = Some sl -> active dead own th ->
       owner (slot r sl) = proc th /\ intent (pc th) full (slot r sl)) }.

Lemma pc_local_mono r r' dead dead' p :
  pc_local r dead p -> zlen (data r') = zlen (data r) -> tail (hdr r) <= tail (hdr r') ->
  head (hdr r) <= head (hdr r') -> dead ⊆ dead' -> pc_local r' dead' p.
Proof. destruct p; cbn; intros H Hd Ht Hh Hdead; rewrite ?Hd; destruct_and?; split_and?; auto; lia. Qed.

Lemma thread_ok_mono r r' dead dead' own own' th :
  thread_ok r dead own th -> zlen (data r') = zlen (data r) -> tail (hdr r) <= tail (hdr r') ->
  head (hdr r) <= head (hdr r') -> dead ⊆ dead' -> own' `suffix_of` own ->
  (proc th ∉ dead' -> own' = own) ->
  (forall sl, slot_of (pc th) = Some sl -> active dead' own' th -> slot r' sl = slot r sl) ->
  thread_ok r' dead' own' th.
Proof.
  intros [Hp Hl Hs (full & Hsh & Hsuf & Hal & Hint)] Hd Ht Hh Hdead Hsuf' Hal' Hslot.
  assert (Hlive : proc th ∉ dead' -> proc th ∉ dead) by (intros H ?%Hdead; done).
  split; try done; [by eapply pc_local_mono|].
  exists full. rewrite Hd. split_and!; [done|by etrans|intros H; by rewrite Hal', Hal by auto|].
  intros sl Hsl Hact. rewrite Hslot by done. apply Hint; [done|].
  destruct Hact as [H|H]; [left; auto|right].
  intros ->. apply H. by apply suffix_nil_inv in Hsuf'.
Qed.

(** ** The consumer *)

(** What holds of the slot and the process of the owner of the front claim. *)
Definition front (ths : list thread) (l : list aseg) (P : Z -> Z -> Prop) : Prop :=
  forall a rest t th sl, l = a :: rest -> a_own a = Some t -> ths !! t = Some th ->
    slot_of (pc th) = Some sl -> P sl (proc th).

(** The slots still to judge, or the verdict on a slot that was judged dead. *)
Definition judged (r : Ring) (gone idxs dead : list Z) (end_ sl p : Z) : Prop :=
  sl ∈ idxs \/ (sl ∈ dead /\ p ∈ gone /\ end_ = at_ (slot r sl) + size_ (slot r sl)).

(** A read in progress: [available] bytes were claimed when it loaded the tail. *)
Definition reading (r : Ring) (k : Z) (l : list aseg) (hd available consumed : Z) : Prop :=
  hd = head (hdr r) /\ consumed = k /\
  exists pre post, l = pre ++ post /\ segs_size (segs_of pre) = available - consumed.

(** A read at a committed record. *)
Definition at_record (r : Ring) (k : Z) (l : list aseg) (index available consumed : Z) (s : seg) : Prop :=
  index = seg_index r k [] /\ seg_size s <= available - consumed /\
  exists rest, l = mkA s None :: rest.

Definition at_stall (r : Ring) (k : Z) (l : list aseg) (hd length : Z) : Prop :=
  k = 0 /\ hd = head (hdr r) /\ l <> [] /\ length <= 0.

Definition cons_ok (r : Ring) (gone : list Z) (ths : list thread) (k : Z) (l : list aseg) (c : cpc)
    : Prop :=
  match c with
  | CIdle | CHead _ | UHead | CDisagree => k = 0
  | CTail _ hd | UTail hd => k = 0 /\ hd = head (hdr r)
  | CLen _ hd available consumed _ => reading r k l hd available consumed
  | CType _ hd available consumed _ index length =>
      reading r k l hd available consumed /\
      exists s, at_record r k l index available consumed s /\ length = s_len s
  | CPay _ hd available consumed _ index length typ =>
      reading r k l hd available consumed /\ typ <> TypePadding /\
      exists s, at_record r k l index available consumed s /\ length = s_len s /\ typ = s_typ s
  | CClear _ hd available consumed _ index step =>
      reading r k l hd available (consumed - step) /\
      exists s, at_record r k l index available (consumed - step) s /\ step = seg_size s
  | CZero _ hd available consumed _ index =>
      exists s, at_record r k l index available (consumed - seg_size s) s /\
        reading r k l hd available (consumed - seg_size s) /\
        s_typ s = 0 /\ s_body s = zeros (zlen (s_body s))
  | CStore hd consumed => hd = head (hdr r) /\ consumed = k
  | CCorrupt => False
  | ULen hd => k = 0 /\ hd = head (hdr r) /\ l <> []
  | UAt hd length idx found =>
      at_stall r k l hd length /\ 0 <= idx < ClaimSlots /\
      front ths l (fun sl _ => sl ∈ found \/ idx <= sl)
  | USize hd length idx at0 found =>
      at_stall r k l hd length /\ 0 <= idx < ClaimSlots /\
      front ths l (fun sl _ => sl ∈ found \/ idx < sl \/ (sl = idx /\ at0 = at_ (slot r sl)))
  | JOwner st idxs dead end_ =>
      at_stall r k l (st_at st) (st_length st) /\
      front ths l (fun sl p => judged r gone idxs dead end_ sl p)
  | JAt st idx idxs dead end_ own =>
      at_stall r k l (st_at st) (st_length st) /\
      front ths l (fun sl p => judged r gone idxs dead end_ sl p \/ (sl = idx /\ own = owner (slot r sl)))
  | JSize st idx idxs dead end_ own at0 =>
      at_stall r k l (st_at st) (st_length st) /\
      front ths l (fun sl p => judged r gone idxs dead end_ sl p \/
        (sl = idx /\ own = owner (slot r sl) /\ at0 = at_ (slot r sl)))
  | JAsk st idx idxs dead end_ own range_end =>
      at_stall r k l (st_at st) (st_length st) /\
      front ths l (fun sl p => judged r gone idxs dead end_ sl p \/
        (sl = idx /\ own = owner (slot r sl) /\ range_end = at_ (slot r sl) + size_ (slot r sl)))
  | RCas st end_ dead =>
      at_stall r k l (st_at st) (st_length st) /\
      front ths l (fun sl p => judged r gone [] dead end_ sl p)
  | RType st end_ _ size =>
      k = 0 /\ st_at st = head (hdr r) /\
      exists s rest, l = mkA s None :: rest /\ size = seg_size s
  | RSlots end_ dead =>
      k = 0 /\ (dead = [] \/ exists s rest, l = mkA s None :: rest /\ end_ = head (hdr r) + seg_size s)
  end.

(** How the claims of producers evolve: a settled claim stays, an open one may
    change its contents or be settled, and new claims come at the end. *)
Definition evolves1 (a a' : aseg) : Prop :=
  seg_size (a_seg a') = seg_size (a_seg a) /\ (a_own a = None -> a' = a) /\
  (a_own a' = a_own a \/ a_own a' = None).
Definition evolves (l l' : list aseg) : Prop :=
  exists l1 new, l' = l1 ++ new /\ Forall2 evolves1 l l1.

Lemma evolves1_refl a : evolves1 a a.
Proof. split_and!; auto. Qed.

Lemma evolves1_all l : Forall2 evolves1 l l.
Proof. induction l; constructor; auto using evolves1_refl. Qed.

Lemma evolves_refl l : evolves l l.
Proof. exists l, []. rewrite app_nil_r. split; [done|]. apply evolves1_all. Qed.

Lemma evolves_new l new : evolves l (l ++ new).
Proof. exists l, new. split; [done|]. apply evolves1_all. Qed.

Lemma evolves_replace pre post s s' t own' :
  seg_size s' = seg_size s -> own' = Some t \/ own' = None ->
  evolves (pre ++ mkA s (Some t) :: post) (pre ++ mkA s' own' :: post).
Proof.
  intros Hs Hown. exists (pre ++ mkA s' own' :: post), []. rewrite app_nil_r. split; [done|].
  apply Forall2_app; [apply evolves1_all|]. constructor; [|apply evolves1_all]. split_and!; cbn; [done..|naive_solver].
Qed.

Lemma evolves_size l l1 : Forall2 evolves1 l l1 -> segs_size (segs_of l1) = segs_size (segs_of l).
Proof.
  induction 1 as [|a a1 l l1 (Hs & _) _ IH]; [done|]. rewrite !segs_of_cons, !segs_size_cons. lia.
Qed.

Lemma evolves_cons a rest l' :
  evolves (a :: rest) l' -> exists a' rest', l' = a' :: rest' /\ evolves1 a a'.
Proof.
  intros (l1 & new & -> & H). inversion H as [|? a' ? ? Ha Hrest]; subst. by exists a', (l' ++ new).
Qed.

Lemma evolves_ne l l' : evolves l l' -> l <> [] -> l' <> [].
Proof. destruct l as [|a l]; [done|]. by intros (a' & rest' & -> & _)%evolves_cons. Qed.

Lemma evolves_app pre post l' :
  evolves (pre ++ post) l' -> exists pre' post', l' = pre' ++ post' /\
    segs_size (segs_of pre') = segs_size (segs_of pre).
Proof.
  intros (l1 & new & -> & H). apply Forall2_app_inv_l in H as (pre' & post' & Hpre & _ & ->).
  exists pre', (post' ++ new). rewrite app_assoc. split; [done|]. by apply evolves_size.
Qed.

(** Steps of the producers, and deaths, preserve what the consumer knows. *)
Section cons_mono.
Context (r r' : Ring) (gone gone' : list Z) (ths ths' : list thread) (k : Z) (l l' : list aseg).
Context (Hhead : head (hdr r') = head (hdr r)) (Hcap : capacity (hdr r') = capacity (hdr r)).
Context (Hgone : gone ⊆ gone') (Hev : evolves l l').
Context (Hfront : forall a rest a' rest' t th' sl,
  l = a :: rest -> l' = a' :: rest' -> a_own a' = Some t -> ths' !! t = Some th' ->
  slot_of (pc th') = Some sl ->
  exists th, a_own a = Some t /\ ths !! t = Some th /\ proc th = proc th' /\
    slot_of (pc th) = Some sl /\ slot r' sl = slot r sl).

Lemma front_mono (P P' : Z -> Z -> Prop) :
  l <> [] -> front ths l P -> (forall sl p, slot r' sl = slot r sl -> P sl p -> P' sl p) ->
  front ths' l' P'.
Proof using Hev Hfront.
  intros Hne HF HP a' rest' t th' sl -> Ha' Hth' Hsl. destruct l as [|a rest]; [done|].
  destruct (Hfront a rest a' rest' t th' sl) as (th & Ha & Hth & <- & Hsl' & Hs); try done.
  apply HP; [done|]. by apply (HF a rest t th sl).
Qed.

Lemma at_stall_mono hd length : at_stall r k l hd length -> at_stall r' k l' hd length.
Proof using Hev Hhead.
  intros (? & ? & Hl & ?). unfold at_stall. rewrite Hhead. split_and!; try done. by eapply evolves_ne.
Qed.

Lemma reading_mono hd av co : reading r k l hd av co -> reading r' k l' hd av co.
Proof using Hev Hhead.
  intros (? & ? & pre & post & Hl & Hsz). unfold reading. rewrite Hhead. split_and!; try done.
  pose proof Hev as Hev'. rewrite Hl in Hev'. apply evolves_app in Hev' as (pre' & post' & Hl' & Hsz'). exists pre', post'. by rewrite Hsz'.
Qed.

Lemma settled_mono s rest : l = mkA s None :: rest -> exists rest', l' = mkA s None :: rest'.
Proof using Hev.
  intros Hl. pose proof Hev as Hev'. rewrite Hl in Hev'.
  apply evolves_cons in Hev' as (a' & rest' & Hl' & _ & Ha & _). exists rest'. by rewrite Hl', (Ha eq_refl).
Qed.

Lemma at_record_mono index av co s : at_record r k l index av co s -> at_record r' k l' index av co s.
Proof using Hev Hhead Hcap.
  intros (? & ? & rest & Hl). unfold at_record, seg_index. rewrite Hhead, Hcap. split_and!; try done.
  by eapply settled_mono.
Qed.

Lemma judged_mono idxs dead end_ sl p :
  slot r' sl = slot r sl -> judged r gone idxs dead end_ sl p -> judged r' gone' idxs dead end_ sl p.
Proof using Hgone. unfold judged. intros ->. naive_solver. Qed.

Lemma cons_ok_mono c : cons_ok r gone ths k l c -> cons_ok r' gone' ths' k l' c.
Proof using Hhead Hcap Hgone Hev Hfront.
  pose proof judged_mono. pose proof reading_mono. pose proof at_record_mono. pose proof at_stall_mono.
  destruct c; cbn; rewrite ?Hhead; auto.
  - naive_solver.
  - naive_solver.
  - naive_solver.
  - naive_solver.
  - intros (-> & -> & Hl). split_and!; [done..|]. by eapply evolves_ne.
  - intros (Hst & Hi & HF). split_and!; [by auto|lia..|]. eapply front_mono; [apply Hst|exact HF|]. auto.
  - intros (Hst & Hi & HF). split_and!; [by auto|lia..|]. eapply front_mono; [apply Hst|exact HF|].
    intros ?? ->. auto.
  - intros (Hst & HF). split; [by auto|]. eapply front_mono; [apply Hst|exact HF|]. auto.
  - intros (Hst & HF). split; [by auto|]. eapply front_mono; [apply Hst|exact HF|].
    intros ?? E [?|?]; [left; auto|right; by rewrite E].
  - intros (Hst & HF). split; [by auto|]. eapply front_mono; [apply Hst|exact HF|].
    intros ?? E [?|?]; [left; auto|right; by rewrite E].
  - intros (Hst & HF). split; [by auto|]. eapply front_mono; [apply Hst|exact HF|].
    intros ?? E [?|?]; [left; auto|right; by rewrite E].
  - intros (Hst & HF). split; [by auto|]. eapply front_mono; [apply Hst|exact HF|]. auto.
  - intros (-> & ? & s & rest & Hl & ?). destruct (settled_mono s rest Hl) as [rest' ?].
    split_and!; try done. eauto.
  - intros (-> & [?|(s & rest & Hl & ?)]); [auto|]. destruct (settled_mono s rest Hl) as [rest' ?].
    split; [done|]. right. eauto.
Qed.
End cons_mono.

(** ** The system *)

Definition start (s : state) (k : Z) : Z := head (hdr (ring s)) + k.

Record inv (s : state) (k : Z) (l : list aseg) : Prop := {
  iv_tiles : tiles (ring s) k (segs_of l);
  iv_small : zlen (data (ring s)) <= 2 ^ 31;
  iv_nslots : zlen (slots (hdr (ring s))) = ClaimSlots;
  iv_done : forall a, a ∈ l -> a_own a = None -> 0 < s_len (a_seg a);
  iv_own : forall a t, a ∈ l -> a_own a = Some t -> is_Some (threads s !! t);
  iv_threads : forall t th, threads s !! t = Some th ->
    thread_ok (ring s) (gone s) (owned t (start s k) l) th;
  iv_excl : forall t t' th th' sl, threads s !! t = Some th -> threads s !! t' = Some th' ->
    slot_of (pc th) = Some sl -> slot_of (pc th') = Some sl ->
    active (gone s) (owned t (start s k) l) th -> active (gone s) (owned t' (start s k) l) th' -> t = t';
  iv_cons : cons_ok (ring s) (gone s) (threads s) k l (cons s) }.

(** The front claim belongs to the claims of its owner. *)
Lemma owned_front t pos a rest : a_own a = Some t -> owned t pos (a :: rest) <> [].
Proof. intros Ha. cbn. by rewrite decide_True by done. Qed.

(** A step of thread [t], which lives. *)
Section producer_step.
Context (s : state) (k : Z) (l : list aseg) (I : inv s k l).
Context (t : nat) (th : thread) (Hth : threads s !! t = Some th) (Halive : proc th ∉ gone s).

Lemma inv_producer r' p' l' :
  tiles r' k (segs_of l') ->
  head (hdr r') = head (hdr (ring s)) -> tail (hdr (ring s)) <= tail (hdr r') ->
  capacity (hdr r') = capacity (hdr (ring s)) -> zlen (data r') = zlen (data (ring s)) ->
  zlen (slots (hdr r')) = zlen (slots (hdr (ring s))) ->
  evolves l l' ->
  (forall t', t' <> t -> owned t' (start s k) l' = owned t' (start s k) l) ->
  (forall a, a ∈ l' -> a ∈ l \/ (a_own a = None /\ 0 < s_len (a_seg a)) \/ a_own a = Some t) ->
  (forall sl, 0 <= sl -> slot r' sl <> slot (ring s) sl -> slot_of (pc th) = Some sl \/ slot_of p' = Some sl) ->
  (forall sl, slot_of p' = Some sl -> slot_of (pc th) = Some sl \/
     forall t' th', t' <> t -> threads s !! t' = Some th' -> slot_of (pc th') = Some sl ->
       ~ active (gone s) (owned t' (start s k) l) th') ->
  (owned t (start s k) l <> [] -> owned t (start s k) l' <> [] ->
     slot_of p' = slot_of (pc th) /\ forall sl, slot r' sl = slot (ring s) sl) ->
  thread_ok r' (gone s) (owned t (start s k) l') (mkThread (proc th) p') ->
  inv (mkState r' (<[t := mkThread (proc th) p']> (threads s)) (cons s) (gone s) (out s)) k l'.
Proof using I Hth Halive.
  intros T Hh Htl Hcap Hd Hns Hev Hother Hin Hslots Hexcl Hself Hok.
  assert (Hb : start (mkState r' (<[t:=mkThread (proc th) p']> (threads s)) (cons s) (gone s) (out s)) k
             = start s k) by (unfold start; cbn; lia).
  assert (Hlk : forall t' th', <[t:=mkThread (proc th) p']> (threads s) !! t' = Some th' ->
     (t' = t /\ th' = mkThread (proc th) p') \/ (t' <> t /\ threads s !! t' = Some th')).
  { intros t' th' H. apply list_lookup_insert_Some in H. naive_solver. }
  assert (Hstable : forall t' th' sl, t' <> t -> threads s !! t' = Some th' -> slot_of (pc th') = Some sl ->
     active (gone s) (owned t' (start s k) l) th' ->
     slot_of p' <> Some sl /\ slot r' sl = slot (ring s) sl).
  { intros t' th' sl Hne Ht' Hsl Hact.
    assert (Hno : slot_of (pc th) <> Some sl).
    { intros H. apply Hne. symmetry. eapply (iv_excl _ _ _ I t t'); try done. by left. }
    assert (Hno' : slot_of p' <> Some sl).
    { intros H. destruct (Hexcl sl H) as [?|Hx]; [done|]. by eapply Hx. }
    split; [done|]. destruct (decide (slot r' sl = slot (ring s) sl)) as [|Hc]; [done|].
    pose proof (th_slot _ _ _ _ (iv_threads _ _ _ I t' th' Ht') sl Hsl).
    destruct (Hslots sl ltac:(lia) Hc); done. }
  split; cbn [ring threads cons gone out]; rewrite ?Hb; try done.
  - rewrite Hd. apply I.
  - rewrite Hns. apply I.
  - intros a Ha Hown. destruct (Hin a Ha) as [?|[[_ ?]|?]]; [|done|congruence]. by eapply (iv_done _ _ _ I).
  - intros a t' Ha Hown. apply lookup_lt_is_Some. rewrite length_insert.
    destruct (decide (t = t')) as [->|Hne]; [by eapply lookup_lt_Some|]. apply lookup_lt_is_Some.
    destruct (Hin a Ha) as [?|[[? _]|?]]; [by eapply (iv_own _ _ _ I)|congruence..].
  - intros t' th' [[-> ->]|[Hne Ht']]%Hlk; [done|].
    rewrite Hother by done. eapply thread_ok_mono; [by eapply (iv_threads _ _ _ I)|try done; try lia..].
    intros sl Hsl Hact. by eapply Hstable.
  - intros t1 t2 th1 th2 sl [[-> ->]|[Hne1 H1]]%Hlk [[-> ->]|[Hne2 H2]]%Hlk Hs1 Hs2 A1 A2; try done.
    + rewrite Hother in A2 by done. by destruct (Hstable t2 th2 sl).
    + rewrite Hother in A1 by done. by destruct (Hstable t1 th1 sl).
    + rewrite Hother in A1, A2 by done. by eapply (iv_excl _ _ _ I t1 t2).
  - eapply cons_ok_mono; [done|done|reflexivity|exact Hev| |apply I].
    intros a rest a' rest' t' th' sl -> -> Ha' [[-> ->]|[Hne Ht']]%Hlk Hsl.
    + assert (Ha : a_own a = Some t).
      { apply evolves_cons in Hev as (a2 & rest2 & [= <- <-] & _ & Hn & Ho).
        destruct Ho as [Ho|Ho]; congruence. }
      destruct Hself as [Hso Hsr]; [by apply owned_front..|].
      exists th. cbn in *. rewrite <-Hso. split_and!; try done.
    + assert (Ha : a_own a = Some t').
      { apply evolves_cons in Hev as (a2 & rest2 & [= <- <-] & _ & Hn & Ho).
        destruct Ho as [Ho|Ho]; congruence. }
      exists th'. split_and!; try done. eapply Hstable; try done. right. by apply owned_front.
Qed.
End producer_step.

(** A step of the consumer. *)
Lemma inv_consumer s k l r' k' l' c' out' :
  inv s k l -> tiles r' k' (segs_of l') ->
  head (hdr (ring s)) <= head (hdr r') -> tail (hdr r') = tail (hdr (ring s)) ->
  zlen (data r') = zlen (data (ring s)) ->
  zlen (slots (hdr r')) = zlen (slots (hdr (ring s))) ->
  (forall t th, threads s !! t = Some th ->
     owned t (head (hdr r') + k') l' `suffix_of` owned t (start s k) l /\
     (proc th ∉ gone s -> owned t (head (hdr r') + k') l' = owned t (start s k) l)) ->
  (forall t th sl, threads s !! t = Some th -> slot_of (pc th) = Some sl ->
     active (gone s) (owned t (head (hdr r') + k') l') th -> slot r' sl = slot (ring s) sl) ->
  (forall a, a ∈ l' -> a ∈ l \/ (a_own a = None /\ 0 < s_len (a_seg a))) ->
  cons_ok r' (gone s) (threads s) k' l' c' ->
  inv (mkState r' (threads s) c' (gone s) out') k' l'.
Proof.
  intros I T Hh Ht Hd Hns Hown Hslot Hin Hc.
  split; cbn [ring threads cons gone out]; try done.
  - rewrite Hd. apply I.
  - rewrite Hns. apply I.
  - intros a Ha Hn. destruct (Hin a Ha) as [?|[_ ?]]; [|done]. by eapply (iv_done _ _ _ I).
  - intros a t Ha Hn. destruct (Hin a Ha) as [?|[? _]]; [|congruence]. by eapply (iv_own _ _ _ I).
  - intros t th Hth. unfold start at 1. cbn. destruct (Hown t th Hth) as [Hsuf Hal].
    eapply thread_ok_mono; [by eapply (iv_threads _ _ _ I)|try done; try lia..].
    intros sl Hsl Hact. by eapply Hslot.
  - unfold start. cbn. intros t1 t2 th1 th2 sl H1 H2 S1 S2 A1 A2.
    assert (Hact : forall t th, threads s !! t = Some th ->
        active (gone s) (owned t (head (hdr r') + k') l') th -> active (gone s) (owned t (start s k) l) th).
    { intros t th Hth [?|Hne]; [by left|right]. destruct (Hown t th Hth) as [Hsuf _].
      intros E. rewrite E in Hsuf. apply suffix_nil_inv in Hsuf. done. }
    eapply (iv_excl _ _ _ I t1 t2); eauto.
Qed.

(** The consumer changes its program counter and nothing else. *)
Lemma inv_consumer_local s k l c' out' :
  inv s k l -> cons_ok (ring s) (gone s) (threads s) k l c' ->
  inv (mkState (ring s) (threads s) c' (gone s) out') k l.
Proof. intros I Hc. eapply inv_consumer; try done; try apply I; auto. Qed.

(** A process dies. *)
Lemma inv_die s k l p :
  inv s k l -> inv (mkState (ring s) (threads s) (cons s) (p :: gone s) (out s)) k l.
Proof.
  intros I. assert (Hsub : gone s ⊆ p :: gone s) by (intros x; rewrite elem_of_cons; auto).
  split; cbn [ring threads cons gone out]; try apply I.
  - intros t th Hth. eapply thread_ok_mono; [by eapply (iv_threads _ _ _ I)|done..].
  - intros t1 t2 th1 th2 sl H1 H2 S1 S2 A1 A2.
    assert (Hact : forall t th, active (p :: gone s) (owned t (start s k) l) th ->
       active (gone s) (owned t (start s k) l) th).
    { intros t th [H|H]; [left|by right]. intros ?%Hsub. done. }
    eapply (iv_excl _ _ _ I t1 t2); try done; by apply Hact.
  - eapply cons_ok_mono; [done..|apply evolves_refl| |apply I].
    intros a rest a' rest' t' th' sl -> [= <- <-] Ha Hth Hsl. by exists th'.
Qed.
