(* ===== verification/RingConcSim.v ===== *)
(** * The concurrent ring implements a queue of claims

    The abstract queue of claims, and a forward simulation: every step of the
    machine of [RingConc] is a step of the abstract queue or leaves it alone. *)

From stdpp Require Import base numbers sets list list_numbers option.
From coqutil Require Import Byte Word.LittleEndianList.
From Stdlib Require Import ZArith Lia Bool.
From S2P Require Import Prelude Ipc Ring RingInv RingSeq Recover RingConc RingConcInv.

(** ** The abstract queue *)

(** A claim in the queue: reserved by thread [t], handed to its caller, given
    back by a commit ([Some]) or an abort ([None]) that is not visible yet, or
    settled. *)
Inductive entry : Type :=
| Pending (t : nat)
| Open (t : nat) (typ : Z) (bs : list byte)
| Sealed (t : nat) (m : option delivery)
| Settled (m : option delivery).

Definition entry_owner (e : entry) : option nat :=
  match e with Pending t | Open t _ _ | Sealed t _ => Some t | Settled _ => None end.

(** The claims in the order they were made, what the consumer was passed, and
    the processes that died. *)
Record spec : Type := mkSpec { claims : list entry; passed : list delivery; lost : list Z }.

(** [procs] are the processes of the threads. *)
Inductive spec_step (procs : list Z) : action -> spec -> spec -> Prop :=
| S_claim t p ans q o g : procs !! t = Some p -> p ∉ g ->
    spec_step procs (Run t ans) (mkSpec q o g) (mkSpec (q ++ [Pending t]) o g)
| S_claim_wrap t p ans q o g : procs !! t = Some p -> p ∉ g ->
    spec_step procs (Run t ans) (mkSpec q o g) (mkSpec (q ++ [Pending t; Pending t]) o g)
| S_pad t p ans q1 q2 o g : procs !! t = Some p -> p ∉ g -> Pending t ∈ q2 ->
    spec_step procs (Run t ans) (mkSpec (q1 ++ Pending t :: q2) o g)
      (mkSpec (q1 ++ Settled None :: q2) o g)
| S_open t p ans typ n q1 q2 o g : procs !! t = Some p -> p ∉ g ->
    spec_step procs (Run t ans) (mkSpec (q1 ++ Pending t :: q2) o g)
      (mkSpec (q1 ++ Open t typ (zeros n) :: q2) o g)
| S_fill t p off bs typ b q1 q2 o g : procs !! t = Some p -> p ∉ g ->
    0 <= off -> off + zlen bs <= zlen b ->
    spec_step procs (Do t (Fill off bs)) (mkSpec (q1 ++ Open t typ b :: q2) o g)
      (mkSpec (q1 ++ Open t typ (blit b off bs) :: q2) o g)
| S_seal t p commit typ b q1 q2 o g : procs !! t = Some p -> p ∉ g ->
    spec_step procs (Do t (Finish commit)) (mkSpec (q1 ++ Open t typ b :: q2) o g)
      (mkSpec (q1 ++ Sealed t (if commit then Some (typ, b) else None) :: q2) o g)
| S_settle t p ans m q1 q2 o g : procs !! t = Some p -> p ∉ g ->
    spec_step procs (Run t ans) (mkSpec (q1 ++ Sealed t m :: q2) o g)
      (mkSpec (q1 ++ Settled m :: q2) o g)
| S_reclaim t p ans e q o g : entry_owner e = Some t -> procs !! t = Some p -> p ∈ g ->
    spec_step procs (Consume ans) (mkSpec (e :: q) o g) (mkSpec (Settled None :: q) o g)
| S_pop ans m q o g :
    spec_step procs (Consume ans) (mkSpec (Settled m :: q) o g) (mkSpec q (o ++ option_list m) g)
| S_die p q o g : spec_step procs (Die p) (mkSpec q o g) (mkSpec q o (p :: g))
| S_quiet a A :
    match a with Do _ (Fill _ _) | Do _ (Finish _) | Die _ => False | _ => True end ->
    spec_step procs a A A.

(** ** The abstract state of the machine *)

(** The message of a settled claim, if it has one. *)
Definition message (s : seg) : option delivery :=
  if s_typ s =? TypePadding then None
  else Some (s_typ s, take (Z.to_nat (s_len s - RecordHeaderSize)) (s_body s)).

(** The bytes of a claim whose length is still negated. *)
Definition open_bytes (s : seg) : list byte := take (Z.to_nat (- s_len s - RecordHeaderSize)) (s_body s).

Definition abs_entry (ths : list thread) (a : aseg) : entry :=
  match a_own a with
  | None => Settled (message (a_seg a))
  | Some t =>
      match pc <$> ths !! t with
      | Some (PClaim _ _ _) => Open t (s_typ (a_seg a)) (open_bytes (a_seg a))
      | Some (PAbort _ _ _) => Sealed t None
      | Some (PCommit _ _ _) =>
          Sealed t (if s_typ (a_seg a) =? TypePadding then None
                    else Some (s_typ (a_seg a), open_bytes (a_seg a)))
      | _ => Pending t
      end
  end.

(** The consumer has taken the front record once it has called the callback,
    and made it padding once it has swapped its length. *)
Definition abs_queue (ths : list thread) (c : cpc) (l : list aseg) : list entry :=
  match c with
  | CClear _ _ _ _ _ _ _ | CZero _ _ _ _ _ _ => abs_entry ths <$> drop 1 l
  | RType _ _ _ _ => Settled None :: (abs_entry ths <$> drop 1 l)
  | _ => abs_entry ths <$> l
  end.

Definition abs (s : state) (l : list aseg) : spec :=
  mkSpec (abs_queue (threads s) (cons s) l) (out s) (gone s).

Definition procs (s : state) : list Z := proc <$> threads s.

(** The two places where the code trusts what it loaded before it asked whether
    a process is dead: a slot is stolen only when its claim was passed, and a
    reclaim clears only slots that announce nothing past the claim. *)
Definition passed_by (s : claimSlot) (c : Z) : Prop := at_ s = noIntent \/ at_ s + size_ s <= c.

Definition clean (a : action) (s : state) : Prop :=
  match a with
  | Run t _ =>
      forall th hd idx own, threads s !! t = Some th -> pc th = PDeadCas hd idx own ->
        owner (slot (ring s) idx) = own -> passed_by (slot (ring s) idx) (head (hdr (ring s)))
  | Consume _ =>
      forall end_ idx dead, cons s = RSlots end_ (idx :: dead) ->
        owner (slot (ring s) idx) ∈ gone s /\ passed_by (slot (ring s) idx) end_
  | _ => True
  end.

(** Claims of other threads do not see a thread move. *)
Lemma abs_entry_other ths t th a :
  a_own a <> Some t -> abs_entry (<[t := th]> ths) a = abs_entry ths a.
Proof.
  intros Ha. unfold abs_entry. destruct (a_own a) as [t'|]; [|done].
  by rewrite list_lookup_insert_ne by congruence.
Qed.

Lemma abs_entries_other ths t th (l : list aseg) :
  (forall a, a ∈ l -> a_own a <> Some t) ->
  abs_entry (<[t := th]> ths) <$> l = abs_entry ths <$> l.
Proof. intros H. apply list_fmap_ext. intros i a Ha%list_elem_of_lookup_2. by apply abs_entry_other, H. Qed.

Lemma abs_queue_other ths t th c (l : list aseg) :
  (forall a, a ∈ l -> a_own a <> Some t) -> abs_queue (<[t := th]> ths) c l = abs_queue ths c l.
Proof.
  intros H. assert (H' : forall a, a ∈ drop 1 l -> a_own a <> Some t).
  { intros a Ha. apply H. rewrite <-(take_drop 1 l), elem_of_app. auto. }
  destruct c; cbn [abs_queue]; by rewrite abs_entries_other by done.
Qed.

(** Whether the consumer holds the front record apart. *)
Definition holds_front (c : cpc) : bool :=
  match c with
  | CClear _ _ _ _ _ _ _ | CZero _ _ _ _ _ _ | RType _ _ _ _ => true
  | _ => false
  end.

Lemma holds_front_settled r gone ths k l c :
  cons_ok r gone ths k l c -> holds_front c = true -> exists s rest, l = mkA s None :: rest.
Proof.
  destruct c; cbn; try done.
  - intros (_ & s & (_ & _ & rest & ->) & _) _. eauto.
  - intros (s & (_ & _ & rest & ->) & _) _. eauto.
  - intros (_ & _ & s & rest & -> & _) _. eauto.
Qed.

Lemma abs_queue_app r gone ths k l c new :
  cons_ok r gone ths k l c ->
  abs_queue ths c (l ++ new) = abs_queue ths c l ++ (abs_entry ths <$> new).
Proof.
  intros Hc. destruct (holds_front c) eqn:E.
  - destruct (holds_front_settled _ _ _ _ _ _ Hc E) as (s & rest & ->).
    destruct c; try done; cbn [abs_queue app drop]; by rewrite ?drop_0, fmap_app.
  - destruct c; try done; cbn [abs_queue]; by rewrite fmap_app.
Qed.

(** The queue around a claim of thread [t]. *)
Lemma abs_queue_split r gone ths k c pre sg t post :
  cons_ok r gone ths k (pre ++ mkA sg (Some t) :: post) c ->
  (forall a, a ∈ pre -> a_own a <> Some t) ->
  exists e1, forall th x post',
    abs_queue ths c (pre ++ x :: post') = e1 ++ abs_entry ths x :: (abs_entry ths <$> post') /\
    abs_queue (<[t := th]> ths) c (pre ++ x :: post') =
      e1 ++ abs_entry (<[t := th]> ths) x :: (abs_entry (<[t := th]> ths) <$> post').
Proof.
  intros Hc Hpre. destruct (holds_front c) eqn:E.
  - destruct (holds_front_settled _ _ _ _ _ _ Hc E) as (s & rest & Hl).
    destruct pre as [|a pre]; [done|]. injection Hl as -> _.
    exists ((match c with RType _ _ _ _ => [Settled None] | _ => [] end) ++ (abs_entry ths <$> pre)).
    intros th x post'. pose proof (abs_entries_other ths t th pre) as Ho.
    rewrite <-Ho at 2 by (intros; apply Hpre; by right).
    destruct c; try done; cbn [abs_queue app drop]; by rewrite ?drop_0, !fmap_app, !fmap_cons.
  - exists (abs_entry ths <$> pre). intros th x post'. pose proof (abs_entries_other ths t th pre Hpre) as Ho.
    rewrite <-Ho at 2. destruct c; try done; cbn [abs_queue]; by rewrite !fmap_app, !fmap_cons.
Qed.

(** ** Steps of a producer that touch no claim *)

(** Only the waiter counts, the cached head and the claim slots may differ. *)
Record same_claims (r r' : Ring) : Prop := {
  sc_data : data r' = data r;
  sc_mask : mask r' = mask r;
  sc_cap : capacity (hdr r') = capacity (hdr r);
  sc_head : head (hdr r') = head (hdr r);
  sc_tail : tail (hdr r') = tail (hdr r);
  sc_nslots : zlen (slots (hdr r')) = zlen (slots (hdr r)) }.

Lemma same_claims_refl r : same_claims r r.
Proof. by split. Qed.

Lemma same_claims_slot r i f : same_claims r (set_hdr (upd_slot i f) r).
Proof. split; try done. cbn. unfold zlen. by rewrite length_alter. Qed.

Lemma same_claims_cache r v : same_claims r (set_hdr (with_headCache v) r).
Proof. by split. Qed.

Create HintDb ring.
#[export] Hint Resolve same_claims_refl same_claims_slot same_claims_cache : ring.

(** The intent goes on covering a claim that is rewritten or settled. *)
Lemma covers_replace q sg sg' o sl :
  seg_size sg' = seg_size sg -> covers_claim ((q, sg) :: o) sl -> covers_claim ((q, sg') :: o) sl.
Proof.
  intros Hsz (? & ? & ? & Hall & Hlast). split_and!; try done.
  - intros q2 sg2 [[= -> ->]|Hin]%elem_of_cons.
    + rewrite Hsz. apply Hall. by left.
    + apply Hall. by right.
  - intros pre q2 sg2 E. destruct pre as [|x pre]; injection E as E1 E2.
    + subst. rewrite Hsz. by apply (Hlast []).
    + apply (Hlast ((q, sg) :: pre)). cbn. by rewrite E2.
Qed.

Lemma covers_tail q sg o sl : covers_claim ((q, sg) :: o) sl -> covers_claim o sl.
Proof.
  intros (? & ? & ? & Hall & Hlast). split_and!; try done.
  - intros q2 sg2 Hin. apply Hall. by right.
  - intros pre q2 sg2 ->. by apply (Hlast ((q, sg) :: pre)).
Qed.

(** A program counter with claims has an intent that covers them. *)
Lemma shape_covers cap p full sl :
  pc_shape cap p full -> full <> [] -> intent p full sl -> covers_claim full sl.
Proof. destruct p; cbn; done. Qed.

Lemma owned_covers s k l t th sl q sg :
  inv s k l -> threads s !! t = Some th -> slot_of (pc th) = Some sl ->
  (q, sg) ∈ owned t (start s k) l ->
  let c := slot (ring s) sl in
  owner c = proc th /\ 0 <= at_ c /\ 0 < size_ c /\ at_ c + size_ c < 2 ^ 64 /\
  at_ c <= q /\ q + seg_size sg <= at_ c + size_ c.
Proof.
  intros I Hth Hsl Hin c.
  destruct (th_full _ _ _ _ (iv_threads _ _ _ I t th Hth)) as (full & Hsh & Hsuf & _ & Hint).
  assert (Hne : owned t (start s k) l <> []) by (intros E; rewrite E in Hin; by apply elem_of_nil in Hin).
  assert (Hf : (q, sg) ∈ full) by (destruct Hsuf as [pre ->]; rewrite elem_of_app; auto).
  destruct (Hint sl Hsl ltac:(by right)) as [Hown Hi]. fold c in Hown, Hi.
  assert (full <> []) by (intros ->; by apply elem_of_nil in Hf).
  destruct (shape_covers _ _ _ _ Hsh ltac:(done) Hi) as (? & ? & ? & Hcov & _).
  destruct (Hcov q sg Hf). split_and!; done.
Qed.

(** A claim that is not settled yet was not passed. *)
Lemma owned_not_passed s k l t th sl q sg c :
  inv s k l -> threads s !! t = Some th -> slot_of (pc th) = Some sl ->
  (q, sg) ∈ owned t (start s k) l -> passed_by (slot (ring s) sl) c -> q < c.
Proof.
  intros I Hth Hsl Hin Hp.
  destruct (owned_covers s k l t th sl q sg I Hth Hsl Hin) as (_ & ? & ? & ? & ? & ?).
  pose proof (seg_size_ge sg). destruct Hp as [Hp|Hp]; [|lia].
  unfold noIntent, MaxUint64 in Hp. lia.
Qed.

Lemma passed_inactive s k l t th sl :
  inv s k l -> threads s !! t = Some th -> slot_of (pc th) = Some sl ->
  owner (slot (ring s) sl) ∈ gone s -> passed_by (slot (ring s) sl) (head (hdr (ring s))) ->
  ~ active (gone s) (owned t (start s k) l) th.
Proof.
  intros I Hth Hsl Hdead Hp Hact.
  assert (Ho : owned t (start s k) l = []).
  { destruct (owned t (start s k) l) as [|[q sg] o] eqn:E; [done|].
    assert (Hin : (q, sg) ∈ owned t (start s k) l) by (rewrite E; by left).
    pose proof (owned_not_passed _ _ _ _ _ _ _ _ _ I Hth Hsl Hin Hp).
    apply owned_bounds in Hin. pose proof (t_consumed _ _ _ (iv_tiles _ _ _ I)). unfold start in *. lia. }
  destruct (th_full _ _ _ _ (iv_threads _ _ _ I t th Hth)) as (full & _ & _ & _ & Hint).
  destruct (Hint sl Hsl Hact) as [Hown _]. destruct Hact as [Ha|Ha]; [|done]. by rewrite Hown in Hdead.
Qed.

Section producer.
Context (s : state) (k : Z) (l : list aseg) (I : inv s k l).
Context (t : nat) (th : thread) (Hth : threads s !! t = Some th) (Halive : proc th ∉ gone s).

Definition moved (r' : Ring) (p' : ppc) : state :=
  mkState r' (<[t := mkThread (proc th) p']> (threads s)) (cons s) (gone s) (out s).

Lemma shape_of : pc_shape (zlen (data (ring s))) (pc th) (owned t (start s k) l).
Proof using I Hth Halive.
  destruct (th_full _ _ _ _ (iv_threads _ _ _ I t th Hth)) as (full & Hsh & _ & Hal & _).
  by rewrite Hal.
Qed.

Lemma local_of : pc_local (ring s) (gone s) (pc th).
Proof using I Hth. apply (iv_threads _ _ _ I t th Hth). Qed.

Lemma intent_of sl : slot_of (pc th) = Some sl ->
  0 <= sl < ClaimSlots /\ owner (slot (ring s) sl) = proc th /\
  intent (pc th) (owned t (start s k) l) (slot (ring s) sl).
Proof using I Hth Halive.
  intros Hsl. pose proof (iv_threads _ _ _ I t th Hth) as Hok.
  split; [by apply (th_slot _ _ _ _ Hok)|].
  destruct (th_full _ _ _ _ Hok) as (full & Hsh & _ & Hal & Hint).
  rewrite Hal by done. apply Hint; [done|]. by left.
Qed.

Lemma quiet_step r' p' :
  owned t (start s k) l = [] -> same_claims (ring s) r' ->
  0 <= headCache (hdr r') <= head (hdr (ring s)) ->
  (forall sl, 0 <= sl -> slot r' sl <> slot (ring s) sl -> slot_of (pc th) = Some sl \/ slot_of p' = Some sl) ->
  (forall sl, slot_of p' = Some sl -> slot_of (pc th) = Some sl \/
     forall t' th', t' <> t -> threads s !! t' = Some th' -> slot_of (pc th') = Some sl ->
       ~ active (gone s) (owned t' (start s k) l) th') ->
  pc_local r' (gone s) p' -> pc_shape (zlen (data (ring s))) p' [] ->
  (forall sl, slot_of p' = Some sl -> 0 <= sl < ClaimSlots /\ owner (slot r' sl) = proc th /\
     intent p' [] (slot r' sl)) ->
  inv (moved r' p') k l /\ abs (moved r' p') l = abs s l.
Proof using I Hth Halive.
  intros Ho [Hd Hm Hcap Hh Ht Hns] Hhc Hsl Hex Hloc Hsh Hint. split.
  - apply (inv_producer s k l I t th Hth Halive); try done; try lia; rewrite ?Hd; try done.
    + eapply tiles_hdr; try done. apply I.
    + apply evolves_refl.
    + auto.
    + rewrite Ho. split; cbn; [apply (iv_threads _ _ _ I t th Hth)|done|naive_solver|].
      exists []. rewrite Hd. split_and!; [done|done|done|]. intros sl H _. by apply Hint.
  - unfold abs, moved. cbn. f_equal. apply abs_queue_other. by apply (owned_nil t (start s k) l).
Qed.

Lemma cache_of : 0 <= headCache (hdr (ring s)) <= head (hdr (ring s)).
Proof using I. apply (iv_tiles _ _ _ I). Qed.

(** The same thread keeps its slot and at most stores to it. *)
Lemma quiet_keep r' p' sl f :
  owned t (start s k) l = [] -> slot_of (pc th) = Some sl -> slot_of p' = Some sl ->
  r' = ring s \/ r' = set_hdr (upd_slot sl f) (ring s) ->
  (forall x, owner (f x) = owner x) ->
  pc_local r' (gone s) p' -> pc_shape (zlen (data (ring s))) p' [] -> intent p' [] (slot r' sl) ->
  inv (moved r' p') k l /\ abs (moved r' p') l = abs s l.
Proof using I Hth Halive.
  intros Ho Hsl Hsl' Hr Hf Hloc Hsh Hint. destruct (intent_of sl Hsl) as (Hrange & Hown & _).
  pose proof (iv_nslots _ _ _ I). pose proof cache_of.
  apply quiet_step; try done.
  - destruct Hr as [-> | ->]; auto with ring.
  - destruct Hr as [-> | ->]; done.
  - intros sl' Hpos Hne. destruct Hr as [-> | ->]; [done|].
    rewrite slot_alter in Hne by lia. case_decide; [subst; by left|done].
  - intros sl' E. left. congruence.
  - intros sl' E. assert (sl' = sl) as -> by congruence. split_and!; try done; try lia.
    destruct Hr as [-> | ->]; [done|]. rewrite slot_alter, decide_True by (done || lia). by rewrite Hf.
Qed.

Lemma need_spec c tl :
  0 <= tl < 2 ^ 64 -> call_ok c ->
  pass_index (ring s) tl = tl mod zlen (data (ring s)) /\
  pass_toEnd (ring s) tl = lap_left (zlen (data (ring s))) tl /\
  pass_need (ring s) c tl = claim_need (zlen (data (ring s))) tl (k_aligned c) /\
  8 <= k_aligned c < 2 ^ 31.
Proof using I.
  intros Htl [_ Htot Hal]. pose proof (t_ok _ _ _ (iv_tiles _ _ _ I)) as Hok. pose proof (ring_pos _ Hok).
  pose proof (iv_small _ _ _ I). pose proof (align_bounds (k_total c) ltac:(lia) ltac:(lia)) as [_ Hb].
  pose proof (Z.mod_pos_bound tl (zlen (data (ring s))) ltac:(lia)).
  unfold pass_need, pass_toEnd, pass_index, claim_need, lap_left.
  rewrite u64_Capacity, index_ok, Hal by done. unwrap. split_and!; done || lia.
Qed.

(** The accesses of [tryClaim] that take no room. *)
Definition touches_no_claim (p : ppc) (r : Ring) : Prop :=
  match p with
  | PTail _ _ | PCache _ _ _ | PHead _ _ _ _ | PStoreCache _ _ _ _ _ | PSize _ _ _ _ | PAt _ _ _ _
  | PRelease _ => True
  | PCas _ _ tl _ => tail (hdr r) <> tl
  | _ => False
  end.

Lemma hasRoom_true tl hd cap need :
  0 <= hd -> tl < 2 ^ 64 -> 0 <= cap < 2 ^ 64 -> hasRoom tl hd cap need = true ->
  hd <= tl /\ tl + need <= hd + cap.
Proof using.
  intros. destruct (Z.le_gt_cases hd tl) as [Hle|Hgt].
  - rewrite hasRoom_spec in * by lia. apply andb_prop in H2 as [?%Z.leb_le ?%Z.leb_le]. lia.
  - unfold hasRoom in *. rewrite (proj2 (Z.ltb_lt tl hd)) in * by lia. done.
Qed.

Lemma claim_quiet p' r' :
  claim_step (pc th) (ring s) = Some (p', r') -> touches_no_claim (pc th) (ring s) ->
  inv (moved r' p') k l /\ abs (moved r' p') l = abs s l.
Proof using I Hth Halive.
  pose proof (iv_tiles _ _ _ I) as T. pose proof (t_ok _ _ _ T) as Hok. pose proof (ring_pos _ Hok).
  pose proof (t_nowrap _ _ _ T). pose proof cache_of as Hcache. pose proof (iv_small _ _ _ I) as Hsm.
  pose proof (head_le_tail _ _ _ T). pose proof (t_consumed _ _ _ T). pose proof (iv_nslots _ _ _ I).
  pose proof shape_of as Hsh. pose proof local_of as Hloc. pose proof intent_of as Hint.
  intros Hstep Hq. destruct (pc th) as [| | | | | | | | |sl c|sl c tl|sl c tl need|sl c tl need hd|sl c tl need
    |sl c tl need|sl c tl need| | | | | | | |sl| |] eqn:E; cbn in Hstep, Hq, Hloc, Hsh; try done.
  - injection Hstep as <- <-. apply (quiet_keep _ _ sl id); rewrite ?E; try done; [by left|].
    cbn. split; [done|]. lia.
  - destruct Hloc as [Hc Htl]. destruct (need_spec c tl ltac:(lia) Hc) as (_ & _ & Hn & _).
    rewrite Hn, u64_Capacity in Hstep by done.
    destruct (hasRoom _ _ _ _) eqn:R; injection Hstep as <- <-;
      (apply (quiet_keep _ _ sl id); rewrite ?E; [done..|by left|done| |done|done]);
      cbn; split_and?; try done; try lia.
    apply hasRoom_true in R; lia.
  - destruct Hloc as (Hc & Htl & Hn). rewrite u64_Capacity in Hstep by done.
    destruct (Z.ltb_spec tl (head (hdr (ring s)))).
    { injection Hstep as <- <-. apply (quiet_keep _ _ sl id); rewrite ?E; try done. by left. }
    destruct (hasRoom _ _ _ _) eqn:R; injection Hstep as <- <-;
      (apply (quiet_keep _ _ sl id); rewrite ?E; [done..|by left|done| |done|done]);
      cbn; split_and?; try done; try lia.
    apply hasRoom_true in R; lia.
  - destruct Hloc as (Hc & Htl & Hn & Hhd & Hroom). injection Hstep as <- <-.
    destruct (Hint sl eq_refl) as (Hrange & Hown & _).
    apply quiet_step; rewrite ?E; [done|auto with ring|cbn; lia|done|auto| |done|].
    + cbn. split_and!; try done; lia.
    + cbn. intros sl' [= <-]. split_and!; done || lia.
  - destruct Hloc as (Hc & Htl & Hn & Hroom). injection Hstep as <- <-.
    destruct (Hint sl eq_refl) as (Hrange & Hown & _).
    eapply (quiet_keep _ _ sl); rewrite ?E; [done..|right; reflexivity|done|done|done|].
    cbn. unfold store_size, store_at. by rewrite slot_alter, decide_True by (done || lia).
  - destruct Hloc as (Hc & Htl & Hn & Hroom). injection Hstep as <- <-.
    destruct (Hint sl eq_refl) as (Hrange & Hown & Hsz). cbn in Hsz.
    eapply (quiet_keep _ _ sl); rewrite ?E; [done..|right; reflexivity|done|done|done|].
    cbn. unfold store_size, store_at. by rewrite slot_alter, decide_True by (done || lia).
  - destruct Hloc as (Hc & _). destruct (Z.eqb_spec (tail (hdr (ring s))) tl); [done|].
    injection Hstep as <- <-. apply (quiet_keep _ _ sl id); rewrite ?E; try done. by left.
  - injection Hstep as <- <-. eapply (quiet_keep _ _ sl); rewrite ?E; [done..|right; reflexivity|done|done|done|done].
Qed.

(** Taking a slot nobody needs. *)
Lemma quiet_take idx :
  owned t (start s k) l = [] -> 0 <= idx < ClaimSlots ->
  (forall t' th', t' <> t -> threads s !! t' = Some th' -> slot_of (pc th') = Some idx ->
     ~ active (gone s) (owned t' (start s k) l) th') ->
  let r' := store_owner idx (proc th) (ring s) in
  inv (moved r' (PTake idx)) k l /\ abs (moved r' (PTake idx)) l = abs s l.
Proof using I Hth Halive.
  intros Ho Hidx Hex r'. pose proof (iv_nslots _ _ _ I). pose proof cache_of.
  apply quiet_step; try done; [apply same_claims_slot|..].
  - intros sl Hsl Hne. unfold r', store_owner in Hne. rewrite slot_alter in Hne by lia.
    case_decide; [subst; by right|done].
  - intros sl [= <-]. by right.
  - intros sl [= <-]. split_and!; try lia; [|done]. unfold r', store_owner.
    by rewrite slot_alter, decide_True by (done || lia).
Qed.

(** A scan step: the ring is only read. *)
Lemma quiet_scan p' :
  owned t (start s k) l = [] -> slot_of p' = None -> pc_local (ring s) (gone s) p' ->
  pc_shape (zlen (data (ring s))) p' [] ->
  inv (moved (ring s) p') k l /\ abs (moved (ring s) p') l = abs s l.
Proof using I Hth Halive.
  intros Ho Hsl Hloc Hsh. pose proof cache_of. apply quiet_step; try done; congruence.
Qed.

Lemma acquire_quiet ans p' r' :
  acquire_step ans (gone s) (proc th) (pc th) (ring s) = Some (p', r') -> clean (Run t ans) s ->
  inv (moved r' p') k l /\ abs (moved r' p') l = abs s l.
Proof using I Hth Halive.
  pose proof (iv_nslots _ _ _ I). pose proof cache_of as Hcache.
  pose proof shape_of as Hsh. pose proof local_of as Hloc. pose proof intent_of as Hint.
  intros Hstep Hclean. destruct (pc th) eqn:E; cbn in Hstep, Hloc, Hsh; try done.
  - destruct (Z.ltb_spec idx ClaimSlots).
    + destruct (Z.eqb_spec (owner (slot (ring s) idx)) 0); injection Hstep as <- <-.
      * apply quiet_take; [done|lia|]. intros t' th' Hne Ht' Hsl Hact.
        pose proof (iv_threads _ _ _ I t' th' Ht') as Hok.
        destruct (th_full _ _ _ _ Hok) as (full & _ & _ & _ & Hi). destruct (Hi idx Hsl Hact) as [Ho _].
        pose proof (th_proc _ _ _ _ Hok). congruence.
      * apply quiet_scan; cbn; done || lia.
    + injection Hstep as <- <-. apply quiet_scan; cbn; done || lia.
  - destruct (Z.ltb_spec idx ClaimSlots); [|injection Hstep as <- <-; by apply quiet_scan].
    destruct (_ || _); injection Hstep as <- <-; apply quiet_scan; cbn; done || lia.
  - destruct (_ =? _); injection Hstep as <- <-; apply quiet_scan; cbn; done || lia.
  - destruct (_ <? _); injection Hstep as <- <-; apply quiet_scan; cbn; done || lia.
  - destruct ans; [|injection Hstep as <- <-; apply quiet_scan; cbn; done || lia].
    case_bool_decide; [|done]. injection Hstep as <- <-. by apply quiet_scan.
  - destruct Hloc as [Hidx Hown].
    destruct (Z.eqb_spec (owner (slot (ring s) idx)) own); injection Hstep as <- <-;
      [|apply quiet_scan; cbn; done || lia].
    apply quiet_take; [done..|]. intros t' th' Hne Ht' Hsl. eapply passed_inactive; try done; [congruence|].
    by eapply (Hclean th).
  - injection Hstep as <- <-. eapply (quiet_keep _ _ sl); rewrite ?E; [done..|right; reflexivity|done|done|done|done].
  - injection Hstep as <- <-. eapply (quiet_keep _ _ sl); rewrite ?E; [done..|right; reflexivity|done|done|done|done].
  - destruct (Hint sl eq_refl) as (Hrange & Hown & _). rewrite Hown, Z.eqb_refl in Hstep.
    injection Hstep as <- <-. apply quiet_step; rewrite ?E; try done; [apply same_claims_slot|].
    intros sl' Hsl' Hne. unfold store_owner in Hne. rewrite slot_alter in Hne by lia.
    case_decide; [subst; by left|done].
Qed.

Lemma command_quiet cmd p' r' :
  command_step cmd (pc th) (ring s) = Some (p', r') ->
  match cmd with Acquire | Drop | Call _ _ => True | _ => False end ->
  inv (moved r' p') k l /\ abs (moved r' p') l = abs s l.
Proof using I Hth Halive.
  pose proof (t_ok _ _ _ (iv_tiles _ _ _ I)) as Hok. pose proof (iv_small _ _ _ I) as Hsm.
  pose proof shape_of as Hsh. intros Hstep Hq.
  destruct cmd; destruct (pc th) eqn:E; cbn in Hstep, Hsh; try done.
  - injection Hstep as <- <-. by apply quiet_scan.
  - injection Hstep as <- <-. apply (quiet_keep _ _ sl id); rewrite ?E; try done. by left.
  - destruct (_ || _) eqn:B0 in Hstep; [done|].
    apply orb_false_elim in B0 as [Ht0%Z.ltb_ge Ht1%Z.ltb_ge].
    destruct (_ || _) eqn:B in Hstep; injection Hstep as <- <-;
      (apply (quiet_keep _ _ sl id); rewrite ?E; [done..|by left|done| |done|done]); [done|].
    apply orb_false_elim in B as [[B1%Z.eqb_neq B2%Z.ltb_ge]%orb_false_elim B3%Z.ltb_ge].
    assert (Hmax : MaxMessageSize (ring s) <= 2 ^ 30 - 8).
    { unfold MaxMessageSize. rewrite Capacity_ok by done. pose proof (ring_pos _ Hok).
      rewrite Z.quot_div_nonneg by lia. pose proof (Z.div_mod (zlen (data (ring s))) 2 ltac:(lia)).
      pose proof (Z.mod_pos_bound (zlen (data (ring s))) 2 ltac:(lia)).
      unfold RecordHeaderSize, MaxInt32. case_match; reflect_bools; lia. }
    split; cbn; rewrite ?i32_small by (unfold RecordHeaderSize; lia); unfold RecordHeaderSize; try done; try lia.
    unfold typ_fits. lia.
Qed.

(** ** Steps of a producer on its own claim *)

(** The entry of a claim that is not handed out. *)
Definition unopened (p : ppc) : Prop :=
  match p with PClaim _ _ _ | PAbort _ _ _ | PCommit _ _ _ => False | _ => True end.

Lemma abs_entry_unopened ths t' sg th' :
  ths !! t' = Some th' -> unopened (pc th') -> abs_entry ths (mkA sg (Some t')) = Pending t'.
Proof using. unfold abs_entry. cbn. intros ->. cbn. by destruct (pc th'). Qed.

Section claim.
Context (q : Z) (sg : seg) (o : list (Z * seg)) (Ho : owned t (start s k) l = (q, sg) :: o).

Definition claim_at (pre post : list aseg) : Prop :=
  l = pre ++ mkA sg (Some t) :: post /\ (forall a, a ∈ pre -> a_own a <> Some t) /\
  owned t (q + seg_size sg) post = o /\ q = start s k + segs_size (segs_of pre) /\
  tiles (ring s) k (segs_of pre ++ sg :: segs_of post) /\
  seg_index (ring s) k (segs_of pre) = q mod zlen (data (ring s)).

Lemma claim_found : exists pre post, claim_at pre post.
Proof using I Ho.
  destruct (owned_split _ _ _ _ _ _ Ho) as (pre & post & Hl & Hq & Hpre & Hpost).
  pose proof (iv_tiles _ _ _ I) as T. rewrite Hl, segs_of_app, segs_of_cons in T. cbn [a_seg] in T.
  exists pre, post. split_and!; try done.
  - by apply (owned_nil t (start s k)).
  - rewrite (seg_index_eq _ _ _ _ _ T). unfold start in Hq. by rewrite Hq.
Qed.

(** The claim is rewritten, and perhaps settled. *)
Lemma claim_replace pre post sg' own' r' p' :
  claim_at pre post ->
  seg_size sg' = seg_size sg -> own' = Some t \/ own' = None /\ 0 < s_len sg' ->
  hdr r' = hdr (ring s) -> tiles r' k (segs_of pre ++ sg' :: segs_of post) ->
  slot_of p' = slot_of (pc th) -> pc_local r' (gone s) p' ->
  (o = [] \/ unopened (pc th) /\ unopened p') ->
  let full := match own' with Some _ => (q, sg') :: o | None => o end in
  pc_shape (zlen (data (ring s))) p' full ->
  (forall sl, slot_of (pc th) = Some sl -> covers_claim ((q, sg) :: o) (slot (ring s) sl) ->
     intent p' full (slot (ring s) sl)) ->
  let l' := pre ++ mkA sg' own' :: post in
  inv (moved r' p') k l' /\
  exists e1 e2, abs s l = mkSpec (e1 ++ abs_entry (threads s) (mkA sg (Some t)) :: e2) (out s) (gone s) /\
    abs (moved r' p') l' =
      mkSpec (e1 ++ abs_entry (threads (moved r' p')) (mkA sg' own') :: e2) (out s) (gone s) /\
    (o <> [] -> Pending t ∈ e2).
Proof using I Hth Halive Ho.
  intros (Hl & Hpre & Hpost & Hq & T & _) Hsz Hown Hh T' Hslot Hloc Hopen full Hsh Hint l'.
  assert (Hd : zlen (data r') = zlen (data (ring s))).
  { rewrite <-(ok_cap _ (t_ok _ _ _ T')), Hh. apply T. }
  assert (Hset : own' = Some t \/ own' = None) by naive_solver.
  assert (Hself : owned t (start s k) l' = full).
  { apply (owned_nil t (start s k)) in Hpre. unfold l', full. destruct Hset as [-> | ->].
    - erewrite owned_replace_self by done. by rewrite <-Hq, Hpost.
    - erewrite owned_replace_none by done. by rewrite <-Hq, Hpost. }
  split.
  - apply (inv_producer s k l I t th Hth Halive); rewrite ?Hh; try done; try lia.
    + unfold l'. by rewrite segs_of_app, segs_of_cons.
    + rewrite Hl. by apply evolves_replace.
    + intros t' Hne. unfold l'. rewrite Hl. by apply owned_replace_other.
    + intros a. unfold l'. rewrite Hl, !elem_of_app, !elem_of_cons. cbn.
      intros [?|[->|?]]; [by auto| |by auto]. cbn. right. naive_solver.
    + intros sl Hsl Hne. unfold slot in Hne. by rewrite Hh in Hne.
    + rewrite Hslot. auto.
    + intros _ _. split; [done|]. intros sl. unfold slot. by rewrite Hh.
    + rewrite Hself. destruct (iv_threads _ _ _ I t th Hth) as [Hp _ Hsl0 _].
      split; cbn; [done|done|by rewrite Hslot|]. exists full. rewrite Hd.
      split_and!; try done. intros sl Hsl _. rewrite Hslot in Hsl.
      destruct (intent_of sl Hsl) as (_ & Hown' & Hi). unfold slot in *. rewrite Hh. split; [done|].
      apply (Hint sl Hsl). rewrite Ho in Hi. eapply shape_covers; [|done|exact Hi].
      rewrite <-Ho. apply shape_of.
  - destruct (abs_queue_split (ring s) (gone s) (threads s) k (cons s) pre sg t post) as [e1 He1];
      [rewrite <-Hl; apply I|done|].
    exists e1, (abs_entry (threads s) <$> post). unfold abs, moved. cbn [threads cons out gone ring].
    rewrite Hl. destruct (He1 (mkThread (proc th) p') (mkA sg (Some t)) post) as [-> _].
    unfold l'. destruct (He1 (mkThread (proc th) p') (mkA sg' own') post) as [_ ->].
    split_and!; [done| |].
    + do 3 f_equal. apply list_fmap_ext. intros i a Ha%list_elem_of_lookup_2.
      destruct Hopen as [Ho'|[Hu Hu']].
      * apply abs_entry_other. rewrite Ho' in Hpost. by eapply owned_nil.
      * destruct (decide (a_own a = Some t)) as [E|E]; [|by apply abs_entry_other].
        destruct a as [sga owna]. cbn in E. subst owna.
        rewrite (abs_entry_unopened (threads s) t _ th) by done.
        apply (abs_entry_unopened _ _ _ (mkThread (proc th) p')); [|exact Hu']. apply list_lookup_insert_eq. by eapply lookup_lt_Some.
    + intros Hne. destruct Hopen as [?|[Hu _]]; [done|]. destruct o as [|[q2 sg2] o2]; [done|].
      destruct (owned_split _ _ _ _ _ _ Hpost) as (pre2 & post2 & -> & _).
      apply list_elem_of_fmap. exists (mkA sg2 (Some t)). split.
      * symmetry. by eapply abs_entry_unopened.
      * rewrite elem_of_app, elem_of_cons. auto.
Qed.
End claim.

Lemma pass_spec tl :
  pass_index (ring s) tl = tl mod zlen (data (ring s)) /\
  pass_toEnd (ring s) tl = lap_left (zlen (data (ring s))) tl.
Proof using I.
  pose proof (t_ok _ _ _ (iv_tiles _ _ _ I)) as Hok. pose proof (ring_pos _ Hok).
  pose proof (iv_small _ _ _ I). pose proof (Z.mod_pos_bound tl (zlen (data (ring s))) ltac:(lia)).
  unfold pass_toEnd, pass_index, lap_left. rewrite u64_Capacity, index_ok by done. by unwrap.
Qed.

Lemma procs_of : procs s !! t = Some (proc th).
Proof using Hth. unfold procs. by rewrite list_lookup_fmap, Hth. Qed.

Lemma entry_moved r' p' sg :
  abs_entry (threads (moved r' p')) (mkA sg (Some t)) =
  match p' with
  | PClaim _ _ _ => Open t (s_typ sg) (open_bytes sg)
  | PAbort _ _ _ => Sealed t None
  | PCommit _ _ _ => Sealed t (if s_typ sg =? TypePadding then None else Some (s_typ sg, open_bytes sg))
  | _ => Pending t
  end.
Proof using Hth.
  unfold abs_entry, moved. cbn [a_own a_seg threads].
  rewrite list_lookup_insert_eq by (by eapply lookup_lt_Some). cbn. by destruct p'.
Qed.

Lemma entry_here sg :
  abs_entry (threads s) (mkA sg (Some t)) =
  match pc th with
  | PClaim _ _ _ => Open t (s_typ sg) (open_bytes sg)
  | PAbort _ _ _ => Sealed t None
  | PCommit _ _ _ => Sealed t (if s_typ sg =? TypePadding then None else Some (s_typ sg, open_bytes sg))
  | _ => Pending t
  end.
Proof using Hth. unfold abs_entry. cbn [a_own a_seg]. rewrite Hth. cbn. by destruct (pc th). Qed.

Definition simulated (a : action) (r' : Ring) (p' : ppc) : Prop :=
  exists l', inv (moved r' p') k l' /\ spec_step (procs s) a (abs s l) (abs (moved r' p') l').

Lemma claim_simulated q sg o pre post sg' own' a r' p' :
  owned t (start s k) l = (q, sg) :: o -> claim_at q sg o pre post ->
  seg_size sg' = seg_size sg -> own' = Some t \/ own' = None /\ 0 < s_len sg' ->
  hdr r' = hdr (ring s) -> tiles r' k (segs_of pre ++ sg' :: segs_of post) ->
  slot_of p' = slot_of (pc th) -> pc_local (ring s) (gone s) p' ->
  (o = [] \/ unopened (pc th) /\ unopened p') ->
  let full := match own' with Some _ => (q, sg') :: o | None => o end in
  pc_shape (zlen (data (ring s))) p' full ->
  (forall sl, slot_of (pc th) = Some sl -> covers_claim ((q, sg) :: o) (slot (ring s) sl) ->
     intent p' full (slot (ring s) sl)) ->
  (forall e1 e2, (o <> [] -> Pending t ∈ e2) -> spec_step (procs s) a
     (mkSpec (e1 ++ abs_entry (threads s) (mkA sg (Some t)) :: e2) (out s) (gone s))
     (mkSpec (e1 ++ abs_entry (threads (moved r' p')) (mkA sg' own') :: e2) (out s) (gone s))) ->
  simulated a r' p'.
Proof using I Hth Halive.
  intros Ho C Hsz Hown Hh T Hsl Hloc Hopen full Hsh Hint Hstep.
  destruct (claim_replace _ _ _ Ho pre post sg' own' r' p' C) as (Hinv & e1 & e2 & A & A' & He); try done.
  { apply (pc_local_mono (ring s) _ (gone s)); rewrite ?Hh; try done; try lia.
    rewrite <-(ok_cap _ (t_ok _ _ _ T)), Hh. apply I. }
  eexists. split; [exact Hinv|]. rewrite A, A'. auto.
Qed.

Lemma pad_type_step sl c tl ans :
  pc th = PPadType sl c tl ->
  simulated (Run t ans) (storeType (pass_index (ring s) tl) TypePadding (ring s)) (PPadLen sl c tl).
Proof using I Hth Halive.
  intros E. pose proof shape_of as Hsh. pose proof local_of as Hloc. rewrite E in Hsh, Hloc. cbn in Hsh, Hloc.
  destruct (pass_spec tl) as [Hidx _]. destruct (claim_found _ _ _ Hsh) as (pre & post & C).
  pose proof C as (_ & _ & _ & _ & T & Hix). rewrite Hidx, <-Hix.
  pose proof (tiles_storeType _ _ _ _ _ T TypePadding ltac:(unfold TypePadding; lia)) as T'.
  eapply (claim_simulated _ _ _ pre post _ (Some t));
    [exact Hsh|exact C| |by left|done|exact T'| | | | | |]; rewrite ?E; try done.
  - by right.
  - intros sl' Hsl Hcov. by eapply covers_replace; [|exact Hcov].
  - intros e1 e2 _. rewrite entry_here, entry_moved, E. by apply S_quiet.
Qed.

Lemma pad_len_step sl c tl ans :
  pc th = PPadLen sl c tl ->
  simulated (Run t ans) (storeLength (pass_index (ring s) tl) (i32 (pass_toEnd (ring s) tl)) (ring s))
    (PType sl c 0).
Proof using I Hth Halive.
  intros E. pose proof shape_of as Hsh. pose proof local_of as Hloc. rewrite E in Hsh, Hloc. cbn in Hsh, Hloc.
  destruct Hloc as (Hc & H8 & Hlt). destruct (pass_spec tl) as [Hidx Hend].
  pose proof (t_ok _ _ _ (iv_tiles _ _ _ I)) as Hok. pose proof (ring_pos _ Hok).
  destruct (need_spec c 0 ltac:(lia) Hc) as (_ & _ & _ & Hal).
  destruct (lap_left_spec (zlen (data (ring s))) tl) as (Hlap & _ & Hz); [done|by apply ok_dvd|done|].
  destruct (claim_found _ _ _ Hsh) as (pre & post & C).
  pose proof C as (_ & _ & _ & _ & T & Hix). rewrite Hidx, Hend, <-Hix, i32_small by lia.
  assert (Hlen : len_ok (pad_seg (lap_left (zlen (data (ring s))) tl))).
  { right. exists (lap_left (zlen (data (ring s))) tl). rewrite seg_size_pad by lia. cbn. lia. }
  eapply (claim_simulated _ _ _ pre post (pad_seg (lap_left (zlen (data (ring s))) tl)) None);
    [exact Hsh|exact C|done|right; cbn; split; [done|lia]|done| | | | | | |]; rewrite ?E; try done.
  - by apply (tiles_storeLength _ _ _ _ _ T).
  - by right.
  - cbn. eexists. by rewrite Hz.
  - intros sl' Hsl Hcov. cbn. by eapply covers_tail.
  - intros e1 e2 Hin. rewrite entry_here, E. by eapply S_pad; [apply procs_of|done|apply Hin].
Qed.

(** The record of a call: a length it may carry, negated or not. *)
Lemma call_len_ok c typ body v :
  call_ok c -> zlen body = k_aligned c - RecordHeaderSize -> v = k_total c \/ v = - k_total c ->
  len_ok (mkSeg v typ body).
Proof using.
  intros [_ Htot Hal] Hb Hv. pose proof (align_bounds (k_total c) ltac:(lia) ltac:(lia)).
  right. exists (k_total c). unfold seg_size. cbn [s_body s_len]. lia.
Qed.

Lemma zlen_call_body c :
  call_ok c -> zlen (zeros (k_aligned c - RecordHeaderSize)) = k_aligned c - RecordHeaderSize.
Proof using.
  intros [_ Htot Hal]. pose proof (align_bounds (k_total c) ltac:(lia) ltac:(lia)).
  apply zlen_zeros. unfold RecordHeaderSize. lia.
Qed.

Lemma type_step sl c index ans :
  pc th = PType sl c index ->
  simulated (Run t ans) (storeType index (k_typ c) (ring s)) (PNeg sl c index).
Proof using I Hth Halive.
  intros E. pose proof shape_of as Hsh. pose proof local_of as Hc. rewrite E in Hsh, Hc. cbn in Hsh, Hc.
  destruct Hsh as (q & -> & Hsh). destruct (claim_found _ _ _ Hsh) as (pre & post & C).
  pose proof C as (_ & _ & _ & _ & T & Hix). rewrite <-Hix.
  pose proof (co_typ _ Hc) as Htyp. unfold typ_fits, TypePadding in Htyp.
  pose proof (tiles_storeType _ _ _ _ _ T (k_typ c) ltac:(lia)) as T'.
  eapply (claim_simulated _ _ _ pre post _ (Some t));
    [exact Hsh|exact C| |by left|done|exact T'| | | | | |]; rewrite ?E; try done; [by left|by exists q| |].
  - intros sl' Hsl Hcov. by eapply covers_replace; [|exact Hcov].
  - intros e1 e2 _. rewrite entry_here, entry_moved, E. by apply S_quiet.
Qed.

Lemma neg_step sl c index ans :
  pc th = PNeg sl c index ->
  simulated (Run t ans) (storeLength index (i32 (- k_total c)) (ring s)) (PClaim sl c index).
Proof using I Hth Halive.
  intros E. pose proof shape_of as Hsh. pose proof local_of as Hc. rewrite E in Hsh, Hc. cbn in Hsh, Hc.
  destruct Hsh as (q & -> & Hsh). destruct (claim_found _ _ _ Hsh) as (pre & post & C).
  pose proof C as (_ & _ & _ & _ & T & Hix). pose proof (co_total _ Hc).
  pose proof (zlen_call_body c Hc) as Hz.
  rewrite <-Hix, i32_small by lia.
  pose proof (tiles_storeLength _ _ _ _ _ T (- k_total c)) as T'. cbn [s_typ s_body] in T'.
  specialize (T' (call_len_ok c _ _ _ Hc Hz ltac:(by right))).
  eapply (claim_simulated _ _ _ pre post _ (Some t));
    [exact Hsh|exact C| |by left|done|exact T'| | | | | |]; rewrite ?E; try done; [by left|by eexists _, _| |].
  - intros sl' Hsl Hcov. by eapply covers_replace; [|exact Hcov].
  - intros e1 e2 _. rewrite entry_here, entry_moved, E. unfold open_bytes. cbn [s_len s_typ s_body].
    pose proof (co_aligned _ Hc). pose proof (align_bounds (k_total c) ltac:(lia) ltac:(lia)).
    replace (take _ _) with (zeros (k_total c - RecordHeaderSize))
      by (unfold zeros; rewrite take_replicate; f_equal; lia).
    by eapply S_open; [apply procs_of|].
Qed.

Lemma abort_step sl c index ans :
  pc th = PAbort sl c index ->
  simulated (Run t ans) (storeType index TypePadding (ring s)) (PCommit sl c index).
Proof using I Hth Halive.
  intros E. pose proof shape_of as Hsh. pose proof local_of as Hc. rewrite E in Hsh, Hc. cbn in Hsh, Hc.
  destruct Hsh as (q & body & -> & Hb & Hsh). destruct (claim_found _ _ _ Hsh) as (pre & post & C).
  pose proof C as (_ & _ & _ & _ & T & Hix). rewrite <-Hix.
  pose proof (tiles_storeType _ _ _ _ _ T TypePadding ltac:(unfold TypePadding; lia)) as T'.
  eapply (claim_simulated _ _ _ pre post _ (Some t));
    [exact Hsh|exact C| |by left|done|exact T'| | | | | |]; rewrite ?E; try done; [by left| | |].
  - exists q, TypePadding, body. split_and!; [exact Hix|exact Hb|unfold TypePadding; lia..|done].
  - intros sl' Hsl Hcov. by eapply covers_replace; [|exact Hcov].
  - intros e1 e2 _. rewrite entry_here, entry_moved, E. by apply S_quiet.
Qed.

Lemma commit_step sl c index ans :
  pc th = PCommit sl c index ->
  simulated (Run t ans) (storeLength index (k_total c) (ring s)) (PRelease sl).
Proof using I Hth Halive.
  intros E. pose proof shape_of as Hsh. pose proof local_of as Hc. rewrite E in Hsh, Hc. cbn in Hsh, Hc.
  destruct Hsh as (q & typ & body & -> & Hb & Htyp & Hsh).
  destruct (claim_found _ _ _ Hsh) as (pre & post & C).
  pose proof C as (_ & _ & _ & _ & T & Hix). rewrite <-Hix. pose proof (co_total _ Hc).
  pose proof (tiles_storeLength _ _ _ _ _ T (k_total c)) as T'. cbn [s_typ s_body] in T'.
  specialize (T' (call_len_ok c _ _ _ Hc Hb ltac:(by left))).
  eapply (claim_simulated _ _ _ pre post (mkSeg (k_total c) typ body) None);
    [exact Hsh|exact C|done|right; split; [done|cbn; lia]|done|exact T'| | | | | |]; rewrite ?E; try done.
  - by left.
  - intros e1 e2 _. rewrite entry_here, E. unfold abs_entry, message, open_bytes. cbn [a_own a_seg s_len s_typ s_body].
    rewrite Z.opp_involutive. by eapply S_settle; [apply procs_of|].
Qed.

Lemma take_blit (b : list byte) off bs n :
  0 <= off -> off + zlen bs <= n -> n <= zlen b ->
  take (Z.to_nat n) (blit b off bs) = blit (take (Z.to_nat n) b) off bs.
Proof using.
  unfold zlen, blit. intros. rewrite take_app_ge by (rewrite length_take; lia).
  rewrite take_take, length_take, Nat.min_l by lia. rewrite Nat.min_l by lia. f_equal.
  rewrite take_app_ge by lia. f_equal. rewrite skipn_firstn_comm. f_equal. lia.
Qed.

Lemma fill_step sl c index off bs p' r' :
  pc th = PClaim sl c index -> command_step (Fill off bs) (pc th) (ring s) = Some (p', r') ->
  simulated (Do t (Fill off bs)) r' p'.
Proof using I Hth Halive.
  intros E Hstep. pose proof shape_of as Hsh. pose proof local_of as Hc. rewrite E in Hsh, Hc, Hstep.
  cbn in Hsh, Hc, Hstep. destruct (_ && _) eqn:B; [|done]. injection Hstep as <- <-.
  apply andb_prop in B as [Hoff%Z.leb_le Hend%Z.leb_le]. pose proof (co_total _ Hc).
  pose proof (co_aligned _ Hc). pose proof (align_bounds (k_total c) ltac:(lia) ltac:(lia)).
  destruct Hsh as (q & body & -> & Hb & Hsh). destruct (claim_found _ _ _ Hsh) as (pre & post & C).
  pose proof C as (_ & _ & _ & _ & T & Hix). unfold fill_claim. cbn [c_index]. rewrite <-Hix.
  pose proof (tiles_fill _ _ _ _ _ T off bs Hoff ltac:(cbn; lia)) as T'. cbn [s_len s_typ s_body] in T'.
  assert (Hzb : zlen (blit body off bs) = zlen body) by (apply zlen_blit; lia).
  eapply (claim_simulated _ _ _ pre post _ (Some t));
    [exact Hsh|exact C| |by left|done|exact T'| | | | | |]; rewrite ?E; try done.
  - unfold seg_size. cbn. by rewrite Hzb.
  - by left.
  - exists q, (blit body off bs). split_and!; [exact Hix|by rewrite Hzb|done].
  - intros sl' Hsl Hcov. eapply covers_replace; [|exact Hcov]. unfold seg_size. cbn. by rewrite Hzb.
  - intros e1 e2 _. rewrite entry_here, entry_moved, E. unfold open_bytes. cbn [s_len s_typ s_body].
    rewrite Z.opp_involutive, take_blit by lia.
    eapply S_fill; [apply procs_of|done|done|]. unfold zlen in *. rewrite length_take. lia.
Qed.

Lemma finish_step sl c index commit p' r' :
  pc th = PClaim sl c index -> command_step (Finish commit) (pc th) (ring s) = Some (p', r') ->
  simulated (Do t (Finish commit)) r' p'.
Proof using I Hth Halive.
  intros E Hstep. pose proof shape_of as Hsh. pose proof local_of as Hc. rewrite E in Hsh, Hc, Hstep.
  cbn in Hsh, Hc, Hstep. injection Hstep as <- <-. pose proof (co_typ _ Hc) as Htyp. unfold typ_fits in Htyp.
  destruct Hsh as (q & body & -> & Hb & Hsh). destruct (claim_found _ _ _ Hsh) as (pre & post & C).
  pose proof C as (_ & _ & _ & _ & T & Hix).
  eapply (claim_simulated _ _ _ pre post (mkSeg (- k_total c) (k_typ c) body) (Some t));
    [exact Hsh|exact C|done|by left|done|exact T| | | | | |]; rewrite ?E; try done.
  - by destruct commit.
  - by destruct commit.
  - by left.
  - destruct commit; [exists q, (k_typ c), body|exists q, body]; split_and!; try done;
      unfold TypePadding in *; lia.
  - intros sl' Hsl Hcov. by destruct commit.
  - intros e1 e2 _. rewrite entry_here, entry_moved, E. cbn [s_len s_typ s_body].
    pose proof (S_seal (procs s) t (proc th) commit (k_typ c)
      (open_bytes (mkSeg (- k_total c) (k_typ c) body)) e1 e2 (out s) (gone s) procs_of Halive) as Hs.
    destruct commit; [|exact Hs]. by rewrite (proj2 (Z.eqb_neq (k_typ c) TypePadding)) by lia.
Qed.

(** Claims appended at the tail. *)
Lemma append_simulated new r' p' a :
  owned t (start s k) l = [] -> (forall x, x ∈ new -> a_own x = Some t) ->
  tiles r' k (segs_of l ++ segs_of new) ->
  r' = set_hdr (with_tail (tail (hdr r'))) (ring s) -> tail (hdr (ring s)) <= tail (hdr r') ->
  slot_of p' = slot_of (pc th) -> pc_local r' (gone s) p' ->
  pc_shape (zlen (data (ring s))) p' (owned t (tail (hdr (ring s))) new) ->
  (forall sl, slot_of (pc th) = Some sl -> intent p' (owned t (tail (hdr (ring s))) new) (slot (ring s) sl)) ->
  unopened p' ->
  (forall q, spec_step (procs s) a (mkSpec q (out s) (gone s))
     (mkSpec (q ++ ((fun _ => Pending t) <$> new)) (out s) (gone s))) ->
  simulated a r' p'.
Proof using I Hth Halive.
  intros Ho Hnew T Hr Htl Hslot Hloc Hsh Hint Hun Hstep.
  assert (Hbase : start s k + segs_size (segs_of l) = tail (hdr (ring s))).
  { unfold start. symmetry. apply (t_tail _ _ _ (iv_tiles _ _ _ I)). }
  assert (Hself : owned t (start s k) (l ++ new) = owned t (tail (hdr (ring s))) new)
    by (by rewrite owned_app, Ho, Hbase).
  assert (Hsl : forall sl, slot r' sl = slot (ring s) sl) by (intros; rewrite Hr; done).
  exists (l ++ new). split.
  - apply (inv_producer s k l I t th Hth Halive); try (rewrite Hr; done); try done.
    + by rewrite segs_of_app.
    + apply evolves_new.
    + intros t' Hne. rewrite owned_app.
      replace (owned t' _ new) with (@nil (Z * seg)); [by rewrite app_nil_r|].
      symmetry. apply owned_nil. intros x Hx. rewrite (Hnew x Hx). congruence.
    + intros x [?|?]%elem_of_app; auto.
    + rewrite Hslot. auto.
    + rewrite Hself. destruct (iv_threads _ _ _ I t th Hth) as [Hp _ Hsl0 _].
      split; cbn [proc pc]; [done|done|by rewrite Hslot|].
      eexists. split_and!; [by rewrite Hr|done|done|].
      intros sl Hs _. rewrite Hslot in Hs. rewrite Hsl.
      destruct (intent_of sl Hs) as (_ & ? & _). auto.
  - unfold abs, moved. cbn [threads cons out gone ring].
    pose proof (iv_cons _ _ _ I) as Hc.
    assert (Hq : abs_queue (<[t:=mkThread (proc th) p']> (threads s)) (cons s) (l ++ new) =
      abs_queue (threads s) (cons s) l ++ ((fun _ => Pending t) <$> new)).
    { rewrite <-(abs_queue_other (threads s) t (mkThread (proc th) p') (cons s) l)
        by (by apply (owned_nil t (start s k))).
      assert (He : (abs_entry (<[t:=mkThread (proc th) p']> (threads s)) <$> new) =
                   ((fun _ => Pending t) <$> new)).
      { apply list_fmap_ext. intros i x Hx%list_elem_of_lookup_2. destruct x as [sg own].
        pose proof (Hnew _ Hx) as E. cbn in E. subst own.
        apply (abs_entry_unopened _ _ _ (mkThread (proc th) p')); [|done].
        apply list_lookup_insert_eq. by eapply lookup_lt_Some. }
      rewrite <-He. destruct (holds_front (cons s)) eqn:E.
      - destruct (holds_front_settled _ _ _ _ _ _ Hc E) as (s0 & rest & ->).
        destruct (cons s); try done; cbn [abs_queue app drop]; by rewrite ?drop_0, fmap_app.
      - destruct (cons s); try done; cbn [abs_queue]; by rewrite fmap_app. }
    rewrite Hq. apply Hstep.
Qed.

Lemma covers_single q sg at0 sz own :
  0 <= at0 -> 0 < sz -> at0 + sz < 2 ^ 64 -> at0 <= q -> q + seg_size sg = at0 + sz ->
  covers_claim [(q, sg)] (mkSlot own at0 sz).
Proof using.
  intros. split_and!; try done.
  - intros q2 sg2 [= -> ->]%list_elem_of_singleton. cbn. lia.
  - intros pre q2 sg2 E. destruct pre as [|? [|]]; by simplify_eq/=.
Qed.

Lemma covers_pair q sg q' sg' at0 sz own :
  0 <= at0 -> 0 < sz -> at0 + sz < 2 ^ 64 -> at0 <= q -> q' = q + seg_size sg ->
  q' + seg_size sg' = at0 + sz -> covers_claim [(q, sg); (q', sg')] (mkSlot own at0 sz).
Proof using.
  intros. pose proof (seg_size_ge sg). pose proof (seg_size_ge sg'). split_and!; try done.
  - intros q2 sg2 [[= -> ->]|[= -> ->]%list_elem_of_singleton]%elem_of_cons; cbn; lia.
  - intros pre q2 sg2 E. destruct pre as [|? [|? [|]]]; by simplify_eq/=.
Qed.

Lemma cas_step sl c tl need ans p' r' :
  pc th = PCas sl c tl need -> tail (hdr (ring s)) = tl ->
  claim_step (pc th) (ring s) = Some (p', r') -> simulated (Run t ans) r' p'.
Proof using I Hth Halive.
  intros E Etl Hstep. pose proof shape_of as Hsh. pose proof local_of as Hloc.
  destruct (intent_of sl ltac:(by rewrite E)) as (_ & _ & Hint).
  rewrite E in Hsh, Hloc, Hint, Hstep. cbn in Hsh, Hloc, Hint, Hstep.
  destruct Hloc as (Hc & Htl & Hneed & Hroom). destruct Hint as [Hsz Hat].
  rewrite (proj2 (Z.eqb_eq _ _) Etl) in Hstep. destruct (Z.ltb_spec (tl + need) (2 ^ 64)); [|done].
  pose proof (iv_tiles _ _ _ I) as T. pose proof (t_ok _ _ _ T) as Hok. pose proof (ring_pos _ Hok).
  pose proof (t_nowrap _ _ _ T).
  destruct (need_spec c tl ltac:(lia) Hc) as (Hidx & _ & _ & Hal).
  destruct (pass_spec tl) as [_ Hend].
  pose proof (tail_mod8 _ _ _ T) as Ht8. rewrite Etl in Ht8.
  destruct (lap_left_spec (zlen (data (ring s))) tl) as (Hlap & _ & Hz); [done|by apply ok_dvd|done|].
  pose proof (align_bounds (k_total c) ltac:(pose proof (co_total _ Hc); lia) ltac:(pose proof (co_total _ Hc); lia)) as [H8 _].
  rewrite <-(co_aligned _ Hc) in H8.
  pose proof (claim_need_bounds (zlen (data (ring s))) tl (k_aligned c) ltac:(done) Hal) as Hnb.
  rewrite <-Hneed in Hnb. rewrite u64_small in Hstep by lia.
  change (pass_index (set_hdr _ _) tl) with (pass_index (ring s) tl) in Hstep.
  unfold claim_need in Hneed. fold (lap_left (zlen (data (ring s))) tl) in Hneed.
  destruct (slot (ring s) sl) as [own at0 sz] eqn:Hs. cbn in Hsz, Hat. subst at0 sz.
  destruct (Z.ltb_spec (lap_left (zlen (data (ring s))) tl) (k_aligned c)) as [Hw|Hw].
  - rewrite (proj2 (Z.eqb_neq need (k_aligned c))) in Hstep by lia. injection Hstep as <- <-.
    pose proof (tiles_claim_two _ _ _ (k_aligned c) (lap_left (zlen (data (ring s))) tl) T) as T2.
    rewrite Etl, <-Hneed in T2. specialize (T2 ltac:(lia) H8 eq_refl Hw Hroom ltac:(done)).
    eapply (append_simulated [mkA (zero_seg (lap_left (zlen (data (ring s))) tl)) (Some t);
                              mkA (zero_seg (k_aligned c)) (Some t)]);
      rewrite ?E, ?Etl, ?owned_cons_eq, ?seg_size_zero by lia; try done.
    + intros x [->|[->|[]%elem_of_nil]%elem_of_cons]%elem_of_cons; done.
    + cbn. lia.
    + intros sl' [= <-]. cbn [intent]. rewrite Hs. cbn [owned].
      apply covers_pair; rewrite ?seg_size_zero by lia; lia.
    + intros q. by eapply S_claim_wrap; [apply procs_of|].
  - rewrite (proj2 (Z.eqb_eq need (k_aligned c))) in Hstep by lia. injection Hstep as <- <-.
    pose proof (tiles_claim _ _ _ need T) as T2. rewrite Etl in T2. unfold lap_left in Hw.
    specialize (T2 ltac:(lia) ltac:(by rewrite Hneed) ltac:(lia) Hroom ltac:(done)).
    eapply (append_simulated [mkA (zero_seg (k_aligned c)) (Some t)]);
      rewrite ?E, ?Etl, ?owned_cons_eq, ?seg_size_zero by lia; try done.
    + intros x [->|[]%elem_of_nil]%elem_of_cons; done.
    + by rewrite <-Hneed.
    + cbn. lia.
    + cbn. exists tl. rewrite Hidx. done.
    + intros sl' [= <-]. cbn [intent]. rewrite Hs. cbn [owned].
      apply covers_single; rewrite ?seg_size_zero by lia; lia.
    + intros q. by eapply S_claim; [apply procs_of|].
Qed.
End producer.
