(* ===== verification/RingConcRead.v ===== *)
(** * The consumer of the concurrent ring, and the theorems

    The steps of [Read], [stalled], [unstall] and [reclaim] under the invariant
    of [RingConcInv], and what follows for every run. *)

From stdpp Require Import base numbers sets list list_numbers option relations.
From coqutil Require Import Byte Word.LittleEndianList.
From Stdlib Require Import ZArith Lia Bool.
From S2P Require Import Prelude Ipc Ring RingInv RingSeq Recover RingConc RingConcInv RingConcSim.

(** Claims with an owner are not readable. *)
Lemma owned_elem t pos l a : a ∈ l -> a_own a = Some t -> exists q, (q, a_seg a) ∈ owned t pos l.
Proof.
  revert pos. induction l as [|b l IH]; intros pos Ha Hown; [by apply elem_of_nil in Ha|].
  cbn [owned]. setoid_rewrite elem_of_app. apply elem_of_cons in Ha as [->|Ha].
  - exists pos. left. rewrite decide_True by done. by apply list_elem_of_singleton.
  - destruct (IH (pos + seg_size (a_seg b)) Ha Hown) as [q Hq]. eauto.
Qed.

Lemma shape_open r dead p full q sg :
  pc_local r dead p -> pc_shape (zlen (data r)) p full -> (q, sg) ∈ full -> s_len sg <= 0.
Proof.
  assert (Hnil : forall (x : Z * seg), x ∈ [] -> False) by (intros x; apply not_elem_of_nil).
  destruct p; cbn; intros Hloc Hsh Hin; subst; try (by apply Hnil in Hin).
  - apply elem_of_cons in Hin as [[= -> ->]|[= -> ->]%list_elem_of_singleton]; done.
  - apply elem_of_cons in Hin as [[= -> ->]|[= -> ->]%list_elem_of_singleton]; done.
  - destruct Hsh as (? & _ & ->). by apply list_elem_of_singleton in Hin as [= -> ->].
  - destruct Hsh as (? & _ & ->). by apply list_elem_of_singleton in Hin as [= -> ->].
  - destruct Hsh as (? & ? & _ & _ & ->). apply list_elem_of_singleton in Hin as [= -> ->].
    cbn. pose proof (co_total _ Hloc). lia.
  - destruct Hsh as (? & ? & _ & _ & ->). apply list_elem_of_singleton in Hin as [= -> ->].
    cbn. pose proof (co_total _ Hloc). lia.
  - destruct Hsh as (? & ? & ? & _ & _ & _ & ->). apply list_elem_of_singleton in Hin as [= -> ->].
    cbn. pose proof (co_total _ Hloc). lia.
Qed.

Lemma owned_open s k l a t : inv s k l -> a ∈ l -> a_own a = Some t -> s_len (a_seg a) <= 0.
Proof.
  intros I Ha Hown. destruct (iv_own _ _ _ I a t Ha Hown) as [th Hth].
  destruct (iv_threads _ _ _ I t th Hth) as [_ Hloc _ (full & Hsh & [pre Hsuf] & _)].
  destruct (owned_elem t (start s k) l a Ha Hown) as [q Hq].
  eapply shape_open; [done..|]. rewrite Hsuf, elem_of_app. right. exact Hq.
Qed.

(** A readable claim at the front has no owner. *)
Lemma front_settled s k a rest :
  inv s k (a :: rest) -> 0 < s_len (a_seg a) -> a = mkA (a_seg a) None.
Proof.
  intros I Hlen. destruct a as [sg [t|]]; [|done].
  pose proof (owned_open _ _ _ (mkA sg (Some t)) t I ltac:(by left) eq_refl). cbn in *. lia.
Qed.

(** A program counter with claims holds a slot. *)
Lemma shape_slot cap p full : pc_shape cap p full -> full <> [] -> exists sl, slot_of p = Some sl.
Proof. destruct p; cbn; try done; eauto. Qed.

(** Only the padding in front of a record is followed by a claim of the same
    thread, and it ends its lap. *)
Lemma shape_pad r dead p pre q sg x o :
  0 < zlen (data r) -> (8 | zlen (data r)) ->
  pc_local r dead p -> pc_shape (zlen (data r)) p (pre ++ (q, sg) :: x :: o) ->
  seg_size sg = lap_left (zlen (data r)) q.
Proof.
  intros Hcap Hdvd. destruct p; cbn; try done; intros Hloc Hsh; try (by apply (f_equal length) in Hsh; rewrite length_app in Hsh; cbn in Hsh; lia).
  - destruct Hloc as (_ & H8 & _). destruct (lap_left_spec _ _ Hcap Hdvd H8) as (? & _).
    destruct pre as [|? [|? pre]]; simplify_eq/=; [by rewrite seg_size_zero by lia|by destruct pre].
  - destruct Hloc as (_ & H8 & _). destruct (lap_left_spec _ _ Hcap Hdvd H8) as (? & _).
    destruct pre as [|? [|? pre]]; simplify_eq/=; [|by destruct pre].
    unfold seg_size, RecordHeaderSize. cbn. rewrite zlen_zeros; lia.
  - destruct Hsh as (? & _ & Hsh). apply (f_equal length) in Hsh; rewrite length_app in Hsh; cbn in Hsh; lia.
  - destruct Hsh as (? & _ & Hsh). apply (f_equal length) in Hsh; rewrite length_app in Hsh; cbn in Hsh; lia.
  - destruct Hsh as (? & ? & _ & _ & Hsh). apply (f_equal length) in Hsh; rewrite length_app in Hsh; cbn in Hsh; lia.
  - destruct Hsh as (? & ? & _ & _ & Hsh). apply (f_equal length) in Hsh; rewrite length_app in Hsh; cbn in Hsh; lia.
  - destruct Hsh as (? & ? & ? & _ & _ & _ & Hsh).
    apply (f_equal length) in Hsh; rewrite length_app in Hsh; cbn in Hsh; lia.
Qed.

Section consumer.
Context (s : state) (k : Z) (l : list aseg) (I : inv s k l).

Definition consumed_to (r' : Ring) (c' : cpc) (msgs : list delivery) : state :=
  mkState r' (threads s) c' (gone s) (out s ++ msgs).

Definition csimulated (r' : Ring) (c' : cpc) (msgs : list delivery) : Prop :=
  exists k' l', inv (consumed_to r' c' msgs) k' l' /\
    forall ans, spec_step (procs s) (Consume ans) (abs s l) (abs (consumed_to r' c' msgs) l').

Lemma abs_local c' :
  holds_front (cons s) = false -> holds_front c' = false ->
  abs (consumed_to (ring s) c' []) l = abs s l.
Proof using.
  intros H H'. unfold abs, consumed_to. cbn. rewrite app_nil_r. f_equal.
  destruct c', (cons s); done.
Qed.

(** The consumer moves on without a store. *)
Lemma consume_local c' :
  cons_ok (ring s) (gone s) (threads s) k l c' ->
  holds_front (cons s) = false -> holds_front c' = false -> csimulated (ring s) c' [].
Proof using I.
  intros Hc H H'. exists k, l. split; [by apply inv_consumer_local|].
  intros ans. rewrite abs_local by done. by apply S_quiet.
Qed.

Lemma read_start limit hd :
  cons s = CTail limit hd ->
  csimulated (ring s) (CLen limit hd (tail (hdr (ring s)) -64 hd) 0 0) [].
Proof using I.
  intros E. pose proof (iv_cons _ _ _ I) as Hc. rewrite E in Hc. destruct Hc as [Hk Hhd].
  pose proof (iv_tiles _ _ _ I) as T. pose proof (head_le_tail _ _ _ T). pose proof (t_nowrap _ _ _ T).
  pose proof (t_cache _ _ _ T).
  apply consume_local; [|by rewrite E|done]. cbn. split_and!; [done|done|].
  exists l, []. rewrite app_nil_r. split; [done|]. pose proof (t_tail _ _ _ T). rewrite u64_small; lia.
Qed.

(** What the consumer knows at a record it may read. *)
Lemma read_record limit hd available consumed count :
  cons s = CLen limit hd available consumed count -> consumed < available ->
  let index := Z.land (hd +64 consumed) (mask (ring s)) in
  index = seg_index (ring s) k [] /\
  exists a rest, l = a :: rest /\ loadLength (ring s) index = s_len (a_seg a) /\
    seg_size (a_seg a) <= available - consumed /\ consumed = k /\
    (0 < s_len (a_seg a) -> 8 <= s_len (a_seg a) /\ align (s_len (a_seg a)) = seg_size (a_seg a) /\
       index + seg_size (a_seg a) <= zlen (data (ring s)) /\ seg_size (a_seg a) < 2 ^ 31 /\ 0 <= index).
Proof using I.
  intros E Hlt index. pose proof (iv_cons _ _ _ I) as Hc. rewrite E in Hc.
  destruct Hc as (Hhd & Hk & pre & post & Hl & Hsz).
  pose proof (iv_tiles _ _ _ I) as T. pose proof (head_le_tail _ _ _ T). pose proof (t_nowrap _ _ _ T).
  pose proof (t_cache _ _ _ T). pose proof (t_ok _ _ _ T) as Hok. pose proof (ring_pos _ Hok).
  assert (Hidx : index = seg_index (ring s) k []).
  { unfold index, seg_index. rewrite Hhd, Hk, u64_small, index_ok, segs_size_nil, (ok_cap _ Hok) by (done || lia).
    f_equal. lia. }
  split; [done|]. destruct pre as [|a pre].
  { change (segs_of []) with (@nil seg) in Hsz. rewrite segs_size_nil in Hsz. lia. }
  exists a, (pre ++ post). split; [done|]. rewrite segs_of_cons, segs_size_cons in Hsz.
  pose proof (segs_size_nonneg (segs_of pre)). pose proof (seg_size_ge (a_seg a)).
  rewrite Hl in T. cbn [app] in T. rewrite segs_of_cons in T.
  rewrite Hidx, (tiles_loadLength _ _ [] _ _ T). split_and!; try done; try lia.
  intros Hpos. destruct (tiles_seg_len _ _ [] _ _ T) as (Hlen & Hsm & H8).
  pose proof (tiles_straight _ _ [] _ _ T) as Hst.
  destruct Hlen as [?|(n & Hn & [Hn'|?])]; [lia| |lia].
  assert (0 <= seg_index (ring s) k []) by (unfold seg_index; apply Z.mod_pos_bound; rewrite (ok_cap _ Hok); lia).
  pose proof (Z.div_mod (seg_size (a_seg a)) 8 ltac:(lia)).
  split_and!; try lia. apply align_fits; lia.
Qed.

Lemma len_step limit hd available consumed count r' c' msgs :
  cons s = CLen limit hd available consumed count ->
  read_step (cons s) (ring s) = Some (c', r', msgs) -> csimulated r' c' msgs.
Proof using I.
  intros E Hstep. pose proof (iv_cons _ _ _ I) as Hc. rewrite E in Hc, Hstep. cbn [read_step] in Hstep.
  assert (Hstop : csimulated (ring s) (CStore hd consumed) []).
  { apply consume_local; [|by rewrite E|done]. destruct Hc as (? & ? & _). done. }
  destruct (Z.ltb_spec count limit); [|cbn [andb] in Hstep; by simplify_eq].
  destruct (Z.ltb_spec consumed available) as [Hlt|]; [|cbn [andb] in Hstep; by simplify_eq].
  cbn [andb] in Hstep. destruct (read_record _ _ _ _ _ E Hlt) as (Hidx & a & rest & Hl & Hload & Hsz & Hk & Hpos).
  rewrite Hload in Hstep. destruct (Z.leb_spec (s_len (a_seg a)) 0) as [|Hlen]; [by simplify_eq|].
  destruct (Hpos Hlen) as (H8 & Hal & Hst & Hsm & Hi).
  pose proof (iv_tiles _ _ _ I) as T. pose proof (t_ok _ _ _ T) as Hok. pose proof (ok_max _ Hok).
  pose proof (t_consumed _ _ _ T). pose proof (iv_small _ _ _ I). pose proof (seg_size_ge (a_seg a)).
  assert (Hav : available - consumed <= zlen (data (ring s))).
  { destruct Hc as (_ & _ & pre & post & Hl' & Hsz'). rewrite <-Hsz'.
    pose proof (t_tail _ _ _ T) as Htl. rewrite Hl', segs_of_app, segs_size_app in Htl.
    pose proof (segs_size_nonneg (segs_of post)). pose proof (t_room _ _ _ T). lia. }
  rewrite Hal, u64_Capacity in Hstep by done. unfold RecordHeaderSize in Hstep.
  rewrite (u64_small (available - consumed)), (u64_small (_ + seg_size _)) in Hstep by lia.
  rewrite !(proj2 (Z.ltb_ge _ _)) in Hstep by lia. cbn [orb] in Hstep. simplify_eq.
  apply consume_local; [|by rewrite E|done]. cbn. split; [done|].
  pose proof I as I'. rewrite Hl in I'. apply front_settled in I'; [|done].
  exists (a_seg a). split; [|done]. split_and!; [done|done|]. exists rest. by rewrite <-I'.
Qed.

(** The consumer takes the front record. *)
Lemma take_record c' sg msgs rest :
  l = mkA sg None :: rest -> holds_front (cons s) = false ->
  cons_ok (ring s) (gone s) (threads s) k l c' ->
  match c' with CClear _ _ _ _ _ _ _ => True | _ => False end ->
  msgs = option_list (message sg) -> csimulated (ring s) c' msgs.
Proof using I.
  intros Hl Hh Hc Hc' Hmsg. exists k, l. split; [by apply inv_consumer_local|].
  intros ans. unfold abs, consumed_to. cbn [threads cons out gone ring].
  assert (abs_queue (threads s) (cons s) l = Settled (message sg) :: (abs_entry (threads s) <$> rest)) as ->.
  { rewrite Hl. destruct (cons s); done. }
  assert (abs_queue (threads s) c' l = abs_entry (threads s) <$> rest) as ->.
  { rewrite Hl. destruct c'; done. }
  rewrite Hmsg. apply S_pop.
Qed.

Lemma type_load limit hd available consumed count index length r' c' msgs :
  cons s = CType limit hd available consumed count index length ->
  read_step (cons s) (ring s) = Some (c', r', msgs) -> csimulated r' c' msgs.
Proof using I.
  intros E Hstep. pose proof (iv_cons _ _ _ I) as Hc. rewrite E in Hc, Hstep. cbn [read_step] in Hstep.
  destruct Hc as (Hrd & sg & Hrec & Hlen). pose proof Hrec as (Hidx & Hsz & rest & Hl).
  pose proof (iv_tiles _ _ _ I) as T. rewrite Hl, segs_of_cons in T. cbn [a_seg] in T.
  pose proof (iv_done _ _ _ I (mkA sg None) ltac:(rewrite Hl; by left) eq_refl) as Hpos. cbn in Hpos.
  rewrite Hidx, (tiles_loadType _ _ [] _ _ T) in Hstep.
  destruct (Z.eqb_spec (s_typ sg) TypePadding) as [Hp|Hp]; simplify_eq.
  - destruct (tiles_seg_len _ _ [] _ _ T) as (Hlo & Hsm & H8).
    destruct Hlo as [?|(n & Hn & [Hn'|?])]; [lia| |lia]. pose proof (seg_size_ge sg).
    pose proof (Z.div_mod (seg_size sg) 8 ltac:(lia)).
    pose proof (iv_tiles _ _ _ I) as T2. pose proof (t_consumed _ _ _ T2). pose proof (t_nowrap _ _ _ T2).
    pose proof (t_tail _ _ _ T2) as Htl. pose proof (t_cache _ _ _ T2).
    rewrite Hl, segs_of_cons, segs_size_cons in Htl. cbn [a_seg] in Htl.
    pose proof (segs_size_nonneg (segs_of rest)). destruct Hrd as (Hhd & Hk & Hwin).
    rewrite (align_fits _ (seg_size sg)), u64_small by lia.
    eapply (take_record _ sg); [exact Hl|by rewrite E| |done|].
    + cbn. replace (consumed + seg_size sg - seg_size sg) with consumed by lia. split; [done|]. by exists sg.
    + unfold message. by rewrite Hp, Z.eqb_refl.
  - apply consume_local; [|by rewrite E|done]. cbn. split_and!; [done..|]. by exists sg.
Qed.

Lemma pay_step limit hd available consumed count index length typ r' c' msgs :
  cons s = CPay limit hd available consumed count index length typ ->
  read_step (cons s) (ring s) = Some (c', r', msgs) -> csimulated r' c' msgs.
Proof using I.
  intros E Hstep. pose proof (iv_cons _ _ _ I) as Hc. rewrite E in Hc, Hstep. cbn [read_step] in Hstep.
  destruct Hc as (Hrd & Hnp & sg & Hrec & Hlen & Htyp). pose proof Hrec as (Hidx & Hsz & rest & Hl).
  pose proof (iv_tiles _ _ _ I) as T. rewrite Hl, segs_of_cons in T. cbn [a_seg] in T.
  pose proof (iv_done _ _ _ I (mkA sg None) ltac:(rewrite Hl; by left) eq_refl) as Hpos. cbn in Hpos.
  destruct (tiles_seg_len _ _ [] _ _ T) as (Hlo & Hsm & H8).
  destruct Hlo as [?|(n & Hn & [Hn'|?])]; [lia| |lia]. pose proof (seg_size_ge sg).
  pose proof (Z.div_mod (seg_size sg) 8 ltac:(lia)).
  pose proof (iv_tiles _ _ _ I) as T2. pose proof (t_consumed _ _ _ T2). pose proof (t_nowrap _ _ _ T2).
  pose proof (t_tail _ _ _ T2) as Htl. pose proof (t_cache _ _ _ T2).
  rewrite Hl, segs_of_cons, segs_size_cons in Htl. cbn [a_seg] in Htl.
  pose proof (segs_size_nonneg (segs_of rest)). destruct Hrd as (Hhd & Hk & Hwin).
  rewrite Hlen, Hidx, (tiles_payload _ _ [] _ _ T) in Hstep by lia. simplify_eq.
  rewrite (align_fits _ (seg_size sg)), u64_small by lia.
  eapply (take_record _ sg); [exact Hl|by rewrite E| |done|].
  - cbn. replace (k + seg_size sg - seg_size sg) with k by lia. split; [done|]. by exists sg.
  - unfold message. by rewrite (proj2 (Z.eqb_neq _ _)) by done.
Qed.

(** A record without an owner is replaced or taken away: no thread notices. *)
Lemma owned_settled t pos sg sg' rest :
  seg_size sg' = seg_size sg -> owned t pos (mkA sg' None :: rest) = owned t pos (mkA sg None :: rest).
Proof using. intros H. rewrite !owned_cons_ne by done. cbn. by rewrite H. Qed.

Lemma settled_rewrite r' sg sg' rest c' :
  l = mkA sg None :: rest -> seg_size sg' = seg_size sg -> 0 < s_len sg' ->
  hdr r' = hdr (ring s) -> tiles r' k (sg' :: segs_of rest) ->
  cons_ok r' (gone s) (threads s) k (mkA sg' None :: rest) c' ->
  inv (consumed_to r' c' []) k (mkA sg' None :: rest).
Proof using I.
  intros Hl Hsz Hpos Hh T Hc.
  assert (Hd : zlen (data r') = zlen (data (ring s))).
  { rewrite <-(ok_cap _ (t_ok _ _ _ T)), Hh. apply (iv_tiles _ _ _ I). }
  eapply (inv_consumer s k l); rewrite ?Hh; try done; try lia.
  - intros t th Hth. rewrite Hl. rewrite (owned_settled t _ sg) by done. done.
  - intros t th sl _ _ _. unfold slot. by rewrite Hh.
  - intros a. rewrite Hl, !elem_of_cons. intros [->|?]; [right; done|left; auto].
Qed.

Lemma clear_step limit hd available consumed count index step r' c' msgs :
  cons s = CClear limit hd available consumed count index step ->
  read_step (cons s) (ring s) = Some (c', r', msgs) -> csimulated r' c' msgs.
Proof using I.
  intros E Hstep. pose proof (iv_cons _ _ _ I) as Hc. rewrite E in Hc, Hstep. cbn [read_step] in Hstep.
  destruct Hc as (Hrd & sg & Hrec & ->). pose proof Hrec as (Hidx & Hsz & rest & Hl). simplify_eq.
  pose proof (iv_tiles _ _ _ I) as T. rewrite Hl, segs_of_cons in T. cbn [a_seg] in T.
  pose proof (iv_done _ _ _ I (mkA sg None) ltac:(rewrite Hl; by left) eq_refl) as Hpos. cbn in Hpos.
  pose proof (tiles_clear _ _ [] _ _ T) as T'. cbn [app] in T'.
  set (sg' := mkSeg (s_len sg) 0 (zeros (zlen (s_body sg)))) in *.
  assert (Hsz' : seg_size sg' = seg_size sg)
    by (unfold seg_size; cbn; rewrite zlen_zeros; [done|apply zlen_nonneg]).
  exists k, (mkA sg' None :: rest). split.
  - eapply settled_rewrite; try done. cbn. exists sg'. rewrite Hsz'. split_and!; try done.
    + destruct Hrec as (_ & ? & _). unfold at_record. rewrite Hsz'. split_and!; [done..|]. by exists rest.
    + destruct Hrd as (? & ? & pre & post & Hl' & Hsz''). split_and!; [done..|].
      destruct pre as [|a pre].
      * exists [], (mkA sg' None :: rest). done.
      * rewrite Hl in Hl'. injection Hl' as <- ->. exists (mkA sg' None :: pre), post. split; [done|].
        rewrite segs_of_cons, segs_size_cons in *. cbn [a_seg] in *. lia.
    + cbn. by rewrite zlen_zeros by apply zlen_nonneg.
  - intros ans. unfold abs, consumed_to. cbn [threads cons out gone ring]. rewrite app_nil_r, E, Hl. by apply S_quiet.
Qed.

Lemma zero_step limit hd available consumed count index r' c' msgs :
  cons s = CZero limit hd available consumed count index ->
  read_step (cons s) (ring s) = Some (c', r', msgs) -> csimulated r' c' msgs.
Proof using I.
  intros E Hstep. pose proof (iv_cons _ _ _ I) as Hc. rewrite E in Hc, Hstep. cbn [read_step] in Hstep.
  injection Hstep as <- <- <-.
  destruct Hc as (sg & (Hidx & Hsz & rest & Hl) & (Hhd & Hk & pre & post & Hl' & Hsz') & Htyp & Hbody).
  pose proof (iv_tiles _ _ _ I) as T. rewrite Hl, segs_of_cons in T. cbn [a_seg] in T.
  rewrite Hidx. pose proof (tiles_storeLength _ _ [] _ _ T 0 ltac:(by left)) as T'. cbn [app] in T'.
  rewrite Htyp, Hbody in T'. pose proof (seg_size_ge sg).
  assert (T2 : tiles (storeLength (seg_index (ring s) k []) 0 (ring s)) (k + seg_size sg) (segs_of rest)).
  { apply tiles_absorb; [lia|]. unfold zero_seg.
    replace (seg_size sg - RecordHeaderSize) with (zlen (s_body sg)) by (unfold seg_size; lia). exact T'. }
  assert (Hd : zlen (data (storeLength (seg_index (ring s) k []) 0 (ring s))) = zlen (data (ring s))).
  { rewrite <-(ok_cap _ (t_ok _ _ _ T2)). apply T. }
  exists (k + seg_size sg), rest. split.
  - eapply (inv_consumer s k l); try done.
    + intros t th Hth. cbn. rewrite Hl, owned_cons_ne by done. unfold start. cbn [a_seg].
      replace (head (hdr (ring s)) + (k + seg_size sg)) with (head (hdr (ring s)) + k + seg_size sg) by lia. done.
    + intros a Ha. left. rewrite Hl. by right.
    + cbn. split_and!; [done|lia|]. destruct pre as [|a pre].
      * change (segs_of []) with (@nil seg) in Hsz'. rewrite segs_size_nil in Hsz'. lia.
      * rewrite Hl in Hl'. injection Hl' as <- ->. exists pre, post. split; [done|].
        rewrite segs_of_cons, segs_size_cons in Hsz'. cbn [a_seg] in Hsz'. lia.
  - intros ans. unfold abs, consumed_to. cbn [threads cons out gone ring]. rewrite app_nil_r, E, Hl. by apply S_quiet.
Qed.

Lemma store_step hd consumed r' c' msgs :
  cons s = CStore hd consumed ->
  read_step (cons s) (ring s) = Some (c', r', msgs) -> csimulated r' c' msgs.
Proof using I.
  intros E Hstep. pose proof (iv_cons _ _ _ I) as Hc. rewrite E in Hc, Hstep. cbn [read_step] in Hstep.
  destruct Hc as [Hhd Hk]. pose proof (iv_tiles _ _ _ I) as T. pose proof (head_le_tail _ _ _ T).
  pose proof (t_nowrap _ _ _ T). pose proof (t_consumed _ _ _ T). subst hd consumed. simplify_eq.
  destruct (Z.ltb_spec 0 k) as [Hpos|Hpos].
  - rewrite u64_small by lia. pose proof (tiles_head _ _ _ T) as T'.
    exists 0, l. split.
    + eapply (inv_consumer s k l); try done; [cbn; lia|..].
      * intros t th Hth. cbn. rewrite Z.add_0_r. done.
      * auto.
    + intros ans. unfold abs, consumed_to. cbn [threads cons out gone ring]. rewrite app_nil_r, E. by apply S_quiet.
  - apply consume_local; [|by rewrite E|done]. cbn. lia.
Qed.

(** ** Stalls *)

(** The slot of the owner of the front claim announces it. *)
Lemma front_covers a rest t th sl :
  l = a :: rest -> a_own a = Some t -> threads s !! t = Some th -> slot_of (pc th) = Some sl ->
  let c := slot (ring s) sl in
  0 <= sl < ClaimSlots /\ owner c = proc th /\ proc th <> 0 /\ 0 <= at_ c /\ at_ c <> noIntent /\
  at_ c <= start s k < at_ c + size_ c /\ at_ c + size_ c < 2 ^ 64 /\
  at_ c +64 size_ c = at_ c + size_ c.
Proof using I.
  intros Hl Ha Hth Hsl c. destruct a as [sg own]. cbn in Ha. subst own.
  assert (Hin : (start s k, sg) ∈ owned t (start s k) l) by (rewrite Hl, owned_cons_eq; by left).
  destruct (owned_covers _ _ _ _ _ _ _ _ I Hth Hsl Hin) as (Ho & H0 & Hs & Hw & Hlo & Hhi).
  fold c in Ho, H0, Hs, Hw, Hlo, Hhi. pose proof (iv_threads _ _ _ I t th Hth) as Hok.
  pose proof (seg_size_ge sg). split_and!; try done; try lia.
  - by apply (th_slot _ _ _ _ Hok).
  - by apply (th_slot _ _ _ _ Hok).
  - apply (th_proc _ _ _ _ Hok).
  - unfold noIntent, MaxUint64. lia.
  - apply u64_small. lia.
Qed.

Lemma front_and (P Q : Z -> Z -> Prop) :
  front (threads s) l P ->
  (forall sl p, P sl p -> let c := slot (ring s) sl in
     0 <= sl < ClaimSlots -> owner c = p -> p <> 0 -> 0 <= at_ c -> at_ c <> noIntent ->
     at_ c <= start s k < at_ c + size_ c -> at_ c +64 size_ c = at_ c + size_ c -> Q sl p) ->
  front (threads s) l Q.
Proof using I.
  intros HF HPQ a rest t th sl Hl Ha Hth Hsl.
  destruct (front_covers a rest t th sl Hl Ha Hth Hsl) as (? & ? & ? & ? & ? & ? & ? & ?).
  by apply HPQ; [by eapply HF|..].
Qed.

Lemma scan_next_ok hd length idx found :
  at_stall (ring s) k l hd length -> 0 <= idx < ClaimSlots ->
  front (threads s) l (fun sl _ => sl ∈ found \/ idx < sl) ->
  cons_ok (ring s) (gone s) (threads s) k l (scan_next hd length idx found) /\
  holds_front (scan_next hd length idx found) = false.
Proof using I.
  intros Hst Hidx HF. unfold scan_next. destruct (Z.ltb_spec (idx + 1) ClaimSlots); cbn; split; try done.
  - split_and!; [done|lia..|]. eapply front_and; [exact HF|]. intros sl p [?|?] **; [by left|right; lia].
  - split; [done|]. eapply front_and; [exact HF|]. intros sl p [?|?] **; [by left|lia].
Qed.

Lemma stalled_steps r' c' :
  stalled_step (cons s) (ring s) = Some (c', r') -> csimulated r' c' [].
Proof using I.
  intros Hstep. pose proof (iv_cons _ _ _ I) as Hc. pose proof (iv_tiles _ _ _ I) as T.
  pose proof (t_ok _ _ _ T) as Hok. pose proof (t_tail _ _ _ T) as Htl.
  destruct (cons s) eqn:E; try done; cbn [stalled_step] in Hstep; injection Hstep as <- <-; cbn [cons_ok] in Hc.
  - apply consume_local; [done|by rewrite E|done].
  - destruct Hc as [Hk Hhd]. apply consume_local; rewrite ?E; [|done|by case_match].
    destruct (Z.eqb_spec hd (tail (hdr (ring s)))); cbn; [done|]. split_and!; [done..|].
    intros El. rewrite El in Htl. change (segs_of []) with (@nil seg) in Htl. rewrite segs_size_nil in Htl. lia.
  - destruct Hc as (Hk & Hhd & Hl). apply consume_local; rewrite ?E; [|done|by case_match].
    destruct (Z.ltb_spec 0 (loadLength (ring s) (Z.land hd (mask (ring s))))); cbn; [done|].
    split_and!; try done. eapply (front_and (fun _ _ => True)); [done|]. intros. right. lia.
  - destruct Hc as (Hst & Hidx & HF). pose proof Hst as (Hk & Hhd & _).
    destruct (_ && _) eqn:B.
    + apply consume_local; rewrite ?E; try done. cbn. split_and!; [done|lia..|].
      eapply front_and; [exact HF|]. intros sl p [?|?] **; [by left|].
      destruct (decide (sl = idx)) as [->|]; [right; by right|right; left; lia].
    + assert (HF' : front (threads s) l (fun sl _ => sl ∈ found \/ idx < sl)).
      { eapply front_and; [exact HF|]. intros sl p [?|Hge] c ? ? ? ? Hni Hr ?; [by left|right].
        destruct (decide (sl = idx)) as [->|]; [|lia]. exfalso. unfold start in Hr. fold c in B.
        rewrite (proj2 (Z.eqb_neq _ _) Hni), (proj2 (Z.leb_le _ _)) in B by lia. done. }
      destruct (scan_next_ok hd length idx found Hst Hidx HF'). by apply consume_local; rewrite ?E.
  - destruct Hc as (Hst & Hidx & HF). pose proof Hst as (Hk & Hhd & _).
    assert (HF' : front (threads s) l (fun sl _ =>
      sl ∈ (if hd <? at0 +64 size_ (slot (ring s) idx) then found ++ [idx] else found) \/ idx < sl)).
    { eapply front_and; [exact HF|]. intros sl p [?|[?|[-> ->]]] c ? ? ? ? Hni Hr Hu.
      - left. case_match; rewrite ?elem_of_app; auto.
      - by right.
      - left. fold c. rewrite Hu, (proj2 (Z.ltb_lt _ _)) by (unfold start in Hr; lia).
        rewrite elem_of_app, list_elem_of_singleton. auto. }
    destruct (scan_next_ok hd length idx _ Hst Hidx HF'). by apply consume_local; rewrite ?E.
Qed.

Lemma judge_steps self ans r' c' :
  judge_step ans (gone s) self (cons s) (ring s) = Some (c', r') -> csimulated r' c' [].
Proof using I.
  intros Hstep. pose proof (iv_cons _ _ _ I) as Hc.
  destruct (cons s) as [| | | | | | | | | | | | | | |st idxs dead end_|st idx idxs dead end_ own
    |st idx idxs dead end_ own at0|st idx idxs dead end_ own range_end| | | |] eqn:E; try done;
    cbn [judge_step cons_ok] in Hstep, Hc; destruct Hc as [Hst HF]; pose proof Hst as (Hk & Hhd & Hl & Hlen).
  - destruct idxs as [|idx idxs]; injection Hstep as <- <-; apply consume_local; rewrite ?E; try done.
    + by case_match.
    + by case_match.
    + cbn. split; [done|]. eapply front_and; [exact HF|]. intros sl p [Hin|?] **; [|left; by right].
      apply elem_of_cons in Hin as [->|?]; [by right|left; by left].
  - injection Hstep as <- <-. apply consume_local; rewrite ?E; try done. cbn. split; [done|].
    eapply front_and; [exact HF|]. intros sl p [?|[-> ->]] **; [by left|by right].
  - injection Hstep as <- <-. apply consume_local; rewrite ?E; [|done|by repeat case_match].
    destruct (_ || (_ <=? _)) eqn:B; [|case_match; [done|]]; cbn; (split; [done|]);
      (eapply front_and; [exact HF|]); intros sl p [?|(-> & Ho & Ha)] c ? Hown Hp0 ? Hni Hr Hu; try by auto.
    + exfalso. unfold start in Hr. fold c in B, Ho, Ha. rewrite Ho, Ha, Hu in B.
      unfold noProc in B. rewrite !(proj2 (Z.eqb_neq _ _)) in B by (done || congruence).
      rewrite (proj2 (Z.ltb_ge _ _)), (proj2 (Z.leb_gt _ _)) in B by lia. done.
    + right. fold c in Ho, Ha |- *. rewrite Ha. done.
  - destruct ans; [|injection Hstep as <- <-; by apply consume_local; rewrite ?E].
    case_bool_decide as Hgone; [|done]. injection Hstep as <- <-.
    apply consume_local; rewrite ?E; [|done|by case_match].
    destruct (_ && _) eqn:B; [done|]. cbn. split; [done|].
    eapply front_and; [exact HF|]. intros sl p [[?|(Hd & Hg & He)]|(-> & Ho & He)] c ? Hown **.
    + by left.
    + right. rewrite elem_of_app. split_and!; [by left|done|].
      assert (0 < zlen dead) by (destruct dead; [by apply elem_of_nil in Hd|rewrite zlen_cons; pose proof (zlen_nonneg dead); lia]).
      rewrite (proj2 (Z.ltb_lt _ _)) in B by done. cbn [andb] in B.
      apply negb_false_iff, Z.eqb_eq in B. lia.
    + right. rewrite elem_of_app, list_elem_of_singleton. split_and!; [by right|rewrite <-Hown; unfold c; by rewrite <-Ho|done].
Qed.

(** ** Reclaiming *)

Lemma stall_index hd : k = 0 -> hd = head (hdr (ring s)) -> Z.land hd (mask (ring s)) = seg_index (ring s) k [].
Proof using I.
  intros -> ->. pose proof (t_ok _ _ _ (iv_tiles _ _ _ I)) as Hok.
  unfold seg_index. rewrite index_ok, segs_size_nil, (ok_cap _ Hok) by done. f_equal. lia.
Qed.

(** The reader reclaims exactly the front claim of a dead producer. *)
Lemma reclaim_exact st sg t rest th sl :
  at_stall (ring s) k l (st_at st) (st_length st) -> l = mkA sg (Some t) :: rest ->
  threads s !! t = Some th -> slot_of (pc th) = Some sl ->
  reclaim_size (ring s) st (at_ (slot (ring s) sl) + size_ (slot (ring s) sl)) = seg_size sg.
Proof using I.
  intros (Hk & Hat & _) Hl Hth Hsl.
  destruct (front_covers _ _ _ _ _ Hl eq_refl Hth Hsl) as (_ & _ & _ & H0 & _ & Hcov & Hw & _).
  pose proof (iv_tiles _ _ _ I) as T. pose proof (t_ok _ _ _ T) as Hok. pose proof (ring_pos _ Hok) as Hcap.
  pose proof (t_cache _ _ _ T). pose proof (iv_small _ _ _ I).
  rewrite Hl, segs_of_cons in T. cbn [a_seg] in T.
  pose proof (tiles_straight _ _ [] _ _ T) as Hst. pose proof (seg_size_ge sg).
  unfold reclaim_size. rewrite (stall_index _ Hk Hat), u64_Capacity, Hat by done.
  assert (Hstart : start s k = head (hdr (ring s))) by (unfold start; lia). rewrite Hstart in Hcov.
  assert (0 <= seg_index (ring s) k []) by (unfold seg_index; apply Z.mod_pos_bound; rewrite (ok_cap _ Hok); lia).
  rewrite !u64_small by lia.
  assert (Hlap : zlen (data (ring s)) - seg_index (ring s) k [] = lap_left (zlen (data (ring s))) (head (hdr (ring s)))).
  { unfold lap_left. rewrite (seg_index_eq _ _ [] _ _ T), segs_size_nil. do 2 f_equal. lia. }
  destruct (iv_threads _ _ _ I t th Hth) as [_ Hloc _ (full & Hsh & [pre Hsuf] & _ & Hint)].
  rewrite Hl, owned_cons_eq, Hstart in Hsuf, Hint.
  destruct (Hint sl Hsl ltac:(by right)) as [_ Hi].
  apply (shape_covers _ _ _ _ Hsh) in Hi as (_ & _ & _ & Hall & Hlast); [|rewrite Hsuf; by destruct pre].
  destruct (owned t (head (hdr (ring s)) + seg_size sg) rest) as [|[q2 sg2] o] eqn:Eo.
  - specialize (Hlast pre _ _ Hsuf). rewrite (proj2 (Z.ltb_ge _ _)) by lia. lia.
  - rewrite Hsuf in Hsh. pose proof (shape_pad _ _ _ _ _ _ _ _ Hcap (ok_dvd _ Hok) Hloc Hsh) as Hpad.
    destruct (owned_bounds t (head (hdr (ring s)) + seg_size sg) rest q2 sg2) as [Hq2 _];
      [rewrite Eo; by left|].
    destruct (Hall q2 sg2) as [_ Hend]; [rewrite Hsuf, elem_of_app; right; right; by left|].
    pose proof (seg_size_ge sg2). rewrite (proj2 (Z.ltb_lt _ _)) by lia. lia.
Qed.

Lemma entry_owner_abs ths sg t : entry_owner (abs_entry ths (mkA sg (Some t))) = Some t.
Proof using. unfold abs_entry. cbn. by destruct (pc <$> ths !! t) as [[]|]. Qed.

Lemma swap_step st end_ dead r' c' :
  cons s = RCas st end_ dead ->
  reclaim_step (cons s) (ring s) = Some (c', r') -> csimulated r' c' [].
Proof using I.
  intros E Hstep. pose proof (iv_cons _ _ _ I) as Hc. rewrite E in Hc, Hstep. cbn [reclaim_step] in Hstep.
  destruct Hc as [Hst HF]. pose proof Hst as (Hk & Hat & Hne & Hlen).
  assert (Hex : exists sg own rest, l = mkA sg own :: rest)
    by (clear -Hne; destruct l as [|[sg own] rest]; [done|eauto]).
  destruct Hex as (sg & own & rest & El).
  pose proof (iv_tiles _ _ _ I) as T. pose proof (t_ok _ _ _ T) as Hok.
  rewrite El, segs_of_cons in T. cbn [a_seg] in T.
  unfold casLength in Hstep. rewrite (stall_index _ Hk Hat), (tiles_loadLength _ _ [] _ _ T) in Hstep.
  destruct (Z.eqb_spec (s_len sg) (st_length st)) as [Heq|]; injection Hstep as <- <-;
    [|by apply consume_local; rewrite ?E].
  destruct own as [t|].
  2:{ pose proof (iv_done _ _ _ I (mkA sg None) ltac:(rewrite El; by left) eq_refl) as H. cbn in H. lia. }
  destruct (iv_own _ _ _ I (mkA sg (Some t)) t ltac:(rewrite El; by left) eq_refl) as [th Hth].
  assert (Hsl : exists sl, slot_of (pc th) = Some sl).
  { destruct (th_full _ _ _ _ (iv_threads _ _ _ I t th Hth)) as (full & Hsh & [pre Hsuf] & _).
    apply (shape_slot _ _ _ Hsh). rewrite Hsuf, El, owned_cons_eq. by destruct pre. }
  destruct Hsl as [sl Hsl].
  destruct (HF _ _ _ _ _ El eq_refl Hth Hsl) as [?|(_ & Hgone & Hend)]; [by apply elem_of_nil in H|].
  subst end_. rewrite (reclaim_exact st sg t rest th sl Hst El Hth Hsl).
  destruct (tiles_seg_len _ _ [] _ _ T) as (_ & Hsm & _). pose proof (seg_size_ge sg).
  rewrite i32_small by lia.
  pose proof (tiles_storeLength _ _ [] _ _ T (seg_size sg)) as T'. cbn [app] in T'.
  specialize (T' ltac:(right; exists (seg_size sg); unfold seg_size in *; cbn [s_body s_len] in *; lia)).
  set (sg' := mkSeg (seg_size sg) (s_typ sg) (s_body sg)) in *.
  assert (Hd : zlen (data (storeLength (seg_index (ring s) k []) (seg_size sg) (ring s))) = zlen (data (ring s))).
  { rewrite <-(ok_cap _ (t_ok _ _ _ T')). apply T. }
  exists k, (mkA sg' None :: rest). split.
  - eapply (inv_consumer s k l); try done.
    + intros t' th' Hth'. rewrite El, owned_cons_ne by done. cbn [a_seg].
      change (seg_size sg') with (seg_size sg). change (head (hdr (storeLength _ _ _)) + k) with (start s k).
      destruct (decide (t' = t)) as [->|Hne'].
      * rewrite owned_cons_eq. split; [by apply suffix_cons_r|]. intros Hal. congruence.
      * by rewrite owned_cons_ne by (cbn; congruence).
    + intros a. rewrite El, !elem_of_cons. intros [->|?]; [right; cbn; split; [done|lia]|left; auto].
    + cbn. split_and!; try done. by exists sg', rest.
  - intros ans. unfold abs, consumed_to. cbn [threads cons out gone ring]. rewrite app_nil_r, E, El.
    cbn [abs_queue fmap list_fmap drop]. eapply S_reclaim; [apply entry_owner_abs| |exact Hgone].
    unfold procs. by rewrite list_lookup_fmap, Hth.
Qed.

Lemma retype_step st end_ dead size r' c' :
  cons s = RType st end_ dead size ->
  reclaim_step (cons s) (ring s) = Some (c', r') -> csimulated r' c' [].
Proof using I.
  intros E Hstep. pose proof (iv_cons _ _ _ I) as Hc. rewrite E in Hc, Hstep. cbn [reclaim_step] in Hstep.
  destruct Hc as (Hk & Hat & sg & rest & Hl & ->). injection Hstep as <- <-.
  pose proof (iv_tiles _ _ _ I) as T. pose proof (t_cache _ _ _ T). pose proof (t_nowrap _ _ _ T).
  pose proof (t_tail _ _ _ T) as Htl. rewrite Hl, segs_of_cons in T, Htl. cbn [a_seg] in T, Htl.
  rewrite segs_size_cons in Htl. pose proof (segs_size_nonneg (segs_of rest)). pose proof (seg_size_ge sg).
  pose proof (iv_done _ _ _ I (mkA sg None) ltac:(rewrite Hl; by left) eq_refl) as Hpos. cbn in Hpos.
  rewrite (stall_index _ Hk Hat), Hat, u64_small by lia.
  pose proof (tiles_storeType _ _ [] _ _ T TypePadding ltac:(unfold TypePadding; lia)) as T'. cbn [app] in T'.
  exists k, (mkA (mkSeg (s_len sg) TypePadding (s_body sg)) None :: rest). split.
  - eapply settled_rewrite; try done. cbn. split; [done|].
    destruct (Z.eqb_spec (head (hdr (ring s)) + seg_size sg) end_); [right|by left]. by eexists _, rest.
  - intros ans. unfold abs, consumed_to. cbn [threads cons out gone ring]. rewrite app_nil_r, E, Hl. by apply S_quiet.
Qed.

Lemma slot_store_other i v sl r : Z.to_nat sl <> Z.to_nat i -> slot (store_at i v r) sl = slot r sl.
Proof using. intros H. unfold slot, store_at, upd_slot. cbn. by rewrite list_lookup_alter_ne by congruence. Qed.

Lemma slots_step end_ dead r' c' :
  cons s = RSlots end_ dead -> clean (Consume true) s ->
  reclaim_step (cons s) (ring s) = Some (c', r') -> csimulated r' c' [].
Proof using I.
  intros E Hclean Hstep. pose proof (iv_cons _ _ _ I) as Hc. rewrite E in Hc, Hstep. cbn [reclaim_step] in Hstep.
  destruct Hc as (Hk & Hdead). destruct dead as [|idx dead]; injection Hstep as <- <-.
  { by apply consume_local; rewrite ?E. }
  destruct Hdead as [?|(sg & rest & Hl & Hend)]; [done|].
  destruct (Hclean end_ idx dead E) as [Hgone Hpass].
  exists k, l. split.
  - eapply (inv_consumer s k l); try done.
    + eapply tiles_hdr; [apply (iv_tiles _ _ _ I)|done..|]. apply (iv_tiles _ _ _ I).
    + cbn. unfold zlen. by rewrite length_alter.
    + intros t th sl Hth Hsl Hact. apply slot_store_other. intros Heq.
      assert (Hs : slot (ring s) sl = slot (ring s) idx) by (unfold slot; by rewrite Heq).
      rewrite <-Hs in Hgone, Hpass. change (head (hdr (store_at _ _ _)) + k) with (start s k) in Hact.
      destruct (th_full _ _ _ _ (iv_threads _ _ _ I t th Hth)) as (full & _ & _ & _ & Hint).
      destruct (Hint sl Hsl Hact) as [Ho _]. destruct Hact as [Ha|Ha]; [by rewrite Ho in Hgone|].
      destruct (owned t (start s k) l) as [|[q sg2] o] eqn:Eo; [done|].
      assert (Hin : (q, sg2) ∈ owned t (start s k) l) by (rewrite Eo; by left).
      pose proof (owned_not_passed _ _ _ _ _ _ _ _ _ I Hth Hsl Hin Hpass).
      rewrite Hl, owned_cons_ne in Hin by done. apply owned_bounds in Hin. unfold start in Hin. cbn in Hin. lia.
    + auto.
    + cbn. split; [done|]. right. by exists sg, rest.
  - intros ans. unfold abs, consumed_to. cbn [threads cons out gone ring]. rewrite app_nil_r, E. by apply S_quiet.
Qed.
End consumer.

(** ** Every step is a step of the abstract queue *)

Lemma run_simulated s k l t th ans p' r' :
  inv s k l -> threads s !! t = Some th -> proc th ∉ gone s -> clean (Run t ans) s ->
  producer_step ans (gone s) (proc th) (pc th) (ring s) = Some (p', r') ->
  simulated s k l t th (Run t ans) r' p'.
Proof.
  intros I Hth Hal Hclean Hstep. unfold producer_step in Hstep.
  assert (Hquiet : inv (moved s t th r' p') k l /\ abs (moved s t th r' p') l = abs s l ->
    simulated s k l t th (Run t ans) r' p').
  { intros [Hi Ha]. exists l. split; [done|]. rewrite Ha. by apply S_quiet. }
  destruct (claim_step (pc th) (ring s)) as [[p1 r1]|] eqn:Hc.
  2:{ apply Hquiet. by eapply acquire_quiet. }
  injection Hstep as -> ->. pose proof Hc as Hc0. destruct (pc th) eqn:E; cbn [claim_step] in Hc; try done;
    try (apply Hquiet; eapply claim_quiet; rewrite ?E; done).
  - destruct (Z.eqb_spec (tail (hdr (ring s))) tl) as [Htl|Htl].
    + by eapply cas_step; rewrite ?E.
    + apply Hquiet. eapply claim_quiet; rewrite ?E; done.
  - injection Hc as <- <-. by eapply pad_type_step.
  - injection Hc as <- <-. by eapply pad_len_step.
  - injection Hc as <- <-. by eapply type_step.
  - injection Hc as <- <-. by eapply neg_step.
  - injection Hc as <- <-. by eapply abort_step.
  - injection Hc as <- <-. by eapply commit_step.
Qed.

Lemma do_simulated s k l t th cmd p' r' :
  inv s k l -> threads s !! t = Some th -> proc th ∉ gone s ->
  command_step cmd (pc th) (ring s) = Some (p', r') ->
  simulated s k l t th (Do t cmd) r' p'.
Proof.
  intros I Hth Hal Hstep.
  assert (Hquiet : match cmd with Acquire | Drop | Call _ _ => True | _ => False end ->
    simulated s k l t th (Do t cmd) r' p').
  { intros Hq. destruct (command_quiet s k l I t th Hth Hal cmd p' r' Hstep Hq) as [Hi Ha].
    exists l. split; [done|]. rewrite Ha. apply S_quiet. by destruct cmd. }
  destruct cmd; try (by apply Hquiet).
  - destruct (pc th) eqn:E; try done. rewrite <-E in Hstep. by eapply fill_step.
  - destruct (pc th) eqn:E; try done. rewrite <-E in Hstep. by eapply finish_step.
Qed.

Lemma consume_simulated s k l self ans c' r' msgs :
  inv s k l -> clean (Consume ans) s ->
  consumer_step ans (gone s) self (cons s) (ring s) = Some (c', r', msgs) -> csimulated s l r' c' msgs.
Proof.
  intros I Hclean Hstep. unfold consumer_step in Hstep.
  destruct (read_step (cons s) (ring s)) as [[[c1 r1] m1]|] eqn:Hr.
  - injection Hstep as -> -> ->. pose proof (iv_cons _ _ _ I) as Hc. destruct (cons s) eqn:E; try done; rewrite <-E in Hr.
    + rewrite E in Hr. cbn in Hr. injection Hr as <- <- <-. apply (consume_local s k); rewrite ?E; done.
    + pose proof Hr as Hr0. rewrite E in Hr0. cbn in Hr0. injection Hr0 as <- <- <-. by eapply read_start.
    + by eapply len_step.
    + by eapply type_load.
    + by eapply pay_step.
    + by eapply clear_step.
    + by eapply zero_step.
    + by eapply store_step.
  - destruct (stalled_step (cons s) (ring s)) as [[c1 r1]|] eqn:Hs.
    { injection Hstep as -> -> <-. by eapply stalled_steps. }
    destruct (judge_step ans (gone s) self (cons s) (ring s)) as [[c1 r1]|] eqn:Hj.
    { injection Hstep as -> -> <-. by eapply judge_steps. }
    destruct (reclaim_step (cons s) (ring s)) as [[c1 r1]|] eqn:Hm; [|done].
    injection Hstep as -> -> <-. pose proof Hm as Hm0. destruct (cons s) eqn:E; try done; rewrite <-E in Hm0.
    + by eapply swap_step.
    + by eapply retype_step.
    + by eapply slots_step.
    + rewrite E in Hm0. cbn in Hm0. injection Hm0 as <- <-. pose proof (iv_cons _ _ _ I) as Hk. rewrite E in Hk. apply (consume_local s k); rewrite ?E; done.
Qed.

Lemma step_simulated self a s s' k l :
  inv s k l -> clean a s -> step self a s = Some s' ->
  exists k' l', inv s' k' l' /\ spec_step (procs s) a (abs s l) (abs s' l') /\ procs s' = procs s.
Proof.
  intros I Hclean Hstep.
  assert (Hprocs : forall t th p, threads s !! t = Some th ->
    proc <$> <[t := mkThread (proc th) p]> (threads s) = proc <$> threads s).
  { intros t th p Hth. rewrite list_fmap_insert. cbn. apply list_insert_id. by rewrite list_lookup_fmap, Hth. }
  destruct a as [t ans|t cmd|p|limit| |ans]; cbn [step] in Hstep.
  - destruct (threads s !! t) as [th|] eqn:Hth; [|done].
    unfold alive in Hstep. case_bool_decide as Hal; [|done].
    destruct (producer_step _ _ _ _ _) as [[p' r']|] eqn:Hp; [|done]. injection Hstep as <-.
    destruct (run_simulated s k l t th ans p' r' I Hth Hal Hclean Hp) as (l' & Hi & Hs).
    exists k, l'. split_and!; [done|done|]. by apply Hprocs.
  - destruct (threads s !! t) as [th|] eqn:Hth; [|done].
    unfold alive in Hstep. case_bool_decide as Hal; [|done].
    destruct (command_step _ _ _) as [[p' r']|] eqn:Hp; [|done]. injection Hstep as <-.
    destruct (do_simulated s k l t th cmd p' r' I Hth Hal Hp) as (l' & Hi & Hs).
    exists k, l'. split_and!; [done|done|]. by apply Hprocs.
  - injection Hstep as <-. exists k, l. split_and!; [by apply inv_die|apply S_die|done].
  - pose proof (iv_cons _ _ _ I) as Hc. destruct (cons s) eqn:E; try done. injection Hstep as <-.
    exists k, l. split_and!; [|by unfold abs; cbn; rewrite E; case_match; apply S_quiet|done].
    apply inv_consumer_local; [done|]. by case_match.
  - pose proof (iv_cons _ _ _ I) as Hc. destruct (cons s) eqn:E; try done. injection Hstep as <-.
    exists k, l. split_and!; [by apply inv_consumer_local|by unfold abs; cbn; rewrite E; apply S_quiet|done].
  - destruct (consumer_step _ _ _ _ _) as [[[c' r'] msgs]|] eqn:Hc; [|done]. injection Hstep as <-.
    destruct (consume_simulated s k l self ans c' r' msgs I Hclean Hc) as (k' & l' & Hi & Hs).
    exists k', l'. split_and!; [done|apply Hs|done].
Qed.
