(* ===== verification/RingConcThm.v ===== *)
(** * What every run of the concurrent ring satisfies

    The refinement theorem for runs up to the first of two races, what it says
    about a ring at rest, that runs without deaths have no such race, and the two
    runs in which a race wedges the queue. *)

From stdpp Require Import base numbers sets list list_numbers option.
From coqutil Require Import Byte Word.LittleEndianList.
From Stdlib Require Import ZArith Lia Bool.
From S2P Require Import Prelude Ipc Ring RingInv RingSeq Recover RingConc RingConcInv RingConcSim RingConcRead.

(** ** Runs *)

(** A formatted ring, no thread with a slot, the consumer at rest. *)
Record initial (s : state) : Prop := {
  in_ring : tiles (ring s) 0 [];
  in_small : zlen (data (ring s)) <= 2 ^ 31;
  in_slots : zlen (slots (hdr (ring s))) = ClaimSlots;
  in_threads : Forall (fun th => proc th <> 0 /\ pc th = PNone) (threads s);
  in_cons : cons s = CIdle;
  in_gone : gone s = [];
  in_out : out s = [] }.

Fixpoint clean_run (self : Z) (acts : list action) (s : state) : Prop :=
  match acts with
  | [] => True
  | a :: acts =>
      clean a s /\ match step self a s with Some s => clean_run self acts s | None => True end
  end.

Inductive spec_run (procs : list Z) : list action -> spec -> spec -> Prop :=
| spec_done A : spec_run procs [] A A
| spec_more a acts A B C :
    spec_step procs a A B -> spec_run procs acts B C -> spec_run procs (a :: acts) A C.

Lemma initial_inv s : initial s -> inv s 0 [] /\ abs s [] = mkSpec [] [] [].
Proof.
  intros [T Hsm Hn Hths Hc Hg Ho]. rewrite Forall_lookup in Hths. split.
  - split; try done.
    + intros a Ha. by apply elem_of_nil in Ha.
    + intros a t Ha. by apply elem_of_nil in Ha.
    + intros t th Hth. destruct (Hths t th Hth) as [Hp Hpc]. split; rewrite ?Hpc; try done.
      exists []. by split_and!.
    + intros t t' th th' sl H1 _ Hsl. destruct (Hths t th H1) as [_ Hpc]. by rewrite Hpc in Hsl.
    + rewrite Hc. done.
  - unfold abs. by rewrite Hc, Hg, Ho.
Qed.

Lemma run_simulated_inv self acts s s' k l :
  inv s k l -> run self acts s = Some s' -> clean_run self acts s ->
  exists k' l', inv s' k' l' /\ spec_run (procs s) acts (abs s l) (abs s' l').
Proof.
  revert s k l. induction acts as [|a acts IH]; intros s k l I Hrun Hclean; cbn in Hrun, Hclean.
  - injection Hrun as <-. exists k, l. split; [done|]. constructor.
  - destruct Hclean as [Ha Hclean]. destruct (step self a s) as [s1|] eqn:Hs; [|done].
    destruct (step_simulated self a s s1 k l I Ha Hs) as (k1 & l1 & I1 & Hs1 & Hp).
    destruct (IH s1 k1 l1 I1 Hrun Hclean) as (k' & l' & I' & Hr). rewrite Hp in Hr.
    exists k', l'. split; [done|]. by econstructor.
Qed.

(** What a run that is simulated shows: the abstract queue passed the same messages and
    lost the same processes, and no read reported [ErrCorrupt]. *)
Definition refines (self : Z) (acts : list action) (s0 s : state) : Prop :=
  exists A, spec_run (procs s0) acts (mkSpec [] [] []) A /\
    passed A = out s /\ lost A = gone s /\ cons s <> CCorrupt.

Lemma clean_refines self acts s0 s :
  initial s0 -> run self acts s0 = Some s -> clean_run self acts s0 -> refines self acts s0 s.
Proof.
  intros Hin Hrun Hclean. destruct (initial_inv s0 Hin) as [I Ha].
  destruct (run_simulated_inv self acts s0 s 0 [] I Hrun Hclean) as (k & l & I' & Hr).
  rewrite Ha in Hr. exists (abs s l). split_and!; try done.
  intros E. pose proof (iv_cons _ _ _ I') as Hc. by rewrite E in Hc.
Qed.

(** The messages of claims that are all settled. *)
Definition settled_messages (q : list entry) : list delivery :=
  mjoin ((fun e => match e with Settled m => option_list m | _ => [] end) <$> q).

Lemma idle_unowned s k l :
  inv s k l -> Forall (fun th => pc th = PNone \/ exists sl, pc th = PIdle sl) (threads s) ->
  forall a, a ∈ l -> a_own a = None.
Proof.
  intros I Hidle a Ha. destruct (a_own a) as [t|] eqn:Hown; [exfalso|done].
  destruct (iv_own _ _ _ I a t Ha Hown) as [th Hth].
  destruct (th_full _ _ _ _ (iv_threads _ _ _ I t th Hth)) as (full & Hsh & [pre Hsuf] & _).
  destruct (owned_elem t (start s k) l a Ha Hown) as [q Hq].
  assert (full = []) as ->.
  { rewrite Forall_lookup in Hidle. destruct (Hidle t th Hth) as [E|[sl E]]; rewrite E in Hsh; done. }
  symmetry in Hsuf. apply app_nil in Hsuf as [_ E]. rewrite E in Hq. by apply elem_of_nil in Hq.
Qed.

Lemma deliver_message s : deliver s = option_list (message s).
Proof. unfold deliver, message. by case_match. Qed.

(** C6: When the producers and the consumer are at rest after a run in which
    neither of the two races of [race] occurred ([clean_run]), the memory of the
    ring holds exactly the messages of the abstract queue that were not passed
    yet: the concurrent runs and the sequential operations agree on what the ring
    contains. A run without deaths has no race ([nobody_run]). *)
Theorem ring_at_rest self acts s0 s :
  initial s0 -> run self acts s0 = Some s -> clean_run self acts s0 ->
  cons s = CIdle -> Forall (fun th => pc th = PNone \/ exists sl, pc th = PIdle sl) (threads s) ->
  exists A, spec_run (procs s0) acts (mkSpec [] [] []) A /\ passed A = out s /\
    Forall (fun e => entry_owner e = None) (claims A) /\ holds (ring s) (settled_messages (claims A)).
Proof.
  intros Hin Hrun Hclean Hc Hidle. destruct (initial_inv s0 Hin) as [I Ha].
  destruct (run_simulated_inv self acts s0 s 0 [] I Hrun Hclean) as (k & l & I' & Hr). rewrite Ha in Hr.
  pose proof (idle_unowned s k l I' Hidle) as Hno.
  assert (Hq : claims (abs s l) = (fun a => Settled (message (a_seg a))) <$> l).
  { unfold abs. rewrite Hc. cbn. apply list_fmap_ext. intros i a Hx%list_elem_of_lookup_2.
    unfold abs_entry. by rewrite Hno. }
  exists (abs s l). split_and!; [done|done|rewrite Hq; apply Forall_fmap, Forall_true; done|].
  exists (segs_of l). pose proof (iv_cons _ _ _ I') as Hk. rewrite Hc in Hk. cbn in Hk. subst k. split_and!.
  - apply I'.
  - unfold segs_of. apply Forall_fmap, Forall_lookup. intros i a Hx%list_elem_of_lookup_2. cbn.
    apply (iv_done _ _ _ I' a Hx). by apply Hno.
  - unfold settled_messages. rewrite Hq. unfold segs_of. rewrite <-!list_fmap_compose. f_equal.
    apply list_fmap_ext. intros i a _. cbn. apply deliver_message.
Qed.

(** ** A producer alone *)

Fixpoint claim_steps (n : nat) (p : ppc) (r : Ring) : option (ppc * Ring) :=
  match n with
  | O => Some (p, r)
  | S n => match claim_step p r with Some (p, r) => claim_steps n p r | None => None end
  end.

(** The accesses from the stores of the intent to the end of [tryClaim]. *)
Lemma take_steps sl c tl need r :
  0 <= sl -> tail (hdr r) = tl -> tl + need < 2 ^ 64 ->
  match claim_take sl (k_aligned c) tl need r with
  | Claimed r1 index => exists n,
      claim_steps n (PSize sl c tl need) r =
      Some (PClaim sl c index, storeLength index (i32 (- k_total c)) (storeType index (k_typ c) r1))
  | _ => False
  end.
Proof.
  intros Hsl Htl Hw. unfold claim_take. rewrite (proj2 (Z.leb_le 0 sl)) by done.
  destruct (need =? k_aligned c) eqn:E; cbn [negb].
  - exists 5%nat. cbn [claim_steps claim_step]. cbn [hdr set_hdr store_at store_size upd_slot with_slots tail].
    rewrite Htl, Z.eqb_refl, (proj2 (Z.ltb_lt _ _)), E by done. done.
  - exists 7%nat. cbn [claim_steps claim_step]. cbn [hdr set_hdr store_at store_size upd_slot with_slots tail].
    rewrite Htl, Z.eqb_refl, (proj2 (Z.ltb_lt _ _)), E by done. done.
Qed.

(** A producer that runs [tryClaim] undisturbed, access by access, does to
    the shared memory what the sequential [tryClaim] does, and ends with the same
    claim or with [ErrFull]: the two models of [tryClaim] agree. *)
Theorem claim_steps_tryClaim sl typ length r r' res :
  0 <= sl -> typ <> TypePadding -> 0 <= length <= MaxMessageSize r ->
  let c := mkCall typ (i32 (RecordHeaderSize + length)) (align (i32 (RecordHeaderSize + length))) in
  tail (hdr r) + pass_need r c (tail (hdr r)) < 2 ^ 64 ->
  tryClaim 1 sl typ length r = Some (r', res) ->
  exists n, claim_steps n (PTail sl c) r =
    Some (match res with Ok cl => PClaim sl c (c_index cl) | Err _ => PIdle sl end, r') /\
    match res with Ok cl => c_total cl = k_total c /\ c_slot cl = sl | Err e => e = ErrFull end.
Proof.
  intros Hsl Htyp Hlen c Hw. unfold tryClaim.
  rewrite (proj2 (Z.eqb_neq typ TypePadding)) by done.
  rewrite (proj2 (Z.ltb_ge length 0)), (proj2 (Z.ltb_ge (MaxMessageSize r) length)) by lia. cbn [orb claim_loop].
  change (align (i32 (RecordHeaderSize + length))) with (k_aligned c).
  unfold claim_pass. fold (pass_index r (tail (hdr r))). fold (pass_toEnd r (tail (hdr r))).
  fold (pass_need r c (tail (hdr r))). set (need := pass_need r c (tail (hdr r))) in *.
  assert (Hgo : forall r0, tail (hdr r0) = tail (hdr r) ->
    match (match claim_take sl (k_aligned c) (tail (hdr r)) need r0 with
           | Retry => None | a => Some a end) with
    | Some (Claimed r1 index) =>
        Some (storeLength index (i32 (- k_total c)) (storeType index (k_typ c) r1),
              Ok (mkClaim index (k_total c) sl)) = Some (r', res)
    | Some (Full r1) => Some (r1, Err ErrFull) = Some (r', res)
    | _ => None = Some (r', res)
    end ->
    exists n, claim_steps n (PSize sl c (tail (hdr r)) need) r0 =
      Some (match res with Ok cl => PClaim sl c (c_index cl) | Err _ => PIdle sl end, r') /\
      match res with Ok cl => c_total cl = k_total c /\ c_slot cl = sl | Err e => e = ErrFull end).
  { intros r0 Ht. pose proof (take_steps sl c (tail (hdr r)) need r0 Hsl Ht Hw) as Hts.
    destruct (claim_take sl (k_aligned c) (tail (hdr r)) need r0) as [| |r1 index]; try done.
    destruct Hts as [n Hn]. intros [= <- <-]. exists n. by rewrite Hn. }
  destruct (hasRoom (tail (hdr r)) (headCache (hdr r)) (u64 (Capacity r)) need) eqn:R1; cbn [negb].
  - intros H. destruct (Hgo r eq_refl) as (n & Hn & Hr).
    { destruct (claim_take _ _ _ _ _); try done. }
    exists (S (S n)). split; [|done]. cbn [claim_steps claim_step]. fold need. rewrite R1. exact Hn.
  - destruct (tail (hdr r) <? head (hdr r)) eqn:Hht; [done|].
    destruct (hasRoom (tail (hdr r)) (head (hdr r)) (u64 (Capacity r)) need) eqn:R2; cbn [negb].
    + intros H. destruct (Hgo (set_hdr (with_headCache (head (hdr r))) r) eq_refl) as (n & Hn & Hr).
      { destruct (claim_take _ _ _ _ _); try done. }
      exists (S (S (S (S n)))). split; [|done]. cbn [claim_steps claim_step]. fold need. rewrite R1.
      cbn [claim_step]. rewrite Hht, R2. exact Hn.
    + intros [= <- <-]. exists 4%nat. split; [|done]. cbn [claim_steps claim_step]. fold need. rewrite R1.
      cbn [claim_step]. rewrite Hht, R2. cbn. unfold release. by rewrite (proj2 (Z.leb_le 0 sl)) by done.
Qed.

(** ** Runs without deaths *)

Ltac nobody := match goal with
  | H : bool_decide (_ ∈ []) = true |- _ => by apply bool_decide_eq_true, not_elem_of_nil in H
  end.

(** What a run looks like as long as nobody died. *)
Definition undead (c : cpc) : Prop :=
  match c with
  | JOwner _ _ dead _ | JAt _ _ _ dead _ _ | JSize _ _ _ dead _ _ _ | JAsk _ _ _ dead _ _ _ => dead = []
  | RCas _ _ _ | RType _ _ _ _ | RSlots _ _ => False
  | _ => True
  end.

Record nobody_died (s : state) : Prop := {
  nd_gone : gone s = [];
  nd_threads : forall t th hd idx own, threads s !! t = Some th -> pc th <> PDeadCas hd idx own;
  nd_cons : undead (cons s) }.

Lemma nobody_clean s a : nobody_died s -> clean a s.
Proof.
  intros [Hg Ht Hc]. destruct a; cbn; try done.
  - intros th hd idx own Hth E. by destruct (Ht t th hd idx own Hth).
  - intros end_ idx dead E. by rewrite E in Hc.
Qed.

Lemma producer_undead ans self p r p' r' hd idx own :
  producer_step ans [] self p r = Some (p', r') -> p' <> PDeadCas hd idx own.
Proof.
  unfold producer_step. destruct p; cbn; intros H; simplify_eq/=; try done;
    repeat (case_match; simplify_eq/=; try done; try nobody).
Qed.

Lemma command_undead cmd p r p' r' hd idx own :
  command_step cmd p r = Some (p', r') -> p <> PDeadCas hd idx own -> p' <> PDeadCas hd idx own.
Proof. destruct cmd, p; cbn; intros H ?; simplify_eq/=; try done; repeat (case_match; simplify_eq/=; try done). Qed.

Lemma consumer_undead ans self c r c' r' msgs :
  consumer_step ans [] self c r = Some (c', r', msgs) -> undead c -> undead c'.
Proof.
  unfold consumer_step. destruct c; cbn; intros H Hu; simplify_eq/=; try done;
    repeat (case_match; simplify_eq/=; try done; try nobody);
    unfold scan_next; repeat (case_match; simplify_eq/=; try done).
Qed.

Lemma nobody_step self a s s' :
  nobody_died s -> (forall p, a <> Die p) -> step self a s = Some s' -> nobody_died s'.
Proof.
  intros [Hg Ht Hc] Hnd Hs. destruct a as [t ans|t cmd|p|limit| |ans]; cbn [step] in Hs.
  - destruct (threads s !! t) as [th|] eqn:Hth; [|done]. destruct (alive s th); [|done].
    destruct (producer_step _ _ _ _ _) as [[p' r']|] eqn:Hp; [|done]. injection Hs as <-.
    split; cbn; try done. intros t' th' hd idx own [(-> & <- & _)|[_ H]]%list_lookup_insert_Some; [|by eapply Ht].
    cbn. rewrite Hg in Hp. by eapply producer_undead.
  - destruct (threads s !! t) as [th|] eqn:Hth; [|done]. destruct (alive s th); [|done].
    destruct (command_step _ _ _) as [[p' r']|] eqn:Hp; [|done]. injection Hs as <-.
    split; cbn; try done. intros t' th' hd idx own [(-> & <- & _)|[_ H]]%list_lookup_insert_Some; [|by eapply Ht].
    cbn. eapply command_undead; [done|by eapply Ht].
  - by destruct (Hnd p).
  - destruct (cons s) eqn:E; try done. injection Hs as <-. split; cbn; try done. by case_match.
  - destruct (cons s) eqn:E; try done. injection Hs as <-. split; cbn; done.
  - destruct (consumer_step _ _ _ _ _) as [[[c' r'] msgs]|] eqn:Hk; [|done]. injection Hs as <-.
    split; cbn; try done. rewrite Hg in Hk. by eapply consumer_undead.
Qed.

Lemma nobody_run self acts s :
  nobody_died s -> Forall (fun a => forall p, a <> Die p) acts -> clean_run self acts s.
Proof.
  revert s. induction acts as [|a acts IH]; intros s Hn Hall; [done|]. cbn.
  inversion_clear Hall as [|? ? Ha Hall']. split; [by apply nobody_clean|].
  destruct (step self a s) as [s1|] eqn:Hs; [|done]. apply IH; [by eapply nobody_step|done].
Qed.

Lemma initial_nobody s : initial s -> nobody_died s.
Proof.
  intros [_ _ _ Hths Hc Hg _]. split; [done| |by rewrite Hc].
  intros t th hd idx own Hth. rewrite Forall_lookup in Hths. destruct (Hths t th Hth) as [_ ->]. done.
Qed.

(** As long as no process dies the ring implements the queue of claims on
    every interleaving, without any side condition. *)
Theorem ring_refines_queue_undead self acts s0 s :
  initial s0 -> run self acts s0 = Some s -> Forall (fun a => forall p, a <> Die p) acts ->
  exists A, spec_run (procs s0) acts (mkSpec [] [] []) A /\ passed A = out s /\ cons s <> CCorrupt.
Proof.
  intros Hin Hrun Hnd. pose proof (nobody_run self acts s0 (initial_nobody s0 Hin) Hnd) as Hclean.
  destruct (clean_refines self acts s0 s Hin Hrun Hclean) as (A & H1 & H2 & _ & H3). by exists A.
Qed.

(** ** Up to the first race *)

(** The side condition, as a test. *)
Definition passed_byb (s : claimSlot) (c : Z) : bool := (at_ s =? noIntent) || (at_ s + size_ s <=? c).

Definition cleanb (a : action) (s : state) : bool :=
  match a with
  | Run t _ =>
      match pc <$> threads s !! t with
      | Some (PDeadCas _ idx own) =>
          negb (owner (slot (ring s) idx) =? own) || passed_byb (slot (ring s) idx) (head (hdr (ring s)))
      | _ => true
      end
  | Consume _ =>
      match cons s with
      | RSlots end_ (idx :: _) =>
          bool_decide (owner (slot (ring s) idx) ∈ gone s) && passed_byb (slot (ring s) idx) end_
      | _ => true
      end
  | _ => true
  end.

Fixpoint clean_runb (self : Z) (acts : list action) (s : state) : bool :=
  match acts with
  | [] => true
  | a :: acts =>
      cleanb a s && match step self a s with Some s => clean_runb self acts s | None => true end
  end.

(** The two races. A producer takes the slot of a dead one although the claim it
    announces was not passed; the reader clears the slot of a producer that lives,
    or that announces a claim past the one it reclaims. *)
Definition race (a : action) (s : state) : Prop :=
  match a with
  | Run t _ =>
      exists th hd idx own, threads s !! t = Some th /\ pc th = PDeadCas hd idx own /\
        owner (slot (ring s) idx) = own /\ ~ passed_by (slot (ring s) idx) (head (hdr (ring s)))
  | Consume _ =>
      exists end_ idx dead, cons s = RSlots end_ (idx :: dead) /\
        (owner (slot (ring s) idx) ∉ gone s \/ ~ passed_by (slot (ring s) idx) end_)
  | _ => False
  end.

Lemma passed_byb_true s c : passed_byb s c = true -> passed_by s c.
Proof. unfold passed_byb, passed_by. intros [?%Z.eqb_eq|?%Z.leb_le]%orb_prop; auto. Qed.

Lemma cleanb_true a s : cleanb a s = true -> clean a s.
Proof.
  destruct a; cbn; try done.
  - intros H th hd idx own Hth Hpc Hown. rewrite Hth in H. cbn in H. rewrite Hpc, Hown, Z.eqb_refl in H.
    by apply passed_byb_true.
  - intros H end_ idx dead E. rewrite E in H. apply andb_prop in H as [H1%bool_decide_eq_true H2].
    split; [done|by apply passed_byb_true].
Qed.

Lemma passed_byb_false s c : passed_byb s c = false -> ~ passed_by s c.
Proof. unfold passed_byb, passed_by. intros [?%Z.eqb_neq ?%Z.leb_gt]%orb_false_iff. lia. Qed.

Lemma cleanb_false a s : cleanb a s = false -> race a s.
Proof.
  destruct a as [t ans| | | | |ans]; cbn; try done.
  - destruct (threads s !! t) as [th|] eqn:Hth; cbn; [|done]. destruct (pc th) eqn:E; try done.
    intros [H1%negb_false_iff%Z.eqb_eq H2%passed_byb_false]%orb_false_iff. by exists th, hd, idx, own.
  - destruct (cons s) eqn:E; try done. destruct dead as [|idx dead]; [done|].
    intros [H1%bool_decide_eq_false|H2%passed_byb_false]%andb_false_iff; exists end_, idx, dead; auto.
Qed.

Lemma clean_runb_true self acts s : clean_runb self acts s = true -> clean_run self acts s.
Proof.
  revert s. induction acts as [|a acts IH]; intros s; cbn; [done|].
  intros [Ha H]%andb_prop. split; [by apply cleanb_true|]. case_match; auto.
Qed.

(** A run up to the first action that fails the test. *)
Lemma clean_prefix self acts s0 s :
  run self acts s0 = Some s ->
  exists pre post s1, acts = pre ++ post /\ run self pre s0 = Some s1 /\ clean_run self pre s0 /\
    (post = [] \/ exists a rest, post = a :: rest /\ cleanb a s1 = false).
Proof.
  revert s0. induction acts as [|a acts IH]; intros s0; cbn; [intros [= <-]; exists [], [], s0; split_and!; [done|done|done|by left]|].
  destruct (step self a s0) as [s1|] eqn:Hs; [|done]. intros Hrun. destruct (cleanb a s0) eqn:Hc.
  - destruct (IH s1 Hrun) as (pre & post & s2 & -> & Hpre & Hclean & Hpost). exists (a :: pre), post, s2.
    split; [done|]. cbn. rewrite Hs. split; [done|]. split; [split; [by apply cleanb_true|done]|done].
  - exists [], (a :: acts), s0. split; [done|]. split; [done|]. split; [done|]. right. by exists a, acts.
Qed.

(** No process died in a run that ends without one. *)
Lemma gone_grows self acts s s' : run self acts s = Some s' -> exists l, gone s' = l ++ gone s.
Proof.
  revert s. induction acts as [|a acts IH]; intros s; cbn; [intros [= <-]; by exists []|].
  destruct (step self a s) as [s1|] eqn:Hs; [|done]. intros [l Hl]%IH.
  assert (Hg : exists l1, gone s1 = l1 ++ gone s); [|destruct Hg as [l1 Hg]; exists (l ++ l1); by rewrite Hl, Hg, app_assoc].
  destruct a as [t ans|t cmd|p|limit| |ans]; cbn [step] in Hs; unfold update in Hs; repeat case_match; simplify_eq;
    first [by exists [] | by exists [p]].
Qed.

Lemma undead_run self acts s s' : run self acts s = Some s' -> gone s' = [] -> Forall (fun a => forall p, a <> Die p) acts.
Proof.
  revert s. induction acts as [|a acts IH]; intros s; cbn; [constructor|]. destruct (step self a s) as [s1|] eqn:Hs; [|done].
  intros Hrun Hg. constructor; [|by eapply IH]. intros p ->. injection Hs as <-.
  destruct (gone_grows _ _ _ _ Hrun) as [l Hl]. rewrite Hg in Hl. cbn in Hl. by destruct l.
Qed.

Lemma nobody_runs self acts s s' :
  nobody_died s -> Forall (fun a => forall p, a <> Die p) acts -> run self acts s = Some s' -> nobody_died s'.
Proof.
  revert s. induction acts as [|a acts IH]; intros s Hn Hall; cbn; [by intros [= <-]|].
  inversion_clear Hall as [|? ? Ha Hall']. destruct (step self a s) as [s1|] eqn:Hs; [|done]. apply IH; [by eapply nobody_step|done].
Qed.

(** C1: The lock-free ring implements the queue of claims, up to the first of two
    races. Take any number of threads, any interleaving of their accesses with
    those of the consumer, any deaths of processes in between and any order of
    calls, on a ring of at most 2 GiB whose cursors stay below 2^64. The run has a
    prefix that is a run of the abstract queue: claims settle only by a commit or
    an abort of their own live producer, or, at the front, by a reclaim after the
    producer died; the consumer is passed the committed messages in the order of
    the claims, with the bytes the producers stored; and no read reports
    [ErrCorrupt]. The prefix is the whole run, or it ends where, after a death, a
    slot is stolen or cleared that still announces a claim ([race]). That both
    races occur is shown by [steal_race_strands_claim] and
    [reclaim_race_strands_claim]. *)
Theorem ring_refines_queue self acts s0 s :
  initial s0 -> run self acts s0 = Some s ->
  exists pre post s1, acts = pre ++ post /\ run self pre s0 = Some s1 /\ refines self pre s0 s1 /\
    (post = [] \/ exists a rest, post = a :: rest /\ race a s1 /\ gone s1 <> []).
Proof.
  intros Hin Hrun. destruct (clean_prefix _ _ _ _ Hrun) as (pre & post & s1 & -> & Hpre & Hclean & Hpost).
  exists pre, post, s1. split; [done|]. split; [done|]. split; [by apply clean_refines|].
  destruct Hpost as [->|(a & rest & -> & Hb)]; [by left|]. right. exists a, rest. split; [done|]. split; [by apply cleanb_false|].
  intros Hg. pose proof (nobody_runs _ _ _ _ (initial_nobody s0 Hin) (undead_run _ _ _ _ Hpre Hg) Hpre) as Hn.
  pose proof (nobody_clean s1 a Hn) as Hcl. apply cleanb_false in Hb. destruct a; cbn in Hb, Hcl; try done.
  - destruct Hb as (th & hd & idx & own & H1 & H2 & H3 & H4). by eapply H4, Hcl.
  - destruct Hb as (end_ & idx & dead & H1 & [H2|H2]); destruct (Hcl _ _ _ H1); done.
Qed.

(** ** The races occur *)

(** A stall with no slot behind it: neither a read nor an [unstall] gets past
    it, whatever [isDead] answers. *)
Lemma stalled_stops limit r st :
  0 <= head (hdr r) < 2 ^ 64 -> stalled r = Some st -> Read limit r = Some (mkRead r [] None).
Proof.
  intros Hh Hst. unfold Read. destruct (limit <=? 0); [done|].
  unfold read_fuel. cbn [read_loop]. change (0 <? 0) with false.
  destruct ((zlen [] <? limit) && _); [|done].
  unfold stalled in Hst. destruct (head (hdr r) =? tail (hdr r)); [done|].
  rewrite Z.add_0_r, (u64_small (head (hdr r))) by done. unfold read_pass.
  destruct (Z.ltb_spec 0 (loadLength r (Z.land (head (hdr r)) (mask r)))); [done|].
  by rewrite (proj2 (Z.leb_le _ _)) by done.
Qed.

Lemma unattributed_left self isDead r st :
  stalled r = Some st -> st_slots st = [] -> unstall self isDead r = (r, LeaveAlone).
Proof. intros Hst Hs. unfold unstall. by rewrite Hst, Hs. Qed.

(** The producer of the claim at the front is dead, every other producer is idle
    or dead, and the consumer will never pass the claim. *)
Definition stranded (self : Z) (s : state) : Prop :=
  cons s = CIdle /\
  Forall (fun th => proc th ∈ gone s \/ exists sl, pc th = PIdle sl) (threads s) /\
  head (hdr (ring s)) <> tail (hdr (ring s)) /\
  (forall limit, Read limit (ring s) = Some (mkRead (ring s) [] None)) /\
  (forall isDead, unstall self isDead (ring s) = (ring s, LeaveAlone)).

Definition strandedb (o : option state) : bool :=
  match o with
  | Some s =>
      match cons s, stalled (ring s) with
      | CIdle, Some (mkStall _ _ []) =>
          forallb (fun th => bool_decide (proc th ∈ gone s) ||
                             match pc th with PIdle _ => true | _ => false end) (threads s) &&
          (0 <=? head (hdr (ring s))) && (head (hdr (ring s)) <? 2 ^ 64)
      | _, _ => false
      end
  | None => false
  end.

Lemma strandedb_true self o : strandedb o = true -> exists s, o = Some s /\ stranded self s.
Proof.
  destruct o as [s|]; [|done]. cbn. destruct (cons s) eqn:Ec; try done.
  destruct (stalled (ring s)) as [[hd len [|? ?]]|] eqn:Es; try done.
  intros [[H1 H2%Z.leb_le]%andb_prop H3%Z.ltb_lt]%andb_prop. exists s. split; [done|].
  unfold stranded. split_and!; [done| | | |].
  - rewrite List.forallb_forall in H1. apply List.Forall_forall. intros th Hth.
    apply H1 in Hth as [?%bool_decide_eq_true|?]%orb_prop; [by left|right]. destruct (pc th); try done. eauto.
  - intros E. unfold stalled in Es. by rewrite E, Z.eqb_refl in Es.
  - intros limit. by eapply stalled_stops.
  - intros isDead. by eapply unattributed_left.
Qed.

Definition procA : Z := randomID 1.
Definition procB : Z := randomID 2.
Definition procC : Z := randomID 3.
Definition runs (t n : nat) : list action := replicate n (Run t false).
Definition consumes (n : nat) : list action := replicate n (Consume false).

(** Two producers, A and B, and the consumer C. *)
Definition two_producers : state :=
  mkState demo [mkThread procA PNone; mkThread procB PNone] CIdle [] [].

(** B wins the race for the tail against A and dies. The consumer loads the
    intent A lost with; A retries, claims the room after B's claim and dies; only
    then does the consumer ask whether A is dead. It clears A's new intent. *)
Definition reclaim_race : list action :=
  Do 0 Acquire :: runs 0 2 ++ Do 1 Acquire :: runs 1 3 ++
  Do 0 (Call 7 1) :: runs 0 4 ++ Do 1 (Call 7 1) :: runs 1 7 ++ Die procB ::
  StartUnstall :: consumes (3 + 258 + 3) ++ runs 0 8 ++ Die procA ::
  Consume true :: consumes 3 ++ Consume true :: consumes 6 ++ StartRead 1 :: consumes 8.

(** [unstall] loads the intent of a slot before it asks whether its owner is
    dead. A producer that retries and dies in between leaves a claim whose
    intent [reclaim] then clears: the claim blocks the queue for ever, although
    its producer is dead. *)
Theorem reclaim_race_strands_claim :
  exists s, run procC reclaim_race two_producers = Some s /\ stranded procC s.
Proof. apply strandedb_true. vm_compute. reflexivity. Qed.

(** Every slot is taken: slot 0 by A, the others by B. *)
Definition full_house : state :=
  mkState demo (mkThread procA PNone :: replicate 256 (mkThread procB PNone)) CIdle [] [].

(** B looks for a slot and loads the intent of A, which is idle. A claims and
    dies. B asks whether A is dead and takes the slot. *)
Definition steal_race : list action :=
  flat_map (fun t => Do t Acquire :: runs t (t + 2)) (seq 0 256) ++
  Do 256 Acquire :: runs 256 259 ++ Do 0 (Call 7 1) :: runs 0 7 ++ Die procA ::
  Run 256 true :: runs 256 2.

(** [acquireSlot] loads the intent of a slot before it asks whether its owner
    is dead. An owner that claims and dies in between loses its slot together
    with the intent of an open claim, which then blocks the queue for ever. *)
Theorem steal_race_strands_claim :
  exists s, run procC steal_race full_house = Some s /\ stranded procC s.
Proof. apply strandedb_true. vm_compute. reflexivity. Qed.

(** ** Witnesses *)

Lemma claim_steps_tryClaim_witness :
  exists n, claim_steps n (PTail 0 (mkCall 7 10 16)) demo =
    Some (PClaim 0 (mkCall 7 10 16) 0, default demo (fst <$> tryClaim 1 0 7 2 demo)) /\ 10 = 10 /\ 0 = 0.
Proof.
  apply (claim_steps_tryClaim 0 7 2 demo _ (Ok (mkClaim 0 10 0))); vm_compute; done.
Defined.

Lemma demo_initial ths :
  Forall (fun th => proc th <> 0 /\ pc th = PNone) ths -> initial (mkState demo ths CIdle [] []).
Proof.
  intros H. split; [apply demo_tiles| |done..]. cbn [ring]. change (data demo) with (zeros 4096).
  rewrite zlen_zeros; lia.
Qed.

Lemma two_initial : initial two_producers.
Proof. apply demo_initial. repeat constructor; cbn; done. Qed.

(** A claims and dies; B writes a message; the consumer reclaims and reads. *)
Definition recovery : list action :=
  Do 0 Acquire :: runs 0 2 ++ Do 1 Acquire :: runs 1 3 ++
  Do 0 (Call 7 1) :: runs 0 7 ++ Die procA ::
  Do 1 (Call 9 2) :: runs 1 7 ++ Do 1 (Fill 0 hello) :: Do 1 (Finish true) :: runs 1 2 ++
  StartUnstall :: consumes (3 + 257 + 3) ++ Consume true :: consumes 5 ++
  StartRead 4 :: consumes 13.

Definition recovered : state := default two_producers (run procC recovery two_producers).

Lemma recovered_run : run procC recovery two_producers = Some recovered.
Proof. vm_compute. reflexivity. Qed.

Lemma ring_refines_queue_witness :
  exists pre post s1, recovery = pre ++ post /\ run procC pre two_producers = Some s1 /\ refines procC pre two_producers s1 /\
    (post = [] \/ exists a rest, post = a :: rest /\ race a s1 /\ gone s1 <> []).
Proof. apply (ring_refines_queue procC recovery two_producers recovered two_initial recovered_run). Defined.

(** That run has no race. *)
Lemma recovery_clean : clean_run procC recovery two_producers.
Proof. apply clean_runb_true. vm_compute. reflexivity. Qed.

(** What the consumer was passed in that run: the message after the dead claim. *)
Lemma recovered_out : out recovered = [(9, hello)].
Proof. vm_compute. reflexivity. Qed.

(** A and B each write a message and come to rest. *)
Definition writing : list action :=
  Do 0 Acquire :: runs 0 2 ++ Do 1 Acquire :: runs 1 3 ++
  Do 0 (Call 7 2) :: runs 0 7 ++ Do 1 (Call 9 2) :: runs 1 7 ++
  Do 1 (Fill 0 hello) :: Do 1 (Finish true) :: runs 1 2 ++
  Do 0 (Fill 0 hello) :: Do 0 (Finish true) :: runs 0 2.

Definition written : state := default two_producers (run procC writing two_producers).

Lemma written_run : run procC writing two_producers = Some written.
Proof. vm_compute. reflexivity. Qed.

Lemma written_undead : Forall (fun a => forall p, a <> Die p) writing.
Proof. repeat constructor; done. Qed.

Lemma ring_at_rest_witness :
  exists A, spec_run (procs two_producers) writing (mkSpec [] [] []) A /\ passed A = out written /\
    Forall (fun e => entry_owner e = None) (claims A) /\ holds (ring written) (settled_messages (claims A)).
Proof.
  apply (ring_at_rest procC writing two_producers written two_initial written_run).
  - apply clean_runb_true. vm_compute. reflexivity.
  - vm_compute. reflexivity.
  - vm_compute. constructor; [|constructor; [|constructor]]; right; eexists; reflexivity.
Defined.

Lemma ring_refines_queue_undead_witness :
  exists A, spec_run (procs two_producers) writing (mkSpec [] [] []) A /\ passed A = out written /\
    cons written <> CCorrupt.
Proof.
  apply (ring_refines_queue_undead procC writing two_producers written two_initial written_run written_undead).
Defined.
