(* ===== verification/GoStd.v ===== *)
(** * The parts of the Go standard library the schema compiler uses

    [unicode/utf8] (DecodeRune, Valid), [strconv] (ParseUint, ParseInt and
    ParseFloat on JSON numbers), [encoding/hex], and ASCII character classes. *)

From stdpp Require Import base numbers list list_numbers option strings.
From coqutil Require Import Byte Word.LittleEndianList.
From Stdlib Require Import ZArith Lia Bool String Ascii SpecFloat.
From S2P Require Import Prelude.

#[local] Open Scope Z_scope.

(** ** Bytes and characters *)

Definition in_range (lo x hi : Z) : bool := (lo <=? x) && (x <=? hi).

Definition ch (c : ascii) : Z := Z.of_N (N_of_ascii c).

Definition isDigit (r : Z) : bool := in_range 48 r 57.
Definition isUpper (r : Z) : bool := in_range 65 r 90.
Definition isLower (r : Z) : bool := in_range 97 r 122.

(** ** unicode/utf8 *)

Definition RuneError : Z := 65533.

(** The length of the sequence a first byte starts and the range of its second
    byte. *)
Definition utf8_first (b : Z) : option (nat * Z * Z) :=
  if in_range 0xC2 b 0xDF then Some (2%nat, 0x80, 0xBF)
  else if b =? 0xE0 then Some (3%nat, 0xA0, 0xBF)
  else if in_range 0xE1 b 0xEC then Some (3%nat, 0x80, 0xBF)
  else if b =? 0xED then Some (3%nat, 0x80, 0x9F)
  else if in_range 0xEE b 0xEF then Some (3%nat, 0x80, 0xBF)
  else if b =? 0xF0 then Some (4%nat, 0x90, 0xBF)
  else if in_range 0xF1 b 0xF3 then Some (4%nat, 0x80, 0xBF)
  else if b =? 0xF4 then Some (4%nat, 0x80, 0x8F)
  else None.

Definition cont (b : Z) : bool := in_range 0x80 b 0xBF.

(** The rune at the start of [p] and the bytes it takes. *)
Definition DecodeRune (p : list byte) : Z * nat :=
  match byte.unsigned <$> p with
  | [] => (RuneError, O)
  | b0 :: rest =>
      if b0 <? 0x80 then (b0, 1%nat)
      else
        match utf8_first b0, rest with
        | Some (2%nat, lo, hi), b1 :: _ =>
            if in_range lo b1 hi
            then (Z.lor (Z.shiftl (Z.land b0 0x1F) 6) (Z.land b1 0x3F), 2%nat)
            else (RuneError, 1%nat)
        | Some (3%nat, lo, hi), b1 :: b2 :: _ =>
            if in_range lo b1 hi && cont b2
            then (Z.lor (Z.shiftl (Z.land b0 0x0F) 12)
                   (Z.lor (Z.shiftl (Z.land b1 0x3F) 6) (Z.land b2 0x3F)), 3%nat)
            else (RuneError, 1%nat)
        | Some (4%nat, lo, hi), b1 :: b2 :: b3 :: _ =>
            if in_range lo b1 hi && cont b2 && cont b3
            then (Z.lor (Z.shiftl (Z.land b0 0x07) 18)
                   (Z.lor (Z.shiftl (Z.land b1 0x3F) 12)
                     (Z.lor (Z.shiftl (Z.land b2 0x3F) 6) (Z.land b3 0x3F))), 4%nat)
            else (RuneError, 1%nat)
        | _, _ => (RuneError, 1%nat)
        end
  end.

Fixpoint utf8_valid (fuel : nat) (p : list byte) : bool :=
  match fuel, p with
  | _, [] => true
  | O, _ => false
  | S fuel, b :: _ =>
      let '(r, w) := DecodeRune p in
      if (r =? RuneError) && (w =? 1)%nat then false
      else utf8_valid fuel (drop w p)
  end.

Definition Valid (p : list byte) : bool := utf8_valid (List.length p) p.

(** ** strconv *)

Definition digit_value (c : ascii) : option Z :=
  let r := ch c in
  if isDigit r then Some (r - 48)
  else if isLower r then Some (r - 97 + 10)
  else if isUpper r then Some (r - 65 + 10)
  else None.

Fixpoint parse_digits (base bound acc : Z) (s : string) : option Z :=
  match s with
  | EmptyString => Some acc
  | String c s =>
      match digit_value c with
      | Some d =>
          if d <? base then
            let acc := acc * base + d in
            if acc <? bound then parse_digits base bound acc s else None
          else None
      | None => None
      end
  end.

(** [None] is a syntax or a range error. *)
Definition ParseUint (s : string) (base bits : Z) : option Z :=
  match s with EmptyString => None | _ => parse_digits base (2 ^ bits) 0 s end.

Definition ParseInt (s : string) (base bits : Z) : option Z :=
  match s with
  | EmptyString => None
  | String c rest =>
      let neg := ch c =? 45 in
      let body := if neg || (ch c =? 43) then rest else s in
      match ParseUint body base 64 with
      | None => None
      | Some un =>
          if negb neg && (2 ^ (bits - 1) <=? un) then None
          else if neg && (2 ^ (bits - 1) <? un) then None
          else Some (if neg then - un else un)
      end
  end.

(** A decimal number: sign, digits and a power of ten. *)
Fixpoint take_digits (s : string) (acc : Z) (n : Z) : Z * Z * string :=
  match s with
  | String c rest =>
      if isDigit (ch c) then take_digits rest (acc * 10 + (ch c - 48)) (n + 1) else (acc, n, s)
  | EmptyString => (acc, n, s)
  end.

Definition parse_exponent (s : string) : option Z :=
  match s with
  | EmptyString => Some 0
  | String e rest =>
      if (ch e =? 101) || (ch e =? 69) then
        match rest with
        | String c rest' =>
            let neg := ch c =? 45 in
            let body := if neg || (ch c =? 43) then rest' else rest in
            let '(v, n, left_) := take_digits body 0 0 in
            match left_ with
            | EmptyString => if n =? 0 then None else Some (if neg then - v else v)
            | _ => None
            end
        | EmptyString => None
        end
      else None
  end.

(** The number as [(negative, digits, exponent)]: its value is
    [digits * 10^exponent]. *)
Definition parse_decimal (s : string) : option (bool * Z * Z) :=
  let '(neg, s) :=
    match s with
    | String c rest => if ch c =? 45 then (true, rest) else (false, s)
    | EmptyString => (false, s)
    end in
  let '(whole, n, s) := take_digits s 0 0 in
  if n =? 0 then None
  else
    let '(frac, k, s) :=
      match s with
      | String c rest => if ch c =? 46 then take_digits rest whole 0 else (whole, 0, s)
      | EmptyString => (whole, 0, s)
      end in
    match parse_exponent s with
    | Some e => Some (neg, frac, e - k)
    | None => None
    end.

(** The nearest float of precision [prec] to [digits * 10^e], ties to even: the
    quotient is taken to 64 bits and a sticky bit before it is rounded. *)
Definition round_decimal (prec emax : Z) (neg : bool) (digits e : Z) : spec_float :=
  let num := if 0 <=? e then digits * 10 ^ e else digits in
  let den := if 0 <=? e then 1 else 10 ^ (- e) in
  let k := Z.max 0 (64 + Z.log2 den - Z.log2 num) in
  let q := (num * 2 ^ k) / den in
  let sticky := if (num * 2 ^ k) mod den =? 0 then 0 else 1 in
  match 2 * q + sticky with
  | Zpos m => binary_round prec emax neg m (- k - 1)
  | _ => S754_zero neg
  end.

(** The IEEE bit pattern; the significand has [prec - 1] stored bits. *)
Definition float_bits (prec emax : Z) (f : spec_float) : Z :=
  let sign (b : bool) := if b then 2 ^ (prec - 1) * (2 * emax) else 0 in
  match f with
  | S754_zero s => sign s
  | S754_infinity s => sign s + 2 ^ (prec - 1) * (2 * emax - 1)
  | S754_nan => 2 ^ (prec - 1) * (2 * emax - 1) + 2 ^ (prec - 2)
  | S754_finite s m e =>
      if Zpos m <? 2 ^ (prec - 1) then sign s + Zpos m
      else sign s + 2 ^ (prec - 1) * (e + emax + prec - 2) + (Zpos m - 2 ^ (prec - 1))
  end.

Definition is_finite (f : spec_float) : bool :=
  match f with S754_zero _ | S754_finite _ _ _ => true | _ => false end.

(** [strconv.ParseFloat(s, 64)]: a number that overflows is an error. *)
Definition ParseFloat (s : string) : option spec_float :=
  match parse_decimal s with
  | None => None
  | Some (neg, digits, e) =>
      let f := round_decimal 53 1024 neg digits e in
      if is_finite f then Some f else None
  end.

(** The conversion [float32(f)]. *)
Definition to_float32 (f : spec_float) : spec_float :=
  match f with
  | S754_finite s m e => binary_round 24 128 s m e
  | _ => f
  end.

(** Whether two finite floats are the same number. *)
Definition same_number (f g : spec_float) : bool :=
  match f, g with
  | S754_zero _, S754_zero _ => true
  | S754_finite s m e, S754_finite s' m' e' =>
      let lo := Z.min e e' in
      Bool.eqb s s' && (Zpos m * 2 ^ (e - lo) =? Zpos m' * 2 ^ (e' - lo))
  | _, _ => false
  end.

(** ** encoding/hex *)

Definition hex_digit (b : byte) : option Z :=
  let r := byte.unsigned b in
  if isDigit r then Some (r - 48)
  else if in_range 97 r 102 then Some (r - 97 + 10)
  else if in_range 65 r 70 then Some (r - 65 + 10)
  else None.

Fixpoint hex_DecodeString (s : list byte) : option (list byte) :=
  match s with
  | [] => Some []
  | a :: b :: rest =>
      match hex_digit a, hex_digit b, hex_DecodeString rest with
      | Some x, Some y, Some out => Some (byte.of_Z (x * 16 + y) :: out)
      | _, _, _ => None
      end
  | _ => None
  end.

Definition hex_char (v : Z) : byte := byte.of_Z (if v <? 10 then v + 48 else v - 10 + 97).

Definition hex_EncodeToString (s : list byte) : list byte :=
  mjoin ((fun b => [hex_char (byte.unsigned b / 16); hex_char (byte.unsigned b mod 16)]) <$> s).
