(* ===== verification/Schema.v ===== *)
(** * Schemas ([src/ipcgen/internal/schema/schema.go], [names.go])

    Kinds, types, messages and the naming rules of an ipcgen schema. A message
    pointer is the index of the message in the schema. *)

From stdpp Require Import base numbers list list_numbers option strings gmap.
From Stdlib Require Import ZArith Lia Bool String Ascii.
From S2P Require Import Prelude GoStd.

#[local] Open Scope Z_scope.

(** ** Kinds *)

(** The kinds of a type that is neither an array nor a message; those two are
    constructors of [Typ]. *)
Inductive Kind : Set :=
| KBool | U8 | I8 | U16 | I16 | U32 | I32 | F32 | U64 | I64 | F64 | KString | KBytes.

#[global] Instance Kind_eq_dec : EqDecision Kind.
Proof. solve_decision. Defined.

(** The scalars, in the order of the constants. *)
Definition scalars : list Kind := [KBool; U8; I8; U16; I16; U32; I32; F32; U64; I64; F64].

Definition scalarNames : list string :=
  ["bool"; "u8"; "i8"; "u16"; "i16"; "u32"; "i32"; "f32"; "u64"; "i64"; "f64"]%string.

Definition Kind_String (k : Kind) : string :=
  match k with
  | KBool => "bool" | U8 => "u8" | I8 => "i8" | U16 => "u16" | I16 => "i16" | U32 => "u32"
  | I32 => "i32" | F32 => "f32" | U64 => "u64" | I64 => "i64" | F64 => "f64"
  | KString => "string" | KBytes => "bytes"
  end%string.

Definition IsScalar (k : Kind) : bool := match k with KString | KBytes => false | _ => true end.
Definition IsVarKind (k : Kind) : bool := match k with KString | KBytes => true | _ => false end.
Definition IsSigned (k : Kind) : bool := match k with I8 | I16 | I32 | I64 => true | _ => false end.
Definition IsFloat (k : Kind) : bool := match k with F32 | F64 => true | _ => false end.

Definition ScalarSize (k : Kind) : Z :=
  match k with
  | U16 | I16 => 2
  | U32 | I32 | F32 => 4
  | U64 | I64 | F64 => 8
  | _ => 1
  end.

(** ** Types, fields, messages *)

Record Pos : Set := mkPos { Line : Z; Col : Z }.

(** [msg] is the message a reference resolves to, set by [Check]. *)
Inductive Typ : Set :=
| TBasic (k : Kind) (pos : Pos)
| TArray (len : Z) (elem : Typ) (pos : Pos)
| TRef (name : string) (msg : option nat) (pos : Pos).

Definition TypePos (t : Typ) : Pos :=
  match t with TBasic _ p | TArray _ _ p | TRef _ _ p => p end.

Record Field : Set := mkField { f_name : string; f_type : Typ; f_pos : Pos; f_offset : Z }.

Record Message : Set := mkMessage {
  m_name : string; m_id : Z; m_fields : list Field; m_pos : Pos; m_idpos : Pos;
  FixedSize : Z; MAlign : Z }.

Record Schema : Type := mkSchema {
  s_file : string; s_package : string; s_pkgpos : Pos; s_messages : list Message;
  s_sorted : list nat; s_byName : gmap string nat }.

(** The size and alignment of a fixed type, given the messages it refers to. *)
Fixpoint Size (ms : list Message) (t : Typ) : Z :=
  match t with
  | TArray len elem _ => len * Size ms elem
  | TRef _ msg _ => match msg ≫= (fun i => ms !! i) with Some m => FixedSize m | None => 0 end
  | TBasic k _ => ScalarSize k
  end.

Fixpoint Align (ms : list Message) (t : Typ) : Z :=
  match t with
  | TArray _ elem _ => Align ms elem
  | TRef _ msg _ => match msg ≫= (fun i => ms !! i) with Some m => MAlign m | None => 1 end
  | TBasic k _ => ScalarSize k
  end.

Definition IsVar (t : Typ) : bool := match t with TBasic k _ => IsVarKind k | _ => false end.
Definition field_IsVar (f : Field) : bool := IsVar (f_type f).

Definition FixedFields (m : Message) : list Field := List.filter (fun f => negb (field_IsVar f)) (m_fields m).
Definition VarFields (m : Message) : list Field := List.filter field_IsVar (m_fields m).
Definition Fixed (m : Message) : bool := match VarFields m with [] => true | _ => false end.

Definition Lookup (s : Schema) (name : string) : option nat := s_byName s !! name.

(** ** Names *)

(** [^[A-Z][A-Za-z0-9]*$] *)
Fixpoint all_chars (p : ascii -> bool) (s : string) : bool :=
  match s with EmptyString => true | String c s => p c && all_chars p s end.

(** The lexer only makes ASCII names, so the unicode classes are these. *)
Definition is_upper (c : ascii) : bool := isUpper (ch c).
Definition is_lower (c : ascii) : bool := isLower (ch c).
Definition is_digit (c : ascii) : bool := isDigit (ch c).

Definition messageName (s : string) : bool :=
  match s with
  | String c s => is_upper c && all_chars (fun c => is_upper c || is_lower c || is_digit c) s
  | EmptyString => false
  end.

(** [^[a-z][a-z0-9]*(_[a-z0-9]+)*$]: after an underscore a character must come. *)
Fixpoint snake_rest (after_underscore : bool) (s : string) : bool :=
  match s with
  | EmptyString => negb after_underscore
  | String c s =>
      if is_lower c || is_digit c then snake_rest false s
      else if Ascii.eqb c "_" then negb after_underscore && snake_rest true s
      else false
  end.

Definition snakeName (s : string) : bool :=
  match s with String c s => is_lower c && snake_rest false s | EmptyString => false end.

Definition to_lower (c : ascii) : ascii :=
  if is_upper c then ascii_of_N (Z.to_N (ch c + 32)) else c.
Definition to_upper (c : ascii) : ascii :=
  if is_lower c then ascii_of_N (Z.to_N (ch c - 32)) else c.

(** The loop of [Snake]; [prev] is the character before. *)
Fixpoint snake_from (prev : option ascii) (s : string) : string :=
  match s with
  | EmptyString => EmptyString
  | String c rest =>
      let nextLower := match rest with String n _ => is_lower n | EmptyString => false end in
      let sep :=
        match prev with
        | Some p => is_upper c && (is_lower p || is_digit p || (is_upper p && nextLower))
        | None => false
        end in
      let tl := String (to_lower c) (snake_from (Some c) rest) in
      if sep then String "_" tl else tl
  end.

Definition Snake (name : string) : string := snake_from None name.

(** The loop of [Camel]: [first] starts a part. *)
Fixpoint camel_from (first : bool) (s : string) : string :=
  match s with
  | EmptyString => EmptyString
  | String c rest =>
      if Ascii.eqb c "_" then camel_from true rest
      else String (if first then to_upper c else c) (camel_from false rest)
  end.

Definition Camel (name : string) : string := camel_from true name.

Fixpoint HasPrefix (s prefix : string) : bool :=
  match prefix, s with
  | EmptyString, _ => true
  | String p prefix, String c s => Ascii.eqb p c && HasPrefix s prefix
  | _, _ => false
  end.

Definition setOf (words : list string) : gset string := list_to_set words.

Definition reservedWords : gset string := setOf [
  "auto"; "break"; "case"; "char"; "const"; "continue"; "default"; "do"; "double"; "else"; "enum"; "extern";
  "float"; "for"; "goto"; "if"; "inline"; "int"; "long"; "register"; "restrict"; "return"; "short"; "signed";
  "sizeof"; "static"; "struct"; "switch"; "typedef"; "union"; "unsigned"; "void"; "volatile"; "while";
  "alignas"; "alignof"; "bool"; "true"; "false"; "static_assert"; "thread_local"; "noreturn"; "complex";
  "imaginary"; "assert"; "errno"; "offsetof"; "linux"; "unix"; "i386";
  "and"; "and_eq"; "asm"; "bitand"; "bitor"; "catch"; "char8_t"; "char16_t"; "char32_t"; "class"; "compl";
  "concept"; "consteval"; "constexpr"; "constinit"; "const_cast"; "co_await"; "co_return"; "co_yield";
  "decltype"; "delete"; "dynamic_cast"; "explicit"; "export"; "friend"; "mutable"; "namespace"; "new";
  "noexcept"; "not"; "not_eq"; "nullptr"; "operator"; "or"; "or_eq"; "private"; "protected"; "public";
  "reinterpret_cast"; "requires"; "static_cast"; "template"; "this"; "throw"; "try"; "typeid"; "typename";
  "using"; "virtual"; "wchar_t"; "xor"; "xor_eq"; "std";
  "chan"; "defer"; "fallthrough"; "func"; "go"; "import"; "interface"; "map"; "package"; "range"; "select";
  "type"; "var";
  "as"; "async"; "await"; "def"; "del"; "elif"; "except"; "finally"; "from"; "global"; "in"; "is"; "lambda";
  "nonlocal"; "pass"; "raise"; "with"; "yield"; "none"; "self"; "cls";
  "size"; "encode"; "decode"; "type_id"; "fixed_size"]%string.

Definition goMethods : gset string :=
  setOf ["Size"; "MarshalTo"; "MarshalBinary"; "UnmarshalBinary"; "TypeID"]%string.
Definition pyNames : gset string := setOf ["MESSAGES"]%string.
Definition goNames : gset string := setOf ["Message"; "NewMessage"]%string.

Definition reserved (set : gset string) (s : string) : bool := bool_decide (s ∈ set).
