(* ===== verification/Parse.v ===== *)
(** * The schema parser ([src/ipcgen/internal/schema/parse.go])

    The lexer and the recursive-descent parser. The parser runs on the tokens
    that are left, which always end with [tEOF]. *)

From stdpp Require Import base numbers list list_numbers option strings gmap.
From coqutil Require Import Byte Word.LittleEndianList.
From Stdlib Require Import ZArith Lia Bool String Ascii.
From S2P Require Import Prelude GoStd Schema.

#[local] Open Scope Z_scope.

(** ** Tokens *)

Inductive tokKind : Set :=
| tEOF | tNewline | tIdent | tNumber | tLBrace | tRBrace | tLBrack | tRBrack | tEq.

#[global] Instance tokKind_eq_dec : EqDecision tokKind.
Proof. solve_decision. Defined.

Record token : Set := mkTok { t_kind : tokKind; t_text : string; t_pos : Pos }.

(** The messages of a parse error; [found] is the token the text describes. *)
Inductive parse_msg : Set :=
| UnexpectedCharacter (r : Z)
| Expected (what : string) (found : token)
| ExpectedNewline (after : string) (found : token)
| PackageTwice
| NotU32 (text : string)
| LengthTooLarge (text : string).

Record parse_error : Set := mkParseError { pe_pos : Pos; pe_msg : parse_msg }.

(** ** The lexer *)

Definition isIdentStart (r : Z) : bool := (r =? 95) || in_range 97 r 122 || in_range 65 r 90.

Definition isIdentByte (b : byte) : bool :=
  isIdentStart (byte.unsigned b) || isDigit (byte.unsigned b).

(** The bytes of an identifier or a number, and what follows. *)
Fixpoint span_ident (src : list byte) : list byte * list byte :=
  match src with
  | b :: rest => if isIdentByte b then let '(w, r) := span_ident rest in (b :: w, r) else ([], src)
  | [] => ([], [])
  end.

(** A comment runs to the end of the line. *)
Fixpoint skip_comment (fuel : nat) (src : list byte) : list byte :=
  match fuel, src with
  | S fuel, b :: _ =>
      if byte.unsigned b =? 10 then src else skip_comment fuel (drop (snd (DecodeRune src)) src)
  | _, _ => src
  end.

Definition punctuation (r : Z) : option tokKind :=
  if r =? 123 then Some tLBrace
  else if r =? 125 then Some tRBrace
  else if r =? 91 then Some tLBrack
  else if r =? 93 then Some tRBrack
  else if r =? 61 then Some tEq
  else None.

Definition text_of (bs : list byte) : string := string_of_list_byte bs.

(** The loop of [lex] from the position [line], [col]; [None] when the fuel ran
    out. *)
Fixpoint lex_loop (fuel : nat) (src : list byte) (line col : Z)
    : option (parse_error + list token) :=
  match fuel with
  | O => None
  | S fuel =>
      let pos := mkPos line col in
      let emit (t : token) (r : option (parse_error + list token)) :=
        match r with Some (inr toks) => Some (inr (t :: toks)) | _ => r end in
      match src with
      | [] => Some (inr [mkTok tEOF "" pos])
      | b :: rest =>
          let '(r, w) := DecodeRune src in
          if r =? 10 then
            emit (mkTok tNewline (text_of [b]) pos) (lex_loop fuel rest (line + 1) 1)
          else if (r =? 32) || (r =? 9) || (r =? 13) then lex_loop fuel rest line (col + 1)
          else if r =? 35 then lex_loop fuel (skip_comment (List.length src) src) line col
          else if isIdentStart r || isDigit r then
            let '(word, after) := span_ident src in
            let kind := if isDigit r then tNumber else tIdent in
            emit (mkTok kind (text_of word) pos) (lex_loop fuel after line (col + zlen word))
          else
            match punctuation r with
            | Some kind => emit (mkTok kind (text_of (take w src)) pos) (lex_loop fuel (drop w src) line (col + 1))
            | None => Some (inl (mkParseError pos (UnexpectedCharacter r)))
            end
      end
  end.

(** Every pass but the last takes at least one byte away. *)
Definition lex (src : list byte) : option (parse_error + list token) :=
  lex_loop (S (List.length src)) src 1 1.

(** ** The parser monad *)

(** [NoFuel] stands for a loop that was cut off. *)
Inductive outcome (A : Type) : Type :=
| Done (a : A) (rest : list token)
| Fail (e : parse_error)
| NoFuel.
Arguments Done {A}. Arguments Fail {A}. Arguments NoFuel {A}.

Definition parser (A : Type) : Type := list token -> outcome A.

Definition ret {A} (a : A) : parser A := fun ts => Done a ts.
Definition bind {A B} (p : parser A) (k : A -> parser B) : parser B := fun ts =>
  match p ts with Done a ts => k a ts | Fail e => Fail e | NoFuel => NoFuel end.
Definition fail {A} (pos : Pos) (msg : parse_msg) : parser A := fun _ => Fail (mkParseError pos msg).

Declare Scope parser_scope.
Delimit Scope parser_scope with parser.
Notation "'let*' x ':=' p 'in' k" := (bind p (fun x => k))
  (at level 10, x pattern, k at level 200) : parser_scope.
#[local] Open Scope parser_scope.

(** ** The parser *)

Definition eof : token := mkTok tEOF "" (mkPos 0 0).

Definition peek : parser token := fun ts => Done (default eof (head ts)) ts.

(** [next] stays at the end of the file. *)
Definition next : parser token := fun ts =>
  match ts with
  | t :: rest => Done t (if decide (t_kind t = tEOF) then ts else rest)
  | [] => Done eof []
  end.

Definition expect (kind : tokKind) (what : string) : parser token :=
  let* t := next in
  if decide (t_kind t = kind) then ret t else fail (t_pos t) (Expected what t).

Fixpoint skip_newlines (ts : list token) : list token :=
  match ts with
  | t :: rest => if decide (t_kind t = tNewline) then skip_newlines rest else ts
  | [] => []
  end.

Definition skipNewlines : parser unit := fun ts => Done tt (skip_newlines ts).

Definition endLine (after : string) : parser unit :=
  let* t := peek in
  if decide (t_kind t = tNewline \/ t_kind t = tEOF) then let* _ := next in ret tt
  else fail (t_pos t) (ExpectedNewline after t).

(** A decimal or 0x-prefixed hex number that fits in [bits]. *)
Definition parseNum (text : string) (bits : Z) : option Z :=
  match text with
  | String a (String b (String _ _ as rest)) =>
      if Ascii.eqb a "0" && (Ascii.eqb b "x" || Ascii.eqb b "X") then ParseUint rest 16 bits
      else ParseUint text 10 bits
  | _ => ParseUint text 10 bits
  end.

(** The scalar a name spells. *)
Definition scalar_named (text : string) : option Kind :=
  snd <$> List.find (fun nk => String.eqb (fst nk) text) (zip scalarNames scalars).

Definition named_type (text : string) (pos : Pos) : Typ :=
  match scalar_named text with
  | Some k => TBasic k pos
  | None =>
      if String.eqb text "string" then TBasic KString pos
      else if String.eqb text "bytes" then TBasic KBytes pos
      else TRef text None pos
  end.

Fixpoint typ (fuel : nat) : parser Typ :=
  match fuel with
  | O => fun _ => NoFuel
  | S fuel =>
      let* t := next in
      match t_kind t with
      | tIdent => ret (named_type (t_text t) (t_pos t))
      | tLBrack =>
          let* n := expect tNumber "array length" in
          match parseNum (t_text n) 31 with
          | None => fail (t_pos n) (LengthTooLarge (t_text n))
          | Some length =>
              let* _ := expect tRBrack "']'" in
              let* elem := typ fuel in
              ret (TArray length elem (t_pos t))
          end
      | _ => fail (t_pos t) (Expected "type" t)
      end
  end.

(** The fields of a message up to its closing brace. *)
Fixpoint fields (fuel : nat) (acc : list Field) : parser (list Field) :=
  match fuel with
  | O => fun _ => NoFuel
  | S fuel' =>
      let* _ := skipNewlines in
      let* t := next in
      if decide (t_kind t = tRBrace) then let* _ := endLine "'}'" in ret acc
      else if decide (t_kind t = tIdent) then
        let* ty := typ fuel in
        let* _ := endLine "field" in
        fields fuel' (acc ++ [mkField (t_text t) ty (t_pos t) 0])
      else fail (t_pos t) (Expected "field name or '}'" t)
  end.

Definition message (fuel : nat) : parser Message :=
  let* name := expect tIdent "message name" in
  let* _ := expect tEq "'='" in
  let* idTok := expect tNumber "type ID" in
  match parseNum (t_text idTok) 32 with
  | None => fail (t_pos idTok) (NotU32 (t_text idTok))
  | Some id =>
      let* _ := expect tLBrace "'{'" in
      let* fs := fields fuel [] in
      ret (mkMessage (t_text name) id fs (t_pos name) (t_pos idTok) 0 0)
  end.

(** The messages of a schema up to the end of the file. *)
Fixpoint messages (fuel : nat) (acc : list Message) : parser (list Message) :=
  match fuel with
  | O => fun _ => NoFuel
  | S fuel' =>
      let* _ := skipNewlines in
      let* t := next in
      if decide (t_kind t = tEOF) then ret acc
      else if decide (t_kind t = tIdent /\ t_text t = "package"%string) then fail (t_pos t) PackageTwice
      else if decide (t_kind t = tIdent /\ t_text t = "message"%string) then
        let* m := message fuel in
        messages fuel' (acc ++ [m])
      else fail (t_pos t) (Expected "'message'" t)
  end.

Definition schema_p (fuel : nat) (file : string) : parser Schema :=
  let* _ := skipNewlines in
  let* t := next in
  if decide (t_kind t = tIdent /\ t_text t = "package"%string) then
    let* name := expect tIdent "package name" in
    let* _ := endLine "package name" in
    let* ms := messages fuel [] in
    ret (mkSchema file (t_text name) (t_pos name) ms [] ∅)
  else fail (t_pos t) (Expected "'package'" t).

Definition Parse (file : string) (src : list byte) : option (parse_error + Schema) :=
  match lex src with
  | None => None
  | Some (inl e) => Some (inl e)
  | Some (inr toks) =>
      match schema_p (S (List.length toks)) file toks with
      | Done s _ => Some (inr s)
      | Fail e => Some (inl e)
      | NoFuel => None
      end
  end.
