(* ===== verification/ParseThm.v ===== *)
(** * The schema parser returns

    The lexer and the parser end on every input, within the fuel [Parse] gives them. *)

From stdpp Require Import base numbers list list_numbers option strings gmap.
From coqutil Require Import Byte Word.LittleEndianList.
From Stdlib Require Import ZArith Lia Bool String Ascii.
From S2P Require Import Prelude GoStd Schema Parse.

#[local] Open Scope Z_scope.

Create HintDb codec.

(** ** Runes *)

Lemma in_range_spec lo x hi : in_range lo x hi = true <-> lo <= x <= hi.
Proof. unfold in_range. rewrite andb_true_iff, !Z.leb_le. lia. Qed.

Lemma DecodeRune_ascii b rest : byte.unsigned b < 128 -> DecodeRune (b :: rest) = (byte.unsigned b, 1%nat).
Proof. intros H. cbn. by rewrite (proj2 (Z.ltb_lt _ _) H). Qed.

(** The first byte of a sequence of two or more. *)
Definition first_ok (b : Z) : bool :=
  match utf8_first b with
  | Some (2%nat, _, _) => 128 <=? Z.shiftl (Z.land b 0x1F) 6
  | Some (3%nat, lo, hi) => (0 <? Z.land b 0x0F) || ((lo =? 0xA0) && (hi =? 0xBF))
  | Some (4%nat, lo, hi) => (0 <? Z.land b 0x07) || ((lo =? 0x90) && (hi =? 0xBF))
  | Some _ => false
  | None => true
  end.

Lemma first_ok_all b : first_ok (byte.unsigned b) = true.
Proof. by destruct b. Qed.

Lemma lor_big a b : 0 <= a -> 0 <= b -> 128 <= a \/ 128 <= b -> 128 <= Z.lor a b.
Proof.
  intros Ha Hb H. assert (Hl : 0 <= Z.lor a b) by (by apply Z.lor_nonneg).
  assert (Hp : 0 < Z.lor a b).
  { destruct (decide (Z.lor a b = 0)) as [E|]; [|lia]. apply Z.lor_eq_0_iff in E. lia. }
  change 128 with (2 ^ 7). apply Z.log2_le_pow2; [done|]. rewrite Z.log2_lor by done.
  destruct H as [H|H]; apply (Z.log2_le_mono 128) in H; change (Z.log2 128) with 7 in H; lia.
Qed.

Lemma shift_nonneg a m n : 0 <= Z.shiftl (Z.land a (Zpos m)) n.
Proof. apply Z.shiftl_nonneg, Z.land_nonneg. right. lia. Qed.

Lemma land_nonneg a m : 0 <= Z.land a (Zpos m).
Proof. apply Z.land_nonneg. right. lia. Qed.

(** The second byte of a sequence that starts with E0 or F0. *)
Definition second_ok (b : byte) : bool :=
  let b := byte.unsigned b in
  (negb (in_range 0xA0 b 0xBF) || (128 <=? Z.shiftl (Z.land b 0x3F) 6)) &&
  (negb (in_range 0x90 b 0xBF) || (128 <=? Z.shiftl (Z.land b 0x3F) 12)).

Lemma second_ok_all b : second_ok b = true.
Proof. by destruct b. Qed.

#[local] Hint Resolve shift_nonneg land_nonneg : codec.

Lemma shift_big a n : 0 < a -> 7 <= n -> 128 <= Z.shiftl a n.
Proof.
  intros Ha Hn. rewrite Z.shiftl_mul_pow2 by lia. assert (2 ^ 7 <= 2 ^ n) by (apply Z.pow_le_mono_r; lia). nia.
Qed.

(** A rune that starts with a byte of 128 or more is not ASCII; every rune takes at
    least one byte. *)
Lemma DecodeRune_spec b rest :
  (1 <= (DecodeRune (b :: rest)).2)%nat /\ (128 <= byte.unsigned b -> 128 <= (DecodeRune (b :: rest)).1).
Proof.
  cbn [DecodeRune fmap list_fmap]. destruct (Z.ltb_spec (byte.unsigned b) 128) as [Hlt|Hge]; [split; cbn; lia|].
  pose proof (first_ok_all b) as Hf. unfold first_ok in Hf.
  assert (Herr : (1 <= (RuneError, 1%nat).2)%nat /\ (128 <= byte.unsigned b -> 128 <= (RuneError, 1%nat).1))
    by (cbn; unfold RuneError; lia).
  destruct (utf8_first (byte.unsigned b)) as [[[w lo] hi]|]; [|done].
  destruct w as [|[|[|[|[|w]]]]]; try done; destruct rest as [|b1 rest]; try done; cbn [fmap list_fmap].
  - destruct (in_range lo (byte.unsigned b1) hi); [|exact Herr]. split; [cbn; lia|]. intros _.
    apply lor_big; auto with codec. left. by apply Z.leb_le.
  - destruct rest as [|b2 rest]; [done|]. cbn [fmap list_fmap].
    destruct (in_range lo (byte.unsigned b1) hi) eqn:E1; [|done]. destruct (cont _); [|done]. cbn [andb].
    split; [cbn; lia|]. intros _. cbn [fst]. apply lor_big; auto with codec.
    { apply Z.lor_nonneg. auto with codec. }
    apply orb_true_iff in Hf as [Hf|Hf]; [left; apply shift_big; [by apply Z.ltb_lt|lia]|right].
    apply andb_true_iff in Hf as [->%Z.eqb_eq ->%Z.eqb_eq]. pose proof (second_ok_all b1) as H2. unfold second_ok in H2.
    rewrite E1 in H2. apply andb_true_iff in H2 as [H2 _]. cbn [negb orb] in H2.
    apply lor_big; auto with codec. left. by apply Z.leb_le.
  - destruct rest as [|b2 [|b3 rest]]; try done. cbn [fmap list_fmap].
    destruct (in_range lo (byte.unsigned b1) hi) eqn:E1; [|done]. destruct (cont _); [|done].
    destruct (cont _); [|done]. cbn [andb]. split; [cbn; lia|]. intros _. cbn [fst].
    assert (Hin : forall x y, 0 <= Z.lor (Z.shiftl (Z.land x 63) 6) (Z.land y 63)).
    { intros. apply Z.lor_nonneg. auto with codec. }
    apply lor_big; auto with codec. { apply Z.lor_nonneg. auto with codec. }
    apply orb_true_iff in Hf as [Hf|Hf]; [left; apply shift_big; [by apply Z.ltb_lt|lia]|right].
    apply andb_true_iff in Hf as [->%Z.eqb_eq ->%Z.eqb_eq]. pose proof (second_ok_all b1) as H2. unfold second_ok in H2.
    rewrite E1 in H2. apply andb_true_iff in H2 as [_ H2]. cbn [negb orb] in H2.
    apply lor_big; auto with codec. left. by apply Z.leb_le.
Qed.

(** ** The lexer *)

(** A list of tokens that ends with its only [tEOF]. *)
Inductive eof_ended : list token -> Prop :=
| EE_end t : t_kind t = tEOF -> eof_ended [t]
| EE_cons t ts : t_kind t <> tEOF -> eof_ended ts -> eof_ended (t :: ts).

Lemma skip_comment_le fuel src : (List.length (skip_comment fuel src) <= List.length src)%nat.
Proof.
  revert src. induction fuel as [|fuel IH]; intros [|b src]; cbn [skip_comment]; try done.
  destruct (byte.unsigned b =? 10); [done|]. etrans; [apply IH|]. rewrite length_drop. lia.
Qed.

(** A comment takes at least its first character. *)
Lemma skip_comment_lt fuel b src :
  byte.unsigned b <> 10 -> (List.length (skip_comment (S fuel) (b :: src)) <= List.length src)%nat.
Proof.
  intros Hb. cbn [skip_comment]. rewrite (proj2 (Z.eqb_neq _ _) Hb). etrans; [apply skip_comment_le|].
  destruct (DecodeRune_spec b src) as [Hw _]. rewrite length_drop. cbn [List.length]. lia.
Qed.

Lemma span_ident_le src : (List.length (span_ident src).2 <= List.length src)%nat.
Proof.
  induction src as [|b src IH]; cbn [span_ident]; [done|]. destruct (isIdentByte b); [|done].
  destruct (span_ident src) as [w r]. cbn in *. lia.
Qed.

(** A character that starts a name or a number is one byte of it. *)
Lemma span_ident_lt b src :
  isIdentStart (DecodeRune (b :: src)).1 || isDigit (DecodeRune (b :: src)).1 = true ->
  (List.length (span_ident (b :: src)).2 <= List.length src)%nat.
Proof.
  intros H. destruct (DecodeRune_spec b src) as [_ Hbig].
  destruct (decide (byte.unsigned b < 128)) as [Hlt|Hge].
  - rewrite DecodeRune_ascii in H by done. cbn [span_ident]. unfold isIdentByte. cbn [fst] in H. rewrite H.
    pose proof (span_ident_le src). destruct (span_ident src) as [w r]. done.
  - exfalso. specialize (Hbig ltac:(lia)). unfold isIdentStart, isDigit in H.
    rewrite !orb_true_iff, !in_range_spec, Z.eqb_eq in H. lia.
Qed.

Definition emitted (r : option (parse_error + list token)) : Prop :=
  match r with Some (inr toks) => eof_ended toks | Some (inl _) => True | None => False end.

Lemma emit_ok t r :
  t_kind t <> tEOF -> emitted r -> emitted (match r with Some (inr toks) => Some (inr (t :: toks)) | _ => r end).
Proof. intros Ht. destruct r as [[e|toks]|]; cbn; try done. by constructor. Qed.

Lemma punctuation_not_eof r k : punctuation r = Some k -> k <> tEOF.
Proof. unfold punctuation. repeat case_match; congruence. Qed.

Lemma lex_loop_total fuel src line col : (List.length src < fuel)%nat -> emitted (lex_loop fuel src line col).
Proof.
  revert src line col. induction fuel as [|fuel IH]; intros src line col Hf; [lia|]. cbn [lex_loop].
  destruct src as [|b rest]; [by constructor|]. cbn [List.length] in Hf.
  destruct (DecodeRune_spec b rest) as [Hw Hbig]. pose proof (span_ident_lt b rest) as Hspan.
  assert (Hlf : byte.unsigned b < 128 -> DecodeRune (b :: rest) = (byte.unsigned b, 1%nat)) by apply DecodeRune_ascii.
  destruct (DecodeRune (b :: rest)) as [r w] eqn:Hr. cbn [fst snd] in *.
  destruct (r =? 10); [apply emit_ok; [done|apply IH; lia]|].
  destruct ((r =? 32) || (r =? 9) || (r =? 13)); [apply IH; lia|].
  destruct (Z.eqb_spec r 35) as [->|].
  { apply IH. eapply Nat.le_lt_trans; [apply skip_comment_lt|lia]. intros Hb. specialize (Hlf ltac:(lia)). congruence. }
  destruct (isIdentStart r || isDigit r) eqn:Hid.
  { specialize (Hspan eq_refl). destruct (span_ident (b :: rest)) as [word after]. cbn [snd] in Hspan.
    apply emit_ok; [by destruct (isDigit r)|apply IH; lia]. }
  destruct (punctuation r) as [k|] eqn:Hk; [|done].
  apply emit_ok; [by eapply punctuation_not_eof|]. apply IH. rewrite length_drop. cbn [List.length]. lia.
Qed.

(** ** The parser *)

(** The parser returns from [ts] and has taken at least [n] tokens. *)
Definition takes {A} (n : nat) (ts : list token) (o : outcome A) : Prop :=
  match o with
  | Done _ rest => eof_ended rest /\ (n + List.length rest <= List.length ts)%nat
  | Fail _ => True
  | NoFuel => False
  end.

Lemma takes_bind {A B} n n' ts (p : parser A) (k : A -> parser B) :
  takes n ts (p ts) ->
  (forall a ts', p ts = Done a ts' -> eof_ended ts' -> (n + List.length ts' <= List.length ts)%nat ->
     takes n' ts' (k a ts')) ->
  takes (n + n') ts (bind p k ts).
Proof.
  unfold bind. intros Hp Hk. destruct (p ts) as [a ts'|e|]; cbn in *; try done. destruct Hp as [He Hl].
  specialize (Hk a ts' eq_refl He Hl). destruct (k a ts'); cbn in *; try done. destruct Hk. split; [done|lia].
Qed.

Lemma takes_weaken {A} n n' ts (o : outcome A) : (n' <= n)%nat -> takes n ts o -> takes n' ts o.
Proof. intros Hn. destruct o; cbn; try done. intros [? ?]. split; [done|lia]. Qed.

Lemma takes_suffix {A} n ts ts' (o : outcome A) :
  (List.length ts <= List.length ts')%nat -> takes n ts o -> takes n ts' o.
Proof. intros Hl. destruct o; cbn; try done. intros [? ?]. split; [done|lia]. Qed.

Lemma takes_ret {A} (a : A) ts : eof_ended ts -> takes 0 ts (ret a ts).
Proof. by split. Qed.

Lemma next_cases ts :
  eof_ended ts -> exists t, (t_kind t = tEOF /\ next ts = Done t ts) \/
    (t_kind t <> tEOF /\ exists rest, next ts = Done t rest /\ eof_ended rest /\ (S (List.length rest) = List.length ts)%nat).
Proof.
  intros [t Ht|t rest Ht Hr]; exists t; cbn [next].
  - left. split; [done|]. by rewrite decide_True.
  - right. split; [done|]. rewrite decide_False by done. eauto.
Qed.

Lemma takes_next ts : eof_ended ts -> takes 0 ts (next ts).
Proof.
  intros H. destruct (next_cases ts H) as (t & [[_ ->]|(_ & rest & -> & Hr & Hl)]); split; try done. lia.
Qed.

(** A token other than [tEOF] is taken. *)
Lemma takes_next_then {A} ts n (k : token -> parser A) :
  eof_ended ts ->
  (forall t, t_kind t = tEOF -> takes (S n) ts (k t ts)) ->
  (forall t rest, t_kind t <> tEOF -> eof_ended rest -> (S (List.length rest) = List.length ts)%nat -> takes n rest (k t rest)) ->
  takes (S n) ts (bind next k ts).
Proof.
  intros He H1 H2. unfold bind. destruct (next_cases ts He) as (t & [[Ht ->]|(Ht & rest & -> & Hr & Hl)]); [auto|].
  specialize (H2 t rest Ht Hr Hl). destruct (k t rest); cbn in *; try done. destruct H2. split; [done|lia].
Qed.

Lemma takes_expect kind what ts : kind <> tEOF -> eof_ended ts -> takes 1 ts (expect kind what ts).
Proof.
  intros Hk He. apply takes_next_then; [done| |].
  - intros t Ht. rewrite decide_False by congruence. done.
  - intros t rest Ht Hr Hl. destruct (decide _); [|done]. split; [done|lia].
Qed.

Lemma takes_skipNewlines ts : eof_ended ts -> takes 0 ts (skipNewlines ts).
Proof.
  unfold skipNewlines. induction 1 as [t Ht|t ts Ht Hr IH]; cbn [skip_newlines].
  - rewrite decide_False by congruence. split; [by constructor|done].
  - destruct (decide _); [|split; [by constructor|done]]. destruct IH. split; [done|cbn in *; lia].
Qed.

Lemma takes_endLine after ts : eof_ended ts -> takes 0 ts (endLine after ts).
Proof.
  intros He. unfold endLine, bind at 1, peek. destruct (decide _); [|done].
  apply (takes_bind 0 0); [by apply takes_next|]. intros. by apply takes_ret.
Qed.

Lemma takes_typ fuel ts : eof_ended ts -> (List.length ts <= fuel)%nat -> takes 1 ts (typ fuel ts).
Proof.
  revert ts. induction fuel as [|fuel IH]; intros ts He Hf; [by destruct He; cbn in Hf; lia|]. cbn [typ].
  apply takes_next_then; [done| |].
  - intros t Ht. by rewrite Ht.
  - intros t rest Ht Hr Hl. destruct (t_kind t); try done.
    apply (takes_weaken (1 + 2)); [lia|]. apply takes_bind; [by apply takes_expect|]. intros n ts1 _ H1 Hl1.
    destruct (parseNum (t_text n) 31); [|done].
    apply (takes_bind 1 1); [by apply takes_expect|]. intros _ ts2 _ H2 Hl2.
    apply (takes_bind 1 0); [apply IH; [done|lia]|]. intros. by apply takes_ret.
Qed.

Lemma takes_fields fuel acc ts : eof_ended ts -> (List.length ts <= fuel)%nat -> takes 0 ts (fields fuel acc ts).
Proof.
  revert acc ts. induction fuel as [|fuel IH]; intros acc ts He Hf; [by destruct He; cbn in Hf; lia|]. cbn [fields].
  apply (takes_bind 0 0); [by apply takes_skipNewlines|]. intros _ ts1 _ H1 Hl1. apply (takes_weaken 1); [lia|].
  apply takes_next_then; [done| |].
  - intros t Ht. rewrite !decide_False by congruence. done.
  - intros t rest Ht Hr Hl. destruct (decide (t_kind t = tRBrace)).
    { apply (takes_bind 0 0); [by apply takes_endLine|]. intros. by apply takes_ret. }
    destruct (decide _); [|done]. apply (takes_weaken (1 + 0)); [lia|].
    apply takes_bind; [apply takes_typ; [done|lia]|]. intros ty ts2 _ H2 Hl2.
    apply (takes_bind 0 0); [by apply takes_endLine|]. intros _ ts3 _ H3 Hl3. apply IH; [done|lia].
Qed.

Lemma takes_message fuel ts : eof_ended ts -> (List.length ts <= fuel)%nat -> takes 0 ts (message fuel ts).
Proof.
  intros He Hf. unfold message. apply (takes_weaken (1 + 0)); [lia|].
  apply takes_bind; [by apply takes_expect|]. intros name ts1 _ H1 L1. apply (takes_weaken (1 + 0)); [lia|].
  apply takes_bind; [by apply takes_expect|]. intros _ ts2 _ H2 L2. apply (takes_weaken (1 + 0)); [lia|].
  apply takes_bind; [by apply takes_expect|]. intros idTok ts3 _ H3 L3.
  destruct (parseNum (t_text idTok) 32); [|done]. apply (takes_weaken (1 + 0)); [lia|].
  apply takes_bind; [by apply takes_expect|]. intros _ ts4 _ H4 L4.
  apply (takes_bind 0 0); [apply takes_fields; [done|lia]|]. intros. by apply takes_ret.
Qed.

Lemma takes_messages fuel acc ts : eof_ended ts -> (List.length ts <= fuel)%nat -> takes 0 ts (messages fuel acc ts).
Proof.
  revert acc ts. induction fuel as [|fuel IH]; intros acc ts He Hf; [by destruct He; cbn in Hf; lia|].
  cbn [messages]. apply (takes_bind 0 0); [by apply takes_skipNewlines|]. intros _ ts1 _ H1 Hl1.
  unfold bind at 1. destruct (next_cases ts1 H1) as (t & [[Ht ->]|(Ht & rest & -> & Hr & Hl)]).
  { rewrite decide_True by done. by apply takes_ret. }
  rewrite decide_False by done. destruct (decide _); [done|]. destruct (decide _); [|done].
  apply (takes_suffix 0 rest); [lia|].
  apply (takes_bind 0 0); [apply takes_message; [done|lia]|]. intros m ts2 _ H2 Hl2. apply IH; [done|lia].
Qed.

Lemma Parse_returns (file : string) (src : list byte) :
  exists r, Parse file src = Some r /\ match r with inl _ => True | inr s => s_sorted s = [] /\ s_file s = file end.
Proof.
  unfold Parse, lex. pose proof (lex_loop_total (S (List.length src)) src 1 1 ltac:(lia)) as Hlex.
  destruct (lex_loop (S (List.length src)) src 1 1) as [[e|toks]|]; cbn [emitted] in Hlex; [by exists (inl e)| |done].
  assert (H : takes 0 toks (schema_p (S (List.length toks)) file toks)).
  { unfold schema_p. apply (takes_bind 0 0); [by apply takes_skipNewlines|]. intros _ ts1 _ H1 L1.
    apply (takes_bind 0 0); [by apply takes_next|]. intros t ts2 _ H2 L2. destruct (decide _); [|done].
    apply (takes_weaken (1 + 0)); [lia|]. apply takes_bind; [by apply takes_expect|]. intros name ts3 _ H3 L3.
    apply (takes_bind 0 0); [by apply takes_endLine|]. intros _ ts4 _ H4 L4.
    apply (takes_bind 0 0); [apply takes_messages; [done|lia]|]. intros. by apply takes_ret. }
  destruct (schema_p (S (List.length toks)) file toks) as [s rest|e|] eqn:Hs; [|by exists (inl e)|done].
  exists (inr s). split; [done|]. unfold schema_p, bind, ret in Hs. repeat (case_match; try done). by simplify_eq.
Qed.

(** ** Theorems *)

(** [Parse] returns a schema or an error on every input: the lexer and the parser
    take at least one byte or token in each pass. A schema it returns is not checked
    yet: it has no order and no references. *)
Theorem Parse_total (file : string) (src : list byte) :
  exists r, Parse file src = Some r /\ match r with inl _ => True | inr s => s_sorted s = [] /\ s_file s = file end.
Proof. apply Parse_returns. Qed.
