(* ===== verification/Check.v ===== *)
(** * Checking and laying out a schema ([src/ipcgen/internal/schema/check.go])

    [Check] runs the name checks, resolves references, sorts the messages so
    that each comes after the messages it contains, and places the fields. *)

From stdpp Require Import base numbers list list_numbers option strings gmap.
From Stdlib Require Import ZArith Lia Bool String Ascii.
From S2P Require Import Prelude GoStd Schema.

#[local] Open Scope Z_scope.

Definition maxFixedSize : Z := 2 ^ 31 - 1.

(** ** Errors *)

Inductive check_msg : Set :=
| BadPackage (name : string)
| BadMessageName (name : string)
| ReservedMessage (name : string)
| MessageTwice (name : string) (line : Z)
| SnakeClash (first second snake : string)
| ReservedID
| IDTwice (id : Z) (first : string)
| GoConstantClash (other name : string)
| BadFieldName (name : string)
| ReservedField (name : string)
| FieldTwice (name message : string)
| GoFieldClash (first second go : string)
| VarFieldType (field message : string)
| UnknownType (name : string)
| ArrayTooShort
| BadElement
| VarElement (message : string)
| ContainsItself (name : string) (path : list string)
| TooLarge (message : string).

Record check_error : Set := mkCheckError { ce_pos : Pos; ce_msg : check_msg }.

Definition pos_lt (a b : Pos) : bool :=
  if negb (Line a =? Line b) then Line a <? Line b else Col a <? Col b.

(** [ErrorList.sort] is stable: an error goes after those at the same position. *)
Fixpoint insert_error (e : check_error) (l : list check_error) : list check_error :=
  match l with
  | [] => [e]
  | x :: rest => if pos_lt (ce_pos e) (ce_pos x) then e :: l else x :: insert_error e rest
  end.
Definition sort_errors (l : list check_error) : list check_error :=
  foldl (fun acc e => insert_error e acc) [] l.

(** ** Names *)

(** The switch of [fieldNames]: [seen] has the names before and [gos] the Go names,
    each with the field it belongs to. *)
Definition field_error (m : Message) (seen : gmap string unit) (gos : gmap string string) (f : Field)
    : list check_error :=
  let goName := Camel (f_name f) in
  if negb (snakeName (f_name f)) then [mkCheckError (f_pos f) (BadFieldName (f_name f))]
  else if reserved reservedWords (f_name f) || HasPrefix (f_name f) "ipcgen" || reserved goMethods goName
  then [mkCheckError (f_pos f) (ReservedField (f_name f))]
  else match seen !! f_name f with
       | Some _ => [mkCheckError (f_pos f) (FieldTwice (f_name f) (m_name m))]
       | None =>
           match gos !! goName with
           | Some first => [mkCheckError (f_pos f) (GoFieldClash first (f_name f) goName)]
           | None => []
           end
       end.

(** One pass of the loop of [fieldNames]. *)
Definition field_step (m : Message) (st : gmap string unit * gmap string string * list check_error) (f : Field)
    : gmap string unit * gmap string string * list check_error :=
  let '(seen, gos, errs) := st in
  (<[f_name f := tt]> seen, <[Camel (f_name f) := f_name f]> gos, errs ++ field_error m seen gos f).

Definition fieldNames (m : Message) : list check_error := (foldl (field_step m) (∅, ∅, []) (m_fields m)).2.

Record names_state : Type := mkNames {
  n_byName : gmap string nat; n_snakes : gmap string string; n_ids : gmap Z string;
  n_errs : list check_error }.

(** The switch on the name of a message. *)
Definition message_error (ms : list Message) (byName : gmap string nat) (snakes : gmap string string) (m : Message)
    : list check_error :=
  let snake := Snake (m_name m) in
  if negb (messageName (m_name m)) then [mkCheckError (m_pos m) (BadMessageName (m_name m))]
  else if reserved pyNames (m_name m) || reserved goNames (m_name m) || HasPrefix snake "ipcgen"
  then [mkCheckError (m_pos m) (ReservedMessage (m_name m))]
  else match byName !! m_name m with
       | Some j =>
           let line := match ms !! j with Some other => Line (m_pos other) | None => 0 end in
           [mkCheckError (m_pos m) (MessageTwice (m_name m) line)]
       | None =>
           match snakes !! snake with
           | Some first => [mkCheckError (m_pos m) (SnakeClash first (m_name m) snake)]
           | None => []
           end
       end.

(** The switch on its ID. *)
Definition id_error (ids : gmap Z string) (m : Message) : list check_error :=
  if m_id m =? 0xFFFFFFFF then [mkCheckError (m_idpos m) ReservedID]
  else match ids !! m_id m with
       | Some first => [mkCheckError (m_idpos m) (IDTwice (m_id m) first)]
       | None => []
       end.

(** One pass of the loop of [names], for the message at index [i]. *)
Definition names_message (ms : list Message) (st : names_state) (i : nat) (m : Message) : names_state :=
  let byName :=
    match n_byName st !! m_name m with Some _ => n_byName st | None => <[m_name m := i]> (n_byName st) end in
  let ids :=
    match id_error (n_ids st) m with [] => <[m_id m := m_name m]> (n_ids st) | _ => n_ids st end in
  mkNames byName (<[Snake (m_name m) := m_name m]> (n_snakes st)) ids
    (n_errs st ++ message_error ms (n_byName st) (n_snakes st) m ++ id_error (n_ids st) m ++ fieldNames m).

Fixpoint names_loop (ms : list Message) (st : names_state) (i : nat) (todo : list Message) : names_state :=
  match todo with
  | [] => st
  | m :: todo => names_loop ms (names_message ms st i m) (S i) todo
  end.

Definition package_errors (s : Schema) : list check_error :=
  if negb (snakeName (s_package s)) || reserved reservedWords (s_package s)
     || HasPrefix (s_package s) "ipcgen"
  then [mkCheckError (s_pkgpos s) (BadPackage (s_package s))] else [].

Definition names (s : Schema) : Schema * list check_error :=
  let ms := s_messages s in
  let st := names_loop ms (mkNames ∅ ∅ ∅ (package_errors s)) 0 ms in
  let clashes :=
    mjoin ((fun m =>
      match n_byName st !! (m_name m ++ "Type")%string ≫= (fun j => ms !! j) with
      | Some other => [mkCheckError (m_pos other) (GoConstantClash (m_name other) (m_name m))]
      | None => []
      end) <$> ms) in
  (mkSchema (s_file s) (s_package s) (s_pkgpos s) ms (s_sorted s) (n_byName st), n_errs st ++ clashes).

(** ** Types *)

Definition is_fixed (ms : list Message) (i : nat) : bool :=
  match ms !! i with Some m => Fixed m | None => true end.

(** [resolve] sets the message of each reference and reports what is wrong. *)
Definition resolve_ref (s : Schema) (name : string) (pos : Pos) : Typ * list check_error :=
  let msg := Lookup s name in
  (TRef name msg pos,
   match msg with Some _ => [] | None => [mkCheckError pos (UnknownType name)] end).

Definition resolve (s : Schema) (t : Typ) : Typ * list check_error :=
  match t with
  | TRef name _ pos => resolve_ref s name pos
  | TArray len elem pos =>
      let errs := if len <? 1 then [mkCheckError pos ArrayTooShort] else [] in
      match elem with
      | TBasic k epos =>
          (t, errs ++ if IsVarKind k then [mkCheckError epos BadElement] else [])
      | TArray _ _ epos => (t, errs ++ [mkCheckError epos BadElement])
      | TRef name _ epos =>
          let '(elem, e1) := resolve_ref s name epos in
          let e2 :=
            match Lookup s name with
            | Some i => if is_fixed (s_messages s) i then [] else [mkCheckError epos (VarElement name)]
            | None => []
            end in
          (TArray len elem pos, errs ++ e1 ++ e2)
      end
  | TBasic _ _ => (t, [])
  end.

Definition type_field (s : Schema) (f : Field) : Field * list check_error :=
  let '(t, errs) := resolve s (f_type f) in
  let e :=
    match t with
    | TRef name (Some i) pos =>
        if is_fixed (s_messages s) i then [] else [mkCheckError pos (VarFieldType (f_name f) name)]
    | _ => []
    end in
  (mkField (f_name f) t (f_pos f) (f_offset f), errs ++ e).

Definition with_fields (m : Message) (fs : list Field) : Message :=
  mkMessage (m_name m) (m_id m) fs (m_pos m) (m_idpos m) (FixedSize m) (MAlign m).

Definition types (s : Schema) : Schema * list check_error :=
  let done := (fun m => (fun f => type_field s f) <$> m_fields m) <$> s_messages s in
  let ms := zip_with (fun m fs => with_fields m (fst <$> fs)) (s_messages s) done in
  (mkSchema (s_file s) (s_package s) (s_pkgpos s) ms (s_sorted s) (s_byName s),
   mjoin (snd <$> mjoin done)).

(** ** Cycles *)

Definition refOf (t : Typ) : option nat :=
  match t with
  | TRef _ msg _ => msg
  | TArray _ (TRef _ msg _) _ => msg
  | _ => None
  end.

(** The messages a message contains, in field order. *)
Definition contains (m : Message) : list nat := omap (fun f => refOf (f_type f)) (m_fields m).

Inductive color : Set := Active | Finished.

(** The map of colors has no entry for a message that was not seen. *)
Record dfs : Type := mkDfs {
  d_color : gmap nat color; d_stack : list nat; d_sorted : list nat; d_errs : list check_error }.

(** The names from the top of the stack down to [i], outermost first. *)
Fixpoint cycle_path (ms : list Message) (i : nat) (stack : list nat) (path : list string) : list string :=
  match stack with
  | [] => path
  | j :: rest =>
      let path := match ms !! j with Some m => m_name m :: path | None => path end in
      if decide (j = i) then path else cycle_path ms i rest path
  end.

(** [d_stack] has the innermost message first. [None] when the fuel ran out. *)
Fixpoint visit (fuel : nat) (ms : list Message) (i : nat) (d : dfs) : option dfs :=
  match fuel with
  | O => None
  | S fuel =>
      match d_color d !! i with
      | Some Active =>
          match ms !! i with
          | Some m =>
              Some (mkDfs (d_color d) (d_stack d) (d_sorted d)
                (d_errs d ++ [mkCheckError (m_pos m)
                   (ContainsItself (m_name m) (cycle_path ms i (d_stack d) []))]))
          | None => Some d
          end
      | Some Finished => Some d
      | None =>
          let d := mkDfs (<[i := Active]> (d_color d)) (i :: d_stack d) (d_sorted d) (d_errs d) in
          let fix visit_all (js : list nat) (d : dfs) : option dfs :=
            match js with
            | [] => Some d
            | j :: js => match visit fuel ms j d with Some d => visit_all js d | None => None end
            end in
          match visit_all (match ms !! i with Some m => contains m | None => [] end) d with
          | Some d =>
              Some (mkDfs (<[i := Finished]> (d_color d)) (tail (d_stack d)) (d_sorted d ++ [i]) (d_errs d))
          | None => None
          end
      end
  end.

Fixpoint visit_list (fuel : nat) (ms : list Message) (js : list nat) (d : dfs) : option dfs :=
  match js with
  | [] => Some d
  | j :: js => match visit fuel ms j d with Some d => visit_list fuel ms js d | None => None end
  end.

(** A path of active messages has no message twice, so the recursion is at most
    one deeper than there are messages. *)
Definition cycles (s : Schema) : option (Schema * list check_error) :=
  let ms := s_messages s in
  match visit_list (2 + List.length ms) ms (seq 0 (List.length ms)) (mkDfs ∅ [] (s_sorted s) []) with
  | Some d =>
      Some (mkSchema (s_file s) (s_package s) (s_pkgpos s) ms (d_sorted d) (s_byName s), d_errs d)
  | None => None
  end.

(** ** Layout *)

Definition roundUp (n a : Z) : Z := Z.quot (n + a - 1) a * a.

(** [fieldSize] is [Size] in int64. A length of an array is below 2^31 ([parse.go] reads it
    with 31 bits), the element of an array is not one, and the size of a message is at most
    2^31, so the product stays below 2^63 and no step wraps around. *)
Fixpoint fieldSize (ms : list Message) (t : Typ) : Z :=
  match t with
  | TArray len elem _ => len * fieldSize ms elem
  | _ => Size ms t
  end.

(** The loop over the fields: [off] and [align] so far. A fixed field gets its
    offset; [inl] is a fixed section that is too large. *)
Fixpoint place (ms : list Message) (name : string) (fs : list Field) (off align : Z)
    : check_error + (list Field * Z * Z) :=
  match fs with
  | [] => inr ([], off, align)
  | f :: fs =>
      if field_IsVar f then
        match place ms name fs off align with
        | inl e => inl e
        | inr (fs, off, align) => inr (f :: fs, off, align)
        end
      else
        let a := Align ms (f_type f) in
        let off := roundUp off a in
        let f' := mkField (f_name f) (f_type f) (f_pos f) off in
        let off := off + fieldSize ms (f_type f) in
        let align := if align <? a then a else align in
        if maxFixedSize <? off then inl (mkCheckError (f_pos f) (TooLarge name))
        else
          match place ms name fs off align with
          | inl e => inl e
          | inr (fs, off, align) => inr (f' :: fs, off, align)
          end
  end.

Definition layout_message (ms : list Message) (m : Message) : check_error + Message :=
  match place ms (m_name m) (m_fields m) 0 1 with
  | inl e => inl e
  | inr (fs, off, align) =>
      inr (mkMessage (m_name m) (m_id m) fs (m_pos m) (m_idpos m) (roundUp off align) align)
  end.

(** The messages in sorted order; the first that is too large ends the loop. *)
Fixpoint layout_loop (ms : list Message) (todo : list nat) : list Message * list check_error :=
  match todo with
  | [] => (ms, [])
  | i :: todo =>
      match ms !! i with
      | Some m =>
          match layout_message ms m with
          | inl e => (ms, [e])
          | inr m => layout_loop (<[i := m]> ms) todo
          end
      | None => layout_loop ms todo
      end
  end.

Definition layout (s : Schema) : Schema * list check_error :=
  let '(ms, errs) := layout_loop (s_messages s) (s_sorted s) in
  (mkSchema (s_file s) (s_package s) (s_pkgpos s) ms (s_sorted s) (s_byName s), errs).

(** ** Check *)

(** [None] when the fuel of [cycles] ran out. *)
Definition Check_ (s : Schema) : option (list check_error + Schema) :=
  let '(s, e1) := names s in
  let '(s, e2) := types s in
  match e1 ++ e2 with
  | [] =>
      match cycles s with
      | None => None
      | Some (s, []) =>
          let '(s, e4) := layout s in
          match e4 with [] => Some (inr s) | _ => Some (inl (sort_errors e4)) end
      | Some (_, e3) => Some (inl (sort_errors e3))
      end
  | errs => Some (inl (sort_errors errs))
  end.
