(* ===== verification/CheckThm.v ===== *)
(** * What a checked schema satisfies

    [Check] terminates; a schema it accepts has distinct names and IDs, its
    messages are sorted so that each follows the messages it contains, and its
    layout places the fields in order, aligned and without overlap. *)

From stdpp Require Import base numbers list list_numbers option strings gmap.
From Stdlib Require Import ZArith Lia Bool String Ascii Sorted Permutation.
From S2P Require Import Prelude GoStd Schema Check.

#[local] Open Scope Z_scope.

(** ** Errors *)

(** No error comes before one at an earlier position. *)
Definition errors_sorted : list check_error -> Prop :=
  StronglySorted (fun e e' => pos_lt (ce_pos e') (ce_pos e) = false).

Lemma pos_lt_spec a b : pos_lt a b = true <-> Line a < Line b \/ (Line a = Line b /\ Col a < Col b).
Proof. unfold pos_lt. destruct (Z.eqb_spec (Line a) (Line b)); cbn [negb]; rewrite Z.ltb_lt; lia. Qed.

Lemma pos_lt_false a b : pos_lt a b = false <-> Line b < Line a \/ (Line b = Line a /\ Col b <= Col a).
Proof. rewrite <-not_true_iff_false, pos_lt_spec. lia. Qed.

Lemma insert_error_perm e l : insert_error e l ≡ₚ e :: l.
Proof.
  induction l as [|x l IH]; [done|]. cbn. destruct (pos_lt _ _); [done|].
  eapply perm_trans; [apply perm_skip, IH|apply perm_swap].
Qed.

Lemma insert_error_sorted e l : errors_sorted l -> errors_sorted (insert_error e l).
Proof.
  unfold errors_sorted. induction 1 as [|x l Hs IH Hx]; [repeat constructor|]. cbn.
  destruct (pos_lt (ce_pos e) (ce_pos x)) eqn:E.
  - constructor; [by constructor|]. apply pos_lt_spec in E. constructor; [apply pos_lt_false; lia|].
    eapply Forall_impl; [exact Hx|]. cbn. intros y Hy%pos_lt_false. apply pos_lt_false. lia.
  - constructor; [done|]. eapply (Permutation_Forall (Permutation_sym (insert_error_perm e l))). by constructor.
Qed.

Lemma sort_errors_spec l : errors_sorted (sort_errors l) /\ sort_errors l ≡ₚ l.
Proof.
  unfold sort_errors. induction l as [|e l IH] using rev_ind; [split; [constructor|done]|].
  rewrite foldl_app. cbn. destruct IH as [H1 H2]. split; [by apply insert_error_sorted|].
  eapply perm_trans; [apply insert_error_perm|]. eapply perm_trans; [apply perm_skip, H2|].
  apply Permutation_cons_append.
Qed.

(** An element without duplicates splits a list in one way. *)
Lemma NoDup_app_inj {A} (x : A) l1 l2 k1 k2 :
  NoDup (l1 ++ x :: l2) -> l1 ++ x :: l2 = k1 ++ x :: k2 -> l1 = k1.
Proof.
  revert k1. induction l1 as [|y l1 IH]; intros [|z k1] Hnd E; cbn in *; simplify_eq; try done.
  - apply NoDup_cons in Hnd as [Hx _]. destruct Hx. rewrite elem_of_app, elem_of_cons. auto.
  - apply NoDup_cons in Hnd as [Hx _]. destruct Hx. rewrite elem_of_app, elem_of_cons. auto.
  - f_equal. apply NoDup_cons in Hnd as [_ Hnd]. by apply IH.
Qed.

(** ** Cycles *)

Section cycles.
Context (ms : list Message).
Let n := List.length ms.

(** The messages that message [i] contains. *)
Definition refs (i : nat) : list nat := match ms !! i with Some m => contains m | None => [] end.

Context (Hrefs : forall i j, j ∈ refs i -> (j < n)%nat).

(** Every message of the list comes after the messages it contains. *)
Definition topological (l : list nat) : Prop :=
  forall l1 i l2, l = l1 ++ i :: l2 -> forall j, j ∈ refs i -> j ∈ l1.

Record dfs_ok (d : dfs) : Prop := {
  do_stack : NoDup (d_stack d);
  do_bound : forall i, i ∈ d_stack d -> (i < n)%nat;
  do_active : forall i, d_color d !! i = Some Active <-> i ∈ d_stack d;
  do_done : forall i, d_color d !! i = Some Finished <-> i ∈ d_sorted d;
  do_nodup : NoDup (d_sorted d);
  do_sorted : forall i, i ∈ d_sorted d -> (i < n)%nat;
  do_topo : d_errs d = [] -> topological (d_sorted d) }.

(** What a visit of [js] leaves. *)
Record visited (js : list nat) (d d' : dfs) : Prop := {
  vi_ok : dfs_ok d';
  vi_stack : d_stack d' = d_stack d;
  vi_sorted : exists new, d_sorted d' = d_sorted d ++ new;
  vi_errs : exists more, d_errs d' = d_errs d ++ more;
  vi_done : d_errs d' = [] -> forall j, j ∈ js -> j ∈ d_sorted d' }.

Lemma visit_unfold fuel i d :
  visit (S fuel) ms i d =
  match d_color d !! i with
  | Some Active =>
      match ms !! i with
      | Some m =>
          Some (mkDfs (d_color d) (d_stack d) (d_sorted d)
            (d_errs d ++ [mkCheckError (m_pos m)
               (ContainsItself (m_name m) (cycle_path ms i (d_stack d) []))]))
      | None => Some d
      end
  | Some Finished => Some d
  | None =>
      match visit_list fuel ms (refs i)
              (mkDfs (<[i := Active]> (d_color d)) (i :: d_stack d) (d_sorted d) (d_errs d)) with
      | Some d =>
          Some (mkDfs (<[i := Finished]> (d_color d)) (tail (d_stack d)) (d_sorted d ++ [i]) (d_errs d))
      | None => None
      end
  end.
Proof using.
  assert (Hin : forall js d0,
    (fix visit_all (js : list nat) (d : dfs) : option dfs :=
       match js with
       | [] => Some d
       | j :: js => match visit fuel ms j d with Some d => visit_all js d | None => None end
       end) js d0 = visit_list fuel ms js d0).
  { induction js as [|j js IH]; intros d0; [done|]. cbn. destruct (visit fuel ms j d0); [apply IH|done]. }
  cbn [visit]. unfold refs. destruct (d_color d !! i) as [[]|]; try done. by rewrite Hin.
Qed.

Lemma stack_le d : dfs_ok d -> (List.length (d_stack d) <= n)%nat.
Proof using.
  intros H. rewrite <-(length_seq n 0). apply NoDup_incl_length.
  - apply NoDup_ListNoDup. apply H.
  - intros i Hi%list_elem_of_In%(do_bound _ H). apply in_seq. lia.
Qed.

(** Visiting the references one after the other. *)
Lemma visit_list_ok fuel js d :
  (forall j d, dfs_ok d -> (j < n)%nat -> (n + 2 <= List.length (d_stack d) + fuel)%nat ->
     exists d', visit fuel ms j d = Some d' /\ visited [j] d d') ->
  dfs_ok d -> (forall j, j ∈ js -> (j < n)%nat) -> (n + 2 <= List.length (d_stack d) + fuel)%nat ->
  exists d', visit_list fuel ms js d = Some d' /\ visited js d d'.
Proof using.
  intros Hvisit. revert d. induction js as [|j js IH]; intros d Hd Hjs Hf; cbn [visit_list].
  - exists d. split; [done|]. split; try done; [by exists []; rewrite app_nil_r..|].
    intros _ j Hj. by apply elem_of_nil in Hj.
  - destruct (Hvisit j d Hd) as (d1 & -> & V1); [apply Hjs; by left|done|].
    destruct (IH d1) as (d2 & -> & V2); [apply V1|intros; apply Hjs; by right|by rewrite (vi_stack _ _ _ V1)|].
    exists d2. split; [done|]. destruct (vi_sorted _ _ _ V1) as [new1 Hs1], (vi_sorted _ _ _ V2) as [new2 Hs2].
    destruct (vi_errs _ _ _ V1) as [e1 He1], (vi_errs _ _ _ V2) as [e2 He2].
    split; [apply V2|rewrite (vi_stack _ _ _ V2); apply V1|exists (new1 ++ new2); by rewrite Hs2, Hs1, app_assoc
           |exists (e1 ++ e2); by rewrite He2, He1, app_assoc|].
    intros Hno j' [->|Hj']%elem_of_cons; [|by apply (vi_done _ _ _ V2)].
    rewrite Hs2, elem_of_app. left. apply (vi_done _ _ _ V1); [|by left].
    rewrite He2 in Hno. by apply app_nil in Hno as [? _].
Qed.

Lemma push_ok d i :
  dfs_ok d -> (i < n)%nat -> d_color d !! i = None ->
  dfs_ok (mkDfs (<[i := Active]> (d_color d)) (i :: d_stack d) (d_sorted d) (d_errs d)).
Proof using.
  intros [H1 H2 H3 H4 H5 H6 H7] Hi Hnew. split; cbn; try done.
  - constructor; [|done]. rewrite <-H3, Hnew. done.
  - intros j [->|Hj]%elem_of_cons; auto.
  - intros j. rewrite elem_of_cons. destruct (decide (j = i)) as [->|Hne].
    + rewrite lookup_insert_eq. naive_solver.
    + rewrite lookup_insert_ne by done. rewrite H3. naive_solver.
  - intros j. destruct (decide (j = i)) as [->|Hne].
    + rewrite lookup_insert_eq, <-H4, Hnew. naive_solver.
    + by rewrite lookup_insert_ne by done.
Qed.

(** Leaving a message once its references were visited. *)
Lemma pop_ok d i st :
  dfs_ok d -> d_stack d = i :: st -> (d_errs d = [] -> forall j, j ∈ refs i -> j ∈ d_sorted d) ->
  dfs_ok (mkDfs (<[i := Finished]> (d_color d)) st (d_sorted d ++ [i]) (d_errs d)).
Proof using.
  intros [H1 H2 H3 H4 H5 H6 H7] Hst Hrs. rewrite Hst in *.
  assert (Hact : d_color d !! i = Some Active) by (apply H3; by left).
  apply NoDup_cons in H1 as [Hni Hnd]. split; cbn; try done.
  - intros j Hj. apply H2. by right.
  - intros j. destruct (decide (j = i)) as [->|Hne].
    + rewrite lookup_insert_eq. naive_solver.
    + rewrite lookup_insert_ne, H3, elem_of_cons by done. naive_solver.
  - intros j. rewrite elem_of_app, list_elem_of_singleton. destruct (decide (j = i)) as [->|Hne].
    + rewrite lookup_insert_eq. naive_solver.
    + rewrite lookup_insert_ne, H4 by done. naive_solver.
  - apply NoDup_app. split; [done|]. split; [|apply NoDup_singleton].
    intros j Hj ->%list_elem_of_singleton. apply H4 in Hj. congruence.
  - intros j [Hj| ->%list_elem_of_singleton]%elem_of_app; [auto|apply H2; by left].
  - intros Hno l1 j l2 E. destruct (decide (l2 = [])) as [->|Hne].
    + apply app_inj_tail in E as [<- <-]. by apply Hrs.
    + destruct (exists_last Hne) as (l2' & x & ->).
      rewrite app_comm_cons, app_assoc in E. apply app_inj_tail in E as [E _]. by apply (H7 Hno l1 j l2').
Qed.

Lemma visit_ok fuel i d :
  dfs_ok d -> (i < n)%nat -> (n + 2 <= List.length (d_stack d) + fuel)%nat ->
  exists d', visit fuel ms i d = Some d' /\ visited [i] d d'.
Proof using Hrefs.
  revert i d. induction fuel as [|fuel IH]; intros i d Hd Hi Hf.
  { pose proof (stack_le d Hd). lia. }
  rewrite visit_unfold. destruct (d_color d !! i) as [[]|] eqn:Hcol.
  - destruct (lookup_lt_is_Some_2 ms i Hi) as [m Hm]. rewrite Hm. eexists. split; [reflexivity|].
    split; cbn; [|done|by exists []; rewrite app_nil_r|eauto|].
    + destruct Hd as [H1 H2 H3 H4 H5 H6 H7]. split; cbn; try done.
      intros E. by apply app_nil in E as [_ ?].
    + intros E. by apply app_nil in E as [_ ?].
  - exists d. split; [done|]. split; try done; [by exists []; rewrite app_nil_r..|].
    intros _ j ->%list_elem_of_singleton. by apply (do_done _ Hd).
  - destruct (visit_list_ok fuel (refs i)
      (mkDfs (<[i := Active]> (d_color d)) (i :: d_stack d) (d_sorted d) (d_errs d)) IH) as (d1 & -> & V1).
    + by apply push_ok.
    + intros j Hj. by eapply Hrefs.
    + cbn. lia.
    + destruct V1 as [Hok1 Hst1 [new Hs1] [more He1] Hdone1]. cbn in Hst1, Hs1, He1.
      eexists. split; [reflexivity|]. rewrite Hst1. split; cbn; try done.
      * apply pop_ok; try done.
      * exists (new ++ [i]). by rewrite Hs1, app_assoc.
      * by exists more.
      * intros _ j ->%list_elem_of_singleton. rewrite elem_of_app, list_elem_of_singleton. auto.
Qed.

(** A cycle is reported only when there is one. *)
Definition contained (i j : nat) : Prop := j ∈ refs i.

(** Each message of the stack contains the one above it. *)
Fixpoint nested (i : nat) (stack : list nat) : Prop :=
  match stack with [] => True | j :: rest => contained j i /\ nested j rest end.

Lemma nested_path i j stack : nested i stack -> j ∈ stack -> tc contained j i.
Proof using.
  revert i. induction stack as [|k stack IH]; intros i Hn Hj; [by apply elem_of_nil in Hj|].
  destruct Hn as [Hk Hn]. apply elem_of_cons in Hj as [->|Hj]; [by apply tc_once|].
  eapply tc_r; [by apply IH|done].
Qed.

Lemma visit_list_cyclic fuel js d d' :
  (forall j d d', dfs_ok d -> (j < n)%nat -> (n + 2 <= List.length (d_stack d) + fuel)%nat ->
     nested j (d_stack d) -> visit fuel ms j d = Some d' -> d_errs d = [] ->
     d_errs d' <> [] -> exists k, tc contained k k) ->
  dfs_ok d -> (forall j, j ∈ js -> (j < n)%nat /\ nested j (d_stack d)) ->
  (n + 2 <= List.length (d_stack d) + fuel)%nat -> visit_list fuel ms js d = Some d' -> d_errs d = [] ->
  d_errs d' <> [] -> exists k, tc contained k k.
Proof using Hrefs.
  intros Hvisit. revert d. induction js as [|j js IH]; intros d Hd Hjs Hf; cbn [visit_list].
  { by intros [= ->]. }
  destruct (Hjs j) as [Hj Hn]; [by left|].
  destruct (visit_ok fuel j d Hd) as (d1 & Hv1 & V1); [done..|]. rewrite Hv1. intros Hv2 He Hne.
  destruct (decide (d_errs d1 = [])) as [He1|He1]; [|by eapply (Hvisit j d d1)].
  eapply (IH d1); [apply V1|intros; rewrite (vi_stack _ _ _ V1); apply Hjs; by right
    |by rewrite (vi_stack _ _ _ V1)|done..].
Qed.

Lemma visit_cyclic fuel j d d' :
  dfs_ok d -> (j < n)%nat -> (n + 2 <= List.length (d_stack d) + fuel)%nat -> nested j (d_stack d) ->
  visit fuel ms j d = Some d' -> d_errs d = [] -> d_errs d' <> [] -> exists k, tc contained k k.
Proof using Hrefs.
  revert j d d'. induction fuel as [|fuel IH]; intros j d d' Hd Hj Hf Hn; [done|].
  rewrite visit_unfold. destruct (d_color d !! j) as [[]|] eqn:Hcol.
  - intros _ _ _. exists j. eapply nested_path; [done|]. by apply (do_active _ Hd).
  - by intros [= ->].
  - destruct (visit_list _ _ _ _) as [d1|] eqn:Hv; [|done]. intros [= <-] He Hne.
    eapply (visit_list_cyclic fuel (refs j) _ d1); [exact IH| | | |exact Hv|done..].
    + by apply push_ok.
    + intros k Hk. split; [by eapply Hrefs|]. by split.
    + cbn. lia.
Qed.

Lemma topological_acyclic l : topological l -> (forall i j, contained i j -> i ∈ l) ->
  NoDup l -> forall i, ~ tc contained i i.
Proof using.
  intros Ht Hall Hnd.
  assert (Hlt : forall i j, tc contained i j -> exists l1 l2 l3, l = l1 ++ j :: l2 ++ i :: l3).
  { induction 1 as [i j Hij|i j k Hij _ IH].
    - destruct (list_elem_of_split _ _ (Hall _ _ Hij)) as (l1 & l2 & El).
      destruct (list_elem_of_split _ _ (Ht _ _ _ El j Hij)) as (l3 & l4 & ->).
      exists l3, l4, l2. by rewrite El, <-app_assoc.
    - destruct IH as (l1 & l2 & l3 & El).
      destruct (list_elem_of_split _ _ (Hall _ _ Hij)) as (k1 & k2 & Ek).
      assert (Hin : k ∈ k1).
      { destruct (list_elem_of_split _ _ (Ht _ _ _ Ek j Hij)) as (k3 & k4 & ->). rewrite <-app_assoc in Ek. cbn in Ek.
        assert (Hpre : l1 ++ k :: l2 = k3).
        { apply (NoDup_app_inj j _ l3 _ (k4 ++ i :: k2)); rewrite <-?app_assoc; cbn; [by rewrite <-El|congruence]. }
        rewrite <-Hpre. rewrite !elem_of_app, elem_of_cons. auto. }
      destruct (list_elem_of_split _ _ Hin) as (k3 & k4 & ->).
      exists k3, k4, k2. by rewrite Ek, <-app_assoc. }
  intros i Hc. destruct (Hlt i i Hc) as (l1 & l2 & l3 & El). rewrite El in Hnd.
  apply NoDup_app in Hnd as (_ & _ & Hnd). apply NoDup_cons in Hnd as [Hni _]. apply Hni.
  rewrite elem_of_app, elem_of_cons. auto.
Qed.

Lemma dfs_start : dfs_ok (mkDfs ∅ [] [] []).
Proof using.
  split; cbn; try (intros i; rewrite ?lookup_empty; split; [done|by intros ?%elem_of_nil]); try constructor.
  - intros i Hi. by apply elem_of_nil in Hi.
  - intros i Hi. by apply elem_of_nil in Hi.
  - intros _ l1 i l2 E. by destruct l1.
Qed.

(** The fuel is enough; a cycle is reported exactly when there is one, and without
    one the order is complete and topological. *)
Lemma cycles_order :
  exists d, visit_list (2 + n) ms (seq 0 n) (mkDfs ∅ [] [] []) = Some d /\
    (d_errs d = [] <-> forall i, ~ tc contained i i) /\
    (d_errs d = [] -> NoDup (d_sorted d) /\ topological (d_sorted d) /\
       forall i, i ∈ d_sorted d <-> (i < n)%nat).
Proof using Hrefs.
  assert (Hseq : forall j, j ∈ seq 0 n -> (j < n)%nat) by (intros j Hj%elem_of_seq; lia).
  destruct (visit_list_ok (2 + n) (seq 0 n) (mkDfs ∅ [] [] [])) as (d & Hv & V);
    [intros; by apply visit_ok|apply dfs_start|done|cbn; lia|].
  pose proof (vi_ok _ _ _ V) as Hok. exists d. split; [done|].
  assert (Horder : d_errs d = [] -> NoDup (d_sorted d) /\ topological (d_sorted d) /\
       forall i, i ∈ d_sorted d <-> (i < n)%nat).
  { intros Hno. split_and!; [apply Hok|by apply Hok|]. intros i. split; [apply Hok|].
    intros Hi. apply (vi_done _ _ _ V Hno), elem_of_seq. lia. }
  split; [|done]. split.
  - intros Hno. destruct (Horder Hno) as (Hnd & Ht & Hall). apply (topological_acyclic _ Ht); [|done].
    intros i j Hij. apply Hall. unfold contained, refs in Hij. destruct (ms !! i) eqn:Hm; [by eapply lookup_lt_Some|].
    by apply elem_of_nil in Hij.
  - intros Hac. destruct (decide (d_errs d = [])) as [|Hne]; [done|].
    destruct (visit_list_cyclic (2 + n) (seq 0 n) (mkDfs ∅ [] [] []) d) as [k Hk]; try done.
    + intros *. apply visit_cyclic.
    + apply dfs_start.
    + intros j Hj. split; [by apply Hseq|done].
    + cbn. lia.
    + by destruct (Hac k).
Qed.
End cycles.

(** ** Types *)

(** What may not change between the phases: everything but the resolved types,
    the offsets and the layout of the messages. *)
Record same_field (f g : Field) : Prop := {
  sf_name : f_name f = f_name g;
  sf_var : field_IsVar f = field_IsVar g }.

Record same_message (m m' : Message) : Prop := {
  sm_name : m_name m = m_name m';
  sm_id : m_id m = m_id m';
  sm_fields : Forall2 same_field (m_fields m) (m_fields m') }.

Lemma same_var_fields fs gs :
  Forall2 same_field fs gs -> Forall2 same_field (List.filter field_IsVar fs) (List.filter field_IsVar gs).
Proof.
  induction 1 as [|f g fs gs Hfg _ IH]; [constructor|]. cbn. rewrite <-(sf_var _ _ Hfg).
  destruct (field_IsVar f); [by constructor|done].
Qed.

Lemma same_fixed m m' : same_message m m' -> Fixed m = Fixed m'.
Proof.
  intros [_ _ H]. unfold Fixed, VarFields. by destruct (same_var_fields _ _ H).
Qed.

(** A reference to a message of that name, without string or bytes fields. *)
Definition ref_ok (ms : list Message) (name : string) (msg : option nat) : Prop :=
  exists i m, msg = Some i /\ ms !! i = Some m /\ m_name m = name /\ Fixed m = true.

Definition type_ok (ms : list Message) (t : Typ) : Prop :=
  match t with
  | TBasic _ _ => True
  | TRef name msg _ => ref_ok ms name msg
  | TArray len (TBasic k _) _ => 1 <= len /\ IsVarKind k = false
  | TArray len (TRef name msg _) _ => 1 <= len /\ ref_ok ms name msg
  | TArray _ (TArray _ _ _) _ => False
  end.

Definition types_ok (ms : list Message) : Prop :=
  forall i m f, ms !! i = Some m -> f ∈ m_fields m -> type_ok ms (f_type f).

Lemma ref_ok_same ms ms' name msg :
  Forall2 same_message ms ms' -> ref_ok ms name msg -> ref_ok ms' name msg.
Proof.
  intros H (i & m & -> & Hm & <- & Hf). destruct (Forall2_lookup_l _ _ _ _ _ H Hm) as (m' & Hm' & Hs).
  exists i, m'. split_and!; [done|done|by rewrite (sm_name _ _ Hs)|by rewrite <-(same_fixed _ _ Hs)].
Qed.

Lemma type_ok_same ms ms' t : Forall2 same_message ms ms' -> type_ok ms t -> type_ok ms' t.
Proof.
  intros H. destruct t as [|len [| |] ?|]; cbn; try done; [intros [? ?]; split; [done|]|]; by eapply ref_ok_same.
Qed.

(** The names the references are looked up in. *)
Definition index_ok (byName : gmap string nat) (ms : list Message) : Prop :=
  forall name i, byName !! name = Some i -> exists m, ms !! i = Some m /\ m_name m = name.

Lemma resolve_ref_ok s name pos t :
  index_ok (s_byName s) (s_messages s) -> resolve_ref s name pos = (t, []) ->
  exists i m, t = TRef name (Some i) pos /\ Lookup s name = Some i /\ s_messages s !! i = Some m /\ m_name m = name.
Proof.
  intros Hix. unfold resolve_ref. destruct (Lookup s name) as [i|] eqn:Hl; [|done]. intros [= <-].
  destruct (Hix _ _ Hl) as (m & Hm & Hn). eauto 10.
Qed.

Lemma is_fixed_lookup ms i m : ms !! i = Some m -> is_fixed ms i = Fixed m.
Proof. unfold is_fixed. by intros ->. Qed.

Lemma type_field_ok s f f' :
  index_ok (s_byName s) (s_messages s) -> type_field s f = (f', []) -> type_ok (s_messages s) (f_type f').
Proof.
  intros Hix. unfold type_field. destruct (resolve s (f_type f)) as [t errs] eqn:Hr. intros [= <- He]. cbn [f_type].
  apply app_nil in He as [-> He]. unfold resolve in Hr. destruct (f_type f) as [k p|len elem p|name msg p].
  - by injection Hr as <-.
  - destruct elem as [k q|? ? q|name msg q].
    + injection Hr as <- Hr. apply app_nil in Hr as [H1 H2]. cbn.
      destruct (Z.ltb_spec len 1); [done|]. destruct (IsVarKind k); [done|]. split; [lia|done].
    + injection Hr as <- Hr. by apply app_nil in Hr as [_ ?].
    + destruct (resolve_ref s name q) as [e e1] eqn:Href. injection Hr as <- Hr.
      apply app_nil in Hr as [H1 Hr]. apply app_nil in Hr as [-> H2].
      destruct (resolve_ref_ok _ _ _ _ Hix Href) as (i & m & -> & Hl & Hm & Hn). cbn.
      destruct (Z.ltb_spec len 1); [done|]. rewrite Hl, (is_fixed_lookup _ _ _ Hm) in H2.
      destruct (Fixed m) eqn:Hf; [|done]. split; [lia|]. exists i, m. auto.
  - destruct (resolve_ref_ok _ _ _ _ Hix Hr) as (i & m & -> & Hl & Hm & Hn). cbn in He |- *.
    rewrite (is_fixed_lookup _ _ _ Hm) in He. destruct (Fixed m) eqn:Hf; [|done]. exists i, m. auto.
Qed.

Lemma type_field_same s f : same_field f (fst (type_field s f)).
Proof.
  unfold type_field. destruct (resolve s (f_type f)) as [t errs] eqn:Hr. split; [done|]. cbn.
  unfold field_IsVar, resolve, resolve_ref in *. cbn [f_type].
  destruct (f_type f) as [k p|len [| |] p|name msg p]; by injection Hr as <- _.
Qed.

Lemma types_messages s i m' :
  s_messages (types s).1 !! i = Some m' ->
  exists m, s_messages s !! i = Some m /\ m' = with_fields m (fst <$> (type_field s <$> m_fields m)).
Proof.
  cbn. rewrite lookup_zip_with_Some. intros (m & fs & -> & Hm & Hfs).
  rewrite list_lookup_fmap, Hm in Hfs. injection Hfs as <-. eauto.
Qed.

Lemma types_same s : Forall2 same_message (s_messages s) (s_messages (types s).1).
Proof.
  apply Forall2_same_length_lookup. split.
  - cbn. rewrite length_zip_with, length_fmap. lia.
  - intros i m m' Hm Hm'. destruct (types_messages _ _ _ Hm') as (m0 & Hm0 & ->).
    rewrite Hm in Hm0. injection Hm0 as <-. split; [done..|]. cbn. rewrite <-list_fmap_compose.
    apply Forall2_fmap_r, Forall_Forall2_diag, Forall_true. apply type_field_same.
Qed.

(** When nothing is reported every reference is resolved. *)
Lemma types_resolved s :
  index_ok (s_byName s) (s_messages s) -> (types s).2 = [] -> types_ok (s_messages (types s).1).
Proof.
  intros Hix He i m' f Hm' Hf. destruct (types_messages _ _ _ Hm') as (m & Hm & ->).
  eapply type_ok_same; [apply types_same|]. cbn in Hf.
  apply list_elem_of_fmap in Hf as ([f0 errs] & -> & Hf0). apply list_elem_of_fmap in Hf0 as (f1 & Hf1 & Hin).
  eapply type_field_ok; [done|]. rewrite <-Hf1. f_equal.
  assert (Hall : forall l : list (list check_error), mjoin l = [] -> forall x, x ∈ l -> x = []).
  { induction l as [|y l IH]; intros Hj x Hx; [by apply elem_of_nil in Hx|]. cbn in Hj.
    apply app_nil in Hj as [-> Hj]. apply elem_of_cons in Hx as [->|Hx]; [done|by apply IH]. }
  eapply Hall; [exact He|]. change errs with ((f0, errs).2). apply list_elem_of_fmap_2. rewrite Hf1.
  apply list_elem_of_join. exists ((fun f => type_field s f) <$> m_fields m). split; [by apply list_elem_of_fmap_2|].
  apply list_elem_of_fmap. exists m. split; [done|by eapply list_elem_of_lookup_2].
Qed.

(** ** Names *)

Lemma NoDup_snoc {A} (l : list A) (x : A) : NoDup (l ++ [x]) <-> NoDup l /\ x ∉ l.
Proof.
  rewrite NoDup_app. split.
  - intros (H1 & H2 & _). split; [done|]. intros Hx. apply (H2 x Hx). by apply list_elem_of_singleton.
  - intros [H1 H2]. split_and!; [done| |apply NoDup_singleton]. by intros y Hy ->%list_elem_of_singleton.
Qed.

Lemma Forall_snoc {A} (P : A -> Prop) (l : list A) (x : A) : Forall P (l ++ [x]) <-> Forall P l /\ P x.
Proof. rewrite Forall_app. by rewrite Forall_singleton. Qed.

(** A map whose keys are the values of [g] on a list. *)
Definition keys_of {A K V} `{Countable K} (g : A -> K) (mp : gmap K V) (l : list A) : Prop :=
  forall k, is_Some (mp !! k) <-> k ∈ (g <$> l).

Lemma keys_of_nil {A K V} `{Countable K} (g : A -> K) : keys_of g (∅ : gmap K V) [].
Proof. intros k. rewrite lookup_empty. split; [by intros [? ?]|by intros ?%elem_of_nil]. Qed.

Lemma keys_of_insert {A K V} `{Countable K} (g : A -> K) (mp : gmap K V) l x v :
  keys_of g mp l -> keys_of g (<[g x := v]> mp) (l ++ [x]).
Proof.
  intros Hk k. rewrite fmap_app, elem_of_app, <-(Hk k). cbn. rewrite list_elem_of_singleton, lookup_insert_is_Some.
  destruct (decide (g x = k)) as [->|]; naive_solver.
Qed.

Lemma keys_of_old {A K V} `{Countable K} (g : A -> K) (mp : gmap K V) l x :
  keys_of g mp l -> is_Some (mp !! g x) -> keys_of g mp (l ++ [x]).
Proof.
  intros Hk Hx k. rewrite fmap_app, elem_of_app, <-(Hk k). cbn. rewrite list_elem_of_singleton. naive_solver.
Qed.

Lemma keys_of_None {A K V} `{Countable K} (g : A -> K) (mp : gmap K V) l k :
  keys_of g mp l -> mp !! k = None <-> k ∉ (g <$> l).
Proof. intros Hk. by rewrite <-(Hk k), eq_None_not_Some. Qed.

(** The rules for the name of a field. *)
Definition field_name_ok (f : Field) : Prop :=
  snakeName (f_name f) = true /\ reserved reservedWords (f_name f) = false /\
  HasPrefix (f_name f) "ipcgen" = false /\ reserved goMethods (Camel (f_name f)) = false.

Definition field_names_ok (m : Message) : Prop :=
  Forall field_name_ok (m_fields m) /\ NoDup (f_name <$> m_fields m) /\
  NoDup ((fun f => Camel (f_name f)) <$> m_fields m).

(** Both sides of an equivalence of conjunctions are refuted. Only the equations that
    clash are looked at: the others evaluate the tests on names. *)
Ltac refute_both :=
  cbn [negb orb]; split; intros; destruct_and?;
  match goal with
  | H : true = false |- _ => discriminate H
  | H : false = true |- _ => discriminate H
  | H : _ :: _ = [] |- _ => discriminate H
  | H : Some _ = None |- _ => discriminate H
  end.

Lemma field_error_nil m seen gos f :
  field_error m seen gos f = [] <->
  field_name_ok f /\ seen !! f_name f = None /\ gos !! Camel (f_name f) = None.
Proof.
  unfold field_error, field_name_ok.
  destruct (snakeName (f_name f)); [|refute_both].
  destruct (reserved reservedWords (f_name f)); [refute_both|].
  destruct (HasPrefix (f_name f) "ipcgen"); [refute_both|].
  destruct (reserved goMethods (Camel (f_name f))); [refute_both|].
  destruct (seen !! f_name f); [refute_both|].
  destruct (gos !! Camel (f_name f)); [refute_both|tauto].
Qed.

Lemma fieldNames_loop m l :
  let '(seen, gos, errs) := foldl (field_step m) (∅, ∅, []) l in
  keys_of f_name seen l /\ keys_of (fun f => Camel (f_name f)) gos l /\
  (errs = [] <-> Forall field_name_ok l /\ NoDup (f_name <$> l) /\ NoDup ((fun f => Camel (f_name f)) <$> l)).
Proof.
  induction l as [|f l IH] using rev_ind.
  { cbn [foldl]. split_and!; [apply keys_of_nil..|]. split; [|done]. intros _. split_and!; constructor. }
  rewrite foldl_app. destruct (foldl (field_step m) (∅, ∅, []) l) as [[seen gos] errs]. cbn [foldl field_step].
  destruct IH as (Hs & Hg & He). split_and!; [by apply keys_of_insert| |].
  { apply (keys_of_insert (fun f => Camel (f_name f)) gos l f (f_name f) Hg). }
  rewrite !fmap_app. cbn [fmap list_fmap]. rewrite app_nil, He, field_error_nil, !NoDup_snoc, Forall_snoc.
  rewrite <-(keys_of_None _ _ _ (f_name f) Hs), <-(keys_of_None _ _ _ (Camel (f_name f)) Hg). tauto.
Qed.

Lemma fieldNames_nil m : fieldNames m = [] <-> field_names_ok m.
Proof.
  unfold fieldNames. pose proof (fieldNames_loop m (m_fields m)) as H.
  destruct (foldl (field_step m) (∅, ∅, []) (m_fields m)) as [[seen gos] errs]. apply H.
Qed.

(** The rules for the name of a message, and for all names of a schema. *)
Definition message_name_ok (m : Message) : Prop :=
  messageName (m_name m) = true /\ reserved pyNames (m_name m) = false /\
  reserved goNames (m_name m) = false /\ HasPrefix (Snake (m_name m)) "ipcgen" = false.

Record messages_ok (ms : list Message) : Prop := {
  mo_names : Forall message_name_ok ms;
  mo_distinct : NoDup (m_name <$> ms);
  mo_snakes : NoDup ((fun m => Snake (m_name m)) <$> ms);
  mo_reserved : Forall (fun m => m_id m <> 0xFFFFFFFF) ms;
  mo_ids : NoDup (m_id <$> ms);
  mo_fields : Forall field_names_ok ms }.

Record names_ok (s : Schema) : Prop := {
  no_package : snakeName (s_package s) = true /\ reserved reservedWords (s_package s) = false /\
    HasPrefix (s_package s) "ipcgen" = false;
  no_messages : messages_ok (s_messages s);
  no_constants : forall m m', m ∈ s_messages s -> m' ∈ s_messages s -> m_name m' <> (m_name m ++ "Type")%string }.

Lemma message_error_nil ms byName snakes m :
  message_error ms byName snakes m = [] <->
  message_name_ok m /\ byName !! m_name m = None /\ snakes !! Snake (m_name m) = None.
Proof.
  unfold message_error, message_name_ok.
  destruct (messageName (m_name m)); [|refute_both].
  destruct (reserved pyNames (m_name m)); [refute_both|].
  destruct (reserved goNames (m_name m)); [refute_both|].
  destruct (HasPrefix (Snake (m_name m)) "ipcgen"); [refute_both|].
  destruct (byName !! m_name m); [refute_both|].
  destruct (snakes !! Snake (m_name m)); [refute_both|tauto].
Qed.

Lemma id_error_nil ids m : id_error ids m = [] <-> m_id m <> 0xFFFFFFFF /\ ids !! m_id m = None.
Proof.
  unfold id_error. destruct (Z.eqb_spec (m_id m) 0xFFFFFFFF); [split; [done|by intros [? _]]|].
  destruct (ids !! m_id m); [refute_both|tauto].
Qed.

(** The state of the loop after the messages [l], started with errors [e0]. *)
Record names_inv (e0 : list check_error) (l : list Message) (st : names_state) : Prop := {
  ni_index : index_ok (n_byName st) l;
  ni_names : keys_of m_name (n_byName st) l;
  ni_snakes : keys_of (fun m => Snake (m_name m)) (n_snakes st) l;
  ni_ids : forall k, k <> 0xFFFFFFFF -> n_ids st !! k = None <-> k ∉ (m_id <$> l);
  ni_errs : n_errs st = [] <-> e0 = [] /\ messages_ok l }.

Lemma messages_ok_snoc l m :
  messages_ok (l ++ [m]) <->
  messages_ok l /\ message_name_ok m /\ (m_name m ∉ (m_name <$> l)) /\
  (Snake (m_name m) ∉ ((fun m => Snake (m_name m)) <$> l)) /\ m_id m <> 0xFFFFFFFF /\ (m_id m ∉ (m_id <$> l)) /\
  field_names_ok m.
Proof.
  split.
  - intros [H1 H2 H3 H4 H5 H6]. rewrite fmap_app in H2. rewrite fmap_app in H3. rewrite fmap_app in H5.
    apply NoDup_snoc in H2 as [??], H3 as [??], H5 as [??].
    apply Forall_snoc in H1 as [??], H4 as [??], H6 as [??]. by split_and!.
  - intros ([] & ?). destruct_and?. split; rewrite ?fmap_app; try (apply Forall_snoc || apply NoDup_snoc); done.
Qed.

Lemma index_ok_snoc byName l m : index_ok byName l -> index_ok byName (l ++ [m]).
Proof.
  intros H name i Hi. destruct (H name i Hi) as (m' & Hm' & Hn). exists m'. split; [|done].
  by apply lookup_app_l_Some.
Qed.

Lemma names_message_inv e0 ms l st m :
  names_inv e0 l st -> names_inv e0 (l ++ [m]) (names_message ms st (List.length l) m).
Proof.
  intros [H1 H2 H3 H4 H5]. unfold names_message. split; cbn [n_byName n_snakes n_ids n_errs].
  - destruct (n_byName st !! m_name m) eqn:Hb; [by apply index_ok_snoc|]. intros name i Hi.
    apply lookup_insert_Some in Hi as [[<- <-]|[Hne Hi]]; [|by apply (index_ok_snoc _ _ m H1)].
    exists m. split; [|done]. rewrite lookup_app_r by lia. by rewrite Nat.sub_diag.
  - destruct (n_byName st !! m_name m) eqn:Hb; [|by apply keys_of_insert].
    apply keys_of_old; [done|by rewrite Hb].
  - apply (keys_of_insert (fun m => Snake (m_name m)) (n_snakes st) l m (m_name m) H3).
  - intros k Hk. rewrite fmap_app, not_elem_of_app. cbn [fmap list_fmap].
    rewrite list_elem_of_singleton, <-(H4 k Hk).
    destruct (id_error (n_ids st) m) eqn:Hid.
    + rewrite lookup_insert_None. naive_solver.
    + split; [|tauto]. intros Hn. split; [done|]. intros ->.
      enough (id_error (n_ids st) m = []) by congruence. by apply id_error_nil.
  - rewrite !app_nil, H5, message_error_nil, id_error_nil, fieldNames_nil, messages_ok_snoc.
    rewrite (keys_of_None _ _ _ (m_name m) H2), (keys_of_None _ _ _ (Snake (m_name m)) H3).
    specialize (H4 (m_id m)). tauto.
Qed.

Lemma names_loop_inv e0 ms todo l st :
  names_inv e0 l st -> names_inv e0 (l ++ todo) (names_loop ms st (List.length l) todo).
Proof.
  revert l st. induction todo as [|m todo IH]; intros l st H; cbn [names_loop]; [by rewrite app_nil_r|].
  rewrite cons_middle, app_assoc. replace (S (List.length l)) with (List.length (l ++ [m])) by (rewrite length_app; cbn; lia).
  by apply IH, names_message_inv.
Qed.

Lemma names_inv_all s :
  names_inv (package_errors s) (s_messages s)
    (names_loop (s_messages s) (mkNames ∅ ∅ ∅ (package_errors s)) 0 (s_messages s)).
Proof.
  apply (names_loop_inv _ _ _ [] (mkNames ∅ ∅ ∅ (package_errors s))). split; cbn; try done; try apply keys_of_nil.
  - intros k _. split; [|done]. intros _ ?%elem_of_nil. done.
  - split; [|tauto]. intros H. split; [done|]. split; constructor.
Qed.

Lemma package_errors_nil s :
  package_errors s = [] <->
  snakeName (s_package s) = true /\ reserved reservedWords (s_package s) = false /\
  HasPrefix (s_package s) "ipcgen" = false.
Proof.
  unfold package_errors. destruct (snakeName (s_package s)); [|refute_both].
  destruct (reserved reservedWords (s_package s)); [refute_both|].
  destruct (HasPrefix (s_package s) "ipcgen"); [refute_both|tauto].
Qed.

Lemma names_index s : index_ok (s_byName (names s).1) (s_messages (names s).1).
Proof. exact (ni_index _ _ _ (names_inv_all s)). Qed.

Lemma mjoin_nil {A} (l : list (list A)) : mjoin l = [] <-> Forall (fun x => x = []) l.
Proof.
  induction l as [|x l IH]; [done|]. cbn. rewrite app_nil, IH. split.
  - intros [? ?]. by constructor.
  - by inversion 1.
Qed.

(** The last loop of [names]: no message takes the name of a Go constant. *)
Lemma clashes_nil (byName : gmap string nat) ms :
  index_ok byName ms -> keys_of m_name byName ms ->
  (forall m m', m ∈ ms -> m' ∈ ms -> m_name m' <> (m_name m ++ "Type")%string) <->
  Forall (fun m => byName !! (m_name m ++ "Type")%string ≫= (fun j => ms !! j) = None) ms.
Proof.
  intros Hix Hk. rewrite Forall_forall. split.
  - intros H m Hm. destruct (byName !! (m_name m ++ "Type")%string) as [j|] eqn:Hj; [|done]. cbn.
    destruct (Hix _ _ Hj) as (m' & Hm' & Hn). exfalso.
    apply (H m m'); [done|by eapply list_elem_of_lookup_2|done].
  - intros H m m' Hm Hm' Hn. specialize (H m Hm). cbn in H.
    assert (Hs : is_Some (byName !! (m_name m ++ "Type")%string)).
    { apply Hk. rewrite <-Hn. by apply list_elem_of_fmap_2. }
    destruct Hs as [j Hj]. destruct (Hix _ _ Hj) as (m2 & Hm2 & _). rewrite Hj in H. cbn in H. congruence.
Qed.

Lemma names_nil s : (names s).2 = [] <-> names_ok s.
Proof.
  pose proof (names_inv_all s) as [Hix Hn _ _ He]. cbn [names snd]. rewrite app_nil, He, package_errors_nil, mjoin_nil.
  rewrite Forall_fmap. pose proof (clashes_nil _ _ Hix Hn) as Hc. split.
  - intros [[Hp Hm] Hcl]. split; [done..|]. apply Hc. eapply Forall_impl; [exact Hcl|]. intros m. cbn.
    by destruct (_ ≫= _).
  - intros [Hp Hm Hcl]. split; [done|]. apply Hc in Hcl. eapply Forall_impl; [exact Hcl|]. intros m Hnone. cbn in Hnone |- *.
    by rewrite Hnone.
Qed.
