(* ===== verification/Layout.v ===== *)
(** * The layout of a checked schema

    The fixed fields of every message are placed as a C compiler places the
    members of a struct: each at the first aligned offset after the one before. *)

From stdpp Require Import base numbers list list_numbers option strings gmap.
From Stdlib Require Import ZArith Lia Bool String Ascii.
From S2P Require Import Prelude GoStd Schema Check CheckThm.

#[local] Open Scope Z_scope.

(** ** Rounding *)

Definition pow8 (a : Z) : Prop := a = 1 \/ a = 2 \/ a = 4 \/ a = 8.

Lemma roundUp_spec n a :
  0 <= n -> 0 < a -> n <= roundUp n a < n + a /\ (a | roundUp n a).
Proof.
  intros Hn Ha. unfold roundUp. rewrite Z.quot_div_nonneg by lia.
  pose proof (Z.div_mod (n + a - 1) a ltac:(lia)). pose proof (Z.mod_pos_bound (n + a - 1) a Ha).
  split; [nia|]. by exists ((n + a - 1) / a).
Qed.

Lemma pow8_pos a : pow8 a -> 0 < a.
Proof. unfold pow8. lia. Qed.

(** The larger of two such alignments is a multiple of both. *)
Lemma pow8_max a b : pow8 a -> pow8 b -> pow8 (Z.max a b) /\ (a | Z.max a b) /\ (b | Z.max a b).
Proof.
  intros [->|[->|[->| ->]]] [->|[->|[->| ->]]]; cbn; (split; [unfold pow8; lia|]);
    split; apply Z.mod_divide; done.
Qed.

Lemma scalar_pow8 k : pow8 (ScalarSize k).
Proof. unfold pow8. destruct k; cbn; lia. Qed.

(** ** Placed fields *)

(** The fixed fields of [fs] lie between [lo] and [hi], in order, each at the first
    offset at or after the end of the one before that is a multiple of its alignment,
    which divides [al]. *)
Fixpoint placed (ms : list Message) (fs : list Field) (lo hi al : Z) : Prop :=
  match fs with
  | [] => lo <= hi
  | f :: fs =>
      if field_IsVar f then placed ms fs lo hi al
      else
        let a := Align ms (f_type f) in
        lo <= f_offset f < lo + a /\ (a | f_offset f) /\ (a | al) /\
        placed ms fs (f_offset f + Size ms (f_type f)) hi al
  end.

(** The layout of a message: the end of its fields rounded up to its alignment. *)
Record laid_out (ms : list Message) (m : Message) : Prop := {
  lo_align : pow8 (MAlign m);
  lo_multiple : (MAlign m | FixedSize m);
  lo_size : 0 <= FixedSize m <= 2 ^ 31;
  lo_fields : exists hi, placed ms (m_fields m) 0 hi (MAlign m) /\ hi <= FixedSize m < hi + MAlign m }.

Lemma placed_weaken ms fs lo hi al al' : placed ms fs lo hi al -> (al | al') -> placed ms fs lo hi al'.
Proof.
  intros H Hd. revert lo H. induction fs as [|f fs IH]; intros lo; cbn; [done|].
  destruct (field_IsVar f); [auto|]. intros (H1 & H2 & H3 & H4). split_and!; try done; try lia; [|auto].
  by etrans.
Qed.

(** What [placed] and [type_ok] need of the messages that a type refers to. *)
Definition ref_laid (ms : list Message) (t : Typ) : Prop :=
  forall i, refOf t = Some i -> exists m, ms !! i = Some m /\ pow8 (MAlign m) /\ 0 <= FixedSize m.

Lemma type_layout ms t :
  type_ok ms t -> ref_laid ms t -> pow8 (Align ms t) /\ 0 <= Size ms t /\ fieldSize ms t = Size ms t.
Proof.
  intros Hok Hl.
  assert (Href : forall name msg p, t = TRef name msg p \/ (exists len q, t = TArray len (TRef name msg p) q) ->
    ref_ok ms name msg -> pow8 (Align ms (TRef name msg p)) /\ 0 <= Size ms (TRef name msg p)).
  { intros name msg p Ht (i & m & -> & Hm & _). destruct (Hl i) as (m' & Hm' & Ha & Hs).
    { by destruct Ht as [->|(len & q & ->)]. }
    cbn. rewrite Hm'. cbn. done. }
  destruct t as [k p|len [k q|len' e q|name msg q] p|name msg p]; cbn in Hok |- *.
  - split; [apply scalar_pow8|]. split; [|done]. pose proof (pow8_pos _ (scalar_pow8 k)). lia.
  - split; [apply scalar_pow8|]. split; [|done]. pose proof (pow8_pos _ (scalar_pow8 k)). nia.
  - done.
  - destruct Hok as [Hlen Hok]. destruct (Href name msg q) as [H1 H2]; [eauto..|]. cbn in H1, H2.
    split; [done|]. split; [nia|done].
  - destruct (Href name msg p) as [H1 H2]; [eauto..|]. done.
Qed.

Definition same_types (fs gs : list Field) : Prop :=
  Forall2 (fun f g => f_name f = f_name g /\ f_type f = f_type g) fs gs.

Lemma place_ok ms name fs off align fs' off' align' :
  (forall f, f ∈ fs -> type_ok ms (f_type f) /\ ref_laid ms (f_type f)) ->
  0 <= off <= maxFixedSize -> pow8 align -> place ms name fs off align = inr (fs', off', align') ->
  same_types fs fs' /\ placed ms fs' off off' align' /\ off <= off' <= maxFixedSize /\
  pow8 align' /\ (align | align').
Proof.
  revert off align fs'. induction fs as [|f fs IH]; intros off align fs' Hfs Hoff Hal; cbn [place].
  { intros [= <- <- <-]. cbn. split_and!; try done; try lia. constructor. }
  assert (Hfs' : forall g, g ∈ fs -> type_ok ms (f_type g) /\ ref_laid ms (f_type g)).
  { intros g Hg. apply Hfs. by right. }
  destruct (field_IsVar f) eqn:Hv.
  - destruct (place ms name fs off align) as [e|[[fs1 off1] align1]] eqn:Hp; [done|]. intros [= <- <- <-].
    destruct (IH _ _ _ Hfs' Hoff Hal Hp) as (H1 & H2 & H3 & H4 & H5). cbn [placed]. rewrite Hv.
    split_and!; try done; try lia. by constructor.
  - destruct (type_layout ms (f_type f)) as (Ha & Hs & Hfsz); [apply Hfs; by left..|].
    destruct (roundUp_spec off (Align ms (f_type f)) ltac:(lia) (pow8_pos _ Ha)) as [Hr1 Hr2].
    set (o := roundUp off (Align ms (f_type f))) in *. rewrite Hfsz.
    destruct (Z.ltb_spec maxFixedSize (o + Size ms (f_type f))); [done|].
    assert (Hmax : (if align <? Align ms (f_type f) then Align ms (f_type f) else align) =
      Z.max align (Align ms (f_type f))) by (destruct (Z.ltb_spec align (Align ms (f_type f))); lia).
    rewrite Hmax. destruct (pow8_max _ _ Hal Ha) as (Hm1 & Hm2 & Hm3).
    destruct (place ms name fs _ _) as [e|[[fs1 off1] align1]] eqn:Hp; [done|]. intros [= <- <- <-].
    assert (Hoff' : 0 <= o + Size ms (f_type f) <= maxFixedSize) by lia.
    destruct (IH _ _ _ Hfs' Hoff' Hm1 Hp) as (H1 & H2 & H3 & H4 & H5).
    split; [by constructor|]. split; [|split; [lia|split; [done|by etrans]]].
    cbn [placed]. unfold field_IsVar in *. cbn [f_type f_offset]. rewrite Hv.
    split_and!; try done; try lia. by etrans.
Qed.

Lemma layout_message_ok ms m m' :
  (forall f, f ∈ m_fields m -> type_ok ms (f_type f) /\ ref_laid ms (f_type f)) ->
  layout_message ms m = inr m' ->
  laid_out ms m' /\ m_name m = m_name m' /\ m_id m = m_id m' /\ same_types (m_fields m) (m_fields m').
Proof.
  intros Hf. unfold layout_message. destruct (place _ _ _ _ _) as [e|[[fs off] align]] eqn:Hp; [done|].
  intros [= <-]. assert (H0 : 0 <= 0 <= maxFixedSize) by done. assert (H01 : pow8 1) by (by left).
  destruct (place_ok _ _ _ _ _ _ _ _ Hf H0 H01 Hp) as (H1 & H2 & H3 & H4 & H5).
  destruct (roundUp_spec off align ltac:(lia) (pow8_pos _ H4)) as [Hr1 Hr2].
  split; [|done]. split; cbn; [done|done| |by exists off].
  unfold maxFixedSize in H3. destruct Hr2 as [q Hq]. rewrite Hq in *. unfold pow8 in H4. lia.
Qed.

(** ** The loop over the messages *)

Record similar (m m' : Message) : Prop := {
  si_name : m_name m = m_name m';
  si_id : m_id m = m_id m';
  si_types : same_types (m_fields m) (m_fields m') }.

Lemma similar_refl m : similar m m.
Proof. split; [done..|]. by apply Forall_Forall2_diag, Forall_true. Qed.

Lemma similar_trans m1 m2 m3 : similar m1 m2 -> similar m2 m3 -> similar m1 m3.
Proof.
  intros [H1 H2 H3] [H4 H5 H6]. split; [congruence..|]. eapply Forall2_trans; [|exact H3|exact H6].
  intros f g h [? ?] [? ?]. split; congruence.
Qed.

Lemma similar_same m m' : similar m m' -> same_message m m'.
Proof.
  intros [H1 H2 H3]. split; [done..|]. eapply Forall2_impl; [exact H3|]. intros f g [Hn Ht]. split; [done|].
  unfold field_IsVar. by rewrite Ht.
Qed.

Lemma similar_contains m m' : similar m m' -> contains m = contains m'.
Proof.
  intros [_ _ H]. unfold contains. induction H as [|f g fs gs [_ Ht] _ IH]; [done|]. cbn. by rewrite Ht, IH.
Qed.

Lemma similar_refs ms ms' i : Forall2 similar ms ms' -> refs ms i = refs ms' i.
Proof.
  intros H. unfold refs. destruct (Forall2_lookup similar ms ms') as [Hl _]. specialize (Hl H i).
  inversion Hl as [m m' Hs|]; [by apply similar_contains|done].
Qed.

Lemma same_similar ms ms' : Forall2 similar ms ms' -> Forall2 same_message ms ms'.
Proof. intros H. eapply Forall2_impl; [exact H|apply similar_same]. Qed.

Lemma similar_types_ok ms ms' : Forall2 similar ms ms' -> types_ok ms -> types_ok ms'.
Proof.
  intros H Hok i m' g Hm' Hg. destruct (Forall2_lookup_r _ _ _ _ _ H Hm') as (m & Hm & [_ _ Ht]).
  apply list_elem_of_lookup in Hg as [j Hj]. destruct (Forall2_lookup_r _ _ _ _ _ Ht Hj) as (f & Hf & _ & <-).
  eapply type_ok_same; [by apply same_similar|]. eapply Hok; [done|by eapply list_elem_of_lookup_2].
Qed.

Lemma contains_field m f i : f ∈ m_fields m -> refOf (f_type f) = Some i -> i ∈ contains m.
Proof. intros Hf Hr. apply list_elem_of_omap. eauto. Qed.

(** The layout of a message depends on the messages it contains only. *)
Lemma size_agree ms ms' t :
  type_ok ms t -> (forall i, refOf t = Some i -> ms !! i = ms' !! i) ->
  Size ms t = Size ms' t /\ Align ms t = Align ms' t.
Proof.
  intros Hok Ha.
  destruct t as [k p|len [k q|len' e q|name [i|] q] p|name [i|] p]; cbn in *; try done; by rewrite (Ha i).
Qed.

Lemma placed_agree ms ms' fs lo hi al :
  (forall f, f ∈ fs -> type_ok ms (f_type f)) ->
  (forall f i, f ∈ fs -> refOf (f_type f) = Some i -> ms !! i = ms' !! i) ->
  placed ms fs lo hi al -> placed ms' fs lo hi al.
Proof.
  revert lo. induction fs as [|f fs IH]; intros lo Hok Ha; cbn [placed]; [done|].
  assert (IH' : forall lo, placed ms fs lo hi al -> placed ms' fs lo hi al).
  { intros lo'. apply IH; [intros; apply Hok; by right|intros g i Hg; apply Ha; by right]. }
  destruct (field_IsVar f); [apply IH'|].
  destruct (size_agree ms ms' (f_type f)) as [<- <-]; [apply Hok; by left|intros i; apply Ha; by left|].
  intros (H1 & H2 & H3 & H4). split_and!; try done; try lia. auto.
Qed.

Lemma laid_out_agree ms ms' m :
  (forall f, f ∈ m_fields m -> type_ok ms (f_type f)) ->
  (forall i, i ∈ contains m -> ms !! i = ms' !! i) -> laid_out ms m -> laid_out ms' m.
Proof.
  intros Hok Ha [H1 H2 H3 (hi & H4 & H5)]. split; [done..|]. exists hi. split; [|done].
  eapply placed_agree; [exact Hok| |done]. intros f i Hf Hr. apply Ha. by eapply contains_field.
Qed.

Section layout_loop.
Context (ms0 : list Message) (Htypes : types_ok ms0).

(** The messages [l1] are laid out. *)
Definition loop_inv (l1 : list nat) (ms : list Message) : Prop :=
  Forall2 similar ms0 ms /\ forall i, i ∈ l1 -> exists m, ms !! i = Some m /\ laid_out ms m.

Lemma loop_step l1 i todo ms m m' :
  topological ms0 (l1 ++ i :: todo) -> NoDup (l1 ++ i :: todo) -> loop_inv l1 ms ->
  ms !! i = Some m -> layout_message ms m = inr m' -> loop_inv (l1 ++ [i]) (<[i := m']> ms).
Proof using Htypes.
  intros Htopo Hnd [Hsim Hl] Hm Hlm. pose proof (similar_types_ok _ _ Hsim Htypes) as Hok.
  assert (Hi1 : i ∉ l1). { apply NoDup_app in Hnd as (_ & H & _). intros Hi. apply (H i Hi). by left. }
  assert (Hrefs : forall l2 k l3, l1 ++ i :: todo = l2 ++ k :: l3 -> forall j, j ∈ refs ms k -> j ∈ l2).
  { intros l2 k l3 E j. rewrite <-(similar_refs _ _ k Hsim). by eapply Htopo. }
  assert (Hi : refs ms i = contains m) by (unfold refs; by rewrite Hm).
  destruct (layout_message_ok ms m m') as (Hlaid & Hn & Hid & Hty); [|done|].
  { intros f Hf. split; [by eapply Hok|]. intros j Hj. destruct (Hl j) as (mj & Hmj & [Ha _ Hs _]).
    - apply (Hrefs l1 i todo); [done|]. rewrite Hi. by eapply contains_field.
    - exists mj. split_and!; [done|done|lia]. }
  assert (Hsm : similar m m') by done.
  assert (Hkeep : forall k mk, (forall j, j ∈ contains mk -> j ∈ l1) -> (ms !! k = Some mk \/ mk = m') ->
    laid_out ms mk -> laid_out (<[i := m']> ms) mk).
  { intros k mk Hc Hk. apply laid_out_agree.
    - intros f Hf. destruct Hk as [Hk| ->]; [by eapply Hok|].
      apply list_elem_of_lookup in Hf as [j Hj]. destruct (Forall2_lookup_r _ _ _ _ _ Hty Hj) as (g & Hg & _ & <-).
      eapply Hok; [exact Hm|by eapply list_elem_of_lookup_2].
    - intros j Hj. rewrite list_lookup_insert_ne; [done|]. intros <-. by apply Hi1, Hc. }
  split.
  - eapply Forall2_trans; [apply similar_trans|exact Hsim|].
    apply Forall2_same_length_lookup. rewrite length_insert. split; [done|]. intros k mk mk' Hmk Hmk'.
    apply list_lookup_insert_Some in Hmk' as [(<- & <- & _)|[_ Hmk']]; [congruence|].
    rewrite Hmk in Hmk'. injection Hmk' as <-. apply similar_refl.
  - intros k [Hk| ->%list_elem_of_singleton]%elem_of_app.
    + destruct (Hl k Hk) as (mk & Hmk & Hlk). exists mk. split.
      { rewrite list_lookup_insert_ne; [done|]. by intros <-. }
      apply (Hkeep k); [|by left|done]. intros j Hj. apply list_elem_of_split in Hk as (l2 & l3 & ->).
      apply elem_of_app. left. apply (Hrefs l2 k (l3 ++ i :: todo)); [by rewrite <-app_assoc|].
      unfold refs. by rewrite Hmk.
    + exists m'. split; [apply list_lookup_insert_eq; by eapply lookup_lt_Some|].
      apply (Hkeep i); [|by right|done]. intros j Hj. apply (Hrefs l1 i todo); [done|].
      rewrite Hi. by rewrite (similar_contains _ _ Hsm).
Qed.

Lemma layout_loop_ok l1 todo ms ms' :
  topological ms0 (l1 ++ todo) -> NoDup (l1 ++ todo) -> (forall i, i ∈ l1 ++ todo -> (i < List.length ms0)%nat) ->
  loop_inv l1 ms -> layout_loop ms todo = (ms', []) -> loop_inv (l1 ++ todo) ms'.
Proof using Htypes.
  revert l1 ms. induction todo as [|i todo IH]; intros l1 ms Htopo Hnd Hb Hinv; cbn [layout_loop].
  { intros [= <-]. by rewrite app_nil_r. }
  destruct (lookup_lt_is_Some_2 ms i) as [m Hm].
  { rewrite <-(Forall2_length _ _ _ (proj1 Hinv)). apply Hb, elem_of_app. right. by left. }
  rewrite Hm. destruct (layout_message ms m) as [e|m'] eqn:Hlm; [done|]. intros Hl.
  rewrite cons_middle, app_assoc in Htopo, Hnd, Hb |- *. eapply IH; [done..| |done].
  rewrite <-app_assoc in Htopo, Hnd. by eapply loop_step.
Qed.
End layout_loop.

(** ** Checked schemas *)

(** What [Check] promises of a schema it accepts. *)
Record checked (s : Schema) : Prop := {
  ck_names : names_ok s;
  ck_types : types_ok (s_messages s);
  ck_nodup : NoDup (s_sorted s);
  ck_all : forall i, i ∈ s_sorted s <-> (i < List.length (s_messages s))%nat;
  ck_topo : topological (s_messages s) (s_sorted s);
  ck_laid : forall i m, s_messages s !! i = Some m -> laid_out (s_messages s) m }.

Lemma types_ok_refs ms i j : types_ok ms -> j ∈ refs ms i -> (j < List.length ms)%nat.
Proof.
  intros Hok Hj. unfold refs in Hj. destruct (ms !! i) as [m|] eqn:Hm; [|by apply elem_of_nil in Hj].
  apply list_elem_of_omap in Hj as (f & Hf & Hr). pose proof (Hok i m f Hm Hf) as Ht.
  destruct (f_type f) as [|len [| |name msg] ?|name msg ?]; try done; cbn in Hr, Ht.
  - destruct Ht as [_ (k & mk & -> & Hk & _)]. injection Hr as ->. by eapply lookup_lt_Some.
  - destruct Ht as (k & mk & -> & Hk & _). injection Hr as ->. by eapply lookup_lt_Some.
Qed.

Lemma names_ok_same s s' :
  s_package s = s_package s' -> Forall2 same_message (s_messages s) (s_messages s') -> names_ok s -> names_ok s'.
Proof.
  intros Hp Hs [H1 [H2 H3 H4 H5 H6 H7] H8].
  assert (Hname : m_name <$> s_messages s = m_name <$> s_messages s').
  { apply list_eq_Forall2, Forall2_fmap_2. eapply Forall2_impl; [exact Hs|]. by intros ?? []. }
  assert (Hid : m_id <$> s_messages s = m_id <$> s_messages s').
  { apply list_eq_Forall2, Forall2_fmap_2. eapply Forall2_impl; [exact Hs|]. by intros ?? []. }
  assert (Hf : forall P Q : Message -> Prop, (forall m m', same_message m m' -> P m -> Q m') ->
    Forall P (s_messages s) -> Forall Q (s_messages s')).
  { intros P Q HPQ HP. apply Forall_lookup. intros i m' Hm'.
    destruct (Forall2_lookup_r _ _ _ _ _ Hs Hm') as (m & Hm & Hsm). eapply HPQ; [done|].
    by eapply (proj1 (Forall_lookup _ _) HP). }
  split; [by rewrite <-Hp| |].
  - split.
    + eapply Hf; [|exact H2]. intros m m' [Hn _ _]. unfold message_name_ok. by rewrite Hn.
    + by rewrite <-Hname.
    + by rewrite (list_fmap_compose m_name Snake), <-Hname, <-list_fmap_compose.
    + eapply Hf; [|exact H5]. intros m m' [_ Hi _]. by rewrite Hi.
    + by rewrite <-Hid.
    + eapply Hf; [|exact H7]. intros m m' [_ _ Hfs] (Ha & Hb & Hc).
      assert (Hfn : f_name <$> m_fields m = f_name <$> m_fields m').
      { apply list_eq_Forall2, Forall2_fmap_2. eapply Forall2_impl; [exact Hfs|]. by intros ?? []. }
      split_and!.
      * apply Forall_lookup. intros i g Hg. destruct (Forall2_lookup_r _ _ _ _ _ Hfs Hg) as (f & Hff & [Hn _]).
        pose proof (proj1 (Forall_lookup _ _) Ha i f Hff) as Hok. unfold field_name_ok in *. by rewrite <-Hn.
      * by rewrite <-Hfn.
      * by rewrite (list_fmap_compose f_name Camel), <-Hfn, <-list_fmap_compose.
  - intros m m' Hm Hm'. apply (list_elem_of_fmap_2 m_name) in Hm, Hm'. rewrite <-Hname in Hm, Hm'.
    apply list_elem_of_fmap in Hm as (m1 & -> & Hm1), Hm' as (m2 & -> & Hm2). by apply H8.
Qed.

Lemma cycles_spec s :
  s_sorted s = [] -> types_ok (s_messages s) ->
  exists s' errs, cycles s = Some (s', errs) /\
    s_package s' = s_package s /\ s_messages s' = s_messages s /\
    (errs = [] <-> forall i, ~ tc (contained (s_messages s)) i i) /\
    (errs = [] -> NoDup (s_sorted s') /\ topological (s_messages s') (s_sorted s') /\
       forall i, i ∈ s_sorted s' <-> (i < List.length (s_messages s'))%nat).
Proof.
  intros Hs Hok. destruct (cycles_order (s_messages s)) as (d & Hv & He & Ho).
  { intros i j. by apply types_ok_refs. }
  unfold cycles. rewrite Hs, Hv. by eexists _, _.
Qed.

Lemma layout_spec s s' :
  types_ok (s_messages s) -> NoDup (s_sorted s) -> topological (s_messages s) (s_sorted s) ->
  (forall i, i ∈ s_sorted s <-> (i < List.length (s_messages s))%nat) ->
  layout s = (s', []) ->
  s_package s' = s_package s /\ s_sorted s' = s_sorted s /\ Forall2 similar (s_messages s) (s_messages s') /\
  forall i m, s_messages s' !! i = Some m -> laid_out (s_messages s') m.
Proof.
  intros Hok Hnd Htopo Hall. unfold layout. destruct (layout_loop _ _) as [ms errs] eqn:Hl. intros [= <- ->].
  destruct (layout_loop_ok (s_messages s) Hok [] (s_sorted s) (s_messages s) ms) as [Hsim Hlaid]; try done.
  - intros i. apply Hall.
  - split; [|by intros i ?%elem_of_nil]. apply Forall_Forall2_diag, Forall_true, similar_refl.
  - split_and!; [done..|]. cbn [s_messages]. intros i m Hm.
    destruct (Hlaid i) as (m' & Hm' & H); [|rewrite Hm in Hm'; by injection Hm' as <-].
    apply Hall. rewrite (Forall2_length _ _ _ Hsim). by eapply lookup_lt_Some.
Qed.

Lemma Check_cases s :
  s_sorted s = [] ->
  (exists errs, errs <> [] /\ Check_ s = Some (inl (sort_errors errs))) \/
  (exists s', Check_ s = Some (inr s') /\ checked s' /\ Forall2 same_message (s_messages s) (s_messages s')).
Proof.
  intros Hs. unfold Check_.
  pose proof (names_index s) as Hix. pose proof (names_nil s) as Hnames.
  assert (Hn : s_messages (names s).1 = s_messages s /\ s_package (names s).1 = s_package s /\
    s_sorted (names s).1 = []) by (rewrite <-Hs; split_and!; reflexivity).
  destruct (names s) as [s1 e1]. cbn [fst snd] in *. destruct Hn as (Hm1 & Hp1 & Hs1).
  pose proof (types_same s1) as Hsame. pose proof (types_resolved s1 Hix) as Htypes.
  assert (Ht : s_package (types s1).1 = s_package s1 /\ s_sorted (types s1).1 = s_sorted s1) by (split; reflexivity).
  destruct (types s1) as [s2 e2]. cbn [fst snd] in *. destruct Ht as (Hp2 & Hs2).
  destruct (e1 ++ e2) eqn:He; [|left; by eexists (_ :: _)]. apply app_nil in He as [-> ->].
  destruct (cycles_spec s2) as (s3 & e3 & -> & Hp3 & Hm3 & _ & Hord); [congruence|auto|].
  destruct e3; [|left; by eexists (_ :: _)]. destruct (Hord eq_refl) as (Hnd & Htopo & Hall).
  destruct (layout s3) as [s4 e4] eqn:Hl. destruct e4; [|left; by eexists (_ :: _)]. right. exists s4. split; [done|].
  destruct (layout_spec s3 s4) as (Hp4 & Hs4 & Hsim & Hlaid);
    [rewrite Hm3; auto|exact Hnd|exact Htopo|exact Hall|exact Hl|].
  rewrite Hm3 in Hsim, Htopo, Hall. rewrite Hm1 in Hsame.
  assert (Hall4 : Forall2 same_message (s_messages s) (s_messages s4)).
  { eapply Forall2_trans; [|exact Hsame|apply same_similar, Hsim].
    intros m m' m'' [?? Hf] [?? Hf']. split; [congruence..|]. eapply Forall2_trans; [|exact Hf|exact Hf'].
    intros f g h [] []. split; congruence. }
  split; [|done]. split.
  - apply (names_ok_same s); [congruence|done|by apply Hnames].
  - eapply similar_types_ok; [exact Hsim|auto].
  - by rewrite Hs4.
  - intros i. by rewrite Hs4, Hall, (Forall2_length _ _ _ Hsim).
  - rewrite Hs4. intros l1 i l2 E j. rewrite <-(similar_refs _ _ i Hsim). by apply (Htopo l1 i l2).
  - done.
Qed.

Lemma Check_checked s s' : s_sorted s = [] -> Check_ s = Some (inr s') -> checked s'.
Proof.
  intros Hs HC. destruct (Check_cases s Hs) as [(errs & _ & E)|(s1 & E & Hck & _)]; rewrite HC in E; [done|].
  by injection E as ->.
Qed.

(** ** Reading off a placement *)

Lemma fixed_cons f fs :
  List.filter (fun f => negb (field_IsVar f)) (f :: fs) =
  if field_IsVar f then List.filter (fun f => negb (field_IsVar f)) fs
  else f :: List.filter (fun f => negb (field_IsVar f)) fs.
Proof. cbn. by destruct (field_IsVar f). Qed.

Lemma placed_le ms fs lo hi al :
  (forall f, f ∈ fs -> 0 <= Size ms (f_type f)) -> placed ms fs lo hi al -> lo <= hi.
Proof.
  revert lo. induction fs as [|f fs IH]; intros lo Hs; cbn [placed]; [done|].
  assert (Hs' : forall f, f ∈ fs -> 0 <= Size ms (f_type f)) by (intros; apply Hs; by right).
  destruct (field_IsVar f); [by apply IH|]. intros (H1 & _ & _ & H2). apply IH in H2; [|done].
  assert (0 <= Size ms (f_type f)) by (apply Hs; by left). lia.
Qed.

Lemma placed_lookup ms fs lo hi al p f :
  (forall f, f ∈ fs -> 0 <= Size ms (f_type f)) -> placed ms fs lo hi al ->
  List.filter (fun f => negb (field_IsVar f)) fs !! p = Some f ->
  lo <= f_offset f /\ f_offset f + Size ms (f_type f) <= hi /\ (Align ms (f_type f) | f_offset f) /\
  (Align ms (f_type f) | al).
Proof.
  revert lo p. induction fs as [|g fs IH]; intros lo p Hs; [done|]. rewrite fixed_cons. cbn [placed].
  assert (Hs' : forall f, f ∈ fs -> 0 <= Size ms (f_type f)) by (intros; apply Hs; by right).
  destruct (field_IsVar g) eqn:Hv; [by apply IH|]. intros (H1 & H2 & H3 & H4).
  assert (0 <= Size ms (f_type g)) by (apply Hs; by left). destruct p as [|p]; cbn [lookup list_lookup].
  - intros [= <-]. pose proof (placed_le _ _ _ _ _ Hs' H4). split_and!; try done; lia.
  - intros Hp. destruct (IH _ _ Hs' H4 Hp) as (? & ? & ? & ?). split_and!; try done; lia.
Qed.

Lemma placed_order ms fs lo hi al p q f g :
  (forall f, f ∈ fs -> 0 <= Size ms (f_type f)) -> placed ms fs lo hi al -> (p < q)%nat ->
  List.filter (fun f => negb (field_IsVar f)) fs !! p = Some f ->
  List.filter (fun f => negb (field_IsVar f)) fs !! q = Some g ->
  f_offset f + Size ms (f_type f) <= f_offset g.
Proof.
  revert lo p q. induction fs as [|h fs IH]; intros lo p q Hs; [done|]. rewrite fixed_cons. cbn [placed].
  assert (Hs' : forall f, f ∈ fs -> 0 <= Size ms (f_type f)) by (intros; apply Hs; by right).
  destruct (field_IsVar h) eqn:Hv; [by apply IH|]. intros (H1 & H2 & H3 & H4) Hpq.
  destruct q as [|q]; [lia|]. destruct p as [|p]; cbn [lookup list_lookup].
  - intros [= <-] Hq. by destruct (placed_lookup _ _ _ _ _ _ _ Hs' H4 Hq).
  - intros Hp Hq. apply (IH _ p q Hs' H4); [lia|done..].
Qed.

Lemma checked_sizes s i m f :
  checked s -> s_messages s !! i = Some m -> f ∈ m_fields m ->
  pow8 (Align (s_messages s) (f_type f)) /\ 0 <= Size (s_messages s) (f_type f).
Proof.
  intros H Hm Hf. pose proof (ck_types _ H i m f Hm Hf) as Hok.
  destruct (type_layout (s_messages s) (f_type f) Hok) as (H1 & H2 & _); [|done].
  intros j Hj. assert (Hlt : (j < List.length (s_messages s))%nat).
  { apply (types_ok_refs _ i); [apply H|]. unfold refs. rewrite Hm. by eapply contains_field. }
  destruct (lookup_lt_is_Some_2 _ _ Hlt) as [mj Hmj]. exists mj. destruct (ck_laid _ H j mj Hmj) as [Ha _ Hs _].
  split_and!; [done|done|lia].
Qed.

(** ** Theorems *)

(** A schema of two messages, the second with an array of the first. *)
Definition demo_schema : Schema :=
  let p := mkPos 1 1 in
  let msg name id fields := mkMessage name id fields p p 0 0 in
  let fld name t := mkField name t p 0 in
  mkSchema "demo.ipc" "demo" p
    [msg "Shape" 2 [fld "tag" (TBasic U8 p); fld "name" (TBasic KString p);
                    fld "points" (TArray 2 (TRef "Point" None p) p); fld "closed" (TBasic KBool p)];
     msg "Point" 1 [fld "x" (TBasic I32 p); fld "y" (TBasic U64 p)]]%string
    [] ∅.

Definition demo_checked : Schema :=
  match Check_ demo_schema with Some (inr s) => s | _ => demo_schema end.

(** the name checks report nothing exactly when the package, message and field
    names follow the naming rules, the messages have distinct names, C names and IDs
    other than the reserved one, the fields of each message have distinct names and
    Go names, and no message takes the name of a generated Go constant. *)
Theorem names_exact (s : Schema) : (names s).2 = [] <-> names_ok s.
Proof. apply names_nil. Qed.

(** [Check] always returns. When it rejects a schema it reports at least one
    problem, and the problems are in the order of their positions. *)
Theorem Check_total (s : Schema) :
  s_sorted s = [] ->
  exists r, Check_ s = Some r /\ match r with inl errs => errs <> [] /\ errors_sorted errs | inr _ => True end.
Proof.
  intros Hs. destruct (Check_cases s Hs) as [(errs & Hne & ->)|(s' & -> & _)]; [|by eexists].
  eexists. split; [done|]. destruct (sort_errors_spec errs) as [H1 H2]. split; [|done].
  intros E. rewrite E in H2. by apply Permutation_nil_l in H2.
Qed.

Lemma Check_total_witness : exists r, Check_ demo_schema = Some r.
Proof. destruct (Check_total demo_schema eq_refl) as (r & Hr & _). by exists r. Defined.

(** C15: a schema that [Check] accepts satisfies what the generators rely on: the
    names follow the rules, every reference is resolved to a message of that name
    without string or bytes fields, [Sorted] has every message once and after the
    messages it contains, and every message is laid out. The messages keep their
    names, IDs and fields. *)
Theorem Check_sound (s s' : Schema) :
  s_sorted s = [] -> Check_ s = Some (inr s') ->
  checked s' /\ Forall2 same_message (s_messages s) (s_messages s').
Proof.
  intros Hs HC. destruct (Check_cases s Hs) as [(errs & _ & E)|(s1 & E & Hck)]; rewrite HC in E; [done|].
  by injection E as ->.
Qed.

Lemma Check_sound_witness : checked demo_checked.
Proof. apply (Check_sound demo_schema demo_checked); [reflexivity|vm_compute; reflexivity]. Defined.

(** C13: in a schema that [Check] accepts the fixed fields of a message lie inside its
    fixed section, each at a multiple of its alignment, in the order of their
    declaration and without overlap; the size of the section is a multiple of its
    alignment, which is 1, 2, 4 or 8, and at most 2^31. *)
Theorem layout_sound (s s' : Schema) (i : nat) (m : Message) :
  s_sorted s = [] -> Check_ s = Some (inr s') -> s_messages s' !! i = Some m ->
  let ms := s_messages s' in
  (forall p f, FixedFields m !! p = Some f ->
     0 <= f_offset f /\ f_offset f + Size ms (f_type f) <= FixedSize m /\
     (Align ms (f_type f) | f_offset f) /\ (Align ms (f_type f) | MAlign m)) /\
  (forall p q f g, (p < q)%nat -> FixedFields m !! p = Some f -> FixedFields m !! q = Some g ->
     f_offset f + Size ms (f_type f) <= f_offset g) /\
  pow8 (MAlign m) /\ (MAlign m | FixedSize m) /\ FixedSize m <= 2 ^ 31.
Proof.
  intros Hs HC Hm ms. pose proof (Check_checked s s' Hs HC) as H.
  assert (Hsz : forall f, f ∈ m_fields m -> 0 <= Size ms (f_type f)).
  { intros f Hf. by destruct (checked_sizes s' i m f H Hm Hf). }
  destruct (ck_laid _ H i m Hm) as [Ha Hd Hb (hi & Hp & Hhi)]. split_and!; [| |done|done|lia].
  - intros p f Hf. destruct (placed_lookup _ _ _ _ _ _ _ Hsz Hp Hf) as (H1 & H2 & H3 & H4).
    split_and!; try done; lia.
  - intros p q f g Hpq Hf Hg. by apply (placed_order ms (m_fields m) 0 hi (MAlign m) p q).
Qed.

Lemma layout_sound_witness : exists m f g,
  s_messages demo_checked !! 0%nat = Some m /\ FixedFields m !! 0%nat = Some f /\
  FixedFields m !! 1%nat = Some g /\ f_offset f + Size (s_messages demo_checked) (f_type f) <= f_offset g.
Proof.
  assert (HC : Check_ demo_schema = Some (inr demo_checked)) by (vm_compute; reflexivity).
  destruct (s_messages demo_checked !! 0%nat) as [m|] eqn:Hm; [|vm_compute in Hm; discriminate].
  destruct (FixedFields m !! 0%nat) as [f|] eqn:Hf; [|vm_compute in Hm; injection Hm as <-; vm_compute in Hf; discriminate].
  destruct (FixedFields m !! 1%nat) as [g|] eqn:Hg; [|vm_compute in Hm; injection Hm as <-; vm_compute in Hg; discriminate].
  exists m, f, g. split; [reflexivity|]. split; [exact Hf|]. split; [exact Hg|].
  destruct (layout_sound demo_schema demo_checked 0 m eq_refl HC Hm) as (_ & H & _).
  apply (H 0%nat 1%nat f g); [lia|exact Hf|exact Hg].
Defined.

(** C28: once every reference is resolved, [cycles] returns, reports an error exactly
    when some message contains itself, directly or through others, and otherwise
    leaves in [Sorted] every message once, after the messages it contains. *)
Theorem cycles_exact (s : Schema) :
  s_sorted s = [] -> types_ok (s_messages s) ->
  exists s' errs, cycles s = Some (s', errs) /\
    (errs = [] <-> forall i, ~ tc (contained (s_messages s)) i i) /\
    (errs = [] -> NoDup (s_sorted s') /\ topological (s_messages s') (s_sorted s') /\
       forall i, i ∈ s_sorted s' <-> (i < List.length (s_messages s'))%nat).
Proof.
  intros Hs Ht. destruct (cycles_spec s Hs Ht) as (s' & errs & Hc & _ & _ & He & Ho).
  exists s', errs. split; [exact Hc|]. split; [exact He|exact Ho].
Qed.

(** Two messages that contain each other. *)
Definition loop_schema : Schema :=
  let p := mkPos 1 1 in
  mkSchema "loop.ipc" "loop" p
    [mkMessage "Left" 1 [mkField "right" (TRef "Right" (Some 1%nat) p) p 0] p p 0 0;
     mkMessage "Right" 2 [mkField "left" (TArray 3 (TRef "Left" (Some 0%nat) p) p) p 0] p p 0 0]%string
    [] ∅.

Lemma cycles_exact_witness : exists s' errs, cycles loop_schema = Some (s', errs) /\ errs <> [].
Proof.
  assert (Ht : types_ok (s_messages loop_schema)).
  { intros [|[|i]] m f; cbn; intros [= <-] ->%list_elem_of_singleton || done; cbn.
    - eexists _, _. split_and!; reflexivity.
    - split; [lia|]. eexists _, _. split_and!; reflexivity. }
  destruct (cycles_exact loop_schema eq_refl Ht) as (s' & errs & Hc & He & _). exists s', errs. split; [exact Hc|].
  intros E. apply (proj1 He E 0%nat).
  apply (tc_l _ _ 1%nat); [|apply tc_once]; vm_compute; constructor.
Defined.

(** A message with a [u64] and an array of 2147483639 bytes: the last offset is
    [maxFixedSize], and rounding it up to the alignment exceeds it. *)
Definition large_schema : Schema :=
  let p := mkPos 1 1 in
  mkSchema "large.ipc" "large" p
    [mkMessage "Large" 1 [mkField "stamp" (TBasic U64 p) p 0;
                          mkField "body" (TArray 2147483639 (TBasic U8 p) p) p 0] p p 0 0]%string
    [] ∅.

(** the fixed section of an accepted message may be larger than [maxFixedSize]: the
    bound is checked before the size is rounded up. *)
Theorem fixed_size_exceeds_max : exists s' m,
  Check_ large_schema = Some (inr s') /\ s_messages s' !! 0%nat = Some m /\
  FixedSize m = 2 ^ 31 /\ maxFixedSize < FixedSize m.
Proof. eexists _, _. vm_compute. split_and!; reflexivity. Qed.
