(* ===== verification/RefCodec.v ===== *)
(** * The reference codec ([src/ipcgen/internal/refcodec/refcodec.go])

    [Encode] writes a JSON value as a message of a checked schema; [Decode] checks
    that bytes are a well-formed encoding. The writes into the buffer are explicit,
    and a slice or an index out of range is a [Panic]. *)

From stdpp Require Import base numbers list list_numbers option strings gmap.
From coqutil Require Import Byte Word.LittleEndianList.
From Stdlib Require Import ZArith Lia Bool String Ascii.
From S2P Require Import Prelude GoStd Schema.

#[local] Open Scope Z_scope.
#[local] Set Warnings "-register-all".

(** ** Values and outcomes *)

(** Decoded JSON: numbers are [json.Number], an object has distinct keys. *)
Inductive value : Type :=
| VNull
| VBool (x : bool)
| VNumber (text : string)
| VString (s : string)
| VArray (items : list value)
| VObject (obj : list (string * value)).

Definition field_of (obj : list (string * value)) (name : string) : option value :=
  snd <$> List.find (fun kv => String.eqb (fst kv) name) obj.

(** [obj[name]]; a missing key reads as nil. *)
Definition get (obj : list (string * value)) (name : string) : value := default VNull (field_of obj name).

Inductive path_step : Type := PField (name : string) | PIndex (i : nat).

Inductive encode_msg : Type :=
| ValueNotObject
| FieldMissing (name : string)
| NoSuchField (message key : string)
| WantArray (len : Z)
| WantObject
| WantBool
| FoundString (k : Kind)
| FoundNumber (k : Kind)
| FoundOther (k : Kind)
| NotF32 (text : string)
| NotF64 (text : string)
| NotSigned (text : string) (k : Kind)
| NotUnsigned (text : string) (k : Kind)
| WantString
| NotUTF8
| WantHex.

Definition path : Type := list path_step.

(** The kinds of [DecodeError]. *)
Inductive decode_kind : Type := ErrShort | ErrLength | ErrTrailing | ErrBool | ErrUTF8.

Inductive res (E A : Type) : Type :=
| Ok (a : A)
| Error (e : E)
| Panic
| NoFuel.
Arguments Ok {E A}.
Arguments Error {E A}.
Arguments Panic {E A}.
Arguments NoFuel {E A}.

Definition bind {E A B} (r : res E A) (k : A -> res E B) : res E B :=
  match r with Ok a => k a | Error e => Error e | Panic => Panic | NoFuel => NoFuel end.

Declare Scope codec_scope.
Notation "'let!' x ':=' r 'in' k" := (bind r (fun x => k))
  (at level 10, x pattern, k at level 200, right associativity) : codec_scope.
#[local] Open Scope codec_scope.

Definition enc (A : Type) : Type := res (path * encode_msg) A.

(** [f(b[off:])] where [f] writes into the slice it is given. *)
Definition sub {E} (b : list byte) (off : Z) (f : list byte -> res E (list byte)) : res E (list byte) :=
  if (0 <=? off) && (off <=? Z.of_nat (List.length b)) then
    let! tl := f (drop (Z.to_nat off) b) in Ok (take (Z.to_nat off) b ++ tl)
  else Panic.

(** [f(b[off:])] where [f] only reads. *)
Definition from {E A} (b : list byte) (off : Z) (f : list byte -> res E A) : res E A :=
  if (0 <=? off) && (off <=? Z.of_nat (List.length b)) then f (drop (Z.to_nat off) b) else Panic.

(** [b[0:n] = bytes], byte after byte. *)
Definition write {E} (b bytes : list byte) : res E (list byte) :=
  if (List.length bytes <=? List.length b)%nat then Ok (bytes ++ drop (List.length bytes) b) else Panic.

#[global] Instance byte_eq_decision : EqDecision byte := Byte.byte_eq_dec.

(** ** Scalars *)

Definition scalarBits (k : Kind) (v : value) : encode_msg + Z :=
  let is64 := match k with U64 | I64 => true | _ => false end in
  let number (text : string) : encode_msg + Z :=
    let size := ScalarSize k * 8 in
    match k with
    | F32 =>
        match ParseFloat text with
        | Some f => if same_number (to_float32 f) f then inr (float_bits 24 128 (to_float32 f)) else inl (NotF32 text)
        | None => inl (NotF32 text)
        end
    | F64 => match ParseFloat text with Some f => inr (float_bits 53 1024 f) | None => inl (NotF64 text) end
    | _ =>
        if IsSigned k then
          match ParseInt text 10 size with Some n => inr (n mod 2 ^ 64) | None => inl (NotSigned text k) end
        else
          match ParseUint text 10 size with Some n => inr n | None => inl (NotUnsigned text k) end
    end in
  match v with
  | VString x => if is64 then number x else inl (FoundString k)
  | VNumber x => if is64 then inl (FoundNumber k) else number x
  | _ => inl (FoundOther k)
  end.

Definition varBytes (f : Field) (v : value) (p : path) : enc (list byte) :=
  match v with
  | VString s =>
      let raw := list_byte_of_string s in
      match f_type f with
      | TBasic KString _ => if Valid raw then Ok raw else Error (p, NotUTF8)
      | _ =>
          match hex_DecodeString raw with
          | Some out => if decide (hex_EncodeToString out = raw) then Ok out else Error (p, WantHex)
          | None => Error (p, WantHex)
          end
      end
  | _ => Error (p, WantString)
  end.

(** ** Encode *)

(** When a key is not a field, the first such key in the order of [obj] is named;
    the order of a Go map is not fixed. *)
Definition checkKeys (m : Message) (obj : list (string * value)) (p : path) : enc unit :=
  match List.find (fun f => negb (bool_decide (is_Some (field_of obj (f_name f))))) (m_fields m) with
  | Some f => Error (p, FieldMissing (f_name f))
  | None =>
      if (List.length obj =? List.length (m_fields m))%nat then Ok tt
      else
        match List.find (fun kv => negb (existsb (fun f => String.eqb (f_name f) (fst kv)) (m_fields m))) obj with
        | Some kv => Error (p, NoSuchField (m_name m) (fst kv))
        | None => Ok tt
        end
  end.

Section loops.
Context (put : list byte -> Typ -> value -> path -> enc (list byte)).

(** The loop of [put] over the items of an array. *)
Fixpoint put_items (size : Z) (elem : Typ) (p : path) (b : list byte) (i : nat) (arr : list value)
    : enc (list byte) :=
  match arr with
  | [] => Ok b
  | e :: arr =>
      let! b := sub b (Z.of_nat i * size) (fun b => put b elem e (p ++ [PIndex i])) in
      put_items size elem p b (S i) arr
  end.

(** The loop of [putFixed]. *)
Fixpoint put_fields (obj : list (string * value)) (p : path) (b : list byte) (fs : list Field) : enc (list byte) :=
  match fs with
  | [] => Ok b
  | f :: fs =>
      let! b := sub b (f_offset f) (fun b => put b (f_type f) (get obj (f_name f)) (p ++ [PField (f_name f)])) in
      put_fields obj p b fs
  end.

Definition put_message (m : Message) (obj : list (string * value)) (p : path) (b : list byte) : enc (list byte) :=
  let! _ := checkKeys m obj p in put_fields obj p b (FixedFields m).
End loops.

(** The buffer is an argument and a result; [fuel] bounds the nesting of types. *)
Fixpoint put (fuel : nat) (ms : list Message) (b : list byte) (t : Typ) (v : value) (p : path) : enc (list byte) :=
  match fuel with
  | O => NoFuel
  | S fuel =>
      match t with
      | TArray len elem _ =>
          match v with
          | VArray arr =>
              if Z.of_nat (List.length arr) =? len
              then put_items (put fuel ms) (Size ms elem) elem p b 0 arr
              else Error (p, WantArray len)
          | _ => Error (p, WantArray len)
          end
      | TRef _ msg _ =>
          match v with
          | VObject obj =>
              match msg ≫= (fun i => ms !! i) with
              | Some m => put_message (put fuel ms) m obj p b
              | None => Panic
              end
          | _ => Error (p, WantObject)
          end
      | TBasic KBool _ =>
          match v with
          | VBool true => write b [Byte.x01]
          | VBool false => Ok b
          | _ => Error (p, WantBool)
          end
      | TBasic k _ =>
          match scalarBits k v with
          | inl e => Error (p, e)
          | inr bits => write b (le_split (Z.to_nat (ScalarSize k)) bits)
          end
      end
  end.

Definition putFixed (fuel : nat) (ms : list Message) (b : list byte) (m : Message) (obj : list (string * value))
    (p : path) : enc (list byte) := put_message (put fuel ms) m obj p b.

(** The loop of [Encode] over the variable fields. *)
Fixpoint put_vars (obj : list (string * value)) (p : path) (b : list byte) (fs : list Field) : enc (list byte) :=
  match fs with
  | [] => Ok b
  | f :: fs =>
      let! raw := varBytes f (get obj (f_name f)) (p ++ [PField (f_name f)]) in
      put_vars obj p (b ++ le_split 4 (Z.of_nat (List.length raw)) ++ raw) fs
  end.

(** Each message and each array on the way down takes one unit of fuel. *)
Definition fuel_for (ms : list Message) : nat := 2 * List.length ms + 2.

Definition Encode (ms : list Message) (m : Message) (v : value) : enc (list byte) :=
  match v with
  | VObject obj =>
      let p := [PField (m_name m)] in
      let! b := putFixed (fuel_for ms) ms (replicate (Z.to_nat (FixedSize m)) Byte.x00) m obj p in
      put_vars obj p b (VarFields m)
  | _ => Error ([PField (m_name m)], ValueNotObject)
  end.

(** ** Decode *)

Definition dec (A : Type) : Type := res decode_kind A.

Section check_loops.
Context (checkType : list byte -> Typ -> dec unit).

Fixpoint check_fields (b : list byte) (fs : list Field) : dec unit :=
  match fs with
  | [] => Ok tt
  | f :: fs => let! _ := from b (f_offset f) (fun b => checkType b (f_type f)) in check_fields b fs
  end.

(** [n] items from index [i] on. *)
Fixpoint check_items (size : Z) (elem : Typ) (b : list byte) (i n : nat) : dec unit :=
  match n with
  | O => Ok tt
  | S n => let! _ := from b (Z.of_nat i * size) (fun b => checkType b elem) in check_items size elem b (S i) n
  end.
End check_loops.

Fixpoint checkType (fuel : nat) (ms : list Message) (b : list byte) (t : Typ) : dec unit :=
  match fuel with
  | O => NoFuel
  | S fuel =>
      match t with
      | TBasic KBool _ =>
          match b with x :: _ => if 1 <? byte.unsigned x then Error ErrBool else Ok tt | [] => Panic end
      | TBasic _ _ => Ok tt
      | TRef _ msg _ =>
          match msg ≫= (fun i => ms !! i) with
          | Some m => check_fields (checkType fuel ms) b (FixedFields m)
          | None => Panic
          end
      | TArray len elem _ => check_items (checkType fuel ms) (Size ms elem) elem b 0 (Z.to_nat len)
      end
  end.

Definition checkFixed (fuel : nat) (ms : list Message) (b : list byte) (m : Message) : dec unit :=
  check_fields (checkType fuel ms) b (FixedFields m).

(** The loop of [Decode] over the variable fields: the offset after the last. *)
Fixpoint check_vars (b : list byte) (off : Z) (fs : list Field) : dec Z :=
  match fs with
  | [] => Ok off
  | f :: fs =>
      let len := Z.of_nat (List.length b) in
      if len - off <? 4 then Error ErrLength
      else
        let n := le_combine (take 4 (drop (Z.to_nat off) b)) in
        let off := off + 4 in
        if len - off <? n then Error ErrLength
        else
          let raw := take (Z.to_nat n) (drop (Z.to_nat off) b) in
          match f_type f with
          | TBasic KString _ => if Valid raw then check_vars b (off + n) fs else Error ErrUTF8
          | _ => check_vars b (off + n) fs
          end
  end.

Definition Decode (ms : list Message) (m : Message) (b : list byte) : dec unit :=
  if Z.of_nat (List.length b) <? FixedSize m then Error ErrShort
  else
    let! _ := checkFixed (fuel_for ms) ms b m in
    let! off := check_vars b (FixedSize m) (VarFields m) in
    if off =? Z.of_nat (List.length b) then Ok tt else Error ErrTrailing.
