(* ===== verification/RefCodecThm.v ===== *)
(** * The reference codec on a checked schema

    [Encode] and [Decode] neither panic nor run out of fuel, what [Encode] returns
    is accepted by [Decode], and each field is found where the layout puts it. *)

From stdpp Require Import base numbers list list_numbers option strings gmap.
From coqutil Require Import Byte Word.LittleEndianList.
From Stdlib Require Import ZArith Lia Bool String Ascii.
From S2P Require Import Prelude GoStd Schema Check CheckThm Layout RefCodec.

#[local] Open Scope Z_scope.

(** ** Buffers *)

(** The bytes from [lo] to [hi] are zero. *)
Definition zero (b : list byte) (lo hi : nat) : Prop := forall k, (lo <= k < hi)%nat -> b !! k = Some Byte.x00.

(** [b'] is [b] up to the bytes from [lo] to [hi]. *)
Definition outside (b b' : list byte) (lo hi : nat) : Prop :=
  List.length b' = List.length b /\ forall k, (k < lo \/ hi <= k)%nat -> b' !! k = b !! k.

(** [b] and [b'] agree from [lo] to [hi], and both have those bytes. *)
Definition inside (b b' : list byte) (lo hi : nat) : Prop :=
  (hi <= List.length b)%nat /\ (hi <= List.length b')%nat /\ forall k, (lo <= k < hi)%nat -> b' !! k = b !! k.

(** A write that stays in its bytes and leaves [Q], or an error; never a panic. *)
Definition writes {E} (b : list byte) (lo hi : nat) (Q : list byte -> Prop) (r : res E (list byte)) : Prop :=
  match r with Ok b' => outside b b' lo hi /\ Q b' | Error _ => True | _ => False end.

Lemma outside_refl b lo hi : outside b b lo hi.
Proof. done. Qed.

Lemma outside_trans b1 b2 b3 lo mid hi :
  (lo <= mid <= hi)%nat -> outside b1 b2 lo mid -> outside b2 b3 mid hi -> outside b1 b3 lo hi.
Proof. intros Hm [L1 H1] [L2 H2]. split; [congruence|]. intros k Hk. rewrite H2, H1 by lia. done. Qed.

Lemma outside_weaken b b' lo hi lo' hi' :
  (lo' <= lo)%nat -> (hi <= hi')%nat -> outside b b' lo hi -> outside b b' lo' hi'.
Proof. intros H1 H2 [L H]. split; [done|]. intros k Hk. apply H. lia. Qed.

Lemma outside_zero b b' lo mid hi :
  (lo <= mid)%nat -> outside b b' lo mid -> zero b lo hi -> zero b' mid hi.
Proof. intros Hm [_ H] Hz k Hk. rewrite H by lia. apply Hz. lia. Qed.

Lemma outside_inside b b' lo hi mid :
  (hi <= List.length b)%nat -> outside b b' hi mid -> inside b b' lo hi.
Proof. intros Hl [L H]. split_and!; [done|lia|]. intros k Hk. apply H. lia. Qed.

Lemma inside_drop b b' off n : inside b b' off (off + n) -> inside (drop off b) (drop off b') 0 n.
Proof.
  intros (H1 & H2 & H3). unfold inside. rewrite !length_drop. split_and!; [lia..|]. intros k Hk. rewrite !lookup_drop. apply H3. lia.
Qed.

Lemma writes_impl {E} b lo hi lo' hi' Q Q' (r : res E (list byte)) :
  (lo' <= lo)%nat -> (hi <= hi')%nat -> (forall b', outside b b' lo hi -> Q b' -> Q' b') ->
  writes b lo hi Q r -> writes b lo' hi' Q' r.
Proof.
  intros H1 H2 HQ. destruct r; cbn; try done. intros [Ho Hq]. split; [by eapply outside_weaken|by apply HQ].
Qed.

(** One write after the other, each in its own bytes. *)
Lemma writes_bind {E} b lo mid hi Q1 Q2 (r : res E (list byte)) k :
  (lo <= mid <= hi)%nat -> writes b lo mid Q1 r ->
  (forall b', outside b b' lo mid -> Q1 b' -> writes b' mid hi Q2 (k b')) ->
  writes b lo hi Q2 (bind r k).
Proof.
  intros Hm H1 H2. destruct r as [b'| | |]; cbn in *; try done. destruct H1 as [Ho Hq].
  specialize (H2 b' Ho Hq). destruct (k b') as [b''| | |]; cbn in *; try done.
  destruct H2 as [Ho' Hq']. split; [by eapply outside_trans|done].
Qed.

(** A write through the slice [b[off:]]. *)
Lemma writes_sub {E} b off n Q (f : list byte -> res E (list byte)) :
  0 <= off -> (Z.to_nat off <= List.length b)%nat ->
  writes (drop (Z.to_nat off) b) 0 n Q (f (drop (Z.to_nat off) b)) ->
  writes b (Z.to_nat off) (Z.to_nat off + n) (fun b' => Q (drop (Z.to_nat off) b')) (sub b off f).
Proof.
  intros H0 Hl Hf. unfold sub. rewrite (proj2 (Z.leb_le 0 off) H0), (proj2 (Z.leb_le _ _)) by lia. cbn [andb].
  destruct (f _) as [tl| | |]; cbn in *; try done. destruct Hf as [[L H] Hq]. rewrite length_drop in L.
  assert (Ht : List.length (take (Z.to_nat off) b) = Z.to_nat off) by (rewrite length_take; lia). split.
  - split; [rewrite length_app, Ht, L; lia|]. intros k Hk. destruct (decide (k < Z.to_nat off)%nat).
    + rewrite lookup_app_l by lia. by rewrite lookup_take_lt by lia.
    + rewrite lookup_app_r, Ht by lia. rewrite H by lia. rewrite lookup_drop. f_equal. lia.
  - by rewrite drop_app_length'.
Qed.

Lemma writes_write {E} b bytes :
  (List.length bytes <= List.length b)%nat ->
  writes (E := E) b 0 (List.length bytes) (fun b' => take (List.length bytes) b' = bytes) (write b bytes).
Proof.
  intros Hl. unfold write. rewrite (proj2 (Nat.leb_le _ _) Hl). split; [split|].
  - rewrite length_app, length_drop. lia.
  - intros k Hk. rewrite lookup_app_r by lia. rewrite lookup_drop. f_equal. lia.
  - by rewrite take_app_length.
Qed.

Lemma from_spec {E A} b off (f : list byte -> res E A) :
  0 <= off -> (Z.to_nat off <= List.length b)%nat -> from b off f = f (drop (Z.to_nat off) b).
Proof. intros H0 Hl. unfold from. by rewrite (proj2 (Z.leb_le 0 off) H0), (proj2 (Z.leb_le _ _)) by lia. Qed.

(** ** What the bytes of a value are *)

(** The bytes at the start of [b] are the fixed-size value [v] of type [t]. *)
Inductive represents (ms : list Message) : list byte -> Typ -> value -> Prop :=
| R_bool b p (x : bool) :
    b !! 0%nat = Some (if x then Byte.x01 else Byte.x00) -> represents ms b (TBasic KBool p) (VBool x)
| R_number b k p v bits :
    k <> KBool -> scalarBits k v = inr bits ->
    take (Z.to_nat (ScalarSize k)) b = le_split (Z.to_nat (ScalarSize k)) bits ->
    represents ms b (TBasic k p) v
| R_array b len elem p arr :
    Z.of_nat (List.length arr) = len ->
    (forall i e, arr !! i = Some e -> represents ms (drop (i * Z.to_nat (Size ms elem)) b) elem e) ->
    represents ms b (TArray len elem p) (VArray arr)
| R_ref b name i p m obj :
    ms !! i = Some m ->
    (forall f, f ∈ FixedFields m -> represents ms (drop (Z.to_nat (f_offset f)) b) (f_type f) (get obj (f_name f))) ->
    represents ms b (TRef name (Some i) p) (VObject obj).

Section codec.
Context (s : Schema) (Hck : checked s).
Let ms := s_messages s.
Let size (t : Typ) : nat := Z.to_nat (Size ms t).

(** A field of a message or the element of one. *)
Definition fixed_type (t : Typ) : Prop := type_ok ms t /\ IsVar t = false.

(** [fuel] is enough for the fields of message [i]; for a type [t]. *)
Definition message_fuel (i fuel : nat) : Prop :=
  exists l1 l2, s_sorted s = l1 ++ i :: l2 /\ (2 * List.length l1 + 2 <= fuel)%nat.

Definition type_fuel (t : Typ) (fuel : nat) : Prop :=
  match t with
  | TBasic _ _ => (1 <= fuel)%nat
  | TRef _ (Some i) _ => exists fuel', fuel = S fuel' /\ message_fuel i fuel'
  | TArray _ (TRef _ (Some i) _) _ => exists fuel', fuel = S (S fuel') /\ message_fuel i fuel'
  | _ => (2 <= fuel)%nat
  end.

Lemma message_fuel_enough i : (i < List.length ms)%nat -> message_fuel i (fuel_for ms).
Proof using Hck.
  intros Hi. apply (ck_all _ Hck) in Hi. destruct (list_elem_of_split _ _ Hi) as (l1 & l2 & E).
  exists l1, l2. split; [done|]. unfold fuel_for.
  assert (Hle : (List.length (s_sorted s) <= List.length ms)%nat).
  { rewrite <-(length_seq (List.length ms) 0). apply NoDup_incl_length; [apply NoDup_ListNoDup, Hck|].
    intros j Hj%list_elem_of_In%(ck_all _ Hck). apply in_seq. unfold ms in *. lia. }
  rewrite E, length_app in Hle. cbn in Hle. lia.
Qed.

Lemma message_fuel_ref i j fuel :
  message_fuel i fuel -> j ∈ refs ms i -> exists fuel', fuel = S (S fuel') /\ message_fuel j fuel'.
Proof using Hck.
  intros (l1 & l2 & E & Hf) Hj. pose proof (ck_topo _ Hck l1 i l2 E j Hj) as Hin.
  destruct (list_elem_of_split _ _ Hin) as (l3 & l4 & ->). rewrite length_app in Hf. cbn in Hf.
  destruct fuel as [|[|fuel]]; [lia..|]. exists fuel. split; [done|].
  exists l3, (l4 ++ i :: l2). split; [by rewrite E, <-app_assoc|]. lia.
Qed.

Lemma message_fuel_S i fuel : message_fuel i fuel -> message_fuel i (S fuel).
Proof using. intros (l1 & l2 & E & Hf). exists l1, l2. split; [done|lia]. Qed.

Lemma field_facts i m f :
  ms !! i = Some m -> f ∈ FixedFields m ->
  fixed_type (f_type f) /\ 0 <= f_offset f /\ f_offset f + Size ms (f_type f) <= FixedSize m /\
  0 <= Size ms (f_type f) /\ forall fuel, message_fuel i fuel -> type_fuel (f_type f) fuel.
Proof using Hck.
  intros Hm Hf. pose proof Hf as Hff. apply list_elem_of_lookup in Hff as [p Hp].
  assert (Hin : f ∈ m_fields m /\ field_IsVar f = false).
  { apply list_elem_of_In, filter_In in Hf as [Hf Hv]. split; [by apply list_elem_of_In|by destruct (field_IsVar f)]. }
  destruct Hin as [Hin Hv].
  assert (Hsz : forall g, g ∈ m_fields m -> 0 <= Size ms (f_type g)).
  { intros g Hg. by destruct (checked_sizes s i m g Hck Hm Hg). }
  pose proof (ck_types _ Hck i m f Hm Hin) as Hok. destruct (ck_laid _ Hck i m Hm) as [_ _ _ (hi & Hpl & Hhi)].
  destruct (placed_lookup _ _ _ _ _ p f Hsz Hpl Hp) as (H1 & H2 & _ & _). fold ms in H2.
  split_and!; [split; [exact Hok|exact Hv]|done|lia|by apply Hsz|]. intros fuel Hfuel.
  assert (H2f : (2 <= fuel)%nat) by (destruct Hfuel as (? & ? & _ & ?); lia).
  assert (Hr : forall j, refOf (f_type f) = Some j -> j ∈ refs ms i).
  { intros j Hj. unfold refs. rewrite Hm. by eapply contains_field. }
  destruct (f_type f) as [k q|len [k q|? ? q|name [j|] q] q'|name [j|] q]; cbn in *; try lia; try done.
  - destruct (message_fuel_ref i j fuel Hfuel (Hr j eq_refl)) as (fuel' & -> & H). by exists fuel'.
  - destruct (message_fuel_ref i j fuel Hfuel (Hr j eq_refl)) as (fuel' & -> & H). exists (S fuel').
    split; [done|by apply message_fuel_S].
Qed.

Lemma fixed_size_nonneg i m : ms !! i = Some m -> 0 <= FixedSize m.
Proof using Hck. intros Hm. destruct (ck_laid _ Hck i m Hm) as [_ _ H _]. lia. Qed.

(** The element of an array. *)
Lemma elem_facts len elem p :
  fixed_type (TArray len elem p) ->
  1 <= len /\ fixed_type elem /\ 0 <= Size ms elem /\
  forall fuel, type_fuel (TArray len elem p) (S fuel) -> type_fuel elem fuel.
Proof using Hck.
  intros [Hok _]. destruct elem as [k q|? ? q|name msg q]; cbn in Hok; [|done|].
  - destruct Hok as [Hl Hk]. split; [done|]. split; [by split|]. split; [destruct k; cbn; lia|].
    intros fuel Hf. cbn in *. lia.
  - destruct Hok as [Hl Hr]. split; [done|]. split; [by split|].
    destruct Hr as (i & m & -> & Hm & _). split.
    + cbn. fold ms in Hm. rewrite Hm. by eapply fixed_size_nonneg.
    + intros fuel (fuel' & [= ->] & H). by exists fuel'.
Qed.

(** ** Locality *)

Lemma inside_lookup_0 b b' n : (0 < n)%nat -> inside b b' 0 n -> b' !! 0%nat = b !! 0%nat.
Proof using. intros Hn (_ & _ & H). apply H. lia. Qed.

Lemma inside_take b b' n : inside b b' 0 n -> take n b' = take n b.
Proof using.
  intros (H1 & H2 & H). apply list_eq. intros k. destruct (decide (k < n)%nat).
  - rewrite !lookup_take_lt by lia. apply H. lia.
  - by rewrite !lookup_take_ge by lia.
Qed.

Lemma inside_sub b b' off n m :
  (off + n <= m)%nat -> inside b b' 0 m -> inside (drop off b) (drop off b') 0 n.
Proof using.
  intros Hle (H1 & H2 & H). apply inside_drop. split_and!; [lia..|]. intros k Hk. apply H. lia.
Qed.

(** The bytes of a value of type [t] are the first [size t]. *)
Lemma represents_local b b' t v :
  represents ms b t v -> fixed_type t -> inside b b' 0 (size t) -> represents ms b' t v.
Proof using Hck.
  intros H. revert b'. induction H as [b p x Hx|b k p v bits Hk Hb Ht|b len elem p arr Hl _ IH|b name i p m obj Hm _ IH];
    intros b' Hty Hin.
  - constructor. rewrite <-Hx. by apply (inside_lookup_0 b b' 1); [lia|].
  - econstructor; [done..|]. rewrite <-Ht. by apply inside_take.
  - destruct (elem_facts len elem p Hty) as (Hlen & He & Hsz & _). constructor; [done|].
    intros i e Hi. eapply IH; [done..|]. eapply inside_sub; [|exact Hin].
    apply lookup_lt_Some in Hi. unfold size in *. cbn [Size]. fold ms. nia.
  - econstructor; [done|]. intros f Hf. destruct (field_facts i m f Hm Hf) as (Hft & H0 & Hle & Hs & _).
    apply IH; [done..|]. eapply inside_sub; [|exact Hin]. unfold size. cbn [Size]. fold ms in Hm. cbn. rewrite Hm.
    unfold ms in *. lia.
Qed.

(** ** Encoding *)

Section put_loops.
Context (fuel : nat) (Hput : forall b t v p, fixed_type t -> type_fuel t fuel -> (size t <= List.length b)%nat ->
  zero b 0 (size t) -> writes b 0 (size t) (fun b' => represents ms b' t v) (put fuel ms b t v p)).

(** A value put at an offset. *)
Lemma put_at b off t v p :
  0 <= off -> fixed_type t -> type_fuel t fuel -> (Z.to_nat off + size t <= List.length b)%nat ->
  zero b (Z.to_nat off) (Z.to_nat off + size t) ->
  writes b (Z.to_nat off) (Z.to_nat off + size t) (fun b' => represents ms (drop (Z.to_nat off) b') t v)
    (sub b off (fun b => put fuel ms b t v p)).
Proof using Hput.
  intros H0 Ht Hf Hl Hz. apply (writes_sub b off (size t) (fun b' => represents ms b' t v)); [done|lia|].
  apply Hput; [done..|rewrite length_drop; lia|]. intros k Hk. rewrite lookup_drop. apply Hz. lia.
Qed.

Lemma put_items_ok elem p arr b i :
  fixed_type elem -> 0 <= Size ms elem -> type_fuel elem fuel ->
  ((i + List.length arr) * size elem <= List.length b)%nat ->
  zero b (i * size elem) ((i + List.length arr) * size elem) ->
  writes b (i * size elem) ((i + List.length arr) * size elem)
    (fun b' => forall j e, arr !! j = Some e -> represents ms (drop ((i + j) * size elem) b') elem e)
    (put_items (put fuel ms) (Size ms elem) elem p b i arr).
Proof using Hput Hck.
  intros Ht Hs Hf. revert b i. induction arr as [|e arr IH]; intros b i Hl Hz; cbn [put_items List.length] in *.
  { split; [done|]. done. }
  assert (Hoff : Z.to_nat (Z.of_nat i * Size ms elem) = (i * size elem)%nat) by (unfold size; lia).
  pose proof (put_at b (Z.of_nat i * Size ms elem) elem e (p ++ [PIndex i])) as Hat. rewrite Hoff in Hat.
  eapply (writes_bind _ _ (i * size elem + size elem)); [nia| |].
  { apply Hat; try done; [lia|nia|]. intros k Hk. apply Hz. nia. }
  intros b' Ho Hr. specialize (IH b' (S i)).
  replace (S i * size elem)%nat with (i * size elem + size elem)%nat in IH by lia.
  replace (i + S (List.length arr))%nat with (S i + List.length arr)%nat by lia.
  replace (i + S (List.length arr))%nat with (S i + List.length arr)%nat in Hl, Hz by lia.
  pose proof Ho as [Hlen _]. eapply writes_impl; [reflexivity..| |apply IH; [lia|]].
  - intros b'' Ho' Hrest [|j] e' Hj; cbn in Hj.
    + injection Hj as <-. rewrite Nat.add_0_r. eapply represents_local; [exact Hr|done|].
      apply inside_drop. eapply outside_inside; [|exact Ho']. nia.
    + replace (i + S j)%nat with (S i + j)%nat by lia. by apply Hrest.
  - eapply outside_zero; [|exact Ho|exact Hz]. lia.
Qed.

Lemma put_fields_ok obj p fs lo hi al b :
  (forall f, f ∈ fs -> fixed_type (f_type f) /\ 0 <= Size ms (f_type f) /\ type_fuel (f_type f) fuel) ->
  0 <= lo -> placed ms fs lo hi al -> (Z.to_nat hi <= List.length b)%nat -> zero b (Z.to_nat lo) (Z.to_nat hi) ->
  writes b (Z.to_nat lo) (Z.to_nat hi)
    (fun b' => forall f, f ∈ fs -> represents ms (drop (Z.to_nat (f_offset f)) b') (f_type f) (get obj (f_name f)))
    (put_fields (put fuel ms) obj p b fs).
Proof using Hput Hck.
  revert lo b. induction fs as [|f fs IH]; intros lo b Hfs H0 Hpl Hl Hz; cbn [put_fields].
  { split; [done|]. by intros f ?%elem_of_nil. }
  destruct (Hfs f) as (Ht & Hs & Hf); [by left|].
  assert (Hv : field_IsVar f = false) by apply Ht. cbn [placed] in Hpl. rewrite Hv in Hpl.
  destruct Hpl as (H1 & _ & _ & Hpl).
  assert (Hle : f_offset f + Size ms (f_type f) <= hi).
  { eapply placed_le; [|exact Hpl]. intros g Hg. apply Hfs. by right. }
  assert (Hmid : (Z.to_nat (f_offset f) + size (f_type f))%nat = Z.to_nat (f_offset f + Size ms (f_type f)))
    by (unfold size; lia).
  eapply (writes_bind _ _ (Z.to_nat (f_offset f) + size (f_type f))); [unfold size in *; lia| |].
  - eapply writes_impl; [|reflexivity|intros ? _ HQ; exact HQ|].
    2: { apply put_at; [lia|done|done|unfold size in *; lia|].
         intros k Hk. apply Hz. unfold size in *. lia. }
    lia.
  - intros b' Ho Hr. cbn beta in Hr. rewrite Hmid in Ho |- *. pose proof Ho as [Hlen _].
    eapply writes_impl; [reflexivity..| |apply IH; [intros g Hg; apply Hfs; by right|lia|done|lia|]].
    + intros b'' Ho' Hrest g [->|Hg]%elem_of_cons; [|by apply Hrest].
      eapply represents_local; [exact Hr|done|]. apply inside_drop. rewrite Hmid.
      eapply outside_inside; [|exact Ho']. lia.
    + eapply outside_zero; [|exact Ho|exact Hz]. lia.
Qed.
End put_loops.

Lemma placed_fixed fs lo hi al :
  placed ms fs lo hi al -> placed ms (List.filter (fun f => negb (field_IsVar f)) fs) lo hi al.
Proof using.
  revert lo. induction fs as [|f fs IH]; intros lo; [done|]. rewrite fixed_cons. cbn [placed].
  destruct (field_IsVar f) eqn:Hv; [apply IH|]. cbn [placed]. rewrite Hv. intros (? & ? & ? & ?). auto.
Qed.

(** The fixed section of a message. *)
Lemma put_message_ok fuel i m obj p b :
  (forall b t v p, fixed_type t -> type_fuel t fuel -> (size t <= List.length b)%nat ->
     zero b 0 (size t) -> writes b 0 (size t) (fun b' => represents ms b' t v) (put fuel ms b t v p)) ->
  ms !! i = Some m -> message_fuel i fuel -> (Z.to_nat (FixedSize m) <= List.length b)%nat ->
  zero b 0 (Z.to_nat (FixedSize m)) ->
  writes b 0 (Z.to_nat (FixedSize m))
    (fun b' => forall f, f ∈ FixedFields m ->
       represents ms (drop (Z.to_nat (f_offset f)) b') (f_type f) (get obj (f_name f)))
    (put_message (put fuel ms) m obj p b).
Proof using Hck.
  intros Hput Hm Hf Hl Hz. unfold put_message.
  destruct (checkKeys m obj p) as [[]| | |] eqn:Hk; cbn [bind]; [|done|exfalso..].
  - destruct (ck_laid _ Hck i m Hm) as [_ _ _ (hi & Hpl & Hhi)]. apply placed_fixed in Hpl.
    eapply (writes_impl _ 0 (Z.to_nat hi)); [lia|lia|intros ? _ HQ; exact HQ|].
    eapply (put_fields_ok fuel Hput obj p (FixedFields m) 0); [|lia|exact Hpl|lia|].
    + intros f Hff. destruct (field_facts i m f Hm Hff) as (? & _ & _ & ? & Hfu). auto.
    + intros k Hk'. apply Hz. lia.
  - unfold checkKeys in Hk. by repeat case_match.
  - unfold checkKeys in Hk. by repeat case_match.
Qed.

Lemma write_number b k v bits p :
  k <> KBool -> IsVarKind k = false -> scalarBits k v = inr bits ->
  (Z.to_nat (ScalarSize k) <= List.length b)%nat ->
  writes (E := path * encode_msg) b 0 (Z.to_nat (ScalarSize k)) (fun b' => represents ms b' (TBasic k p) v)
    (write b (le_split (Z.to_nat (ScalarSize k)) bits)).
Proof using.
  intros Hk Hv Hb Hl. pose proof (writes_write (E := path * encode_msg) b (le_split (Z.to_nat (ScalarSize k)) bits)) as H.
  rewrite length_le_split in H. eapply writes_impl; [reflexivity..| |by apply H]. intros b' _ Ht. by econstructor.
Qed.

Lemma put_ok fuel b t v p :
  fixed_type t -> type_fuel t fuel -> (size t <= List.length b)%nat -> zero b 0 (size t) ->
  writes b 0 (size t) (fun b' => represents ms b' t v) (put fuel ms b t v p).
Proof using Hck.
  revert b t v p. induction fuel as [|fuel IH]; intros b t v p Ht Hf Hl Hz.
  { by destruct t as [|? [| |? []]|? []]; cbn in Hf; try lia; destruct Hf as (? & ? & ?). }
  destruct t as [k q|len elem q|name msg q]; cbn [put].
  - assert (Hnum : k <> KBool -> writes b 0 (size (TBasic k q)) (fun b' => represents ms b' (TBasic k q) v)
      (match scalarBits k v with
       | inl e => Error (p, e)
       | inr bits => write b (le_split (Z.to_nat (ScalarSize k)) bits)
       end)).
    { intros Hk. destruct (scalarBits k v) as [e|bits] eqn:Hb; [done|]. apply write_number; try done. apply Ht. }
    destruct k; try (apply Hnum; discriminate). clear Hnum. destruct v as [|[]| | | |]; try done.
    + eapply writes_impl; [reflexivity..| |by apply (writes_write b [Byte.x01])].
      intros b' _ Hb'. constructor. destruct b'; [done|]. cbn in Hb'. by injection Hb' as ->.
    + split; [done|]. constructor. apply Hz. unfold size. cbn. lia.
  - destruct (elem_facts len elem q Ht) as (Hlen & He & Hs & Hef). destruct v as [| | | |arr|]; try done.
    destruct (Z.eqb_spec (Z.of_nat (List.length arr)) len) as [Hal|]; [|done].
    assert (Hsize : size (TArray len elem q) = (List.length arr * size elem)%nat).
    { unfold size. cbn [Size]. rewrite <-Hal. lia. }
    rewrite Hsize in *. pose proof (put_items_ok fuel IH elem p arr b 0) as H. cbn [Nat.add Nat.mul] in H.
    eapply writes_impl; [reflexivity..| |apply H; auto]. intros b' _ Hr. by constructor.
  - destruct v as [| | | | |obj]; try done. destruct Ht as [(i & m & -> & Hm & _) _]. cbn [mbind option_bind].
    fold ms. rewrite Hm. destruct Hf as (fuel' & [= <-] & Hf).
    assert (Hsize : size (TRef name (Some i) q) = Z.to_nat (FixedSize m)) by (unfold size; cbn; by rewrite Hm).
    rewrite Hsize in *. eapply writes_impl; [reflexivity..| |by eapply put_message_ok].
    intros b' _ Hr. by econstructor.
Qed.

(** ** Decoding *)

(** A check that returns, with nothing wrong but a bool. *)
Definition returns (r : dec unit) : Prop := r = Ok tt \/ r = Error ErrBool.

Lemma returns_bind (r : dec unit) k : returns r -> returns (k tt) -> returns (bind r (fun _ => k tt)).
Proof using. intros [-> | ->]; [done|]. intros _. by right. Qed.

Lemma check_items_returns fuel elem b i n :
  (forall b t, fixed_type t -> type_fuel t fuel -> (size t <= List.length b)%nat -> returns (checkType fuel ms b t)) ->
  fixed_type elem -> 0 <= Size ms elem -> type_fuel elem fuel ->
  ((i + n) * size elem <= List.length b)%nat ->
  returns (check_items (checkType fuel ms) (Size ms elem) elem b i n).
Proof using.
  intros Hc Ht Hs Hf. revert i. induction n as [|n IH]; intros i Hl; cbn [check_items]; [by left|].
  assert (Hoff : Z.to_nat (Z.of_nat i * Size ms elem) = (i * size elem)%nat) by (unfold size; lia).
  rewrite from_spec, Hoff by nia. apply (returns_bind _ (fun _ => _)); [|apply IH; nia].
  apply Hc; [done..|]. rewrite length_drop. nia.
Qed.

Lemma check_fields_returns fuel i m b :
  (forall b t, fixed_type t -> type_fuel t fuel -> (size t <= List.length b)%nat -> returns (checkType fuel ms b t)) ->
  ms !! i = Some m -> message_fuel i fuel -> (Z.to_nat (FixedSize m) <= List.length b)%nat ->
  returns (check_fields (checkType fuel ms) b (FixedFields m)).
Proof using Hck.
  intros Hc Hm Hf Hl.
  assert (Hfs : forall f, f ∈ FixedFields m -> f ∈ FixedFields m) by done.
  revert Hfs. generalize (FixedFields m) at 1 3 as fs. induction fs as [|f fs IH]; intros Hfs; cbn [check_fields]; [by left|].
  destruct (field_facts i m f Hm) as (Ht & H0 & Hle & Hs & Hfu); [apply Hfs; by left|].
  pose proof (fixed_size_nonneg i m Hm). rewrite from_spec by lia.
  apply (returns_bind _ (fun _ => _)); [|apply IH; intros; apply Hfs; by right].
  apply Hc; [done|by apply Hfu|]. rewrite length_drop. unfold size. lia.
Qed.

Lemma checkType_returns fuel b t :
  fixed_type t -> type_fuel t fuel -> (size t <= List.length b)%nat -> returns (checkType fuel ms b t).
Proof using Hck.
  revert b t. induction fuel as [|fuel IH]; intros b t Ht Hf Hl.
  { by destruct t as [|? [| |? []]|? []]; cbn in Hf; try lia; destruct Hf as (? & ? & ?). }
  destruct t as [k q|len elem q|name msg q]; cbn [checkType].
  - destruct k; try by left. destruct b as [|x b]; [unfold size in Hl; cbn in Hl; lia|].
    destruct (1 <? byte.unsigned x); [by right|by left].
  - destruct (elem_facts len elem q Ht) as (Hlen & He & Hs & Hef).
    apply check_items_returns; [done|done|done|auto|].
    unfold size in *. cbn [Size] in Hl. fold ms in Hl. nia.
  - destruct Ht as [(i & m & -> & Hm & _) _]. cbn [mbind option_bind]. fold ms. rewrite Hm.
    destruct Hf as (fuel' & [= <-] & Hf). eapply check_fields_returns; [done..|].
    unfold size in Hl. cbn in Hl. fold ms in Hl. by rewrite Hm in Hl.
Qed.

Lemma check_fields_ok fuel i m b :
  ms !! i = Some m -> (Z.to_nat (FixedSize m) <= List.length b)%nat ->
  (forall f, f ∈ FixedFields m -> checkType fuel ms (drop (Z.to_nat (f_offset f)) b) (f_type f) = Ok tt) ->
  check_fields (checkType fuel ms) b (FixedFields m) = Ok tt.
Proof using Hck.
  intros Hm Hl Hc.
  assert (Hgo : forall fs, (forall f, f ∈ fs -> f ∈ FixedFields m) ->
    check_fields (checkType fuel ms) b fs = Ok tt); [|by apply Hgo].
  induction fs as [|f fs IHf]; intros Hfs; cbn [check_fields]; [done|].
  assert (Hff : f ∈ FixedFields m) by (apply Hfs; by left).
  destruct (field_facts i m f Hm Hff) as (_ & H0 & Hle & Hs & _).
  rewrite from_spec, Hc by (done || lia). apply IHf. intros; apply Hfs; by right.
Qed.

(** A represented value is accepted. *)
Lemma represents_checked b t v :
  represents ms b t v -> forall fuel, fixed_type t -> type_fuel t fuel -> (size t <= List.length b)%nat ->
  checkType fuel ms b t = Ok tt.
Proof using Hck.
  induction 1 as [b p x Hx|b k p v bits Hk Hb Ht|b len elem p arr Hl _ IH|b name i p m obj Hm _ IH];
    intros [|fuel] Hty Hf Hlen; try (cbn in Hf; lia).
  - cbn. destruct b as [|y b]; [done|]. cbn in Hx. injection Hx as ->. by destruct x.
  - cbn. by destruct k.
  - by destruct elem as [| |? []]; cbn in Hf; try lia; destruct Hf as (? & ? & ?).
  - cbn [checkType]. destruct (elem_facts len elem p Hty) as (H1 & He & Hs & Hef). apply Hef in Hf.
    assert (Hbuf : (List.length arr * size elem <= List.length b)%nat).
    { unfold size in *. cbn [Size] in Hlen. fold ms in Hlen. nia. }
    rewrite <-Hl, Nat2Z.id.
    assert (Hgo : forall n i, (i + n = List.length arr)%nat ->
      check_items (checkType fuel ms) (Size ms elem) elem b i n = Ok tt); [|by apply Hgo].
    induction n as [|n IHn]; intros i Hi; cbn [check_items]; [done|].
    assert (Hoff : Z.to_nat (Z.of_nat i * Size ms elem) = (i * size elem)%nat) by (unfold size; lia).
    destruct (lookup_lt_is_Some_2 arr i) as [e Hie]; [lia|].
    rewrite from_spec, Hoff by nia. rewrite (IH i e Hie); [|done..|rewrite length_drop; nia].
    apply IHn. lia.
  - destruct Hf as (? & ? & ?). done.
  - destruct Hf as (fuel' & [= <-] & Hf). cbn [checkType mbind option_bind]. rewrite Hm.
    assert (Hbuf : (Z.to_nat (FixedSize m) <= List.length b)%nat).
    { unfold size in Hlen. cbn in Hlen. fold ms in Hlen, Hm. by rewrite Hm in Hlen. }
    eapply check_fields_ok; [exact Hm|exact Hbuf|]. intros f Hff.
    destruct (field_facts i m f Hm Hff) as (Ht & H0 & Hle & Hs & Hfu).
    apply (IH f Hff); [done|by apply Hfu|rewrite length_drop; unfold size; lia].
Qed.

(** ** Variable fields *)

Lemma put_vars_app obj p fs b b' : put_vars obj p b fs = Ok b' -> exists tl, b' = b ++ tl.
Proof using.
  revert b. induction fs as [|f fs IH]; intros b; cbn [put_vars].
  - intros [= <-]. exists []. by rewrite app_nil_r.
  - destruct (varBytes f _ _) as [raw| | |]; cbn [bind]; try done. intros [tl ->]%IH.
    eexists. by rewrite <-app_assoc.
Qed.

Lemma put_vars_returns obj p fs b :
  match put_vars obj p b fs with Ok _ | Error _ => True | _ => False end.
Proof using.
  revert b. induction fs as [|f fs IH]; intros b; cbn [put_vars]; [done|].
  destruct (varBytes f _ _) as [raw| | |] eqn:Hv; cbn [bind]; try done; [apply IH|..];
    unfold varBytes in Hv; by repeat case_match.
Qed.

Lemma varBytes_valid f v p raw :
  varBytes f v p = Ok raw -> match f_type f with TBasic KString _ => Valid raw = true | _ => True end.
Proof using.
  unfold varBytes. destruct v; try done. destruct (f_type f) as [[]| |]; try done.
  destruct (Valid _) eqn:Hval; [|done]. by intros [= <-].
Qed.

Lemma put_vars_checked obj p fs b b' :
  put_vars obj p b fs = Ok b' -> Z.of_nat (List.length b') < 2 ^ 32 ->
  check_vars b' (Z.of_nat (List.length b)) fs = Ok (Z.of_nat (List.length b')).
Proof using.
  revert b. induction fs as [|f fs IH]; intros b; cbn [put_vars check_vars].
  { by intros [= <-]. }
  destruct (varBytes f _ _) as [raw| | |] eqn:Hv; cbn [bind]; try done. intros Hp Hlt.
  apply varBytes_valid in Hv. pose proof (IH _ Hp Hlt) as Hrest. destruct (put_vars_app _ _ _ _ _ Hp) as [tl Hb'].
  assert (Hlen : List.length b' = (List.length b + 4 + List.length raw + List.length tl)%nat).
  { rewrite Hb', !length_app, length_le_split. lia. }
  assert (Hd : drop (List.length b) b' = le_split 4 (Z.of_nat (List.length raw)) ++ raw ++ tl).
  { by rewrite Hb', <-!app_assoc, drop_app_length. }
  assert (Hd4 : drop (List.length b + 4) b' = raw ++ tl).
  { rewrite <-drop_drop, Hd. apply drop_app_length'. by rewrite length_le_split. }
  assert (Hn : le_combine (take 4 (drop (Z.to_nat (Z.of_nat (List.length b))) b')) = Z.of_nat (List.length raw)).
  { rewrite Nat2Z.id, Hd, take_app_length' by (by rewrite length_le_split).
    rewrite le_combine_split. apply Z.mod_small. change (8 * Z.of_nat 4) with 32. lia. }
  rewrite Hn, (proj2 (Z.ltb_ge _ _)), (proj2 (Z.ltb_ge _ _)) by lia.
  replace (Z.to_nat (Z.of_nat (List.length b) + 4)) with (List.length b + 4)%nat by lia.
  rewrite Hd4, Nat2Z.id, take_app_length.
  assert (Hnext : check_vars b' (Z.of_nat (List.length b) + 4 + Z.of_nat (List.length raw)) fs =
    Ok (Z.of_nat (List.length b'))).
  { rewrite <-Hrest. f_equal. rewrite !length_app, length_le_split. lia. }
  destruct (f_type f) as [[]| |]; by rewrite ?Hv.
Qed.

(** ** Messages *)

Lemma Encode_spec i m v :
  ms !! i = Some m ->
  match Encode ms m v with
  | Ok b => exists obj fixed, v = VObject obj /\ List.length fixed = Z.to_nat (FixedSize m) /\
      (forall f, f ∈ FixedFields m ->
         represents ms (drop (Z.to_nat (f_offset f)) fixed) (f_type f) (get obj (f_name f))) /\
      put_vars obj [PField (m_name m)] fixed (VarFields m) = Ok b
  | Error _ => True
  | _ => False
  end.
Proof using Hck.
  intros Hm. destruct v as [| | | | |obj]; try done. cbn [Encode]. unfold putFixed.
  set (b0 := replicate (Z.to_nat (FixedSize m)) Byte.x00). set (p := [PField (m_name m)]).
  assert (Hw : writes b0 0 (Z.to_nat (FixedSize m))
    (fun b' => forall f, f ∈ FixedFields m ->
       represents ms (drop (Z.to_nat (f_offset f)) b') (f_type f) (get obj (f_name f)))
    (put_message (put (fuel_for ms) ms) m obj p b0)).
  { eapply put_message_ok; [intros; by apply put_ok|exact Hm| | |].
    - apply message_fuel_enough. by eapply lookup_lt_Some.
    - unfold b0. by rewrite length_replicate.
    - intros k Hk. apply lookup_replicate. split; [done|lia]. }
  destruct (put_message _ m obj p b0) as [fixed| | |]; cbn [bind writes] in *; try done.
  destruct Hw as [[Hl _] Hr]. pose proof (put_vars_returns obj p (VarFields m) fixed) as Hret.
  destruct (put_vars obj p fixed (VarFields m)) as [b| | |] eqn:Hv; try done.
  exists obj, fixed. split_and!; try done. rewrite Hl. apply length_replicate.
Qed.

(** The fields stay where they are when the variable part is appended. *)
Lemma represents_app i m obj fixed tl f :
  ms !! i = Some m -> List.length fixed = Z.to_nat (FixedSize m) -> f ∈ FixedFields m ->
  represents ms (drop (Z.to_nat (f_offset f)) fixed) (f_type f) (get obj (f_name f)) ->
  represents ms (drop (Z.to_nat (f_offset f)) (fixed ++ tl)) (f_type f) (get obj (f_name f)).
Proof using Hck.
  intros Hm Hl Hf Hr. destruct (field_facts i m f Hm Hf) as (Ht & H0 & Hle & Hs & _).
  eapply represents_local; [exact Hr|done|]. apply inside_drop. unfold inside, size. rewrite length_app.
  split_and!; [lia..|]. intros k Hk. apply lookup_app_l. lia.
Qed.

Lemma check_vars_returns b off fs :
  match check_vars b off fs with Ok _ | Error _ => True | _ => False end.
Proof using.
  revert off. induction fs as [|f fs IH]; intros off; cbn [check_vars]; [done|].
  destruct (_ <? 4); [done|]. destruct (_ <? _); [done|].
  destruct (f_type f) as [[]| |]; try apply IH. destruct (Valid _); [apply IH|done].
Qed.
End codec.

(** ** Theorems *)

Lemma put_vars_shape obj p fs b b' :
  put_vars obj p b fs = Ok b' ->
  exists raws, Forall2 (fun f raw => varBytes f (get obj (f_name f)) (p ++ [PField (f_name f)]) = Ok raw) fs raws /\
    b' = b ++ mjoin ((fun raw => le_split 4 (Z.of_nat (List.length raw)) ++ raw) <$> raws).
Proof.
  revert b. induction fs as [|f fs IH]; intros b; cbn [put_vars].
  - intros [= <-]. exists []. split; [constructor|]. by rewrite app_nil_r.
  - destruct (varBytes f _ _) as [raw| | |] eqn:Hv; cbn [bind]; try done. intros (raws & Hf & ->)%IH.
    exists (raw :: raws). split; [by constructor|]. cbn. by rewrite <-!app_assoc.
Qed.

(** What [Encode] returns is accepted. *)
Lemma Encode_accepted (s : Schema) (i : nat) (m : Message) (v : value) (b : list byte) :
  checked s -> s_messages s !! i = Some m -> Encode (s_messages s) m v = Ok b ->
  Z.of_nat (List.length b) < 2 ^ 32 -> Decode (s_messages s) m b = Ok tt.
Proof.
  intros Hck Hm He Hlt. pose proof (Encode_spec s Hck i m v Hm) as H. rewrite He in H.
  destruct H as (obj & fixed & -> & Hl & Hr & Hv). destruct (put_vars_app _ _ _ _ _ Hv) as [tl Hb].
  pose proof (fixed_size_nonneg s Hck i m Hm) as H0. unfold Decode.
  assert (Hlen : (Z.to_nat (FixedSize m) <= List.length b)%nat) by (rewrite Hb, length_app; lia).
  rewrite (proj2 (Z.ltb_ge _ _)) by lia. unfold checkFixed. rewrite (check_fields_ok s Hck _ i m b Hm Hlen).
  - cbn [bind]. replace (FixedSize m) with (Z.of_nat (List.length fixed)) by lia.
    rewrite (put_vars_checked _ _ _ _ _ Hv Hlt). cbn [bind]. by rewrite Z.eqb_refl.
  - intros f Hf. destruct (field_facts s Hck i m f Hm Hf) as (Ht & Hoff & Hle & Hs & Hfu).
    eapply (represents_checked s Hck); [|done| |].
    + rewrite Hb. apply (represents_app s Hck i m obj); [done..|by apply Hr].
    + apply Hfu, (message_fuel_enough s Hck). by eapply lookup_lt_Some.
    + rewrite length_drop. lia.
Qed.

(** C11: on a schema that [Check] accepted, what [Encode] returns is accepted by
    [Decode], as long as it is shorter than 4 GiB. *)
Theorem Encode_decodes (s : Schema) (i : nat) (m : Message) (v : value) (b : list byte) :
  checked s -> s_messages s !! i = Some m -> Encode (s_messages s) m v = Ok b ->
  Z.of_nat (List.length b) < 2 ^ 32 -> Decode (s_messages s) m b = Ok tt.
Proof. apply Encode_accepted. Qed.

(** on a schema that [Check] accepted, [Encode] writes an object: the bytes of each
    fixed field at its offset represent the value of that key, and the fixed section
    is followed by the strings and bytes in the order of their fields, each after its
    length. *)
Theorem Encode_represents (s : Schema) (i : nat) (m : Message) (v : value) (b : list byte) :
  checked s -> s_messages s !! i = Some m -> Encode (s_messages s) m v = Ok b ->
  exists obj raws, v = VObject obj /\
    (forall f, f ∈ FixedFields m ->
       represents (s_messages s) (drop (Z.to_nat (f_offset f)) b) (f_type f) (get obj (f_name f))) /\
    Forall2 (fun f raw => varBytes f (get obj (f_name f)) [PField (m_name m); PField (f_name f)] = Ok raw)
      (VarFields m) raws /\
    drop (Z.to_nat (FixedSize m)) b =
      mjoin ((fun raw => le_split 4 (Z.of_nat (List.length raw)) ++ raw) <$> raws).
Proof.
  intros Hck Hm He. pose proof (Encode_spec s Hck i m v Hm) as H. rewrite He in H.
  destruct H as (obj & fixed & -> & Hl & Hr & Hv). destruct (put_vars_shape _ _ _ _ _ Hv) as (raws & Hraws & ->).
  exists obj, raws. split_and!; [done| |done|].
  - intros f Hf. apply (represents_app s Hck i m obj); [done..|by apply Hr].
  - by rewrite drop_app_length'.
Qed.

(** on a schema that [Check] accepted, [Encode] returns bytes or an error for every
    value, and [Decode] accepts or rejects every byte string: neither reads or writes
    out of range, and the recursion ends. *)
Theorem codec_total (s : Schema) (i : nat) (m : Message) (v : value) (b : list byte) :
  checked s -> s_messages s !! i = Some m ->
  (Encode (s_messages s) m v <> Panic /\ Encode (s_messages s) m v <> NoFuel) /\
  (Decode (s_messages s) m b <> Panic /\ Decode (s_messages s) m b <> NoFuel).
Proof.
  intros Hck Hm. split.
  - pose proof (Encode_spec s Hck i m v Hm) as H. by destruct (Encode (s_messages s) m v).
  - unfold Decode. destruct (Z.ltb_spec (Z.of_nat (List.length b)) (FixedSize m)) as [|Hl]; [done|].
    assert (Hc : returns (checkFixed (fuel_for (s_messages s)) (s_messages s) b m)).
    { eapply (check_fields_returns s Hck); [intros; by apply checkType_returns|exact Hm| |lia].
      apply (message_fuel_enough s Hck). by eapply lookup_lt_Some. }
    destruct Hc as [-> | ->]; [|done]. cbn [bind].
    pose proof (check_vars_returns b (FixedSize m) (VarFields m)) as Hv.
    destruct (check_vars b (FixedSize m) (VarFields m)); try done. cbn [bind]. by case_match.
Qed.

(** A value of the message [Shape]. *)
Definition demo_point (x y : string) : value := VObject [("x", VNumber x); ("y", VString y)]%string.
Definition demo_value : value :=
  VObject [("tag", VNumber "7"); ("name", VString "ab"); ("closed", VBool true);
           ("points", VArray [demo_point "-1" "2"; demo_point "3" "18446744073709551615"])]%string.

Definition demo_bytes : list byte :=
  match Encode (s_messages demo_checked) (default (mkMessage "" 0 [] (mkPos 0 0) (mkPos 0 0) 0 0)%string
    (s_messages demo_checked !! 0%nat)) demo_value with
  | Ok b => b
  | _ => []
  end.

Lemma Encode_decodes_witness : exists m,
  s_messages demo_checked !! 0%nat = Some m /\ Encode (s_messages demo_checked) m demo_value = Ok demo_bytes /\
  Decode (s_messages demo_checked) m demo_bytes = Ok tt.
Proof.
  assert (Hck : checked demo_checked) by (apply (Check_checked demo_schema); [reflexivity|vm_compute; reflexivity]).
  destruct (s_messages demo_checked !! 0%nat) as [m|] eqn:Hm; [|vm_compute in Hm; discriminate].
  assert (He : Encode (s_messages demo_checked) m demo_value = Ok demo_bytes).
  { vm_compute in Hm. injection Hm as <-. vm_compute. reflexivity. }
  exists m. split; [reflexivity|]. split; [exact He|].
  apply (Encode_decodes demo_checked 0 m demo_value demo_bytes Hck Hm He). vm_compute. reflexivity.
Defined.

Lemma Encode_represents_witness : exists m,
  s_messages demo_checked !! 0%nat = Some m /\
  forall f, f ∈ FixedFields m ->
    exists v, represents (s_messages demo_checked) (drop (Z.to_nat (f_offset f)) demo_bytes) (f_type f) v.
Proof.
  assert (Hck : checked demo_checked) by (apply (Check_checked demo_schema); [reflexivity|vm_compute; reflexivity]).
  destruct (s_messages demo_checked !! 0%nat) as [m|] eqn:Hm; [|vm_compute in Hm; discriminate].
  assert (He : Encode (s_messages demo_checked) m demo_value = Ok demo_bytes).
  { vm_compute in Hm. injection Hm as <-. vm_compute. reflexivity. }
  exists m. split; [reflexivity|].
  destruct (Encode_represents demo_checked 0 m demo_value demo_bytes Hck Hm He) as (obj & raws & _ & H & _).
  intros f Hf. exists (get obj (f_name f)). exact (H f Hf).
Defined.

Lemma codec_total_witness : exists m,
  s_messages demo_checked !! 0%nat = Some m /\ Decode (s_messages demo_checked) m [Byte.x01] <> Panic.
Proof.
  assert (Hck : checked demo_checked) by (apply (Check_checked demo_schema); [reflexivity|vm_compute; reflexivity]).
  destruct (s_messages demo_checked !! 0%nat) as [m|] eqn:Hm; [|vm_compute in Hm; discriminate].
  exists m. split; [reflexivity|]. apply (codec_total demo_checked 0 m VNull [Byte.x01] Hck Hm).
Defined.

(** Each kind of malformed input is rejected with its error. *)
Lemma decode_errors : exists m,
  s_messages demo_checked !! 0%nat = Some m /\
  let decode := Decode (s_messages demo_checked) m in
  decode (take 47 demo_bytes) = Error ErrShort /\
  decode (<[40%nat := Byte.x02]> demo_bytes) = Error ErrBool /\
  decode (take 50 demo_bytes) = Error ErrLength /\
  decode (take 53 demo_bytes) = Error ErrLength /\
  decode (demo_bytes ++ [Byte.x00]) = Error ErrTrailing /\
  decode (<[52%nat := Byte.xff]> demo_bytes) = Error ErrUTF8.
Proof. eexists. split; [vm_compute; reflexivity|]. vm_compute. repeat split. Qed.
