(* ===== verification/Tools.v ===== *)
(** * The compiler's front and back ends

    [Load] ([src/ipcgen/internal/schema/schema.go]), the JSON description of a schema
    ([src/ipcgen/internal/gen/json.go]), the choice of a generator
    ([src/ipcgen/internal/gen/gen.go]) and the command line
    ([src/ipcgen/args.go], [src/ipcgen/root.go]). *)

From stdpp Require Import base numbers list list_numbers option strings gmap.
From coqutil Require Import Byte Word.LittleEndianList.
From Stdlib Require Import ZArith Lia Bool String Ascii.
From S2P Require Import Prelude GoStd Schema Parse Check CheckThm Layout ParseThm.

#[local] Open Scope Z_scope.
#[local] Set Warnings "-register-all".

(** ** Load *)

Inductive load_result : Type :=
| ReadFailed
| ParseFailed (e : parse_error)
| CheckFailed (errs : list check_error)
| Loaded (s : Schema).

(** [src] is what [os.ReadFile] returned. [None] when a phase ran out of fuel. *)
Definition Load (path : string) (src : option (list byte)) : option load_result :=
  match src with
  | None => Some ReadFailed
  | Some src =>
      match Parse path src with
      | None => None
      | Some (inl e) => Some (ParseFailed e)
      | Some (inr s) =>
          match Check_ s with
          | None => None
          | Some (inl errs) => Some (CheckFailed errs)
          | Some (inr s) => Some (Loaded s)
          end
      end
  end.

(** ** The JSON description *)

Inductive jsonType : Type :=
  mkJsonType (kind : string) (len : Z) (elem : option jsonType) (message : string).

Record jsonField : Type := mkJsonField {
  jf_name : string; jf_type : jsonType; jf_offset : option Z; jf_size : option Z }.

Record jsonMessage : Type := mkJsonMessage {
  jm_name : string; jm_snake : string; jm_id : Z; jm_fixed_size : Z; jm_align : Z; jm_fields : list jsonField }.

Record jsonSchema : Type := mkJsonSchema {
  js_comment : string; js_package : string; js_messages : list jsonMessage }.

Definition Header : string := "Code generated by ipcgen. DO NOT EDIT.".

Fixpoint toJSONType (t : Typ) : jsonType :=
  match t with
  | TArray len elem _ => mkJsonType "array" len (Some (toJSONType elem)) ""
  | TRef name _ _ => mkJsonType "message" 0 None name
  | TBasic k _ => mkJsonType (Kind_String k) 0 None ""
  end.

Definition toJSONField (ms : list Message) (f : Field) : jsonField :=
  if field_IsVar f then mkJsonField (f_name f) (toJSONType (f_type f)) None None
  else mkJsonField (f_name f) (toJSONType (f_type f)) (Some (f_offset f)) (Some (Size ms (f_type f))).

(** The value [genJSON] marshals. *)
Definition genJSON (s : Schema) : jsonSchema :=
  mkJsonSchema Header (s_package s)
    ((fun m => mkJsonMessage (m_name m) (Snake (m_name m)) (m_id m) (FixedSize m) (MAlign m)
                 (toJSONField (s_messages s) <$> m_fields m)) <$> s_messages s).

(** Reading a description back. *)
Fixpoint fromJSONType (j : jsonType) : option Typ :=
  let pos := mkPos 0 0 in
  match j with
  | mkJsonType kind len elem message =>
      if String.eqb kind "array" then
        match elem with
        | Some e => match fromJSONType e with Some t => Some (TArray len t pos) | None => None end
        | None => None
        end
      else if String.eqb kind "message" then Some (TRef message None pos)
      else
        match named_type kind pos with
        | TBasic k _ => Some (TBasic k pos)
        | _ => None
        end
  end.

(** A type without its positions and resolved messages. *)
Fixpoint spelled (t : Typ) : Typ :=
  let pos := mkPos 0 0 in
  match t with
  | TBasic k _ => TBasic k pos
  | TArray len elem _ => TArray len (spelled elem) pos
  | TRef name _ _ => TRef name None pos
  end.

(** ** Generate *)

Section generate.
(** The generators, as [Generate] calls them. *)
Context {Code : Type} (genGo genC genCpp genPy genJSON_ : Schema -> option Code).

Definition generators : list (string * (Schema -> option Code)) :=
  [("go", genGo); ("c", genC); ("cpp", genCpp); ("py", genPy); ("json", genJSON_)]%string.

(** [None] is an unknown language or a generator that failed. *)
Definition Generate (lang : string) (s : Schema) : option Code :=
  match List.find (fun g => String.eqb (fst g) lang) generators with
  | Some g => snd g s
  | None => None
  end.

(** The names in sorted order. *)
Fixpoint insert_string (x : string) (l : list string) : list string :=
  match l with
  | [] => [x]
  | y :: rest => if String.leb x y then x :: l else y :: insert_string x rest
  end.
Definition Languages : list string := foldr insert_string [] (fst <$> generators).
End generate.

(** ** The command line *)

Section args.
(** [longFlags.Contains], a set of another package. *)
Context (Contains : string -> bool).

(** [strings.Cut(s, "=")]: what comes before. *)
Fixpoint before_equals (s : string) : string :=
  match s with
  | EmptyString => EmptyString
  | String c s => if Ascii.eqb c "=" then EmptyString else String c (before_equals s)
  end.

Definition normalizeArg (a : string) : string :=
  match a with
  | String d rest =>
      if HasPrefix a "-" && negb (HasPrefix a "--") && Contains (before_equals rest) then String "-" a else a
  | EmptyString => a
  end.

Fixpoint normalizeArgs (args : list string) : list string :=
  match args with
  | [] => []
  | a :: rest => if String.eqb a "--" then args else normalizeArg a :: normalizeArgs rest
  end.
End args.

(** ** The command *)

Inductive run_error : Type := RunUsage | RunLoad (r : load_result) | RunGenerate | RunWrite.

(** The files, by path. *)
Definition disk : Type := string -> option (list byte).

Definition put_file (path : string) (content : list byte) (d : disk) : disk :=
  fun p => if String.eqb p path then Some content else d p.

(** How [os.WriteFile] ends: it writes everything, fails before it opens the file, or fails
    after a number of bytes. *)
Inductive write_end : Type := WroteAll | NotOpened | WroteSome (n : nat).

Definition WriteFile (path : string) (content : list byte) (w : write_end) (d : disk) : bool * disk :=
  match w with
  | WroteAll => (true, put_file path content d)
  | NotOpened => (false, d)
  | WroteSome n => (false, put_file path (take n content) d)
  end.

Section run.
Context (genGo genC genCpp genPy genJSON_ : Schema -> option (list byte)).
(** The command-line package: the flags lang and out and the one argument, or an error. *)
Context (Contains : string -> bool) (flags : list string -> option (string * string * string)).

(** [rootCmd.RunE]. [None] when a phase of [Load] ran out of fuel. *)
Definition RunE (lang out path : string) (w : write_end) (d : disk) : option (option run_error * disk) :=
  match Load path (d path) with
  | None => None
  | Some (Loaded s) =>
      match Generate genGo genC genCpp genPy genJSON_ lang s with
      | None => Some (Some RunGenerate, d)
      | Some src => let (ok, d) := WriteFile out src w d in Some (if ok then None else Some RunWrite, d)
      end
  | Some r => Some (Some (RunLoad r), d)
  end.

Definition run (args : list string) (w : write_end) (d : disk) : option (option run_error * disk) :=
  match flags (normalizeArgs Contains args) with
  | None => Some (Some RunUsage, d)
  | Some (lang, out, path) => RunE lang out path w d
  end.

(** The exit code of [main]. *)
Definition exit_code (err : option run_error) : Z := match err with None => 0 | Some _ => 1 end.
End run.

(** ** Theorems *)

Lemma named_type_String k pos : named_type (Kind_String k) pos = TBasic k pos.
Proof. by destruct k. Qed.

Lemma toJSONType_back t : fromJSONType (toJSONType t) = Some (spelled t).
Proof.
  induction t as [k p|len elem IH p|name msg p]; cbn [toJSONType fromJSONType].
  - assert (Hn : String.eqb (Kind_String k) "array" = false /\ String.eqb (Kind_String k) "message" = false)
      by (by destruct k).
    destruct Hn as [-> ->]. by rewrite named_type_String.
  - cbn. by rewrite IH.
  - done.
Qed.

(** the JSON description of a schema loses nothing that the layout depends on: the
    type of every field can be read back from it, with the name of the message for a
    reference; the offset and the size are there for the fixed fields exactly. *)
Theorem genJSON_roundtrip (s : Schema) (i j : nat) (m : Message) (f : Field) :
  s_messages s !! i = Some m -> m_fields m !! j = Some f ->
  exists jm jf, js_messages (genJSON s) !! i = Some jm /\ jm_fields jm !! j = Some jf /\
    jm_name jm = m_name m /\ jm_id jm = m_id m /\ jm_fixed_size jm = FixedSize m /\ jf_name jf = f_name f /\
    fromJSONType (jf_type jf) = Some (spelled (f_type f)) /\
    (jf_offset jf, jf_size jf) =
      if field_IsVar f then (None, None) else (Some (f_offset f), Some (Size (s_messages s) (f_type f))).
Proof.
  intros Hm Hf. eexists _, (toJSONField (s_messages s) f). split.
  { cbn. by rewrite list_lookup_fmap, Hm. }
  cbn. rewrite list_lookup_fmap, Hf. unfold toJSONField.
  destruct (field_IsVar f) eqn:Hv; cbn; rewrite toJSONType_back; split_and!; (reflexivity || by rewrite Hv).
Qed.

Lemma genJSON_roundtrip_witness :
  exists jm jf, js_messages (genJSON demo_checked) !! 0%nat = Some jm /\ jm_fields jm !! 2%nat = Some jf /\
    fromJSONType (jf_type jf) = Some (TArray 2 (TRef "Point" None (mkPos 0 0)) (mkPos 0 0)).
Proof.
  destruct (s_messages demo_checked !! 0%nat) as [m|] eqn:Hm; [|vm_compute in Hm; discriminate].
  destruct (m_fields m !! 2%nat) as [f|] eqn:Hf; [|vm_compute in Hm; injection Hm as <-; vm_compute in Hf; discriminate].
  destruct (genJSON_roundtrip demo_checked 0 2 m f Hm Hf) as (jm & jf & H1 & H2 & _ & _ & _ & _ & H3 & _).
  exists jm, jf. split; [exact H1|]. split; [exact H2|]. rewrite H3.
  vm_compute in Hm. injection Hm as <-. vm_compute in Hf. injection Hf as <-. reflexivity.
Defined.

(** [Load] always returns, and a schema it returns is checked. *)
Theorem Load_checked (path : string) (src : option (list byte)) :
  exists r, Load path src = Some r /\ match r with Loaded s => checked s | _ => True end.
Proof.
  unfold Load. destruct src as [src|]; [|by eexists]. destruct (Parse_returns path src) as (r & -> & Hr).
  destruct r as [e|s]; [by eexists|]. destruct Hr as [Hs _].
  destruct (Check_cases s Hs) as [(errs & _ & ->)|(s' & -> & Hck & _)]; by eexists.
Qed.

Lemma normalizeArg_id c a : normalizeArg c (normalizeArg c a) = normalizeArg c a.
Proof.
  destruct a as [|d rest]; [done|]. cbn [normalizeArg].
  destruct (HasPrefix (String d rest) "-" && negb (HasPrefix (String d rest) "--") && c (before_equals rest)) eqn:E.
  - cbn [normalizeArg]. apply andb_true_iff in E as [[E _]%andb_true_iff _].
    assert (Hd : HasPrefix (String "-" (String d rest)) "--" = true).
    { cbn in E |- *. by destruct (Ascii.eqb "-" d). }
    by rewrite Hd, andb_false_r.
  - cbn [normalizeArg]. by rewrite E.
Qed.

(** [normalizeArgs] keeps the number of arguments and changes nothing the second
    time; from the argument [--] on it changes nothing at all. *)
Theorem normalizeArgs_idempotent (Contains : string -> bool) (args after : list string) :
  List.length (normalizeArgs Contains args) = List.length args /\
  normalizeArgs Contains (normalizeArgs Contains args) = normalizeArgs Contains args /\
  exists before, normalizeArgs Contains (args ++ "--"%string :: after) = before ++ "--"%string :: after.
Proof.
  split_and!.
  - induction args as [|a args IH]; [done|]. cbn [normalizeArgs]. destruct (String.eqb a "--"); [done|].
    cbn [List.length]. by rewrite IH.
  - induction args as [|a args IH]; [done|]. cbn [normalizeArgs]. destruct (String.eqb a "--") eqn:E.
    + cbn [normalizeArgs]. by rewrite E.
    + cbn [normalizeArgs]. rewrite normalizeArg_id, IH. by destruct (String.eqb (normalizeArg Contains a) "--").
  - induction args as [|a args [before IH]]; cbn [app normalizeArgs]; [by exists []|].
    destruct (String.eqb a "--"); [by exists (a :: args)|]. exists (normalizeArg Contains a :: before). by rewrite IH.
Qed.

(** [ipcgen] always ends. Exit code 0 means that the output file is the text that the
    generator of the language made from a checked schema, and every other file is as it
    was; an error before the write leaves all files as they were, and one of the write
    at most changes the output file. *)
Theorem run_outcome genGo genC genCpp genPy genJSON_ Contains flags (args : list string) (w : write_end) (d : disk) :
  exists err d', run genGo genC genCpp genPy genJSON_ Contains flags args w d = Some (err, d') /\
    (err <> None -> err <> Some RunWrite -> d' = d) /\
    (forall lang out path, flags (normalizeArgs Contains args) = Some (lang, out, path) -> forall p, p <> out -> d' p = d p) /\
    (exit_code err = 0 -> exists lang out path s src, flags (normalizeArgs Contains args) = Some (lang, out, path) /\
      Load path (d path) = Some (Loaded s) /\ checked s /\
      Generate genGo genC genCpp genPy genJSON_ lang s = Some src /\ d' out = Some src).
Proof.
  unfold run. destruct (flags _) as [[[lang out] path]|] eqn:Hf; [|eexists _, d; split_and!; done].
  unfold RunE. destruct (Load_checked path (d path)) as (r & Hr & Hs). rewrite Hr.
  destruct r as [|e|errs|s]; try (eexists _, d; split_and!; done).
  destruct (Generate _ _ _ _ _ _ s) as [src|] eqn:Hg; [|eexists _, d; split_and!; done].
  assert (Ho : forall c p, p <> out -> put_file out c d p = d p) by (intros c p Hp; unfold put_file; by rewrite (proj2 (String.eqb_neq p out) Hp)).
  destruct w as [| |n]; cbn [WriteFile].
  - eexists _, _. split; [done|]. split_and!; [done|by intros ??? [= <- <- <-]; apply Ho|]. intros _. exists lang, out, path, s, src.
    split_and!; try done. unfold put_file. by rewrite String.eqb_refl.
  - eexists _, d. split_and!; done.
  - eexists _, _. split; [done|]. split_and!; [done|by intros ??? [= <- <- <-]; apply Ho|done].
Qed.
