(* ===== verification/GoGen.v ===== *)
(** * The Go generator ([src/ipcgen/internal/gen/golang.go])

    The generator as a function from a checked schema to lines of Go, and what the Go
    it writes does. The statements that store and load fields depend on the schema:
    they are a syntax tree, which is printed into the text and has a meaning. The rest
    of the text is the same for every message, and its functions are translated. *)

From stdpp Require Import base numbers list list_numbers option strings gmap pretty.
From coqutil Require Import Byte Word.LittleEndianList.
From Stdlib Require Import ZArith Lia Bool String Ascii.
From S2P Require Import Prelude GoStd Schema RefCodec Tools.

#[local] Open Scope Z_scope.
#[local] Set Warnings "-register-all".
#[local] Open Scope codec_scope.

(** ** The statements of [access] *)

(** The expression of a value: [m.Name], or an element [[i]] of it. *)
Inductive place : Type := PName (name : string) | PElem (p : place).

(** An offset into [b]: a number, or [off+size*i]. *)
Inductive offset : Type := OAt (n : Z) | OPlus (off : offset) (size : Z).

Inductive stmt : Type :=
| SFor (val : place) (body : stmt)
| SPutRef (val : place) (off : offset)
| SGetRef (val : place) (off : offset)
| SPutBool (val : place) (off : offset)
| SGetBool (val : place) (off : offset)
| SPutByte (k : Kind) (val : place) (off : offset)
| SGetByte (k : Kind) (val : place) (off : offset)
| SPut (k : Kind) (val : place) (off : offset)
| SGet (k : Kind) (val : place) (off : offset).

Fixpoint access (ms : list Message) (t : Typ) (val : place) (off : offset) (put : bool) : stmt :=
  match t with
  | TArray _ elem _ => SFor val (access ms elem (PElem val) (OPlus off (Size ms elem)) put)
  | TRef _ _ _ => if put then SPutRef val off else SGetRef val off
  | TBasic KBool _ => if put then SPutBool val off else SGetBool val off
  | TBasic k _ =>
      if ScalarSize k =? 1 then if put then SPutByte k val off else SGetByte k val off
      else if put then SPut k val off else SGet k val off
  end.

(** The identifiers of a language for the field of a name and for the type of a message. *)
Class Naming : Type := { field_id : string -> string; type_id : string -> string }.

(** Those of Go. *)
Definition go_naming : Naming := {| field_id := Camel; type_id := fun name => name |}.

(** The bodies of [ipcgenPut] and [ipcgenGet]. *)
Definition body {N : Naming} (ms : list Message) (m : Message) (put : bool) : list stmt :=
  (fun f => access ms (f_type f) (PName (field_id (f_name f))) (OAt (f_offset f)) put) <$> FixedFields m.

(** ** The text *)

Definition tab : string := String (ascii_of_nat 9) "".
Definition dq : string := String (ascii_of_nat 34) "".

(** [%q] of printable ASCII with no quote and no backslash, which is what a checked
    package name and the texts below are. *)
Definition quoted (s : string) : string := dq +:+ s +:+ dq.

Record goGen : Type := mkGoGen {
  g_w : list string; g_pkg : string; useBinary : bool; useMath : bool; useUTF8 : bool }.

Definition line (s : string) (g : goGen) : goGen :=
  mkGoGen (g_w g ++ [s]) (g_pkg g) (useBinary g) (useMath g) (useUTF8 g).
Definition lines (l : list string) (g : goGen) : goGen := foldl (fun g s => line s g) g l.
Definition set_binary (g : goGen) : goGen := mkGoGen (g_w g) (g_pkg g) true (useMath g) (useUTF8 g).
Definition set_math (g : goGen) : goGen := mkGoGen (g_w g) (g_pkg g) (useBinary g) true (useUTF8 g).
Definition set_utf8 (g : goGen) : goGen := mkGoGen (g_w g) (g_pkg g) (useBinary g) (useMath g) true.

(** [name[1:]]. *)
Definition tail_string (s : string) : string := match s with String _ s => s | EmptyString => EmptyString end.

Fixpoint goType (t : Typ) : string :=
  match t with
  | TArray len elem _ => "[" +:+ pretty len +:+ "]" +:+ goType elem
  | TRef name _ _ => name
  | TBasic KString _ => "string"
  | TBasic KBytes _ => "[]byte"
  | TBasic KBool _ => "bool"
  | TBasic F32 _ => "float32"
  | TBasic F64 _ => "float64"
  | TBasic k _ => (if IsSigned k then "int" else "uint") +:+ tail_string (Kind_String k)
  end%string.

(** The number of bits, as it ends both names of [goBits]. *)
Definition goBits (k : Kind) : string * string :=
  let n := pretty (ScalarSize k * 8) in ("uint" +:+ n, "Uint" +:+ n)%string.

Fixpoint place_text (p : place) : string :=
  match p with PName n => "m." +:+ n | PElem p => place_text p +:+ "[i]" end%string.

Fixpoint offset_text (o : offset) : string :=
  match o with OAt n => pretty n | OPlus o size => offset_text o +:+ "+" +:+ pretty size +:+ "*i" end%string.

(** What [access] writes. *)
Fixpoint print_stmt (st : stmt) (g : goGen) : goGen :=
  let pos := mkPos 0 0 in
  match st with
  | SFor val body =>
      line (tab +:+ "}") (print_stmt body (line (tab +:+ "for i := range " +:+ place_text val +:+ " {") g))
  | SPutRef val off => line (tab +:+ place_text val +:+ ".ipcgenPut(b[" +:+ offset_text off +:+ ":])") g
  | SGetRef val off =>
      lines [tab +:+ "if err := " +:+ place_text val +:+ ".ipcgenGet(b[" +:+ offset_text off +:+ ":]); err != nil {";
             tab +:+ tab +:+ "return err"; tab +:+ "}"] g
  | SPutBool val off =>
      lines [tab +:+ "if " +:+ place_text val +:+ " {"; tab +:+ tab +:+ "b[" +:+ offset_text off +:+ "] = 1";
             tab +:+ "}"] g
  | SGetBool val off =>
      lines [tab +:+ "if b[" +:+ offset_text off +:+ "] > 1 {"; tab +:+ tab +:+ "return errIpcgenBool"; tab +:+ "}";
             tab +:+ place_text val +:+ " = b[" +:+ offset_text off +:+ "] == 1"] g
  | SPutByte k val off => line (tab +:+ "b[" +:+ offset_text off +:+ "] = byte(" +:+ place_text val +:+ ")") g
  | SGetByte k val off =>
      line (tab +:+ place_text val +:+ " = " +:+ goType (TBasic k pos) +:+ "(b[" +:+ offset_text off +:+ "])") g
  | SPut k val off =>
      let g := set_binary g in
      let '(bits, fn) := goBits k in
      let v := place_text val in
      let v := if IsSigned k then bits +:+ "(" +:+ v +:+ ")" else v in
      let v := if IsFloat k then "math.Float" +:+ pretty (ScalarSize k * 8) +:+ "bits(" +:+ place_text val +:+ ")" else v in
      let g := if IsFloat k then set_math g else g in
      line (tab +:+ "binary.LittleEndian.Put" +:+ fn +:+ "(b[" +:+ offset_text off +:+ ":], " +:+ v +:+ ")") g
  | SGet k val off =>
      let g := set_binary g in
      let '(bits, fn) := goBits k in
      let v := "binary.LittleEndian." +:+ fn +:+ "(b[" +:+ offset_text off +:+ ":])" in
      let v' := if IsFloat k then "math.Float" +:+ pretty (ScalarSize k * 8) +:+ "frombits(" +:+ v +:+ ")"
                else if IsSigned k then goType (TBasic k pos) +:+ "(" +:+ v +:+ ")" else v in
      let g := if IsFloat k then set_math g else g in
      line (tab +:+ place_text val +:+ " = " +:+ v') g
  end%string.

(** [strings.Join]. *)
Fixpoint Join (l : list string) (sep : string) : string :=
  match l with
  | [] => ""
  | [s] => s
  | s :: l => s +:+ sep +:+ Join l sep
  end%string.

Definition helpers (g : goGen) : goGen :=
  let p := g_pkg g in
  let err name text := tab +:+ name +:+ " = errors.New(" +:+ quoted (p +:+ text) +:+ ")" in
  set_binary (lines [
    "";
    "var (";
    err "errIpcgenShort   " ": input is shorter than the fixed section";
    err "errIpcgenLength  " ": a length runs past the end of the input";
    err "errIpcgenTrailing" ": bytes remain after the last field";
    err "errIpcgenBool    " ": a bool is neither 0 nor 1";
    err "errIpcgenUTF8    " ": a string is not valid UTF-8";
    err "errIpcgenTooLong " ": a string or bytes field is longer than 4 GiB";
    ")";
    "";
    "// ipcgenFits reports whether n fits in the u32 length prefix.";
    "func ipcgenFits(n int) bool { return uint64(n) <= 0xFFFFFFFF }";
    "";
    "// ipcgenPutVar writes a length prefix and v at off and returns the offset after them.";
    "func ipcgenPutVar[T string | []byte](b []byte, off int, v T) int {";
    tab +:+ "binary.LittleEndian.PutUint32(b[off:], uint32(len(v)))";
    tab +:+ "return off + 4 + copy(b[off+4:], v)";
    "}";
    "";
    "// ipcgenGetVar reads a length prefix and the bytes after it.";
    "func ipcgenGetVar(b []byte, off int) ([]byte, int, error) {";
    tab +:+ "if len(b)-off < 4 {";
    tab +:+ tab +:+ "return nil, 0, errIpcgenLength";
    tab +:+ "}";
    tab +:+ "n := binary.LittleEndian.Uint32(b[off:])";
    tab +:+ "off += 4";
    tab +:+ "if uint64(n) > uint64(len(b)-off) {";
    tab +:+ tab +:+ "return nil, 0, errIpcgenLength";
    tab +:+ "}";
    tab +:+ "return b[off : off+int(n)], off + int(n), nil";
    "}"] g)%string.

Definition registry (s : Schema) (g : goGen) : goGen :=
  let g := lines [
    "";
    "// Message is any message of package " +:+ g_pkg g +:+ ".";
    "type Message interface {";
    tab +:+ "TypeID() uint32";
    tab +:+ "Size() int";
    tab +:+ "MarshalTo(b []byte) int";
    tab +:+ "MarshalBinary() ([]byte, error)";
    tab +:+ "UnmarshalBinary(b []byte) error";
    "}";
    "";
    "// NewMessage returns an empty message with the type ID, or nil for a type ID no message has.";
    "func NewMessage(typeID uint32) Message {";
    tab +:+ "switch typeID {"] g in
  let g := foldl (fun g m => lines [tab +:+ "case " +:+ m_name m +:+ "Type:";
                                    tab +:+ tab +:+ "return &" +:+ m_name m +:+ "{}"] g) g (s_messages s) in
  lines [tab +:+ "}"; tab +:+ "return nil"; "}"]%string g.

Definition size (m : Message) (g : goGen) : goGen :=
  let terms := pretty (FixedSize m) :: mjoin ((fun f => ["4"; "len(m." +:+ Camel (f_name f) +:+ ")"]) <$> VarFields m) in
  lines ["";
         "// Size returns the encoded size of m.";
         "func (m *" +:+ m_name m +:+ ") Size() int {";
         tab +:+ "return " +:+ Join terms " + ";
         "}"]%string g.

Definition marshal (m : Message) (g : goGen) : goGen :=
  let fits := (fun f => "!ipcgenFits(len(m." +:+ Camel (f_name f) +:+ "))") <$> VarFields m in
  let tooLong ret g :=
    if (0 <? List.length fits)%nat
    then lines [tab +:+ "if " +:+ Join fits " || " +:+ " {"; tab +:+ tab +:+ "return " +:+ ret; tab +:+ "}"] g else g in
  let g := lines [
    "";
    "// MarshalTo encodes m into b and returns the bytes written.";
    "// It returns 0 when b is shorter than Size or a string or bytes field is longer than 4 GiB.";
    "func (m *" +:+ m_name m +:+ ") MarshalTo(b []byte) int {";
    tab +:+ "n, _ := m.ipcgenMarshal(b)";
    tab +:+ "return n";
    "}";
    "";
    "// MarshalBinary returns the encoding of m."] g in
  let g := tooLong "nil, errIpcgenTooLong" (line ("func (m *" +:+ m_name m +:+ ") MarshalBinary() ([]byte, error) {") g) in
  let g := lines [tab +:+ "b := make([]byte, m.Size())"; tab +:+ "m.ipcgenMarshal(b)"; tab +:+ "return b, nil"; "}"; ""] g in
  let g := tooLong "0, false" (line ("func (m *" +:+ m_name m +:+ ") ipcgenMarshal(b []byte) (int, bool) {") g) in
  let g := lines [tab +:+ "if len(b) < m.Size() {"; tab +:+ tab +:+ "return 0, false"; tab +:+ "}";
                  tab +:+ "clear(b[:" +:+ pretty (FixedSize m) +:+ "])"; tab +:+ "m.ipcgenPut(b)"] g in
  let g :=
    if Fixed m then line (tab +:+ "return " +:+ pretty (FixedSize m) +:+ ", true") g
    else
      let g := line (tab +:+ "off := " +:+ pretty (FixedSize m)) g in
      let g := foldl (fun g f => line (tab +:+ "off = ipcgenPutVar(b, off, m." +:+ Camel (f_name f) +:+ ")") g) g (VarFields m) in
      line (tab +:+ "return off, true") g in
  line "}" g%string.

Definition unmarshal (m : Message) (g : goGen) : goGen :=
  let g := lines [
    "";
    "// UnmarshalBinary decodes b into m. It leaves m unchanged when b is malformed.";
    "func (m *" +:+ m_name m +:+ ") UnmarshalBinary(b []byte) error {";
    tab +:+ "if len(b) < " +:+ pretty (FixedSize m) +:+ " {";
    tab +:+ tab +:+ "return errIpcgenShort";
    tab +:+ "}";
    tab +:+ "var v " +:+ m_name m;
    tab +:+ "if err := v.ipcgenGet(b); err != nil {";
    tab +:+ tab +:+ "return err";
    tab +:+ "}";
    tab +:+ "off := " +:+ pretty (FixedSize m)] g in
  let g := if negb (Fixed m) then lines [tab +:+ "var raw []byte"; tab +:+ "var err error"] g else g in
  let g := foldl (fun g f =>
    let name := Camel (f_name f) in
    let g := lines [tab +:+ "if raw, off, err = ipcgenGetVar(b, off); err != nil {"; tab +:+ tab +:+ "return err";
                    tab +:+ "}"] g in
    match f_type f with
    | TBasic KString _ =>
        lines [tab +:+ "if !utf8.Valid(raw) {"; tab +:+ tab +:+ "return errIpcgenUTF8"; tab +:+ "}";
               tab +:+ "v." +:+ name +:+ " = string(raw)"] (set_utf8 g)
    | _ => line (tab +:+ "v." +:+ name +:+ " = append([]byte{}, raw...)") g
    end) g (VarFields m) in
  lines [tab +:+ "if off != len(b) {"; tab +:+ tab +:+ "return errIpcgenTrailing"; tab +:+ "}"; tab +:+ "*m = v";
         tab +:+ "return nil"; "}"]%string g.

Definition message (ms : list Message) (g : goGen) (m : Message) : goGen :=
  let name := m_name m in
  let g := lines ["";
                  "// " +:+ name +:+ " is message " +:+ pretty (m_id m) +:+ " of package " +:+ g_pkg g +:+ ".";
                  "type " +:+ name +:+ " struct {"] g in
  let g := foldl (fun g f => line (tab +:+ Camel (f_name f) +:+ " " +:+ goType (f_type f)) g) g (m_fields m) in
  let g := lines [
    "}";
    "";
    "// " +:+ name +:+ "Type is the type ID of " +:+ name +:+ ".";
    "const " +:+ name +:+ "Type uint32 = " +:+ pretty (m_id m);
    "";
    "// TypeID returns " +:+ name +:+ "Type.";
    "func (m *" +:+ name +:+ ") TypeID() uint32 { return " +:+ name +:+ "Type }"] g in
  let g := unmarshal m (marshal m (size m g)) in
  let g := lines [""; "func (m *" +:+ name +:+ ") ipcgenPut(b []byte) {"] g in
  let g := foldl (fun g st => print_stmt st g) g (body (N := go_naming) ms m true) in
  let g := lines ["}"; ""; "func (m *" +:+ name +:+ ") ipcgenGet(b []byte) error {"] g in
  let g := foldl (fun g st => print_stmt st g) g (body (N := go_naming) ms m false) in
  lines [tab +:+ "return nil"; "}"]%string g.

(** [filepath.Base] of a path with slashes. *)
Fixpoint base_from (cur s : list ascii) : list ascii :=
  match s with
  | [] => cur
  | c :: s => if Ascii.eqb c "/" then base_from [] s else base_from (cur ++ [c]) s
  end.

(** The path without the slashes it ends in. *)
Fixpoint trim_slashes (r : list ascii) : list ascii :=
  match r with
  | [] => []
  | c :: rest => if Ascii.eqb c "/" then trim_slashes rest else r
  end.

Definition Base (path : string) : string :=
  match path with
  | EmptyString => "."
  | _ =>
      match rev (trim_slashes (rev (String.list_ascii_of_string path))) with
      | [] => "/"
      | l => String.string_of_list_ascii (base_from [] l)
      end
  end%string.

(** The source that [genGo] hands to [format.Source], line by line. *)
Definition genGo_lines (s : Schema) : list string :=
  let g := foldl (message (s_messages s)) (registry s (helpers (mkGoGen [] (s_package s) false false false))) (s_messages s) in
  mjoin [
    ["// " +:+ Header;
     "";
     "// Package " +:+ s_package s +:+ " holds the messages of schema " +:+ Base (s_file s) +:+ ".";
     "package " +:+ s_package s;
     "";
     "import ("];
    (if useBinary g then [tab +:+ quoted "encoding/binary"] else []);
    [tab +:+ quoted "errors"];
    (if useMath g then [tab +:+ quoted "math"] else []);
    (if useUTF8 g then [tab +:+ quoted "unicode/utf8"] else []);
    [")"];
    g_w g]%string.

Definition newline : string := String (ascii_of_nat 10) "".

(** [format_Source] is gofmt; [None] when it cannot parse its input. *)
Definition genGo (format_Source : string -> option string) (s : Schema) : option string :=
  format_Source (String.concat "" ((fun l => l +:+ newline) <$> genGo_lines s)).

(** ** What the generated code does *)

(** Go values. A number is its value, a float its bits, a string or a byte slice its
    bytes; a struct has the name of its type. [GRaw []] is the empty string, and it stands
    for a nil byte slice as well as for an empty one: the encoding does not tell them
    apart, and [UnmarshalBinary] makes an empty one. *)
Inductive gval : Type :=
| GBool (x : bool)
| GInt (n : Z)
| GFloat (bits : Z)
| GRaw (raw : list byte)
| GArr (l : list gval)
| GStruct (name : string) (fs : list (string * gval)).

Definition lookup_name (fs : list (string * gval)) (name : string) : option gval :=
  snd <$> List.find (fun kv => String.eqb (fst kv) name) fs.

Fixpoint assign_name (fs : list (string * gval)) (name : string) (x : gval) : list (string * gval) :=
  match fs with
  | [] => []
  | kv :: fs => if String.eqb (fst kv) name then (name, x) :: fs else kv :: assign_name fs name x
  end.

(** The value of an expression, where [m] is the receiver and [i] the loop variable.
    [None] is an expression that Go does not accept, or an index out of range. *)
Fixpoint load (m : gval) (i : nat) (p : place) : option gval :=
  match p with
  | PName n => match m with GStruct _ fs => lookup_name fs n | _ => None end
  | PElem p => match load m i p with Some (GArr l) => l !! i | _ => None end
  end.

Fixpoint store (m : gval) (i : nat) (p : place) (x : gval) : option gval :=
  match p with
  | PName n =>
      match m with
      | GStruct t fs => match lookup_name fs n with Some _ => Some (GStruct t (assign_name fs n x)) | None => None end
      | _ => None
      end
  | PElem p =>
      match load m i p with
      | Some (GArr l) => if (i <? List.length l)%nat then store m i p (GArr (<[i:=x]> l)) else None
      | _ => None
      end
  end.

Fixpoint offset_at (o : offset) (i : nat) : Z :=
  match o with OAt n => n | OPlus o size => offset_at o i + size * Z.of_nat i end.

(** What Go does not accept or what is out of range. *)
Definition or_panic {E A} (o : option A) : res E A := match o with Some a => Ok a | None => Panic end.

(** A loop of [n] rounds from [i] on. *)
Fixpoint for_range {E S} (f : nat -> S -> res E S) (i n : nat) (s : S) : res E S :=
  match n with
  | O => Ok s
  | S n => let! s := f i s in for_range f (i + 1) n s
  end.

Definition range_of (v : option gval) : option nat :=
  match v with Some (GArr l) => Some (List.length l) | _ => None end.

(** The bits of a number or a float: [uintN(x)] or [math.FloatNbits(x)]. *)
Definition bits_of (k : Kind) (v : gval) : option Z :=
  match v with
  | GInt n => if IsFloat k then None else Some (n mod 2 ^ (8 * ScalarSize k))
  | GFloat bits => if IsFloat k then Some bits else None
  | _ => None
  end.

(** The conversion back: [intN(bits)] wraps, [math.FloatNfrombits(bits)] keeps the bits. *)
Definition of_bits (k : Kind) (bits : Z) : gval :=
  if IsFloat k then GFloat bits
  else if IsSigned k then
    let w := 8 * ScalarSize k in GInt (if bits <? 2 ^ (w - 1) then bits else bits - 2 ^ w)
  else GInt bits.

Section exec_put.
(** The method of the value of a field. *)
Context {E : Type} (ipcgenPut : gval -> list byte -> res E (list byte)).

Fixpoint exec_put (m : gval) (st : stmt) (i : nat) (b : list byte) : res E (list byte) :=
  match st with
  | SFor val body =>
      let! n := or_panic (range_of (load m i val)) in
      for_range (fun i b => exec_put m body i b) 0 n b
  | SPutRef val off =>
      let! v := or_panic (load m i val) in sub b (offset_at off i) (ipcgenPut v)
  | SPutBool val off =>
      match load m i val with
      | Some (GBool x) => if x then sub b (offset_at off i) (fun b => write b [Byte.x01]) else Ok b
      | _ => Panic
      end
  | SPutByte k val off | SPut k val off =>
      let! bits := or_panic (load m i val ≫= bits_of k) in
      sub b (offset_at off i) (fun b => write b (le_split (Z.to_nat (ScalarSize k)) bits))
  | _ => Panic
  end.

Fixpoint exec_puts (m : gval) (l : list stmt) (b : list byte) : res E (list byte) :=
  match l with
  | [] => Ok b
  | st :: l => let! b := exec_put m st 0 b in exec_puts m l b
  end.
End exec_put.

Section exec_get.
Context (ipcgenGet : gval -> list byte -> dec gval) (b : list byte).

Fixpoint exec_get (st : stmt) (i : nat) (m : gval) : dec gval :=
  match st with
  | SFor val body =>
      let! n := or_panic (range_of (load m i val)) in
      for_range (fun i m => exec_get body i m) 0 n m
  | SGetRef val off =>
      let! v := or_panic (load m i val) in
      let! v := from b (offset_at off i) (ipcgenGet v) in
      or_panic (store m i val v)
  | SGetBool val off =>
      let! x := from b (offset_at off i) (fun b => or_panic (head b)) in
      if 1 <? byte.unsigned x then Error ErrBool
      else or_panic (store m i val (GBool (byte.unsigned x =? 1)))
  | SGetByte k val off | SGet k val off =>
      let n := Z.to_nat (ScalarSize k) in
      let! raw := from b (offset_at off i) (fun b => if (n <=? List.length b)%nat then Ok (take n b) else Panic) in
      or_panic (store m i val (of_bits k (le_combine raw)))
  | _ => Panic
  end.

Fixpoint exec_gets (l : list stmt) (m : gval) : dec gval :=
  match l with
  | [] => Ok m
  | st :: l => let! m := exec_get st 0 m in exec_gets l m
  end.
End exec_get.

Section naming.
Context {N : Naming}.

(** The message whose generated type has the name. *)
Definition type_named (ms : list Message) (name : string) : option Message :=
  List.find (fun m => String.eqb (type_id (m_name m)) name) ms.

(** The message that a value is a struct of. *)
Definition struct_of (ms : list Message) (v : gval) : option Message :=
  match v with GStruct name _ => type_named ms name | _ => None end.

(** A method is the one of the type of its receiver. [fuel] bounds the nesting of structs. *)
Fixpoint ipcgenPut {E} (fuel : nat) (ms : list Message) (v : gval) (b : list byte) : res E (list byte) :=
  match fuel with
  | O => NoFuel
  | S fuel =>
      let! m := or_panic (struct_of ms v) in
      exec_puts (ipcgenPut fuel ms) v (body ms m true) b
  end.

Fixpoint ipcgenGet (fuel : nat) (ms : list Message) (v : gval) (b : list byte) : dec gval :=
  match fuel with
  | O => NoFuel
  | S fuel =>
      let! m := or_panic (struct_of ms v) in
      exec_gets (ipcgenGet fuel ms) b (body ms m false) v
  end.

(** The zero value of a type. *)
Fixpoint zero_of (fuel : nat) (ms : list Message) (t : Typ) : option gval :=
  match fuel with
  | O => None
  | S fuel =>
      match t with
      | TBasic KBool _ => Some (GBool false)
      | TBasic KString _ | TBasic KBytes _ => Some (GRaw [])
      | TBasic k _ => Some (if IsFloat k then GFloat 0 else GInt 0)
      | TArray len elem _ => v ← zero_of fuel ms elem; Some (GArr (replicate (Z.to_nat len) v))
      | TRef name _ _ =>
          m ← type_named ms (type_id name);
          fs ← mapM (fun f => v ← zero_of fuel ms (f_type f); Some (field_id (f_name f), v)) (m_fields m);
          Some (GStruct (type_id name) fs)
      end
  end.

Definition new_struct (ms : list Message) (name : string) : option gval :=
  zero_of (S (fuel_for ms)) ms (TRef name None (mkPos 0 0)).

Definition NewMessage (ms : list Message) (typeID : Z) : option gval :=
  m ← List.find (fun m => m_id m =? typeID) ms; new_struct ms (m_name m).

Definition TypeID (ms : list Message) (v : gval) : option Z := m_id <$> struct_of ms v.

(** [len(m.Name)] of the variable fields, and their bytes. *)
Definition raw_of (v : gval) (name : string) : option (list byte) :=
  match v with
  | GStruct _ fs => match lookup_name fs name with Some (GRaw raw) => Some raw | _ => None end
  | _ => None
  end.

Definition raws (m : Message) (v : gval) : option (list (list byte)) :=
  mapM (fun f => raw_of v (field_id (f_name f))) (VarFields m).

Definition msg_Size (m : Message) (l : list (list byte)) : Z :=
  FixedSize m + foldr (fun raw n => 4 + Z.of_nat (List.length raw) + n) 0 l.

Definition ipcgenFits (n : Z) : bool := n <=? 0xFFFFFFFF.

(** The bytes and the offset after them; [copy] stops at the end of [b]. *)
Definition ipcgenPutVar {E} (b : list byte) (off : Z) (v : list byte) : res E (list byte * Z) :=
  let! b := sub b off (fun b => write b (le_split 4 (Z.of_nat (List.length v)))) in
  let at_ := Z.to_nat (off + 4) in
  let n := Nat.min (List.length v) (List.length b - at_) in
  Ok (take at_ b ++ take n v ++ drop (at_ + n) b, off + 4 + Z.of_nat n).

Fixpoint putVars {E} (b : list byte) (off : Z) (l : list (list byte)) : res E (list byte * Z) :=
  match l with
  | [] => Ok (b, off)
  | raw :: l => let! (b, off) := ipcgenPutVar b off raw in putVars b off l
  end.

(** The buffer after the call, the bytes written, and whether it was encoded. *)
Definition ipcgenMarshal {E} (ms : list Message) (v : gval) (b : list byte) : res E (list byte * Z * bool) :=
  let! m := or_panic (struct_of ms v) in
  let! l := or_panic (raws m v) in
  if negb (forallb (fun raw => ipcgenFits (Z.of_nat (List.length raw))) l) then Ok (b, 0, false)
  else if Z.of_nat (List.length b) <? msg_Size m l then Ok (b, 0, false)
  else
    let n := Z.to_nat (FixedSize m) in
    let b := replicate n Byte.x00 ++ drop n b in
    let! b := ipcgenPut (S (fuel_for ms)) ms v b in
    if Fixed m then Ok (b, FixedSize m, true)
    else let! (b, off) := putVars b (FixedSize m) l in Ok (b, off, true).

(** The buffer after the call and the bytes written. *)
Definition MarshalTo {E} (ms : list Message) (v : gval) (b : list byte) : res E (list byte * Z) :=
  let! (b, n, _) := ipcgenMarshal ms v b in Ok (b, n).

(** [Error tt] is [errIpcgenTooLong]. *)
Definition MarshalBinary (ms : list Message) (v : gval) : res unit (list byte) :=
  let! m := or_panic (struct_of ms v) in
  let! l := or_panic (raws m v) in
  if negb (forallb (fun raw => ipcgenFits (Z.of_nat (List.length raw))) l) then Error tt
  else
    let! (b, _, _) := ipcgenMarshal ms v (replicate (Z.to_nat (msg_Size m l)) Byte.x00) in Ok b.

Definition ipcgenGetVar (b : list byte) (off : Z) : dec (list byte * Z) :=
  let len := Z.of_nat (List.length b) in
  if len - off <? 4 then Error ErrLength
  else
    let! raw := from b off (fun b => if (4 <=? List.length b)%nat then Ok (take 4 b) else Panic) in
    let n := le_combine raw in
    let off := off + 4 in
    if len - off <? n then Error ErrLength
    else Ok (take (Z.to_nat n) (drop (Z.to_nat off) b), off + n).

(** The loop of [UnmarshalBinary] over the variable fields. *)
Fixpoint getVars (b : list byte) (off : Z) (fs : list Field) (v : gval) : dec (gval * Z) :=
  match fs with
  | [] => Ok (v, off)
  | f :: fs =>
      let! (raw, off) := ipcgenGetVar b off in
      let assign := or_panic (store v 0 (PName (field_id (f_name f))) (GRaw raw)) in
      match f_type f with
      | TBasic KString _ =>
          if negb (Valid raw) then Error ErrUTF8 else let! v := assign in getVars b off fs v
      | _ => let! v := assign in getVars b off fs v
      end
  end.

(** The new value of [*v]; on an error it is as before. *)
Definition UnmarshalBinary (ms : list Message) (v : gval) (b : list byte) : dec gval :=
  let! m := or_panic (struct_of ms v) in
  if Z.of_nat (List.length b) <? FixedSize m then Error ErrShort
  else
    let! v := or_panic (new_struct ms (m_name m)) in
    let! v := ipcgenGet (S (fuel_for ms)) ms v b in
    let! (v, off) := getVars b (FixedSize m) (VarFields m) v in
    if negb (off =? Z.of_nat (List.length b)) then Error ErrTrailing else Ok v.
End naming.
