(* ===== verification/GoGenThm.v ===== *)
(** * The generated Go on a checked schema

    What [MarshalBinary] writes is read back by [UnmarshalBinary], the generated
    decoder accepts and rejects what the reference decoder does, and the generated
    encoder writes what the reference encoder does. *)

From stdpp Require Import base numbers list list_numbers option strings gmap.
From coqutil Require Import Byte Word.LittleEndianList.
From Stdlib Require Import ZArith Lia Bool String Ascii.
From S2P Require Import Prelude GoStd Schema Check CheckThm Layout RefCodec RefCodecThm GoGen.

#[local] Open Scope Z_scope.
#[local] Set Warnings "-register-all".
#[local] Open Scope codec_scope.

(** ** Structs *)

Lemma lookup_name_cons kv fs n :
  lookup_name (kv :: fs) n = if String.eqb (fst kv) n then Some (snd kv) else lookup_name fs n.
Proof. unfold lookup_name. cbn. by destruct (String.eqb (fst kv) n). Qed.

Lemma lookup_name_is_Some fs n : is_Some (lookup_name fs n) <-> n ∈ fst <$> fs.
Proof.
  induction fs as [|kv fs IH]; [split; [by intros []|by intros ?%elem_of_nil]|].
  rewrite lookup_name_cons, fmap_cons, elem_of_cons. destruct (String.eqb_spec (fst kv) n) as [->|Hn].
  - split; eauto.
  - rewrite IH. naive_solver.
Qed.

Lemma assign_name_keys fs n x : fst <$> assign_name fs n x = fst <$> fs.
Proof.
  induction fs as [|kv fs IH]; [done|]. cbn. destruct (String.eqb_spec (fst kv) n) as [->|Hn]; [done|].
  cbn. by rewrite IH.
Qed.

Lemma lookup_assign fs n x : n ∈ fst <$> fs -> lookup_name (assign_name fs n x) n = Some x.
Proof.
  induction fs as [|kv fs IH]; [by intros ?%elem_of_nil|]. rewrite fmap_cons, elem_of_cons. cbn [assign_name].
  destruct (String.eqb_spec (fst kv) n) as [Hk|Hn]; rewrite lookup_name_cons; cbn [fst snd].
  - by rewrite String.eqb_refl.
  - apply String.eqb_neq in Hn as Hn'. rewrite Hn'. intros [->|H]; [done|by apply IH].
Qed.

Lemma lookup_assign_ne fs n n' x : n <> n' -> lookup_name (assign_name fs n x) n' = lookup_name fs n'.
Proof.
  intros Hne. induction fs as [|kv fs IH]; [done|]. cbn [assign_name].
  destruct (String.eqb_spec (fst kv) n) as [Hk|Hn]; rewrite !lookup_name_cons; cbn [fst snd].
  - by rewrite Hk, (proj2 (String.eqb_neq n n')).
  - by rewrite IH.
Qed.

Lemma assign_assign fs n x y : assign_name (assign_name fs n x) n y = assign_name fs n y.
Proof.
  induction fs as [|kv fs IH]; [done|]. cbn [assign_name].
  destruct (String.eqb_spec (fst kv) n) as [_|Hn]; cbn [assign_name fst].
  - by rewrite String.eqb_refl.
  - by rewrite (proj2 (String.eqb_neq _ _) Hn), IH.
Qed.

Lemma assign_same fs n x : lookup_name fs n = Some x -> assign_name fs n x = fs.
Proof.
  induction fs as [|[k y] fs IH]; [done|]. rewrite lookup_name_cons. cbn [assign_name fst snd].
  destruct (String.eqb_spec k n) as [->|Hn]; [by intros [= ->]|]. intros H. by rewrite IH.
Qed.

(** A struct is its fields: the names in order, and the value of each. *)
Lemma struct_ext (fs fs' : list (string * gval)) :
  fst <$> fs = fst <$> fs' -> NoDup (fst <$> fs) ->
  (forall n, n ∈ fst <$> fs -> lookup_name fs n = lookup_name fs' n) -> fs = fs'.
Proof.
  revert fs'. induction fs as [|[k x] fs IH]; intros [|[k' x'] fs'] Hk Hnd Hl; try done.
  rewrite !fmap_cons in *. cbn [fst] in *. injection Hk as <- Hk. apply list.NoDup_cons in Hnd as [Hni Hnd].
  pose proof (Hl k ltac:(by left)) as Hx. rewrite !lookup_name_cons in Hx. cbn [fst snd] in Hx.
  rewrite String.eqb_refl in Hx. injection Hx as <-. f_equal. apply IH; [done..|]. intros n Hn.
  specialize (Hl n ltac:(by right)). rewrite !lookup_name_cons in Hl. cbn [fst] in Hl.
  destruct (String.eqb_spec k n) as [->|]; [done|exact Hl].
Qed.

Lemma load_elem m i p l : load m i p = Some (GArr l) -> load m i (PElem p) = l !! i.
Proof. intros H. cbn [load]. by rewrite H. Qed.

Lemma store_elem m i p l x :
  load m i p = Some (GArr l) -> (i < List.length l)%nat -> store m i (PElem p) x = store m i p (GArr (<[i:=x]> l)).
Proof. intros H Hi. cbn [store]. by rewrite H, (proj2 (Nat.ltb_lt _ _)). Qed.

(** ** Types of values *)

Definition int_range (k : Kind) (n : Z) : Prop :=
  let w := 8 * ScalarSize k in
  if IsSigned k then - 2 ^ (w - 1) <= n < 2 ^ (w - 1) else 0 <= n < 2 ^ w.

Definition names {N : Naming} (m : Message) : list string := (fun f => field_id (f_name f)) <$> m_fields m.

(** [v] is a value of the Go type of [t]. *)
Inductive typed {N : Naming} (ms : list Message) : Typ -> gval -> Prop :=
| T_bool p x : typed ms (TBasic KBool p) (GBool x)
| T_int k p n :
    IsVarKind k = false -> k <> KBool -> IsFloat k = false -> int_range k n -> typed ms (TBasic k p) (GInt n)
| T_float k p bits : IsFloat k = true -> 0 <= bits < 2 ^ (8 * ScalarSize k) -> typed ms (TBasic k p) (GFloat bits)
| T_raw k p raw : IsVarKind k = true -> typed ms (TBasic k p) (GRaw raw)
| T_array len elem p l :
    Z.of_nat (List.length l) = len -> (forall j x, l !! j = Some x -> typed ms elem x) ->
    typed ms (TArray len elem p) (GArr l)
| T_ref name i p m fs :
    type_named ms (type_id name) = Some m -> fst <$> fs = names m ->
    (forall f x, f ∈ m_fields m -> lookup_name fs (field_id (f_name f)) = Some x -> typed ms (f_type f) x) ->
    typed ms (TRef name i p) (GStruct (type_id name) fs).

(** The bytes at the start of [b] are the fixed-size value [v] of type [t]. *)
Inductive holds {N : Naming} (ms : list Message) : list byte -> Typ -> gval -> Prop :=
| H_bool b p (x : bool) :
    b !! 0%nat = Some (if x then Byte.x01 else Byte.x00) -> holds ms b (TBasic KBool p) (GBool x)
| H_number b k p v bits :
    k <> KBool -> bits_of k v = Some bits ->
    take (Z.to_nat (ScalarSize k)) b = le_split (Z.to_nat (ScalarSize k)) bits -> holds ms b (TBasic k p) v
| H_array b len elem p l :
    Z.of_nat (List.length l) = len ->
    (forall j x, l !! j = Some x -> holds ms (drop (j * Z.to_nat (Size ms elem)) b) elem x) ->
    holds ms b (TArray len elem p) (GArr l)
| H_ref b name i p m fs :
    type_named ms (type_id name) = Some m ->
    (forall f x, f ∈ FixedFields m -> lookup_name fs (field_id (f_name f)) = Some x ->
       holds ms (drop (Z.to_nat (f_offset f)) b) (f_type f) x) ->
    holds ms b (TRef name i p) (GStruct (type_id name) fs).

Lemma scalar_widths k : ScalarSize k = 1 \/ ScalarSize k = 2 \/ ScalarSize k = 4 \/ ScalarSize k = 8.
Proof. destruct k; cbn; auto. Qed.

Lemma bits_of_typed {N : Naming} ms k p v :
  typed ms (TBasic k p) v -> IsVarKind k = false -> k <> KBool ->
  exists bits, bits_of k v = Some bits /\ of_bits k bits = v /\ 0 <= bits < 2 ^ (8 * ScalarSize k).
Proof.
  intros Ht Hv0 Hk0. inversion Ht as [|k' ? n Hv Hb Hfl Hr|k' ? bits Hfl Hr|k' ? raw Hv| |]; subst; try congruence.
  - unfold bits_of, of_bits. rewrite Hfl. eexists. split; [done|]. unfold int_range in Hr.
    destruct (IsSigned k) eqn:Hs; [|rewrite Z.mod_small by done; done].
    assert (Hw : 2 ^ (8 * ScalarSize k) = 2 * 2 ^ (8 * ScalarSize k - 1)).
    { rewrite <-Z.pow_succ_r; [f_equal; lia|]. destruct (scalar_widths k) as [|[|[]]]; lia. }
    assert (H0 : 0 < 2 ^ (8 * ScalarSize k - 1)) by (apply Z.pow_pos_nonneg; destruct (scalar_widths k) as [|[|[]]]; lia).
    cbn zeta in Hr. destruct (Z_lt_le_dec n 0) as [Hn|Hn].
    + assert (Hm : n mod 2 ^ (8 * ScalarSize k) = n + 2 ^ (8 * ScalarSize k)).
      { symmetry. apply (Z.mod_unique_pos _ _ (-1)); lia. }
      rewrite Hm. split; [|lia]. rewrite (proj2 (Z.ltb_ge _ _)) by lia. f_equal. lia.
    + rewrite Z.mod_small by lia. split; [|lia]. by rewrite (proj2 (Z.ltb_lt _ _)) by lia.
  - unfold bits_of, of_bits. rewrite Hfl. eauto.
Qed.

Lemma of_bits_typed {N : Naming} ms k p bits :
  IsVarKind k = false -> k <> KBool -> 0 <= bits < 2 ^ (8 * ScalarSize k) ->
  typed ms (TBasic k p) (of_bits k bits) /\ bits_of k (of_bits k bits) = Some bits.
Proof.
  intros Hv Hk Hr. unfold of_bits, bits_of. destruct (IsFloat k) eqn:Hf; [split; [by constructor|done]|].
  destruct (IsSigned k) eqn:Hs; [|rewrite Z.mod_small by done; split; [constructor; try done; unfold int_range; by rewrite Hs|done]].
  assert (Hw : 2 ^ (8 * ScalarSize k) = 2 * 2 ^ (8 * ScalarSize k - 1)).
  { rewrite <-Z.pow_succ_r; [f_equal; lia|]. destruct (scalar_widths k) as [|[|[]]]; lia. }
  split.
  - constructor; try done. unfold int_range. rewrite Hs. cbn zeta.
    destruct (Z.ltb_spec bits (2 ^ (8 * ScalarSize k - 1))); lia.
  - f_equal. destruct (Z.ltb_spec bits (2 ^ (8 * ScalarSize k - 1))); [by apply Z.mod_small|].
    symmetry. apply (Z.mod_unique_pos _ _ (-1)); lia.
Qed.

(** ** Writes that do not depend on what follows *)

(** A write that does the same to a longer buffer, and has no errors. *)
Definition plain {E} (f : list byte -> res E (list byte)) : Prop :=
  (forall b b' tl, f b = Ok b' -> f (b ++ tl) = Ok (b' ++ tl)) /\ forall b e, f b <> Error e.

Lemma plain_write {E} bytes : plain (E := E) (fun b => write b bytes).
Proof.
  unfold write. split; [intros b b' tl|intros b e; by case_match].
  destruct (Nat.leb_spec (List.length bytes) (List.length b)) as [Hl|]; [|done]. intros [= <-].
  rewrite (proj2 (Nat.leb_le _ _)) by (rewrite length_app; lia). by rewrite drop_app_le, app_assoc by done.
Qed.

Lemma plain_sub {E} off (f : list byte -> res E (list byte)) : plain f -> plain (fun b => sub b off f).
Proof.
  intros [Hf He]. unfold sub. split; [intros b b' tl|intros b e]; destruct (Z.leb_spec 0 off) as [H0|]; try done; cbn [andb].
  - destruct (Z.leb_spec off (Z.of_nat (List.length b))) as [Hl|]; [|done].
    rewrite length_app, (proj2 (Z.leb_le _ _)) by lia. rewrite drop_app_le, take_app_le by lia.
    destruct (f (drop _ b)) as [x| | |] eqn:Hx; try done. cbn [bind]. intros [= <-].
    rewrite (Hf _ _ tl Hx). cbn [bind]. by rewrite app_assoc.
  - case_match; [|done]. specialize (He (drop (Z.to_nat off) b)). by destruct (f _); cbn.
Qed.

Lemma plain_ok {E} : plain (E := E) Ok.
Proof. split; [|done]. by intros b b' tl [= ->]. Qed.

Lemma plain_panic {E} : plain (E := E) (fun _ => Panic).
Proof. done. Qed.

Lemma plain_bind {E} (f g : list byte -> res E (list byte)) : plain f -> plain g -> plain (fun b => let! b := f b in g b).
Proof.
  intros [Hf Hfe] [Hg Hge]. split.
  - intros b b' tl. destruct (f b) as [x| | |] eqn:Hx; try done. cbn [bind]. intros Hb. rewrite (Hf _ _ tl Hx). by apply Hg.
  - intros b e. specialize (Hfe b). destruct (f b); cbn; done.
Qed.

Lemma plain_for {E} (f : nat -> list byte -> res E (list byte)) i n :
  (forall i, plain (f i)) -> plain (fun b => for_range f i n b).
Proof.
  intros Hf. revert i. induction n as [|n IH]; intros i; cbn [for_range]; [apply plain_ok|]. by apply plain_bind.
Qed.

Lemma plain_exec {E} (call : gval -> list byte -> res E (list byte)) m st i :
  (forall v, plain (call v)) -> plain (exec_put call m st i).
Proof.
  intros Hc. revert i. induction st as [val body IH|val off|val off|val off|val off|k val off|k val off|k val off|k val off];
    intros i; cbn [exec_put]; try apply plain_panic.
  - destruct (range_of _) as [n|]; [|apply plain_panic]. cbn [or_panic bind]. by apply plain_for.
  - destruct (load m i val); [|apply plain_panic]. cbn [or_panic bind]. by apply plain_sub.
  - destruct (load m i val) as [[[]| | | | |]|]; try apply plain_panic; [apply plain_sub, plain_write|apply plain_ok].
  - destruct (load m i val ≫= bits_of k); [|apply plain_panic]. apply plain_sub, plain_write.
  - destruct (load m i val ≫= bits_of k); [|apply plain_panic]. apply plain_sub, plain_write.
Qed.

Lemma plain_ipcgenPut {N : Naming} {E} fuel ms v : plain (E := E) (ipcgenPut fuel ms v).
Proof.
  revert v. induction fuel as [|fuel IH]; intros v; [done|]. cbn [ipcgenPut].
  destruct (struct_of ms v) as [m|]; [|apply plain_panic]. cbn [or_panic bind].
  generalize (body ms m true) as l. induction l as [|st l IHl]; cbn [exec_puts]; [apply plain_ok|].
  apply plain_bind; [by apply plain_exec|done].
Qed.

(** ** Variable fields *)

Definition frame (raw : list byte) : list byte := le_split 4 (Z.of_nat (List.length raw)) ++ raw.
Definition frames (l : list (list byte)) : list byte := mjoin (frame <$> l).

Lemma length_frame raw : List.length (frame raw) = (4 + List.length raw)%nat.
Proof. unfold frame. by rewrite length_app, length_le_split. Qed.

Lemma frames_cons raw l : frames (raw :: l) = frame raw ++ frames l.
Proof. done. Qed.

Lemma msg_Size_frames m l : msg_Size m l = FixedSize m + Z.of_nat (List.length (frames l)).
Proof.
  unfold msg_Size. f_equal. induction l as [|raw l IH]; [done|]. rewrite frames_cons, length_app, length_frame.
  cbn [foldr]. lia.
Qed.

Lemma ipcgenPutVar_ok {E} pre tl raw :
  (List.length (frame raw) <= List.length tl)%nat ->
  ipcgenPutVar (E := E) (pre ++ tl) (Z.of_nat (List.length pre)) raw =
  Ok ((pre ++ frame raw) ++ drop (List.length (frame raw)) tl, Z.of_nat (List.length (pre ++ frame raw))).
Proof.
  rewrite length_frame. intros Hl. unfold ipcgenPutVar, sub. rewrite (proj2 (Z.leb_le _ _)) by lia.
  rewrite (proj2 (Z.leb_le _ _)) by (rewrite length_app; lia). cbn [andb]. rewrite Nat2Z.id, drop_app_length, take_app_length.
  unfold write. rewrite length_le_split, (proj2 (Nat.leb_le _ _)) by lia. cbn [bind]. cbv zeta.
  set (h := le_split 4 (Z.of_nat (List.length raw))). assert (Hh : List.length h = 4%nat) by apply length_le_split.
  replace (Z.to_nat (Z.of_nat (List.length pre) + 4)) with (List.length (pre ++ h)) by (rewrite length_app; lia).
  rewrite !app_assoc, take_app_length, length_app, length_drop.
  replace (Nat.min _ _) with (List.length raw) by (rewrite (length_app pre h); lia).
  rewrite take_ge, <-drop_drop, drop_app_length, drop_drop by lia. unfold frame. fold h. do 2 f_equal.
  - rewrite <-!app_assoc. by rewrite (Nat.add_comm (List.length raw)) || done.
  - rewrite !length_app. lia.
Qed.

Lemma putVars_ok {E} l pre tl :
  (List.length (frames l) <= List.length tl)%nat ->
  putVars (E := E) (pre ++ tl) (Z.of_nat (List.length pre)) l =
  Ok (pre ++ frames l ++ drop (List.length (frames l)) tl, Z.of_nat (List.length pre + List.length (frames l))).
Proof.
  revert pre tl. induction l as [|raw l IH]; intros pre tl Hl; cbn [putVars].
  { cbn. by rewrite drop_0, Nat.add_0_r. }
  rewrite frames_cons, length_app in *. rewrite ipcgenPutVar_ok by lia. cbn [bind].
  rewrite IH by (rewrite length_drop; lia). rewrite drop_drop, <-!app_assoc. do 2 f_equal. rewrite length_app. lia.
Qed.

(** A search by a key that is unique. *)
Lemma find_unique {A K} (key : A -> K) (eqb : K -> K -> bool) l i x :
  (forall a b, eqb a b = true <-> a = b) -> NoDup (key <$> l) -> l !! i = Some x ->
  List.find (fun y => eqb (key y) (key x)) l = Some x.
Proof.
  intros Heq. revert i. induction l as [|y l IH]; intros i Hnd Hx; [done|].
  rewrite fmap_cons in Hnd. apply list.NoDup_cons in Hnd as [Hni Hnd]. cbn [List.find].
  destruct i as [|i]; cbn in Hx; [injection Hx as ->; by rewrite (proj2 (Heq _ _))|].
  destruct (eqb (key y) (key x)) eqn:He; [|by eapply IH]. apply Heq in He.
  exfalso. apply Hni. rewrite He. apply list_elem_of_fmap. exists x. split; [done|]. by eapply list_elem_of_lookup_2.
Qed.

Lemma nodup_fmap_inj {A B} (g : A -> B) (l : list A) x y :
  NoDup (g <$> l) -> x ∈ l -> y ∈ l -> g x = g y -> x = y.
Proof.
  intros Hnd [i Hi]%list_elem_of_lookup [j Hj]%list_elem_of_lookup Hg.
  assert (i = j) as ->; [|congruence]. eapply (NoDup_lookup (g <$> l)); [done|rewrite list_lookup_fmap, Hi; done|].
  by rewrite list_lookup_fmap, Hj, Hg.
Qed.

(** The identifiers of a language do not clash. *)
Record naming_ok {N : Naming} (s : Schema) : Prop := {
  nk_fields : forall i m, s_messages s !! i = Some m -> NoDup (names m);
  nk_types : NoDup ((fun m => type_id (m_name m)) <$> s_messages s) }.

Lemma go_naming_ok s : checked s -> naming_ok (N := go_naming) s.
Proof.
  intros Hck. pose proof (no_messages _ (ck_names _ Hck)) as Hno. split.
  - intros i m Hm. by destruct (proj1 (Forall_lookup _ _) (mo_fields _ Hno) i m Hm) as (_ & _ & ?).
  - apply (mo_distinct _ Hno).
Qed.

Section generated.
Context {N : Naming} (s : Schema) (Hck : checked s) (Hnk : naming_ok s).
Let ms := s_messages s.
Let sz (t : Typ) : nat := Z.to_nat (Size ms t).

Lemma named i m : ms !! i = Some m -> type_named ms (type_id (m_name m)) = Some m.
Proof using Hck Hnk.
  apply (find_unique (fun m => type_id (m_name m)) String.eqb); [apply String.eqb_eq|]. apply (nk_types _ Hnk).
Qed.

Lemma names_nodup i m : ms !! i = Some m -> NoDup (names m).
Proof using Hck Hnk.
  apply (nk_fields _ Hnk).
Qed.

Lemma ref_named name msg p :
  fixed_type s (TRef name msg p) ->
  exists i m, msg = Some i /\ ms !! i = Some m /\ m_name m = name /\ type_named ms (type_id name) = Some m /\ Fixed m = true.
Proof using Hck Hnk.
  intros [(i & m & -> & Hm & <- & Hf) _]. exists i, m. split_and!; try done. by eapply named.
Qed.

Lemma elem_fixed (m : Message) f : f ∈ FixedFields m <-> f ∈ m_fields m /\ field_IsVar f = false.
Proof using.
  unfold FixedFields. rewrite list_elem_of_In, filter_In, <-list_elem_of_In. destruct (field_IsVar f); naive_solver.
Qed.

Lemma all_fixed (m : Message) f : Fixed m = true -> f ∈ m_fields m -> f ∈ FixedFields m.
Proof using.
  intros Hf Hin. apply elem_fixed. split; [done|]. destruct (field_IsVar f) eqn:Hv; [|done].
  unfold Fixed, VarFields in Hf. assert (Hm : In f (List.filter field_IsVar (m_fields m))).
  { apply filter_In. split; [by apply list_elem_of_In|done]. }
  by destruct (List.filter field_IsVar (m_fields m)).
Qed.

Lemma field_name_in (m : Message) f : f ∈ m_fields m -> field_id (f_name f) ∈ names m.
Proof using. intros Hf. apply list_elem_of_fmap. by exists f. Qed.

(** The field of a struct. *)
Lemma struct_field (m : Message) (fs : list (string * gval)) f :
  fst <$> fs = names m -> f ∈ m_fields m -> exists x, lookup_name fs (field_id (f_name f)) = Some x.
Proof using. intros Hk Hf. apply lookup_name_is_Some. rewrite Hk. by apply field_name_in. Qed.

Lemma holds_local b b' t v : holds ms b t v -> fixed_type s t -> inside b b' 0 (sz t) -> holds ms b' t v.
Proof using Hck Hnk.
  intros H. revert b'. induction H as [b p x Hx|b k p v bits Hk Hb Ht|b len elem p l Hl _ IH|b name i p m fs Hm _ IH];
    intros b' Hty Hin.
  - constructor. rewrite <-Hx. by apply (inside_lookup_0 b b' 1); [lia|].
  - econstructor; [done..|]. rewrite <-Ht. by apply inside_take.
  - destruct (elem_facts s Hck len elem p Hty) as (Hlen & He & Hsz & _). constructor; [done|].
    intros j x Hj. eapply IH; [done..|]. eapply inside_sub; [|exact Hin].
    apply lookup_lt_Some in Hj. unfold sz in *. cbn [Size]. fold ms in Hsz. nia.
  - destruct (ref_named _ _ _ Hty) as (j & m' & -> & Hj & _ & Hn & _). assert (m' = m) as -> by congruence.
    econstructor; [done|]. intros f x Hf Hx.
    destruct (field_facts s Hck j m f Hj Hf) as (Hft & H0 & Hle & Hs & _).
    apply (IH f x Hf Hx); [done|]. eapply inside_sub; [|exact Hin]. unfold sz. cbn [Size]. cbn. rewrite Hj.
    fold ms in Hs, Hle. lia.
Qed.

Lemma le_split_inj n x y :
  le_split n x = le_split n y -> 0 <= x < 2 ^ (8 * Z.of_nat n) -> 0 <= y < 2 ^ (8 * Z.of_nat n) -> x = y.
Proof using.
  intros H. rewrite (Z.mul_comm 8). intros Hx Hy. apply (f_equal le_combine) in H. rewrite !le_combine_split in H.
  by rewrite (Z.mod_small x), (Z.mod_small y) in H by done.
Qed.

Lemma scalar_width k : 8 * Z.of_nat (Z.to_nat (ScalarSize k)) = 8 * ScalarSize k.
Proof using. destruct k; reflexivity. Qed.

Lemma number_unique b k p v v' :
  typed ms (TBasic k p) v -> typed ms (TBasic k p) v' -> IsVarKind k = false -> k <> KBool ->
  holds ms b (TBasic k p) v -> holds ms b (TBasic k p) v' -> v = v'.
Proof using.
  intros Ht Ht' Hv Hk Hh Hh'.
  destruct (bits_of_typed ms k p v Ht Hv Hk) as (x & Hx & Hox & Hrx).
  destruct (bits_of_typed ms k p v' Ht' Hv Hk) as (y & Hy & Hoy & Hry).
  inversion Hh as [|? ? ? ? x' _ Hx' Hb| |]; subst; try done.
  inversion Hh' as [|? ? ? ? y' _ Hy' Hb'| |]; subst; try done.
  rewrite Hx in Hx'. rewrite Hy in Hy'. injection Hx' as <-. injection Hy' as <-.
  f_equal. rewrite <-scalar_width in Hrx, Hry. eapply le_split_inj; [|exact Hrx|exact Hry]. congruence.
Qed.

(** Bytes hold one value. *)
Lemma holds_unique b t v v' :
  typed ms t v -> typed ms t v' -> fixed_type s t -> holds ms b t v -> holds ms b t v' -> v = v'.
Proof using Hck Hnk.
  intros Ht. revert b v'. induction Ht as [p x|k p n Hv Hk Hf Hr|k p bits Hf Hr|k p raw Hv|len elem p l Hl _ IH|name i p m fs Hm Hn _ IH];
    intros b v' Ht' Hty Hh Hh'.
  - inversion Ht'; subst; try done. inversion Hh as [? ? ? H1| | |]; subst; [|done].
    inversion Hh' as [? ? ? H2| | |]; subst; [|done]. rewrite H1 in H2. f_equal. by destruct x, x0.
  - eapply number_unique; [by constructor|done..].
  - eapply number_unique; [by constructor|exact Ht'|apply Hty|by destruct k|done..].
  - destruct Hty as [_ Hty]. cbn in Hty. congruence.
  - inversion Ht' as [| | | |? ? ? l' Hl' Hx'|]; subst. destruct (elem_facts s Hck _ elem p Hty) as (_ & He & _ & _).
    inversion Hh as [| |? ? ? ? ? _ H1|]; subst. inversion Hh' as [| |? ? ? ? ? _ H2|]; subst. f_equal.
    apply list_eq. intros j. destruct (l !! j) as [x|] eqn:Hj.
    + destruct (lookup_lt_is_Some_2 l' j) as [x' Hj']; [apply lookup_lt_Some in Hj; lia|]. rewrite Hj'. f_equal.
      by eapply IH; eauto.
    + symmetry. apply lookup_ge_None. apply lookup_ge_None in Hj. lia.
  - inversion Ht' as [| | | | |? ? ? m' fs' Hm' Hn' Hx']; subst. assert (m' = m) as -> by congruence.
    destruct (ref_named _ _ _ Hty) as (j & m'' & -> & Hj & _ & Hnm & Hfix). assert (m'' = m) as -> by congruence.
    inversion Hh as [| | |? ? ? ? m1 ? Hm1 H1]; subst. inversion Hh' as [| | |? ? ? ? m2 ? Hm2 H2]; subst.
    assert (m1 = m) as -> by congruence. assert (m2 = m) as -> by congruence. f_equal.
    apply struct_ext; [congruence|rewrite Hn; by eapply names_nodup|]. rewrite Hn.
    intros n (f & -> & Hf)%list_elem_of_fmap. destruct (struct_field m fs f Hn Hf) as [x Hx].
    destruct (struct_field m fs' f Hn' Hf) as [x' Hx'']. rewrite Hx, Hx''. f_equal.
    pose proof (all_fixed m f Hfix Hf) as Hff. destruct (field_facts s Hck j m f Hj Hff) as (Hft & _).
    eapply IH; eauto.
Qed.

(** ** Encoding *)

Definition leaf (t : Typ) : Prop := match t with TArray _ _ _ => False | _ => True end.

Section put.
Context {E : Type} (call : gval -> list byte -> res E (list byte)) (ready : nat -> Prop).

(** What the methods of the nested messages do. *)
Hypothesis Hcall : forall j m v b p, ready j -> ms !! j = Some m -> typed ms (TRef (m_name m) (Some j) p) v ->
  (Z.to_nat (FixedSize m) <= List.length b)%nat -> zero b 0 (Z.to_nat (FixedSize m)) ->
  writes b 0 (Z.to_nat (FixedSize m)) (fun b' => holds ms b' (TRef (m_name m) (Some j) p) v) (call v b).

Lemma put_leaf t p o i m x b :
  leaf t -> fixed_type s t -> (forall j, refOf t = Some j -> ready j) ->
  load m i p = Some x -> typed ms t x -> 0 <= offset_at o i ->
  (Z.to_nat (offset_at o i) + sz t <= List.length b)%nat ->
  zero b (Z.to_nat (offset_at o i)) (Z.to_nat (offset_at o i) + sz t) ->
  writes b (Z.to_nat (offset_at o i)) (Z.to_nat (offset_at o i) + sz t)
    (fun b' => holds ms (drop (Z.to_nat (offset_at o i)) b') t x) (exec_put call m (access ms t p o true) i b).
Proof using Hck Hnk Hcall.
  intros Hleaf Hty Hready Hx Ht H0 Hl Hz. set (off := Z.to_nat (offset_at o i)) in *.
  assert (Hnum : forall k q, t = TBasic k q -> k <> KBool ->
    writes (E := E) b off (off + sz t) (fun b' => holds ms (drop off b') t x)
      (let! bits := or_panic (load m i p ≫= bits_of k) in
       sub b (offset_at o i) (fun b => write b (le_split (Z.to_nat (ScalarSize k)) bits)))).
  { intros k q -> Hk. destruct (bits_of_typed ms k q x Ht (proj2 Hty) Hk) as (bits & Hb & _).
    rewrite Hx. cbn [mbind option_bind]. rewrite Hb. cbn [or_panic bind].
    apply (writes_sub b (offset_at o i) _ (fun b' => holds ms b' (TBasic k q) x)); [done|unfold off in *; lia|].
    unfold sz in *. cbn [Size] in *. pose proof (writes_write (E := E) (drop off b) (le_split (Z.to_nat (ScalarSize k)) bits)) as Hw.
    rewrite length_le_split in Hw. eapply writes_impl; [reflexivity..| |apply Hw; rewrite length_drop; lia].
    intros b' _ Hb'. by econstructor. }
  destruct t as [k q|? ? ?|name msg q]; [|done|].
  - destruct k; try (apply (Hnum _ q); done). clear Hnum. inversion Ht; subst; try done. cbn [access exec_put]. rewrite Hx.
    destruct x0.
    + apply (writes_sub b (offset_at o i) _ (fun b' => holds ms b' (TBasic KBool q) (GBool true))); [done|unfold off in *; lia|].
      eapply writes_impl; [reflexivity..| |apply (writes_write _ [Byte.x01]); rewrite length_drop; cbn; unfold sz, off in *; cbn in *; lia].
      intros b' _ Hb'. constructor. destruct b'; [done|]. cbn in Hb'. by injection Hb' as ->.
    + split; [done|]. constructor. rewrite lookup_drop, Nat.add_0_r. apply Hz. unfold sz. cbn. lia.
  - destruct (ref_named _ _ _ Hty) as (j & m' & -> & Hj & <- & Hnm & _). cbn [access exec_put]. rewrite Hx. cbn [or_panic bind].
    assert (Hsz : sz (TRef (m_name m') (Some j) q) = Z.to_nat (FixedSize m')) by (unfold sz; cbn; by rewrite Hj).
    rewrite Hsz in *.
    apply (writes_sub b (offset_at o i) _ (fun b' => holds ms b' (TRef (m_name m') (Some j) q) x)); [done|unfold off in *; lia|].
    apply Hcall; [by apply Hready|done..|rewrite length_drop; unfold off in *; lia|].
    intros k Hk. rewrite lookup_drop. apply Hz. unfold off. lia.
Qed.

Lemma put_elems elem nm off m l n i b :
  leaf elem -> fixed_type s elem -> (forall j, refOf elem = Some j -> ready j) -> 0 <= off -> 0 <= Size ms elem ->
  load m 0 (PName nm) = Some (GArr l) -> (forall j x, l !! j = Some x -> typed ms elem x) ->
  (i + n)%nat = List.length l ->
  let at_ (j : nat) := (Z.to_nat off + j * sz elem)%nat in
  (at_ (i + n)%nat <= List.length b)%nat -> zero b (at_ i) (at_ (i + n)%nat) ->
  writes b (at_ i) (at_ (i + n)%nat)
    (fun b' => forall j x, (i <= j)%nat -> l !! j = Some x -> holds ms (drop (at_ j) b') elem x)
    (for_range (fun i b => exec_put call m (access ms elem (PElem (PName nm)) (OPlus (OAt off) (Size ms elem)) true) i b) i n b).
Proof using Hck Hnk Hcall.
  intros Hleaf Hty Hready H0 Hs Hm Hl Hn at_. revert i b Hn. induction n as [|n IH]; intros i b Hn Hb Hz; cbn [for_range].
  { split; [done|]. intros j x Hj Hx. apply lookup_lt_Some in Hx. lia. }
  destruct (lookup_lt_is_Some_2 l i) as [x Hx]; [lia|].
  set (o := OPlus (OAt off) (Size ms elem)).
  assert (Hoff : Z.to_nat (offset_at o i) = at_ i) by (unfold at_, sz; cbn; lia).
  assert (Hat : at_ (i + 1)%nat = (at_ i + sz elem)%nat) by (unfold at_; lia).
  assert (Hmono : (at_ (i + 1)%nat <= at_ (i + S n)%nat)%nat) by (unfold at_; nia).
  pose proof (put_leaf elem (PElem (PName nm)) o i m x b) as Hp. rewrite Hoff, <-Hat in Hp.
  eapply (writes_bind _ _ (at_ (i + 1)%nat)); [lia| |].
  { apply Hp; try done; [cbn [load] in *; by rewrite Hm|by eapply Hl|cbn; lia|lia|]. intros k Hk. apply Hz. lia. }
  intros b' Ho Hr. specialize (IH (i + 1)%nat b'). replace (i + 1 + n)%nat with (i + S n)%nat in IH by lia.
  pose proof Ho as [Hlen _]. eapply writes_impl; [reflexivity..| |apply IH; [done|lia|]].
  - intros b'' Ho' Hrest j y Hj Hy. destruct (decide (j = i)) as [->|Hne]; [|apply Hrest; [lia|done]].
    assert (y = x) as -> by congruence. eapply holds_local; [exact Hr|done|]. apply inside_drop. rewrite <-Hat.
    eapply outside_inside; [|exact Ho']. lia.
  - eapply outside_zero; [|exact Ho|exact Hz]. lia.
Qed.

Lemma put_field t nm off m x b :
  fixed_type s t -> 0 <= Size ms t -> (forall j, refOf t = Some j -> ready j) ->
  load m 0 (PName nm) = Some x -> typed ms t x -> 0 <= off -> (Z.to_nat off + sz t <= List.length b)%nat ->
  zero b (Z.to_nat off) (Z.to_nat off + sz t) ->
  writes b (Z.to_nat off) (Z.to_nat off + sz t) (fun b' => holds ms (drop (Z.to_nat off) b') t x)
    (exec_put call m (access ms t (PName nm) (OAt off) true) 0 b).
Proof using Hck Hnk Hcall.
  intros Hty Hs Hready Hx Ht H0 Hl Hz. destruct t as [k q|len elem q|name msg q]; [by apply put_leaf| |by apply put_leaf].
  destruct (elem_facts s Hck len elem q Hty) as (Hlen & He & Hse & _). inversion Ht as [| | | |? ? ? l Hll Hxs|]; subst.
  assert (Hleaf : leaf elem) by (destruct Hty as [Hok _]; by destruct elem).
  assert (Hrd : forall j, refOf elem = Some j -> ready j).
  { intros j Hj. apply Hready. by destruct elem. }
  cbn [access exec_put]. rewrite Hx. cbn [range_of or_panic bind].
  assert (Hsz : sz (TArray (Z.of_nat (List.length l)) elem q) = (List.length l * sz elem)%nat) by (unfold sz; cbn [Size]; lia).
  rewrite Hsz in *. pose proof (put_elems elem nm off m l (List.length l) 0 b) as Hp. cbv zeta beta in Hp.
  rewrite Nat.mul_0_l, Nat.add_0_r, Nat.add_0_l in Hp. eapply writes_impl; [reflexivity..| |by apply Hp].
  intros b' _ Hr. constructor; [done|]. intros j y Hj. rewrite drop_drop. apply Hr; [lia|done].
Qed.

Lemma put_all v fs lo hi al b :
  (forall f, f ∈ fs -> fixed_type s (f_type f) /\ 0 <= Size ms (f_type f) /\
     (forall j, refOf (f_type f) = Some j -> ready j) /\
     exists x, load v 0 (PName (field_id (f_name f))) = Some x /\ typed ms (f_type f) x) ->
  0 <= lo -> placed ms fs lo hi al -> (Z.to_nat hi <= List.length b)%nat -> zero b (Z.to_nat lo) (Z.to_nat hi) ->
  writes b (Z.to_nat lo) (Z.to_nat hi)
    (fun b' => forall f x, f ∈ fs -> load v 0 (PName (field_id (f_name f))) = Some x ->
       holds ms (drop (Z.to_nat (f_offset f)) b') (f_type f) x)
    (exec_puts call v ((fun f => access ms (f_type f) (PName (field_id (f_name f))) (OAt (f_offset f)) true) <$> fs) b).
Proof using Hck Hnk Hcall.
  revert lo b. induction fs as [|f fs IH]; intros lo b Hfs H0 Hpl Hl Hz; cbn [fmap list_fmap exec_puts].
  { split; [done|]. by intros f x ?%elem_of_nil. }
  destruct (Hfs f) as (Hty & Hs & Hready & x & Hx & Ht); [by left|].
  assert (Hv : field_IsVar f = false) by apply Hty. cbn [placed] in Hpl. rewrite Hv in Hpl.
  destruct Hpl as (H1 & _ & _ & Hpl).
  assert (Hle : f_offset f + Size ms (f_type f) <= hi).
  { eapply placed_le; [|exact Hpl]. intros g Hg. apply Hfs. by right. }
  assert (Hmid : (Z.to_nat (f_offset f) + sz (f_type f))%nat = Z.to_nat (f_offset f + Size ms (f_type f)))
    by (unfold sz; lia).
  eapply (writes_bind _ _ (Z.to_nat (f_offset f) + sz (f_type f))); [unfold sz in *; lia| |].
  - eapply writes_impl; [|reflexivity|intros ? _ HQ; exact HQ|].
    2: { apply (put_field _ _ _ _ x); [done..|lia|unfold sz in *; lia|]. intros k Hk. apply Hz. unfold sz in *. lia. }
    lia.
  - intros b' Ho Hr. cbn beta in Hr. rewrite Hmid in Ho |- *. pose proof Ho as [Hlen _].
    eapply writes_impl; [reflexivity..| |apply IH; [intros g Hg; apply Hfs; by right|lia|done|lia|]].
    + intros b'' Ho' Hrest g y [->|Hg]%elem_of_cons Hy; [|by eapply Hrest].
      assert (y = x) as -> by congruence. eapply holds_local; [exact Hr|done|]. apply inside_drop. rewrite Hmid.
      eapply outside_inside; [|exact Ho']. lia.
    + eapply outside_zero; [|exact Ho|exact Hz]. lia.
Qed.
End put.

Lemma ref_ready i m f j fuel :
  ms !! i = Some m -> f ∈ m_fields m -> message_fuel s i (S fuel) -> refOf (f_type f) = Some j -> message_fuel s j fuel.
Proof using Hck Hnk.
  intros Hm Hf Hfu Hj. destruct (message_fuel_ref s Hck i j (S fuel) Hfu) as (fuel' & [= ->] & H).
  - unfold refs. fold ms. rewrite Hm. by eapply contains_field.
  - by apply message_fuel_S.
Qed.

(** A value of the struct of message [m]. *)
Definition value_of (m : Message) (v : gval) : Prop := typed ms (TRef (m_name m) None (mkPos 0 0)) v.

Lemma value_of_typed m i p v : value_of m v <-> typed ms (TRef (m_name m) i p) v.
Proof using. unfold value_of. split; inversion 1; subst; by econstructor. Qed.

Lemma value_of_struct i m v :
  ms !! i = Some m -> value_of m v -> exists fs, v = GStruct (type_id (m_name m)) fs /\ struct_of ms v = Some m /\
    fst <$> fs = names m /\
    forall f x, f ∈ m_fields m -> lookup_name fs (field_id (f_name f)) = Some x -> typed ms (f_type f) x.
Proof using Hck Hnk.
  intros Hm Hv. inversion Hv as [| | | | |? ? ? m' fs Hm' Hk Hx]; subst. pose proof (named i m Hm) as Hn.
  assert (m' = m) as -> by congruence. exists fs. by split_and!.
Qed.

(** The bytes of the fixed section of [v]. *)
Definition holds_fixed (b : list byte) (m : Message) (v : gval) : Prop :=
  forall f x, f ∈ FixedFields m -> load v 0 (PName (field_id (f_name f))) = Some x ->
    holds ms (drop (Z.to_nat (f_offset f)) b) (f_type f) x.

Lemma ipcgenPut_ok {E} fuel i m v b :
  ms !! i = Some m -> value_of m v -> message_fuel s i fuel ->
  (Z.to_nat (FixedSize m) <= List.length b)%nat -> zero b 0 (Z.to_nat (FixedSize m)) ->
  writes (E := E) b 0 (Z.to_nat (FixedSize m)) (fun b' => holds_fixed b' m v) (ipcgenPut (S fuel) ms v b).
Proof using Hck Hnk.
  revert i m v b. induction fuel as [|fuel IH]; intros i m v b Hm Hv Hfu Hl Hz.
  { destruct Hfu as (? & ? & _ & ?). lia. }
  destruct (value_of_struct i m v Hm Hv) as (fs & -> & Hst & Hk & Hx).
  change (ipcgenPut (S (S fuel)) ms ?v ?b) with
    (let! m := or_panic (struct_of ms v) in exec_puts (E := E) (ipcgenPut (S fuel) ms) v (body ms m true) b).
  rewrite Hst. cbn [or_panic bind]. destruct (ck_laid _ Hck i m Hm) as [_ _ _ (hi & Hpl & Hhi)]. apply placed_fixed in Hpl.
  eapply (writes_impl _ 0 (Z.to_nat hi)); [lia|lia|intros ? _ HQ; exact HQ|].
  eapply (put_all (ipcgenPut (S fuel) ms) (fun j => message_fuel s j fuel)) with (lo := 0); [| |lia|exact Hpl|lia|].
  - intros j m' v' b' p Hj Hm' Ht Hl' Hz'. apply value_of_typed in Ht. pose proof (value_of_struct j m' v' Hm' Ht) as (fs' & -> & _).
    eapply writes_impl; [reflexivity..| |by eapply IH]. intros b'' _ Hh.
    econstructor; [by eapply named|]. intros f x Hf Hx'. by apply Hh.
  - intros f Hf. destruct (field_facts s Hck i m f Hm Hf) as (Hty & _ & _ & Hs & _).
    apply elem_fixed in Hf as [Hf _]. split_and!; [done|done|intros j; by eapply ref_ready|].
    destruct (struct_field m fs f Hk Hf) as [x Hx']. exists x. split; [done|by eapply Hx].
  - intros k Hk'. apply Hz. lia.
Qed.

Lemma raws_Some i m v :
  ms !! i = Some m -> value_of m v ->
  exists l, raws m v = Some l /\
    Forall2 (fun f raw => load v 0 (PName (field_id (f_name f))) = Some (GRaw raw)) (VarFields m) l.
Proof using Hck Hnk.
  intros Hm Hv. destruct (value_of_struct i m v Hm Hv) as (fs & -> & _ & Hk & Hx).
  assert (Hall : forall f, f ∈ VarFields m -> exists raw, lookup_name fs (field_id (f_name f)) = Some (GRaw raw)).
  { intros f Hf. apply list_elem_of_In, filter_In in Hf as [Hf Hvar]. apply list_elem_of_In in Hf.
    destruct (struct_field m fs f Hk Hf) as [x Hl]. rewrite Hl. specialize (Hx f x Hf Hl). unfold field_IsVar in Hvar.
    destruct (f_type f) as [k p| |]; try done. cbn in Hvar. inversion Hx as [|? ? ? Hn|? ? ? Hn|? ? raw| |]; subst; [done|congruence|by destruct k|by exists raw]. }
  unfold raws. revert Hall. generalize (VarFields m) as l. induction l as [|f l IH]; intros Hall; [by exists []|].
  destruct (Hall f) as [raw Hr]; [by left|]. destruct IH as (l' & Hl' & HF); [intros; apply Hall; by right|].
  exists (raw :: l'). split; [|by constructor]. cbn [mapM raw_of]. rewrite Hr. cbn [mbind option_bind].
  cbn [mapM raw_of] in Hl'. by rewrite Hl'.
Qed.

Definition fits (l : list (list byte)) : Prop := Forall (fun raw => Z.of_nat (List.length raw) < 2 ^ 32) l.

Lemma fits_forallb l : fits l <-> forallb (fun raw => ipcgenFits (Z.of_nat (List.length raw))) l = true.
Proof using.
  unfold fits, ipcgenFits. rewrite forallb_forall, list.Forall_forall. setoid_rewrite list_elem_of_In.
  split; intros H x Hx; specialize (H x Hx); [apply Z.leb_le|apply Z.leb_le in H]; lia.
Qed.

(** [ipcgenMarshal] writes the same bytes whatever was in the buffer, and leaves the rest. *)
Lemma ipcgenMarshal_ok {E} i m v l :
  ms !! i = Some m -> value_of m v -> raws m v = Some l -> fits l ->
  exists fixed, List.length fixed = Z.to_nat (FixedSize m) /\ holds_fixed fixed m v /\
    ipcgenPut (E := E) (S (fuel_for ms)) ms v (replicate (Z.to_nat (FixedSize m)) Byte.x00) = Ok fixed /\
    forall b, msg_Size m l <= Z.of_nat (List.length b) ->
      ipcgenMarshal (E := E) ms v b = Ok (fixed ++ frames l ++ drop (Z.to_nat (msg_Size m l)) b, msg_Size m l, true).
Proof using Hck Hnk.
  intros Hm Hv Hl Hfit. pose proof (fixed_size_nonneg s Hck i m Hm) as H0.
  destruct (value_of_struct i m v Hm Hv) as (fs & Hv' & Hst & Hk & Hx).
  set (n := Z.to_nat (FixedSize m)). set (z := replicate n Byte.x00).
  assert (Hw : writes (E := E) z 0 n (fun b' => holds_fixed b' m v) (ipcgenPut (S (fuel_for ms)) ms v z)).
  { apply (ipcgenPut_ok _ i); [done..| | |].
    - apply (message_fuel_enough s Hck). by eapply lookup_lt_Some.
    - unfold z. by rewrite length_replicate.
    - intros k Hk'. apply lookup_replicate. split; [done|unfold n in *; lia]. }
  destruct (plain_ipcgenPut (E := E) (S (fuel_for ms)) ms v) as [Hplain Herr].
  destruct (ipcgenPut (S (fuel_for ms)) ms v z) as [fixed|e| |] eqn:Hput; [|by destruct (Herr z e)|done..].
  destruct Hw as [[Hlen _] Hh].
  unfold z in Hlen. rewrite length_replicate in Hlen. exists fixed. split_and!; [done..|]. intros b Hb.
  unfold ipcgenMarshal. rewrite Hst. cbn [or_panic bind]. rewrite Hl. cbn [or_panic bind].
  rewrite (proj1 (fits_forallb l) Hfit), (proj2 (Z.ltb_ge _ _)) by done. cbn [negb]. cbv zeta. fold n z.
  rewrite (Hplain _ _ _ Hput). cbn [bind]. rewrite msg_Size_frames in *.
  destruct (Fixed m) eqn:Hfix.
  + assert (l = []) as ->.
    { unfold Fixed in Hfix. unfold raws in Hl. destruct (VarFields m); [|done]. by injection Hl. }
    cbn. by rewrite Z.add_0_r.
  + replace (FixedSize m) with (Z.of_nat (List.length fixed)) at 1 by lia.
    rewrite putVars_ok by (rewrite length_drop; lia). cbn [bind]. rewrite drop_drop. do 3 f_equal; [do 3 f_equal; lia|lia].
Qed.

(** ** Decoding *)

(** The generated decoder returns what the reference check [r] says. *)
Definition agrees {A} (r : dec unit) (r' : dec A) (Q : A -> Prop) : Prop :=
  match r with Ok _ => exists a, r' = Ok a /\ Q a | Error e => r' = Error e | _ => False end.

Lemma agrees_bind {A B} (r : dec unit) (k : dec unit) (r' : dec A) (k' : A -> dec B) Q Q' :
  agrees r r' Q -> (forall a, Q a -> agrees k (k' a) Q') -> agrees (let! _ := r in k) (let! a := r' in k' a) Q'.
Proof using.
  destruct r as [[]|e| |]; cbn; try done; [intros (a & -> & Ha) H; by apply H|by intros ->].
Qed.

Lemma agrees_impl {A} r (r' : dec A) (Q Q' : A -> Prop) : (forall a, Q a -> Q' a) -> agrees r r' Q -> agrees r r' Q'.
Proof using. intros H. destruct r; cbn; try done. intros (x & -> & Hx). eauto. Qed.

Lemma small_byte x : byte.unsigned x <= 1 -> x = if byte.unsigned x =? 1 then Byte.x01 else Byte.x00.
Proof using. destruct x; cbn; try done; intros H; exfalso; by apply H. Qed.

Section get.
Context (call : gval -> list byte -> dec gval) (ready : nat -> Prop).

Hypothesis Hget : forall j m v b fuel, ready j -> ms !! j = Some m -> value_of m v -> message_fuel s j fuel ->
  (Z.to_nat (FixedSize m) <= List.length b)%nat ->
  agrees (check_fields (checkType fuel ms) b (FixedFields m)) (call v b) (fun v' => value_of m v' /\ holds_fixed b m v').

Lemma get_leaf t p o i m x0 b fuel :
  leaf t -> fixed_type s t -> (forall j, refOf t = Some j -> ready j) -> type_fuel s t fuel ->
  load m i p = Some x0 -> typed ms t x0 -> (forall x, exists m', store m i p x = Some m') -> 0 <= offset_at o i ->
  (Z.to_nat (offset_at o i) + sz t <= List.length b)%nat ->
  let b' := drop (Z.to_nat (offset_at o i)) b in
  agrees (checkType fuel ms b' t) (exec_get call b (access ms t p o false) i m)
    (fun m' => exists x, store m i p x = Some m' /\ typed ms t x /\ holds ms b' t x).
Proof using Hck Hnk Hget.
  intros Hleaf Hty Hready Hfuel Hx Ht Hst H0 Hl b'. set (off := Z.to_nat (offset_at o i)) in *.
  assert (Hfrom : forall A (f : list byte -> dec A), from b (offset_at o i) f = f b').
  { intros A f. apply from_spec; [done|]. unfold off in *. lia. }
  assert (Hlb : (sz t <= List.length b')%nat) by (unfold b'; rewrite length_drop; lia). clearbody b'.
  assert (Hnum : forall k q, t = TBasic k q -> k <> KBool ->
    exists m', (let! raw := from b (offset_at o i) (fun b => if (Z.to_nat (ScalarSize k) <=? List.length b)%nat
                                                    then Ok (take (Z.to_nat (ScalarSize k)) b) else Panic) in
     or_panic (store m i p (of_bits k (le_combine raw)))) = (Ok m' : dec gval) /\
    exists x, store m i p x = Some m' /\ typed ms t x /\ holds ms b' t x).
  { intros k q -> Hk. rewrite Hfrom. unfold sz in Hlb. cbn [Size] in Hlb. rewrite (proj2 (Nat.leb_le _ _)) by done. cbn [bind].
    set (raw := take (Z.to_nat (ScalarSize k)) b').
    assert (Hraw : List.length raw = Z.to_nat (ScalarSize k)) by (unfold raw; rewrite length_take; lia).
    pose proof (le_combine_bound raw) as Hr. rewrite Hraw, scalar_width in Hr.
    destruct (of_bits_typed ms k q (le_combine raw) (proj2 Hty) Hk Hr) as [Ho Hb].
    destruct (Hst (of_bits k (le_combine raw))) as [m' Hm']. rewrite Hm'. exists m'. split; [done|].
    exists (of_bits k (le_combine raw)). split_and!; [done..|]. econstructor; [done..|]. fold raw.
    by rewrite <-Hraw, split_le_combine. }
  destruct t as [k q|? ? ?|name msg q]; [|done|].
  - destruct fuel as [|fuel]; [cbn in Hfuel; lia|]. destruct k; try (apply (Hnum _ q); done); try done. clear Hnum.
    cbn [checkType access exec_get]. rewrite Hfrom. destruct b' as [|y rest]; [unfold sz in Hlb; cbn in Hlb; lia|].
    cbn [head or_panic bind]. destruct (Z.ltb_spec 1 (byte.unsigned y)) as [|Hy]; [done|].
    destruct (Hst (GBool (byte.unsigned y =? 1))) as [m' Hm']. rewrite Hm'. exists m'. split; [done|].
    exists (GBool (byte.unsigned y =? 1)). split_and!; [done|constructor|]. constructor. cbn. f_equal. by apply small_byte.
  - destruct (ref_named _ _ _ Hty) as (j & m' & -> & Hj & <- & Hnm & _). destruct Hfuel as (fuel' & -> & Hfuel).
    cbn [checkType access exec_get mbind option_bind]. rewrite Hj, Hx. cbn [or_panic bind]. rewrite Hfrom.
    assert (Hv : value_of m' x0) by (by apply value_of_typed in Ht).
    assert (Hl' : (Z.to_nat (FixedSize m') <= List.length b')%nat) by (unfold sz in Hlb; cbn in Hlb; by rewrite Hj in Hlb).
    pose proof (Hget j m' x0 b' fuel' (Hready j eq_refl) Hj Hv Hfuel Hl') as Hc.
    destruct (check_fields _ _ _) as [[]| | |]; cbn in Hc |- *; try done; [|by rewrite Hc].
    destruct Hc as (v' & -> & Hv' & Hh). cbn [bind]. destruct (Hst v') as [m'' Hm'']. rewrite Hm''. exists m''. split; [done|].
    exists v'. split_and!; [done|by apply value_of_typed|].
    destruct (value_of_struct j m' v' Hj Hv') as (fs & -> & _). econstructor; [done|]. intros f x Hf Hfx. by apply Hh.
Qed.

Lemma get_elems elem nm off tn fs l n i b fuel :
  leaf elem -> fixed_type s elem -> (forall j, refOf elem = Some j -> ready j) -> type_fuel s elem fuel ->
  0 <= off -> 0 <= Size ms elem -> nm ∈ fst <$> fs -> (forall j x, l !! j = Some x -> typed ms elem x) ->
  (i + n)%nat = List.length l -> (Z.to_nat off + List.length l * sz elem <= List.length b)%nat ->
  let upd x := GStruct tn (assign_name fs nm x) in
  agrees (check_items (checkType fuel ms) (Size ms elem) elem (drop (Z.to_nat off) b) i n)
    (for_range (fun i m => exec_get call b (access ms elem (PElem (PName nm)) (OPlus (OAt off) (Size ms elem)) false) i m)
       i n (upd (GArr l)))
    (fun m' => exists l', m' = upd (GArr l') /\ List.length l' = List.length l /\
       (forall j x, l' !! j = Some x -> typed ms elem x) /\ (forall j, (j < i)%nat -> l' !! j = l !! j) /\
       forall j x, (i <= j)%nat -> l' !! j = Some x -> holds ms (drop (Z.to_nat off + j * sz elem) b) elem x).
Proof using Hck Hnk Hget.
  intros Hleaf Hty Hready Hfuel H0 Hs Hnm Hl Hn Hb upd. revert i l Hl Hn Hb.
  induction n as [|n IH]; intros i l Hl Hn Hb; cbn [check_items for_range].
  { eexists. split; [done|]. exists l. split_and!; try done. intros j x Hj Hx. apply lookup_lt_Some in Hx. lia. }
  destruct (lookup_lt_is_Some_2 l i) as [x0 Hx0]; [lia|]. set (o := OPlus (OAt off) (Size ms elem)).
  assert (Hoff : Z.to_nat (offset_at o i) = (Z.to_nat off + i * sz elem)%nat) by (unfold sz; cbn; lia).
  assert (Hload : forall y k, load (upd y) k (PName nm) = Some y) by (intros y k; by apply lookup_assign).
  assert (Hstore : forall y z k, store (upd y) k (PName nm) z = Some (upd z)).
  { intros y z k. cbn [store upd]. unfold upd. rewrite lookup_assign by done. by rewrite assign_assign. }
  assert (Helem : forall x, store (upd (GArr l)) i (PElem (PName nm)) x = Some (upd (GArr (<[i:=x]> l)))).
  { intros x. rewrite (store_elem _ _ _ l) by (done || lia). apply Hstore. }
  assert (Hoff' : Z.to_nat (Z.of_nat i * Size ms elem) = (i * sz elem)%nat) by (unfold sz; lia).
  rewrite from_spec, Hoff', drop_drop by (rewrite ?length_drop; nia).
  pose proof (get_leaf elem (PElem (PName nm)) o i (upd (GArr l)) x0 b fuel) as Hg. cbv zeta in Hg. rewrite Hoff in Hg.
  eapply agrees_bind; [apply Hg; clear Hg|].
  { done. } { done. } { done. } { done. } { by rewrite (load_elem _ _ _ l). } { by eapply Hl. } { eauto. } { cbn. lia. } { nia. }
  intros m' (x & Hm' & Htx & Hhx). rewrite Helem in Hm'. injection Hm' as <-. rewrite Nat.add_1_r.
  eapply agrees_impl; [|apply IH].
  - intros m'' (l' & -> & Hll & Ht' & Hsame & Hh). exists l'. rewrite length_insert in Hll.
    split_and!; [done..| |].
    + intros j Hj. rewrite Hsame by lia. by rewrite list_lookup_insert_ne by lia.
    + intros j y Hj Hy. destruct (decide (j = i)) as [->|Hne]; [|apply Hh; [lia|done]].
      rewrite Hsame, list_lookup_insert_eq in Hy by lia. by injection Hy as <-.
  - intros j y. destruct (decide (j = i)) as [->|Hne]; [rewrite list_lookup_insert_eq by lia; by intros [= <-]|].
    rewrite list_lookup_insert_ne by done. apply Hl.
  - rewrite length_insert. lia.
  - by rewrite length_insert.
Qed.

Lemma get_field t nm off tn fs x0 b fuel :
  fixed_type s t -> 0 <= Size ms t -> (forall j, refOf t = Some j -> ready j) -> type_fuel s t fuel ->
  lookup_name fs nm = Some x0 -> typed ms t x0 -> 0 <= off -> (Z.to_nat off + sz t <= List.length b)%nat ->
  agrees (checkType fuel ms (drop (Z.to_nat off) b) t)
    (exec_get call b (access ms t (PName nm) (OAt off) false) 0 (GStruct tn fs))
    (fun m' => exists x, m' = GStruct tn (assign_name fs nm x) /\ typed ms t x /\ holds ms (drop (Z.to_nat off) b) t x).
Proof using Hck Hnk Hget.
  intros Hty Hs Hready Hfuel Hx Ht H0 Hl.
  assert (Hst : forall x, store (GStruct tn fs) 0 (PName nm) x = Some (GStruct tn (assign_name fs nm x))).
  { intros x. cbn [store]. by rewrite Hx. }
  assert (Hlf : leaf t -> agrees (checkType fuel ms (drop (Z.to_nat off) b) t)
    (exec_get call b (access ms t (PName nm) (OAt off) false) 0 (GStruct tn fs))
    (fun m' => exists x, m' = GStruct tn (assign_name fs nm x) /\ typed ms t x /\ holds ms (drop (Z.to_nat off) b) t x)).
  { intros Hleaf. eapply agrees_impl; [|by eapply (get_leaf t (PName nm) (OAt off) 0); eauto].
    intros m' (x & Hm' & H). rewrite Hst in Hm'. injection Hm' as <-. by exists x. }
  destruct t as [k q|len elem q|name msg q]; [by apply Hlf| |by apply Hlf]. clear Hlf.
  destruct (elem_facts s Hck len elem q Hty) as (Hlen & He & Hse & Hef). inversion Ht as [| | | |? ? ? l Hll Hxs|]; subst.
  assert (Hleaf : leaf elem) by (destruct Hty as [Hok _]; by destruct elem).
  assert (Hrd : forall j, refOf elem = Some j -> ready j) by (intros j Hj; apply Hready; by destruct elem).
  destruct fuel as [|fuel]; [by destruct elem as [| |? []]; cbn in Hfuel; try lia; destruct Hfuel as (? & ? & ?)|].
  cbn [checkType access exec_get load]. rewrite Hx. cbn [range_of or_panic bind]. rewrite Nat2Z.id.
  rewrite <-(assign_same fs nm (GArr l) Hx) at 1.
  eapply agrees_impl; [|eapply (get_elems elem nm off tn fs l (List.length l) 0 b fuel); try done; auto].
  - intros m' (l' & -> & Hll' & Ht' & _ & Hh). exists (GArr l'). split_and!; [done| |].
    + constructor; [lia|done].
    + constructor; [lia|]. intros j x Hj. rewrite drop_drop. apply Hh; [lia|done].
  - apply lookup_name_is_Some. by exists (GArr l).
  - unfold sz in *. cbn [Size] in Hl. nia.
Qed.

(** The values of the fields of a struct of [m]. *)
Definition fields_typed (m : Message) (vs : list (string * gval)) : Prop :=
  fst <$> vs = names m /\
  forall f x, f ∈ m_fields m -> lookup_name vs (field_id (f_name f)) = Some x -> typed ms (f_type f) x.

Lemma fields_typed_assign i m vs f x :
  ms !! i = Some m -> fields_typed m vs -> f ∈ m_fields m -> typed ms (f_type f) x ->
  fields_typed m (assign_name vs (field_id (f_name f)) x).
Proof using Hck Hnk.
  intros Hm [Hk Ht] Hf Hx. split; [by rewrite assign_name_keys|]. intros g y Hg.
  destruct (decide (field_id (f_name f) = field_id (f_name g))) as [He|Hne].
  - assert (g = f) as ->.
    { symmetry. eapply (nodup_fmap_inj (fun f => field_id (f_name f))); [by eapply names_nodup|done..]. }
    rewrite lookup_assign by (rewrite Hk; by apply field_name_in). by intros [= <-].
  - rewrite lookup_assign_ne by done. by apply Ht.
Qed.

Lemma get_all i m l vs b fuel :
  ms !! i = Some m -> (forall f, f ∈ l -> f ∈ FixedFields m) -> NoDup ((fun f => field_id (f_name f)) <$> l) ->
  (forall f j, f ∈ m_fields m -> refOf (f_type f) = Some j -> ready j) -> message_fuel s i fuel ->
  (Z.to_nat (FixedSize m) <= List.length b)%nat -> fields_typed m vs ->
  agrees (check_fields (checkType fuel ms) b l)
    (exec_gets call b ((fun f => access ms (f_type f) (PName (field_id (f_name f))) (OAt (f_offset f)) false) <$> l)
       (GStruct (type_id (m_name m)) vs))
    (fun v' => exists vs', v' = GStruct (type_id (m_name m)) vs' /\ fields_typed m vs' /\
       (forall n, n ∉ (fun f => field_id (f_name f)) <$> l -> lookup_name vs' n = lookup_name vs n) /\
       forall f x, f ∈ l -> lookup_name vs' (field_id (f_name f)) = Some x ->
         holds ms (drop (Z.to_nat (f_offset f)) b) (f_type f) x).
Proof using Hck Hnk Hget.
  intros Hm Hl Hnd Hready Hfuel Hb. revert vs. induction l as [|f l IH]; intros vs Hvs; cbn [check_fields exec_gets fmap list_fmap].
  { eexists. split; [done|]. exists vs. split_and!; [done..|]. by intros f x ?%elem_of_nil. }
  rewrite fmap_cons in Hnd. apply list.NoDup_cons in Hnd as [Hni Hnd].
  assert (Hff : f ∈ FixedFields m) by (apply Hl; by left).
  destruct (field_facts s Hck i m f Hm Hff) as (Hty & H0 & Hle & Hs & Hfu). apply elem_fixed in Hff as [Hf _].
  fold ms in Hle, Hs. pose proof (fixed_size_nonneg s Hck i m Hm). rewrite from_spec by lia.
  destruct Hvs as [Hk Ht]. destruct (struct_field m vs f Hk Hf) as [x0 Hx0].
  eapply agrees_bind.
  { apply (get_field _ _ _ _ _ x0); [done|done|intros j; by apply Hready|by apply Hfu|done|by eapply Ht|done|unfold sz; lia]. }
  intros m' (x & -> & Htx & Hhx).
  eapply agrees_impl; [|apply IH; [intros; apply Hl; by right|done|by eapply fields_typed_assign]].
  intros v' (vs' & -> & Htv & Hsame & Hh). exists vs'. split_and!; [done..| |].
  - intros n Hn. rewrite elem_of_cons in Hn. rewrite Hsame by tauto. apply lookup_assign_ne. intros He. apply Hn. by left.
  - intros g y [->|Hg]%elem_of_cons Hy; [|by eapply Hh].
    rewrite Hsame, lookup_assign in Hy by (done || rewrite Hk; by apply field_name_in). by injection Hy as <-.
Qed.
End get.

Lemma fixed_names_nodup i m : ms !! i = Some m -> NoDup ((fun f => field_id (f_name f)) <$> FixedFields m).
Proof using Hck Hnk.
  intros Hm. eapply sublist_NoDup; [by eapply names_nodup|]. unfold names, FixedFields.
  induction (m_fields m) as [|f l IH]; cbn; [done|]. destruct (negb _); by constructor.
Qed.

Lemma ipcgenGet_ok fuel i m vs b fuel' :
  ms !! i = Some m -> fields_typed m vs -> message_fuel s i fuel -> message_fuel s i fuel' ->
  (Z.to_nat (FixedSize m) <= List.length b)%nat ->
  agrees (check_fields (checkType fuel' ms) b (FixedFields m)) (ipcgenGet (S fuel) ms (GStruct (type_id (m_name m)) vs) b)
    (fun v' => exists vs', v' = GStruct (type_id (m_name m)) vs' /\ fields_typed m vs' /\
       (forall f, f ∈ VarFields m -> lookup_name vs' (field_id (f_name f)) = lookup_name vs (field_id (f_name f))) /\
       holds_fixed b m v').
Proof using Hck Hnk.
  revert i m vs b fuel'. induction fuel as [|fuel IH]; intros i m vs b fuel' Hm Hvs Hfu Hfu' Hl.
  { destruct Hfu as (? & ? & _ & ?). lia. }
  change (ipcgenGet (S (S fuel)) ms ?v ?b) with
    (let! m := or_panic (struct_of ms v) in exec_gets (ipcgenGet (S fuel) ms) b (body ms m false) v).
  cbn [struct_of]. rewrite (named i m Hm). cbn [or_panic bind].
  eapply agrees_impl; [|eapply (get_all (ipcgenGet (S fuel) ms) (fun j => message_fuel s j fuel)) with (i := i)]; try done.
  - intros v' (vs' & -> & Ht & Hsame & Hh). exists vs'. split_and!; [done..| |].
    + intros f [Hf Hv]%list_elem_of_In%filter_In. apply list_elem_of_In in Hf. apply Hsame.
      intros (g & Hg & [Hgm Hgv]%elem_fixed)%list_elem_of_fmap.
      assert (f = g) as ->; [|congruence].
      by eapply (nodup_fmap_inj (fun f => field_id (f_name f))); [eapply names_nodup|..].
    + intros f x Hf Hx. by eapply Hh.
  - intros j m' v b' fuel'' Hj Hm' Hv Hf Hl'. destruct (value_of_struct j m' v Hm' Hv) as (fs & -> & _ & Hk & Hx).
    eapply agrees_impl; [|by eapply IH]. intros v' (vs' & -> & [Hk' Ht'] & _ & Hh). split; [|done].
    econstructor; [by eapply named|done..].
  - by eapply fixed_names_nodup.
  - intros f j Hf. by eapply ref_ready.
Qed.

(** ** The zero value *)

Lemma field_fuel i m f fuel : ms !! i = Some m -> f ∈ m_fields m -> message_fuel s i fuel -> type_fuel s (f_type f) fuel.
Proof using Hck Hnk.
  intros Hm Hf Hfu. destruct (field_IsVar f) eqn:Hv.
  - unfold field_IsVar in Hv. destruct (f_type f); try done. cbn. destruct Hfu as (? & ? & _ & ?). lia.
  - destruct (field_facts s Hck i m f Hm) as (_ & _ & _ & _ & H); [by apply elem_fixed|]. by apply H.
Qed.

Lemma zero_fields fuel i m :
  (forall t, type_ok ms t -> type_fuel s t fuel -> exists v, zero_of fuel ms t = Some v /\ typed ms t v) ->
  ms !! i = Some m -> message_fuel s i fuel ->
  exists vs, mapM (fun f => v ← zero_of fuel ms (f_type f); Some (field_id (f_name f), v)) (m_fields m) = Some vs /\
    fields_typed m vs.
Proof using Hck Hnk.
  intros Hz Hm Hfu.
  assert (Hgo : forall l, (forall f, f ∈ l -> f ∈ m_fields m) -> NoDup ((fun f => field_id (f_name f)) <$> l) ->
    exists vs, mapM (fun f => v ← zero_of fuel ms (f_type f); Some (field_id (f_name f), v)) l = Some vs /\
      fst <$> vs = (fun f => field_id (f_name f)) <$> l /\
      forall f x, f ∈ l -> lookup_name vs (field_id (f_name f)) = Some x -> typed ms (f_type f) x).
  { induction l as [|f l IH]; intros Hl Hnd; [exists []; split_and!; [done..|by intros f x ?%elem_of_nil]|].
    rewrite fmap_cons in Hnd. apply list.NoDup_cons in Hnd as [Hni Hnd].
    destruct (Hz (f_type f)) as (v & Hv & Ht).
    { apply (ck_types _ Hck i m f Hm). apply Hl. by left. }
    { eapply field_fuel; [done|apply Hl; by left|done]. }
    destruct IH as (vs & Hvs & Hk & Htv); [intros; apply Hl; by right|done|].
    exists ((field_id (f_name f), v) :: vs). cbn [mapM]. rewrite Hv. cbn [mbind option_bind]. rewrite Hvs. split_and!; [done| |].
    - rewrite !fmap_cons. by rewrite Hk.
    - intros g x Hg. rewrite lookup_name_cons. cbn [fst snd]. destruct (String.eqb_spec (field_id (f_name f)) (field_id (f_name g))) as [He|Hne].
      + intros [= <-]. apply elem_of_cons in Hg as [->|Hg]; [done|]. exfalso. apply Hni. rewrite He.
        apply list_elem_of_fmap. by exists g.
      + apply elem_of_cons in Hg as [->|Hg]; [done|]. by apply Htv. }
  destruct (Hgo (m_fields m)) as (vs & Hvs & Hk & Ht); [done|by eapply names_nodup|]. by exists vs.
Qed.

Lemma zero_of_typed fuel t :
  type_ok ms t -> type_fuel s t fuel -> exists v, zero_of fuel ms t = Some v /\ typed ms t v.
Proof using Hck Hnk.
  revert t. induction fuel as [|fuel IH]; intros t Hok Hf.
  { by destruct t as [|? [| |? []]|? []]; cbn in Hf; try lia; destruct Hf as (? & ? & ?). }
  destruct t as [k q|len elem q|name msg q]; cbn [zero_of].
  - destruct k; eexists; (split; [reflexivity|]); constructor; done || cbn; lia.
  - destruct (elem_facts s Hck len elem q) as (Hlen & He & _ & Hef); [by split|].
    destruct (IH elem (proj1 He) (Hef _ Hf)) as (v & Hv & Ht). rewrite Hv. cbn [mbind option_bind].
    eexists. split; [done|]. constructor; [rewrite length_replicate; lia|].
    intros j x [-> _]%lookup_replicate. done.
  - destruct (ref_named name msg q) as (j & m & -> & Hj & <- & Hn & _); [by split|]. destruct Hf as (fuel' & [= <-] & Hf).
    rewrite Hn. cbn [mbind option_bind]. destruct (zero_fields fuel j m IH Hj Hf) as (vs & Hvs & Hk & Ht).
    rewrite Hvs. eexists. split; [done|]. by econstructor.
Qed.

Lemma new_struct_ok i m :
  ms !! i = Some m -> exists vs, new_struct ms (m_name m) = Some (GStruct (type_id (m_name m)) vs) /\ fields_typed m vs.
Proof using Hck Hnk.
  intros Hm. destruct (zero_fields (fuel_for ms) i m) as (vs & Hvs & Ht); [intros; by apply zero_of_typed|done| |].
  - apply (message_fuel_enough s Hck). by eapply lookup_lt_Some.
  - exists vs. split; [|done]. unfold new_struct. cbn [zero_of]. rewrite (named i m Hm). cbn [mbind option_bind]. by rewrite Hvs.
Qed.

Lemma NewMessage_ok i m : ms !! i = Some m -> NewMessage ms (m_id m) = new_struct ms (m_name m).
Proof using Hck Hnk.
  intros Hm. unfold NewMessage. rewrite (find_unique m_id Z.eqb ms i m); [done|apply Z.eqb_eq| |done].
  apply (mo_ids _ (no_messages _ (ck_names _ Hck))).
Qed.

(** ** The variable fields *)

Lemma frames_inj l l' tl tl' :
  fits l -> fits l' -> List.length l = List.length l' -> frames l ++ tl = frames l' ++ tl' -> l = l'.
Proof using.
  revert l'. induction l as [|raw l IH]; intros [|raw' l'] Hf Hf' Hl He; try done.
  apply list.Forall_cons in Hf as [Hr Hf], Hf' as [Hr' Hf']. rewrite !frames_cons in He. unfold frame in He.
  rewrite <-!app_assoc in He. apply app_inj_1 in He as [Hn He]; [|by rewrite !length_le_split].
  apply le_split_inj in Hn; [|cbn; lia..]. apply app_inj_1 in He as [-> He]; [|lia]. f_equal.
  cbn in Hl. apply IH; [done|done|lia|done].
Qed.

Definition strings_valid (m : Message) (l : list (list byte)) : Prop :=
  Forall2 (fun f raw => match f_type f with TBasic KString _ => Valid raw = true | _ => True end) (VarFields m) l.

Lemma var_frame b off n :
  0 <= off -> off + 4 + n <= Z.of_nat (List.length b) -> n = le_combine (take 4 (drop (Z.to_nat off) b)) ->
  let raw := take (Z.to_nat n) (drop (Z.to_nat (off + 4)) b) in
  drop (Z.to_nat off) b = frame raw ++ drop (Z.to_nat (off + 4 + n)) b /\ Z.of_nat (List.length raw) = n /\ 0 <= n < 2 ^ 32.
Proof using.
  intros H0 Hl Hn raw. assert (H4 : List.length (take 4 (drop (Z.to_nat off) b)) = 4%nat).
  { rewrite length_take, length_drop. pose proof (le_combine_bound (take 4 (drop (Z.to_nat off) b))). lia. }
  pose proof (le_combine_bound (take 4 (drop (Z.to_nat off) b))) as Hb. rewrite H4, <-Hn in Hb. change (2 ^ (8 * Z.of_nat 4)) with (2 ^ 32) in Hb.
  assert (Hraw : Z.of_nat (List.length raw) = n) by (unfold raw; rewrite length_take, length_drop; lia).
  assert (Hsp : le_split 4 n = take 4 (drop (Z.to_nat off) b)) by (rewrite Hn, <-H4 at 1; apply split_le_combine).
  split_and!; [|done|lia..]. unfold frame. rewrite Hraw, Hsp. unfold raw.
  replace (Z.to_nat (off + 4 + n)) with (Z.to_nat (off + 4) + Z.to_nat n)%nat by lia.
  rewrite <-app_assoc, <-(drop_drop b), take_drop. replace (Z.to_nat (off + 4)) with (Z.to_nat off + 4)%nat by lia.
  by rewrite <-drop_drop, take_drop.
Qed.

Lemma var_typed f raw : field_IsVar f = true -> typed ms (f_type f) (GRaw raw).
Proof using. unfold field_IsVar. destruct (f_type f); try done. by constructor. Qed.

Lemma elem_var (m : Message) f : f ∈ VarFields m <-> f ∈ m_fields m /\ field_IsVar f = true.
Proof using. unfold VarFields. by rewrite list_elem_of_In, filter_In, <-list_elem_of_In. Qed.

Lemma getVars_agrees i m fs b off vs :
  ms !! i = Some m -> (forall f, f ∈ fs -> f ∈ VarFields m) -> NoDup ((fun f => field_id (f_name f)) <$> fs) ->
  0 <= off -> fields_typed m vs ->
  match check_vars b off fs with
  | Ok off' => exists vs' l, getVars b off fs (GStruct (type_id (m_name m)) vs) = Ok (GStruct (type_id (m_name m)) vs', off') /\
      fields_typed m vs' /\ fits l /\ drop (Z.to_nat off) b = frames l ++ drop (Z.to_nat off') b /\
      Forall2 (fun f raw => lookup_name vs' (field_id (f_name f)) = Some (GRaw raw)) fs l /\
      Forall2 (fun f raw => match f_type f with TBasic KString _ => Valid raw = true | _ => True end) fs l /\
      forall n, n ∉ (fun f => field_id (f_name f)) <$> fs -> lookup_name vs' n = lookup_name vs n
  | Error e => getVars b off fs (GStruct (type_id (m_name m)) vs) = Error e
  | _ => False
  end.
Proof using Hck Hnk.
  intros Hm. revert off vs. induction fs as [|f fs IH]; intros off vs Hfs Hnd H0 Hvs; cbn [check_vars getVars].
  { exists vs, []. split_and!; done || constructor. }
  rewrite fmap_cons in Hnd. apply list.NoDup_cons in Hnd as [Hni Hnd].
  destruct (elem_var m f) as [Hvar _]. destruct Hvar as [Hf Hv]; [apply Hfs; by left|].
  unfold ipcgenGetVar. destruct (Z.ltb_spec (Z.of_nat (List.length b) - off) 4) as [|Hl4]; [done|].
  rewrite from_spec by lia. rewrite (proj2 (Nat.leb_le _ _)) by (rewrite length_drop; lia). cbn [bind]. cbv zeta.
  set (n := le_combine (take 4 (drop (Z.to_nat off) b))).
  destruct (Z.ltb_spec (Z.of_nat (List.length b) - (off + 4)) n) as [|Hln]; [done|]. cbn [bind].
  destruct (var_frame b off n) as (Hd & Hraw & Hn); [done|lia|done|].
  set (raw := take (Z.to_nat n) (drop (Z.to_nat (off + 4)) b)) in *.
  assert (Hstore : store (GStruct (type_id (m_name m)) vs) 0 (PName (field_id (f_name f))) (GRaw raw) =
    Some (GStruct (type_id (m_name m)) (assign_name vs (field_id (f_name f)) (GRaw raw)))).
  { cbn [store]. destruct (struct_field m vs f (proj1 Hvs) Hf) as [x Hx]. by rewrite Hx. }
  rewrite Hstore. cbn [or_panic bind].
  assert (Hrest : match f_type f with TBasic KString _ => Valid raw = true | _ => True end ->
    match check_vars b (off + 4 + n) fs with
    | Ok off' => exists vs' l,
        getVars b (off + 4 + n) fs (GStruct (type_id (m_name m)) (assign_name vs (field_id (f_name f)) (GRaw raw))) =
          Ok (GStruct (type_id (m_name m)) vs', off') /\
        fields_typed m vs' /\ fits l /\ drop (Z.to_nat off) b = frames l ++ drop (Z.to_nat off') b /\
        Forall2 (fun f raw => lookup_name vs' (field_id (f_name f)) = Some (GRaw raw)) (f :: fs) l /\
        Forall2 (fun f raw => match f_type f with TBasic KString _ => Valid raw = true | _ => True end) (f :: fs) l /\
        forall n, n ∉ (fun f => field_id (f_name f)) <$> f :: fs -> lookup_name vs' n = lookup_name vs n
    | Error e => getVars b (off + 4 + n) fs (GStruct (type_id (m_name m)) (assign_name vs (field_id (f_name f)) (GRaw raw))) = Error e
    | _ => False
    end).
  { intros Hvalid. specialize (IH (off + 4 + n) (assign_name vs (field_id (f_name f)) (GRaw raw))).
    pose proof (IH ltac:(intros; apply Hfs; by right) Hnd ltac:(lia)
      ltac:(by eapply fields_typed_assign; [..|apply var_typed])) as Hr. clear IH.
    destruct (check_vars b (off + 4 + n) fs) as [off'| | |]; try done.
    destruct Hr as (vs' & l & Hg & Ht & Hfit & Hd' & Hlk & Hval & Hsame). exists vs', (raw :: l).
    split_and!; [done|done|constructor; [lia|done]| |constructor; [|done]|by constructor|].
    - by rewrite Hd, Hd', frames_cons, app_assoc.
    - rewrite Hsame by done. apply lookup_assign. rewrite (proj1 Hvs). by apply field_name_in.
    - intros k Hk. rewrite fmap_cons, elem_of_cons in Hk. rewrite Hsame by tauto. apply lookup_assign_ne. intros He. apply Hk. by left. }
  destruct (f_type f) as [[]| |]; try (by apply Hrest). destruct (Valid raw) eqn:Hvalid; [by apply Hrest|done].
Qed.

Lemma var_names_nodup i m : ms !! i = Some m -> NoDup ((fun f => field_id (f_name f)) <$> VarFields m).
Proof using Hck Hnk.
  intros Hm. eapply sublist_NoDup; [by eapply names_nodup|]. unfold names, VarFields.
  induction (m_fields m) as [|f l IH]; cbn; [done|]. destruct (field_IsVar f); by constructor.
Qed.

Lemma raws_lookup m vs l :
  Forall2 (fun f raw => lookup_name vs (field_id (f_name f)) = Some (GRaw raw)) (VarFields m) l ->
  raws m (GStruct (type_id (m_name m)) vs) = Some l.
Proof using.
  unfold raws. induction 1 as [|f raw fs l Hf _ IH]; [done|]. cbn [mapM raw_of]. rewrite Hf. cbn [mbind option_bind].
  cbn [mapM raw_of] in IH. by rewrite IH.
Qed.

(** The generated decoder does what the reference decoder does, and returns the value
    that the bytes hold. *)
(** The value that the bytes hold: the fixed fields, and the others after them. *)
Definition reads_from (b : list byte) (m : Message) (v : gval) : Prop :=
  value_of m v /\ holds_fixed b m v /\
  exists l, raws m v = Some l /\ fits l /\ strings_valid m l /\ drop (Z.to_nat (FixedSize m)) b = frames l.

(** Decoding into any value of the type. *)
Lemma unmarshal_ok i m vs b :
  ms !! i = Some m -> fields_typed m vs ->
  agrees (Decode ms m b)
    (if Z.of_nat (List.length b) <? FixedSize m then Error ErrShort
     else
       let! v := ipcgenGet (S (fuel_for ms)) ms (GStruct (type_id (m_name m)) vs) b in
       let! (v, off) := getVars b (FixedSize m) (VarFields m) v in
       if negb (off =? Z.of_nat (List.length b)) then Error ErrTrailing else Ok v)
    (reads_from b m).
Proof using Hck Hnk.
  intros Hm Hvs. pose proof (fixed_size_nonneg s Hck i m Hm) as H0.
  assert (Hfu : message_fuel s i (fuel_for ms)) by (apply (message_fuel_enough s Hck); by eapply lookup_lt_Some).
  unfold Decode. destruct (Z.ltb_spec (Z.of_nat (List.length b)) (FixedSize m)) as [|Hl]; [done|].
  eapply agrees_bind; [eapply (ipcgenGet_ok (fuel_for ms) i m vs b); [done..|lia]|].
  intros v' (vs' & -> & Hvs' & _ & Hh).
  pose proof (getVars_agrees i m (VarFields m) b (FixedSize m) vs' Hm ltac:(done) (var_names_nodup i m Hm) H0 Hvs') as Hg.
  destruct (check_vars b (FixedSize m) (VarFields m)) as [off| | |]; cbn [bind]; [|by rewrite Hg|done..].
  destruct Hg as (vs'' & l & -> & Hvs'' & Hfit & Hd & Hlk & Hval & Hsame). cbn [bind].
  destruct (Z.eqb_spec off (Z.of_nat (List.length b))) as [->|]; [|done]. cbn [negb agrees]. eexists. split; [done|].
  split_and!.
  - destruct Hvs''. econstructor; [by eapply named|done..].
  - intros f x Hf Hx. apply (Hh f x Hf). cbn [load] in *. rewrite <-Hsame; [done|].
    intros (g & Hg & [Hgm Hgv]%elem_var)%list_elem_of_fmap. apply elem_fixed in Hf as [Hf Hfv].
    assert (f = g) as ->; [|congruence]. by eapply (nodup_fmap_inj (fun f => field_id (f_name f))); [eapply names_nodup|..].
  - exists l. split_and!; [by apply raws_lookup|done|done|]. rewrite Hd, drop_ge by lia. apply app_nil_r.
Qed.

Lemma UnmarshalBinary_ok i m v b :
  ms !! i = Some m -> struct_of ms v = Some m ->
  agrees (Decode ms m b) (UnmarshalBinary ms v b)
    (reads_from b m).
Proof using Hck Hnk.
  intros Hm Hst. unfold UnmarshalBinary. rewrite Hst. cbn [or_panic bind].
  destruct (new_struct_ok i m Hm) as (vs & -> & Hvs). by apply (unmarshal_ok i).
Qed.

(** ** Round trip *)

(** The reference decoder accepts the bytes of a value. *)
Lemma holds_checked b t v :
  holds ms b t v -> forall fuel, typed ms t v -> fixed_type s t -> type_fuel s t fuel -> (sz t <= List.length b)%nat ->
  checkType fuel ms b t = Ok tt.
Proof using Hck Hnk.
  induction 1 as [b p x Hx|b k p v bits Hk Hb Ht|b len elem p l Hl _ IH|b name i p m fs Hm _ IH];
    intros [|fuel] Htv Hty Hf Hlen; try (cbn in Hf; lia).
  - cbn. destruct b as [|y b]; [done|]. cbn in Hx. injection Hx as ->. by destruct x.
  - cbn. by destruct k.
  - by destruct elem as [| |? []]; cbn in Hf; try lia; destruct Hf as (? & ? & ?).
  - cbn [checkType]. destruct (elem_facts s Hck len elem p Hty) as (H1 & He & Hs & Hef). apply Hef in Hf.
    inversion Htv as [| | | |? ? ? ? _ Hts|]; subst.
    assert (Hbuf : (List.length l * sz elem <= List.length b)%nat) by (unfold sz in *; cbn [Size] in Hlen; nia).
    rewrite Nat2Z.id.
    assert (Hgo : forall n i, (i + n = List.length l)%nat ->
      check_items (checkType fuel ms) (Size ms elem) elem b i n = Ok tt); [|by apply Hgo].
    induction n as [|n IHn]; intros i Hi; cbn [check_items]; [done|].
    assert (Hoff : Z.to_nat (Z.of_nat i * Size ms elem) = (i * sz elem)%nat) by (unfold sz; fold ms in Hs; lia).
    destruct (lookup_lt_is_Some_2 l i) as [e Hie]; [lia|].
    rewrite from_spec, Hoff by (fold ms in Hs; nia). rewrite (IH i e Hie); [|by eapply Hts|done..|rewrite length_drop; nia].
    apply IHn. lia.
  - by destruct i; cbn in Hf; try lia; destruct Hf as (? & ? & ?).
  - destruct (ref_named _ _ _ Hty) as (j & m' & -> & Hj & _ & Hn & Hfix). assert (m' = m) as -> by congruence.
    destruct Hf as (fuel' & [= <-] & Hf). cbn [checkType mbind option_bind]. rewrite Hj.
    inversion Htv as [| | | | |? ? ? m' ? Hm' Hk Hts]; subst. assert (m' = m) as -> by congruence.
    assert (Hbuf : (Z.to_nat (FixedSize m) <= List.length b)%nat) by (unfold sz in Hlen; cbn in Hlen; by rewrite Hj in Hlen).
    eapply (check_fields_ok s Hck); [exact Hj|exact Hbuf|]. intros f Hff.
    destruct (field_facts s Hck j m f Hj Hff) as (Ht & H0 & Hle & Hs & Hfu). apply elem_fixed in Hff as Hfm.
    destruct (struct_field m fs f Hk (proj1 Hfm)) as [x Hx].
    apply (IH f x Hff Hx); [by apply (Hts f x (proj1 Hfm))|done|by apply Hfu|rewrite length_drop; unfold sz; fold ms in Hle, Hs; lia].
Qed.

(** What the decoders ask of the bytes of a variable field. *)
Definition string_ok (f : Field) (raw : list byte) : bool :=
  match f_type f with TBasic KString _ => Valid raw | _ => true end.
Definition strings_ok (fs : list Field) (l : list (list byte)) : bool := forallb (fun p => string_ok p.1 p.2) (zip fs l).

Lemma strings_ok_valid (m : Message) l : List.length (VarFields m) = List.length l -> strings_ok (VarFields m) l = true <-> strings_valid m l.
Proof using.
  unfold strings_valid, strings_ok. generalize (VarFields m) as fs. intros fs. revert l.
  induction fs as [|f fs IH]; intros [|raw l] Hl; try done. cbn. rewrite andb_true_iff, IH by (cbn in Hl; lia).
  assert (Hs : string_ok f raw = true <-> match f_type f with TBasic KString _ => Valid raw = true | _ => True end)
    by (unfold string_ok; by destruct (f_type f) as [[]| |]). split.
  - intros [? ?]. constructor; [by apply Hs|done].
  - inversion 1; subst. split; [by apply Hs|done].
Qed.

Lemma check_vars_frames fs l pre :
  List.length fs = List.length l -> fits l ->
  check_vars (pre ++ frames l) (Z.of_nat (List.length pre)) fs =
    if strings_ok fs l then Ok (Z.of_nat (List.length (pre ++ frames l))) else Error ErrUTF8.
Proof using.
  revert l pre. induction fs as [|f fs IH]; intros [|raw l] pre Hl Hfit; try done; cbn [check_vars]; [cbn; by rewrite app_nil_r|].
  apply list.Forall_cons in Hfit as [Hr Hfit]. rewrite frames_cons.
  assert (Hd : drop (Z.to_nat (Z.of_nat (List.length pre))) (pre ++ frame raw ++ frames l) = frame raw ++ frames l).
  { by rewrite Nat2Z.id, drop_app_length. }
  assert (Hn : le_combine (take 4 (drop (Z.to_nat (Z.of_nat (List.length pre))) (pre ++ frame raw ++ frames l))) = Z.of_nat (List.length raw)).
  { rewrite Hd. unfold frame. rewrite <-app_assoc, take_app_length' by (by rewrite length_le_split).
    rewrite le_combine_split. apply Z.mod_small. change (2 ^ (Z.of_nat 4 * 8)) with (2 ^ 32). lia. }
  rewrite Hn. assert (Hlen : List.length (pre ++ frame raw ++ frames l) = (List.length pre + (4 + List.length raw) + List.length (frames l))%nat).
  { rewrite !length_app, length_frame. lia. }
  rewrite Hlen, (proj2 (Z.ltb_ge _ _)), (proj2 (Z.ltb_ge _ _)) by lia.
  assert (Hraw : take (Z.to_nat (Z.of_nat (List.length raw))) (drop (Z.to_nat (Z.of_nat (List.length pre) + 4)) (pre ++ frame raw ++ frames l)) = raw).
  { replace (Z.to_nat (Z.of_nat (List.length pre) + 4)) with (List.length pre + 4)%nat by lia. unfold frame.
    rewrite <-drop_drop, drop_app_length, <-app_assoc, drop_app_length' by (by rewrite length_le_split).
    by rewrite Nat2Z.id, take_app_length. }
  cbn in Hl. rewrite Hraw. specialize (IH l (pre ++ frame raw) ltac:(lia) Hfit). rewrite <-app_assoc, Hlen, (length_app pre), length_frame in IH.
  replace (Z.of_nat (List.length pre + (4 + List.length raw))) with (Z.of_nat (List.length pre) + 4 + Z.of_nat (List.length raw)) in IH by lia.
  change (strings_ok (f :: fs) (raw :: l)) with (string_ok f raw && strings_ok fs l). unfold string_ok.
  destruct (f_type f) as [[]| |]; try exact IH. by destruct (Valid raw).
Qed.

Lemma Decode_holds i m v l fixed :
  ms !! i = Some m -> value_of m v -> List.length fixed = Z.to_nat (FixedSize m) -> holds_fixed fixed m v ->
  fits l -> List.length (VarFields m) = List.length l ->
  Decode ms m (fixed ++ frames l) = (if strings_ok (VarFields m) l then Ok tt else Error ErrUTF8) /\ holds_fixed (fixed ++ frames l) m v.
Proof using Hck Hnk.
  intros Hm Hv Hlf Hh Hfit Hll. pose proof (fixed_size_nonneg s Hck i m Hm) as H0.
  destruct (value_of_struct i m v Hm Hv) as (fs & -> & _ & Hk & Hx).
  assert (Hh' : holds_fixed (fixed ++ frames l) m (GStruct (type_id (m_name m)) fs)).
  { intros f x Hf Hfx. destruct (field_facts s Hck i m f Hm Hf) as (Hty & Hof & Hle & Hs & _).
    eapply holds_local; [by apply Hh|done|]. apply inside_drop. unfold inside, sz. rewrite length_app.
    fold ms in Hle, Hs. split_and!; [lia..|]. intros k Hk'. apply lookup_app_l. lia. }
  split; [|done]. unfold Decode. rewrite length_app, (proj2 (Z.ltb_ge _ _)) by lia. unfold checkFixed.
  rewrite (check_fields_ok s Hck _ i m); [cbn [bind]|done|rewrite length_app; lia|].
  - replace (FixedSize m) with (Z.of_nat (List.length fixed)) by lia. rewrite check_vars_frames by done.
    destruct (strings_ok (VarFields m) l); cbn [bind]; [|done]. by rewrite length_app, Z.eqb_refl.
  - intros f Hf. destruct (field_facts s Hck i m f Hm Hf) as (Hty & Hof & Hle & Hs & Hfu).
    apply elem_fixed in Hf as Hfm. destruct (struct_field m fs f Hk (proj1 Hfm)) as [x Hfx].
    eapply holds_checked; [by apply Hh'|by eapply Hx; [apply Hfm|]|done| |rewrite length_drop, length_app; unfold sz; fold ms in Hle, Hs; lia].
    apply Hfu, (message_fuel_enough s Hck). by eapply lookup_lt_Some.
Qed.
End generated.
