(* ===== verification/GoCodec.v ===== *)
(** * The generated Go codec against the reference codec

    The theorems about the code of [src/ipcgen/internal/gen/golang.go]: round trip,
    agreement with [Decode] and [Encode] of the reference codec, and encoding into a
    buffer that is used again. *)

From stdpp Require Import base numbers list list_numbers option strings gmap.
From coqutil Require Import Byte Word.LittleEndianList.
From Stdlib Require Import ZArith Lia Bool String Ascii.
From S2P Require Import Prelude GoStd Schema Check CheckThm Layout RefCodec RefCodecThm GoGen GoGenThm.

#[local] Open Scope Z_scope.
#[local] Set Warnings "-register-all".
#[local] Open Scope codec_scope.

(** ** JSON values and Go values *)

(** [g] is the Go value of the JSON value [v] of type [t]. *)
Inductive denotes {N : Naming} (ms : list Message) : Typ -> value -> gval -> Prop :=
| D_bool p x : denotes ms (TBasic KBool p) (VBool x) (GBool x)
| D_number k p v g bits :
    k <> KBool -> scalarBits k v = inr bits -> bits_of k g = Some (bits mod 2 ^ (8 * ScalarSize k)) ->
    denotes ms (TBasic k p) v g
| D_array len elem p arr l :
    List.length arr = List.length l -> (forall j a x, arr !! j = Some a -> l !! j = Some x -> denotes ms elem a x) ->
    denotes ms (TArray len elem p) (VArray arr) (GArr l)
| D_ref name i p m obj fs :
    type_named ms (type_id name) = Some m ->
    (forall f x, f ∈ FixedFields m -> lookup_name fs (field_id (f_name f)) = Some x ->
       denotes ms (f_type f) (get obj (f_name f)) x) ->
    denotes ms (TRef name i p) (VObject obj) (GStruct (type_id name) fs).

(** The same of a message: the fixed fields, and the bytes of the others. *)
Definition denotes_message {N : Naming} (ms : list Message) (m : Message) (v : value) (g : gval) : Prop :=
  exists obj l, v = VObject obj /\ raws m g = Some l /\
    (forall f x, f ∈ FixedFields m -> load g 0 (PName (field_id (f_name f))) = Some x ->
       denotes ms (f_type f) (get obj (f_name f)) x) /\
    Forall2 (fun f raw => varBytes f (get obj (f_name f)) [PField (m_name m); PField (f_name f)] = Ok raw) (VarFields m) l.

(** ** Writes at an offset *)

Lemma sub_Ok {E} b off (f : list byte -> res E (list byte)) b' :
  sub b off f = Ok b' -> 0 <= off <= Z.of_nat (List.length b) /\
    exists tl, f (drop (Z.to_nat off) b) = Ok tl /\ b' = take (Z.to_nat off) b ++ tl.
Proof.
  unfold sub. destruct (Z.leb_spec 0 off); [|done]. destruct (Z.leb_spec off (Z.of_nat (List.length b))); [|done]. cbn [andb].
  destruct (f _) as [tl| | |]; cbn [bind]; try done. intros [= <-]. eauto.
Qed.

Lemma sub_intro {E} b off (f : list byte -> res E (list byte)) tl :
  0 <= off <= Z.of_nat (List.length b) -> f (drop (Z.to_nat off) b) = Ok tl -> sub b off f = Ok (take (Z.to_nat off) b ++ tl).
Proof. intros [H0 H1] Hf. unfold sub. rewrite (proj2 (Z.leb_le _ _) H0), (proj2 (Z.leb_le _ _) H1). cbn [andb]. by rewrite Hf. Qed.

Lemma le_split_mod n x : le_split n (x mod 2 ^ (8 * Z.of_nat n)) = le_split n x.
Proof.
  rewrite Z.mul_comm, <-le_combine_split. rewrite <-(length_le_split n x) at 1. apply split_le_combine.
Qed.

Lemma write_any {E E'} b bytes r : write (E := E) b bytes = Ok r -> write (E := E') b bytes = Ok r.
Proof. unfold write. destruct (_ <=? _)%nat; [|done]. by intros [= <-]. Qed.

Section lockstep.
Context {N : Naming} (s : Schema) (Hck : checked s) (Hnk : naming_ok s).
Let ms := s_messages s.

(** ** The generated encoder writes what the reference encoder writes *)

Section put.
Context (call : gval -> list byte -> res unit (list byte)) (ready : nat -> Prop).

Hypothesis Hcall : forall j m v obj b b' p fuel, ready j -> ms !! j = Some m -> value_of s m v ->
  (forall f x, f ∈ FixedFields m -> load v 0 (PName (field_id (f_name f))) = Some x ->
     denotes ms (f_type f) (get obj (f_name f)) x) ->
  put_fields (put fuel ms) obj p b (FixedFields m) = Ok b' -> call v b = Ok b'.

Lemma lock_leaf t pl o i m x b b' fuel v p :
  leaf t -> fixed_type s t -> (forall j, refOf t = Some j -> ready j) ->
  load m i pl = Some x -> typed ms t x -> denotes ms t v x ->
  sub b (offset_at o i) (fun b => put fuel ms b t v p) = Ok b' ->
  exec_put call m (access ms t pl o true) i b = Ok b'.
Proof using Hck Hnk Hcall.
  intros Hleaf Hty Hready Hx Ht Hd (Hoff & tl & Hput & ->)%sub_Ok. destruct fuel as [|fuel]; [done|].
  inversion Hd as [q y|k q v' g bits Hk Hb Hg|? ? ? ? ? ? ?|name i' q m' obj fs Hn Hfs]; subst; [| |done|].
  - cbn [access exec_put]. rewrite Hx. cbn [put] in Hput. destruct y; [apply sub_intro; [done|by eapply write_any]|].
    injection Hput as <-. by rewrite take_drop.
  - assert (Hgo : (let! bits := or_panic (load m i pl ≫= bits_of k) in
       sub b (offset_at o i) (fun b => write b (le_split (Z.to_nat (ScalarSize k)) bits))) =
       (Ok (take (Z.to_nat (offset_at o i)) b ++ tl) : res unit (list byte))).
    { rewrite Hx. cbn [mbind option_bind]. rewrite Hg. cbn [or_panic bind]. apply sub_intro; [done|].
      rewrite <-scalar_width, le_split_mod. cbn [put] in Hput. rewrite Hb in Hput.
      destruct k; done || by eapply write_any. }
    destruct k; try done; exact Hgo.
  - destruct (ref_named s Hck Hnk _ _ _ Hty) as (j & m'' & -> & Hj & <- & Hnm & _). fold ms in Hj, Hnm. assert (m'' = m') as -> by congruence.
    cbn [access exec_put]. rewrite Hx. cbn [or_panic bind]. apply sub_intro; [done|].
    cbn [put mbind option_bind] in Hput. rewrite Hj in Hput. unfold put_message in Hput.
    destruct (checkKeys m' obj p) as [[]| | |]; try done. cbn [bind] in Hput.
    eapply (Hcall j m'); [by apply Hready|done|by apply value_of_typed in Ht|exact Hfs|exact Hput].
Qed.

Lemma lock_items elem nm off m l arr n i b b' fuel p :
  leaf elem -> fixed_type s elem -> (forall j, refOf elem = Some j -> ready j) -> 0 <= off -> 0 <= Size ms elem ->
  load m 0 (PName nm) = Some (GArr l) -> (forall j x, l !! j = Some x -> typed ms elem x) ->
  (forall j a x, arr !! j = Some a -> l !! (i + j)%nat = Some x -> denotes ms elem a x) ->
  List.length arr = n -> (i + n)%nat = List.length l -> off <= Z.of_nat (List.length b) ->
  sub b off (fun b => put_items (put fuel ms) (Size ms elem) elem p b i arr) = Ok b' ->
  for_range (fun i b => exec_put call m (access ms elem (PElem (PName nm)) (OPlus (OAt off) (Size ms elem)) true) i b) i n b = Ok b'.
Proof using Hck Hnk Hcall.
  intros Hleaf Hty Hready H0 Hs Hm Hl Hd Hn Hil. revert n i b Hd Hn Hil.
  induction arr as [|a arr IH]; intros n i b Hd <- Hil Hb Hsub; cbn [List.length for_range put_items] in *.
  - apply sub_Ok in Hsub as (_ & tl & [= <-] & ->). by rewrite take_drop.
  - apply sub_Ok in Hsub as (_ & tl & Hput & ->).
    destruct (sub _ _ _) as [b1| | |] eqn:Hb1; cbn [bind] in Hput; try done.
    apply sub_Ok in Hb1 as ([Hi0 Hi1] & tl1 & Hp1 & ->).
    destruct (lookup_lt_is_Some_2 l i) as [x Hx]; [lia|]. rewrite length_drop in Hi1.
    set (o := OPlus (OAt off) (Size ms elem)).
    set (b2 := take (Z.to_nat off) b ++ take (Z.to_nat (Z.of_nat i * Size ms elem)) (drop (Z.to_nat off) b) ++ tl1).
    assert (Hoff : Z.to_nat (offset_at o i) = (Z.to_nat off + Z.to_nat (Z.of_nat i * Size ms elem))%nat) by (cbn; lia).
    assert (Hexec : exec_put call m (access ms elem (PElem (PName nm)) o true) i b = Ok b2).
    { eapply (lock_leaf _ _ _ _ _ x); [done..|by rewrite (load_elem _ _ _ l)|by eapply Hl| |].
      - apply (Hd 0%nat a x); [done|]. by rewrite Nat.add_0_r.
      - assert (He : b2 = take (Z.to_nat (offset_at o i)) b ++ tl1).
        { unfold b2. by rewrite Hoff, app_assoc, take_take_drop. }
        rewrite He. eapply sub_intro; [cbn; lia|]. rewrite Hoff, <-drop_drop. exact Hp1. }
    rewrite Hexec. cbn [bind]. rewrite Nat.add_1_r. apply (IH _ (S i)); [|done|lia| |].
    + intros j a' x' Ha Hx'. apply (Hd (S j) a' x'); [done|]. by replace (i + S j)%nat with (S i + j)%nat by lia.
    + unfold b2. rewrite !length_app, length_take. lia.
    + assert (Ht : List.length (take (Z.to_nat off) b) = Z.to_nat off) by (rewrite length_take; lia).
      unfold b2. rewrite (sub_intro _ _ _ tl); [|rewrite length_app, Ht; lia|].
      * by rewrite take_app_length'.
      * by rewrite drop_app_length'.
Qed.

Lemma lock_field t nm off m x b b' fuel v p :
  fixed_type s t -> (forall j, refOf t = Some j -> ready j) -> load m 0 (PName nm) = Some x -> typed ms t x ->
  denotes ms t v x -> sub b off (fun b => put fuel ms b t v p) = Ok b' ->
  exec_put call m (access ms t (PName nm) (OAt off) true) 0 b = Ok b'.
Proof using Hck Hnk Hcall.
  intros Hty Hready Hx Ht Hd Hsub. destruct t as [k q|len elem q|name msg q]; [by eapply lock_leaf| |by eapply lock_leaf].
  destruct (elem_facts s Hck len elem q Hty) as (Hlen & He & Hse & _). inversion Ht as [| | | |? ? ? l Hll Hxs|]; subst.
  inversion Hd as [| |? ? ? arr ? Har Hall|]; subst.
  assert (Hleaf : leaf elem) by (destruct Hty as [Hok _]; by destruct elem).
  assert (Hrd : forall j, refOf elem = Some j -> ready j) by (intros j Hj; apply Hready; by destruct elem).
  cbn [access exec_put]. rewrite Hx. cbn [range_of or_panic bind].
  apply sub_Ok in Hsub as ([H0 H1] & tl & Hput & ->). destruct fuel as [|fuel]; [done|]. cbn [put] in Hput.
  destruct (_ =? _); [|done].
  eapply (lock_items elem nm off m l arr (List.length l) 0 b _ fuel p); try done.
  by apply sub_intro.
Qed.

Lemma lock_fields v obj fs b b' fuel p :
  (forall f, f ∈ fs -> fixed_type s (f_type f) /\ (forall j, refOf (f_type f) = Some j -> ready j) /\
     exists x, load v 0 (PName (field_id (f_name f))) = Some x /\ typed ms (f_type f) x /\
       denotes ms (f_type f) (get obj (f_name f)) x) ->
  put_fields (put fuel ms) obj p b fs = Ok b' ->
  exec_puts call v ((fun f => access ms (f_type f) (PName (field_id (f_name f))) (OAt (f_offset f)) true) <$> fs) b = Ok b'.
Proof using Hck Hnk Hcall.
  revert b. induction fs as [|f fs IH]; intros b Hfs Hput; cbn [put_fields fmap list_fmap exec_puts] in *; [by injection Hput as <-|].
  destruct (Hfs f) as (Hty & Hready & x & Hx & Ht & Hd); [by left|].
  destruct (sub b (f_offset f) _) as [b1| | |] eqn:Hb1; cbn [bind] in Hput; try done.
  rewrite (lock_field _ _ _ _ x _ b1 fuel _ _ Hty Hready Hx Ht Hd Hb1). cbn [bind].
  apply IH; [intros g Hg; apply Hfs; by right|done].
Qed.
End put.

Lemma lock_message gofuel i m v obj b b' fuel p :
  ms !! i = Some m -> value_of s m v -> message_fuel s i gofuel ->
  (forall f x, f ∈ FixedFields m -> load v 0 (PName (field_id (f_name f))) = Some x ->
     denotes ms (f_type f) (get obj (f_name f)) x) ->
  put_fields (put fuel ms) obj p b (FixedFields m) = Ok b' -> ipcgenPut (S gofuel) ms v b = (Ok b' : res unit _).
Proof using Hck Hnk.
  revert i m v obj b b' fuel p. induction gofuel as [|gofuel IH]; intros i m v obj b b' fuel p Hm Hv Hfu Hd Hput.
  { destruct Hfu as (? & ? & _ & ?). lia. }
  destruct (value_of_struct s Hck Hnk i m v Hm Hv) as (fs & -> & Hst & Hk & Hx).
  change (ipcgenPut (S (S gofuel)) ms ?v ?b) with
    (let! m := or_panic (struct_of ms v) in exec_puts (E := unit) (ipcgenPut (S gofuel) ms) v (body ms m true) b).
  fold ms in Hst. rewrite Hst. cbn [or_panic bind].
  eapply (lock_fields (ipcgenPut (S gofuel) ms) (fun j => message_fuel s j gofuel)); [|intros f Hf|exact Hput].
  - intros j m' v' obj' b1 b2 p' fuel' Hj Hm' Hv' Hd' Hput'. by eapply IH.
  - destruct (field_facts s Hck i m f Hm Hf) as (Hty & _). apply elem_fixed in Hf as Hfm.
    destruct (struct_field m fs f Hk (proj1 Hfm)) as [x Hfx].
    split_and!; [done|intros j; by eapply (ref_ready s Hck Hnk); [|apply Hfm|]|].
    exists x. split_and!; [done|by apply (Hx f x (proj1 Hfm))|by apply Hd].
Qed.

(** ** The generated decoder reads what the reference encoder wrote *)

Lemma represents_denotes b t v g :
  represents ms b t v -> holds ms b t g -> typed ms t g -> fixed_type s t -> denotes ms t v g.
Proof using Hck Hnk.
  intros H. revert g. induction H as [b p x Hx|b k p v bits Hk Hb Ht|b len elem p arr Hl _ IH|b name i p m obj Hm _ IH];
    intros g Hg Htg Hty.
  - inversion Htg; subst; try done. inversion Hg as [? ? ? Hy| | |]; subst; [|done]. rewrite Hx in Hy.
    assert (x = x0) as -> by (by destruct x, x0). constructor.
  - destruct (bits_of_typed ms k p g Htg (proj2 Hty) Hk) as (bits' & Hb' & _ & Hr).
    inversion Hg as [|? ? ? ? bits'' _ Hb'' Ht'| |]; subst; try done. assert (bits'' = bits') as -> by congruence.
    econstructor; [done..|]. rewrite Hb'. f_equal. rewrite Ht in Ht'. rewrite <-scalar_width in Hr |- *.
    rewrite <-(le_split_mod _ bits) in Ht'. symmetry. eapply le_split_inj; [exact Ht'|apply Z.mod_pos_bound; lia|done].
  - inversion Htg as [| | | |? ? ? l Hll Hts|]; subst. inversion Hg as [| |? ? ? ? ? _ Hh|]; subst.
    destruct (elem_facts s Hck _ elem p Hty) as (_ & He & _). constructor; [lia|]. intros j a x Ha Hx.
    eapply IH; eauto.
  - destruct (ref_named s Hck Hnk _ _ _ Hty) as (j & m' & [= <-] & Hj & <- & Hnm & _). fold ms in Hj, Hnm.
    assert (m' = m) as -> by congruence.
    inversion Htg as [| | | | |? ? ? m1 fs Hm1 Hk Hts]; subst. inversion Hg as [| | |? ? ? ? m2 ? Hm2 Hh]; subst.
    assert (m1 = m) as -> by congruence. assert (m2 = m) as -> by congruence.
    econstructor; [done|]. intros f x Hf Hx. apply elem_fixed in Hf as Hfm.
    destruct (field_facts s Hck i m f Hm Hf) as (Hft & _).
    apply (IH f Hf x); [by apply Hh|by apply (Hts f x (proj1 Hfm))|done].
Qed.
End lockstep.

(** ** Theorems *)

Section theorems.
Context {N : Naming} (s : Schema) (Hck : checked s) (Hnk : naming_ok s).
Let ms := s_messages s.

(** The two parts of what [Encode] returns. *)
Lemma Encode_parts i m v b :
  ms !! i = Some m -> Encode ms m v = Ok b ->
  exists obj fixed l, v = VObject obj /\ List.length fixed = Z.to_nat (FixedSize m) /\
    put_fields (put (fuel_for ms) ms) obj [PField (m_name m)] (replicate (Z.to_nat (FixedSize m)) Byte.x00) (FixedFields m) = Ok fixed /\
    (forall f, f ∈ FixedFields m -> represents ms (drop (Z.to_nat (f_offset f)) b) (f_type f) (get obj (f_name f))) /\
    Forall2 (fun f raw => varBytes f (get obj (f_name f)) [PField (m_name m); PField (f_name f)] = Ok raw) (VarFields m) l /\
    b = fixed ++ frames l.
Proof using Hck Hnk.
  intros Hm He. destruct v as [| | | | |obj]; try done. cbn [Encode] in He. unfold putFixed in He.
  set (b0 := replicate (Z.to_nat (FixedSize m)) Byte.x00) in *. set (p := [PField (m_name m)]) in *.
  assert (Hw : writes b0 0 (Z.to_nat (FixedSize m))
    (fun b' => forall f, f ∈ FixedFields m ->
       represents ms (drop (Z.to_nat (f_offset f)) b') (f_type f) (get obj (f_name f)))
    (put_message (put (fuel_for ms) ms) m obj p b0)).
  { eapply (put_message_ok s Hck); [intros; by apply (put_ok s Hck)|exact Hm| | |].
    - apply (message_fuel_enough s Hck). by eapply lookup_lt_Some.
    - unfold b0. by rewrite length_replicate.
    - intros k Hk. apply lookup_replicate. split; [done|lia]. }
  destruct (put_message _ m obj p b0) as [fixed| | |] eqn:Hput; cbn [bind] in He; try done. destruct Hw as [[Hlen _] Hr].
  unfold b0 in Hlen. rewrite length_replicate in Hlen. destruct (put_vars_shape _ _ _ _ _ He) as (l & Hraws & ->).
  exists obj, fixed, l. split_and!; try done.
  - unfold put_message in Hput. by destruct (checkKeys m obj p) as [[]| | |].
  - intros f Hf. apply (represents_app s Hck i m obj); [done..|by apply Hr].
Qed.

Lemma value_unique i m b v v' l :
  ms !! i = Some m -> value_of s m v -> value_of s m v' -> holds_fixed s b m v -> holds_fixed s b m v' ->
  raws m v = Some l -> raws m v' = Some l -> v = v'.
Proof using Hck Hnk.
  intros Hm Hv Hv' Hh Hh' Hl Hl'.
  destruct (raws_Some s Hck Hnk i m v Hm Hv) as (l1 & H1 & HF). destruct (raws_Some s Hck Hnk i m v' Hm Hv') as (l2 & H2 & HF').
  assert (l1 = l) as -> by congruence. assert (l2 = l) as -> by congruence.
  destruct (value_of_struct s Hck Hnk i m v Hm Hv) as (fs & -> & _ & Hk & Hx).
  destruct (value_of_struct s Hck Hnk i m v' Hm Hv') as (fs' & -> & _ & Hk' & Hx'). f_equal.
  apply struct_ext; [congruence|rewrite Hk; by eapply names_nodup|]. rewrite Hk.
  intros n (f & -> & Hf)%list_elem_of_fmap. destruct (struct_field m fs f Hk Hf) as [x Hfx].
  destruct (struct_field m fs' f Hk' Hf) as [x' Hfx']. destruct (field_IsVar f) eqn:Hvar.
  - destruct (list_elem_of_lookup (VarFields m) f) as [[j Hj] _]; [by apply elem_var|].
    destruct (Forall2_lookup_l _ _ _ _ _ HF Hj) as (raw & Hr & Hraw).
    destruct (Forall2_lookup_l _ _ _ _ _ HF' Hj) as (raw' & Hr' & Hraw'). cbn [load] in Hraw, Hraw'. congruence.
  - assert (Hff : f ∈ FixedFields m) by (by apply elem_fixed). rewrite Hfx, Hfx'. f_equal.
    destruct (field_facts s Hck i m f Hm Hff) as (Hty & _).
    eapply (holds_unique s Hck Hnk); [by apply (Hx f)|by apply (Hx' f)|done|by apply Hh|by apply Hh'].
Qed.

(** What [MarshalBinary] returns, and that [MarshalTo] writes the same. *)
Lemma MarshalBinary_ok i m v l :
  ms !! i = Some m -> value_of s m v -> raws m v = Some l -> fits l ->
  exists fixed, List.length fixed = Z.to_nat (FixedSize m) /\ holds_fixed s fixed m v /\
    ipcgenPut (E := unit) (S (fuel_for ms)) ms v (replicate (Z.to_nat (FixedSize m)) Byte.x00) = Ok fixed /\
    MarshalBinary ms v = Ok (fixed ++ frames l) /\
    forall b, msg_Size m l <= Z.of_nat (List.length b) ->
      MarshalTo ms v b = (Ok ((fixed ++ frames l) ++ drop (Z.to_nat (msg_Size m l)) b, msg_Size m l) : res unit _).
Proof using Hck Hnk.
  intros Hm Hv Hl Hfit. destruct (ipcgenMarshal_ok (E := unit) s Hck Hnk i m v l Hm Hv Hl Hfit) as (fixed & Hlen & Hh & Hput & Hmar).
  pose proof (fixed_size_nonneg s Hck i m Hm) as H0. exists fixed. split_and!; [done..| |].
  - destruct (value_of_struct s Hck Hnk i m v Hm Hv) as (fs & Hv' & Hst & _). unfold MarshalBinary. fold ms in Hst.
    rewrite Hst. cbn [or_panic bind]. rewrite Hl. cbn [or_panic bind]. rewrite (proj1 (fits_forallb l) Hfit). cbn [negb].
    rewrite Hmar by (rewrite length_replicate, msg_Size_frames; lia). cbn [bind].
    by rewrite drop_ge, app_nil_r by (rewrite length_replicate; lia).
  - intros b Hb. unfold MarshalTo. fold ms in Hmar. rewrite Hmar by done. cbn [bind]. by rewrite app_assoc.
Qed.

(** Any message of the type reads the value back, unless a string is not valid. *)
Lemma reads_back i m v l :
  ms !! i = Some m -> value_of s m v -> raws m v = Some l -> fits l ->
  exists b, MarshalBinary ms v = Ok b /\ forall e, struct_of ms e = Some m ->
    UnmarshalBinary ms e b = if strings_ok (VarFields m) l then Ok v else Error ErrUTF8.
Proof using Hck Hnk.
  intros Hm Hv Hl Hfit. destruct (MarshalBinary_ok i m v l Hm Hv Hl Hfit) as (fixed & Hlen & Hh & _ & Hmar & _).
  destruct (raws_Some s Hck Hnk i m v Hm Hv) as (l1 & H1 & HF). assert (l1 = l) as -> by congruence. apply Forall2_length in HF as Hll.
  exists (fixed ++ frames l). split; [done|]. intros e Hst.
  destruct (Decode_holds s Hck Hnk i m v l fixed Hm Hv Hlen Hh Hfit Hll) as [Hdec Hh'].
  pose proof (UnmarshalBinary_ok s Hck Hnk i m e (fixed ++ frames l) Hm Hst) as Hu.
  rewrite Hdec in Hu. destruct (strings_ok (VarFields m) l); [|exact Hu].
  destruct Hu as (v' & Hu & Hv'' & Hh'' & l' & Hl' & Hfit' & Hval' & Hd). fold ms in Hu. rewrite Hu. f_equal.
  rewrite drop_app_length' in Hd by done.
  assert (l' = l) as ->.
  { symmetry. apply (frames_inj _ _ [] []); [done..| |by rewrite Hd].
    by rewrite <-Hll, <-(Forall2_length _ _ _ Hval'). }
  by eapply (value_unique i m (fixed ++ frames l)).
Qed.

(** Bytes hold one value. *)
Lemma reads_from_unique i m b v v' : ms !! i = Some m -> reads_from s b m v -> reads_from s b m v' -> v = v'.
Proof using Hck Hnk.
  intros Hm (Hv & Hh & l & Hl & Hfit & Hval & Hd) (Hv' & Hh' & l' & Hl' & Hfit' & Hval' & Hd').
  assert (l' = l) as ->.
  { apply (frames_inj _ _ [] []); [done..| |by rewrite <-Hd', Hd].
    by rewrite <-(Forall2_length _ _ _ Hval'), <-(Forall2_length _ _ _ Hval). }
  by eapply (value_unique i m b).
Qed.

(** The reference encoder and the generated code agree on a value, and so does every
    decoder that agrees with the reference decoder. *)
Lemma encodes_as_reference i m v b :
  ms !! i = Some m -> Encode ms m v = Ok b -> Z.of_nat (List.length b) < 2 ^ 32 ->
  exists g l, value_of s m g /\ raws m g = Some l /\ fits l /\ denotes_message ms m v g /\ MarshalBinary ms g = Ok b /\
    forall r, agrees (Decode ms m b) r (reads_from s b m) -> r = Ok g.
Proof using Hck Hnk.
  intros Hm He Hlt. pose proof (Encode_accepted s i m v b Hck Hm He Hlt) as Hdec.
  destruct (Encode_parts i m v b Hm He) as (obj & fixed & raw & Hv & Hlen & Hput & Hr & Hvar & Hb).
  destruct (new_struct_ok s Hck Hnk i m Hm) as (vs & Hnew & _).
  pose proof (UnmarshalBinary_ok s Hck Hnk i m (GStruct (type_id (m_name m)) vs) b Hm (named s Hck Hnk i m Hm)) as Hu.
  rewrite Hdec in Hu. destruct Hu as (g & Hu & Hrf). pose proof Hrf as (Hg & Hh & l & Hl & Hfit & Hval & Hd).
  rewrite Hb, drop_app_length' in Hd by done.
  assert (Hfr : fits raw).
  { unfold fits. apply list.Forall_forall. intros r Hin.
    assert (Hle : (List.length r <= List.length (frames raw))%nat).
    { clear -Hin. induction raw as [|r' raw IH]; [by apply elem_of_nil in Hin|]. rewrite frames_cons, length_app, length_frame.
      apply elem_of_cons in Hin as [->|Hin]; [lia|]. specialize (IH Hin). lia. }
    rewrite Hb, length_app in Hlt. lia. }
  assert (raw = l) as ->.
  { apply (frames_inj _ _ [] []); [done..| |by rewrite Hd].
    by rewrite <-(Forall2_length _ _ _ Hvar), <-(Forall2_length _ _ _ Hval). }
  assert (Hden : forall f x, f ∈ FixedFields m -> load g 0 (PName (field_id (f_name f))) = Some x ->
    denotes ms (f_type f) (get obj (f_name f)) x).
  { intros f x Hf Hx. destruct (field_facts s Hck i m f Hm Hf) as (Hty & _). apply elem_fixed in Hf as Hfm.
    destruct (value_of_struct s Hck Hnk i m g Hm Hg) as (fs & -> & _ & Hk & Hts).
    eapply (represents_denotes s Hck Hnk); [by apply Hr|by apply Hh|by apply (Hts f x (proj1 Hfm))|done]. }
  exists g, l. split_and!; [done..|by exists obj, l| |].
  - destruct (MarshalBinary_ok i m g l Hm Hg Hl Hfit) as (fixed' & _ & _ & Hput' & -> & _). rewrite Hb. do 2 f_equal.
    assert (Hsame : ipcgenPut (S (fuel_for ms)) ms g (replicate (Z.to_nat (FixedSize m)) Byte.x00) = (Ok fixed : res unit _)).
    { eapply (lock_message s Hck Hnk _ i m); [done..| |exact Hden|exact Hput].
      apply (message_fuel_enough s Hck). by eapply lookup_lt_Some. }
    rewrite Hsame in Hput'. by injection Hput'.
  - intros r Hag. unfold ms in Hag. rewrite Hdec in Hag. destruct Hag as (g' & -> & Hrf'). f_equal. by eapply reads_from_unique.
Qed.
End theorems.

(** ** The generated Go *)

#[local] Existing Instance go_naming.

(** C4: on a schema that [Check] accepted, the generated [MarshalBinary] encodes every
    value whose strings and byte slices are shorter than 4 GiB. If its strings are valid
    UTF-8, [UnmarshalBinary] of the message that [NewMessage] returns for its type ID reads
    the same value back, where a nil byte slice comes back as an empty one; if one is not,
    [UnmarshalBinary] returns [errIpcgenUTF8]. *)
Theorem go_roundtrip (s : Schema) (i : nat) (m : Message) (v : gval) (l : list (list byte)) :
  checked s -> s_messages s !! i = Some m -> value_of s m v -> raws m v = Some l -> fits l ->
  exists b empty, MarshalBinary (s_messages s) v = Ok b /\ TypeID (s_messages s) v = Some (m_id m) /\
    NewMessage (s_messages s) (m_id m) = Some empty /\
    (strings_valid m l -> UnmarshalBinary (s_messages s) empty b = Ok v) /\
    (~ strings_valid m l -> UnmarshalBinary (s_messages s) empty b = Error ErrUTF8).
Proof.
  intros Hck Hm Hv Hl Hfit. destruct (reads_back s Hck (go_naming_ok s Hck) i m v l Hm Hv Hl Hfit) as (b & Hmar & Hu).
  destruct (new_struct_ok s Hck (go_naming_ok s Hck) i m Hm) as (vs & Hnew & _). exists b, (GStruct (type_id (m_name m)) vs).
  destruct (value_of_struct s Hck (go_naming_ok s Hck) i m v Hm Hv) as (fs & _ & Hst & _).
  destruct (raws_Some s Hck (go_naming_ok s Hck) i m v Hm Hv) as (l1 & H1 & HF). assert (l1 = l) as -> by congruence.
  pose proof (strings_ok_valid m l (Forall2_length _ _ _ HF)) as Hs.
  split_and!; [done|unfold TypeID; by rewrite Hst|by rewrite (NewMessage_ok s Hck (go_naming_ok s Hck) i m Hm)| |];
    intros Hval; rewrite Hu by (by apply (named s Hck (go_naming_ok s Hck) i)).
  - by rewrite (proj2 Hs Hval).
  - destruct (strings_ok (VarFields m) l); [|done]. by destruct Hval; apply Hs.
Qed.

(** On a schema that [Check] accepted, [MarshalTo] into a buffer that is long enough
    writes the bytes of [MarshalBinary] whatever the buffer held before, leaves the rest
    of the buffer and returns their number; it returns 0 and changes nothing when the
    buffer is shorter than [Size] or a string or byte slice has 4 GiB or more, and in the
    second case [MarshalBinary] fails. *)
Theorem go_MarshalTo (s : Schema) (i : nat) (m : Message) (v : gval) (l : list (list byte)) (b : list byte) :
  checked s -> s_messages s !! i = Some m -> value_of s m v -> raws m v = Some l ->
  (fits l -> exists e, MarshalBinary (s_messages s) v = Ok e /\ Z.of_nat (List.length e) = msg_Size m l /\
     MarshalTo (s_messages s) v b =
       (Ok (if Z.of_nat (List.length b) <? msg_Size m l then (b, 0) else (e ++ drop (List.length e) b, msg_Size m l)) : res unit _)) /\
  (~ fits l -> MarshalBinary (s_messages s) v = Error tt /\ MarshalTo (s_messages s) v b = (Ok (b, 0) : res unit _)).
Proof.
  intros Hck Hm Hv Hl. destruct (value_of_struct s Hck (go_naming_ok s Hck) i m v Hm Hv) as (fs & Hv' & Hst & _). split; intros Hfit.
  - destruct (MarshalBinary_ok s Hck (go_naming_ok s Hck) i m v l Hm Hv Hl Hfit) as (fixed & Hlen & _ & _ & Hmar & Hto).
    pose proof (fixed_size_nonneg s Hck i m Hm) as H0. exists (fixed ++ frames l).
    assert (Hsz : Z.of_nat (List.length (fixed ++ frames l)) = msg_Size m l) by (rewrite length_app, msg_Size_frames; lia).
    split_and!; [done..|]. destruct (Z.ltb_spec (Z.of_nat (List.length b)) (msg_Size m l)) as [Hs|Hs].
    + unfold MarshalTo, ipcgenMarshal. rewrite Hst. cbn [or_panic bind]. rewrite Hl. cbn [or_panic bind].
      by rewrite (proj1 (fits_forallb l) Hfit), (proj2 (Z.ltb_lt _ _) Hs).
    + rewrite Hto by done. by rewrite <-Hsz, Nat2Z.id.
  - assert (Hff : forallb (fun raw => ipcgenFits (Z.of_nat (List.length raw))) l = false).
    { destruct (forallb _ l) eqn:Hf; [|done]. by apply fits_forallb in Hf. }
    unfold MarshalTo, MarshalBinary, ipcgenMarshal. rewrite Hst. cbn [or_panic bind]. rewrite Hl. cbn [or_panic bind].
    by rewrite Hff.
Qed.

(** ** A value *)

(** [typed] as a test. *)
Fixpoint typedb {N : Naming} (fuel : nat) (ms : list Message) (t : Typ) (v : gval) : bool :=
  match fuel with
  | O => false
  | S fuel =>
      match t, v with
      | TBasic k _, GBool _ => bool_decide (k = KBool)
      | TBasic k _, GInt n =>
          negb (IsVarKind k) && negb (bool_decide (k = KBool)) && negb (IsFloat k) &&
          (if IsSigned k then (- 2 ^ (8 * ScalarSize k - 1) <=? n) && (n <? 2 ^ (8 * ScalarSize k - 1))
           else (0 <=? n) && (n <? 2 ^ (8 * ScalarSize k)))
      | TBasic k _, GFloat bits => IsFloat k && (0 <=? bits) && (bits <? 2 ^ (8 * ScalarSize k))
      | TBasic k _, GRaw _ => IsVarKind k
      | TArray len elem _, GArr l => (Z.of_nat (List.length l) =? len) && forallb (typedb fuel ms elem) l
      | TRef name _ _, GStruct n fs =>
          String.eqb (type_id name) n &&
          match type_named ms (type_id name) with
          | Some m => bool_decide (fst <$> fs = names m) &&
              forallb (fun f => match lookup_name fs (field_id (f_name f)) with
                                | Some x => typedb fuel ms (f_type f) x
                                | None => true
                                end) (m_fields m)
          | None => false
          end
      | _, _ => false
      end
  end.

Lemma typedb_typed {N : Naming} fuel ms t v : typedb fuel ms t v = true -> typed ms t v.
Proof.
  revert t v. induction fuel as [|fuel IH]; intros t v; [done|]. cbn [typedb].
  destruct t as [k p|len elem p|name msg p], v as [x|n|bits|raw|l|n fs]; try done.
  - intros ->%bool_decide_eq_true. constructor.
  - intros H. destruct (IsVarKind k) eqn:?, (bool_decide_reflect (k = KBool)), (IsFloat k) eqn:?; try done. cbn [negb andb] in H.
    constructor; try done. unfold int_range. destruct (IsSigned k); cbn zeta; apply andb_prop in H as [?%Z.leb_le ?%Z.ltb_lt]; lia.
  - intros [[Hf ?%Z.leb_le]%andb_prop ?%Z.ltb_lt]%andb_prop. constructor; [done|lia].
  - intros H. by constructor.
  - intros [?%Z.eqb_eq Hl]%andb_prop. constructor; [done|]. intros j x Hj. apply IH. rewrite forallb_forall in Hl.
    apply Hl, list_elem_of_In. by eapply list_elem_of_lookup_2.
  - intros [<-%String.eqb_eq H]%andb_prop. destruct (type_named ms (type_id name)) as [m|] eqn:Hm; [|done].
    apply andb_prop in H as [Hk%bool_decide_eq_true Hfs]. econstructor; [done..|]. intros f x Hf Hx.
    rewrite forallb_forall in Hfs. specialize (Hfs f (proj1 (list_elem_of_In _ _) Hf)). rewrite Hx in Hfs. by apply IH.
Qed.

Definition demo_go_point (x y : Z) : gval := GStruct "Point" [("X", GInt x); ("Y", GInt y)]%string.
Definition demo_go : gval :=
  GStruct "Shape" [("Tag", GInt 7); ("Name", GRaw [Byte.x61; Byte.x62]);
                   ("Points", GArr [demo_go_point (-1) 2; demo_go_point 3 18446744073709551615]);
                   ("Closed", GBool true)]%string.

Lemma demo_checked_ok : checked demo_checked.
Proof. apply (Check_checked demo_schema); [reflexivity|vm_compute; reflexivity]. Qed.

Definition demo_shape : Message :=
  default (mkMessage "" 0 [] (mkPos 0 0) (mkPos 0 0) 0 0)%string (s_messages demo_checked !! 0%nat).
Definition demo_raws : list (list byte) := [[Byte.x61; Byte.x62]].

Lemma demo_shape_lookup : s_messages demo_checked !! 0%nat = Some demo_shape.
Proof. vm_compute. reflexivity. Qed.

Lemma demo_go_typed : value_of demo_checked demo_shape demo_go.
Proof. apply (typedb_typed 5). vm_compute. reflexivity. Qed.

Lemma demo_go_raws : raws demo_shape demo_go = Some demo_raws.
Proof. vm_compute. reflexivity. Qed.

Lemma demo_raws_fit : fits demo_raws.
Proof. repeat constructor. Qed.

Lemma go_roundtrip_witness : exists b empty,
  MarshalBinary (s_messages demo_checked) demo_go = Ok b /\ NewMessage (s_messages demo_checked) (m_id demo_shape) = Some empty /\
  UnmarshalBinary (s_messages demo_checked) empty b = Ok demo_go.
Proof.
  destruct (go_roundtrip demo_checked 0 demo_shape demo_go demo_raws demo_checked_ok demo_shape_lookup demo_go_typed
    demo_go_raws demo_raws_fit) as (b & empty & H1 & _ & H3 & H4 & _).
  exists b, empty. split_and!; [exact H1|exact H3|apply H4; vm_compute; repeat constructor].
Defined.

Definition demo_bad : list byte := <[40%nat := Byte.x02]> demo_bytes.

Lemma demo_bad_Decode : Decode (s_messages demo_checked) demo_shape demo_bad = Error ErrBool.
Proof. vm_compute. reflexivity. Qed.

(** A buffer that is not empty. *)
Lemma go_MarshalTo_witness : exists e,
  MarshalBinary (s_messages demo_checked) demo_go = Ok e /\
  MarshalTo (s_messages demo_checked) demo_go (replicate 60 Byte.xff) =
    (Ok (e ++ drop (List.length e) (replicate 60 Byte.xff), 54) : res unit _).
Proof.
  destruct (go_MarshalTo demo_checked 0 demo_shape demo_go demo_raws (replicate 60 Byte.xff) demo_checked_ok
    demo_shape_lookup demo_go_typed demo_go_raws) as [H _].
  destruct (H demo_raws_fit) as (e & He & _ & Hto). exists e. split; [exact He|]. rewrite Hto.
  assert (Hs : msg_Size demo_shape demo_raws = 54) by (vm_compute; reflexivity). rewrite Hs. reflexivity.
Defined.
