(* ===== verification/Utf8.v ===== *)
(** * The UTF-8 check of the generated C and C++

    [PFX_ipcgen_utf8] of [src/ipcgen/internal/gen/c.go] and [utf8] of
    [src/ipcgen/internal/gen/cpp.go], which are the same loop, and that it accepts what
    [utf8.Valid] of Go accepts. *)

From stdpp Require Import base numbers list list_numbers option strings gmap.
From coqutil Require Import Byte.
From Stdlib Require Import ZArith Lia Bool.
From S2P Require Import Prelude GoStd.

#[local] Open Scope Z_scope.
#[local] Set Warnings "-register-all".

(** The continuation bytes, the bits of the code point and its least value, by the first
    byte of a sequence. *)
Definition lead (c : Z) : option (nat * Z * Z) :=
  if Z.land c 0xE0 =? 0xC0 then Some (1%nat, Z.land c 0x1F, 0x80)
  else if Z.land c 0xF0 =? 0xE0 then Some (2%nat, Z.land c 0x0F, 0x800)
  else if Z.land c 0xF8 =? 0xF0 then Some (3%nat, Z.land c 0x07, 0x10000)
  else None.

(** A read of [s[i]]; outside of [s] there is no value. *)
Definition at_ (s : list byte) (i : nat) : option Z := byte.unsigned <$> s !! i.

(** The loop over [j]: [n] bytes from [j] on. [Some None] is a byte that does not
    continue the sequence. *)
Fixpoint continuation (s : list byte) (i j n : nat) (cp : Z) : option (option Z) :=
  match n with
  | O => Some (Some cp)
  | S n =>
      match at_ s (i + j) with
      | None => None
      | Some d =>
          if negb (Z.land d 0xC0 =? 0x80) then Some None
          else continuation s i (j + 1) n (u32 (Z.lor (Z.shiftl cp 6) (Z.land d 0x3F)))
      end
  end.

Definition bad_point (cp min : Z) : bool :=
  (cp <? min) || (0x10FFFF <? cp) || ((0xD800 <=? cp) && (cp <=? 0xDFFF)).

(** The loop over [i]. *)
Fixpoint utf8_loop (fuel : nat) (s : list byte) (i : nat) : option bool :=
  match fuel with
  | O => None
  | S fuel =>
      if negb (i <? List.length s)%nat then Some true
      else
        match at_ s i with
        | None => None
        | Some c =>
            if c <? 0x80 then utf8_loop fuel s (i + 1)
            else
              match lead c with
              | None => Some false
              | Some (k, cp, min) =>
                  if (List.length s - i - 1 <? k)%nat then Some false
                  else
                    match continuation s i 1 k cp with
                    | None => None
                    | Some None => Some false
                    | Some (Some cp) => if bad_point cp min then Some false else utf8_loop fuel s (i + k + 1)
                    end
              end
        end
  end.

(** [None] is a read outside of [s]. Every round takes a byte. *)
Definition ipcgen_utf8 (s : list byte) : option bool := utf8_loop (S (List.length s)) s 0.

(** ** Bits as arithmetic *)

Lemma byte_cont x :
  (Z.land (byte.unsigned x) 0xC0 =? 0x80) = cont (byte.unsigned x) /\
  (cont (byte.unsigned x) = true -> Z.land (byte.unsigned x) 0x3F = byte.unsigned x - 128 /\ 128 <= byte.unsigned x < 192).
Proof. destruct x; vm_compute; split; try done; try (intros; discriminate); repeat split; done. Qed.

Lemma lor_shift6 cp d : 0 <= d < 64 -> Z.lor (Z.shiftl cp 6) d = cp * 64 + d.
Proof.
  intros Hd. rewrite Z.shiftl_mul_pow2 by lia. change (2 ^ 6) with 64.
  rewrite <-Z.add_lor_land, (Z.land_comm (cp * 64)).
  assert (Z.land d (cp * 64) = 0) as ->; [|lia].
  apply Z.bits_inj'. intros n Hn. rewrite Z.land_spec, Z.bits_0. destruct (Z_lt_le_dec n 6).
  - replace (cp * 64) with (cp * 2 ^ 6) by lia. by rewrite Z.mul_pow2_bits_low, andb_false_r.
  - rewrite (Z.bits_above_log2 d n); [done|lia|]. destruct (decide (d = 0)) as [->|]; [cbn; lia|].
    apply Z.log2_lt_pow2; [lia|]. eapply Z.lt_le_trans; [apply Hd|]. change 64 with (2 ^ 6). by apply Z.pow_le_mono_r.
Qed.

Lemma continuation_S s i j n cp x :
  s !! (i + j)%nat = Some x -> 0 <= cp < 2 ^ 20 ->
  continuation s i j (S n) cp =
    if cont (byte.unsigned x) then continuation s i (j + 1) n (cp * 64 + (byte.unsigned x - 128)) else Some None.
Proof.
  intros Hx Hcp. cbn [continuation]. unfold at_. rewrite Hx. cbn [fmap option_fmap option_map].
  destruct (byte_cont x) as [-> Hc]. destruct (cont (byte.unsigned x)); [|done]. destruct (Hc eq_refl) as [-> Hr]. cbn [negb].
  rewrite lor_shift6, u32_small by lia. done.
Qed.

Lemma lead_spec x : 128 <= byte.unsigned x ->
  lead (byte.unsigned x) =
    (let c := byte.unsigned x in
     if c <? 0xC0 then None else if c <? 0xE0 then Some (1%nat, c - 0xC0, 0x80)
     else if c <? 0xF0 then Some (2%nat, c - 0xE0, 0x800) else if c <? 0xF8 then Some (3%nat, c - 0xF0, 0x10000) else None).
Proof. destruct x; vm_compute; try done; intros H; by destruct (H eq_refl). Qed.

(** One sequence that does not start with an ASCII byte: its length, if it is valid. *)
Definition sequence (p : list byte) : option nat :=
  match p with
  | [] => None
  | x :: rest =>
      match lead (byte.unsigned x) with
      | None => None
      | Some (k, cp, min) =>
          if (List.length rest <? k)%nat then None
          else match continuation p 0 1 k cp with
               | Some (Some cp) => if bad_point cp min then None else Some (k + 1)%nat
               | _ => None
               end
      end
  end.

Definition rune_width (p : list byte) : option nat :=
  let '(r, w) := DecodeRune p in if (r =? RuneError) && (w =? 1)%nat then None else Some w.

(** Go's ranges for the bytes of a sequence, and the bounds on its code point. *)
Ltac ranges :=
  unfold bad_point, utf8_first, cont, in_range in *;
  repeat (cbn [andb orb negb]; match goal with
  | |- context [?a =? ?b] => destruct (Z.eqb_spec a b); try lia
  | |- context [?a <=? ?b] => destruct (Z.leb_spec a b); try lia
  | |- context [?a <? ?b] => destruct (Z.ltb_spec a b); try lia
  end); cbv beta iota; cbn [andb orb]; try done; try lia.

Lemma utf8_first_2 c : 0xC0 <= c < 0xE0 -> utf8_first c = if c <? 0xC2 then None else Some (2%nat, 0x80, 0xBF).
Proof. intros. ranges. Qed.
Lemma utf8_first_3 c : 0xE0 <= c < 0xF0 ->
  utf8_first c = Some (3%nat, if c =? 0xE0 then 0xA0 else 0x80, if c =? 0xED then 0x9F else 0xBF).
Proof. intros. ranges. Qed.
Lemma utf8_first_4 c : 0xF0 <= c < 0xF8 ->
  utf8_first c = if 0xF4 <? c then None else Some (4%nat, if c =? 0xF0 then 0x90 else 0x80, if c =? 0xF4 then 0x8F else 0xBF).
Proof. intros. ranges. Qed.

Lemma sequence_width x rest : 128 <= byte.unsigned x -> sequence (x :: rest) = rune_width (x :: rest).
Proof.
  intros Hx. unfold sequence, rune_width, DecodeRune. cbn [fmap list_fmap]. rewrite lead_spec by done. cbv zeta.
  pose proof (byte.unsigned_range x) as Hr. set (c := byte.unsigned x) in *. rewrite (proj2 (Z.ltb_ge c 0x80)) by done.
  destruct (Z.ltb_spec c 0xC0); [|destruct (Z.ltb_spec c 0xE0); [|destruct (Z.ltb_spec c 0xF0); [|destruct (Z.ltb_spec c 0xF8)]]].
  - assert (utf8_first c = None) as ->; [ranges|done].
  - rewrite utf8_first_2 by lia. destruct rest as [|y rest]; [by destruct (c <? 0xC2)|]. cbn [List.length Nat.ltb Nat.leb fmap list_fmap].
    rewrite (continuation_S _ _ _ _ _ y) by (done || lia). cbn [continuation]. set (d := byte.unsigned y).
    destruct (Z.ltb_spec c 0xC2); ranges.
  - rewrite utf8_first_3 by lia. destruct rest as [|y [|z rest]]; [done..|]. cbn [List.length Nat.ltb Nat.leb fmap list_fmap].
    rewrite (continuation_S _ _ _ _ _ y) by (done || lia). set (d := byte.unsigned y).
    destruct (byte_cont y) as [_ Hy]. fold d in Hy. destruct (cont d) eqn:Hd.
    + destruct (Hy eq_refl) as [_ Hd']. rewrite (continuation_S _ _ _ _ _ z) by (done || lia). cbn [continuation]. set (e := byte.unsigned z).
      ranges.
    + ranges.
  - rewrite utf8_first_4 by lia. destruct rest as [|y [|z [|w rest]]]; [by destruct (0xF4 <? c)..|].
    cbn [List.length Nat.ltb Nat.leb fmap list_fmap].
    rewrite (continuation_S _ _ _ _ _ y) by (done || lia). set (d := byte.unsigned y).
    destruct (byte_cont y) as [_ Hy]. fold d in Hy. destruct (cont d) eqn:Hd.
    + destruct (Hy eq_refl) as [_ Hd']. rewrite (continuation_S _ _ _ _ _ z) by (done || lia). set (e := byte.unsigned z).
      destruct (byte_cont z) as [_ Hz]. fold e in Hz. destruct (cont e) eqn:He.
      * destruct (Hz eq_refl) as [_ He']. rewrite (continuation_S _ _ _ _ _ w) by (done || lia). cbn [continuation].
        set (f := byte.unsigned w). ranges.
      * ranges.
    + ranges.
  - assert (utf8_first c = None) as ->; [ranges|done].
Qed.

(** ** The loops *)

Lemma continuation_drop s i j n cp : continuation s i j n cp = continuation (drop i s) 0 j n cp.
Proof.
  revert j cp. induction n as [|n IH]; intros j cp; [done|]. cbn [continuation Nat.add]. unfold at_. rewrite lookup_drop.
  destruct (s !! (i + j)%nat); [|done]. cbn [fmap option_fmap option_map]. destruct (negb _); [done|]. apply IH.
Qed.

(** Within the guard of the loop no read is outside. *)
Lemma continuation_in s i j n cp : (i + j + n <= List.length s)%nat -> continuation s i j n cp <> None.
Proof.
  revert j cp. induction n as [|n IH]; intros j cp Hl; [done|]. cbn [continuation]. unfold at_.
  destruct (lookup_lt_is_Some_2 s (i + j)) as [x ->]; [lia|]. cbn [fmap option_fmap option_map].
  destruct (negb _); [done|]. apply IH. lia.
Qed.

Lemma rune_width_ascii x rest : byte.unsigned x < 128 -> rune_width (x :: rest) = Some 1%nat.
Proof.
  intros Hx. unfold rune_width, DecodeRune. cbn [fmap list_fmap]. rewrite (proj2 (Z.ltb_lt _ _)) by done.
  pose proof (byte.unsigned_range x). rewrite (proj2 (Z.eqb_neq _ _)); [done|]. unfold RuneError. lia.
Qed.

Lemma utf8_valid_step fuel x rest :
  utf8_valid (S fuel) (x :: rest) =
    match rune_width (x :: rest) with Some w => utf8_valid fuel (drop w (x :: rest)) | None => false end.
Proof. cbn [utf8_valid]. unfold rune_width. destruct (DecodeRune (x :: rest)) as [r w]. by destruct (_ && _). Qed.

Lemma utf8_loop_valid fuel fuel' s i :
  (List.length s - i < fuel)%nat -> (List.length s - i <= fuel')%nat ->
  utf8_loop fuel s i = Some (utf8_valid fuel' (drop i s)).
Proof.
  revert fuel' i. induction fuel as [|fuel IH]; intros fuel' i Hf Hf'; [lia|]. cbn [utf8_loop].
  destruct (Nat.ltb_spec i (List.length s)) as [Hi|Hi]; cbn [negb].
  2: { rewrite drop_ge by done. by destruct fuel'. }
  destruct (lookup_lt_is_Some_2 s i Hi) as [x Hx]. unfold at_ at 1. rewrite Hx. cbn [fmap option_fmap option_map].
  destruct fuel' as [|fuel']; [lia|]. assert (Hd : drop i s = x :: drop (S i) s) by (by apply drop_S).
  rewrite Hd, utf8_valid_step, <-Hd. destruct (Z.ltb_spec (byte.unsigned x) 0x80) as [Ha|Ha].
  { rewrite Hd, rune_width_ascii, <-Hd, drop_drop by done. apply IH; lia. }
  rewrite Hd, <-sequence_width by done. unfold sequence. rewrite <-Hd.
  destruct (lead (byte.unsigned x)) as [[[k cp] min]|]; [|done]. rewrite length_drop.
  replace (List.length s - S i)%nat with (List.length s - i - 1)%nat by lia.
  destruct (Nat.ltb_spec (List.length s - i - 1) k) as [|Hk]; [done|]. rewrite continuation_drop.
  pose proof (continuation_in s i 1 k cp ltac:(lia)) as Hin. rewrite continuation_drop in Hin.
  destruct (continuation (drop i s) 0 1 k cp) as [[cp'|]|]; [|done..].
  destruct (bad_point cp' min); [done|]. rewrite drop_drop, Nat.add_assoc. apply IH; lia.
Qed.

(** The check reads only the bytes it is given, and accepts what [utf8.Valid] accepts. *)
Lemma ipcgen_utf8_Valid s : ipcgen_utf8 s = Some (Valid s).
Proof. unfold ipcgen_utf8, Valid. rewrite (utf8_loop_valid _ (List.length s)) by lia. done. Qed.
