(* ===== verification/CCode.v ===== *)
(** * The statements of the generated C and C++

    [put] and [get] of [src/ipcgen/internal/gen/c.go] and [src/ipcgen/internal/gen/cpp.go]
    write the same statements: loops with a constant bound, calls for nested messages
    and calls of a helper per scalar type. This file has their syntax and their meaning,
    and that they do what the statements of the Go generator do. *)

From stdpp Require Import base numbers list list_numbers option strings gmap pretty.
From coqutil Require Import Byte Word.LittleEndianList.
From Stdlib Require Import ZArith Lia Bool String Ascii.
From S2P Require Import Prelude GoStd Schema Check CheckThm Layout RefCodec RefCodecThm GoGen GoGenThm.

#[local] Open Scope Z_scope.
#[local] Set Warnings "-register-all".
#[local] Open Scope codec_scope.

(** A call for a nested message names the message. *)
Inductive cstmt : Type :=
| CFor (n : Z) (body : cstmt)
| CPutRef (message : string) (val : place) (off : offset)
| CPut (k : Kind) (val : place) (off : offset)
| CGetRef (message : string) (val : place) (off : offset)
| CGetBool (val : place) (off : offset)
| CGet (k : Kind) (val : place) (off : offset).

(** ** Text *)

(** A line after [n] tabs. *)
Fixpoint ind (n : nat) (s : string) : string :=
  match n with O => s | S n => (tab +:+ ind n s)%string end.

(** A field of [m], after [m->] in C and [m.] in C++, and its elements. *)
Fixpoint c_place (m : string) (p : place) : string :=
  match p with PName n => m +:+ n | PElem p => c_place m p +:+ "[i]" end%string.

Fixpoint c_offset (o : offset) : string :=
  match o with OAt n => pretty n | OPlus o size => c_offset o +:+ " + i * " +:+ pretty size end%string.

(** ** Statements and their meaning *)

Section code.
Context {N : Naming}.
(** The message that a call for a type is for. *)
Context (callee : list Message -> string -> option nat -> string).
(** What the helpers of a scalar type do. *)
Context (putk : Kind -> gval -> list byte -> res unit (list byte)) (getk : Kind -> list byte -> dec gval).

Fixpoint c_put (ms : list Message) (t : Typ) (val : place) (off : offset) : cstmt :=
  match t with
  | TArray len elem _ => CFor len (c_put ms elem (PElem val) (OPlus off (Size ms elem)))
  | TRef name msg _ => CPutRef (callee ms name msg) val off
  | TBasic k _ => CPut k val off
  end.

Fixpoint c_get (ms : list Message) (t : Typ) (val : place) (off : offset) : cstmt :=
  match t with
  | TArray len elem _ => CFor len (c_get ms elem (PElem val) (OPlus off (Size ms elem)))
  | TRef name msg _ => CGetRef (callee ms name msg) val off
  | TBasic KBool _ => CGetBool val off
  | TBasic k _ => CGet k val off
  end.

(** The statements of the functions that write and read the fixed section. *)
Definition c_body (ms : list Message) (m : Message) (put : bool) : list cstmt :=
  (fun f => (if put then c_put else c_get) ms (f_type f) (PName (field_id (f_name f))) (OAt (f_offset f))) <$> FixedFields m.

(** Whether a value is of the struct of a message. *)
Definition is_struct (message : string) (v : gval) : bool :=
  match v with GStruct name _ => String.eqb name (type_id message) | _ => false end.

(** A pointer past the end of the buffer, or an argument of another type, is a [Panic]. *)
Section exec.
Context (put_fixed : gval -> list byte -> res unit (list byte)) (get_fixed : gval -> list byte -> dec gval).

Fixpoint exec_c_put (m : gval) (st : cstmt) (i : nat) (p : list byte) : res unit (list byte) :=
  match st with
  | CFor n body => for_range (fun i p => exec_c_put m body i p) 0 (Z.to_nat n) p
  | CPutRef message val off =>
      let! v := or_panic (load m i val) in
      if is_struct message v then sub p (offset_at off i) (put_fixed v) else Panic
  | CPut k val off => let! v := or_panic (load m i val) in sub p (offset_at off i) (putk k v)
  | _ => Panic
  end.

Fixpoint exec_c_puts (m : gval) (l : list cstmt) (p : list byte) : res unit (list byte) :=
  match l with
  | [] => Ok p
  | st :: l => let! p := exec_c_put m st 0 p in exec_c_puts m l p
  end.

Context (p : list byte).

Fixpoint exec_c_get (st : cstmt) (i : nat) (m : gval) : dec gval :=
  match st with
  | CFor n body => for_range (fun i m => exec_c_get body i m) 0 (Z.to_nat n) m
  | CGetRef message val off =>
      let! v := or_panic (load m i val) in
      if is_struct message v then
        let! v := from p (offset_at off i) (get_fixed v) in or_panic (store m i val v)
      else Panic
  | CGetBool val off =>
      let! x := from p (offset_at off i) (fun p => or_panic (head p)) in
      if 1 <? byte.unsigned x then Error ErrBool
      else or_panic (store m i val (GBool (byte.unsigned x =? 1)))
  | CGet k val off =>
      let! v := from p (offset_at off i) (getk k) in or_panic (store m i val v)
  | _ => Panic
  end.

Fixpoint exec_c_gets (l : list cstmt) (m : gval) : dec gval :=
  match l with
  | [] => Ok m
  | st :: l => let! m := exec_c_get st 0 m in exec_c_gets l m
  end.
End exec.

(** The functions of a message. [fuel] bounds the nesting of structs. *)
Fixpoint put_fixed (fuel : nat) (ms : list Message) (v : gval) (p : list byte) : res unit (list byte) :=
  match fuel with
  | O => NoFuel
  | S fuel => let! m := or_panic (struct_of ms v) in exec_c_puts (put_fixed fuel ms) v (c_body ms m true) p
  end.

Fixpoint get_fixed (fuel : nat) (ms : list Message) (v : gval) (p : list byte) : dec gval :=
  match fuel with
  | O => NoFuel
  | S fuel => let! m := or_panic (struct_of ms v) in exec_c_gets (get_fixed fuel ms) p (c_body ms m false) v
  end.

(** ** The same as the Go statements *)

(** A call is for the message of its type. *)
Definition callee_ok (s : Schema) : Prop :=
  forall name msg, ref_ok (s_messages s) name msg -> callee (s_messages s) name msg = name.

(** The helpers write and read the little-endian form. *)
Record helpers_ok : Prop := {
  ho_bool x p : putk KBool (GBool x) p = write p [if x then Byte.x01 else Byte.x00];
  ho_put k v bits p :
    k <> KBool -> IsVarKind k = false -> bits_of k v = Some bits -> 0 <= bits < 2 ^ (8 * ScalarSize k) ->
    putk k v p = write p (le_split (Z.to_nat (ScalarSize k)) bits);
  ho_get k p :
    k <> KBool -> IsVarKind k = false ->
    getk k p = if (Z.to_nat (ScalarSize k) <=? List.length p)%nat
               then Ok (of_bits k (le_combine (take (Z.to_nat (ScalarSize k)) p))) else Panic }.

Lemma write_zero p off :
  0 <= off -> p !! Z.to_nat off = Some Byte.x00 -> sub (E := unit) p off (fun p => write p [Byte.x00]) = Ok p.
Proof using.
  intros H0 Hp. pose proof (lookup_lt_Some _ _ _ Hp) as Hl. unfold sub.
  rewrite (proj2 (Z.leb_le _ _)), (proj2 (Z.leb_le _ _)) by lia. cbn [andb].
  rewrite (drop_S p Byte.x00 (Z.to_nat off) Hp). unfold write. cbn [List.length Nat.leb bind app drop].
  f_equal. rewrite drop_0. by apply take_drop_middle.
Qed.

Section same.
Context (s : Schema) (Hck : checked s) (Hnk : naming_ok s) (Hcallee : callee_ok s) (Hho : helpers_ok).
Let ms := s_messages s.
Let sz (t : Typ) : nat := Z.to_nat (Size ms t).

Lemma is_struct_typed name msg q x :
  fixed_type s (TRef name msg q) -> typed ms (TRef name msg q) x -> is_struct (callee ms name msg) x = true.
Proof using Hcallee.
  intros [Hok _] Ht. unfold ms. rewrite (Hcallee name msg Hok). inversion Ht; subst. apply String.eqb_refl.
Qed.

(** *** Writing *)

Section put.
Context (fuel : nat).
Let ready (j : nat) : Prop := message_fuel s j fuel.
Hypothesis Hsame : forall j m v b, ready j -> ms !! j = Some m -> value_of s m v ->
  (Z.to_nat (FixedSize m) <= List.length b)%nat -> zero b 0 (Z.to_nat (FixedSize m)) ->
  put_fixed (S fuel) ms v b = ipcgenPut (S fuel) ms v b.

(** What the Go method of a nested message does. *)
Lemma go_call j m v b p : ready j -> ms !! j = Some m -> typed ms (TRef (m_name m) (Some j) p) v ->
  (Z.to_nat (FixedSize m) <= List.length b)%nat -> zero b 0 (Z.to_nat (FixedSize m)) ->
  writes (E := unit) b 0 (Z.to_nat (FixedSize m)) (fun b' => holds ms b' (TRef (m_name m) (Some j) p) v)
    (ipcgenPut (S fuel) ms v b).
Proof using Hck Hnk.
  intros Hj Hm Ht Hl Hz. apply value_of_typed in Ht. destruct (value_of_struct s Hck Hnk j m v Hm Ht) as (fs & -> & _).
  eapply writes_impl; [reflexivity..| |by eapply (ipcgenPut_ok s Hck Hnk)]. intros b' _ Hh.
  econstructor; [by eapply (named s Hck Hnk)|]. intros f x Hf Hx. by apply Hh.
Qed.

Lemma same_leaf t p o i m x b :
  leaf t -> fixed_type s t -> (forall j, refOf t = Some j -> ready j) ->
  load m i p = Some x -> typed ms t x -> 0 <= offset_at o i ->
  (Z.to_nat (offset_at o i) + sz t <= List.length b)%nat ->
  zero b (Z.to_nat (offset_at o i)) (Z.to_nat (offset_at o i) + sz t) ->
  exec_c_put (put_fixed (S fuel) ms) m (c_put ms t p o) i b = exec_put (ipcgenPut (S fuel) ms) m (access ms t p o true) i b.
Proof using Hck Hnk Hcallee Hho Hsame.
  intros Hleaf Hty Hready Hx Ht H0 Hl Hz. destruct t as [k q|? ? ?|name msg q]; [|done|].
  - cbn [c_put exec_c_put]. rewrite Hx. cbn [or_panic bind].
    assert (Hnum : k <> KBool -> sub b (offset_at o i) (putk k x) =
      let! bits := or_panic (load m i p ≫= bits_of k) in
      sub b (offset_at o i) (fun b => write b (le_split (Z.to_nat (ScalarSize k)) bits))).
    { intros Hk. destruct (bits_of_typed ms k q x Ht (proj2 Hty) Hk) as (bits & Hb & _ & Hr).
      rewrite Hx. cbn [mbind option_bind]. rewrite Hb. cbn [or_panic bind]. unfold sub.
      by rewrite (ho_put Hho k x bits _ Hk (proj2 Hty) Hb Hr). }
    destruct k; try (rewrite Hnum by done; reflexivity). clear Hnum. inversion Ht; subst; try done.
    cbn [access exec_put]. rewrite Hx. unfold sub at 1. rewrite (ho_bool Hho). destruct x0; [done|].
    apply (write_zero b (offset_at o i)); [done|]. apply Hz. unfold sz. cbn. lia.
  - destruct (ref_named s Hck Hnk _ _ _ Hty) as (j & m' & -> & Hj & <- & _).
    cbn [c_put exec_c_put access exec_put]. rewrite Hx. cbn [or_panic bind]. rewrite (is_struct_typed _ _ _ _ Hty Ht).
    assert (Hsz : sz (TRef (m_name m') (Some j) q) = Z.to_nat (FixedSize m')) by (unfold sz; cbn; fold ms in Hj; by rewrite Hj).
    rewrite Hsz in *. unfold sub. rewrite (Hsame j m'); [done|by apply Hready|done|by apply value_of_typed in Ht|rewrite length_drop; lia|].
    intros k Hk. rewrite lookup_drop. apply Hz. lia.
Qed.

Lemma same_elems elem nm off m l n i b :
  leaf elem -> fixed_type s elem -> (forall j, refOf elem = Some j -> ready j) -> 0 <= off -> 0 <= Size ms elem ->
  load m 0 (PName nm) = Some (GArr l) -> (forall j x, l !! j = Some x -> typed ms elem x) ->
  (i + n)%nat = List.length l ->
  let at_ (j : nat) := (Z.to_nat off + j * sz elem)%nat in
  (at_ (i + n)%nat <= List.length b)%nat -> zero b (at_ i) (at_ (i + n)%nat) ->
  let o := OPlus (OAt off) (Size ms elem) in
  for_range (fun i b => exec_c_put (put_fixed (S fuel) ms) m (c_put ms elem (PElem (PName nm)) o) i b) i n b =
  for_range (fun i b => exec_put (ipcgenPut (S fuel) ms) m (access ms elem (PElem (PName nm)) o true) i b) i n b.
Proof using Hck Hnk Hcallee Hho Hsame.
  intros Hleaf Hty Hready H0 Hs Hm Hl Hn at_ Hb Hz o. revert i b Hn Hb Hz. induction n as [|n IH]; intros i b Hn Hb Hz; cbn [for_range]; [done|].
  destruct (lookup_lt_is_Some_2 l i) as [x Hx]; [lia|].
  assert (Hoff : Z.to_nat (offset_at o i) = at_ i) by (unfold at_, sz; cbn; lia).
  assert (Hat : at_ (i + 1)%nat = (at_ i + sz elem)%nat) by (unfold at_; lia).
  assert (Hmono : (at_ (i + 1)%nat <= at_ (i + S n)%nat)%nat) by (unfold at_; nia).
  assert (Hlx : load m i (PElem (PName nm)) = Some x) by (by rewrite (load_elem _ _ _ l)).
  pose proof (same_leaf elem (PElem (PName nm)) o i m x b) as He. rewrite Hoff, <-Hat in He.
  pose proof (put_leaf s Hck Hnk (ipcgenPut (S fuel) ms) ready go_call elem (PElem (PName nm)) o i m x b) as Hw.
  rewrite Hoff in Hw. fold ms in Hw. fold (sz elem) in Hw. rewrite <-Hat in Hw.
  assert (Hzi : zero b (at_ i) (at_ (i + 1)%nat)) by (intros k Hk; apply Hz; lia).
  rewrite He by (done || (by eapply Hl) || (cbn; lia) || lia).
  specialize (Hw Hleaf Hty Hready Hlx (Hl i x Hx) ltac:(cbn; lia) ltac:(lia) Hzi).
  destruct (exec_put _ m _ i b) as [b'| | |]; try done. cbn [bind]. destruct Hw as [Ho _]. pose proof Ho as [Hlen _].
  replace (i + S n)%nat with (i + 1 + n)%nat in * by lia. apply IH; [lia|lia|].
  eapply outside_zero; [|exact Ho|exact Hz]. lia.
Qed.

Lemma same_field t nm off m x b :
  fixed_type s t -> 0 <= Size ms t -> (forall j, refOf t = Some j -> ready j) ->
  load m 0 (PName nm) = Some x -> typed ms t x -> 0 <= off -> (Z.to_nat off + sz t <= List.length b)%nat ->
  zero b (Z.to_nat off) (Z.to_nat off + sz t) ->
  exec_c_put (put_fixed (S fuel) ms) m (c_put ms t (PName nm) (OAt off)) 0 b =
  exec_put (ipcgenPut (S fuel) ms) m (access ms t (PName nm) (OAt off) true) 0 b.
Proof using Hck Hnk Hcallee Hho Hsame.
  intros Hty Hs Hready Hx Ht H0 Hl Hz. destruct t as [k q|len elem q|name msg q]; [by eapply same_leaf| |by eapply same_leaf].
  destruct (elem_facts s Hck len elem q Hty) as (Hlen & He & Hse & _). inversion Ht as [| | | |? ? ? l Hll Hxs|]; subst.
  assert (Hleaf : leaf elem) by (destruct Hty as [Hok _]; by destruct elem).
  assert (Hrd : forall j, refOf elem = Some j -> ready j) by (intros j Hj; apply Hready; by destruct elem).
  cbn [c_put access exec_c_put exec_put]. rewrite Hx. cbn [range_of or_panic bind]. rewrite Nat2Z.id.
  assert (Hsz : sz (TArray (Z.of_nat (List.length l)) elem q) = (List.length l * sz elem)%nat) by (unfold sz; cbn [Size]; fold ms in Hse; lia).
  rewrite Hsz in *. apply (same_elems elem nm off m l); try done. by rewrite Nat.mul_0_l, Nat.add_0_r.
Qed.

Lemma same_all v fs lo hi al b :
  (forall f, f ∈ fs -> fixed_type s (f_type f) /\ 0 <= Size ms (f_type f) /\
     (forall j, refOf (f_type f) = Some j -> ready j) /\
     exists x, load v 0 (PName (field_id (f_name f))) = Some x /\ typed ms (f_type f) x) ->
  0 <= lo -> placed ms fs lo hi al -> (Z.to_nat hi <= List.length b)%nat -> zero b (Z.to_nat lo) (Z.to_nat hi) ->
  exec_c_puts (put_fixed (S fuel) ms) v ((fun f => c_put ms (f_type f) (PName (field_id (f_name f))) (OAt (f_offset f))) <$> fs) b =
  exec_puts (ipcgenPut (S fuel) ms) v ((fun f => access ms (f_type f) (PName (field_id (f_name f))) (OAt (f_offset f)) true) <$> fs) b.
Proof using Hck Hnk Hcallee Hho Hsame.
  revert lo b. induction fs as [|f fs IH]; intros lo b Hfs H0 Hpl Hl Hz; cbn [fmap list_fmap exec_puts exec_c_puts]; [done|].
  destruct (Hfs f) as (Hty & Hs & Hready & x & Hx & Ht); [by left|].
  assert (Hv : field_IsVar f = false) by apply Hty. cbn [placed] in Hpl. rewrite Hv in Hpl.
  destruct Hpl as (H1 & _ & _ & Hpl).
  assert (Hle : f_offset f + Size ms (f_type f) <= hi).
  { eapply placed_le; [|exact Hpl]. intros g Hg. apply Hfs. by right. }
  assert (Hmid : (Z.to_nat (f_offset f) + sz (f_type f))%nat = Z.to_nat (f_offset f + Size ms (f_type f))) by (unfold sz; lia).
  assert (Hzf : zero b (Z.to_nat (f_offset f)) (Z.to_nat (f_offset f) + sz (f_type f))).
  { intros k Hk. apply Hz. unfold sz in *. lia. }
  rewrite (same_field _ _ _ _ x) by (done || lia || (unfold sz in *; lia)).
  pose proof (put_field s Hck Hnk (ipcgenPut (S fuel) ms) ready go_call (f_type f) (field_id (f_name f)) (f_offset f) v x b
    Hty Hs Hready Hx Ht ltac:(lia) ltac:(unfold sz in *; fold ms; lia) Hzf) as Hw. fold ms in Hw.
  destruct (exec_put _ v _ 0 b) as [b'| | |]; try done. cbn [bind]. destruct Hw as [Ho _]. pose proof Ho as [Hlen _].
  fold (sz (f_type f)) in Ho. rewrite Hmid in Ho.
  apply (IH (f_offset f + Size ms (f_type f))); [intros g Hg; apply Hfs; by right|lia|done|lia|].
  eapply outside_zero; [|eapply outside_weaken; [| |exact Ho]; [|reflexivity]|exact Hz]; lia.
Qed.
End put.

Lemma put_fixed_same fuel i m v b :
  ms !! i = Some m -> value_of s m v -> message_fuel s i fuel ->
  (Z.to_nat (FixedSize m) <= List.length b)%nat -> zero b 0 (Z.to_nat (FixedSize m)) ->
  put_fixed (S fuel) ms v b = ipcgenPut (S fuel) ms v b.
Proof using Hck Hnk Hcallee Hho.
  revert i m v b. induction fuel as [|fuel IH]; intros i m v b Hm Hv Hfu Hl Hz.
  { destruct Hfu as (? & ? & _ & ?). lia. }
  destruct (value_of_struct s Hck Hnk i m v Hm Hv) as (fs & -> & Hst & Hk & Hx). fold ms in Hst.
  change (put_fixed (S (S fuel)) ms ?v ?b) with
    (let! m := or_panic (struct_of ms v) in exec_c_puts (put_fixed (S fuel) ms) v (c_body ms m true) b).
  change (ipcgenPut (S (S fuel)) ms ?v ?b) with
    (let! m := or_panic (struct_of ms v) in exec_puts (E := unit) (ipcgenPut (S fuel) ms) v (body ms m true) b).
  rewrite Hst. cbn [or_panic bind]. destruct (ck_laid _ Hck i m Hm) as [_ _ _ (hi & Hpl & Hhi)]. apply placed_fixed in Hpl.
  eapply (same_all fuel) with (lo := 0); [|intros f Hf|lia|exact Hpl|lia|].
  - intros j m' v' b' Hj Hm' Hv' Hl' Hz'. by eapply IH.
  - destruct (field_facts s Hck i m f Hm Hf) as (Hty & _ & _ & Hs & _).
    apply elem_fixed in Hf as [Hf _]. split_and!; [done|done|intros j; by eapply (ref_ready s Hck Hnk)|].
    destruct (struct_field m fs f Hk Hf) as [x Hx']. exists x. split; [done|by eapply Hx].
  - intros k Hk'. apply Hz. lia.
Qed.

(** *** Reading *)

Section get.
Context (fuel : nat).
Let ready (j : nat) : Prop := message_fuel s j fuel.
Hypothesis Hsame : forall j m v b, ready j -> ms !! j = Some m -> value_of s m v ->
  (Z.to_nat (FixedSize m) <= List.length b)%nat -> get_fixed (S fuel) ms v b = ipcgenGet (S fuel) ms v b.

Lemma go_get j m v b fuel' : ready j -> ms !! j = Some m -> value_of s m v -> message_fuel s j fuel' ->
  (Z.to_nat (FixedSize m) <= List.length b)%nat ->
  agrees (check_fields (checkType fuel' ms) b (FixedFields m)) (ipcgenGet (S fuel) ms v b)
    (fun v' => value_of s m v' /\ holds_fixed s b m v').
Proof using Hck Hnk.
  intros Hj Hm Hv Hf Hl. destruct (value_of_struct s Hck Hnk j m v Hm Hv) as (fs & -> & _ & Hk & Hx).
  eapply agrees_impl; [|by eapply (ipcgenGet_ok s Hck Hnk)]. intros v' (vs' & -> & [Hk' Ht'] & _ & Hh). split; [|done].
  econstructor; [by eapply (named s Hck Hnk)|done..].
Qed.

Lemma same_get_leaf t p o i m x0 b :
  leaf t -> fixed_type s t -> (forall j, refOf t = Some j -> ready j) -> load m i p = Some x0 -> typed ms t x0 ->
  0 <= offset_at o i -> (Z.to_nat (offset_at o i) + sz t <= List.length b)%nat ->
  exec_c_get (get_fixed (S fuel) ms) b (c_get ms t p o) i m = exec_get (ipcgenGet (S fuel) ms) b (access ms t p o false) i m.
Proof using Hck Hnk Hcallee Hho Hsame.
  intros Hleaf Hty Hready Hx Ht H0 Hl. destruct t as [k q|? ? ?|name msg q]; [|done|].
  - assert (Hnum : k <> KBool ->
      (let! v := from b (offset_at o i) (getk k) in or_panic (store m i p v)) =
      (let! raw := from b (offset_at o i) (fun b => if (Z.to_nat (ScalarSize k) <=? List.length b)%nat
         then Ok (take (Z.to_nat (ScalarSize k)) b) else Panic) in
       or_panic (store m i p (of_bits k (le_combine raw))))).
    { intros Hk. unfold from. destruct (_ && _); [|done]. rewrite (ho_get Hho k _ Hk (proj2 Hty)). by destruct (_ <=? _)%nat. }
    destruct k; try (cbn [c_get exec_c_get]; rewrite Hnum by done; reflexivity). done.
  - destruct (ref_named s Hck Hnk _ _ _ Hty) as (j & m' & -> & Hj & <- & _).
    cbn [c_get exec_c_get access exec_get]. rewrite Hx. cbn [or_panic bind]. rewrite (is_struct_typed _ _ _ _ Hty Ht).
    assert (Hsz : sz (TRef (m_name m') (Some j) q) = Z.to_nat (FixedSize m')) by (unfold sz; cbn; fold ms in Hj; by rewrite Hj).
    rewrite Hsz in *. rewrite !from_spec by lia.
    rewrite (Hsame j m'); [done|by apply Hready|done|by apply value_of_typed in Ht|rewrite length_drop; lia].
Qed.

Lemma same_get_elems elem nm off tn fs l n i b fuel' :
  leaf elem -> fixed_type s elem -> (forall j, refOf elem = Some j -> ready j) -> type_fuel s elem fuel' ->
  0 <= off -> 0 <= Size ms elem -> nm ∈ fst <$> fs -> (forall j x, l !! j = Some x -> typed ms elem x) ->
  (i + n)%nat = List.length l -> (Z.to_nat off + List.length l * sz elem <= List.length b)%nat ->
  let upd x := GStruct tn (assign_name fs nm x) in
  let o := OPlus (OAt off) (Size ms elem) in
  for_range (fun i m => exec_c_get (get_fixed (S fuel) ms) b (c_get ms elem (PElem (PName nm)) o) i m) i n (upd (GArr l)) =
  for_range (fun i m => exec_get (ipcgenGet (S fuel) ms) b (access ms elem (PElem (PName nm)) o false) i m) i n (upd (GArr l)).
Proof using Hck Hnk Hcallee Hho Hsame.
  intros Hleaf Hty Hready Hfuel H0 Hs Hnm Hl Hn Hb upd o. revert i l Hl Hn Hb.
  induction n as [|n IH]; intros i l Hl Hn Hb; cbn [for_range]; [done|].
  destruct (lookup_lt_is_Some_2 l i) as [x0 Hx0]; [lia|].
  assert (Hoff : Z.to_nat (offset_at o i) = (Z.to_nat off + i * sz elem)%nat) by (unfold sz; cbn; lia).
  assert (Hload : forall y k, load (upd y) k (PName nm) = Some y) by (intros y k; by apply lookup_assign).
  assert (Helem : forall x, store (upd (GArr l)) i (PElem (PName nm)) x = Some (upd (GArr (<[i:=x]> l)))).
  { intros x. rewrite (store_elem _ _ _ l) by (done || lia). cbn [store]. unfold upd. rewrite lookup_assign by done. by rewrite assign_assign. }
  assert (Hlx : load (upd (GArr l)) i (PElem (PName nm)) = Some x0) by (by rewrite (load_elem _ _ _ l)).
  assert (Hin : (Z.to_nat (offset_at o i) + sz elem <= List.length b)%nat) by (rewrite Hoff; nia).
  rewrite (same_get_leaf elem (PElem (PName nm)) o i _ x0) by (done || (by eapply Hl) || (cbn; lia) || (rewrite Hoff; nia)).
  pose proof (get_leaf s Hck Hnk (ipcgenGet (S fuel) ms) ready go_get elem (PElem (PName nm)) o i (upd (GArr l)) x0 b fuel'
    Hleaf Hty Hready Hfuel Hlx (Hl i x0 Hx0) ltac:(eauto) ltac:(cbn; lia) Hin) as Hg.
  fold ms in Hg. cbv zeta in Hg.
  destruct (checkType fuel' ms _ elem) as [[]| | |]; cbn [agrees] in Hg; [|by rewrite Hg|done..].
  destruct Hg as (m' & -> & x & Hm' & Htx & _). rewrite Helem in Hm'. injection Hm' as <-. cbn [bind].
  apply (IH (i + 1)%nat); [|rewrite length_insert; lia|by rewrite length_insert].
  intros j y. destruct (decide (j = i)) as [->|Hne]; [rewrite list_lookup_insert_eq by lia; by intros [= <-]|].
  rewrite list_lookup_insert_ne by done. apply Hl.
Qed.

Lemma same_get_field t nm off tn fs x0 b fuel' :
  fixed_type s t -> 0 <= Size ms t -> (forall j, refOf t = Some j -> ready j) -> type_fuel s t fuel' ->
  lookup_name fs nm = Some x0 -> typed ms t x0 -> 0 <= off -> (Z.to_nat off + sz t <= List.length b)%nat ->
  exec_c_get (get_fixed (S fuel) ms) b (c_get ms t (PName nm) (OAt off)) 0 (GStruct tn fs) =
  exec_get (ipcgenGet (S fuel) ms) b (access ms t (PName nm) (OAt off) false) 0 (GStruct tn fs).
Proof using Hck Hnk Hcallee Hho Hsame.
  intros Hty Hs Hready Hfuel Hx Ht H0 Hl. destruct t as [k q|len elem q|name msg q]; [by eapply same_get_leaf| |by eapply same_get_leaf].
  destruct (elem_facts s Hck len elem q Hty) as (Hlen & He & Hse & Hef). inversion Ht as [| | | |? ? ? l Hll Hxs|]; subst.
  assert (Hleaf : leaf elem) by (destruct Hty as [Hok _]; by destruct elem).
  assert (Hrd : forall j, refOf elem = Some j -> ready j) by (intros j Hj; apply Hready; by destruct elem).
  destruct fuel' as [|fuel']; [by destruct elem as [| |? []]; cbn in Hfuel; try lia; destruct Hfuel as (? & ? & ?)|].
  cbn [c_get access exec_c_get exec_get load]. rewrite Hx. cbn [range_of or_panic bind]. rewrite Nat2Z.id.
  rewrite <-(assign_same fs nm (GArr l) Hx).
  apply (same_get_elems elem nm off tn fs l (List.length l) 0 b fuel'); try done; auto.
  - apply lookup_name_is_Some. by exists (GArr l).
  - unfold sz in *. cbn [Size] in Hl. fold ms in Hse. nia.
Qed.

Lemma same_get_all i m l vs b fuel' :
  ms !! i = Some m -> (forall f, f ∈ l -> f ∈ FixedFields m) ->
  (forall f j, f ∈ m_fields m -> refOf (f_type f) = Some j -> ready j) -> message_fuel s i fuel' ->
  (Z.to_nat (FixedSize m) <= List.length b)%nat -> fields_typed s m vs ->
  exec_c_gets (get_fixed (S fuel) ms) b ((fun f => c_get ms (f_type f) (PName (field_id (f_name f))) (OAt (f_offset f))) <$> l)
    (GStruct (type_id (m_name m)) vs) =
  exec_gets (ipcgenGet (S fuel) ms) b
    ((fun f => access ms (f_type f) (PName (field_id (f_name f))) (OAt (f_offset f)) false) <$> l) (GStruct (type_id (m_name m)) vs).
Proof using Hck Hnk Hcallee Hho Hsame.
  intros Hm Hl Hready Hfuel Hb. revert vs. induction l as [|f l IH]; intros vs Hvs; cbn [exec_c_gets exec_gets fmap list_fmap]; [done|].
  assert (Hff : f ∈ FixedFields m) by (apply Hl; by left).
  destruct (field_facts s Hck i m f Hm Hff) as (Hty & H0 & Hle & Hs & Hfu). apply elem_fixed in Hff as [Hf _].
  fold ms in Hle, Hs. pose proof (fixed_size_nonneg s Hck i m Hm). destruct Hvs as [Hk Ht].
  destruct (struct_field m vs f Hk Hf) as [x0 Hx0].
  assert (Hin : (Z.to_nat (f_offset f) + sz (f_type f) <= List.length b)%nat) by (unfold sz; lia).
  rewrite (same_get_field _ _ _ _ _ x0 _ fuel') by (done || (by apply Hfu) || (by eapply Ht) || (intros j; by apply Hready)).
  pose proof (get_field s Hck Hnk (ipcgenGet (S fuel) ms) ready go_get (f_type f) (field_id (f_name f)) (f_offset f)
    (type_id (m_name m)) vs x0 b fuel' Hty Hs ltac:(intros j; by apply Hready) ltac:(by apply Hfu) Hx0 ltac:(by eapply Ht) H0 Hin) as Hg. fold ms in Hg.
  destruct (checkType fuel' ms _ _) as [[]| | |]; cbn [agrees] in Hg; [|by rewrite Hg|done..].
  destruct Hg as (m' & -> & x & -> & Htx & _). cbn [bind].
  apply IH; [intros; apply Hl; by right|]. by eapply (fields_typed_assign s Hck Hnk).
Qed.
End get.

Lemma get_fixed_same fuel i m v b :
  ms !! i = Some m -> value_of s m v -> message_fuel s i fuel -> (Z.to_nat (FixedSize m) <= List.length b)%nat ->
  get_fixed (S fuel) ms v b = ipcgenGet (S fuel) ms v b.
Proof using Hck Hnk Hcallee Hho.
  revert i m v b. induction fuel as [|fuel IH]; intros i m v b Hm Hv Hfu Hl.
  { destruct Hfu as (? & ? & _ & ?). lia. }
  destruct (value_of_struct s Hck Hnk i m v Hm Hv) as (fs & -> & Hst & Hk & Hx). fold ms in Hst.
  change (get_fixed (S (S fuel)) ms ?v ?b) with
    (let! m := or_panic (struct_of ms v) in exec_c_gets (get_fixed (S fuel) ms) b (c_body ms m false) v).
  change (ipcgenGet (S (S fuel)) ms ?v ?b) with
    (let! m := or_panic (struct_of ms v) in exec_gets (ipcgenGet (S fuel) ms) b (body ms m false) v).
  rewrite Hst. cbn [or_panic bind]. eapply (same_get_all fuel) with (i := i); try done.
  - intros j m' v' b' Hj Hm' Hv' Hl'. by eapply IH.
  - intros f j Hf. by eapply (ref_ready s Hck Hnk).
Qed.
End same.
End code.
