(* ===== verification/CCodec.v ===== *)
(** * Memory and variable fields of the generated C and C++

    Reads and writes of bytes through a pointer, as the helpers of the headers do them.
    [putvar], [getvar] and the body of the decoder are the same in the headers that
    [src/ipcgen/internal/gen/c.go] and [src/ipcgen/internal/gen/cpp.go] write. A [size_t]
    has [size_bits] bits and wraps. *)

From stdpp Require Import base numbers list list_numbers option strings gmap.
From coqutil Require Import Byte Word.LittleEndianList.
From Stdlib Require Import ZArith Lia Bool String Ascii.
From S2P Require Import Prelude GoStd Schema Check CheckThm Layout RefCodec RefCodecThm GoGen GoGenThm GoCodec Utf8 CCode.

#[local] Open Scope Z_scope.
#[local] Set Warnings "-register-all".
#[local] Open Scope codec_scope.

(** ** Bytes through a pointer *)

(** [p[i] = (uint8_t)v], and [p[i]]. *)
Definition poke {E} (p : list byte) (i : nat) (v : Z) : res E (list byte) :=
  if (i <? List.length p)%nat then Ok (<[i := byte.of_Z v]> p) else Panic.
Definition peek {E} (p : list byte) (i : nat) : res E Z :=
  match p !! i with Some x => Ok (byte.unsigned x) | None => Panic end.

Lemma poke_spec {E} p i v : poke (E := E) p i v = sub p (Z.of_nat i) (fun p => write p [byte.of_Z v]).
Proof.
  unfold poke, sub, write. rewrite (proj2 (Z.leb_le _ _)), Nat2Z.id by lia. cbn [andb List.length].
  destruct (Nat.ltb_spec i (List.length p)) as [Hi|Hi].
  - rewrite (proj2 (Z.leb_le _ _)), (proj2 (Nat.leb_le _ _)) by (rewrite ?length_drop; lia). cbn [bind app].
    rewrite drop_drop, insert_take_drop by done. by rewrite Nat.add_1_r.
  - rewrite (proj2 (Nat.leb_gt _ _)) by (rewrite length_drop; lia). by destruct (_ <=? _).
Qed.

Lemma write_app {E} p a b :
  write (E := E) p (a ++ b) = (let! p := write p a in sub p (Z.of_nat (List.length a)) (fun p => write p b)).
Proof.
  unfold write at 1 2. rewrite length_app. destruct (Nat.leb_spec (List.length a) (List.length p)) as [Ha|Ha].
  - cbn [bind]. unfold sub. rewrite Nat2Z.id, take_app_length, drop_app_length.
    rewrite (proj2 (Z.leb_le _ _)), (proj2 (Z.leb_le _ _)) by (rewrite ?length_app; lia). cbn [andb]. unfold write. rewrite length_drop.
    destruct (Nat.leb_spec (List.length a + List.length b) (List.length p)) as [Hb|Hb].
    + rewrite (proj2 (Nat.leb_le _ _)) by lia. cbn [bind]. by rewrite drop_drop, app_assoc.
    + by rewrite (proj2 (Nat.leb_gt _ _)) by lia.
  - by rewrite (proj2 (Nat.leb_gt _ _)) by lia.
Qed.

Lemma write_sub0 {E} p l : sub (E := E) p 0 (fun p => write p l) = write p l.
Proof. unfold sub. cbn [Z.leb Z.compare andb]. rewrite (proj2 (Z.leb_le _ _)) by lia. cbn. rewrite drop_0. unfold write. by destruct (_ <=? _)%nat. Qed.

Lemma le_split_add n k v : le_split (n + k) v = le_split n v ++ le_split k (Z.shiftr v (8 * Z.of_nat n)).
Proof.
  revert v. induction n as [|n IH]; intros v; [by rewrite Z.shiftr_0_r|]. change (S n + k)%nat with (S (n + k)).
  change (le_split (S ?n) v) with (byte.of_Z v :: le_split n (Z.shiftr v 8)). rewrite IH, Z.shiftr_shiftr by lia. cbn [app].
  do 4 f_equal; lia.
Qed.

Lemma put_u8_spec p n : poke p 0 n = (write p (le_split 1 n) : res unit _).
Proof. rewrite poke_spec. change (Z.of_nat 0) with 0. by rewrite write_sub0. Qed.

(** What a reader of [n] bytes returns. *)
Definition reads {E} (n : nat) (f : list byte -> res E Z) : Prop :=
  forall p, f p = if (n <=? List.length p)%nat then Ok (le_combine (take n p)) else Panic.

Lemma get_u8_spec {E} : reads (E := E) 1 (fun p => peek p 0).
Proof.
  intros [|a p]; [reflexivity|]. cbn [peek lookup list_lookup List.length Nat.leb]. change (take 1 (a :: p)) with [a].
  by rewrite le_combine_1.
Qed.

Lemma reads_of_bits n k (f : list byte -> dec Z) :
  reads n f -> n = Z.to_nat (ScalarSize k) -> forall p,
  (let! u := f p in Ok (of_bits k u)) =
  if (Z.to_nat (ScalarSize k) <=? List.length p)%nat then Ok (of_bits k (le_combine (take (Z.to_nat (ScalarSize k)) p))) else Panic.
Proof. intros Hf -> p. rewrite Hf. by destruct (_ <=? _)%nat. Qed.

(** ** Variable fields *)

Section code.
Context {N : Naming}.
Context (callee : list Message -> string -> option nat -> string).
Context (putk : Kind -> gval -> list byte -> res unit (list byte)) (getk : Kind -> list byte -> dec gval).
Context (size_bits : Z).

Definition size_t (z : Z) : Z := z mod 2 ^ size_bits.

(** The bytes of a field are copied when there are any. *)
Definition put_var (buf : list byte) (off : Z) (raw : list byte) : res unit (list byte * Z) :=
  let n := Z.of_nat (List.length raw) in
  let! buf := sub buf off (putk U32 (GInt (u32 n))) in
  let! buf := if 0 <? n then sub buf (off + 4) (fun p => write p raw) else Ok buf in
  Ok (buf, size_t (off + 4 + n)).

Fixpoint put_vars (buf : list byte) (off : Z) (l : list (list byte)) : res unit (list byte * Z) :=
  match l with
  | [] => Ok (buf, off)
  | raw :: l => let! (buf, off) := put_var buf off raw in put_vars buf off l
  end.

(** The bytes that the pointer and the length of the result select, and the new offset. *)
Definition get_var (buf : list byte) (off : Z) : dec (list byte * Z) :=
  let len := Z.of_nat (List.length buf) in
  if size_t (len - off) <? 4 then Error ErrLength
  else
    let! v := from buf off (getk U32) in
    match v with
    | GInt k =>
        let off := size_t (off + 4) in
        if size_t (len - off) <? k then Error ErrLength
        else Ok (take (Z.to_nat k) (drop (Z.to_nat off) buf), size_t (off + k))
    | _ => Panic
    end.

(** The statements of the decoder for the variable fields. *)
Fixpoint get_vars (buf : list byte) (off : Z) (fs : list Field) (v : gval) : dec (gval * Z) :=
  match fs with
  | [] => Ok (v, off)
  | f :: fs =>
      let! (raw, off) := get_var buf off in
      let assign := or_panic (store v 0 (PName (field_id (f_name f))) (GRaw raw)) in
      match f_type f with
      | TBasic KString _ =>
          let! ok := or_panic (ipcgen_utf8 raw) in
          if negb ok then Error ErrUTF8 else let! v := assign in get_vars buf off fs v
      | _ => let! v := assign in get_vars buf off fs v
      end
  end.

(** The decoder; [v] is the struct before the call. *)
Definition decode_into (ms : list Message) (m : Message) (v : gval) (buf : list byte) : dec gval :=
  let len := Z.of_nat (List.length buf) in
  if (0 <? FixedSize m) && (len <? FixedSize m) then Error ErrShort
  else
    let! v := get_fixed callee getk (S (fuel_for ms)) ms v buf in
    let! (v, off) := get_vars buf (FixedSize m) (VarFields m) v in
    if negb (off =? len) then Error ErrTrailing else Ok v.

Context (s : Schema) (Hck : checked s) (Hnk : naming_ok s) (Hcallee : callee_ok callee s) (Hho : helpers_ok putk getk).
Context (Hbits : 32 <= size_bits).
Let ms := s_messages s.

Lemma size_t_small z : 0 <= z < 2 ^ size_bits -> size_t z = z.
Proof using. apply Z.mod_small. Qed.

Lemma size_bound : 2 ^ 32 <= 2 ^ size_bits.
Proof using Hbits. by apply Z.pow_le_mono_r. Qed.

Lemma put_var_ok pre tl raw :
  Z.of_nat (List.length raw) < 2 ^ 32 -> (List.length (frame raw) <= List.length tl)%nat ->
  Z.of_nat (List.length (pre ++ tl)) < 2 ^ size_bits ->
  put_var (pre ++ tl) (Z.of_nat (List.length pre)) raw =
  Ok ((pre ++ frame raw) ++ drop (List.length (frame raw)) tl, Z.of_nat (List.length (pre ++ frame raw))).
Proof using Hho Hbits.
  rewrite length_frame, length_app. intros H32 Hl Hb. set (n := Z.of_nat (List.length raw)).
  assert (Hlen : List.length (pre ++ frame raw) = (List.length pre + 4 + List.length raw)%nat) by (rewrite length_app, length_frame; lia).
  unfold put_var. fold n. rewrite u32_small by lia.
  rewrite (sub_intro _ _ _ (le_split 4 n ++ drop 4 tl)); [|rewrite length_app; lia|].
  2:{ rewrite Nat2Z.id, drop_app_length. rewrite (ho_put _ _ Hho U32 (GInt n) n); [|done|done| |cbn; lia].
      - unfold write. rewrite (proj2 (Nat.leb_le _ _)) by (rewrite length_le_split; cbn; lia). by rewrite length_le_split.
      - cbn [bits_of IsFloat ScalarSize]. f_equal. apply Z.mod_small. lia. }
  cbn [bind]. rewrite Nat2Z.id, take_app_length.
  assert (Hraw : (if 0 <? n then sub (pre ++ le_split 4 n ++ drop 4 tl) (Z.of_nat (List.length pre) + 4) (fun p => write p raw)
                  else Ok (pre ++ le_split 4 n ++ drop 4 tl)) = (Ok ((pre ++ frame raw) ++ drop (4 + List.length raw) tl) : res unit _)).
  { unfold frame. fold n. rewrite (app_assoc pre). set (p := pre ++ le_split 4 n).
    assert (Hp : Z.to_nat (Z.of_nat (List.length pre) + 4) = List.length p) by (unfold p; rewrite length_app, length_le_split; lia).
    destruct (Z.ltb_spec 0 n) as [Hn|Hn].
    - rewrite (sub_intro _ _ _ (raw ++ drop (4 + List.length raw) tl)).
      + rewrite Hp, take_app_length. unfold p. by rewrite !app_assoc.
      + unfold p. rewrite !length_app, length_le_split, length_drop. lia.
      + rewrite Hp, drop_app_length. unfold write. rewrite length_drop, (proj2 (Nat.leb_le _ _)) by lia.
        by rewrite drop_drop.
    - destruct raw; [|unfold n in Hn; cbn in Hn; lia]. unfold p. by rewrite app_nil_r. }
  rewrite Hraw. cbn [bind]. rewrite size_t_small by lia. do 2 f_equal. rewrite Hlen. lia.
Qed.

Lemma put_vars_ok l pre tl :
  fits l -> (List.length (frames l) <= List.length tl)%nat -> Z.of_nat (List.length (pre ++ tl)) < 2 ^ size_bits ->
  put_vars (pre ++ tl) (Z.of_nat (List.length pre)) l =
  Ok (pre ++ frames l ++ drop (List.length (frames l)) tl, Z.of_nat (List.length pre + List.length (frames l))).
Proof using Hho Hbits.
  intros Hfit. revert pre tl. induction Hfit as [|raw l Hr _ IH]; intros pre tl Hl Hb; cbn [put_vars].
  { cbn. by rewrite drop_0, Nat.add_0_r. }
  rewrite frames_cons, length_app in *. rewrite put_var_ok by (rewrite ?length_app; done || lia). cbn [bind].
  rewrite IH by (rewrite ?length_app, ?length_drop; lia). rewrite drop_drop, <-!app_assoc. do 2 f_equal. rewrite length_app. lia.
Qed.

(** The writes of an encoder after its checks. *)
Lemma encode_ok i m v l :
  ms !! i = Some m -> value_of s m v -> raws m v = Some l -> fits l ->
  exists fixed, List.length fixed = Z.to_nat (FixedSize m) /\ MarshalBinary ms v = Ok (fixed ++ frames l) /\
    forall tl,
      put_fixed callee putk (S (fuel_for ms)) ms v (replicate (Z.to_nat (FixedSize m)) Byte.x00 ++ tl) = Ok (fixed ++ tl) /\
      ((List.length (frames l) <= List.length tl)%nat -> Z.of_nat (List.length (fixed ++ tl)) < 2 ^ size_bits ->
       put_vars (fixed ++ tl) (FixedSize m) l =
         Ok (fixed ++ frames l ++ drop (List.length (frames l)) tl, msg_Size m l)).
Proof using Hck Hnk Hcallee Hho Hbits.
  intros Hm Hv Hl Hfit. pose proof (fixed_size_nonneg s Hck i m Hm) as H0.
  destruct (MarshalBinary_ok s Hck Hnk i m v l Hm Hv Hl Hfit) as (fixed & Hlen & _ & Hput & Hmar & _).
  exists fixed. split_and!; [done..|]. intros tl. split.
  - rewrite (put_fixed_same callee putk getk s Hck Hnk Hcallee Hho (fuel_for ms) i m); [|done..| | |].
    + destruct (plain_ipcgenPut (E := unit) (S (fuel_for ms)) ms v) as [Hplain _]. exact (Hplain _ _ tl Hput).
    + apply (message_fuel_enough s Hck). by eapply lookup_lt_Some.
    + rewrite length_app, length_replicate. lia.
    + intros k Hk. rewrite lookup_app_l by (rewrite length_replicate; lia). apply lookup_replicate. split; [done|lia].
  - intros Hf Hb. replace (FixedSize m) with (Z.of_nat (List.length fixed)) by lia.
    rewrite put_vars_ok by done. do 2 f_equal. rewrite msg_Size_frames. lia.
Qed.

Lemma get_vars_same b off fs v :
  Z.of_nat (List.length b) < 2 ^ size_bits -> 0 <= off <= Z.of_nat (List.length b) ->
  get_vars b off fs v = getVars b off fs v.
Proof using Hho Hbits.
  intros Hb. revert off v. induction fs as [|f fs IH]; intros off v Hoff; cbn [get_vars getVars]; [done|].
  pose proof size_bound as H32. unfold get_var, ipcgenGetVar. rewrite size_t_small by lia.
  destruct (Z.ltb_spec (Z.of_nat (List.length b) - off) 4) as [|Hl4]; [done|].
  rewrite !from_spec by lia. rewrite (ho_get _ _ Hho U32) by done.
  rewrite (proj2 (Nat.leb_le _ _)) by (rewrite length_drop; cbn; lia). change (Z.to_nat (ScalarSize U32)) with 4%nat.
  rewrite (proj2 (Nat.leb_le _ _)) by (rewrite length_drop; lia). cbn [bind of_bits IsFloat IsSigned]. cbv zeta.
  set (n := le_combine (take 4 (drop (Z.to_nat off) b))).
  assert (Hn : 0 <= n) by apply le_combine_bound.
  rewrite (size_t_small (off + 4)), size_t_small by lia.
  destruct (Z.ltb_spec (Z.of_nat (List.length b) - (off + 4)) n) as [|Hln]; [done|]. cbn [bind].
  rewrite size_t_small by lia. set (raw := take _ _). rewrite ipcgen_utf8_Valid. cbn [or_panic bind].
  assert (Hrest : (let! v := or_panic (store v 0 (PName (field_id (f_name f))) (GRaw raw)) in get_vars b (off + 4 + n) fs v) =
                  (let! v := or_panic (store v 0 (PName (field_id (f_name f))) (GRaw raw)) in getVars b (off + 4 + n) fs v)).
  { destruct (or_panic _); try done. cbn [bind]. apply IH. lia. }
  rewrite Hrest. done.
Qed.

Lemma decode_into_ok i m v b :
  ms !! i = Some m -> value_of s m v -> Z.of_nat (List.length b) < 2 ^ size_bits ->
  agrees (Decode ms m b) (decode_into ms m v b)
    (reads_from s b m).
Proof using Hck Hnk Hcallee Hho Hbits.
  intros Hm Hv Hb. pose proof (fixed_size_nonneg s Hck i m Hm) as H0.
  assert (Hfu : message_fuel s i (fuel_for ms)) by (apply (message_fuel_enough s Hck); by eapply lookup_lt_Some).
  destruct (value_of_struct s Hck Hnk i m v Hm Hv) as (fs & Hv' & _ & Hk & Hx).
  pose proof (unmarshal_ok s Hck Hnk i m fs b Hm (conj Hk Hx)) as Hu. fold ms in Hu. rewrite <-Hv' in Hu.
  unfold decode_into. destruct (Z.ltb_spec (Z.of_nat (List.length b)) (FixedSize m)) as [Hs|Hs].
  { by rewrite (proj2 (Z.ltb_lt 0 _)) by lia. }
  rewrite andb_false_r, (get_fixed_same callee putk getk s Hck Hnk Hcallee Hho _ i m) by (done || lia). fold ms.
  destruct (ipcgenGet _ ms v b) as [v1| | |]; try done. cbn [bind] in *. by rewrite get_vars_same.
Qed.
End code.
