(* ===== verification/CGenText.v ===== *)
(** * The text of the generated C ([src/ipcgen/internal/gen/c.go])

    The header that [genC] writes, line by line. The statements of [put] and [get] are
    those of [CCode]; here they are printed. *)

From stdpp Require Import base numbers list list_numbers option strings gmap pretty.
From Stdlib Require Import ZArith Bool String Ascii.
From S2P Require Import Prelude GoStd Schema Tools GoGen CCode.

#[local] Set Warnings "-register-all".
#[local] Open Scope string_scope.
#[local] Open Scope Z_scope.
#[local] Open Scope list_scope.

(** The identifiers of C: a field keeps its name, and a struct has the prefix of the
    package and the name of its message in snake case. *)
Definition c_naming (p : string) : Naming :=
  {| field_id := fun name => name; type_id := fun name => (p +:+ "_" +:+ Snake name) |}.

(** [t.Msg], the message that [Check] resolved a reference to. *)
Definition c_callee (ms : list Message) (name : string) (msg : option nat) : string :=
  match msg ≫= (fun i => ms !! i) with Some m => m_name m | None => "" end.

Fixpoint ToUpper (s : string) : string :=
  match s with EmptyString => EmptyString | String c s => String (to_upper c) (ToUpper s) end.

(** [p] and [P] of the generator, and the messages that types refer to. *)
Record cGen : Type := mkCGen { cg_p : string; cg_P : string; cg_ms : list Message }.

Definition cHelpers : list string := [
  "";
  "#define UPFX_IPCGEN_ESHORT (-1)    /* The input is shorter than the fixed section. */";
  "#define UPFX_IPCGEN_ELENGTH (-2)   /* A length runs past the end of the input. */";
  "#define UPFX_IPCGEN_ETRAILING (-3) /* Bytes remain after the last field. */";
  "#define UPFX_IPCGEN_EBOOL (-4)     /* A bool is neither 0 nor 1. */";
  "#define UPFX_IPCGEN_EUTF8 (-5)     /* A string is not valid UTF-8. */";
  "";
  "typedef struct PFX_ipcgen_str {";
  ind 1 "const char *ptr;";
  ind 1 "size_t len;";
  "} PFX_ipcgen_str;";
  "";
  "typedef struct PFX_ipcgen_bytes {";
  ind 1 "const uint8_t *ptr;";
  ind 1 "size_t len;";
  "} PFX_ipcgen_bytes;";
  "";
  "typedef char PFX_ipcgen_float_is_32_bits[sizeof(float) == 4 ? 1 : -1];";
  "typedef char PFX_ipcgen_double_is_64_bits[sizeof(double) == 8 ? 1 : -1];";
  "";
  "static inline void PFX_ipcgen_put_bool(uint8_t *p, bool v) { p[0] = v ? 1 : 0; }";
  "static inline void PFX_ipcgen_put_u8(uint8_t *p, uint8_t v) { p[0] = v; }";
  "static inline void PFX_ipcgen_put_i8(uint8_t *p, int8_t v) { p[0] = (uint8_t)v; }";
  "static inline void PFX_ipcgen_put_u16(uint8_t *p, uint16_t v) {";
  ind 1 "p[0] = (uint8_t)v;";
  ind 1 "p[1] = (uint8_t)(v >> 8);";
  "}";
  "static inline void PFX_ipcgen_put_i16(uint8_t *p, int16_t v) { PFX_ipcgen_put_u16(p, (uint16_t)v); }";
  "static inline void PFX_ipcgen_put_u32(uint8_t *p, uint32_t v) {";
  ind 1 "PFX_ipcgen_put_u16(p, (uint16_t)v);";
  ind 1 "PFX_ipcgen_put_u16(p + 2, (uint16_t)(v >> 16));";
  "}";
  "static inline void PFX_ipcgen_put_i32(uint8_t *p, int32_t v) { PFX_ipcgen_put_u32(p, (uint32_t)v); }";
  "static inline void PFX_ipcgen_put_u64(uint8_t *p, uint64_t v) {";
  ind 1 "PFX_ipcgen_put_u32(p, (uint32_t)v);";
  ind 1 "PFX_ipcgen_put_u32(p + 4, (uint32_t)(v >> 32));";
  "}";
  "static inline void PFX_ipcgen_put_i64(uint8_t *p, int64_t v) { PFX_ipcgen_put_u64(p, (uint64_t)v); }";
  "static inline void PFX_ipcgen_put_f32(uint8_t *p, float v) {";
  ind 1 "uint32_t u;";
  ind 1 "memcpy(&u, &v, sizeof u);";
  ind 1 "PFX_ipcgen_put_u32(p, u);";
  "}";
  "static inline void PFX_ipcgen_put_f64(uint8_t *p, double v) {";
  ind 1 "uint64_t u;";
  ind 1 "memcpy(&u, &v, sizeof u);";
  ind 1 "PFX_ipcgen_put_u64(p, u);";
  "}";
  "";
  "static inline uint8_t PFX_ipcgen_get_u8(const uint8_t *p) { return p[0]; }";
  "static inline int8_t PFX_ipcgen_get_i8(const uint8_t *p) {";
  ind 1 "int8_t v;";
  ind 1 "memcpy(&v, p, sizeof v);";
  ind 1 "return v;";
  "}";
  "static inline uint16_t PFX_ipcgen_get_u16(const uint8_t *p) { return (uint16_t)(p[0] | p[1] << 8); }";
  "static inline int16_t PFX_ipcgen_get_i16(const uint8_t *p) {";
  ind 1 "uint16_t u = PFX_ipcgen_get_u16(p);";
  ind 1 "int16_t v;";
  ind 1 "memcpy(&v, &u, sizeof v);";
  ind 1 "return v;";
  "}";
  "static inline uint32_t PFX_ipcgen_get_u32(const uint8_t *p) {";
  ind 1 "return (uint32_t)PFX_ipcgen_get_u16(p) | (uint32_t)PFX_ipcgen_get_u16(p + 2) << 16;";
  "}";
  "static inline int32_t PFX_ipcgen_get_i32(const uint8_t *p) {";
  ind 1 "uint32_t u = PFX_ipcgen_get_u32(p);";
  ind 1 "int32_t v;";
  ind 1 "memcpy(&v, &u, sizeof v);";
  ind 1 "return v;";
  "}";
  "static inline uint64_t PFX_ipcgen_get_u64(const uint8_t *p) {";
  ind 1 "return (uint64_t)PFX_ipcgen_get_u32(p) | (uint64_t)PFX_ipcgen_get_u32(p + 4) << 32;";
  "}";
  "static inline int64_t PFX_ipcgen_get_i64(const uint8_t *p) {";
  ind 1 "uint64_t u = PFX_ipcgen_get_u64(p);";
  ind 1 "int64_t v;";
  ind 1 "memcpy(&v, &u, sizeof v);";
  ind 1 "return v;";
  "}";
  "static inline float PFX_ipcgen_get_f32(const uint8_t *p) {";
  ind 1 "uint32_t u = PFX_ipcgen_get_u32(p);";
  ind 1 "float v;";
  ind 1 "memcpy(&v, &u, sizeof v);";
  ind 1 "return v;";
  "}";
  "static inline double PFX_ipcgen_get_f64(const uint8_t *p) {";
  ind 1 "uint64_t u = PFX_ipcgen_get_u64(p);";
  ind 1 "double v;";
  ind 1 "memcpy(&v, &u, sizeof v);";
  ind 1 "return v;";
  "}";
  "";
  "/* PFX_ipcgen_addvar adds a length prefix and n bytes to *total. It returns 0 when n or the total does not fit. */";
  "static inline int PFX_ipcgen_addvar(size_t *total, size_t n) {";
  ind 1 "if ((uint64_t)n > UINT32_MAX || *total > SIZE_MAX - 4 || *total + 4 > SIZE_MAX - n) {";
  ind 2 "return 0;";
  ind 1 "}";
  ind 1 "*total += 4 + n;";
  ind 1 "return 1;";
  "}";
  "";
  "static inline size_t PFX_ipcgen_putvar(uint8_t *buf, size_t off, const void *ptr, size_t n) {";
  ind 1 "PFX_ipcgen_put_u32(buf + off, (uint32_t)n);";
  ind 1 "if (n > 0) {";
  ind 2 "memcpy(buf + off + 4, ptr, n);";
  ind 1 "}";
  ind 1 "return off + 4 + n;";
  "}";
  "";
  "static inline int PFX_ipcgen_getvar(const uint8_t *buf, size_t len, size_t *off, const uint8_t **ptr, size_t *n) {";
  ind 1 "uint32_t k;";
  ind 1 "if (len - *off < 4) {";
  ind 2 "return UPFX_IPCGEN_ELENGTH;";
  ind 1 "}";
  ind 1 "k = PFX_ipcgen_get_u32(buf + *off);";
  ind 1 "*off += 4;";
  ind 1 "if ((uint64_t)k > (uint64_t)(len - *off)) {";
  ind 2 "return UPFX_IPCGEN_ELENGTH;";
  ind 1 "}";
  ind 1 "*ptr = buf + *off;";
  ind 1 "*n = k;";
  ind 1 "*off += k;";
  ind 1 "return 0;";
  "}";
  "";
  "/* PFX_ipcgen_utf8 reports whether s holds valid UTF-8, with no overlong form and no surrogate. */";
  "static inline int PFX_ipcgen_utf8(const uint8_t *s, size_t n) {";
  ind 1 "size_t i = 0;";
  ind 1 "while (i < n) {";
  ind 2 "uint8_t c = s[i];";
  ind 2 "uint32_t cp, min;";
  ind 2 "size_t k, j;";
  ind 2 "if (c < 0x80) {";
  ind 3 "i++;";
  ind 3 "continue;";
  ind 2 "}";
  ind 2 "if ((c & 0xE0) == 0xC0) {";
  ind 3 "k = 1, cp = c & 0x1F, min = 0x80;";
  ind 2 "} else if ((c & 0xF0) == 0xE0) {";
  ind 3 "k = 2, cp = c & 0x0F, min = 0x800;";
  ind 2 "} else if ((c & 0xF8) == 0xF0) {";
  ind 3 "k = 3, cp = c & 0x07, min = 0x10000;";
  ind 2 "} else {";
  ind 3 "return 0;";
  ind 2 "}";
  ind 2 "if (n - i - 1 < k) {";
  ind 3 "return 0;";
  ind 2 "}";
  ind 2 "for (j = 1; j <= k; j++) {";
  ind 3 "if ((s[i + j] & 0xC0) != 0x80) {";
  ind 4 "return 0;";
  ind 3 "}";
  ind 3 "cp = cp << 6 | (s[i + j] & 0x3F);";
  ind 2 "}";
  ind 2 "if (cp < min || cp > 0x10FFFF || (cp >= 0xD800 && cp <= 0xDFFF)) {";
  ind 3 "return 0;";
  ind 2 "}";
  ind 2 "i += k + 1;";
  ind 1 "}";
  ind 1 "return 1;";
  "}"].

(** [strings.NewReplacer("UPFX", P, "PFX", p)]. *)
Fixpoint Replace (P p : string) (s : string) : string :=
  match s with
  | String "U" (String "P" (String "F" (String "X" s))) => P +:+ Replace P p s
  | String "P" (String "F" (String "X" s)) => p +:+ Replace P p s
  | String c s => String c (Replace P p s)
  | EmptyString => EmptyString
  end.

Definition c_helpers (g : cGen) : list string := Replace (cg_P g) (cg_p g) <$> cHelpers.

Definition cType (g : cGen) (t : Typ) : string :=
  match t with
  | TRef name msg _ => cg_p g +:+ "_" +:+ Snake (c_callee (cg_ms g) name msg)
  | TBasic KString _ => cg_p g +:+ "_ipcgen_str"
  | TBasic KBytes _ => cg_p g +:+ "_ipcgen_bytes"
  | TBasic KBool _ => "bool"
  | TBasic F32 _ => "float"
  | TBasic F64 _ => "double"
  | TBasic k _ => (if IsSigned k then "int" else "uint") +:+ tail_string (Kind_String k) +:+ "_t"
  | TArray _ _ _ => "uint" +:+ tail_string "array" +:+ "_t"
  end.

(** What [put] and [get] write at an indentation. *)
Fixpoint c_print (g : cGen) (n : nat) (st : cstmt) : list string :=
  let val := c_place "m->" in
  let fn message := cg_p g +:+ "_ipcgen_" +:+ Snake message in
  match st with
  | CFor len body =>
      [ind n ("for (size_t i = 0; i < " +:+ pretty len +:+ "; i++) {")] ++ c_print g (S n) body ++ [ind n "}"]
  | CPutRef message v off => [ind n (fn message +:+ "_put(&" +:+ val v +:+ ", p + " +:+ c_offset off +:+ ");")]
  | CPut k v off =>
      [ind n (cg_p g +:+ "_ipcgen_put_" +:+ Kind_String k +:+ "(p + " +:+ c_offset off +:+ ", " +:+ val v +:+ ");")]
  | CGetRef message v off =>
      [ind n "{";
       ind (S n) ("int rc = " +:+ fn message +:+ "_get(&" +:+ val v +:+ ", p + " +:+ c_offset off +:+ ");");
       ind (S n) "if (rc != 0) {";
       ind (S (S n)) "return rc;";
       ind (S n) "}";
       ind n "}"]
  | CGetBool v off =>
      [ind n ("if (p[" +:+ c_offset off +:+ "] > 1) {");
       ind (S n) ("return " +:+ cg_P g +:+ "_IPCGEN_EBOOL;");
       ind n "}";
       ind n (val v +:+ " = p[" +:+ c_offset off +:+ "] == 1;")]
  | CGet k v off =>
      [ind n (val v +:+ " = " +:+ cg_p g +:+ "_ipcgen_get_" +:+ Kind_String k +:+ "(p + " +:+ c_offset off +:+ ");")]
  end.

Definition c_size_text (g : cGen) (m : Message) (name : string) : list string :=
  ["";
   "/* " +:+ name +:+ "_size returns the encoded size of m, or SIZE_MAX when a field is longer than 4 GiB. */";
   "static inline size_t " +:+ name +:+ "_size(const " +:+ name +:+ " *m) {"] ++
  (if Fixed m then [ind 1 "(void)m;"; ind 1 ("return " +:+ pretty (FixedSize m) +:+ ";"); "}"]
   else
     let checks := (fun f => "!" +:+ cg_p g +:+ "_ipcgen_addvar(&n, m->" +:+ f_name f +:+ ".len)") <$> VarFields m in
     [ind 1 ("size_t n = " +:+ pretty (FixedSize m) +:+ ";");
      ind 1 ("if (" +:+ Join checks " || " +:+ ") {");
      ind 2 "return SIZE_MAX;";
      ind 1 "}";
      ind 1 "return n;";
      "}"]).

Definition c_encode_text (g : cGen) (m : Message) (name internal : string) : list string :=
  ["";
   "static inline size_t " +:+ name +:+ "_encode(const " +:+ name +:+ " *m, uint8_t *buf, size_t cap) {";
   ind 1 ("size_t n = " +:+ name +:+ "_size(m);")] ++
  (if negb (Fixed m) then
     [ind 1 ("size_t off = " +:+ pretty (FixedSize m) +:+ ";");
      ind 1 "if (n == SIZE_MAX || cap < n) {"; ind 2 "return 0;"; ind 1 "}"]
   else if 0 <? FixedSize m then [ind 1 "if (cap < n) {"; ind 2 "return 0;"; ind 1 "}"]
   else [ind 1 "(void)buf;"; ind 1 "(void)cap;"]) ++
  (if 0 <? FixedSize m then
     [ind 1 ("memset(buf, 0, " +:+ pretty (FixedSize m) +:+ ");"); ind 1 (internal +:+ "_put(m, buf);")]
   else []) ++
  ((fun f => ind 1 ("off = " +:+ cg_p g +:+ "_ipcgen_putvar(buf, off, m->" +:+ f_name f +:+ ".ptr, m->" +:+ f_name f +:+ ".len);"))
     <$> VarFields m) ++
  [ind 1 "return n;"; "}"].

Definition c_decode_text (g : cGen) (m : Message) (name internal : string) : list string :=
  ["";
   "static inline int " +:+ name +:+ "_decode(" +:+ name +:+ " *m, const uint8_t *buf, size_t len) {";
   ind 1 ("size_t off = " +:+ pretty (FixedSize m) +:+ ";")] ++
  (if negb (Fixed m) then [ind 1 "const uint8_t *ptr;"; ind 1 "size_t n;"] else []) ++
  [ind 1 "int rc;"] ++
  (if 0 <? FixedSize m then
     [ind 1 ("if (len < " +:+ pretty (FixedSize m) +:+ ") {"); ind 2 ("return " +:+ cg_P g +:+ "_IPCGEN_ESHORT;"); ind 1 "}"]
   else []) ++
  [ind 1 ("rc = " +:+ internal +:+ "_get(m, buf);"); ind 1 "if (rc != 0) {"; ind 2 "return rc;"; ind 1 "}"] ++
  mjoin ((fun f =>
    [ind 1 ("rc = " +:+ cg_p g +:+ "_ipcgen_getvar(buf, len, &off, &ptr, &n);");
     ind 1 "if (rc != 0) {"; ind 2 "return rc;"; ind 1 "}"] ++
    match f_type f with
    | TBasic KString _ =>
        [ind 1 ("if (!" +:+ cg_p g +:+ "_ipcgen_utf8(ptr, n)) {");
         ind 2 ("return " +:+ cg_P g +:+ "_IPCGEN_EUTF8;"); ind 1 "}";
         ind 1 ("m->" +:+ f_name f +:+ ".ptr = (const char *)ptr;")]
    | _ => [ind 1 ("m->" +:+ f_name f +:+ ".ptr = ptr;")]
    end ++
    [ind 1 ("m->" +:+ f_name f +:+ ".len = n;")]) <$> VarFields m) ++
  [ind 1 "if (off != len) {"; ind 2 ("return " +:+ cg_P g +:+ "_IPCGEN_ETRAILING;"); ind 1 "}"; ind 1 "return 0;"; "}"].

(** The names of a message in C. *)
Definition c_name (p : string) (m : Message) : string := (p +:+ "_" +:+ Snake (m_name m)).
Definition c_internal (p : string) (m : Message) : string := (p +:+ "_ipcgen_" +:+ Snake (m_name m)).

Definition c_message (g : cGen) (m : Message) : list string :=
  let name := c_name (cg_p g) m in
  let upper := cg_P g +:+ "_" +:+ ToUpper (Snake (m_name m)) in
  let internal := c_internal (cg_p g) m in
  let unused := match FixedFields m with [] => [ind 1 "(void)m;"; ind 1 "(void)p;"] | _ => [] end in
  let body put := mjoin (c_print g 1 <$> c_body (N := c_naming (cg_p g)) c_callee (cg_ms g) m put) in
  ["";
   "/* " +:+ m_name m +:+ " */";
   "#define " +:+ upper +:+ "_TYPE UINT32_C(" +:+ pretty (m_id m) +:+ ")";
   "#define " +:+ upper +:+ "_FIXED_SIZE " +:+ pretty (FixedSize m);
   "";
   "typedef struct " +:+ name +:+ " {"] ++
  ((fun f => match f_type f with
             | TArray len elem _ => ind 1 (cType g elem +:+ " " +:+ f_name f +:+ "[" +:+ pretty len +:+ "];")
             | t => ind 1 (cType g t +:+ " " +:+ f_name f +:+ ";")
             end) <$> m_fields m) ++
  match m_fields m with [] => [ind 1 "char ipcgen_unused; /* C has no empty struct. */"] | _ => [] end ++
  ["} " +:+ name +:+ ";";
   "";
   "static inline void " +:+ internal +:+ "_put(const " +:+ name +:+ " *m, uint8_t *p) {"] ++ unused ++ body true ++
  ["}";
   "";
   "static inline int " +:+ internal +:+ "_get(" +:+ name +:+ " *m, const uint8_t *p) {"] ++ unused ++ body false ++
  [ind 1 "return 0;"; "}"] ++
  c_size_text g m name ++ c_encode_text g m name internal ++ c_decode_text g m name internal.

(** [s.Sorted]: every message after the messages it contains. *)
Definition sorted_messages (s : Schema) : list Message :=
  omap (fun i => s_messages s !! i) (s_sorted s).

Definition genC_lines (s : Schema) : list string :=
  let g := mkCGen (s_package s) (ToUpper (s_package s)) (s_messages s) in
  ["/* " +:+ Header +:+ " */";
   "/*";
   " * Messages of package " +:+ cg_p g +:+ ", from " +:+ Base (s_file s) +:+ ". Header-only C99.";
   " * <m>_encode returns the bytes written, or 0 when cap is too small or a field is longer than 4 GiB.";
   " * <m>_decode returns 0, or a negative " +:+ cg_P g +:+ "_IPCGEN_E* code when the input is malformed.";
   " * Decode does not copy: string and bytes fields point into the input. On failure *m is unspecified.";
   " */";
   "#ifndef " +:+ cg_P g +:+ "_IPCGEN_H";
   "#define " +:+ cg_P g +:+ "_IPCGEN_H";
   "";
   "#include <stdbool.h>";
   "#include <stddef.h>";
   "#include <stdint.h>";
   "#include <string.h>";
   "";
   "#ifdef __cplusplus";
   "extern " +:+ quoted "C" +:+ " {";
   "#endif"] ++
  c_helpers g ++ mjoin (c_message g <$> sorted_messages s) ++
  [""; "#ifdef __cplusplus"; "}"; "#endif"; ""; "#endif"].

(** The file: every line ends in a newline. *)
Definition file_of (l : list string) : string := String.concat "" ((fun l => l +:+ newline) <$> l).

Definition genC (s : Schema) : string := file_of (genC_lines s).
