(* ===== verification/CGen.v ===== *)
(** * What the generated C does ([src/ipcgen/internal/gen/c.go])

    The helpers of the header byte by byte, [size], [encode] and [decode] of a message
    with a [size_t] of [size_bits] bits, and that they are the reference codec. *)

From stdpp Require Import base numbers list list_numbers option strings gmap.
From coqutil Require Import Byte Word.LittleEndianList.
From Stdlib Require Import ZArith Lia Bool String Ascii.
From S2P Require Import Prelude GoStd Schema Check CheckThm Layout RefCodec RefCodecThm GoGen GoGenThm GoCodec CCode CCodec CGenText.

#[local] Open Scope Z_scope.
#[local] Set Warnings "-register-all".
#[local] Open Scope codec_scope.

(** ** The helpers *)

Definition u16 (z : Z) : Z := z mod 2 ^ 16.

Definition ipcgen_put_u16 {E} (p : list byte) (v : Z) : res E (list byte) :=
  let! p := poke p 0 v in poke p 1 (Z.shiftr v 8).
Definition ipcgen_put_u32 {E} (p : list byte) (v : Z) : res E (list byte) :=
  let! p := ipcgen_put_u16 p (u16 v) in sub p 2 (fun p => ipcgen_put_u16 p (u16 (Z.shiftr v 16))).
Definition ipcgen_put_u64 {E} (p : list byte) (v : Z) : res E (list byte) :=
  let! p := ipcgen_put_u32 p (u32 v) in sub p 4 (fun p => ipcgen_put_u32 p (u32 (Z.shiftr v 32))).

(** The helper of a scalar type. The conversion of a signed number to the unsigned type
    wraps; [memcpy] of a float gives its bits. *)
Definition ipcgen_put (k : Kind) (v : gval) (p : list byte) : res unit (list byte) :=
  match k, v with
  | KBool, GBool x => poke p 0 (if x then 1 else 0)
  | U8, GInt n | I8, GInt n => poke p 0 n
  | U16, GInt n => ipcgen_put_u16 p n
  | I16, GInt n => ipcgen_put_u16 p (u16 n)
  | U32, GInt n => ipcgen_put_u32 p n
  | I32, GInt n => ipcgen_put_u32 p (u32 n)
  | U64, GInt n => ipcgen_put_u64 p n
  | I64, GInt n => ipcgen_put_u64 p (u64 n)
  | F32, GFloat u => ipcgen_put_u32 p u
  | F64, GFloat u => ipcgen_put_u64 p u
  | _, _ => Panic
  end.

Definition ipcgen_get_u16 {E} (p : list byte) : res E Z :=
  let! lo := peek p 0 in let! hi := peek p 1 in Ok (u16 (Z.lor lo (Z.shiftl hi 8))).
Definition ipcgen_get_u32 {E} (p : list byte) : res E Z :=
  let! lo := ipcgen_get_u16 p in let! hi := from p 2 ipcgen_get_u16 in Ok (Z.lor lo (u32 (Z.shiftl hi 16))).
Definition ipcgen_get_u64 {E} (p : list byte) : res E Z :=
  let! lo := ipcgen_get_u32 p in let! hi := from p 4 ipcgen_get_u32 in Ok (Z.lor lo (u64 (Z.shiftl hi 32))).

(** [memcpy] into a signed or a floating variable keeps the bits. *)
Definition ipcgen_get (k : Kind) (p : list byte) : dec gval :=
  match k with
  | U8 | I8 => let! u := peek p 0 in Ok (of_bits k u)
  | U16 | I16 => let! u := ipcgen_get_u16 p in Ok (of_bits k u)
  | U32 | I32 | F32 => let! u := ipcgen_get_u32 p in Ok (of_bits k u)
  | U64 | I64 | F64 => let! u := ipcgen_get_u64 p in Ok (of_bits k u)
  | _ => Panic
  end.

(** ** The functions of a message *)

Section functions.
Context (size_bits : Z).
#[local] Abbreviation size_t := (size_t size_bits).

Definition SIZE_MAX : Z := 2 ^ size_bits - 1.
Definition UINT32_MAX : Z := 0xFFFFFFFF.

(** The new total, or [None] when the function returns 0. *)
Definition ipcgen_addvar (total n : Z) : option Z :=
  if (UINT32_MAX <? n) || (SIZE_MAX - 4 <? total) || (size_t (SIZE_MAX - n) <? size_t (total + 4)) then None
  else Some (size_t (total + size_t (4 + n))).

Definition ipcgen_putvar := put_var ipcgen_put size_bits.
Definition ipcgen_getvar := get_var ipcgen_get size_bits.

(** [package] is the prefix of every name. *)
Context (package : string).
#[local] Abbreviation C := (c_naming package).

(** [l] are the variable fields. *)
Definition c_size (m : Message) (l : list (list byte)) : Z :=
  if Fixed m then FixedSize m
  else
    match foldl (fun n raw => n ≫= (fun n => ipcgen_addvar n (Z.of_nat (List.length raw)))) (Some (FixedSize m)) l with
    | Some n => n
    | None => SIZE_MAX
    end.

(** [buf] after the call and the result; the length of [buf] is [cap]. *)
Definition c_encode (ms : list Message) (v : gval) (buf : list byte) : res unit (list byte * Z) :=
  let! m := or_panic (struct_of (N := C) ms v) in
  let! l := or_panic (raws (N := C) m v) in
  let n := c_size m l in
  let cap := Z.of_nat (List.length buf) in
  let fails := if negb (Fixed m) then (n =? SIZE_MAX) || (cap <? n) else if 0 <? FixedSize m then cap <? n else false in
  if fails then Ok (buf, 0)
  else
    let! buf :=
      if 0 <? FixedSize m then
        let! buf := write buf (replicate (Z.to_nat (FixedSize m)) Byte.x00) in
        put_fixed (N := C) c_callee ipcgen_put (S (fuel_for ms)) ms v buf
      else Ok buf in
    let! (buf, _) := put_vars ipcgen_put size_bits buf (FixedSize m) l in
    Ok (buf, n).

(** The new struct. An error stands for its code. *)
Definition c_decode (ms : list Message) (v : gval) (buf : list byte) : dec gval :=
  let! m := or_panic (struct_of (N := C) ms v) in
  decode_into (N := C) c_callee ipcgen_get size_bits ms m v buf.
End functions.

(** The return values of [decode]. *)
Definition IPCGEN_E (e : decode_kind) : Z :=
  match e with ErrShort => -1 | ErrLength => -2 | ErrTrailing => -3 | ErrBool => -4 | ErrUTF8 => -5 end.
Definition decode_rc (r : dec gval) : option Z :=
  match r with Ok _ => Some 0 | Error e => Some (IPCGEN_E e) | _ => None end.

(** ** The helpers write and read the little-endian form *)

Lemma put_u16_spec {E} p v : ipcgen_put_u16 (E := E) p v = write p (le_split 2 v).
Proof.
  unfold ipcgen_put_u16. rewrite poke_spec. change (Z.of_nat 0) with 0. rewrite write_sub0.
  change (le_split 2 v) with ([byte.of_Z v] ++ [byte.of_Z (Z.shiftr v 8)]). rewrite write_app.
  destruct (write p _); [|done..]. cbn [bind]. by rewrite poke_spec.
Qed.

Lemma put_halves {E} n (f : list byte -> Z -> res E (list byte)) p v :
  (forall p v, f p v = write p (le_split n v)) ->
  (let! p := f p (v mod 2 ^ (8 * Z.of_nat n)) in
   sub p (Z.of_nat n) (fun p => f p (Z.shiftr v (8 * Z.of_nat n) mod 2 ^ (8 * Z.of_nat n)))) = write p (le_split (n + n) v).
Proof.
  intros Hf. rewrite le_split_add, write_app, Hf, le_split_mod, length_le_split.
  destruct (write p _); [|done..]. cbn [bind]. unfold sub. by rewrite Hf, le_split_mod.
Qed.

Lemma put_u32_spec {E} p v : ipcgen_put_u32 (E := E) p v = write p (le_split 4 v).
Proof. apply (put_halves 2 ipcgen_put_u16). intros; apply put_u16_spec. Qed.

Lemma put_u64_spec {E} p v : ipcgen_put_u64 (E := E) p v = write p (le_split 8 v).
Proof. apply (put_halves 4 ipcgen_put_u32). intros; apply put_u32_spec. Qed.

Lemma get_halves {E} n (f : list byte -> res E Z) :
  (0 < n)%nat -> reads n f ->
  reads (n + n) (fun p => let! lo := f p in let! hi := from p (Z.of_nat n) f in
    Ok (Z.lor lo (Z.shiftl hi (8 * Z.of_nat n) mod 2 ^ (2 * (8 * Z.of_nat n))))).
Proof.
  intros Hn Hf p. rewrite Hf. destruct (Nat.leb_spec n (List.length p)) as [H1|H1].
  2:{ by rewrite (proj2 (Nat.leb_gt _ _)) by lia. }
  cbn [bind]. rewrite from_spec, Nat2Z.id, Hf, length_drop by lia.
  destruct (Nat.leb_spec n (List.length p - n)) as [H2|H2].
  2:{ by rewrite (proj2 (Nat.leb_gt _ _)) by lia. }
  rewrite (proj2 (Nat.leb_le _ _)) by lia. cbn [bind]. f_equal.
  rewrite <-(take_take_drop p n n), le_combine_app, length_take_le by lia.
  pose proof (le_combine_bound (take n (drop n p))) as Hb. rewrite length_take_le in Hb by (rewrite length_drop; lia).
  rewrite Z.mod_small; [do 2 f_equal; lia|]. rewrite Z.shiftl_mul_pow2 by lia.
  replace (2 ^ (2 * (8 * Z.of_nat n))) with (2 ^ (8 * Z.of_nat n) * 2 ^ (8 * Z.of_nat n)) by (rewrite <-Z.pow_add_r by lia; f_equal; lia).
  nia.
Qed.

Lemma get_u16_spec {E} : reads (E := E) 2 ipcgen_get_u16.
Proof.
  intros [|a [|b p]]; [reflexivity..|].
  assert (Hc : le_combine [a; b] = Z.lor (byte.unsigned a) (Z.shiftl (byte.unsigned b) 8)).
  { change (le_combine [a; b]) with (Z.lor (byte.unsigned a) (Z.shiftl (Z.lor (byte.unsigned b) (Z.shiftl 0 8)) 8)).
    by rewrite Z.shiftl_0_l, Z.lor_0_r. }
  change (take 2 (a :: b :: p)) with [a; b]. rewrite Hc. unfold ipcgen_get_u16, peek. cbn [lookup list_lookup bind List.length Nat.leb].
  f_equal. rewrite <-Hc. apply Z.mod_small, (le_combine_bound [a; b]).
Qed.

Lemma get_u32_spec {E} : reads (E := E) 4 ipcgen_get_u32.
Proof. apply (get_halves 2 ipcgen_get_u16); [lia|apply get_u16_spec]. Qed.

Lemma get_u64_spec {E} : reads (E := E) 8 ipcgen_get_u64.
Proof. apply (get_halves 4 ipcgen_get_u32); [lia|apply get_u32_spec]. Qed.

Lemma c_helpers_ok : helpers_ok ipcgen_put ipcgen_get.
Proof.
  split.
  - intros x p. cbn [ipcgen_put]. rewrite put_u8_spec. by destruct x.
  - intros k v bits p Hk Hv Hb Hr. unfold bits_of in Hb.
    destruct v as [|n|u| | |]; try done; destruct k; try done; injection Hb as <-;
      change (Z.to_nat (ScalarSize _)) with 1%nat || change (Z.to_nat (ScalarSize _)) with 2%nat ||
      change (Z.to_nat (ScalarSize _)) with 4%nat || change (Z.to_nat (ScalarSize _)) with 8%nat;
      cbn [ipcgen_put ScalarSize]; rewrite ?put_u8_spec, ?put_u16_spec, ?put_u32_spec, ?put_u64_spec; f_equal.
    all: try done.
    all: symmetry; first [exact (le_split_mod 1 n)|exact (le_split_mod 2 n)|exact (le_split_mod 4 n)|exact (le_split_mod 8 n)].
  - intros k p Hk Hv. unfold ipcgen_get.
    destruct k; try done;
      first [by apply (reads_of_bits 1 _ _ get_u8_spec)|by apply (reads_of_bits 2 _ _ get_u16_spec)
            |by apply (reads_of_bits 4 _ _ get_u32_spec)|by apply (reads_of_bits 8 _ _ get_u64_spec)].
Qed.

(** ** The names *)

Lemma append_inj p a b : (p +:+ a = p +:+ b)%string -> a = b.
Proof. induction p as [|c p IH]; [done|]. intros [= H]. by apply IH. Qed.

Lemma c_naming_ok p s : checked s -> naming_ok (N := c_naming p) s.
Proof.
  intros Hck. pose proof (no_messages _ (ck_names _ Hck)) as Hno. split.
  - intros i m Hm. by destruct (proj1 (Forall_lookup _ _) (mo_fields _ Hno) i m Hm) as (_ & ? & _).
  - pose proof (mo_snakes _ Hno) as H. cbn [type_id c_naming].
    apply (NoDup_fmap_2_strong (fun n => p +:+ "_" +:+ n)%string) in H; [by rewrite <-list_fmap_compose in H|].
    intros x y _ _ E%append_inj. by injection E.
Qed.

Lemma c_callee_ok s : callee_ok c_callee s.
Proof. intros name msg (i & m & -> & Hm & <- & _). unfold c_callee. cbn [mbind option_bind]. by rewrite Hm. Qed.

(** ** Encoding *)

Section theorems.
Context (size_bits : Z) (package : string) (s : Schema) (Hck : checked s) (Hbits : 32 <= size_bits).
#[local] Abbreviation C := (c_naming package).
Let ms := s_messages s.
Let Hnk : naming_ok (N := C) s := c_naming_ok package s Hck.

Lemma addvar_ok total n :
  0 <= total -> 0 <= n < 2 ^ 32 ->
  ipcgen_addvar size_bits total n = if SIZE_MAX size_bits <? total + (4 + n) then None else Some (total + (4 + n)).
Proof using Hbits.
  intros H0 Hn. pose proof (size_bound size_bits Hbits) as H32. unfold ipcgen_addvar, UINT32_MAX, SIZE_MAX.
  rewrite (proj2 (Z.ltb_ge _ n)) by lia. cbn [orb].
  destruct (Z.ltb_spec (2 ^ size_bits - 1 - 4) total) as [Hbig|Hbig]; cbn [orb]; [by rewrite (proj2 (Z.ltb_lt _ _)) by lia|].
  rewrite (size_t_small _ (2 ^ size_bits - 1 - n)), (size_t_small _ (total + 4)) by lia.
  destruct (Z.ltb_spec (2 ^ size_bits - 1 - n) (total + 4)) as [Hbig'|Hbig']; [by rewrite (proj2 (Z.ltb_lt _ _)) by lia|].
  rewrite (proj2 (Z.ltb_ge _ _)) by lia. by rewrite (size_t_small _ (4 + n)), size_t_small by lia.
Qed.

Lemma addvars_ok l total :
  0 <= total -> fits l ->
  let sum := total + foldr (fun raw n => 4 + Z.of_nat (List.length raw) + n) 0 l in
  match foldl (fun n raw => n ≫= (fun n => ipcgen_addvar size_bits n (Z.of_nat (List.length raw)))) (Some total) l with
  | Some n => n = sum
  | None => SIZE_MAX size_bits < sum
  end.
Proof using Hbits.
  intros H0 Hfit. revert total H0. induction Hfit as [|raw l Hr Hl IH]; intros total H0; cbn [foldl foldr]; [lia|].
  assert (Hrest : 0 <= foldr (fun (raw : list byte) n => 4 + Z.of_nat (List.length raw) + n) 0 l) by (clear; induction l; cbn [foldr]; lia).
  assert (Hstuck : foldl (fun n (raw : list byte) => n ≫= (fun n => ipcgen_addvar size_bits n (Z.of_nat (List.length raw)))) None l = None)
    by (clear; by induction l).
  cbn [mbind option_bind]. rewrite addvar_ok by lia.
  destruct (Z.ltb_spec (SIZE_MAX size_bits) (total + (4 + Z.of_nat (List.length raw)))) as [Hbig|Hbig]; [rewrite Hstuck; lia|].
  specialize (IH (total + (4 + Z.of_nat (List.length raw))) ltac:(lia)). cbn zeta in IH. destruct (foldl _ _ l); lia.
Qed.

(** A field of 4 GiB or more is refused. *)
Lemma addvars_long l total :
  0 <= total -> ~ fits l ->
  foldl (fun n raw => n ≫= (fun n => ipcgen_addvar size_bits n (Z.of_nat (List.length raw)))) (Some total) l = None.
Proof using Hbits.
  revert total. induction l as [|raw l IH]; intros total H0 Hfit; [by destruct Hfit; constructor|]. cbn [foldl mbind option_bind].
  assert (Hstuck : foldl (fun n (raw : list byte) => n ≫= (fun n => ipcgen_addvar size_bits n (Z.of_nat (List.length raw)))) None l = None)
    by (clear; by induction l).
  destruct (decide (Z.of_nat (List.length raw) < 2 ^ 32)) as [Hr|Hr].
  - rewrite addvar_ok by lia. destruct (_ <? _); [done|]. apply IH; [lia|]. intros Hl. apply Hfit. by constructor.
  - assert (Hno : ipcgen_addvar size_bits total (Z.of_nat (List.length raw)) = None).
    { unfold ipcgen_addvar, UINT32_MAX. by rewrite (proj2 (Z.ltb_lt _ (Z.of_nat _))) by lia. }
    by rewrite Hno.
Qed.

Lemma c_encode_ok i m v l buf :
  ms !! i = Some m -> value_of (N := C) s m v -> raws (N := C) m v = Some l -> Z.of_nat (List.length buf) < SIZE_MAX size_bits ->
  (fits l -> exists e, MarshalBinary (N := C) ms v = Ok e /\ Z.of_nat (List.length e) = msg_Size m l /\
     c_encode size_bits package ms v buf =
       Ok (if Z.of_nat (List.length buf) <? msg_Size m l then (buf, 0) else (e ++ drop (List.length e) buf, msg_Size m l))) /\
  (~ fits l -> c_encode size_bits package ms v buf = Ok (buf, 0)).
Proof using Hck Hbits.
  intros Hm Hv Hl Hbuf. pose proof (fixed_size_nonneg s Hck i m Hm) as H0.
  destruct (value_of_struct s Hck Hnk i m v Hm Hv) as (fs & _ & Hst & _). fold ms in Hst.
  assert (Hfixed : Fixed m = true -> l = []).
  { unfold Fixed. unfold raws in Hl. destruct (VarFields m); [by injection Hl|done]. }
  unfold c_encode. rewrite Hst. cbn [or_panic bind]. rewrite Hl. cbn [or_panic bind]. cbv zeta. split; intros Hfit.
  - destruct (encode_ok c_callee ipcgen_put ipcgen_get size_bits s Hck Hnk (c_callee_ok s) c_helpers_ok Hbits i m v l Hm Hv Hl Hfit)
      as (fixed & Hlen & Hmar & Hrun).
    assert (Hsz : Z.of_nat (List.length (fixed ++ frames l)) = msg_Size m l) by (rewrite length_app, msg_Size_frames; lia).
    exists (fixed ++ frames l). split_and!; [done..|].
    pose proof (addvars_ok l (FixedSize m) H0 Hfit) as Hadd. cbn zeta in Hadd. fold (msg_Size m l) in Hadd.
    assert (Hguard : (if negb (Fixed m) then (c_size size_bits m l =? SIZE_MAX size_bits) || (Z.of_nat (List.length buf) <? c_size size_bits m l)
       else if 0 <? FixedSize m then Z.of_nat (List.length buf) <? c_size size_bits m l else false) =
       (Z.of_nat (List.length buf) <? msg_Size m l) /\
       (msg_Size m l <= Z.of_nat (List.length buf) -> c_size size_bits m l = msg_Size m l)).
    { unfold c_size. destruct (Fixed m) eqn:Hfx; cbn [negb].
      - rewrite Hfixed by done. unfold msg_Size. cbn [foldr]. rewrite Z.add_0_r. split; [|done].
        destruct (Z.ltb_spec 0 (FixedSize m)); [done|]. symmetry. apply Z.ltb_ge. lia.
      - destruct (foldl _ _ l) as [n|]; [subst n|].
        + split; [|done]. destruct (Z.eqb_spec (msg_Size m l) (SIZE_MAX size_bits)) as [He|]; [|done].
          symmetry. apply Z.ltb_lt. lia.
        + rewrite Z.eqb_refl. split; [|lia]. symmetry. apply Z.ltb_lt. lia. }
    destruct Hguard as [-> Hn]. destruct (Z.ltb_spec (Z.of_nat (List.length buf)) (msg_Size m l)) as [|Hle]; [done|].
    rewrite (Hn Hle). rewrite msg_Size_frames in Hle.
    set (tl := drop (Z.to_nat (FixedSize m)) buf). destruct (Hrun tl) as [Hput Hvars].
    assert (Hfix : (if 0 <? FixedSize m then
        let! buf := write buf (replicate (Z.to_nat (FixedSize m)) Byte.x00) in put_fixed (N := C) c_callee ipcgen_put (S (fuel_for ms)) ms v buf
      else Ok buf) = Ok (fixed ++ tl)).
    { unfold tl. destruct (Z.ltb_spec 0 (FixedSize m)) as [Hp|Hp].
      - unfold write. rewrite length_replicate, (proj2 (Nat.leb_le _ _)) by lia. cbn [bind]. exact Hput.
      - assert (FixedSize m = 0) as E by lia. rewrite E in Hlen |- *. apply nil_length_inv in Hlen as ->. by rewrite drop_0. }
    rewrite Hfix. cbn [bind]. rewrite Hvars; [|unfold tl; rewrite length_drop; lia|].
    + cbn [bind]. unfold tl. rewrite drop_drop, !length_app, <-app_assoc, Hlen. done.
    + unfold tl. rewrite length_app, length_drop. unfold SIZE_MAX in Hbuf. lia.
  - unfold c_size. destruct (Fixed m) eqn:Hfx; [by destruct Hfit; rewrite Hfixed by done; constructor|]. cbn [negb].
    by rewrite addvars_long, Z.eqb_refl.
Qed.

(** ** Decoding *)

Lemma c_decode_ok i m v b :
  ms !! i = Some m -> value_of (N := C) s m v -> Z.of_nat (List.length b) < 2 ^ size_bits ->
  agrees (Decode ms m b) (c_decode size_bits package ms v b)
    (reads_from (N := C) s b m).
Proof using Hck Hbits.
  intros Hm Hv Hb. destruct (value_of_struct s Hck Hnk i m v Hm Hv) as (fs & _ & Hst & _). fold ms in Hst.
  unfold c_decode. rewrite Hst. cbn [or_panic bind].
  by apply (decode_into_ok c_callee ipcgen_put ipcgen_get size_bits s Hck Hnk (c_callee_ok s) c_helpers_ok Hbits i).
Qed.

(** The bytes of the reference encoder, and the struct they are read as. *)
Lemma c_reference i m v b :
  ms !! i = Some m -> Encode ms m v = Ok b -> Z.of_nat (List.length b) < 2 ^ 32 ->
  exists g, value_of (N := C) s m g /\ denotes_message (N := C) ms m v g /\
    (forall e, value_of (N := C) s m e -> c_decode size_bits package ms e b = Ok g) /\
    forall buf, (List.length b <= List.length buf)%nat -> Z.of_nat (List.length buf) < SIZE_MAX size_bits ->
      c_encode size_bits package ms g buf = Ok (b ++ drop (List.length b) buf, Z.of_nat (List.length b)).
Proof using Hck Hbits.
  intros Hm He Hlt. pose proof (size_bound size_bits Hbits) as H32.
  destruct (encodes_as_reference s Hck Hnk i m v b Hm He Hlt) as (g & l & Hg & Hl & Hfit & Hden & Hmar & Hu).
  exists g. split_and!; [done..| |].
  - intros e Hv. apply Hu, (c_decode_ok i); [done..|lia].
  - intros buf Hle Hbuf. destruct (c_encode_ok i m g l buf Hm Hg Hl Hbuf) as [Hok _].
    destruct (Hok Hfit) as (e & Hmar' & Hsz & ->). fold ms in Hmar. rewrite Hmar in Hmar'. injection Hmar' as <-.
    rewrite <-Hsz, (proj2 (Z.ltb_ge _ _)) by lia. done.
Qed.
End theorems.

(** C5: on a schema that [Check] accepted, the generated C encoder, called with a buffer
    that is long enough, writes the bytes that the generated Go encodes the same fields
    to, leaves the rest of the buffer and returns their number; when the buffer is too
    short, a field has 4 GiB or more or the size overflows a [size_t], it returns 0 and
    writes nothing. No call writes or reads out of range. *)
Theorem c_encode_correct (size_bits : Z) (s : Schema) (i : nat) (m : Message) (v : gval) (l : list (list byte)) (buf : list byte) :
  let C := c_naming (s_package s) in
  checked s -> 32 <= size_bits -> s_messages s !! i = Some m -> value_of (N := C) s m v -> raws (N := C) m v = Some l ->
  Z.of_nat (List.length buf) < SIZE_MAX size_bits ->
  (fits l -> exists e, MarshalBinary (N := C) (s_messages s) v = Ok e /\ Z.of_nat (List.length e) = msg_Size m l /\
     c_encode size_bits (s_package s) (s_messages s) v buf =
       Ok (if Z.of_nat (List.length buf) <? msg_Size m l then (buf, 0) else (e ++ drop (List.length e) buf, msg_Size m l))) /\
  (~ fits l -> c_encode size_bits (s_package s) (s_messages s) v buf = Ok (buf, 0)).
Proof. intros C Hck Hbits Hm Hv Hl Hbuf. by apply (c_encode_ok size_bits (s_package s) s Hck Hbits i). Qed.

Definition demo_c_point (x y : Z) : gval := GStruct "demo_point" [("x", GInt x); ("y", GInt y)]%string.
Definition demo_c : gval :=
  GStruct "demo_shape" [("tag", GInt 7); ("name", GRaw [Byte.x61; Byte.x62]);
                   ("points", GArr [demo_c_point (-1) 2; demo_c_point 3 18446744073709551615]);
                   ("closed", GBool true)]%string.

Lemma demo_c_typed : value_of (N := c_naming (s_package demo_checked)) demo_checked demo_shape demo_c.
Proof. apply (typedb_typed (N := c_naming (s_package demo_checked)) 5). vm_compute. reflexivity. Qed.

Lemma demo_c_raws : raws (N := c_naming (s_package demo_checked)) demo_shape demo_c = Some demo_raws.
Proof. vm_compute. reflexivity. Qed.

(** With a [size_t] of 32 bits. *)
Lemma c_encode_correct_witness : exists e,
  MarshalBinary (N := c_naming (s_package demo_checked)) (s_messages demo_checked) demo_c = Ok e /\
  c_encode 32 (s_package demo_checked) (s_messages demo_checked) demo_c (replicate 60 Byte.xff) = Ok (e ++ drop (List.length e) (replicate 60 Byte.xff), 54) /\
  c_encode 32 (s_package demo_checked) (s_messages demo_checked) demo_c (replicate 53 Byte.xff) = Ok (replicate 53 Byte.xff, 0).
Proof.
  destruct (c_encode_correct 32 demo_checked 0 demo_shape demo_c demo_raws (replicate 60 Byte.xff) demo_checked_ok ltac:(lia)
    demo_shape_lookup demo_c_typed demo_c_raws) as [H _]; [vm_compute; reflexivity|].
  destruct (c_encode_correct 32 demo_checked 0 demo_shape demo_c demo_raws (replicate 53 Byte.xff) demo_checked_ok ltac:(lia)
    demo_shape_lookup demo_c_typed demo_c_raws) as [H' _]; [vm_compute; reflexivity|].
  assert (Hs : msg_Size demo_shape demo_raws = 54) by (vm_compute; reflexivity). rewrite Hs in H, H'.
  destruct (H demo_raws_fit) as (e & He & _ & Hto). destruct (H' demo_raws_fit) as (e' & _ & _ & Hto').
  exists e. split; [exact He|]. split; [exact Hto|exact Hto'].
Defined.

(** ** Names *)

(** The messages [Item] and [ItemSize]. *)
Definition clash_schema : Schema :=
  let p := mkPos 1 1 in
  mkSchema "demo.ipc" "demo" p
    [mkMessage "Item" 1 [mkField "id" (TBasic U32 p) p 0] p p 0 0;
     mkMessage "ItemSize" 2 [mkField "width" (TBasic U32 p) p 0] p p 0 0]%string [] ∅.

Definition clash_checked : Schema := match Check_ clash_schema with Some (inr s) => s | _ => clash_schema end.

Lemma has_line x l : List.existsb (String.eqb x) l = true -> x ∈ l.
Proof. intros (y & Hy & ->%String.eqb_eq)%existsb_exists. by apply list_elem_of_In. Qed.

(** [Check] accepts a schema with a message [Item] and a message [ItemSize], and the
    generated C header declares [demo_item_size] twice, as a function and as a type. *)
Theorem c_name_clash : exists s,
  Check_ clash_schema = Some (inr s) /\
  "static inline size_t demo_item_size(const demo_item *m) {"%string ∈ genC_lines s /\
  "typedef struct demo_item_size {"%string ∈ genC_lines s /\ "} demo_item_size;"%string ∈ genC_lines s.
Proof.
  exists clash_checked. split_and!; [vm_compute; reflexivity|..]; apply has_line; vm_compute; reflexivity.
Qed.
