(* ===== verification/CppGenText.v ===== *)
(** * The text of the generated C++ ([src/ipcgen/internal/gen/cpp.go])

    The header that [genCpp] writes, line by line. *)

From stdpp Require Import base numbers list list_numbers option strings gmap pretty.
From Stdlib Require Import ZArith Bool String Ascii.
From S2P Require Import Prelude GoStd Schema Tools GoGen CCode CGenText.

#[local] Set Warnings "-register-all".
#[local] Open Scope string_scope.
#[local] Open Scope Z_scope.
#[local] Open Scope list_scope.

(** Fields and structs keep their names. *)
Definition cpp_naming : Naming := {| field_id := fun name => name; type_id := fun name => name |}.

(** The overload of [put_fixed] or [get_fixed] is the one of the type of the field. *)
Definition cpp_callee (ms : list Message) (name : string) (msg : option nat) : string := name.

Definition cppHelpers : list string := [
  "";
  "#pragma once";
  "";
  "#include <algorithm>";
  "#include <array>";
  "#include <bit>";
  "#include <cstddef>";
  "#include <cstdint>";
  "#include <cstring>";
  "#include <limits>";
  "#include <optional>";
  "#include <span>";
  "#include <string>";
  "#include <type_traits>";
  "#include <vector>"].

Definition cppDetail : list string := [
  "";
  "namespace ipcgen {";
  "";
  "static_assert(std::numeric_limits<float>::is_iec559 && sizeof(float) == 4);";
  "static_assert(std::numeric_limits<double>::is_iec559 && sizeof(double) == 8);";
  "";
  "template <class T>";
  "inline void put(std::byte *p, T v) noexcept {";
  ind 1 "if constexpr (std::is_same_v<T, bool>) {";
  ind 2 "p[0] = std::byte{static_cast<unsigned char>(v ? 1 : 0)};";
  ind 1 "} else if constexpr (std::is_floating_point_v<T>) {";
  ind 2 "using U = std::conditional_t<sizeof(T) == 4, std::uint32_t, std::uint64_t>;";
  ind 2 "put(p, std::bit_cast<U>(v));";
  ind 1 "} else {";
  ind 2 "using U = std::make_unsigned_t<T>;";
  ind 2 "U u = static_cast<U>(v);";
  ind 2 "for (std::size_t i = 0; i < sizeof(T); i++) {";
  ind 3 "p[i] = static_cast<std::byte>(u >> (8 * i));";
  ind 2 "}";
  ind 1 "}";
  "}";
  "";
  "template <class T>";
  "inline T get(const std::byte *p) noexcept {";
  ind 1 "if constexpr (std::is_floating_point_v<T>) {";
  ind 2 "using U = std::conditional_t<sizeof(T) == 4, std::uint32_t, std::uint64_t>;";
  ind 2 "return std::bit_cast<T>(get<U>(p));";
  ind 1 "} else {";
  ind 2 "using U = std::make_unsigned_t<T>;";
  ind 2 "U u = 0;";
  ind 2 "for (std::size_t i = 0; i < sizeof(T); i++) {";
  ind 3 "u = static_cast<U>(u | static_cast<U>(std::to_integer<U>(p[i]) << (8 * i)));";
  ind 2 "}";
  ind 2 "return static_cast<T>(u);";
  ind 1 "}";
  "}";
  "";
  "inline bool fits(std::size_t n) noexcept { return static_cast<std::uint64_t>(n) <= 0xFFFFFFFFu; }";
  "";
  "inline std::size_t put_var(std::byte *out, std::size_t off, const void *p, std::size_t n) noexcept {";
  ind 1 "put<std::uint32_t>(out + off, static_cast<std::uint32_t>(n));";
  ind 1 "if (n > 0) {";
  ind 2 "std::memcpy(out + off + 4, p, n);";
  ind 1 "}";
  ind 1 "return off + 4 + n;";
  "}";
  "";
  "inline bool get_var(std::span<const std::byte> in, std::size_t &off, std::span<const std::byte> &out) noexcept {";
  ind 1 "if (in.size() - off < 4) {";
  ind 2 "return false;";
  ind 1 "}";
  ind 1 "std::uint32_t n = get<std::uint32_t>(in.data() + off);";
  ind 1 "off += 4;";
  ind 1 "if (n > in.size() - off) {";
  ind 2 "return false;";
  ind 1 "}";
  ind 1 "out = in.subspan(off, n);";
  ind 1 "off += n;";
  ind 1 "return true;";
  "}";
  "";
  "// utf8 reports whether s holds valid UTF-8, with no overlong form and no surrogate.";
  "inline bool utf8(std::span<const std::byte> s) noexcept {";
  ind 1 "std::size_t i = 0, n = s.size();";
  ind 1 "while (i < n) {";
  ind 2 "auto c = std::to_integer<std::uint32_t>(s[i]);";
  ind 2 "std::uint32_t cp = 0, min = 0;";
  ind 2 "std::size_t k = 0;";
  ind 2 "if (c < 0x80) {";
  ind 3 "i++;";
  ind 3 "continue;";
  ind 2 "}";
  ind 2 "if ((c & 0xE0) == 0xC0) {";
  ind 3 "k = 1, cp = c & 0x1F, min = 0x80;";
  ind 2 "} else if ((c & 0xF0) == 0xE0) {";
  ind 3 "k = 2, cp = c & 0x0F, min = 0x800;";
  ind 2 "} else if ((c & 0xF8) == 0xF0) {";
  ind 3 "k = 3, cp = c & 0x07, min = 0x10000;";
  ind 2 "} else {";
  ind 3 "return false;";
  ind 2 "}";
  ind 2 "if (n - i - 1 < k) {";
  ind 3 "return false;";
  ind 2 "}";
  ind 2 "for (std::size_t j = 1; j <= k; j++) {";
  ind 3 "auto d = std::to_integer<std::uint32_t>(s[i + j]);";
  ind 3 "if ((d & 0xC0) != 0x80) {";
  ind 4 "return false;";
  ind 3 "}";
  ind 3 "cp = cp << 6 | (d & 0x3F);";
  ind 2 "}";
  ind 2 "if (cp < min || cp > 0x10FFFF || (cp >= 0xD800 && cp <= 0xDFFF)) {";
  ind 3 "return false;";
  ind 2 "}";
  ind 2 "i += k + 1;";
  ind 1 "}";
  ind 1 "return true;";
  "}";
  "";
  "} // namespace ipcgen"].

Fixpoint cppType (t : Typ) : string :=
  match t with
  | TArray len elem _ => "std::array<" +:+ cppType elem +:+ ", " +:+ pretty len +:+ ">"
  | TRef name _ _ => name
  | TBasic KString _ => "std::string"
  | TBasic KBytes _ => "std::vector<std::byte>"
  | TBasic KBool _ => "bool"
  | TBasic F32 _ => "float"
  | TBasic F64 _ => "double"
  | TBasic k _ => (if IsSigned k then "std::int" else "std::uint") +:+ tail_string (Kind_String k) +:+ "_t"
  end.

Definition cpp_decl (m : Message) : list string :=
  ["";
   "struct " +:+ m_name m +:+ " {";
   ind 1 ("static constexpr std::uint32_t type_id = " +:+ pretty (m_id m) +:+ ";");
   ind 1 ("static constexpr std::size_t fixed_size = " +:+ pretty (FixedSize m) +:+ ";")] ++
  match m_fields m with [] => [] | _ => [""] end ++
  ((fun f => ind 1 (cppType (f_type f) +:+ " " +:+ f_name f +:+ (if field_IsVar f then "" else "{}") +:+ ";")) <$> m_fields m) ++
  ["";
   ind 1 ("bool operator==(const " +:+ m_name m +:+ " &) const = default;");
   ind 1 "std::size_t size() const noexcept;";
   ind 1 "std::size_t encode(std::span<std::byte> out) const noexcept;";
   ind 1 ("static std::optional<" +:+ m_name m +:+ "> decode(std::span<const std::byte> in);");
   "};"].

(** What [put] and [get] write at an indentation. *)
Fixpoint cpp_print (n : nat) (st : cstmt) : list string :=
  let val := c_place "m." in
  match st with
  | CFor len body =>
      [ind n ("for (std::size_t i = 0; i < " +:+ pretty len +:+ "; i++) {")] ++ cpp_print (S n) body ++ [ind n "}"]
  | CPutRef _ v off => [ind n ("put_fixed(" +:+ val v +:+ ", p + " +:+ c_offset off +:+ ");")]
  | CPut _ v off => [ind n ("put(p + " +:+ c_offset off +:+ ", " +:+ val v +:+ ");")]
  | CGetRef _ v off =>
      [ind n ("if (!get_fixed(" +:+ val v +:+ ", p + " +:+ c_offset off +:+ ")) {"); ind (S n) "return false;"; ind n "}"]
  | CGetBool v off =>
      [ind n ("if (std::to_integer<unsigned>(p[" +:+ c_offset off +:+ "]) > 1) {");
       ind (S n) "return false;";
       ind n "}";
       ind n (val v +:+ " = std::to_integer<unsigned>(p[" +:+ c_offset off +:+ "]) == 1;")]
  | CGet k v off =>
      [ind n (val v +:+ " = get<" +:+ cppType (TBasic k (mkPos 0 0)) +:+ ">(p + " +:+ c_offset off +:+ ");")]
  end.

Definition cpp_fixed (ms : list Message) (m : Message) : list string :=
  let body put := mjoin (cpp_print 1 <$> c_body (N := cpp_naming) cpp_callee ms m put) in
  ["";
   "inline void put_fixed([[maybe_unused]] const " +:+ m_name m +:+ " &m, [[maybe_unused]] std::byte *p) noexcept {"] ++ body true ++
  ["}";
   "";
   "inline bool get_fixed([[maybe_unused]] " +:+ m_name m +:+ " &m, [[maybe_unused]] const std::byte *p) noexcept {"] ++ body false ++
  [ind 1 "return true;"; "}"].

Definition cpp_methods (m : Message) : list string :=
  let name := m_name m in
  let terms := "fixed_size" :: mjoin ((fun f => ["4"; "this->" +:+ f_name f +:+ ".size()"]) <$> VarFields m) in
  let fits := (fun f => "!ipcgen::fits(this->" +:+ f_name f +:+ ".size())") <$> VarFields m in
  let fail := [ind 2 "return std::nullopt;"; ind 1 "}"] in
  ["";
   "inline std::size_t " +:+ name +:+ "::size() const noexcept { return " +:+ Join terms " + " +:+ "; }";
   "";
   "inline std::size_t " +:+ name +:+ "::encode(std::span<std::byte> out) const noexcept {"] ++
  match fits with
  | [] => []
  | _ => [ind 1 ("if (" +:+ Join fits " || " +:+ ") {"); ind 2 "return 0;"; ind 1 "}"]
  end ++
  [ind 1 "std::size_t n = size();";
   ind 1 "if (out.size() < n) {";
   ind 2 "return 0;";
   ind 1 "}";
   ind 1 "std::fill_n(out.data(), fixed_size, std::byte{0});";
   ind 1 "ipcgen::put_fixed(*this, out.data());"] ++
  (if Fixed m then []
   else
     [ind 1 "std::size_t off = fixed_size;"] ++
     ((fun f => ind 1 ("off = ipcgen::put_var(out.data(), off, this->" +:+ f_name f +:+ ".data(), this->" +:+ f_name f +:+ ".size());"))
        <$> VarFields m)) ++
  [ind 1 "return n;";
   "}";
   "";
   "inline std::optional<" +:+ name +:+ "> " +:+ name +:+ "::decode(std::span<const std::byte> in) {"] ++
  (if 0 <? FixedSize m then [ind 1 "if (in.size() < fixed_size) {"] ++ fail else []) ++
  [ind 1 (name +:+ " m;"); ind 1 "if (!ipcgen::get_fixed(m, in.data())) {"] ++ fail ++
  [ind 1 "std::size_t off = fixed_size;"] ++
  (if Fixed m then [] else [ind 1 "std::span<const std::byte> raw;"]) ++
  mjoin ((fun f =>
    match f_type f with
    | TBasic KString _ =>
        [ind 1 "if (!ipcgen::get_var(in, off, raw) || !ipcgen::utf8(raw)) {"] ++ fail ++
        [ind 1 ("m." +:+ f_name f +:+ ".assign(reinterpret_cast<const char *>(raw.data()), raw.size());")]
    | _ =>
        [ind 1 "if (!ipcgen::get_var(in, off, raw)) {"] ++ fail ++
        [ind 1 ("m." +:+ f_name f +:+ ".assign(raw.begin(), raw.end());")]
    end) <$> VarFields m) ++
  [ind 1 "if (off != in.size()) {"] ++ fail ++ [ind 1 "return m;"; "}"].

Definition genCpp_lines (s : Schema) : list string :=
  ["// " +:+ Header;
   "// Messages of package " +:+ s_package s +:+ ", from " +:+ Base (s_file s) +:+ ". Header-only C++20.";
   "// encode returns the bytes written, or 0 when out is too small or a field is longer than 4 GiB.";
   "// decode returns std::nullopt when the input is malformed. It throws only std::bad_alloc."] ++
  cppHelpers ++
  [""; "namespace " +:+ s_package s +:+ " {"] ++
  cppDetail ++
  mjoin (cpp_decl <$> sorted_messages s) ++
  [""; "namespace ipcgen {"] ++
  mjoin (cpp_fixed (s_messages s) <$> sorted_messages s) ++
  [""; "} // namespace ipcgen"] ++
  mjoin (cpp_methods <$> sorted_messages s) ++
  [""; "} // namespace " +:+ s_package s].

Definition genCpp (s : Schema) : string := file_of (genCpp_lines s).
