(* ===== verification/CppGen.v ===== *)
(** * What the generated C++ does ([src/ipcgen/internal/gen/cpp.go])

    The templates [put] and [get] with their loops over bytes, [size], [encode] and
    [decode] of a message, and that they are the reference codec. *)

From stdpp Require Import base numbers list list_numbers option strings gmap.
From coqutil Require Import Byte Word.LittleEndianList.
From Stdlib Require Import ZArith Lia Bool String Ascii.
From S2P Require Import Prelude GoStd Schema Check CheckThm Layout RefCodec RefCodecThm GoGen GoGenThm GoCodec CCode CCodec CppGenText.

#[local] Open Scope Z_scope.
#[local] Set Warnings "-register-all".
#[local] Open Scope codec_scope.

(** ** The templates *)

(** The loop of [put] for an unsigned integer of [n] bytes. *)
Definition put_loop {E} (n : nat) (u : Z) (p : list byte) : res E (list byte) :=
  for_range (fun i p => poke p i (Z.shiftr u (8 * Z.of_nat i))) 0 n p.

(** [std::bit_cast] of a float gives its bits. *)
Definition cpp_put (k : Kind) (v : gval) (p : list byte) : res unit (list byte) :=
  let n := Z.to_nat (ScalarSize k) in
  match v with
  | GBool x => match k with KBool => poke p 0 (if x then 1 else 0) | _ => Panic end
  | GFloat u => if IsFloat k then put_loop n u p else Panic
  | GInt z => if IsFloat k || IsVarKind k || bool_decide (k = KBool) then Panic else put_loop n (z mod 2 ^ (8 * ScalarSize k)) p
  | _ => Panic
  end.

(** The loop of [get] for an unsigned integer of [n] bytes. *)
Definition get_loop {E} (n : nat) (p : list byte) : res E Z :=
  for_range (fun i u => let! x := peek p i in Ok (Z.lor u (Z.shiftl x (8 * Z.of_nat i) mod 2 ^ (8 * Z.of_nat n)))) 0 n 0.

Definition cpp_get (k : Kind) (p : list byte) : dec gval :=
  if IsVarKind k || bool_decide (k = KBool) then Panic
  else let! u := get_loop (Z.to_nat (ScalarSize k)) p in Ok (of_bits k u).

(** ** The functions of a message *)

Section functions.
Context (size_bits : Z).
#[local] Abbreviation size_t := (size_t size_bits).
#[local] Existing Instance cpp_naming.

Definition cpp_fits (n : Z) : bool := n <=? 0xFFFFFFFF.

(** The sum, each addition in [size_t]. *)
Definition cpp_size (m : Message) (l : list (list byte)) : Z :=
  foldl (fun n raw => size_t (size_t (n + 4) + Z.of_nat (List.length raw))) (FixedSize m) l.

(** [out] after the call and the result. *)
Definition cpp_encode (ms : list Message) (v : gval) (out : list byte) : res unit (list byte * Z) :=
  let! m := or_panic (struct_of ms v) in
  let! l := or_panic (raws m v) in
  if negb (forallb (fun raw => cpp_fits (Z.of_nat (List.length raw))) l) then Ok (out, 0)
  else
    let n := cpp_size m l in
    if Z.of_nat (List.length out) <? n then Ok (out, 0)
    else
      let! out := write out (replicate (Z.to_nat (FixedSize m)) Byte.x00) in
      let! out := put_fixed cpp_callee cpp_put (S (fuel_for ms)) ms v out in
      let! (out, _) := put_vars cpp_put size_bits out (FixedSize m) l in
      Ok (out, n).

(** The struct starts with its default member values. [None] is [std::nullopt]. *)
Definition cpp_decode (ms : list Message) (m : Message) (input : list byte) : res unit (option gval) :=
  let! v := or_panic (new_struct ms (m_name m)) in
  match decode_into cpp_callee cpp_get size_bits ms m v input with
  | Ok v => Ok (Some v)
  | Error _ => Ok None
  | Panic => Panic
  | NoFuel => NoFuel
  end.
End functions.

(** ** The templates write and read the little-endian form *)

Lemma put_loop_from {E} n u p i :
  (i <= List.length p)%nat ->
  for_range (E := E) (fun i p => poke p i (Z.shiftr u (8 * Z.of_nat i))) i n p =
  sub p (Z.of_nat i) (fun p => write p (le_split n (Z.shiftr u (8 * Z.of_nat i)))).
Proof.
  revert p i. induction n as [|n IH]; intros p i Hi; cbn [for_range].
  { rewrite (sub_intro _ _ _ (drop i p)); [by rewrite Nat2Z.id, take_drop|lia|]. rewrite Nat2Z.id. unfold write. cbn. by rewrite drop_0. }
  change (le_split (S n) ?v) with ([byte.of_Z v] ++ le_split n (Z.shiftr v 8)).
  unfold poke. destruct (Nat.ltb_spec i (List.length p)) as [Hl|Hl]; cbn [bind].
  - rewrite IH by (rewrite length_insert; lia). rewrite Z.shiftr_shiftr by lia.
    replace (8 * Z.of_nat (i + 1)) with (8 * Z.of_nat i + 8) by lia.
    set (bs := le_split n _). set (c := byte.of_Z _). unfold sub. rewrite length_insert, !Nat2Z.id.
    rewrite !(proj2 (Z.leb_le 0 _)), !(proj2 (Z.leb_le _ (Z.of_nat (List.length p)))) by lia. cbn [andb].
    rewrite (insert_take_drop _ _ _ Hl). rewrite Nat.add_1_r. unfold write.
    assert (Ht : List.length (take i p) = i) by (rewrite length_take; lia).
    rewrite (cons_middle c), app_assoc. rewrite drop_app_length', take_app_length' by (rewrite length_app, Ht; cbn; lia).
    rewrite length_app, !length_drop. cbn [List.length].
    destruct (Nat.leb_spec (List.length bs) (List.length p - S i)) as [Hb|Hb].
    + rewrite (proj2 (Nat.leb_le _ _)) by lia. cbn [bind]. rewrite !drop_drop, <-!app_assoc. do 5 f_equal. lia.
    + by rewrite (proj2 (Nat.leb_gt _ _)) by lia.
  - unfold sub. rewrite (proj2 (Z.leb_le _ _)), (proj2 (Z.leb_le _ _)), Nat2Z.id by lia. cbn [andb]. unfold write.
    rewrite length_drop, (proj2 (Nat.leb_gt _ _)) by (cbn [List.length app]; lia). done.
Qed.

Lemma put_loop_spec {E} n u p : put_loop (E := E) n u p = write p (le_split n u).
Proof. unfold put_loop. rewrite put_loop_from by lia. rewrite Z.shiftr_0_r. apply write_sub0. Qed.

(** After [j] rounds the loop has the first [j] bytes. *)
Lemma get_loop_from {E} n p j i :
  (i + j)%nat = n -> (i <= List.length p)%nat ->
  for_range (E := E) (fun i u => let! x := peek p i in Ok (Z.lor u (Z.shiftl x (8 * Z.of_nat i) mod 2 ^ (8 * Z.of_nat n)))) i j
    (le_combine (take i p)) =
  if (n <=? List.length p)%nat then Ok (le_combine (take n p)) else Panic.
Proof.
  intros <-. revert i. induction j as [|j IH]; intros i Hi; cbn [for_range].
  { rewrite Nat.add_0_r, (proj2 (Nat.leb_le _ _)) by lia. done. }
  unfold peek at 1. destruct (p !! i) as [x|] eqn:Hx.
  2:{ apply lookup_ge_None in Hx. by rewrite (proj2 (Nat.leb_gt _ _)) by lia. }
  pose proof (lookup_lt_Some _ _ _ Hx). cbn [bind]. pose proof (byte.unsigned_range x).
  rewrite (Z.mod_small (Z.shiftl _ _)).
  2:{ rewrite Z.shiftl_mul_pow2 by lia. split; [nia|]. apply Z.lt_le_trans with (2 ^ 8 * 2 ^ (8 * Z.of_nat i)); [nia|].
      rewrite <-Z.pow_add_r by lia. apply Z.pow_le_mono_r; lia. }
  assert (Hstep : Z.lor (le_combine (take i p)) (Z.shiftl (byte.unsigned x) (8 * Z.of_nat i)) = le_combine (take (i + 1) p)).
  { rewrite Nat.add_1_r, (take_S_r _ _ _ Hx), le_combine_app, le_combine_1, length_take_le by lia. do 2 f_equal. lia. }
  rewrite Hstep. replace (i + S j)%nat with (i + 1 + j)%nat by lia. apply IH. lia.
Qed.

Lemma get_loop_spec {E} n : reads (E := E) n (get_loop n).
Proof. intros p. unfold get_loop. change 0 with (le_combine (take 0 p)). apply get_loop_from; lia. Qed.

Lemma cpp_helpers_ok : helpers_ok cpp_put cpp_get.
Proof.
  split.
  - intros x p. cbn [cpp_put]. rewrite put_u8_spec. by destruct x.
  - intros k v bits p Hk Hv Hb Hr. unfold bits_of in Hb. unfold cpp_put.
    destruct v as [|n|u| | |]; try done; destruct (IsFloat k) eqn:Hf; try done; injection Hb as <-; cbn [orb].
    + rewrite Hv, bool_decide_eq_false_2 by done. cbn [orb]. apply put_loop_spec.
    + apply put_loop_spec.
  - intros k p Hk Hv. unfold cpp_get. rewrite Hv, bool_decide_eq_false_2 by done. cbn [orb].
    by apply (reads_of_bits _ k _ (get_loop_spec _)).
Qed.

Lemma cpp_naming_ok s : checked s -> naming_ok (N := cpp_naming) s.
Proof.
  intros Hck. pose proof (no_messages _ (ck_names _ Hck)) as Hno. split.
  - intros i m Hm. by destruct (proj1 (Forall_lookup _ _) (mo_fields _ Hno) i m Hm) as (_ & ? & _).
  - apply (mo_distinct _ Hno).
Qed.

Lemma cpp_callee_ok s : callee_ok cpp_callee s.
Proof. done. Qed.

(** ** Encoding and decoding *)

Section theorems.
Context (size_bits : Z) (s : Schema) (Hck : checked s) (Hbits : 32 <= size_bits).
#[local] Existing Instance cpp_naming.
Let ms := s_messages s.
Let Hnk : naming_ok s := cpp_naming_ok s Hck.

Lemma cpp_size_ok m l : 0 <= FixedSize m -> msg_Size m l < 2 ^ size_bits -> cpp_size size_bits m l = msg_Size m l.
Proof using Hbits.
  unfold cpp_size, msg_Size. generalize (FixedSize m). induction l as [|raw l IH]; intros n H0 Hlt; cbn [foldl foldr] in *; [lia|].
  assert (Hrest : 0 <= foldr (fun (raw : list byte) n => 4 + Z.of_nat (List.length raw) + n) 0 l) by (clear; induction l; cbn [foldr]; lia).
  rewrite (size_t_small _ (n + 4)), size_t_small by lia. rewrite IH by lia. lia.
Qed.

Lemma cpp_encode_ok i m v l out :
  ms !! i = Some m -> value_of s m v -> raws m v = Some l -> msg_Size m l < 2 ^ size_bits -> Z.of_nat (List.length out) < 2 ^ size_bits ->
  (fits l -> exists e, MarshalBinary ms v = Ok e /\ Z.of_nat (List.length e) = msg_Size m l /\
     cpp_encode size_bits ms v out =
       Ok (if Z.of_nat (List.length out) <? msg_Size m l then (out, 0) else (e ++ drop (List.length e) out, msg_Size m l))) /\
  (~ fits l -> cpp_encode size_bits ms v out = Ok (out, 0)).
Proof using Hck Hbits.
  intros Hm Hv Hl Hsz Hout. pose proof (fixed_size_nonneg s Hck i m Hm) as H0.
  destruct (value_of_struct s Hck Hnk i m v Hm Hv) as (fs & _ & Hst & _). fold ms in Hst.
  unfold cpp_encode. rewrite Hst. cbn [or_panic bind]. rewrite Hl. cbn [or_panic bind]. cbv zeta.
  change (fun raw => cpp_fits (Z.of_nat (List.length raw))) with (fun raw : list byte => ipcgenFits (Z.of_nat (List.length raw))).
  rewrite cpp_size_ok by done. split; intros Hfit.
  - destruct (encode_ok cpp_callee cpp_put cpp_get size_bits s Hck Hnk (cpp_callee_ok s) cpp_helpers_ok Hbits i m v l Hm Hv Hl Hfit)
      as (fixed & Hlen & Hmar & Hrun).
    assert (He : Z.of_nat (List.length (fixed ++ frames l)) = msg_Size m l) by (rewrite length_app, msg_Size_frames; lia).
    exists (fixed ++ frames l). split_and!; [done..|]. rewrite (proj1 (fits_forallb l) Hfit). cbn [negb].
    destruct (Z.ltb_spec (Z.of_nat (List.length out)) (msg_Size m l)) as [|Hle]; [done|].
    pose proof Hle as Hle'. rewrite msg_Size_frames in Hle'.
    set (tl := drop (Z.to_nat (FixedSize m)) out). destruct (Hrun tl) as [Hput Hvars].
    unfold write. rewrite length_replicate, (proj2 (Nat.leb_le _ _)) by lia. cbn [bind]. fold tl ms in Hput |- *.
    rewrite Hput. cbn [bind]. rewrite Hvars; [|unfold tl; rewrite length_drop; lia|].
    + cbn [bind]. unfold tl. rewrite drop_drop, !length_app, <-app_assoc, Hlen. done.
    + unfold tl. rewrite length_app, length_drop. lia.
  - destruct (forallb _ l) eqn:Hf; [by apply fits_forallb in Hf|done].
Qed.

(** [nullopt] exactly when the reference decoder fails. *)
Lemma cpp_decode_ok i m b :
  ms !! i = Some m -> Z.of_nat (List.length b) < 2 ^ size_bits ->
  match Decode ms m b with
  | Ok _ => exists v, cpp_decode size_bits ms m b = Ok (Some v) /\ reads_from s b m v
  | Error _ => cpp_decode size_bits ms m b = Ok None
  | _ => False
  end.
Proof using Hck Hbits.
  intros Hm Hb. destruct (new_struct_ok s Hck Hnk i m Hm) as (vs & Hnew & Hvs). fold ms in Hnew.
  unfold cpp_decode. rewrite Hnew. cbn [or_panic bind].
  assert (Hv : value_of s m (GStruct (type_id (m_name m)) vs)).
  { destruct Hvs as [Hk Ht]. econstructor; [by eapply (named s Hck Hnk)|done..]. }
  pose proof (decode_into_ok cpp_callee cpp_put cpp_get size_bits s Hck Hnk (cpp_callee_ok s) cpp_helpers_ok Hbits i m _ b Hm Hv Hb) as H.
  fold ms in H. unfold agrees in H. destruct (Decode ms m b); try done; [|by rewrite H].
  destruct H as (v & -> & Hr). eauto.
Qed.

Lemma cpp_reference i m v b :
  ms !! i = Some m -> Encode ms m v = Ok b -> Z.of_nat (List.length b) < 2 ^ 32 ->
  exists g, value_of s m g /\ denotes_message ms m v g /\ cpp_decode size_bits ms m b = Ok (Some g) /\
    forall out, (List.length b <= List.length out)%nat -> Z.of_nat (List.length out) < 2 ^ size_bits ->
      cpp_encode size_bits ms g out = Ok (b ++ drop (List.length b) out, Z.of_nat (List.length b)).
Proof using Hck Hbits.
  intros Hm He Hlt. pose proof (size_bound size_bits Hbits) as H32.
  destruct (encodes_as_reference s Hck Hnk i m v b Hm He Hlt) as (g & l & Hg & Hl & Hfit & Hden & Hmar & Hu). fold ms in Hmar, Hden, Hu.
  assert (Hsz : msg_Size m l = Z.of_nat (List.length b)).
  { destruct (MarshalBinary_ok s Hck Hnk i m g l Hm Hg Hl Hfit) as (fixed & Hlen & _ & _ & Hmar' & _). fold ms in Hmar'.
    rewrite Hmar in Hmar'. injection Hmar' as ->. pose proof (fixed_size_nonneg s Hck i m Hm).
    rewrite msg_Size_frames, length_app. lia. }
  exists g. split_and!; [done..| |].
  - pose proof (cpp_decode_ok i m b Hm ltac:(lia)) as Hd.
    pose proof (Encode_accepted s i m v b Hck Hm He Hlt) as Hacc. fold ms in Hacc. rewrite Hacc in Hd.
    destruct Hd as (g' & -> & Hr). do 2 f_equal. specialize (Hu (Ok g')). rewrite Hacc in Hu.
    specialize (Hu ltac:(by exists g')). by injection Hu.
  - intros out Hle Hout. destruct (cpp_encode_ok i m g l out Hm Hg Hl ltac:(lia) Hout) as [Hok _].
    destruct (Hok Hfit) as (e & Hmar' & _ & ->). rewrite Hmar in Hmar'. injection Hmar' as <-.
    rewrite Hsz, (proj2 (Z.ltb_ge _ _)) by lia. done.
Qed.
End theorems.

(** On a schema that [Check] accepted, the generated C++ [encode] into a span that is
    long enough writes the bytes that the generated Go encodes the same fields to, leaves
    the rest of the span and returns their number; when the span is too short or a field
    has 4 GiB or more it returns 0 and writes nothing. No call writes or reads out of
    range, as long as the size of the message fits in a [size_t]. *)
Theorem cpp_encode_correct (size_bits : Z) (s : Schema) (i : nat) (m : Message) (v : gval) (l : list (list byte)) (out : list byte) :
  checked s -> 32 <= size_bits -> s_messages s !! i = Some m -> value_of (N := cpp_naming) s m v ->
  raws (N := cpp_naming) m v = Some l -> msg_Size m l < 2 ^ size_bits -> Z.of_nat (List.length out) < 2 ^ size_bits ->
  (fits l -> exists e, MarshalBinary (N := cpp_naming) (s_messages s) v = Ok e /\ Z.of_nat (List.length e) = msg_Size m l /\
     cpp_encode size_bits (s_messages s) v out =
       Ok (if Z.of_nat (List.length out) <? msg_Size m l then (out, 0) else (e ++ drop (List.length e) out, msg_Size m l))) /\
  (~ fits l -> cpp_encode size_bits (s_messages s) v out = Ok (out, 0)).
Proof. intros Hck Hbits Hm Hv Hl Hsz Hout. by apply (cpp_encode_ok size_bits s Hck Hbits i). Qed.

Definition demo_cpp_point (x y : Z) : gval := GStruct "Point" [("x", GInt x); ("y", GInt y)]%string.
Definition demo_cpp : gval :=
  GStruct "Shape" [("tag", GInt 7); ("name", GRaw [Byte.x61; Byte.x62]);
                   ("points", GArr [demo_cpp_point (-1) 2; demo_cpp_point 3 18446744073709551615]);
                   ("closed", GBool true)]%string.

Lemma demo_cpp_typed : value_of (N := cpp_naming) demo_checked demo_shape demo_cpp.
Proof. apply (typedb_typed (N := cpp_naming) 5). vm_compute. reflexivity. Qed.

Lemma demo_cpp_raws : raws (N := cpp_naming) demo_shape demo_cpp = Some demo_raws.
Proof. vm_compute. reflexivity. Qed.

Lemma cpp_encode_correct_witness : exists e,
  MarshalBinary (N := cpp_naming) (s_messages demo_checked) demo_cpp = Ok e /\
  cpp_encode 64 (s_messages demo_checked) demo_cpp (replicate 60 Byte.xff) = Ok (e ++ drop (List.length e) (replicate 60 Byte.xff), 54).
Proof.
  assert (Hs : msg_Size demo_shape demo_raws = 54) by (vm_compute; reflexivity).
  destruct (cpp_encode_correct 64 demo_checked 0 demo_shape demo_cpp demo_raws (replicate 60 Byte.xff) demo_checked_ok ltac:(lia)
    demo_shape_lookup demo_cpp_typed demo_cpp_raws) as [H _]; [rewrite Hs; lia|vm_compute; reflexivity|].
  rewrite Hs in H. destruct (H demo_raws_fit) as (e & He & _ & Hto). exists e. split; [exact He|exact Hto].
Defined.
