(* ===== verification/PyGenText.v ===== *)
(** * The text of the generated Python ([src/ipcgen/internal/gen/python.go])

    The module that [genPy] writes, line by line. *)

From stdpp Require Import base numbers list list_numbers option strings gmap pretty.
From Stdlib Require Import ZArith Bool String Ascii.
From S2P Require Import Prelude GoStd Schema Tools GoGen CCode CGenText.

#[local] Set Warnings "-register-all".
#[local] Open Scope string_scope.
#[local] Open Scope Z_scope.
#[local] Open Scope list_scope.

(** Attributes and classes keep their names. *)
Definition py_naming : Naming := {| field_id := fun name => name; type_id := fun name => name |}.

Definition pyHelpers : list string := [
  "";
  "from __future__ import annotations";
  "";
  "import dataclasses as _dc";
  "import struct as _st";
  "import typing as _t";
  "";
  "_Error = ValueError";
  "";
  "";
  "def _get_var(buf: memoryview, off: int) -> _t.Tuple[bytes, int]:";
  ind 1 "if len(buf) - off < 4:";
  ind 2 ("raise _Error(" +:+ quoted "PKG: a length runs past the end of the input" +:+ ")");
  ind 1 ("(n,) = _st.unpack_from(" +:+ quoted "<I" +:+ ", buf, off)");
  ind 1 "off += 4";
  ind 1 "if n > len(buf) - off:";
  ind 2 ("raise _Error(" +:+ quoted "PKG: a length runs past the end of the input" +:+ ")");
  ind 1 "return bytes(buf[off:off + n]), off + n";
  "";
  "";
  "def _put_var(out: bytearray, raw: bytes) -> None:";
  ind 1 "if len(raw) > 0xFFFFFFFF:";
  ind 2 ("raise _Error(" +:+ quoted "PKG: a string or bytes field is longer than 4 GiB" +:+ ")");
  ind 1 ("out += _st.pack(" +:+ quoted "<I" +:+ ", len(raw))");
  ind 1 "out += raw";
  "";
  "";
  "def _bool(b: int) -> bool:";
  ind 1 "if b > 1:";
  ind 2 ("raise _Error(" +:+ quoted "PKG: a bool is neither 0 nor 1" +:+ ")");
  ind 1 "return b == 1";
  "";
  "";
  "def _str(raw: bytes) -> str:";
  ind 1 "try:";
  ind 2 ("return raw.decode(" +:+ quoted "utf-8" +:+ ")");
  ind 1 "except UnicodeDecodeError:";
  ind 2 ("raise _Error(" +:+ quoted "PKG: a string is not valid UTF-8" +:+ ") from None");
  "";
  "";
  "def _arr(v: _t.Sequence[_t.Any], n: int) -> _t.Sequence[_t.Any]:";
  ind 1 "if len(v) != n:";
  ind 2 ("raise _Error(" +:+ quoted "PKG: an array holds %d items, want %d" +:+ " % (len(v), n))");
  ind 1 "return v";
  "";
  "";
  "def _view(buf: _t.Any) -> memoryview:";
  ind 1 ("return memoryview(buf).cast(" +:+ quoted "B" +:+ ")")].

(** [strings.ReplaceAll(pyHelpers, "PKG", package)]. *)
Fixpoint ReplacePKG (package : string) (s : string) : string :=
  match s with
  | String "P" (String "K" (String "G" s)) => package +:+ ReplacePKG package s
  | String c s => String c (ReplacePKG package s)
  | EmptyString => EmptyString
  end.

(** A kind that is not in the map gives the empty string. *)
Definition pyFormat (k : Kind) : string :=
  match k with
  | U8 => "B" | I8 => "b" | U16 => "H" | I16 => "h" | U32 => "I" | I32 => "i"
  | U64 => "Q" | I64 => "q" | F32 => "f" | F64 => "d" | _ => ""
  end.

Fixpoint pyType (t : Typ) : string :=
  match t with
  | TArray _ elem _ => "_t.List[" +:+ pyType elem +:+ "]"
  | TRef name _ _ => name
  | TBasic KString _ => "str"
  | TBasic KBytes _ => "bytes"
  | TBasic KBool _ => "bool"
  | TBasic F32 _ | TBasic F64 _ => "float"
  | TBasic _ _ => "int"
  end.

Fixpoint pyDefault (t : Typ) : string :=
  match t with
  | TArray len elem _ =>
      match elem with
      | TRef name _ _ => "_dc.field(default_factory=lambda: [" +:+ name +:+ "() for _ in range(" +:+ pretty len +:+ ")])"
      | _ => "_dc.field(default_factory=lambda: [" +:+ pyDefault elem +:+ "] * " +:+ pretty len +:+ ")"
      end
  | TRef name _ _ => "_dc.field(default_factory=" +:+ name +:+ ")"
  | TBasic KString _ => quoted EmptyString
  | TBasic KBytes _ => "b" +:+ quoted EmptyString
  | TBasic KBool _ => "False"
  | TBasic F32 _ | TBasic F64 _ => "0.0"
  | TBasic _ _ => "0"
  end.

(** The cases of [put] and [get]: what a fixed field is. *)
Inductive pshape : Type :=
| PRef (name : string)
| PBool
| PRefs (len : Z) (name : string) (size : Z)
| PBools (len : Z)
| PArr (len : Z) (k : Kind)
| PScalar (k : Kind).

(** The format of an array of arrays would be that of no kind. *)
Definition py_shape (ms : list Message) (t : Typ) : pshape :=
  match t with
  | TRef name _ _ => PRef name
  | TBasic KBool _ => PBool
  | TArray len (TRef name msg p) _ => PRefs len name (Size ms (TRef name msg p))
  | TArray len (TBasic KBool _) _ => PBools len
  | TArray len (TBasic k _) _ => PArr len k
  | TArray len (TArray _ _ _) _ => PArr len KString
  | TBasic k _ => PScalar k
  end.

(** What [put] writes. *)
Definition py_put_text (sh : pshape) (val : string) (off : Z) : list string :=
  let at_ := "off + " +:+ pretty off in
  match sh with
  | PRef _ => [ind 2 (val +:+ "._put(buf, " +:+ at_ +:+ ")")]
  | PBool => [ind 2 ("buf[" +:+ at_ +:+ "] = 1 if " +:+ val +:+ " else 0")]
  | PRefs len _ size =>
      [ind 2 ("for i, v in enumerate(_arr(" +:+ val +:+ ", " +:+ pretty len +:+ ")):");
       ind 3 ("v._put(buf, " +:+ at_ +:+ " + i * " +:+ pretty size +:+ ")")]
  | PBools len =>
      [ind 2 ("_st.pack_into(" +:+ quoted ("<" +:+ pretty len +:+ "B") +:+ ", buf, " +:+ at_ +:+
              ", *[1 if v else 0 for v in _arr(" +:+ val +:+ ", " +:+ pretty len +:+ ")])")]
  | PArr len k =>
      [ind 2 ("_st.pack_into(" +:+ quoted ("<" +:+ pretty len +:+ pyFormat k) +:+ ", buf, " +:+ at_ +:+
              ", *_arr(" +:+ val +:+ ", " +:+ pretty len +:+ "))")]
  | PScalar k => [ind 2 ("_st.pack_into(" +:+ quoted ("<" +:+ pyFormat k) +:+ ", buf, " +:+ at_ +:+ ", " +:+ val +:+ ")")]
  end.

(** The expression that [get] returns. *)
Definition py_get_text (sh : pshape) (off : Z) : string :=
  let at_ := "off + " +:+ pretty off in
  match sh with
  | PRef name => name +:+ "._get(buf, " +:+ at_ +:+ ")"
  | PBool => "_bool(buf[" +:+ at_ +:+ "])"
  | PRefs len name size =>
      "[" +:+ name +:+ "._get(buf, " +:+ at_ +:+ " + i * " +:+ pretty size +:+ ") for i in range(" +:+ pretty len +:+ ")]"
  | PBools len => "[_bool(b) for b in buf[" +:+ at_ +:+ ":off + " +:+ pretty (off + len) +:+ "]]"
  | PArr len k => "list(_st.unpack_from(" +:+ quoted ("<" +:+ pretty len +:+ pyFormat k) +:+ ", buf, " +:+ at_ +:+ "))"
  | PScalar k => "_st.unpack_from(" +:+ quoted ("<" +:+ pyFormat k) +:+ ", buf, " +:+ at_ +:+ ")[0]"
  end.

Definition py_message (ms : list Message) (pkg : string) (m : Message) : list string :=
  let name := m_name m in
  let is_string f := match f_type f with TBasic KString _ => true | _ => false end in
  ["";
   "";
   "@_dc.dataclass";
   "class " +:+ name +:+ ":";
   ind 1 ("TYPE_ID = " +:+ pretty (m_id m));
   ind 1 ("FIXED_SIZE = " +:+ pretty (FixedSize m))] ++
  match m_fields m with [] => [] | _ => [""] end ++
  ((fun f => ind 1 (f_name f +:+ ": " +:+ pyType (f_type f) +:+ " = " +:+ pyDefault (f_type f))) <$> m_fields m) ++
  ["";
   ind 1 "def encode(self) -> bytes:";
   ind 2 ("buf = bytearray(" +:+ pretty (FixedSize m) +:+ ")");
   ind 2 "try:";
   ind 3 "self._put(buf, 0)";
   ind 2 "except (_st.error, OverflowError) as e:";
   ind 3 ("raise _Error(" +:+ quoted (pkg +:+ ": " +:+ name +:+ ": %s") +:+ " % e) from None")] ++
  ((fun f => if is_string f then ind 2 ("_put_var(buf, self." +:+ f_name f +:+ ".encode(" +:+ quoted "utf-8" +:+ "))")
             else ind 2 ("_put_var(buf, bytes(self." +:+ f_name f +:+ "))")) <$> VarFields m) ++
  [ind 2 "return bytes(buf)";
   "";
   ind 1 "@classmethod";
   ind 1 ("def decode(cls, buf: _t.Any) -> " +:+ name +:+ ":");
   ind 2 "buf = _view(buf)";
   ind 2 ("if len(buf) < " +:+ pretty (FixedSize m) +:+ ":");
   ind 3 ("raise _Error(" +:+ quoted (pkg +:+ ": input is shorter than the fixed section") +:+ ")");
   ind 2 "m = cls._get(buf, 0)";
   ind 2 ("off = " +:+ pretty (FixedSize m))] ++
  mjoin ((fun f => [ind 2 "raw, off = _get_var(buf, off)";
                    if is_string f then ind 2 ("m." +:+ f_name f +:+ " = _str(raw)") else ind 2 ("m." +:+ f_name f +:+ " = raw")])
         <$> VarFields m) ++
  [ind 2 "if off != len(buf):";
   ind 3 ("raise _Error(" +:+ quoted (pkg +:+ ": bytes remain after the last field") +:+ ")");
   ind 2 "return m";
   "";
   ind 1 "def _put(self, buf: bytearray, off: int) -> None:"] ++
  match FixedFields m with [] => [ind 2 "pass"] | _ => [] end ++
  mjoin ((fun f => py_put_text (py_shape ms (f_type f)) ("self." +:+ f_name f) (f_offset f)) <$> FixedFields m) ++
  ["";
   ind 1 "@classmethod";
   ind 1 ("def _get(cls, buf: memoryview, off: int) -> " +:+ name +:+ ":")] ++
  match (fun f => f_name f +:+ "=" +:+ py_get_text (py_shape ms (f_type f)) (f_offset f)) <$> FixedFields m with
  | [] => [ind 2 "return cls()"]
  | args => [ind 2 "return cls("] ++ ((fun a => ind 3 (a +:+ ",")) <$> args) ++ [ind 2 ")"]
  end.

Definition genPy_lines (s : Schema) : list string :=
  ["# " +:+ Header;
   dq +:+ dq +:+ dq +:+ "Messages of package " +:+ s_package s +:+ ", from " +:+ Base (s_file s) +:+ ".";
   "";
   "encode() returns the encoding. decode(buf) raises ValueError when buf is malformed.";
   "The module needs only the standard library of CPython 3.8 or later.";
   dq +:+ dq +:+ dq] ++
  (ReplacePKG (s_package s) <$> pyHelpers) ++
  mjoin (py_message (s_messages s) (s_package s) <$> sorted_messages s) ++
  [""; ""; "MESSAGES: _t.Dict[int, _t.Any] = {"] ++
  ((fun m => ind 1 (m_name m +:+ ".TYPE_ID: " +:+ m_name m +:+ ",")) <$> s_messages s) ++
  ["}"].

Definition genPy (s : Schema) : string := file_of (genPy_lines s).
