(* ===== verification/PyGen.v ===== *)
(** * What the generated Python does ([src/ipcgen/internal/gen/python.go])

    [_put] and [_get] of a class with the formats of the [struct] module, [encode] and
    [decode], and that they are the reference codec. A Python [float] is a 64-bit float;
    the conversions of the format [f] from and to 32 bits are parameters. An integer has
    no width. A [str] is its UTF-8 bytes. *)

From stdpp Require Import base numbers list list_numbers option strings gmap.
From coqutil Require Import Byte Word.LittleEndianList.
From Stdlib Require Import ZArith Lia Bool String Ascii.
From S2P Require Import Prelude GoStd Schema Check CheckThm Layout RefCodec RefCodecThm GoGen GoGenThm GoCodec CCode CCodec PyGenText.

#[local] Open Scope Z_scope.
#[local] Set Warnings "-register-all".
#[local] Open Scope codec_scope.
#[local] Existing Instance py_naming.

(** ** Encoding *)

(** [ValueErr] is [ValueError]; [StructErr] is [struct.error] or [OverflowError]. A
    [Panic] is any other exception, or an attribute that is not of its annotated type. *)
Inductive py_exc : Type := ValueErr | StructErr.
Definition pres (A : Type) : Type := res py_exc A.

(** The range of an integer format. *)
Definition in_range (k : Kind) (n : Z) : bool :=
  let w := 8 * ScalarSize k in
  if IsSigned k then (- 2 ^ (w - 1) <=? n) && (n <? 2 ^ (w - 1)) else (0 <=? n) && (n <? 2 ^ w).

(** [_arr]. *)
Definition py_arr (l : list gval) (n : Z) : pres (list gval) :=
  if negb (Z.of_nat (List.length l) =? n) then Error ValueErr else Ok l.

(** [_put_var]. *)
Definition py_put_var (out raw : list byte) : pres (list byte) :=
  if 0xFFFFFFFF <? Z.of_nat (List.length raw) then Error ValueErr
  else Ok (out ++ le_split 4 (Z.of_nat (List.length raw)) ++ raw).

Fixpoint py_put_vars (out : list byte) (l : list (list byte)) : pres (list byte) :=
  match l with
  | [] => Ok out
  | raw :: l => let! out := py_put_var out raw in py_put_vars out l
  end.

Section python.
(** The format [f]: the bits of the double of a 32-bit float, and the bits of the 32-bit
    float that a double is rounded to; [None] is an [OverflowError]. *)
Context (unpack_f : Z -> Z) (pack_f : Z -> option Z).

(** The bytes of one value. *)
Definition py_pack (k : Kind) (v : gval) : pres (list byte) :=
  let n := Z.to_nat (ScalarSize k) in
  match v with
  | GInt z =>
      if IsFloat k || IsVarKind k || bool_decide (k = KBool) then Panic
      else if in_range k z then Ok (le_split n z) else Error StructErr
  | GFloat d =>
      match k with
      | F64 => Ok (le_split n d)
      | F32 => match pack_f d with Some u => Ok (le_split n u) | None => Error StructErr end
      | _ => Panic
      end
  | _ => Panic
  end.

Fixpoint py_packs (k : Kind) (l : list gval) : pres (list byte) :=
  match l with
  | [] => Ok []
  | v :: l => let! b := py_pack k v in let! rest := py_packs k l in Ok (b ++ rest)
  end.

(** [_st.pack_into] of packed values. *)
Definition pack_into (buf : list byte) (off : Z) (bytes : list byte) : pres (list byte) :=
  match sub (E := unit) buf off (fun b => write b bytes) with Ok b => Ok b | _ => Error StructErr end.

(** [1 if v else 0]. *)
Definition py_flag (v : gval) : pres byte := match v with GBool x => Ok (if x then Byte.x01 else Byte.x00) | _ => Panic end.

Fixpoint py_flags (l : list gval) : pres (list byte) :=
  match l with
  | [] => Ok []
  | v :: l => let! b := py_flag v in let! rest := py_flags l in Ok (b :: rest)
  end.

Section put.
Context (call : gval -> list byte -> Z -> pres (list byte)).

(** The loop over [enumerate]. *)
Fixpoint py_put_refs (l : list gval) (size : Z) (buf : list byte) (off : Z) (i : nat) : pres (list byte) :=
  match l with
  | [] => Ok buf
  | v :: l => let! buf := call v buf (off + Z.of_nat i * size) in py_put_refs l size buf off (S i)
  end.

(** The statement of a field; [buf[off] = x] needs an index in range. *)
Definition py_put_field (sh : pshape) (v : gval) (buf : list byte) (off : Z) : pres (list byte) :=
  match sh with
  | PRef _ => call v buf off
  | PBool => let! x := py_flag v in sub buf off (fun b => write b [x])
  | PRefs len _ size =>
      match v with GArr l => let! l := py_arr l len in py_put_refs l size buf off 0 | _ => Panic end
  | PBools len => match v with GArr l => let! l := py_arr l len in let! b := py_flags l in pack_into buf off b | _ => Panic end
  | PArr len k => match v with GArr l => let! l := py_arr l len in let! b := py_packs k l in pack_into buf off b | _ => Panic end
  | PScalar k => let! b := py_pack k v in pack_into buf off b
  end.

Fixpoint py_put_fields (ms : list Message) (v : gval) (fs : list Field) (buf : list byte) (off : Z) : pres (list byte) :=
  match fs with
  | [] => Ok buf
  | f :: fs =>
      let! x := or_panic (load v 0 (PName (field_id (f_name f)))) in
      let! buf := py_put_field (py_shape ms (f_type f)) x buf (off + f_offset f) in
      py_put_fields ms v fs buf off
  end.
End put.

(** [_put] is the method of the class of the value. *)
Fixpoint py_put (fuel : nat) (ms : list Message) (v : gval) (buf : list byte) (off : Z) : pres (list byte) :=
  match fuel with
  | O => NoFuel
  | S fuel => let! m := or_panic (struct_of ms v) in py_put_fields (py_put fuel ms) ms v (FixedFields m) buf off
  end.

(** What [encode] of a generated class does. A schema whose names are not names of Python, such
    as a message called None, gives a module that Python does not load; what the module
    would do is then without meaning. *)
Definition py_encode (ms : list Message) (v : gval) : pres (list byte) :=
  let! m := or_panic (struct_of ms v) in
  match py_put (S (fuel_for ms)) ms v (replicate (Z.to_nat (FixedSize m)) Byte.x00) 0 with
  | Ok buf => let! l := or_panic (raws m v) in py_put_vars buf l
  | Error _ => Error ValueErr
  | Panic => Panic
  | NoFuel => NoFuel
  end.

(** ** Decoding *)

(** An error is a [ValueError] with its text; a [Panic] is any other exception. *)

Definition py_bool (b : byte) : dec gval :=
  if 1 <? byte.unsigned b then Error ErrBool else Ok (GBool (byte.unsigned b =? 1)).

Fixpoint py_bools (l : list byte) : dec (list gval) :=
  match l with
  | [] => Ok []
  | b :: l => let! x := py_bool b in let! xs := py_bools l in Ok (x :: xs)
  end.

(** One value of a format. *)
Definition py_unpack (k : Kind) (raw : list byte) : gval :=
  match k with F32 => GFloat (unpack_f (le_combine raw)) | _ => of_bits k (le_combine raw) end.

(** [_st.unpack_from] of [n] values. *)
Definition unpack_from (k : Kind) (n : nat) (buf : list byte) (off : Z) : dec (list gval) :=
  let size := Z.to_nat (ScalarSize k) in
  if (0 <=? off) && (off + Z.of_nat (n * size) <=? Z.of_nat (List.length buf)) then
    Ok ((fun i => py_unpack k (take size (drop (Z.to_nat off + i * size) buf))) <$> seq 0 n)
  else Panic.

Section get.
Context (call : string -> list byte -> Z -> dec gval).

(** [n] items from index [i] on. *)
Fixpoint py_get_refs (name : string) (size : Z) (buf : list byte) (off : Z) (i n : nat) : dec (list gval) :=
  match n with
  | O => Ok []
  | S n =>
      let! x := call name buf (off + Z.of_nat i * size) in
      let! xs := py_get_refs name size buf off (S i) n in Ok (x :: xs)
  end.

(** A slice stops at the end of [buf]. *)
Definition py_get_field (sh : pshape) (buf : list byte) (off : Z) : dec gval :=
  match sh with
  | PRef name => call name buf off
  | PBool => from buf off (fun b => match b with x :: _ => py_bool x | [] => Panic end)
  | PRefs len name size => let! l := py_get_refs name size buf off 0 (Z.to_nat len) in Ok (GArr l)
  | PBools len => let! l := py_bools (take (Z.to_nat len) (drop (Z.to_nat off) buf)) in Ok (GArr l)
  | PArr len k => let! l := unpack_from k (Z.to_nat len) buf off in Ok (GArr l)
  | PScalar k => let! l := unpack_from k 1 buf off in or_panic (head l)
  end.

(** The arguments of the call of [cls]. *)
Fixpoint py_get_fields (ms : list Message) (fs : list Field) (buf : list byte) (off : Z) : dec (list (string * gval)) :=
  match fs with
  | [] => Ok []
  | f :: fs =>
      let! x := py_get_field (py_shape ms (f_type f)) buf (off + f_offset f) in
      let! args := py_get_fields ms fs buf off in
      Ok ((field_id (f_name f), x) :: args)
  end.
End get.

(** [cls(...)]: a string or bytes field that is no argument has its default. *)
Definition py_new (m : Message) (args : list (string * gval)) : option gval :=
  fs ← mapM (fun f =>
    let name := field_id (f_name f) in
    match lookup_name args name with
    | Some x => Some (name, x)
    | None => if field_IsVar f then Some (name, GRaw []) else None
    end) (m_fields m);
  Some (GStruct (type_id (m_name m)) fs).

Fixpoint py_get (fuel : nat) (ms : list Message) (name : string) (buf : list byte) (off : Z) : dec gval :=
  match fuel with
  | O => NoFuel
  | S fuel =>
      let! m := or_panic (type_named ms (type_id name)) in
      let! args := py_get_fields (py_get fuel ms) ms (FixedFields m) buf off in
      or_panic (py_new m args)
  end.

(** [_get_var]. *)
Definition py_get_var (buf : list byte) (off : Z) : dec (list byte * Z) :=
  let len := Z.of_nat (List.length buf) in
  if len - off <? 4 then Error ErrLength
  else
    let! l := unpack_from U32 1 buf off in
    match l with
    | [GInt n] =>
        let off := off + 4 in
        if len - off <? n then Error ErrLength
        else Ok (take (Z.to_nat n) (drop (Z.to_nat off) buf), off + n)
    | _ => Panic
    end.

(** [_str] decodes UTF-8 strictly. *)
Definition py_str (raw : list byte) : dec (list byte) := if Valid raw then Ok raw else Error ErrUTF8.

Fixpoint py_get_vars (buf : list byte) (off : Z) (fs : list Field) (v : gval) : dec (gval * Z) :=
  match fs with
  | [] => Ok (v, off)
  | f :: fs =>
      let! (raw, off) := py_get_var buf off in
      let! raw := match f_type f with TBasic KString _ => py_str raw | _ => Ok raw end in
      let! v := or_panic (store v 0 (PName (field_id (f_name f))) (GRaw raw)) in
      py_get_vars buf off fs v
  end.

Definition py_decode (ms : list Message) (m : Message) (buf : list byte) : dec gval :=
  let len := Z.of_nat (List.length buf) in
  if len <? FixedSize m then Error ErrShort
  else
    let! v := py_get (S (fuel_for ms)) ms (m_name m) buf 0 in
    let! (v, off) := py_get_vars buf (FixedSize m) (VarFields m) v in
    if negb (off =? len) then Error ErrTrailing else Ok v.
End python.
