(* ===== verification/PyGenThm.v ===== *)
(** * The generated Python against the reference codec

    The Python value of a message and the value on the wire are related field by field:
    they are the same but for 32-bit floats. [encode] and [decode] then do what the
    statements of the other languages do. *)

From stdpp Require Import base numbers list list_numbers option strings gmap.
From coqutil Require Import Byte Word.LittleEndianList.
From Stdlib Require Import ZArith Lia Bool String Ascii.
From S2P Require Import Prelude GoStd Schema Check CheckThm Layout RefCodec RefCodecThm GoGen GoGenThm GoCodec CCode CCodec CGenText PyGenText PyGen.

#[local] Open Scope Z_scope.
#[local] Set Warnings "-register-all".
#[local] Open Scope codec_scope.
#[local] Existing Instance py_naming.

(** [y] is the Python value of [x], where [R] relates a 32-bit float and a double. *)
Inductive py_value (R : Z -> Z -> Prop) (ms : list Message) : Typ -> gval -> gval -> Prop :=
| V_f32 p u d : R u d -> py_value R ms (TBasic F32 p) (GFloat u) (GFloat d)
| V_same k p x : k <> F32 -> py_value R ms (TBasic k p) x x
| V_array len elem p l l' :
    List.length l = List.length l' -> (forall j x y, l !! j = Some x -> l' !! j = Some y -> py_value R ms elem x y) ->
    py_value R ms (TArray len elem p) (GArr l) (GArr l')
| V_ref name i p m fs fs' :
    type_named ms (type_id name) = Some m -> fst <$> fs = fst <$> fs' ->
    (forall f x y, f ∈ m_fields m -> lookup_name fs (field_id (f_name f)) = Some x ->
       lookup_name fs' (field_id (f_name f)) = Some y -> py_value R ms (f_type f) x y) ->
    py_value R ms (TRef name i p) (GStruct (type_id name) fs) (GStruct (type_id name) fs').

Definition py_message_value R (ms : list Message) (m : Message) : gval -> gval -> Prop :=
  py_value R ms (TRef (m_name m) None (mkPos 0 0)).

Lemma py_value_ref R ms name i i' p p' x y :
  py_value R ms (TRef name i p) x y -> py_value R ms (TRef name i' p') x y.
Proof. inversion 1; subst. by econstructor. Qed.

Lemma py_value_impl (R R' : Z -> Z -> Prop) ms t x y :
  (forall u d, R u d -> R' u d) -> py_value R ms t x y -> py_value R' ms t x y.
Proof.
  intros HR. induction 1 as [p u d Hu|k p x Hk|len elem p l l' Hl _ IH|name i p m fs fs' Hm Hk _ IH].
  - constructor. by apply HR.
  - by constructor.
  - constructor; [done|]. exact IH.
  - econstructor; [exact Hm|exact Hk|exact IH].
Qed.

Lemma py_naming_ok s : checked s -> naming_ok s.
Proof.
  intros Hck. pose proof (no_messages _ (ck_names _ Hck)) as Hno. split.
  - intros i m Hm. by destruct (proj1 (Forall_lookup _ _) (mo_fields _ Hno) i m Hm) as (_ & ? & _).
  - apply (mo_distinct _ Hno).
Qed.

(** ** Writes in sequence *)

Lemma sub_nested {E} b base off (f : list byte -> res E (list byte)) b' :
  0 <= off -> sub b base (fun b => sub b off f) = Ok b' -> sub b (base + off) f = Ok b'.
Proof.
  intros H0 ((Hb & Hl) & tl & ((_ & Ho) & tl' & Hf & ->)%sub_Ok & ->)%sub_Ok. rewrite length_drop in Ho.
  rewrite (sub_intro _ _ _ tl'); [|lia|].
  - rewrite app_assoc, take_take_drop. do 3 f_equal. lia.
  - rewrite <-Hf, drop_drop. f_equal. f_equal. lia.
Qed.

Lemma sub_bind {E} b base (f h : list byte -> res E (list byte)) b' :
  sub b base (fun b => let! b := f b in h b) = Ok b' -> exists b1, sub b base f = Ok b1 /\ sub b1 base h = Ok b'.
Proof.
  intros (Hb & tl & Hf & ->)%sub_Ok. destruct (f _) as [t1| | |] eqn:H1; cbn [bind] in Hf; try done.
  assert (Ht : List.length (take (Z.to_nat base) b) = Z.to_nat base) by (rewrite length_take; lia).
  exists (take (Z.to_nat base) b ++ t1). split; [by apply sub_intro|].
  rewrite (sub_intro _ _ _ tl); [|rewrite length_app, Ht; lia|by rewrite drop_app_length'].
  by rewrite take_app_length'.
Qed.

Lemma sub_any {E E'} b off bytes b' :
  sub (E := E) b off (fun b => write b bytes) = Ok b' -> sub (E := E') b off (fun b => write b bytes) = Ok b'.
Proof. intros (Hb & tl & Hw & ->)%sub_Ok. apply sub_intro; [done|]. by eapply write_any. Qed.

(** A loop that writes pieces of one size writes them as one. *)
Lemma write_pieces (g : nat -> list byte -> res unit (list byte)) (n : nat) bs off i b b' :
  (forall j w b, bs !! j = Some w -> g (i + j)%nat b = sub b (off + Z.of_nat n * Z.of_nat (i + j)) (fun b => write b w)) ->
  Forall (fun w => List.length w = n) bs -> 0 <= off -> off + Z.of_nat n * Z.of_nat i <= Z.of_nat (List.length b) ->
  for_range g i (List.length bs) b = Ok b' ->
  sub (E := unit) b (off + Z.of_nat n * Z.of_nat i) (fun b => write b (mjoin bs)) = Ok b'.
Proof.
  intros Hg Hn H0. revert i b Hg. induction Hn as [|w bs Hw _ IH]; intros i b Hg Hi Hrun; cbn [for_range List.length] in Hrun.
  { injection Hrun as <-. rewrite (sub_intro _ _ _ (drop (Z.to_nat (off + Z.of_nat n * Z.of_nat i)) b)); [|lia|].
    - by rewrite take_drop.
    - unfold write. cbn. by rewrite drop_0. }
  pose proof (Hg 0%nat w b eq_refl) as Hg0. rewrite Nat.add_0_r in Hg0. rewrite Hg0 in Hrun. clear Hg0.
  destruct (sub b _ _) as [b1| | |] eqn:Hb1; cbn [bind] in Hrun; try done. set (o := off + Z.of_nat n * Z.of_nat i) in *.
  apply sub_Ok in Hb1 as ((Ho & _) & t1 & Hw1 & ->).
  assert (Ht : List.length (take (Z.to_nat o) b) = Z.to_nat o) by (rewrite length_take; lia).
  assert (Hl1 : (n <= List.length t1)%nat).
  { unfold write in Hw1. destruct (_ <=? _)%nat; [|done]. injection Hw1 as <-. rewrite length_app. lia. }
  apply IH in Hrun.
  2:{ intros j w' b1 Hj. replace (i + 1 + j)%nat with (i + S j)%nat by lia. by apply Hg. }
  2:{ rewrite length_app, Ht. unfold o. lia. }
  apply sub_Ok in Hrun as (_ & t2 & Hw2 & ->).
  assert (Ho' : Z.to_nat (off + Z.of_nat n * Z.of_nat (i + 1)) = (Z.to_nat o + n)%nat) by (unfold o; lia). rewrite Ho' in *.
  rewrite drop_app_add' in Hw2 by done. rewrite take_app_add', <-app_assoc by done. apply sub_intro; [lia|]. change (mjoin (w :: bs)) with (w ++ mjoin bs). rewrite write_app, Hw1. cbn [bind].
  rewrite Hw, (sub_intro _ _ _ t2); [by rewrite Nat2Z.id|lia|by rewrite Nat2Z.id].
Qed.

(** ** Encoding *)

(** The little-endian form of a scalar. *)
Definition le_put (k : Kind) (v : gval) (p : list byte) : res unit (list byte) :=
  match k, v with
  | KBool, GBool x => write p [if x then Byte.x01 else Byte.x00]
  | _, _ => match bits_of k v with Some bits => write p (le_split (Z.to_nat (ScalarSize k)) bits) | None => Panic end
  end.
Definition le_get (k : Kind) (p : list byte) : dec gval :=
  if (Z.to_nat (ScalarSize k) <=? List.length p)%nat then Ok (of_bits k (le_combine (take (Z.to_nat (ScalarSize k)) p))) else Panic.

Lemma le_helpers_ok : helpers_ok le_put le_get.
Proof.
  split; [done| |done]. intros k v bits p Hk _ Hb _. unfold le_put. rewrite Hb. by destruct k.
Qed.

Definition py_callee (ms : list Message) (name : string) (msg : option nat) : string := name.

Section encode.
Context (pack_f : Z -> option Z) (s : Schema) (Hck : checked s).
Let ms := s_messages s.
Let Hnk : naming_ok s := py_naming_ok s Hck.
Let R (u d : Z) : Prop := pack_f d = Some u.

Lemma pack_ok k p x y :
  typed ms (TBasic k p) x -> py_value R ms (TBasic k p) x y -> IsVarKind k = false -> k <> KBool ->
  exists w, py_pack pack_f k y = Ok w /\ List.length w = Z.to_nat (ScalarSize k) /\ forall b, le_put k x b = write b w.
Proof using.
  intros Ht Hy Hv Hk. destruct (bits_of_typed ms k p x Ht Hv Hk) as (bits & Hb & _ & Hr).
  exists (le_split (Z.to_nat (ScalarSize k)) bits). split; [|split; [apply length_le_split|]].
  2:{ intros b. unfold le_put. rewrite Hb. by destruct k. }
  inversion Hy as [? u d Hu|? ? ? Hf| |]; subst.
  - cbn [bits_of IsFloat] in Hb. injection Hb as <-. cbn [py_pack]. by rewrite Hu.
  - inversion Ht as [|? ? n _ _ Hfl Hn|? ? u Hfl _| | |]; subst; try done; cbn [bits_of] in Hb; rewrite Hfl in Hb; injection Hb as <-.
    + cbn [py_pack]. rewrite Hfl, Hv, bool_decide_eq_false_2 by done. cbn [orb].
      assert (in_range k n = true) as ->.
      { unfold in_range. unfold int_range in Hn. destruct (IsSigned k); apply andb_true_intro; split;
          first [apply Z.leb_le|apply Z.ltb_lt]; lia. }
      by rewrite <-scalar_width, le_split_mod.
    + by destruct k.
Qed.

Lemma packs_ok k p l l' :
  List.length l = List.length l' -> (forall j x y, l !! j = Some x -> l' !! j = Some y ->
    typed ms (TBasic k p) x /\ py_value R ms (TBasic k p) x y) -> IsVarKind k = false -> k <> KBool ->
  exists bs, py_packs pack_f k l' = Ok (mjoin bs) /\ List.length bs = List.length l /\
    Forall (fun w => List.length w = Z.to_nat (ScalarSize k)) bs /\
    forall j x w, l !! j = Some x -> bs !! j = Some w -> forall b, le_put k x b = write b w.
Proof using.
  intros Hl Hr Hv Hk. revert l' Hl Hr. induction l as [|x l IH]; intros [|y l'] Hl Hr; try done.
  { exists []. by split_and!. }
  destruct (Hr 0%nat x y eq_refl eq_refl) as [Ht Hy]. destruct (pack_ok k p x y Ht Hy Hv Hk) as (w & Hw & Hlw & Hput).
  destruct (IH l') as (bs & Hbs & Hlb & Hfb & Hall); [by injection Hl|intros j; apply (Hr (S j))|].
  exists (w :: bs). cbn [py_packs]. rewrite Hw. cbn [bind]. rewrite Hbs. cbn [bind]. split_and!; [done|cbn; lia|by constructor|].
  intros [|j] x' w'; cbn; [by intros [= <-] [= <-]|by apply Hall].
Qed.

Lemma flags_ok p l l' :
  List.length l = List.length l' -> (forall j x y, l !! j = Some x -> l' !! j = Some y ->
    typed ms (TBasic KBool p) x /\ py_value R ms (TBasic KBool p) x y) ->
  exists bs, py_flags l' = Ok (mjoin bs) /\ List.length bs = List.length l /\
    Forall (fun w => List.length w = 1%nat) bs /\
    forall j x w, l !! j = Some x -> bs !! j = Some w -> forall b, le_put KBool x b = write b w.
Proof using.
  intros Hl Hr. revert l' Hl Hr. induction l as [|x l IH]; intros [|y l'] Hl Hr; try done.
  { exists []. by split_and!. }
  destruct (Hr 0%nat x y eq_refl eq_refl) as [Ht Hy]. inversion Hy as [|? ? ? _| |]; subst. inversion Ht as [? z| | | | |]; subst; try done.
  destruct (IH l') as (bs & Hbs & Hlb & Hfb & Hall); [by injection Hl|intros j; apply (Hr (S j))|].
  exists ([if z then Byte.x01 else Byte.x00] :: bs). cbn [py_flags py_flag bind]. rewrite Hbs. cbn [bind].
  split_and!; [done|cbn; lia|by constructor|].
  intros [|j] x' w'; cbn; [by intros [= <-] [= <-]|by apply Hall].
Qed.

Lemma pack_into_ok b off w b' : sub (E := unit) b off (fun b => write b w) = Ok b' -> pack_into b off w = Ok b'.
Proof using. unfold pack_into. by intros ->. Qed.

Section put.
Context (fuel : nat) (ready : nat -> Prop).
Let put_c := put_fixed py_callee le_put (S fuel) ms.

Hypothesis Hcall : forall j m v y buf off b', ready j -> ms !! j = Some m -> value_of s m v -> py_message_value R ms m v y ->
  0 <= off -> sub buf off (put_c v) = Ok b' -> py_put pack_f (S fuel) ms y buf off = Ok b'.

Lemma put_refs_ok (g : nat -> list byte -> res unit (list byte)) j m size off l l' i buf base b' :
  ready j -> ms !! j = Some m -> 0 <= size -> 0 <= off -> 0 <= base -> List.length l = List.length l' ->
  (forall k x y, l !! k = Some x -> l' !! k = Some y -> value_of s m x /\ py_message_value R ms m x y) ->
  (forall k x b b', l !! k = Some x -> g (i + k)%nat b = Ok b' -> sub b (off + size * Z.of_nat (i + k)) (put_c x) = Ok b') ->
  sub buf base (fun b => for_range g i (List.length l) b) = Ok b' ->
  py_put_refs (py_put pack_f (S fuel) ms) l' size buf (base + off) i = Ok b'.
Proof using Hcall.
  intros Hj Hm Hs H0 Hb0 Hl Hr. revert l' i buf Hl Hr.
  induction l as [|x l IH]; intros [|y l'] i buf Hl Hr Hg Hrun; try done; cbn [for_range List.length py_put_refs] in *.
  { apply sub_Ok in Hrun as (_ & tl & [= <-] & ->). by rewrite take_drop. }
  apply sub_bind in Hrun as (b1 & H1 & Hrun). destruct (Hr 0%nat x y eq_refl eq_refl) as [Hv Hy].
  assert (H1' : sub buf base (fun b => sub b (off + size * Z.of_nat i) (put_c x)) = Ok b1).
  { apply sub_Ok in H1 as (Hin & tl & Hgi & ->). apply sub_intro; [done|].
    pose proof (Hg 0%nat x (drop (Z.to_nat base) buf) tl eq_refl) as Hg0. rewrite Nat.add_0_r in Hg0. by apply Hg0. }
  apply sub_nested in H1'; [|nia].
  replace (base + off + Z.of_nat i * size) with (base + (off + size * Z.of_nat i)) by lia.
  rewrite (Hcall j m x y buf _ b1 Hj Hm Hv Hy) by (done || nia). cbn [bind]. apply IH.
  - by injection Hl.
  - intros k; apply (Hr (S k)).
  - intros k x' b b2 Hk. replace (S i + k)%nat with (i + S k)%nat by lia. by apply Hg.
  - by rewrite Nat.add_1_r in Hrun.
Qed.

Lemma field_put t nm off v x y buf base b' :
  fixed_type s t -> (forall j, refOf t = Some j -> ready j) -> 0 <= off -> 0 <= base ->
  load v 0 (PName nm) = Some x -> typed ms t x -> py_value R ms t x y ->
  sub buf base (exec_c_put le_put put_c v (c_put py_callee ms t (PName nm) (OAt off)) 0) = Ok b' ->
  py_put_field pack_f (py_put pack_f (S fuel) ms) (py_shape ms t) y buf (base + off) = Ok b'.
Proof using Hck Hcall.
  intros Hty Hready H0 Hb0 Hx Ht Hy Hrun. destruct t as [k q|len elem q|name msg q].
  - assert (Hsub : sub buf (base + off) (le_put k x) = Ok b').
    { apply sub_nested; [done|]. cbn [c_put exec_c_put] in Hrun. rewrite Hx in Hrun. exact Hrun. }
    destruct (decide (k = KBool)) as [->|Hk].
    + inversion Hy as [|? ? ? _| |]; subst. inversion Ht as [? z| | | | |]; subst; try done. cbn [py_shape py_put_field py_flag bind].
      by eapply sub_any.
    + destruct (pack_ok k q x y Ht Hy (proj2 Hty) Hk) as (w & Hw & _ & Hput). destruct k; try done;
        cbn [py_shape py_put_field]; rewrite Hw; cbn [bind]; apply pack_into_ok; rewrite <-Hsub; unfold sub; by rewrite Hput.
  - destruct (elem_facts s Hck len elem q Hty) as (Hlen & He & Hse & _). inversion Ht as [| | | |? ? ? l Hll Hts|]; subst.
    inversion Hy as [| |? ? ? ? l' Hl' Hys|]; subst. cbn [c_put exec_c_put] in Hrun. rewrite Nat2Z.id in Hrun.
    assert (Harr : py_arr l' (Z.of_nat (List.length l)) = Ok l') by (unfold py_arr; rewrite Hl', Z.eqb_refl; done).
    assert (Hwr : forall k q' bs, elem = TBasic k q' -> List.length bs = List.length l ->
      Forall (fun w => List.length w = Z.to_nat (ScalarSize k)) bs ->
      (forall j x w, l !! j = Some x -> bs !! j = Some w -> forall b, le_put k x b = write b w) ->
      pack_into buf (base + off) (mjoin bs) = Ok b').
    { intros k q' bs -> Hlb Hfb Hall. apply pack_into_ok. apply sub_nested; [done|].
      apply sub_Ok in Hrun as (Hin & tl & Hrun & ->). apply sub_intro; [done|]. set (b := drop _ buf) in *.
      assert (Hg : forall j w b, bs !! j = Some w -> exec_c_put le_put put_c v (c_put py_callee ms (TBasic k q') (PElem (PName nm))
          (OPlus (OAt off) (Size ms (TBasic k q')))) (0 + j) b =
        sub b (off + Z.of_nat (Z.to_nat (ScalarSize k)) * Z.of_nat (0 + j)) (fun b => write b w)).
      { intros j w b0 Hj. destruct (lookup_lt_is_Some_2 l j) as [z Hz]; [apply lookup_lt_Some in Hj; lia|].
        cbn [c_put exec_c_put]. rewrite (load_elem _ _ _ l) by done. cbn [Nat.add]. rewrite Hz. cbn [or_panic bind offset_at Size].
        rewrite Z2Nat.id by (destruct (scalar_widths k) as [|[|[]]]; lia). unfold sub. by rewrite (Hall j z w Hz Hj). }
      rewrite <-Hlb in Hrun. pose proof (write_pieces _ _ bs off 0 b tl Hg Hfb H0) as Hp. rewrite Z.mul_0_r, Z.add_0_r in Hp.
      apply Hp; [|exact Hrun]. destruct bs as [|w bs]; [cbn in Hlb; lia|]. cbn [List.length for_range] in Hrun.
      pose proof (Hg 0%nat w b eq_refl) as Hg0. cbn [Nat.add] in Hg0. rewrite Hg0 in Hrun.
      destruct (sub b _ _) eqn:Hs; try done. apply sub_Ok in Hs as (? & _). lia. }
    destruct elem as [k q'|? ? ?|name msg q']; [|by destruct Hty|].
    + destruct (decide (k = KBool)) as [->|Hk].
      * destruct (flags_ok q' l l') as (bs & Hbs & Hlb & Hfb & Hall); [done|intros; eauto|].
        cbn [py_shape py_put_field]. rewrite Harr. cbn [bind]. rewrite Hbs. cbn [bind]. by eapply Hwr.
      * destruct (packs_ok k q' l l') as (bs & Hbs & Hlb & Hfb & Hall); [done|intros; eauto|apply He|done|].
        assert (Hsh : py_shape ms (TArray (Z.of_nat (List.length l)) (TBasic k q') q) = PArr (Z.of_nat (List.length l)) k) by (by destruct k).
        rewrite Hsh. cbn [py_put_field]. rewrite Harr. cbn [bind]. rewrite Hbs. cbn [bind]. by eapply Hwr.
    + destruct (ref_named s Hck Hnk _ _ _ He) as (j & m & -> & Hj & <- & _). cbn [py_shape py_put_field]. rewrite Harr. cbn [bind].
      eapply (put_refs_ok _ j m _ off l l' 0 buf base); [by apply Hready|done..| | |exact Hrun].
      * intros k x' y' Hx' Hy'. split; [eapply value_of_typed; by eapply Hts|]. eapply py_value_ref. by eapply Hys.
      * intros k x' b b2 Hk. cbn [c_put exec_c_put Nat.add]. rewrite (load_elem _ _ _ l) by done. rewrite Hk. cbn [or_panic bind].
        by destruct (is_struct _ _).
  - destruct (ref_named s Hck Hnk _ _ _ Hty) as (j & m & -> & Hj & <- & _). cbn [py_shape py_put_field].
    eapply (Hcall j m x); [by apply Hready|done|by eapply value_of_typed|by eapply py_value_ref|lia|].
    apply sub_nested; [done|]. cbn [c_put exec_c_put] in Hrun. rewrite Hx in Hrun. cbn [or_panic bind] in Hrun.
    apply sub_Ok in Hrun as (Hin & tl & Hrun & ->). apply sub_intro; [done|]. by destruct (is_struct _ _).
Qed.
End put.

Lemma py_put_ok fuel i m v y buf off b' :
  ms !! i = Some m -> value_of s m v -> py_message_value R ms m v y -> message_fuel s i fuel -> 0 <= off ->
  sub buf off (put_fixed py_callee le_put (S fuel) ms v) = Ok b' -> py_put pack_f (S fuel) ms y buf off = Ok b'.
Proof using Hck.
  revert i m v y buf off b'. induction fuel as [|fuel IH]; intros i m v y buf off b' Hm Hv Hy Hfu H0 Hrun.
  { destruct Hfu as (? & ? & _ & ?). lia. }
  destruct (value_of_struct s Hck Hnk i m v Hm Hv) as (vs & -> & Hst & Hk & Ht). fold ms in Hst.
  inversion Hy as [| | |? ? ? m' ? ys Hm' Hk' Hys]; subst. cbn [struct_of] in Hst. assert (m' = m) as -> by congruence.
  change (py_put pack_f (S (S fuel)) ms ?v ?b ?o) with
    (let! m := or_panic (struct_of ms v) in py_put_fields pack_f (py_put pack_f (S fuel) ms) ms v (FixedFields m) b o).
  cbn [struct_of]. rewrite Hst. cbn [or_panic bind].
  assert (Hrun' : sub buf off (exec_c_puts le_put (put_fixed py_callee le_put (S fuel) ms) (GStruct (type_id (m_name m)) vs)
    (c_body py_callee ms m true)) = Ok b').
  { apply sub_Ok in Hrun as (Hin & tl & Hrun & ->). apply sub_intro; [done|].
    change (put_fixed py_callee le_put (S (S fuel)) ms ?v ?b) with (let! m := or_panic (struct_of ms v) in
      exec_c_puts le_put (put_fixed py_callee le_put (S fuel) ms) v (c_body py_callee ms m true) b) in Hrun.
    cbn [struct_of] in Hrun. rewrite Hst in Hrun. exact Hrun. }
  clear Hrun. unfold c_body in Hrun'. assert (Hfs : forall f, f ∈ FixedFields m -> f ∈ FixedFields m) by done. revert Hfs Hrun'.
  generalize (FixedFields m) at 1 3 4. intros fs. revert buf. induction fs as [|f fs IHf]; intros buf Hfs Hrun;
    cbn [fmap list_fmap exec_c_puts py_put_fields] in *.
  { apply sub_Ok in Hrun as (_ & tl & [= <-] & ->). by rewrite take_drop. }
  apply sub_bind in Hrun as (b1 & H1 & Hrun). assert (Hff : f ∈ FixedFields m) by (apply Hfs; by left).
  destruct (field_facts s Hck i m f Hm Hff) as (Hty & Hoff & _). apply elem_fixed in Hff as [Hf _].
  destruct (struct_field m vs f Hk Hf) as [x Hx]. destruct (struct_field m ys f) as [z Hz]; [congruence|done|].
  cbn [load]. rewrite Hz. cbn [or_panic bind].
  assert (Hput : py_put_field pack_f (py_put pack_f (S fuel) ms) (py_shape ms (f_type f)) z buf (off + f_offset f) = Ok b1).
  { apply (field_put fuel (fun j => message_fuel s j fuel)) with (nm := field_id (f_name f)) (v := GStruct (type_id (m_name m)) vs) (x := x);
      [|done|intros j; by eapply (ref_ready s Hck Hnk)|done..|by apply (Ht f x)|by apply (Hys f x z)|exact H1].
    intros j m' v' y' buf' off' b2 Hj Hm'' Hv' Hy' Ho Hr. by eapply IH. }
  rewrite Hput. cbn [bind]. apply IHf; [intros g Hg; apply Hfs; by right|done].
Qed.

Lemma put_vars_py out l :
  py_put_vars out l = if forallb (fun raw => ipcgenFits (Z.of_nat (List.length raw))) l then Ok (out ++ frames l) else Error ValueErr.
Proof using.
  revert out. induction l as [|raw l IH]; intros out; cbn [py_put_vars forallb]; [by rewrite app_nil_r|].
  unfold py_put_var, ipcgenFits. rewrite Z.ltb_antisym. destruct (_ <=? _); cbn [negb andb bind]; [|done].
  rewrite IH. destruct (forallb _ l); [|done]. rewrite frames_cons. unfold frame. by rewrite <-!app_assoc.
Qed.

(** [encode] of a Python value returns the encoding of its value on the wire. *)
Lemma py_encode_ok i m v y l :
  ms !! i = Some m -> value_of s m v -> py_message_value R ms m v y -> raws m v = Some l ->
  (fits l -> exists e, MarshalBinary ms v = Ok e /\ py_encode pack_f ms y = Ok e) /\
  (~ fits l -> py_encode pack_f ms y = Error ValueErr).
Proof using Hck.
  intros Hm Hv Hy Hl. destruct (value_of_struct s Hck Hnk i m v Hm Hv) as (vs & -> & Hst & Hk & Ht). fold ms in Hst.
  inversion Hy as [| | |? ? ? m' ? ys Hm' Hk' Hys]; subst. cbn [struct_of] in Hst. assert (m' = m) as -> by congruence.
  set (n := Z.to_nat (FixedSize m)). pose proof (fixed_size_nonneg s Hck i m Hm) as H0.
  assert (Hfu : message_fuel s i (fuel_for ms)) by (apply (message_fuel_enough s Hck); by eapply lookup_lt_Some).
  assert (Hz : zero (replicate n Byte.x00) 0 n) by (intros k Hk0; apply lookup_replicate; split; [done|lia]).
  pose proof (ipcgenPut_ok (E := unit) s Hck Hnk (fuel_for ms) i m _ (replicate n Byte.x00) Hm Hv Hfu
    ltac:(by rewrite length_replicate) Hz) as Hw. fold ms in Hw.
  destruct (plain_ipcgenPut (E := unit) (S (fuel_for ms)) ms (GStruct (type_id (m_name m)) vs)) as [_ Herr].
  destruct (ipcgenPut (S (fuel_for ms)) ms _ (replicate n Byte.x00)) as [fixed|e| |] eqn:Hput; [clear Hw Herr|by destruct (Herr _ _ Hput)|done..].
  assert (Hpy : py_put pack_f (S (fuel_for ms)) ms (GStruct (type_id (m_name m)) ys) (replicate n Byte.x00) 0 = Ok fixed).
  { apply (py_put_ok _ i m (GStruct (type_id (m_name m)) vs)); [done..|].
    rewrite (sub_intro _ _ _ fixed); [done|lia|]. rewrite drop_0. rewrite <-Hput.
    apply (put_fixed_same py_callee le_put le_get s Hck Hnk) with (i := i) (m := m);
      [done|apply le_helpers_ok|done..|by rewrite length_replicate|done]. }
  assert (Hraws : raws m (GStruct (type_id (m_name m)) ys) = Some l).
  { destruct (raws_Some s Hck Hnk i m _ Hm Hv) as (l0 & Hl0 & HF). assert (l0 = l) as -> by congruence.
    apply raws_lookup. apply Forall2_same_length_lookup_2; [by eapply Forall2_length|]. intros j f raw Hf Hr.
    pose proof (Forall2_lookup_lr _ _ _ _ _ _ HF Hf Hr) as Hraw. cbn [load] in Hraw.
    apply list_elem_of_lookup_2, elem_var in Hf as [Hf Hvar]. destruct (struct_field m ys f) as [z Hfz]; [congruence|done|]. rewrite Hfz. f_equal.
    pose proof (Hys f _ z Hf Hraw Hfz) as Hyz. by inversion Hyz. }
  unfold py_encode. cbn [struct_of]. rewrite Hst. cbn [or_panic bind]. fold n. rewrite Hpy, Hraws. cbn [or_panic bind].
  rewrite put_vars_py. split; intros Hfit.
  - destruct (MarshalBinary_ok s Hck Hnk i m _ l Hm Hv Hl Hfit) as (fixed' & _ & _ & Hput' & Hmar & _).
    rewrite (proj1 (fits_forallb l) Hfit). fold n ms in Hput'. rewrite Hput in Hput'. injection Hput' as <-. eauto.
  - destruct (forallb _ l) eqn:Hf; [by apply fits_forallb in Hf|done].
Qed.
End encode.

(** ** Decoding *)

(** The list of a comprehension, from index [i] on. *)
Fixpoint collect {A} (g : nat -> dec A) (i n : nat) : dec (list A) :=
  match n with
  | O => Ok []
  | S n => let! x := g i in let! xs := collect g (S i) n in Ok (x :: xs)
  end.

Lemma collect_ext {A} (g h : nat -> dec A) i n : (forall j, (i <= j < i + n)%nat -> g j = h j) -> collect g i n = collect h i n.
Proof.
  revert i. induction n as [|n IH]; intros i H; cbn [collect]; [done|]. rewrite (H i) by lia. rewrite (IH (S i)); [done|].
  intros j Hj. apply H. lia.
Qed.

Lemma collect_Ok {A} (h : nat -> A) i n : collect (fun j => Ok (h j)) i n = Ok (h <$> seq i n).
Proof. revert i. induction n as [|n IH]; intros i; cbn [collect seq]; [done|]. by rewrite IH. Qed.

Lemma items_agree (check : list byte -> Typ -> dec unit) size elem b (g : nat -> dec gval) Q i n :
  0 <= size -> (Z.of_nat (i + n) * size <= Z.of_nat (List.length b)) ->
  (forall j, (i <= j < i + n)%nat -> agrees (check (drop (Z.to_nat (Z.of_nat j * size)) b) elem) (g j) (Q j)) ->
  agrees (check_items check size elem b i n) (collect g i n)
    (fun l => List.length l = n /\ forall k y, l !! k = Some y -> Q (i + k)%nat y).
Proof.
  intros Hs. revert i. induction n as [|n IH]; intros i Hb H; cbn [check_items collect].
  { exists []. split; [done|]. split; [done|]. intros k y Hk. by rewrite lookup_nil in Hk. }
  rewrite from_spec by nia. eapply agrees_bind; [apply H; lia|]. intros y Hy.
  assert (Hrest : agrees (check_items check size elem b (S i) n) (collect g (S i) n)
    (fun l => List.length l = n /\ forall k y, l !! k = Some y -> Q (S i + k)%nat y)).
  { apply IH; [by replace (S i + n)%nat with (i + S n)%nat by lia|]. intros j Hj. apply H. lia. }
  destruct (check_items _ _ _ _ _ _) as [[]| | |]; cbn [agrees] in Hrest |- *; [|by rewrite Hrest|done..].
  destruct Hrest as (l & -> & Hl & Hall). exists (y :: l). split; [done|]. split; [cbn; lia|].
  intros [|k] z; cbn; [intros [= <-]; by rewrite Nat.add_0_r|]. intros Hk. replace (i + S k)%nat with (S i + k)%nat by lia. by apply Hall.
Qed.

Section decode.
Context (unpack_f : Z -> Z) (s : Schema) (Hck : checked s).
Let ms := s_messages s.
Let Hnk : naming_ok s := py_naming_ok s Hck.
Let R (u d : Z) : Prop := d = unpack_f u.

(** The Python value of what the bytes hold. *)
Definition py_holds (b : list byte) (t : Typ) (y : gval) : Prop :=
  exists x, typed ms t x /\ holds ms b t x /\ py_value R ms t x y.

Lemma scalar_read k q b :
  IsVarKind k = false -> k <> KBool -> (Z.to_nat (ScalarSize k) <= List.length b)%nat ->
  py_holds b (TBasic k q) (py_unpack unpack_f k (take (Z.to_nat (ScalarSize k)) b)).
Proof using.
  intros Hv Hk Hl. set (raw := take _ b).
  assert (Hraw : List.length raw = Z.to_nat (ScalarSize k)) by (unfold raw; rewrite length_take; lia).
  pose proof (le_combine_bound raw) as Hr. rewrite Hraw, scalar_width in Hr.
  destruct (of_bits_typed ms k q (le_combine raw) Hv Hk Hr) as [Ho Hb]. exists (of_bits k (le_combine raw)). split_and!; [done| |].
  - econstructor; [done..|]. fold raw. by rewrite <-Hraw, split_le_combine.
  - destruct (decide (k = F32)) as [->|Hf]; [by constructor|]. replace (py_unpack unpack_f k raw) with (of_bits k (le_combine raw)) by (by destruct k).
    by constructor.
Qed.

Lemma bool_read fuel q x b :
  agrees (checkType (S fuel) ms (x :: b) (TBasic KBool q)) (py_bool x) (py_holds (x :: b) (TBasic KBool q)).
Proof using.
  cbn [checkType]. unfold py_bool. destruct (Z.ltb_spec 1 (byte.unsigned x)) as [|Hx]; [done|].
  eexists. split; [done|]. exists (GBool (byte.unsigned x =? 1)). split_and!; [constructor| |by constructor].
  constructor. cbn. f_equal. by apply small_byte.
Qed.

(** A list of elements. *)
Lemma array_holds b len elem q l :
  Z.of_nat (List.length l) = len -> (forall k y, l !! k = Some y -> py_holds (drop (k * Z.to_nat (Size ms elem)) b) elem y) ->
  py_holds b (TArray len elem q) (GArr l).
Proof using.
  intros <- H.
  assert (Hx : exists xs, List.length xs = List.length l /\ forall k x y, xs !! k = Some x -> l !! k = Some y ->
    typed ms elem x /\ holds ms (drop (k * Z.to_nat (Size ms elem)) b) elem x /\ py_value R ms elem x y).
  { generalize (Z.to_nat (Size ms elem)) as n, H. clear H. intros n. induction l as [|y l IH] using rev_ind; intros H.
    { exists []. split; [done|]. intros k x y Hk. by rewrite lookup_nil in Hk. }
    destruct IH as (xs & Hl & Hall); [intros k z Hk; apply H; by apply lookup_app_l_Some|].
    destruct (H (List.length l) y) as (x & Hx); [by apply list_lookup_middle|].
    exists (xs ++ [x]). split; [rewrite !length_app; cbn; lia|]. intros k x' y' Hx' Hy'.
    destruct (decide (k < List.length l)%nat) as [Hlt|Hge].
    - rewrite lookup_app_l in Hx', Hy' by lia. by apply Hall.
    - assert (k = List.length l) as ->.
      { apply lookup_lt_Some in Hy'. rewrite length_app in Hy'. cbn in Hy'. lia. }
      rewrite list_lookup_middle in Hy' by done. rewrite <-Hl, list_lookup_middle in Hx' by done. by injection Hx' as <-; injection Hy' as <-. }
  destruct Hx as (xs & Hl & Hall).
  assert (Hboth : forall k x, xs !! k = Some x -> exists y, l !! k = Some y).
  { intros k x Hk. apply lookup_lt_is_Some_2. apply lookup_lt_Some in Hk. lia. }
  exists (GArr xs). split_and!.
  - constructor; [lia|]. intros k x Hk. destruct (Hboth k x Hk) as [y Hy]. by apply (Hall k x y).
  - constructor; [lia|]. intros k x Hk. destruct (Hboth k x Hk) as [y Hy]. by apply (Hall k x y).
  - constructor; [done|]. intros k x y Hk Hy. by apply (Hall k x y).
Qed.

Lemma py_holds_ref b name i i' p p' y : py_holds b (TRef name i p) y -> py_holds b (TRef name i' p') y.
Proof using.
  intros (x & Ht & Hh & Hy). exists x. split_and!; [|inversion Hh; subst; try done; by econstructor|by eapply py_value_ref].
  inversion Ht; subst; by econstructor.
Qed.

Section get.
Context (call : string -> list byte -> Z -> dec gval) (ready : nat -> Prop).
Hypothesis Hcall : forall j m buf off fuel', ready j -> ms !! j = Some m -> message_fuel s j fuel' -> 0 <= off ->
  off + FixedSize m <= Z.of_nat (List.length buf) ->
  agrees (check_fields (checkType fuel' ms) (drop (Z.to_nat off) buf) (FixedFields m)) (call (m_name m) buf off)
    (py_holds (drop (Z.to_nat off) buf) (TRef (m_name m) (Some j) (mkPos 0 0))).

Lemma get_refs_collect name size buf off i n :
  py_get_refs call name size buf off i n = collect (fun j => call name buf (off + Z.of_nat j * size)) i n.
Proof using. revert i. induction n as [|n IH]; intros i; cbn [py_get_refs collect]; [done|]. by rewrite IH. Qed.

Lemma bools_collect b i n : (i + n <= List.length b)%nat ->
  py_bools (take n (drop i b)) = collect (fun j => match drop j b with x :: _ => py_bool x | [] => Panic end) i n.
Proof using.
  revert i. induction n as [|n IH]; intros i Hl; cbn [collect]; [done|].
  destruct (lookup_lt_is_Some_2 b i) as [x Hx]; [lia|]. rewrite (drop_S b x i Hx). cbn [take py_bools]. by rewrite IH by lia.
Qed.

Lemma ref_get j m buf off fuel' q :
  ready j -> ms !! j = Some m -> type_fuel s (TRef (m_name m) (Some j) q) fuel' -> 0 <= off ->
  off + FixedSize m <= Z.of_nat (List.length buf) ->
  agrees (checkType fuel' ms (drop (Z.to_nat off) buf) (TRef (m_name m) (Some j) q)) (call (m_name m) buf off)
    (py_holds (drop (Z.to_nat off) buf) (TRef (m_name m) (Some j) q)).
Proof using Hcall.
  intros Hj Hm (fuel & -> & Hfu) H0 Hl. cbn [checkType mbind option_bind]. rewrite Hm.
  eapply agrees_impl; [|by eapply Hcall]. intros y. apply py_holds_ref.
Qed.

Lemma field_get t buf off fuel' :
  fixed_type s t -> (forall j, refOf t = Some j -> ready j) -> type_fuel s t fuel' -> 0 <= off ->
  off + Size ms t <= Z.of_nat (List.length buf) ->
  agrees (checkType fuel' ms (drop (Z.to_nat off) buf) t) (py_get_field unpack_f call (py_shape ms t) buf off)
    (py_holds (drop (Z.to_nat off) buf) t).
Proof using Hck Hcall.
  intros Hty Hready Hfuel H0 Hl. destruct t as [k q|len elem q|name msg q].
  - destruct fuel' as [|fuel']; [cbn in Hfuel; lia|]. cbn [Size] in Hl. destruct (decide (k = KBool)) as [->|Hk].
    + cbn [py_shape py_get_field]. rewrite from_spec by (cbn in Hl; lia).
      destruct (drop (Z.to_nat off) buf) as [|x rest] eqn:Hd; [|apply bool_read].
      apply (f_equal List.length) in Hd. rewrite length_drop in Hd. cbn in Hl, Hd. lia.
    + assert (Hc : checkType (S fuel') ms (drop (Z.to_nat off) buf) (TBasic k q) = Ok tt) by (by destruct k).
      assert (Hsh : py_shape ms (TBasic k q) = PScalar k) by (by destruct k). rewrite Hc, Hsh. cbn [py_get_field].
      unfold unpack_from. pose proof (scalar_widths k). rewrite (proj2 (Z.leb_le _ _)), (proj2 (Z.leb_le _ _)) by lia. cbn [andb bind seq fmap list_fmap head or_panic].
      eexists. split; [done|]. rewrite Nat.mul_0_l, Nat.add_0_r. apply scalar_read; [apply Hty|done|rewrite length_drop; lia].
  - destruct (elem_facts s Hck len elem q Hty) as (Hlen & He & Hse & Hef). cbn [Size] in Hl. fold ms in Hse.
    destruct fuel' as [|fuel']; [by destruct elem as [| |? []]; cbn in Hfuel; try lia; destruct Hfuel as (? & ? & ?)|].
    specialize (Hef _ Hfuel). set (b := drop (Z.to_nat off) buf) in *.
    assert (Hb : Z.of_nat (0 + Z.to_nat len) * Size ms elem <= Z.of_nat (List.length b)) by (unfold b; rewrite length_drop; nia).
    assert (Hgen : forall g, (forall j, (0 <= j < 0 + Z.to_nat len)%nat ->
        agrees (checkType fuel' ms (drop (Z.to_nat (Z.of_nat j * Size ms elem)) b) elem) (g j) (py_holds (drop (j * Z.to_nat (Size ms elem)) b) elem)) ->
      agrees (checkType (S fuel') ms b (TArray len elem q)) (let! l := collect g 0 (Z.to_nat len) in Ok (GArr l)) (py_holds b (TArray len elem q))).
    { intros g Hg. cbn [checkType].
      pose proof (items_agree (checkType fuel' ms) (Size ms elem) elem b g (fun j => py_holds (drop (j * Z.to_nat (Size ms elem)) b) elem)
        0 (Z.to_nat len) Hse Hb Hg) as Hi.
      destruct (check_items _ _ _ _ _ _) as [[]| | |]; cbn [agrees] in Hi |- *; [|by rewrite Hi|done..].
      destruct Hi as (l & -> & Hll & Hall). eexists. split; [done|]. apply array_holds; [lia|]. intros k y Hk. by apply Hall. }
    assert (Hat : forall j, Z.to_nat (Z.of_nat j * Size ms elem) = (j * Z.to_nat (Size ms elem))%nat) by (intros j; lia).
    destruct elem as [k q'|? ? ?|name msg q']; [|by destruct Hty|].
    + destruct fuel' as [|fuel']; [cbn in Hef; lia|]. destruct (decide (k = KBool)) as [->|Hk].
      * cbn [py_shape py_get_field Size] in *. fold b.
        assert (Hbl : (0 + Z.to_nat len <= List.length b)%nat) by (cbn [ScalarSize] in Hb; lia).
        pose proof (bools_collect b 0 (Z.to_nat len) Hbl) as Hc. rewrite drop_0 in Hc. rewrite Hc. apply Hgen.
        intros j Hj. rewrite Hat. replace (j * Z.to_nat (ScalarSize KBool))%nat with j by (cbn [ScalarSize]; lia).
        destruct (drop j b) as [|x rest] eqn:Hd; [|apply bool_read].
        apply (f_equal List.length) in Hd. rewrite length_drop in Hd. cbn in Hd. lia.
      * assert (Hsh : py_shape ms (TArray len (TBasic k q') q) = PArr len k) by (by destruct k). rewrite Hsh. cbn [py_get_field Size] in *.
        pose proof (scalar_widths k). unfold unpack_from. rewrite (proj2 (Z.leb_le _ _)), (proj2 (Z.leb_le _ _)) by nia. cbn [andb].
        rewrite <-collect_Ok. apply Hgen. intros j Hj. rewrite Hat.
        assert (Hc : checkType (S fuel') ms (drop (j * Z.to_nat (ScalarSize k)) b) (TBasic k q') = Ok tt) by (by destruct k).
        rewrite Hc. eexists. split; [done|]. rewrite <-drop_drop. fold b. apply scalar_read; [apply He|done|].
        rewrite length_drop. nia.
    + destruct (ref_named s Hck Hnk _ _ _ He) as (j & m & -> & Hj & <- & _). cbn [py_shape py_get_field]. rewrite get_refs_collect. apply Hgen.
      assert (Hsz : Size ms (TRef (m_name m) (Some j) q') = FixedSize m) by (cbn; fold ms in Hj; by rewrite Hj). rewrite Hsz in *.
      intros i Hi. rewrite Hat. unfold b. rewrite drop_drop.
      replace (Z.to_nat off + i * Z.to_nat (FixedSize m))%nat with (Z.to_nat (off + Z.of_nat i * FixedSize m)) by nia.
      apply ref_get; [by apply Hready|done|done|nia|nia].
  - destruct (ref_named s Hck Hnk _ _ _ Hty) as (j & m & -> & Hj & <- & _). cbn [py_shape py_get_field].
    apply ref_get; [by apply Hready|done..|]. cbn in Hl. fold ms in Hj. by rewrite Hj in Hl.
Qed.
End get.

Lemma get_fields call (ready : nat -> Prop) i m l buf off fuel' :
  (forall j m buf off fuel', ready j -> ms !! j = Some m -> message_fuel s j fuel' -> 0 <= off ->
     off + FixedSize m <= Z.of_nat (List.length buf) ->
     agrees (check_fields (checkType fuel' ms) (drop (Z.to_nat off) buf) (FixedFields m)) (call (m_name m) buf off)
       (py_holds (drop (Z.to_nat off) buf) (TRef (m_name m) (Some j) (mkPos 0 0)))) ->
  ms !! i = Some m -> (forall f, f ∈ l -> f ∈ FixedFields m) -> NoDup ((fun f => field_id (f_name f)) <$> l) ->
  (forall f j, f ∈ m_fields m -> refOf (f_type f) = Some j -> ready j) -> message_fuel s i fuel' -> 0 <= off ->
  off + FixedSize m <= Z.of_nat (List.length buf) ->
  let b := drop (Z.to_nat off) buf in
  agrees (check_fields (checkType fuel' ms) b l) (py_get_fields unpack_f call ms l buf off)
    (fun args => exists xs, fst <$> args = (fun f => field_id (f_name f)) <$> l /\ fst <$> xs = (fun f => field_id (f_name f)) <$> l /\
       forall f x y, f ∈ l -> lookup_name xs (field_id (f_name f)) = Some x -> lookup_name args (field_id (f_name f)) = Some y ->
         typed ms (f_type f) x /\ holds ms (drop (Z.to_nat (f_offset f)) b) (f_type f) x /\ py_value R ms (f_type f) x y).
Proof using Hck.
  intros Hcall Hm Hl Hnd Hready Hfuel H0 Hb b. induction l as [|f l IH]; cbn [check_fields py_get_fields].
  { exists []. split; [done|]. by exists []. }
  rewrite fmap_cons in Hnd. apply list.NoDup_cons in Hnd as [Hni Hnd]. specialize (IH ltac:(intros; apply Hl; by right) Hnd).
  assert (Hff : f ∈ FixedFields m) by (apply Hl; by left).
  destruct (field_facts s Hck i m f Hm Hff) as (Hty & Ho & Hle & Hs & Hfu). fold ms in Hle, Hs. apply elem_fixed in Hff as [Hf _].
  rewrite from_spec by (unfold b; rewrite ?length_drop; lia). unfold b at 1. rewrite drop_drop.
  replace (Z.to_nat off + Z.to_nat (f_offset f))%nat with (Z.to_nat (off + f_offset f)) by lia.
  eapply agrees_bind; [apply (field_get call ready Hcall); [done|intros j; by apply Hready|by apply Hfu|lia|lia]|].
  intros y (x & Htx & Hhx & Hyx).
  destruct (check_fields (checkType fuel' ms) b l) as [[]| | |]; cbn [agrees] in IH |- *; [|by rewrite IH|done..].
  destruct IH as (args & -> & xs & Ha & Hx & Hall). eexists. split; [done|]. exists ((field_id (f_name f), x) :: xs).
  split_and!; [cbn; by rewrite Ha|cbn; by rewrite Hx|]. intros g x' y' Hg. rewrite !lookup_name_cons. cbn [fst snd].
  apply elem_of_cons in Hg as [->|Hg].
  - rewrite String.eqb_refl. intros [= <-] [= <-]. split_and!; [done| |done]. unfold b. rewrite drop_drop.
    by replace (Z.to_nat off + Z.to_nat (f_offset f))%nat with (Z.to_nat (off + f_offset f)) by lia.
  - destruct (String.eqb_spec (field_id (f_name f)) (field_id (f_name g))) as [He|_]; [|by apply Hall].
    exfalso. apply Hni. rewrite He. apply list_elem_of_fmap. by exists g.
Qed.

Lemma lookup_fmap (h : Field -> gval) l f :
  NoDup ((fun f => field_id (f_name f)) <$> l) -> f ∈ l ->
  lookup_name ((fun f => (field_id (f_name f), h f)) <$> l) (field_id (f_name f)) = Some (h f).
Proof using.
  induction l as [|g l IH]; intros Hnd Hf; [by apply elem_of_nil in Hf|].
  rewrite fmap_cons, lookup_name_cons. cbn [fst snd]. rewrite fmap_cons in Hnd. apply list.NoDup_cons in Hnd as [Hni Hnd].
  apply elem_of_cons in Hf as [->|Hf]; [by rewrite String.eqb_refl|].
  destruct (String.eqb_spec (field_id (f_name g)) (field_id (f_name f))) as [He|_]; [|by apply IH].
  exfalso. apply Hni. rewrite He. apply list_elem_of_fmap. by exists f.
Qed.

(** What [cls(...)] returns. *)
Lemma py_new_ok i m args :
  ms !! i = Some m -> fst <$> args = (fun f => field_id (f_name f)) <$> FixedFields m ->
  exists fs, py_new m args = Some (GStruct (type_id (m_name m)) fs) /\ fst <$> fs = names m /\
    (forall f, f ∈ FixedFields m -> lookup_name fs (field_id (f_name f)) = lookup_name args (field_id (f_name f))) /\
    forall f, f ∈ VarFields m -> lookup_name fs (field_id (f_name f)) = Some (GRaw []).
Proof using Hck.
  intros Hm Ha. pose proof (names_nodup s Hck Hnk i m Hm) as Hnd.
  set (h := fun f => match lookup_name args (field_id (f_name f)) with Some x => x | None => GRaw [] end).
  assert (Hfix : forall f, f ∈ FixedFields m -> exists x, lookup_name args (field_id (f_name f)) = Some x).
  { intros f Hf. apply lookup_name_is_Some. rewrite Ha. apply list_elem_of_fmap. by exists f. }
  assert (Hvar : forall f, f ∈ VarFields m -> lookup_name args (field_id (f_name f)) = None).
  { intros f [Hf Hv]%elem_var. destruct (lookup_name args _) as [z|] eqn:He; [|done].
    assert (Hin : field_id (f_name f) ∈ fst <$> args) by (apply lookup_name_is_Some; by eexists).
    rewrite Ha in Hin. apply list_elem_of_fmap in Hin as (g & Hg & [Hgm Hgv]%elem_fixed).
    assert (f = g) as -> by (by eapply (nodup_fmap_inj (fun f => field_id (f_name f))); [exact Hnd|..]). congruence. }
  assert (Hmap : forall l, (forall f, f ∈ l -> f ∈ m_fields m) ->
    mapM (fun f => match lookup_name args (field_id (f_name f)) with
                   | Some x => Some (field_id (f_name f), x)
                   | None => if field_IsVar f then Some (field_id (f_name f), GRaw []) else None
                   end) l = Some ((fun f => (field_id (f_name f), h f)) <$> l)).
  { induction l as [|f l IH]; intros Hl; [done|]. cbn [mapM fmap list_fmap].
    assert (Hf : f ∈ m_fields m) by (apply Hl; by left). unfold h at 1. destruct (lookup_name args (field_id (f_name f))) eqn:He.
    - cbn [mbind option_bind]. rewrite IH; [done|]. intros; apply Hl; by right.
    - destruct (field_IsVar f) eqn:Hv.
      + cbn [mbind option_bind]. rewrite IH; [done|]. intros; apply Hl; by right.
      + destruct (Hfix f) as [x Hx]; [by apply elem_fixed|congruence]. }
  exists ((fun f => (field_id (f_name f), h f)) <$> m_fields m).
  assert (Hlook : forall f, f ∈ m_fields m -> lookup_name ((fun f => (field_id (f_name f), h f)) <$> m_fields m) (field_id (f_name f)) = Some (h f)).
  { intros f. by apply lookup_fmap. }
  split_and!.
  - unfold py_new. by rewrite Hmap.
  - rewrite <-list_fmap_compose. done.
  - intros f Hf. apply elem_fixed in Hf as Hf'. rewrite Hlook by apply Hf'. unfold h. by destruct (Hfix f Hf) as [x ->].
  - intros f Hf. apply elem_var in Hf as Hf'. rewrite Hlook by apply Hf'. unfold h. by rewrite Hvar.
Qed.

Lemma get_message fuel i m buf off fuel' :
  ms !! i = Some m -> message_fuel s i fuel -> message_fuel s i fuel' -> 0 <= off ->
  off + FixedSize m <= Z.of_nat (List.length buf) ->
  agrees (check_fields (checkType fuel' ms) (drop (Z.to_nat off) buf) (FixedFields m)) (py_get unpack_f (S fuel) ms (m_name m) buf off)
    (py_holds (drop (Z.to_nat off) buf) (TRef (m_name m) (Some i) (mkPos 0 0))).
Proof using Hck.
  revert i m buf off fuel'. induction fuel as [|fuel IH]; intros i m buf off fuel' Hm Hfu Hfu' H0 Hb.
  { destruct Hfu as (? & ? & _ & ?). lia. }
  change (py_get unpack_f (S (S fuel)) ms ?n ?b ?o) with
    (let! m := or_panic (type_named ms (type_id n)) in
     let! args := py_get_fields unpack_f (py_get unpack_f (S fuel) ms) ms (FixedFields m) b o in or_panic (py_new m args)).
  pose proof (named s Hck Hnk i m Hm) as Hn. fold ms in Hn. rewrite Hn. cbn [or_panic bind].
  pose proof (get_fields (py_get unpack_f (S fuel) ms) (fun j => message_fuel s j fuel) i m (FixedFields m) buf off fuel'
    ltac:(intros; by apply IH) Hm ltac:(done) (fixed_names_nodup s Hck Hnk i m Hm) ltac:(intros f j Hf; by eapply (ref_ready s Hck Hnk)) Hfu' H0 Hb) as Hg.
  cbv zeta in Hg. set (b := drop (Z.to_nat off) buf) in *.
  destruct (check_fields (checkType fuel' ms) b (FixedFields m)) as [[]| | |]; cbn [agrees] in Hg |- *; [|by rewrite Hg|done..].
  destruct Hg as (args & -> & xs & Ha & Hx & Hall). cbn [bind].
  destruct (py_new_ok i m args Hm Ha) as (ys & -> & Hky & Hfy & Hvy). cbn [or_panic]. eexists. split; [done|].
  destruct (py_new_ok i m xs Hm Hx) as (vs & _ & Hkv & Hfv & Hvv). exists (GStruct (type_id (m_name m)) vs).
  assert (Hboth : forall f x, f ∈ FixedFields m -> lookup_name vs (field_id (f_name f)) = Some x ->
    exists y, lookup_name ys (field_id (f_name f)) = Some y /\ typed ms (f_type f) x /\
      holds ms (drop (Z.to_nat (f_offset f)) b) (f_type f) x /\ py_value R ms (f_type f) x y).
  { intros f x Hf Hfx. apply elem_fixed in Hf as Hfm. destruct (struct_field m ys f Hky (proj1 Hfm)) as [y Hy]. exists y. split; [done|].
    apply Hall; [done|by rewrite <-Hfv|by rewrite <-Hfy]. }
  assert (Hvar : forall f x, f ∈ VarFields m -> lookup_name vs (field_id (f_name f)) = Some x ->
    typed ms (f_type f) x /\ forall y, lookup_name ys (field_id (f_name f)) = Some y -> py_value R ms (f_type f) x y).
  { intros f x Hf Hfx. rewrite (Hvv f Hf) in Hfx. injection Hfx as <-. rewrite (Hvy f Hf). apply elem_var in Hf as [_ Hf].
    split; [by apply var_typed|]. intros y [= <-]. unfold field_IsVar in Hf. destruct (f_type f) as [k q| |]; try done. constructor. by destruct k. }
  split_and!.
  - econstructor; [done..|]. intros f x Hf Hfx. destruct (field_IsVar f) eqn:Hv; [apply Hvar; [by apply elem_var|done]|].
    destruct (Hboth f x) as (y & _ & Ht & _); [by apply elem_fixed|done|done].
  - econstructor; [done..|]. intros f x Hf Hfx. by destruct (Hboth f x Hf Hfx) as (y & _ & _ & Hh & _).
  - econstructor; [done|congruence|]. intros f x y Hf Hfx Hfy'. destruct (field_IsVar f) eqn:Hv.
    + by apply (Hvar f x); [by apply elem_var|..].
    + destruct (Hboth f x) as (y' & Hy' & _ & _ & Hr); [by apply elem_fixed|done|]. congruence.
Qed.

Lemma get_var_py b off : 0 <= off -> py_get_var unpack_f b off = ipcgenGetVar b off.
Proof using.
  intros H0. unfold py_get_var, ipcgenGetVar. destruct (Z.ltb_spec (Z.of_nat (List.length b) - off) 4) as [|Hl]; [done|].
  unfold unpack_from. cbn [ScalarSize]. change (Z.to_nat 4) with 4%nat. rewrite (proj2 (Z.leb_le _ _)), (proj2 (Z.leb_le _ _)) by lia.
  rewrite from_spec by lia. rewrite (proj2 (Nat.leb_le _ _)) by (rewrite length_drop; lia).
  cbn [andb bind seq fmap list_fmap py_unpack of_bits IsFloat IsSigned]. by rewrite Nat.mul_0_l, Nat.add_0_r.
Qed.

(** Two structs of a message whose fields are related. *)
Definition py_fields (m : Message) (vs ys : list (string * gval)) : Prop :=
  fst <$> vs = names m /\ fst <$> ys = names m /\
  forall f x y, f ∈ m_fields m -> lookup_name vs (field_id (f_name f)) = Some x ->
    lookup_name ys (field_id (f_name f)) = Some y -> py_value R ms (f_type f) x y.

Lemma py_fields_assign i m vs ys f raw :
  ms !! i = Some m -> f ∈ VarFields m -> py_fields m vs ys ->
  py_fields m (assign_name vs (field_id (f_name f)) (GRaw raw)) (assign_name ys (field_id (f_name f)) (GRaw raw)).
Proof using Hck.
  intros Hm [Hf Hv]%elem_var (Hk & Hk' & Hr). split_and!; [by rewrite assign_name_keys..|]. intros g x y Hg.
  destruct (decide (field_id (f_name f) = field_id (f_name g))) as [He|Hne].
  - assert (g = f) as ->.
    { symmetry. eapply (nodup_fmap_inj (fun f => field_id (f_name f))); [by eapply (names_nodup s Hck Hnk)|done..]. }
    rewrite !lookup_assign by (rewrite ?Hk, ?Hk'; by apply field_name_in). intros [= <-] [= <-].
    unfold field_IsVar in Hv. destruct (f_type f) as [k q| |]; try done. constructor. by destruct k.
  - rewrite !lookup_assign_ne by done. by apply Hr.
Qed.

Lemma get_vars_py i m fs b off vs ys :
  ms !! i = Some m -> (forall f, f ∈ fs -> f ∈ VarFields m) -> 0 <= off -> py_fields m vs ys ->
  let tn := type_id (m_name m) in
  match getVars b off fs (GStruct tn vs) with
  | Ok (v, off') => exists vs' ys', v = GStruct tn vs' /\ py_get_vars unpack_f b off fs (GStruct tn ys) = Ok (GStruct tn ys', off') /\ py_fields m vs' ys'
  | Error e => py_get_vars unpack_f b off fs (GStruct tn ys) = Error e
  | _ => True
  end.
Proof using Hck.
  intros Hm Hfs H0 Hr tn. revert off vs ys H0 Hr. induction fs as [|f fs IH]; intros off vs ys H0 Hr; cbn [getVars py_get_vars]; [eauto|].
  rewrite get_var_py by done. destruct (ipcgenGetVar b off) as [[raw off']| | |] eqn:Hg; try done. cbn [bind].
  assert (Hoff : 0 <= off').
  { unfold ipcgenGetVar in Hg. destruct (_ <? 4) eqn:H4; [done|]. apply Z.ltb_ge in H4. rewrite from_spec in Hg by lia.
    destruct (_ <=? _)%nat; [|done]. cbn [bind] in Hg. destruct (_ <? _); [done|]. injection Hg as _ <-.
    pose proof (le_combine_bound (take 4 (drop (Z.to_nat off) b))). lia. }
  assert (Hf : f ∈ VarFields m) by (apply Hfs; by left). pose proof Hr as (Hk & Hk' & _). apply elem_var in Hf as Hfm.
  destruct (struct_field m vs f Hk (proj1 Hfm)) as [x Hx]. destruct (struct_field m ys f Hk' (proj1 Hfm)) as [y Hy].
  cbn [store]. rewrite Hx, Hy. cbn [or_panic bind].
  specialize (IH ltac:(intros; apply Hfs; by right) off' _ _ Hoff (py_fields_assign i m vs ys f raw Hm Hf Hr)).
  destruct (f_type f) as [[]| |]; try exact IH. unfold py_str. destruct (Valid raw); [exact IH|done].
Qed.

(** [decode] accepts what the reference decoder accepts, and returns the Python value of
    the value that the bytes hold. *)
Lemma py_decode_ok i m b :
  ms !! i = Some m ->
  agrees (Decode ms m b) (py_decode unpack_f ms m b) (fun y => exists v, reads_from s b m v /\ py_message_value R ms m v y).
Proof using Hck.
  intros Hm. pose proof (fixed_size_nonneg s Hck i m Hm) as H0.
  assert (Hfu : message_fuel s i (fuel_for ms)) by (apply (message_fuel_enough s Hck); by eapply lookup_lt_Some).
  unfold Decode, py_decode. destruct (Z.ltb_spec (Z.of_nat (List.length b)) (FixedSize m)) as [|Hl]; [done|].
  pose proof (get_message (fuel_for ms) i m b 0 (fuel_for ms) Hm Hfu Hfu ltac:(done) Hl) as Hmsg. cbn [Z.to_nat] in Hmsg. rewrite drop_0 in Hmsg.
  eapply agrees_bind; [exact Hmsg|]. clear Hmsg.
  intros y (v & Ht & Hh & Hy). inversion Ht as [| | | | |? ? ? m1 vs Hm1 Hk Hts]; subst.
  inversion Hh as [| | |? ? ? ? m2 ? Hm2 Hhf]; subst. inversion Hy as [| | |? ? ? m3 ? ys Hm3 Hk3 Hys]; subst.
  pose proof (named s Hck Hnk i m Hm) as Hn. fold ms in Hn. assert (m1 = m) as -> by congruence. assert (m2 = m) as -> by congruence.
  assert (m3 = m) as -> by congruence.
  pose proof (getVars_agrees s Hck Hnk i m (VarFields m) b (FixedSize m) vs Hm ltac:(done) (var_names_nodup s Hck Hnk i m Hm) H0 (conj Hk Hts)) as Hg.
  pose proof (get_vars_py i m (VarFields m) b (FixedSize m) vs ys Hm ltac:(done) H0 ltac:(split_and!; [done|congruence|done])) as Hp. cbv zeta in Hp.
  fold ms in Hg. destruct (check_vars b (FixedSize m) (VarFields m)) as [off| | |]; cbn [bind]; [|by rewrite Hg in Hp; rewrite Hp|done..].
  destruct Hg as (vs' & l & Hg & Hvs' & Hfit & Hd & Hlk & Hval & Hsame). rewrite Hg in Hp.
  destruct Hp as (vs'' & ys' & [= <-] & -> & Hk' & Hky & Hrel). cbn [bind].
  destruct (Z.eqb_spec off (Z.of_nat (List.length b))) as [->|]; [|done]. cbn [negb agrees]. eexists. split; [done|].
  exists (GStruct (type_id (m_name m)) vs'). split; [split_and!|].
  - destruct Hvs'. econstructor; [done..|done].
  - intros f x Hf Hx. apply (Hhf f x Hf). cbn [load] in Hx. rewrite <-Hsame; [done|].
    intros (g & Hg' & [Hgm Hgv]%elem_var)%list_elem_of_fmap. apply elem_fixed in Hf as [Hf Hfv].
    assert (f = g) as ->; [|congruence]. by eapply (nodup_fmap_inj (fun f => field_id (f_name f))); [eapply (names_nodup s Hck Hnk)|..].
  - exists l. split_and!; [by apply raws_lookup|done|done|]. rewrite Hd, drop_ge by lia. apply app_nil_r.
  - econstructor; [done|congruence|done].
Qed.
End decode.
