(* ===== verification/Interop.v ===== *)
(** * The generated languages with each other

    A message that one language encodes is read by the others: the generated Go, C, C++
    and Python agree with the reference codec and so with each other. The value of a
    message in a language is related to a JSON value by [denotes_message], with the names
    of that language. *)

From stdpp Require Import base numbers list list_numbers option strings gmap.
From coqutil Require Import Byte Word.LittleEndianList.
From Stdlib Require Import ZArith Lia Bool String Ascii.
From S2P Require Import Prelude GoStd Schema Check CheckThm Layout RefCodec RefCodecThm GoGen GoGenThm GoCodec CCode CCodec.
From S2P Require Import CGenText CGen CppGenText CppGen PyGenText PyGen PyGenThm.

#[local] Open Scope Z_scope.
#[local] Set Warnings "-register-all".
#[local] Open Scope codec_scope.

Section interop.
(** The width of [size_t], and the conversions of 32-bit floats in Python. *)
Context (size_bits : Z) (unpack_f : Z -> Z) (pack_f : Z -> option Z).

(** C3: on a schema that [Check] accepted, the generated Go, C, C++ and Python decoders
    accept the same byte strings as the reference decoder. On one that it accepts each
    returns the value that the bytes hold; on one that it rejects Go and Python report
    the same error, C returns the code of that error, and C++ returns [nullopt]. *)
Theorem languages_decode_alike (s : Schema) (i : nat) (m : Message) (b : list byte) (go c : gval) :
  let C := c_naming (s_package s) in
  checked s -> 32 <= size_bits -> s_messages s !! i = Some m -> Z.of_nat (List.length b) < 2 ^ size_bits ->
  struct_of (N := go_naming) (s_messages s) go = Some m -> value_of (N := C) s m c ->
  match Decode (s_messages s) m b with
  | Ok _ => exists g v x w y,
      UnmarshalBinary (N := go_naming) (s_messages s) go b = Ok g /\ reads_from (N := go_naming) s b m g /\
      c_decode size_bits (s_package s) (s_messages s) c b = Ok v /\ reads_from (N := C) s b m v /\
      cpp_decode size_bits (s_messages s) m b = Ok (Some x) /\ reads_from (N := cpp_naming) s b m x /\
      py_decode unpack_f (s_messages s) m b = Ok y /\ reads_from (N := py_naming) s b m w /\
      py_message_value (fun u d => d = unpack_f u) (s_messages s) m w y
  | Error e =>
      UnmarshalBinary (N := go_naming) (s_messages s) go b = Error e /\
      decode_rc (c_decode size_bits (s_package s) (s_messages s) c b) = Some (IPCGEN_E e) /\
      cpp_decode size_bits (s_messages s) m b = Ok None /\ py_decode unpack_f (s_messages s) m b = Error e
  | _ => False
  end.
Proof using.
  intros C Hck Hbits Hm Hb Hgo Hc.
  pose proof (UnmarshalBinary_ok s Hck (go_naming_ok s Hck) i m go b Hm Hgo) as Hg.
  pose proof (c_decode_ok size_bits (s_package s) s Hck Hbits i m c b Hm Hc Hb) as Hv.
  pose proof (cpp_decode_ok size_bits s Hck Hbits i m b Hm Hb) as Hx.
  pose proof (py_decode_ok unpack_f s Hck i m b Hm) as Hy. unfold agrees in *.
  destruct (Decode (s_messages s) m b) as [[]|e| |]; try done.
  - destruct Hg as (g & Hg & Hrg), Hv as (v & Hv & Hrv), Hx as (x & Hx & Hrx), Hy as (y & Hy & w & Hrw & Hwy).
    exists g, v, x, w, y. by split_and!.
  - split_and!; [done|by rewrite Hv|done|done].
Qed.

(** C2: on a schema that [Check] accepted, the bytes that the reference encoder writes for
    a JSON value are what the generated Go, C, C++ and Python encode that value to, and
    each of their decoders reads the bytes as that value. *)
Theorem languages_encode_alike (s : Schema) (i : nat) (m : Message) (v : value) (b : list byte) :
  let C := c_naming (s_package s) in
  checked s -> 32 <= size_bits -> s_messages s !! i = Some m -> Encode (s_messages s) m v = Ok b ->
  Z.of_nat (List.length b) < 2 ^ 32 - 1 ->
  let ms := s_messages s in let zeroed := replicate (List.length b) Byte.x00 in
  (exists g empty, denotes_message (N := go_naming) ms m v g /\ MarshalBinary (N := go_naming) ms g = Ok b /\
     NewMessage (N := go_naming) ms (m_id m) = Some empty /\ UnmarshalBinary (N := go_naming) ms empty b = Ok g) /\
  (exists c, denotes_message (N := C) ms m v c /\
     c_encode size_bits (s_package s) ms c zeroed = Ok (b, Z.of_nat (List.length b)) /\
     forall old, value_of (N := C) s m old -> c_decode size_bits (s_package s) ms old b = Ok c) /\
  (exists x, denotes_message (N := cpp_naming) ms m v x /\
     cpp_encode size_bits ms x zeroed = Ok (b, Z.of_nat (List.length b)) /\ cpp_decode size_bits ms m b = Ok (Some x)) /\
  (exists w y, denotes_message (N := py_naming) ms m v w /\
     (forall y, py_message_value (fun u d => pack_f d = Some u) ms m w y -> py_encode pack_f ms y = Ok b) /\
     py_decode unpack_f ms m b = Ok y /\ py_message_value (fun u d => d = unpack_f u) ms m w y).
Proof using.
  intros C Hck Hbits Hm He Hlt' ms zeroed. assert (Hlt : Z.of_nat (List.length b) < 2 ^ 32) by lia.
  assert (Hpow : 2 ^ 32 - 1 <= SIZE_MAX size_bits) by (unfold SIZE_MAX; pose proof (size_bound size_bits Hbits); lia).
  assert (Hz : List.length zeroed = List.length b) by apply length_replicate.
  assert (Hdrop : b ++ drop (List.length b) zeroed = b) by (rewrite drop_ge, app_nil_r; [done|lia]).
  split_and!.
  - destruct (encodes_as_reference s Hck (go_naming_ok s Hck) i m v b Hm He Hlt) as (g & l & _ & _ & _ & Hd & Hmar & Hu).
    destruct (new_struct_ok s Hck (go_naming_ok s Hck) i m Hm) as (vs & Hnew & _).
    exists g, (GStruct (@type_id go_naming (m_name m)) vs). split_and!; [done|done|unfold ms; by rewrite (NewMessage_ok s Hck (go_naming_ok s Hck) i m Hm)|].
    apply Hu, (UnmarshalBinary_ok s Hck (go_naming_ok s Hck) i); [done|]. by apply (named s Hck (go_naming_ok s Hck) i).
  - destruct (c_reference size_bits (s_package s) s Hck ltac:(lia) i m v b Hm He Hlt) as (c & _ & Hd & Hdec & Henc).
    exists c. split_and!; [done| |done]. rewrite Henc, Hdrop by lia. done.
  - destruct (cpp_reference size_bits s Hck ltac:(lia) i m v b Hm He Hlt) as (x & _ & Hd & Hdec & Henc).
    exists x. split_and!; [done| |done]. rewrite Henc, Hdrop by (unfold SIZE_MAX in Hpow; lia). done.
  - destruct (encodes_as_reference s Hck (py_naming_ok s Hck) i m v b Hm He Hlt) as (w & l & Hw & Hl & Hfit & Hd & Hmar & Hu).
    pose proof (py_decode_ok unpack_f s Hck i m b Hm) as Hy. pose proof (Encode_accepted s i m v b Hck Hm He Hlt) as Hacc.
    rewrite Hacc in Hy, Hu. destruct Hy as (y & Hy & w' & Hrw & Hwy).
    assert (w' = w) as ->.
    { specialize (Hu (Ok w')). specialize (Hu ltac:(by exists w')). by injection Hu. }
    exists w, y. split_and!; [done| |done|done]. intros y' Hy'.
    destruct (py_encode_ok pack_f s Hck i m w y' l Hm Hw Hy' Hl) as [Hok _]. destruct (Hok Hfit) as (e & Hmar' & Hpy). unfold ms. congruence.
Qed.
End interop.

(** ** A message *)

Lemma languages_decode_alike_witness : exists c,
  decode_rc (c_decode 64 (s_package demo_checked) (s_messages demo_checked) c demo_bad) = Some (-4) /\
  cpp_decode 64 (s_messages demo_checked) demo_shape demo_bad = Ok None /\
  py_decode (fun u => u) (s_messages demo_checked) demo_shape demo_bad = Error ErrBool.
Proof.
  assert (Hst : struct_of (N := go_naming) (s_messages demo_checked) demo_go = Some demo_shape) by (vm_compute; reflexivity).
  assert (Hl : Z.of_nat (List.length demo_bad) < 2 ^ 64) by (vm_compute; reflexivity).
  pose proof (languages_decode_alike 64 (fun u => u) demo_checked 0 demo_shape demo_bad demo_go demo_c demo_checked_ok ltac:(lia)
    demo_shape_lookup Hl Hst demo_c_typed) as H.
  rewrite demo_bad_Decode in H. destruct H as (_ & H2 & H3 & H4). exists demo_c. split; [exact H2|]. split; [exact H3|exact H4].
Defined.

Lemma languages_encode_alike_witness : exists c x y,
  c_encode 64 (s_package demo_checked) (s_messages demo_checked) c (replicate (List.length demo_bytes) Byte.x00) =
    Ok (demo_bytes, Z.of_nat (List.length demo_bytes)) /\
  cpp_decode 64 (s_messages demo_checked) demo_shape demo_bytes = Ok (Some x) /\
  py_decode (fun u => u) (s_messages demo_checked) demo_shape demo_bytes = Ok y.
Proof.
  assert (He : Encode (s_messages demo_checked) demo_shape demo_value = Ok demo_bytes) by (vm_compute; reflexivity).
  assert (Hl : Z.of_nat (List.length demo_bytes) < 2 ^ 32 - 1) by (vm_compute; reflexivity).
  destruct (languages_encode_alike 64 (fun u => u) Some demo_checked 0 demo_shape demo_value demo_bytes demo_checked_ok ltac:(lia)
    demo_shape_lookup He Hl) as (_ & (c & _ & Hc & _) & (x & _ & _ & Hx) & w & y & _ & _ & Hy & _).
  exists c, x, y. split; [exact Hc|]. split; [exact Hx|exact Hy].
Defined.

(** ** Names *)

(** A message whose name is a keyword of Python. *)
Definition keyword_schema : Schema :=
  let p := mkPos 1 1 in
  mkSchema "demo.ipc" "demo" p [mkMessage "None" 1 [mkField "id" (TBasic U32 p) p 0] p p 0 0]%string [] ∅.

Definition keyword_checked : Schema := match Check_ keyword_schema with Some (inr s) => s | _ => keyword_schema end.

(** [Check] accepts a message with the name [None], and the generated Python declares
    a class with that name, which is a keyword. *)
Theorem py_keyword_class : exists s,
  Check_ keyword_schema = Some (inr s) /\ "class None:"%string ∈ genPy_lines s.
Proof. exists keyword_checked. split; [vm_compute; reflexivity|]. apply has_line. vm_compute. reflexivity. Qed.
