(* ===== verification/Queue.v ===== *)
(** * A handle on a queue ([src/queue.go], [src/queue_peer.go])

    What one handle does to itself and to the shared ring in a call that does not
    wait: the claim slots it keeps, the watch on its receiver, sending, claiming,
    receiving and closing. What the kernel and other packages answer during the
    call is the environment [env]. [Park] models the calls that wait. *)

From stdpp Require Import base numbers list list_numbers option.
From coqutil Require Import Byte Word.LittleEndianList.
From Stdlib Require Import ZArith Lia Bool.
From S2P Require Import Prelude Ipc Ring RingInv RingSeq Recover.

#[local] Open Scope Z_scope.

(** ** Configuration *)

Definition DefaultCapacity : Z := Z.shiftl 1 20.

Record config : Type := mkConfig { c_capacity : Z }.

Definition Option_ : Type := config -> config.

Definition defaultConfig : config := mkConfig DefaultCapacity.

Definition WithCapacity (bytes : Z) : Option_ := fun _ => mkConfig bytes.

Definition apply_options (opts : list Option_) (c : config) : result config :=
  let c := foldl (fun c o => o c) c opts in
  if (c_capacity c <? MinCapacity) || negb (Z.land (c_capacity c) (c_capacity c - 1) =? 0)
  then Err ErrInvalidCapacity else Ok c.

(** [serviceOptions] of [src/service.go]. *)
Definition serviceCapacity : Z := Z.shiftl 1 24.
Definition serviceOptions (opts : list Option_) : list Option_ := WithCapacity serviceCapacity :: opts.

(** ** The handle *)

(** The errors of a queue: those of the package, a kernel watch that failed, a file
    that does not exist, and the end of the caller's context. *)
Inductive failure : Type :=
| Of (e : error)
| CannotWatch
| NotExist
| ContextEnded.

#[global] Instance failure_eq_dec : EqDecision failure.
Proof. solve_decision. Defined.

(** The signals sent: to the events of the queue, and to the event of the other
    direction of a channel. *)
Inductive signal : Type := SignalNotEmpty | SignalNotFull (n : Z) | SignalOther.

Record peerWatch : Type := mkPeer {
  p_id : Z; p_gone : bool; p_failed : bool;
  (** whether [cancel] is set *)
  p_cancel : bool }.

Record producerWatch : Type := mkProducers {
  w_cancels : list Z; w_closed : bool; w_failed : bool }.

Record Queue : Type := mkQueue {
  q_self : Z; q_reader : bool; q_idle : list Z; q_owned : list Z;
  q_peer : peerWatch; q_producers : producerWatch;
  (** the signals that the functions of [onPeerGone] send *)
  q_onPeerGone : list signal; q_closing : bool }.

Definition set_slots (idle owned : list Z) (q : Queue) : Queue :=
  mkQueue (q_self q) (q_reader q) idle owned (q_peer q) (q_producers q) (q_onPeerGone q) (q_closing q).
Definition set_peer (p : peerWatch) (q : Queue) : Queue :=
  mkQueue (q_self q) (q_reader q) (q_idle q) (q_owned q) p (q_producers q) (q_onPeerGone q) (q_closing q).
Definition set_producers (w : producerWatch) (q : Queue) : Queue :=
  mkQueue (q_self q) (q_reader q) (q_idle q) (q_owned q) (q_peer q) w (q_onPeerGone q) (q_closing q).
Definition set_closing (q : Queue) : Queue :=
  mkQueue (q_self q) (q_reader q) (q_idle q) (q_owned q) (q_peer q) (q_producers q) (q_onPeerGone q) true.

Definition newQueue (self : Z) (reader : bool) : Queue :=
  mkQueue self reader [] [] (mkPeer 0 false false false) (mkProducers [] false false) [] false.

(** What the kernel answers: [isDead], whether [onExit] can watch a process, and
    [receiverUnlinked]; and what the function [peerErr] of the handle reports, none
    for a queue that is not part of a channel. *)
Record env : Type := mkEnv {
  isDead : Z -> bool; canWatch : Z -> bool; receiverUnlinked : bool; peerErr : option failure }.

(** The handle, the shared ring, the signals sent and the calls of the function that
    a read was given. *)
Record st : Type := mkSt { s_q : Queue; s_ring : Ring; s_out : list signal; s_fn : list delivery }.

(** ** The monad of a call *)

(** [None] when a loop ran out of fuel. *)
Definition M (A : Type) : Type := st -> option (st * (failure + A)).

Definition ret {A} (a : A) : M A := fun s => Some (s, inr a).
Definition throw {A} (e : failure) : M A := fun s => Some (s, inl e).
Definition bind {A B} (m : M A) (k : A -> M B) : M B := fun s =>
  match m s with
  | None => None
  | Some (s, inl e) => Some (s, inl e)
  | Some (s, inr a) => k a s
  end.
(** Runs [m] and returns its error as a value. *)
Definition attempt_ {A} (m : M A) : M (failure + A) := fun s =>
  match m s with None => None | Some (s, r) => Some (s, inr r) end.
Definition get : M st := fun s => Some (s, inr s).
Definition upd_queue (f : Queue -> Queue) : M unit := fun s =>
  Some (mkSt (f (s_q s)) (s_ring s) (s_out s) (s_fn s), inr tt).
Definition upd_ring (f : Ring -> Ring) : M unit := fun s =>
  Some (mkSt (s_q s) (f (s_ring s)) (s_out s) (s_fn s), inr tt).
Definition emit (x : signal) : M unit := fun s =>
  Some (mkSt (s_q s) (s_ring s) (s_out s ++ [x]) (s_fn s), inr tt).
Definition of_result {A} (r : result A) : M A :=
  match r with Ok a => ret a | Err e => throw (Of e) end.

Declare Scope queue_scope.
Notation "'do' x '<-' m 'in' k" := (bind m (fun x => k))
  (at level 10, x pattern, k at level 200) : queue_scope.
#[local] Open Scope queue_scope.

(** ** The receiver *)

Definition peer_state (w : peerWatch) : option failure :=
  if negb (p_gone w) then None
  else if p_failed w then Some CannotWatch else Some (Of ErrPeerGone).

Definition peer_stop (w : peerWatch) : peerWatch := mkPeer (p_id w) (p_gone w) (p_failed w) false.

Definition check (e : option failure) : M unit := match e with Some e => throw e | None => ret tt end.

Definition watchPeer (E : env) (id : Z) : M unit :=
  do s <- get in
  let w := q_peer (s_q s) in
  if p_id w =? id then check (peer_state w)
  else if isDead E id then
    do _ <- upd_queue (set_peer (mkPeer id true false false)) in throw (Of ErrPeerGone)
  else if canWatch E id then upd_queue (set_peer (mkPeer id false false true))
  else do _ <- upd_queue (set_peer (mkPeer 0 false false false)) in throw CannotWatch.

Definition checkPeer (E : env) : M unit :=
  do s <- get in
  let id := consumer (hdr (s_ring s)) in
  if id =? noProc then throw (Of ErrPeerGone)
  else if (id =? pendingProc) || (id =? q_self (s_q s)) then ret tt
  else if negb (watchable id) then ret tt
  else if p_id (q_peer (s_q s)) =? id then check (peer_state (q_peer (s_q s)))
  else watchPeer E id.

Definition sawPeerGone (e : failure) : M failure :=
  let e := if decide (e = NotExist) then Of ErrPeerGone else e in
  if decide (e = Of ErrPeerGone) then
    do _ <- upd_queue (fun q =>
      let w := q_peer q in set_peer (mkPeer (p_id w) true (p_failed w) (p_cancel w)) q) in ret e
  else ret e.

(** ** Wake-ups *)

Definition wakeReceiver : M unit :=
  do s <- get in if 0 <? recvWaiters (hdr (s_ring s)) then emit SignalNotEmpty else ret tt.

Definition wakeSenders : M unit :=
  do s <- get in
  let w := sendWaiters (hdr (s_ring s)) in if 0 <? w then emit (SignalNotFull w) else ret tt.

Definition call_onPeerGone : M unit := fun s =>
  Some (mkSt (s_q s) (s_ring s) (s_out s ++ q_onPeerGone (s_q s)) (s_fn s), inr tt).

(** [err] tells a wait that failed from an exit. *)
Definition peerExited (id : Z) (err : bool) : M unit :=
  do s <- get in
  if q_closing (s_q s) then ret tt
  else if negb (p_id (q_peer (s_q s)) =? id) then ret tt
  else
    let w := q_peer (s_q s) in
    do _ <- upd_queue (set_peer (mkPeer (p_id w) true (p_failed w || err) (p_cancel w))) in
    do _ <- wakeSenders in call_onPeerGone.

Definition watchProducer (E : env) (id : Z) : M unit :=
  do s <- get in
  let w := q_producers (s_q s) in
  if w_closed w then ret tt
  else if w_failed w then throw CannotWatch
  else if decide (id ∈ w_cancels w) then ret tt
  else if canWatch E id then upd_queue (set_producers (mkProducers (w_cancels w ++ [id]) false false))
  else throw CannotWatch.

Definition producerExited (id : Z) (err : bool) : M unit :=
  do s <- get in
  if q_closing (s_q s) then ret tt
  else
    let w := q_producers (s_q s) in
    do _ <- upd_queue (set_producers
      (mkProducers (List.filter (fun j => negb (j =? id)) (w_cancels w)) (w_closed w) (w_failed w || err))) in
    emit SignalNotEmpty.

(** ** Claim slots *)

(** The last of a list and what comes before it. *)
Fixpoint unsnoc (l : list Z) : option (list Z * Z) :=
  match l with
  | [] => None
  | x :: l => match unsnoc l with Some (pre, y) => Some (x :: pre, y) | None => Some ([], x) end
  end.

Definition takeSlot (E : env) : M Z :=
  do s <- get in
  let q := s_q s in
  match unsnoc (q_idle q) with
  | Some (idle, slot) => do _ <- upd_queue (set_slots idle (q_owned q)) in ret slot
  | None =>
      let '(r, res) := acquireSlot (q_self q) (isDead E) (s_ring s) in
      do _ <- upd_ring (fun _ => r) in
      do slot <- of_result res in
      do _ <- upd_queue (fun q => set_slots (q_idle q) (q_owned q ++ [slot]) q) in ret slot
  end.

Definition putSlot (slot : Z) : M unit :=
  upd_queue (fun q => set_slots (q_idle q ++ [slot]) (q_owned q) q).

(** ** Sending *)

(** [enter] and [leave] around a call. *)
Definition entered {A} (m : M A) : M A :=
  do s <- get in if q_closing (s_q s) then throw (Of ErrClosed) else m.

(** [tryWrite] on the shared ring; nothing moves the ring during the call, so one
    pass of its loop is enough. *)
Definition ring_write (slot typ : Z) (payload : list byte) : M unit := fun s =>
  match tryWrite 1 slot typ payload (s_ring s) with
  | None => None
  | Some (r, Some e) => Some (mkSt (s_q s) r (s_out s) (s_fn s), inl (Of e))
  | Some (r, None) => Some (mkSt (s_q s) r (s_out s) (s_fn s), inr tt)
  end.

Definition ring_claim (slot typ length : Z) : M Claim := fun s =>
  match tryClaim 1 slot typ length (s_ring s) with
  | None => None
  | Some (r, Err e) => Some (mkSt (s_q s) r (s_out s) (s_fn s), inl (Of e))
  | Some (r, Ok c) => Some (mkSt (s_q s) r (s_out s) (s_fn s), inr c)
  end.

Definition rethrow {A} (r : failure + A) : M A := match r with inl e => throw e | inr a => ret a end.

Definition write (E : env) (typ : Z) (payload : list byte) : M unit :=
  do _ <- checkPeer E in
  do slot <- takeSlot E in
  do err <- attempt_ (ring_write slot typ payload) in
  do _ <- putSlot slot in rethrow err.

Definition claim (E : env) (typ length : Z) : M Claim :=
  do _ <- checkPeer E in
  do slot <- takeSlot E in
  do c <- attempt_ (ring_claim slot typ length) in
  match c with
  | inl e => do _ <- putSlot slot in throw e
  | inr c => ret c
  end.

Definition TrySendTyped (E : env) (typ : Z) (payload : list byte) : M unit :=
  entered (do _ <- write E typ payload in wakeReceiver).

Definition TrySend (E : env) (payload : list byte) : M unit := TrySendTyped E 0 payload.

(** What [SendTyped] and [Claim] pass to [park]. *)
Definition or_unlinked (E : env) {A} (r : failure + A) : M A :=
  match r with
  | inl e => if bool_decide (e = Of ErrFull) && receiverUnlinked E then throw (Of ErrPeerGone) else throw e
  | inr a => ret a
  end.
Definition send_attempt (E : env) (typ : Z) (payload : list byte) : M unit :=
  do r <- attempt_ (write E typ payload) in or_unlinked E r.
Definition claim_attempt (E : env) (typ length : Z) : M Claim :=
  do r <- attempt_ (claim E typ length) in or_unlinked E r.

Definition Commit_ (c : Claim) : M unit :=
  do s <- get in
  if q_closing (s_q s) then ret tt
  else do _ <- upd_ring (Commit c) in do _ <- putSlot (c_slot c) in wakeReceiver.

Definition Abort_ (c : Claim) : M unit :=
  do s <- get in
  if q_closing (s_q s) then ret tt
  else do _ <- upd_ring (Abort c) in do _ <- putSlot (c_slot c) in wakeReceiver.

(** ** Receiving *)

Definition ring_read (limit : Z) : M (list delivery * option error) := fun s =>
  match Read limit (s_ring s) with
  | None => None
  | Some r => Some (mkSt (s_q s) (rd_ring r) (s_out s) (s_fn s ++ rd_out r), inr (rd_out r, rd_err r))
  end.

(** Whether a claim was reclaimed. *)
Definition unstall_ (E : env) : M bool :=
  do s <- get in
  let '(r, v) := unstall (q_self (s_q s)) (isDead E) (s_ring s) in
  do _ <- upd_ring (fun _ => r) in
  match v with
  | LeaveAlone => ret false
  | Watch id => do _ <- watchProducer E id in ret false
  | Disagree => throw (Of ErrCorrupt)
  | Reclaimed b => ret b
  end.

(** The loop of [receive]; [gone] is what [peerErr] reported at its start. It returns
    the calls of [fn] that the last read made. *)
Fixpoint receive_loop (fuel : nat) (E : env) (gone : option failure) (limit : Z) : M (list delivery) :=
  match fuel with
  | O => fun _ => None
  | S fuel =>
      do s <- get in
      let before := head (hdr (s_ring s)) in
      do res <- ring_read limit in
      let '(out, err) := res in
      do s <- get in
      do _ <- (if head (hdr (s_ring s)) =? before then ret tt else wakeSenders) in
      match err with
      | Some e => throw (Of e)
      | None =>
          match out with
          | _ :: _ => ret out
          | [] =>
              do reclaimed <- unstall_ E in
              if reclaimed then receive_loop fuel E gone limit
              else match gone with Some e => throw e | None => throw (Of ErrEmpty) end
          end
      end
  end.

(** Each round but the last reclaims a record, and a record has at least 8 bytes. *)
Definition receive_fuel (r : Ring) : nat := S (read_fuel (tail (hdr r) -64 head (hdr r))).

Definition receive (E : env) (limit : Z) : M (list delivery) :=
  do s <- get in receive_loop (receive_fuel (s_ring s)) E (peerErr E) limit.

(** The type and the payload of the message that [fn] was called with. *)
Definition recvOne (E : env) : M delivery :=
  do out <- receive E 1 in ret (default (0, []) (list.last out)).

Definition reading {A} (m : M A) : M A :=
  entered (do s <- get in if q_reader (s_q s) then m else throw (Of ErrNotConsumer)).

Definition TryRecv_ (E : env) : M delivery := reading (recvOne E).

(** ** Calls that wait *)

(** A counter of parked callers. *)
Inductive side : Type := Receivers | Senders.
Definition add_waiters (w : side) (n : Z) : M unit :=
  upd_ring (set_hdr (fun h =>
    match w with
    | Receivers => with_waiters (i32 (recvWaiters h + n)) (sendWaiters h) h
    | Senders => with_waiters (recvWaiters h) (i32 (sendWaiters h + n)) h
    end)).

(** What others do to the ring before an attempt, and the environment it meets. *)
Record moment : Type := mkMoment { others : Ring -> Ring; now : env }.

(** One round of the loop of [park]: the moments of its attempts, the one after the
    wait included, and what the wait returns. *)
Record round : Type := mkRound { first : moment; second : moment; third : moment; woken : option failure }.

Definition attempt_at {A} (attempt : env -> M A) (m : moment) : M (failure + A) :=
  do _ <- upd_ring (others m) in attempt_ (attempt (now m)).

Definition is_blocked {A} (blocked : failure) (r : failure + A) : bool :=
  match r with inl e => bool_decide (e = blocked) | inr _ => false end.

(** [None] while the caller is parked after the last round. *)
Fixpoint park {A} (w : side) (blocked : failure) (attempt : env -> M A) (rounds : list round) : M A :=
  match rounds with
  | [] => fun _ => None
  | rd :: rounds =>
      do r <- attempt_at attempt (first rd) in
      if negb (is_blocked blocked r) then rethrow r
      else
        do _ <- add_waiters w 1 in
        do r <- attempt_at attempt (second rd) in
        if negb (is_blocked blocked r) then do _ <- add_waiters w (-1) in rethrow r
        else
          do _ <- upd_ring (others (third rd)) in
          do _ <- add_waiters w (-1) in
          match woken rd with
          | Some e =>
              if decide (e = Of ErrPeerGone) then
                do r <- attempt_ (attempt (now (third rd))) in
                if negb (is_blocked blocked r) then rethrow r else throw e
              else throw e
          | None => park w blocked attempt rounds
          end
  end.

Definition SendTyped (rounds : list round) (typ : Z) (payload : list byte) : M unit :=
  entered (
    do r <- attempt_ (park Senders (Of ErrFull) (fun E => send_attempt E typ payload) rounds) in
    match r with
    | inl e => do e <- sawPeerGone e in throw e
    | inr _ => wakeReceiver
    end).

Definition Send (rounds : list round) (payload : list byte) : M unit := SendTyped rounds 0 payload.

Definition Claim_ (rounds : list round) (typ length : Z) : M Claim :=
  entered (
    do r <- attempt_ (park Senders (Of ErrFull) (fun E => claim_attempt E typ length) rounds) in
    match r with
    | inl e => do e <- sawPeerGone e in throw e
    | inr c => ret c
    end).

Definition RecvInto (rounds : list round) : M delivery :=
  reading (park Receivers (Of ErrEmpty) recvOne rounds).

Definition ReadBatch (rounds : list round) (limit : Z) : M (list delivery) :=
  reading (park Receivers (Of ErrEmpty) (fun E => receive E limit) rounds).

(** ** Closing *)

Definition Close : M unit :=
  do s <- get in
  if q_closing (s_q s) then throw (Of ErrClosed)
  else
    do _ <- upd_queue set_closing in
    do _ <- (if q_reader (s_q s) then
      do _ <- upd_ring (fun r =>
        if consumer (hdr r) =? q_self (s_q s) then set_hdr (with_consumer noProc) r else r) in wakeSenders
      else ret tt) in
    do _ <- upd_queue (fun q => set_peer (peer_stop (q_peer q)) q) in
    do _ <- upd_queue (fun q => set_producers (mkProducers [] true (w_failed (q_producers q))) q) in
    do _ <- upd_ring (fun r => foldl (fun r slot => dropSlot (q_self (s_q s)) slot r) r (q_owned (s_q s))) in
    upd_queue (set_slots [] []).
