(* ===== verification/QueueThm.v ===== *)
(** * The claim slots of the handles of a queue

    Any number of handles, of any number of processes, share the claim slots of a
    ring. Every slot a handle owns is idle or holds one claim, and no two handles own
    the same slot. *)

From Stdlib Require Import ZArith Lia Bool Permutation.
From coqutil Require Import Byte Word.LittleEndianList.
From stdpp Require Import base numbers list list_numbers option.
From S2P Require Import Prelude Ipc Ring RingInv RingSeq Recover Queue.

#[local] Open Scope Z_scope.
#[local] Open Scope queue_scope.

(** ** The owners of the slots of a ring *)

Definition owners (r : Ring) : list Z := owner <$> slots (hdr r).

Lemma owners_upd i f r : (forall s, owner (f s) = owner s) -> owners (set_hdr (upd_slot i f) r) = owners r.
Proof.
  intros Hf. unfold owners, upd_slot. cbn. apply list_eq. intros j. rewrite !list_lookup_fmap.
  destruct (decide (j = Z.to_nat i)) as [->|Hne].
  - rewrite list_lookup_alter_eq. destruct (slots (hdr r) !! Z.to_nat i); cbn; [by rewrite Hf|done].
  - by rewrite list_lookup_alter_ne.
Qed.

Lemma owners_store_at i v r : owners (store_at i v r) = owners r.
Proof. by apply owners_upd. Qed.

Lemma owners_store_size i v r : owners (store_size i v r) = owners r.
Proof. by apply owners_upd. Qed.

Lemma owners_store_owner i v r :
  owners (store_owner i v r) = <[Z.to_nat i := v]> (owners r).
Proof.
  unfold owners, store_owner, upd_slot. cbn. apply list_eq. intros j. rewrite list_lookup_fmap.
  destruct (decide (j = Z.to_nat i)) as [->|Hne].
  - rewrite list_lookup_alter_eq. destruct (decide (Z.to_nat i < List.length (owner <$> slots (hdr r)))%nat) as [Hl|Hl].
    + rewrite list_lookup_insert_eq by done. rewrite length_fmap in Hl.
      by destruct (lookup_lt_is_Some_2 _ _ Hl) as [x ->].
    + rewrite list_insert_ge by lia. rewrite list_lookup_fmap. rewrite length_fmap in Hl.
      by rewrite lookup_ge_None_2 by lia.
  - rewrite list_lookup_alter_ne, list_lookup_insert_ne by done. by rewrite list_lookup_fmap.
Qed.

Lemma owners_release i r : owners (release i r) = owners r.
Proof. unfold release. case_match; [apply owners_store_at|done]. Qed.

Lemma owners_Commit c r : owners (Commit c r) = owners r.
Proof. unfold Commit. by rewrite owners_release. Qed.

Lemma owners_Abort c r : owners (Abort c r) = owners r.
Proof. unfold Abort. by rewrite owners_release. Qed.

Lemma owners_claim_pass slot n r :
  match claim_pass slot n r with Retry => True | Full r' | Claimed r' _ => owners r' = owners r end.
Proof.
  assert (Htake : forall tl need r0, owners r0 = owners r ->
    match claim_take slot n tl need r0 with Retry => True | Full r' | Claimed r' _ => owners r' = owners r end).
  { intros tl need r0 <-. unfold claim_take. destruct (0 <=? slot).
    - assert (E : owners (store_at slot tl (store_size slot need r0)) = owners r0)
        by (by rewrite owners_store_at, owners_store_size).
      destruct (negb _); exact E.
    - by destruct (negb _). }
  unfold claim_pass. destruct (hasRoom _ _ _ _); cbn [negb]; [by apply Htake|].
  destruct (_ <? _); [done|]. destruct (hasRoom _ _ _ _); cbn [negb]; [by apply Htake|apply owners_release].
Qed.

Lemma owners_tryClaim slot typ length r r' res :
  tryClaim 1 slot typ length r = Some (r', res) -> owners r' = owners r.
Proof.
  unfold tryClaim. case_match; [by intros [= <- <-]|]. case_match; [by intros [= <- <-]|]. cbn [claim_loop].
  pose proof (owners_claim_pass slot (align (i32 (RecordHeaderSize + length))) r) as Hp.
  destruct (claim_pass _ _ _); [done| |]; intros [= <- <-]; done.
Qed.

(** The slot of a claim is the one it was made through. *)
Lemma slot_tryClaim slot typ length r r' c : tryClaim 1 slot typ length r = Some (r', Ok c) -> c_slot c = slot.
Proof.
  unfold tryClaim. case_match; [done|]. case_match; [done|]. destruct (claim_loop _ _ _ _) as [[]|]; try done.
  by intros [= _ <-].
Qed.

Lemma owners_tryWrite slot typ payload r r' res :
  tryWrite 1 slot typ payload r = Some (r', res) -> owners r' = owners r.
Proof.
  unfold tryWrite. destruct (tryClaim _ _ _ _ _) as [[r1 [c|e]]|] eqn:H; [| |done];
    apply owners_tryClaim in H; intros [= <- <-]; by rewrite ?owners_Commit.
Qed.

Lemma owners_read_loop fuel limit hd av consumed out r res :
  read_loop fuel limit hd av consumed out r = Some res -> owners (rd_ring res) = owners r.
Proof.
  revert consumed out r. induction fuel as [|fuel IH]; intros consumed out r; cbn [read_loop]; [done|].
  assert (Hfin : forall res, Some (mkRead (if 0 <? consumed then set_hdr (with_head (hd +64 consumed)) r else r) out None)
    = Some res -> owners (rd_ring res) = owners r) by (intros res' [= <-]; by case_match).
  destruct ((zlen out <? limit) && (consumed <? av)); [|apply Hfin]. destruct (read_pass _ _ _) as [| |r1 step msg] eqn:Hp; [apply Hfin|by intros [= <-]|].
  intros H%IH. rewrite H. unfold read_pass in Hp. repeat (case_match; try done); by injection Hp as <- _ _.
Qed.

Lemma owners_Read limit r res : Read limit r = Some res -> owners (rd_ring res) = owners r.
Proof. unfold Read. case_match; [by intros [= <-]|apply owners_read_loop]. Qed.

Lemma owners_unstall self isDead r : owners (unstall self isDead r).1 = owners r.
Proof.
  unfold unstall. destruct (stalled r) as [st|]; [|done]. destruct (judge _ _ _ _ _ _ _) as [v|[dead e]]; [done|].
  case_match; [done|]. unfold reclaim, casLength. destruct (loadLength r _ =? _); cbn [negb]; [|done].
  case_match; [|done]. cbn [fst].
  assert (Hfold : forall l r0, owners (foldl (fun r idx => store_at idx noIntent r) r0 l) = owners r0).
  { induction l as [|x l IH]; intros r0; [done|]. cbn. by rewrite IH, owners_store_at. }
  by rewrite Hfold.
Qed.

(** ** Calls that leave the slots alone *)

Record same_slots (s s' : st) : Prop := {
  ss_self : q_self (s_q s') = q_self (s_q s);
  ss_idle : q_idle (s_q s') = q_idle (s_q s);
  ss_owned : q_owned (s_q s') = q_owned (s_q s);
  ss_closing : q_closing (s_q s') = q_closing (s_q s);
  ss_owners : owners (s_ring s') = owners (s_ring s) }.

(** A relation between the states before and after a call that calls compose along,
    and that does not see the watches and the signals. *)
Class Frame (R : st -> st -> Prop) : Prop := {
  frame_trans : forall s1 s2 s3, R s1 s2 -> R s2 s3 -> R s1 s3;
  frame_calm : forall s q' out', q_self q' = q_self (s_q s) -> q_idle q' = q_idle (s_q s) ->
    q_owned q' = q_owned (s_q s) -> q_closing q' = q_closing (s_q s) -> q_reader q' = q_reader (s_q s) ->
    R s (mkSt q' (s_ring s) out' (s_fn s)) }.

Definition preserves (R : st -> st -> Prop) {A} (m : M A) : Prop := forall s s' r, m s = Some (s', r) -> R s s'.

Create HintDb frame.

Section Preserves.
  Context (R : st -> st -> Prop) {F : Frame R}.

Lemma frame_refl s : R s s.
Proof. destruct s. by apply (frame_calm (mkSt _ _ _ _)). Qed.

Lemma preserves_ret {A} (a : A) : preserves R (ret a).
Proof. intros s s' r [= <- _]. apply frame_refl. Qed.

Lemma preserves_throw {A} e : preserves R (A := A) (throw e).
Proof. intros s s' r [= <- _]. apply frame_refl. Qed.

Lemma preserves_bind {A B} (m : M A) (k : A -> M B) :
  preserves R m -> (forall a, preserves R (k a)) -> preserves R (bind m k).
Proof.
  intros Hm Hk s s' r. unfold bind. destruct (m s) as [[s1 [e|a]]|] eqn:E; [| |done].
  - intros [= <- _]. by eapply Hm.
  - intros H. eapply frame_trans; [by eapply Hm|by eapply Hk].
Qed.

Lemma preserves_attempt {A} (m : M A) : preserves R m -> preserves R (attempt_ m).
Proof. intros Hm s s' r. unfold attempt_. destruct (m s) as [[s1 r1]|] eqn:E; [|done]. intros [= <- _]. by eapply Hm. Qed.

Lemma preserves_get : preserves R get.
Proof. intros s s' r [= <- _]. apply frame_refl. Qed.

Lemma preserves_emit x : preserves R (emit x).
Proof. intros s s' r [= <- _]. by apply frame_calm. Qed.

Lemma preserves_callbacks : preserves R call_onPeerGone.
Proof. intros s s' r [= <- _]. by apply frame_calm. Qed.

Lemma preserves_upd_queue f :
  (forall q, q_self (f q) = q_self q /\ q_idle (f q) = q_idle q /\ q_owned (f q) = q_owned q /\
     q_closing (f q) = q_closing q /\ q_reader (f q) = q_reader q) -> preserves R (upd_queue f).
Proof. intros Hf s s' r [= <- _]. destruct (Hf (s_q s)) as (? & ? & ? & ? & ?). by apply frame_calm. Qed.

Lemma preserves_rethrow {A} (r : failure + A) : preserves R (rethrow r).
Proof. destruct r; [apply preserves_throw|apply preserves_ret]. Qed.
End Preserves.

#[export] Hint Resolve preserves_ret preserves_throw preserves_attempt preserves_get preserves_emit
  preserves_callbacks preserves_rethrow : frame.

(** Walks through a call. *)
Ltac frame :=
  repeat first
    [ solve [eauto with frame typeclass_instances] | progress cbv zeta | apply preserves_attempt
    | apply preserves_bind; [eauto with typeclass_instances| |intros ?]
    | apply preserves_upd_queue; [eauto with typeclass_instances|intros []; split_and!; reflexivity] | case_decide | case_match ].

Section Calm.
  Context (R : st -> st -> Prop) {F : Frame R}.

Lemma preserves_check e : preserves R (check e).
Proof. unfold check. frame. Qed.
  #[local] Hint Resolve preserves_check : frame.

Lemma preserves_checkPeer E : preserves R (checkPeer E).
Proof. unfold checkPeer, watchPeer. frame. Qed.

Lemma preserves_wakeReceiver : preserves R wakeReceiver.
Proof. unfold wakeReceiver. frame. Qed.

Lemma preserves_wakeSenders : preserves R wakeSenders.
Proof. unfold wakeSenders. frame. Qed.
  #[local] Hint Resolve preserves_wakeReceiver preserves_wakeSenders : frame.

Lemma preserves_watchProducer E id : preserves R (watchProducer E id).
Proof. unfold watchProducer. frame. Qed.

Lemma preserves_sawPeerGone e : preserves R (sawPeerGone e).
Proof. unfold sawPeerGone. frame. Qed.

Lemma preserves_peerExited id err : preserves R (peerExited id err).
Proof. unfold peerExited. frame. Qed.

Lemma preserves_producerExited id err : preserves R (producerExited id err).
Proof. unfold producerExited. frame. Qed.

Lemma preserves_or_unlinked E {A} (r : failure + A) : preserves R (or_unlinked E r).
Proof. unfold or_unlinked. frame. Qed.
End Calm.

#[export] Hint Resolve preserves_check preserves_checkPeer preserves_wakeReceiver preserves_wakeSenders
  preserves_watchProducer preserves_sawPeerGone preserves_peerExited preserves_producerExited
  preserves_or_unlinked : frame.

(** A receive keeps what its reads and recoveries keep. *)
Lemma preserves_receive R `{!Frame R} E limit :
  (forall limit, preserves R (ring_read limit)) -> preserves R (unstall_ E) -> preserves R (receive E limit).
Proof.
  intros Hr Hu. unfold receive. apply preserves_bind; [done|by apply preserves_get|]. intros s.
  generalize (receive_fuel (s_ring s)) as fuel. induction fuel as [|fuel IH]; cbn [receive_loop]; [done|]. frame.
Qed.

(** A recovery keeps what the ring's [unstall] keeps. *)
Lemma preserves_unstall R `{!Frame R} E :
  (forall s, R s (mkSt (s_q s) (unstall (q_self (s_q s)) (isDead E) (s_ring s)).1 (s_out s) (s_fn s))) ->
  preserves R (unstall_ E).
Proof.
  intros Hu s s' res. specialize (Hu s). unfold unstall_, bind at 1, get.
  destruct (unstall _ _ _) as [r v]. unfold bind at 1, upd_ring. cbn [fst] in Hu. intros H.
  assert (Hq : preserves R (match v with
    | LeaveAlone => ret false
    | Watch id => bind (watchProducer E id) (fun _ => ret false)
    | Disagree => throw (Of ErrCorrupt)
    | Reclaimed b => ret b
    end)) by (destruct v; frame).
  eapply frame_trans; [exact Hu|exact (Hq _ _ _ H)].
Qed.

#[export] Instance same_slots_frame : Frame same_slots.
Proof. split; [intros s1 s2 s3 [] []; split; congruence|by split]. Qed.

Lemma same_slots_trans s1 s2 s3 : same_slots s1 s2 -> same_slots s2 s3 -> same_slots s1 s3.
Proof. apply frame_trans. Qed.

Lemma quiet_ring_write slot typ payload : preserves same_slots (ring_write slot typ payload).
Proof.
  intros s s' r. unfold ring_write. destruct (tryWrite _ _ _ _ _) as [[r1 [e|]]|] eqn:H; [| |done];
    apply owners_tryWrite in H; intros [= <- _]; by split.
Qed.

Lemma quiet_ring_claim slot typ length : preserves same_slots (ring_claim slot typ length).
Proof.
  intros s s' r. unfold ring_claim. destruct (tryClaim _ _ _ _ _) as [[r1 [c|e]]|] eqn:H; [| |done];
    apply owners_tryClaim in H; intros [= <- _]; by split.
Qed.

Lemma quiet_ring_read limit : preserves same_slots (ring_read limit).
Proof.
  intros s s' r. unfold ring_read. destruct (Read limit (s_ring s)) as [res|] eqn:H; [|done].
  apply owners_Read in H. intros [= <- _]. by split.
Qed.

Lemma quiet_TryRecv E : preserves same_slots (TryRecv_ E).
Proof.
  assert (Hrecv : preserves same_slots (receive E 1)).
  { apply preserves_receive; [apply _|apply quiet_ring_read|]. apply preserves_unstall; [apply _|]. intros s.
    split; try done. apply owners_unstall. }
  unfold TryRecv_, reading, entered, recvOne. frame.
Qed.

(** ** Calls that take and return slots *)

Lemma unsnoc_spec l : match unsnoc l with Some (pre, x) => l = pre ++ [x] | None => l = [] end.
Proof.
  induction l as [|x l IH]; cbn; [done|]. destruct (unsnoc l) as [[pre y]|]; by rewrite IH.
Qed.

(** Slot [i] can be taken by [self]: nobody owns it, or a dead process does. *)
Definition free_for (E : env) (self : Z) (r : Ring) (i : Z) : Prop :=
  0 <= i < zlen (owners r) /\
  exists o, owners r !! Z.to_nat i = Some o /\ (o = noProc \/ (o <> self /\ isDead E o = true)).

(** What a call did to the slots of its handle: it handed out [out] and took at most
    one slot from the ring. *)
Record acct (E : env) (s s' : st) (out : list Z) : Prop := {
  ac_self : q_self (s_q s') = q_self (s_q s);
  ac_closing : q_closing (s_q s') = q_closing (s_q s);
  ac_new : exists new, q_owned (s_q s') = q_owned (s_q s) ++ new /\
    q_idle (s_q s) ++ new ≡ₚ q_idle (s_q s') ++ out /\
    ((new = [] /\ owners (s_ring s') = owners (s_ring s)) \/
     exists i, new = [i] /\ free_for E (q_self (s_q s)) (s_ring s) i /\
       owners (s_ring s') = <[Z.to_nat i := q_self (s_q s)]> (owners (s_ring s))) }.

Lemma acct_quiet E s s' : same_slots s s' -> acct E s s' [].
Proof.
  intros []. split; [done..|]. exists []. rewrite !app_nil_r. split; [done|]. split; [by rewrite ss_idle0|by left].
Qed.

Lemma acct_then E s s1 s' out : acct E s s1 out -> same_slots s1 s' -> acct E s s' out.
Proof. intros [H1 H2 H3] []. split; [congruence..|]. by rewrite ss_owned0, ss_idle0, ss_owners0. Qed.

Lemma acct_before E s s1 s' out : same_slots s s1 -> acct E s1 s' out -> acct E s s' out.
Proof.
  intros [] [H1 H2 H3]. split; [congruence..|]. unfold free_for in *.
  by rewrite <-ss_owned0, <-ss_idle0, <-ss_owners0, <-ss_self0.
Qed.

(** A slot that was handed out is put back. *)
Lemma acct_put E s s1 slot : acct E s s1 [slot] ->
  acct E s (mkSt (set_slots (q_idle (s_q s1) ++ [slot]) (q_owned (s_q s1)) (s_q s1)) (s_ring s1) (s_out s1) (s_fn s1)) [].
Proof. intros [H1 H2 (new & H3 & H4 & H5)]. split; [done..|]. exists new. cbn. by rewrite app_nil_r. Qed.

Lemma owner_lookup r i : 0 <= i -> i < zlen (owners r) -> owners r !! Z.to_nat i = Some (owner (slot r i)).
Proof.
  intros H0 Hl. unfold owners, slot, zlen in *. rewrite length_fmap in Hl. rewrite list_lookup_fmap.
  destruct (lookup_lt_is_Some_2 (slots (hdr r)) (Z.to_nat i)) as [x ->]; [lia|done].
Qed.

Lemma acquireSlot_owners E self r :
  match acquireSlot self (isDead E) r with
  | (r', Ok i) => free_for E self r i /\ owners r' = <[Z.to_nat i := self]> (owners r)
  | (r', Err _) => r' = r
  end.
Proof.
  assert (Hrange : forall i, i ∈ slot_range r -> 0 <= i < zlen (owners r)).
  { intros i Hi%slot_range_spec. unfold owners, zlen in *. by rewrite length_fmap. }
  assert (Hst : forall i, owners (store_at i noIntent (store_owner i self r)) = <[Z.to_nat i := self]> (owners r)).
  { intros i. by rewrite owners_store_at, owners_store_owner. }
  unfold acquireSlot. pose proof (acquire_free_spec self (slot_range r) r) as Hf.
  destruct (acquire_free self (slot_range r) r) as [[r' i]|].
  - destruct Hf as (Hin & H0 & ->). specialize (Hrange i Hin). split; [|apply Hst]. split; [done|].
    exists (owner (slot r i)). split; [apply owner_lookup; lia|by left].
  - pose proof (acquire_dead_spec self (head (hdr r)) (isDead E) (slot_range r) r) as Hd.
    destruct (acquire_dead _ _ _ _ _) as [[r' i]|]; [|done].
    destruct Hd as (Hin & (_ & Hs & Hdead & _) & ->). specialize (Hrange i Hin). split; [|apply Hst]. split; [done|].
    exists (owner (slot r i)). split; [apply owner_lookup; lia|by right].
Qed.

Lemma takeSlot_acct E s s' r :
  takeSlot E s = Some (s', r) -> acct E s s' (match r with inr slot => [slot] | inl _ => [] end).
Proof.
  unfold takeSlot, bind at 1, get. pose proof (unsnoc_spec (q_idle (s_q s))) as Hu.
  destruct (unsnoc (q_idle (s_q s))) as [[idle slot]|].
  - intros [= <- <-]. split; [done..|]. exists []. cbn. rewrite !app_nil_r, Hu. split; [done|]. split; [done|by left].
  - pose proof (acquireSlot_owners E (q_self (s_q s)) (s_ring s)) as Ha.
    destruct (acquireSlot _ _ _) as [r1 [i|e]].
    + destruct Ha as [Hfree Ho]. intros [= <- <-]. split; [done..|]. exists [i]. cbn. rewrite Hu. split; [done|].
      split; [done|]. right. by exists i.
    + subst r1. intros [= <- <-]. apply acct_quiet. by split.
Qed.

(** The run of a bind, and of a caught call. *)
Lemma bind_run {A B} (m : M A) (k : A -> M B) s s' r :
  bind m k s = Some (s', r) ->
  (exists e, m s = Some (s', inl e) /\ r = inl e) \/ (exists s1 a, m s = Some (s1, inr a) /\ k a s1 = Some (s', r)).
Proof.
  unfold bind. destruct (m s) as [[s1 [e|a]]|]; [| |done].
  - intros [= <- <-]. left. eauto.
  - intros H. right. eauto.
Qed.

Lemma attempt_run {A B} (m : M A) (k : failure + A -> M B) s s' r :
  bind (attempt_ m) k s = Some (s', r) -> exists s1 a, m s = Some (s1, a) /\ k a s1 = Some (s', r).
Proof. unfold bind, attempt_. destruct (m s) as [[s1 a]|]; [eauto|done]. Qed.

Lemma write_acct E typ payload s s' r : write E typ payload s = Some (s', r) -> acct E s s' [].
Proof.
  unfold write. intros [(e & H1 & _)|(s1 & [] & H1 & H)]%bind_run; apply (preserves_checkPeer same_slots) in H1; [by apply acct_quiet|].
  eapply acct_before; [exact H1|].
  apply bind_run in H as [(e & H2 & _)|(s2 & slot & H2 & H)]; apply takeSlot_acct in H2; [done|].
  apply attempt_run in H as (s3 & res & H3 & H). apply quiet_ring_write in H3.
  pose proof (acct_put E s1 s3 slot (acct_then _ _ _ _ _ H2 H3)) as Hp.
  destruct res as [e|[]]; injection H as <- _; exact Hp.
Qed.

Lemma claim_acct E typ length s s' r :
  claim E typ length s = Some (s', r) -> acct E s s' (match r with inr c => [c_slot c] | inl _ => [] end).
Proof.
  unfold claim. intros [(e & H1 & ->)|(s1 & [] & H1 & H)]%bind_run; apply (preserves_checkPeer same_slots) in H1; [by apply acct_quiet|].
  eapply acct_before; [exact H1|].
  apply bind_run in H as [(e & H2 & ->)|(s2 & slot & H2 & H)]; apply takeSlot_acct in H2; [done|].
  apply attempt_run in H as (s3 & res & H3 & H). pose proof H3 as Hq. apply quiet_ring_claim in Hq.
  pose proof (acct_then _ _ _ _ _ H2 Hq) as Ha. destruct res as [e|c].
  - injection H as <- <-. exact (acct_put E s1 s3 slot Ha).
  - injection H as <- <-. unfold ring_claim in H3.
    destruct (tryClaim _ _ _ _ _) as [[r1 [c1|e1]]|] eqn:Ht; [| |done]; [|done].
    injection H3 as _ ->. by rewrite (slot_tryClaim _ _ _ _ _ _ Ht).
Qed.

(** ** The handles of a queue *)

(** The handles on one ring, of any processes, and the claims that were made and
    neither committed nor aborted, each with its handle. *)
Record system : Type := mkSystem {
  sys_ring : Ring; sys_handles : list Queue; sys_claims : list (nat * Claim) }.

(** What a program does with handle [k]. A claim is committed or aborted once; the
    claims of a handle end with it. *)
Inductive action : Type :=
| ASend (typ : Z) (payload : list byte)
| AClaim (typ length : Z)
| ACommit (c : Claim)
| AAbort (c : Claim)
| ARecv
| APeerExited (id : Z) (err : bool)
| AProducerExited (id : Z) (err : bool)
| AClose.

#[global] Instance Claim_eq_dec : EqDecision Claim.
Proof. solve_decision. Defined.

Definition perform (E : env) (a : action) : M (option Claim) :=
  match a with
  | ASend typ payload => do _ <- TrySendTyped E typ payload in ret None
  | AClaim typ length => do c <- entered (claim E typ length) in ret (Some c)
  | ACommit c => do _ <- Commit_ c in ret None
  | AAbort c => do _ <- Abort_ c in ret None
  | ARecv => do _ <- TryRecv_ E in ret None
  | APeerExited id err => do _ <- peerExited id err in ret None
  | AProducerExited id err => do _ <- producerExited id err in ret None
  | AClose => do _ <- Close in ret None
  end.

(** The slots of the claims of handle [k]. *)
Definition slots_held (k : nat) (claims : list (nat * Claim)) : list Z :=
  (fun kc => c_slot (snd kc)) <$> filter (fun kc => fst kc = k) claims.

Fixpoint remove_claim (kc : nat * Claim) (l : list (nat * Claim)) : list (nat * Claim) :=
  match l with
  | [] => []
  | x :: l => if decide (x = kc) then l else x :: remove_claim kc l
  end.

Definition claims_after (k : nat) (a : action) (r : failure + option Claim) (claims : list (nat * Claim))
    : list (nat * Claim) :=
  match a, r with
  | AClaim _ _, inr (Some c) => claims ++ [(k, c)]
  | (ACommit c | AAbort c), _ => remove_claim (k, c) claims
  | AClose, _ => filter (fun kc => fst kc <> k) claims
  | _, _ => claims
  end.

(** [None] when there is no such handle or claim, or a loop ran out of fuel. *)
Definition sys_step (E : env) (k : nat) (a : action) (y : system) : option system :=
  match sys_handles y !! k with
  | None => None
  | Some q =>
      if (match a with ACommit c | AAbort c => bool_decide ((k, c) ∈ sys_claims y) | _ => true end) then
        match perform E a (mkSt q (sys_ring y) [] []) with
        | None => None
        | Some (s', r) =>
            Some (mkSystem (s_ring s') (<[k := s_q s']> (sys_handles y)) (claims_after k a r (sys_claims y)))
        end
      else None
  end.

(** The end of process [p]: its handles do nothing more, and its claims stay in the
    ring. *)
Definition dead_handle (q : Queue) : Queue := set_slots [] [] (set_closing q).

Definition owned_by (p : Z) (hs : list Queue) (k : nat) : bool :=
  match hs !! k with Some q => q_self q =? p | None => false end.

Definition sys_die (p : Z) (y : system) : system :=
  mkSystem (sys_ring y) ((fun q => if q_self q =? p then dead_handle q else q) <$> sys_handles y)
    (filter (fun kc => owned_by p (sys_handles y) (fst kc) = false) (sys_claims y)).

(** The systems that handles reach: handles are opened and used, and processes die.
    No process that has a handle that is not closed is reported dead. *)
Inductive reachable (r0 : Ring) : system -> Prop :=
| ReachStart : reachable r0 (mkSystem r0 [] [])
| ReachOpen y self reader :
    reachable r0 y -> self <> noProc ->
    reachable r0 (mkSystem (sys_ring y) (sys_handles y ++ [newQueue self reader]) (sys_claims y))
| ReachStep y E k a y' :
    reachable r0 y ->
    (forall q, q ∈ sys_handles y -> q_closing q = false -> isDead E (q_self q) = false) ->
    sys_step E k a y = Some y' -> reachable r0 y'
| ReachDie y p : reachable r0 y -> reachable r0 (sys_die p y).

Record sys_inv (y : system) : Prop := {
  si_self : forall k q, sys_handles y !! k = Some q -> q_self q <> noProc;
  si_acct : forall k q, sys_handles y !! k = Some q -> q_owned q ≡ₚ q_idle q ++ slots_held k (sys_claims y);
  si_nodup : forall k q, sys_handles y !! k = Some q -> NoDup (q_owned q);
  si_owner : forall k q i, sys_handles y !! k = Some q -> i ∈ q_owned q ->
    0 <= i < zlen (owners (sys_ring y)) /\ owners (sys_ring y) !! Z.to_nat i = Some (q_self q);
  si_disjoint : forall k k' q q', k <> k' -> sys_handles y !! k = Some q -> sys_handles y !! k' = Some q' ->
    forall i, i ∈ q_owned q -> i ∈ q_owned q' -> False;
  si_open : forall k c, (k, c) ∈ sys_claims y ->
    exists q, sys_handles y !! k = Some q /\ q_closing q = false;
  si_closed : forall k q, sys_handles y !! k = Some q -> q_closing q = true -> q_owned q = [] }.

Lemma perm_acct (owned idle held new idle' out held' : list Z) :
  owned ≡ₚ idle ++ held -> idle ++ new ≡ₚ idle' ++ out -> held' ≡ₚ held ++ out ->
  owned ++ new ≡ₚ idle' ++ held'.
Proof.
  intros H1 H2 H3. eapply perm_trans; [apply Permutation_app_tail, H1|]. rewrite <-app_assoc.
  eapply perm_trans; [apply Permutation_app_head, Permutation_app_comm|]. rewrite app_assoc.
  eapply perm_trans; [apply Permutation_app_tail, H2|]. rewrite <-app_assoc.
  apply Permutation_app_head. eapply perm_trans; [apply Permutation_app_comm|]. by apply Permutation_sym.
Qed.

(** Taking a slot keeps the handles apart. *)
Lemma inv_acct E k q s' y claims out :
  sys_inv y -> (forall q, q ∈ sys_handles y -> q_closing q = false -> isDead E (q_self q) = false) ->
  sys_handles y !! k = Some q -> q_closing q = false -> acct E (mkSt q (sys_ring y) [] []) s' out ->
  (forall k', slots_held k' claims ≡ₚ slots_held k' (sys_claims y) ++ if decide (k' = k) then out else []) ->
  (forall k c, (k, c) ∈ claims -> exists q, sys_handles y !! k = Some q /\ q_closing q = false) ->
  sys_inv (mkSystem (s_ring s') (<[k := s_q s']> (sys_handles y)) claims).
Proof.
  intros [I1 I2 I3 I4 I5 I6 I7] Hlive Hq Hopen [A1 A2 (new & A3 & A4 & A5)] Hclaims Hknown. cbn in A1, A2, A3, A4, A5.
  assert (Hklt : (k < List.length (sys_handles y))%nat) by (by eapply lookup_lt_Some).
  assert (Hcase : forall k1 q1, <[k := s_q s']> (sys_handles y) !! k1 = Some q1 ->
    (k1 = k /\ q1 = s_q s') \/ (k1 <> k /\ sys_handles y !! k1 = Some q1)).
  { intros k1 q1 H. apply list_lookup_insert_Some in H as [(-> & -> & _)|[? ?]]; auto. }
  (* the new slot belongs to nobody here *)
  assert (Hnew : forall i k1 q1, i ∈ new -> sys_handles y !! k1 = Some q1 -> i ∉ q_owned q1).
  { intros i k1 q1 Hi Hq1 Hin. destruct A5 as [[-> _]|(j & -> & (Hj & o & Ho & Hfree) & _)]; [by apply elem_of_nil in Hi|].
    apply list_elem_of_singleton in Hi as ->. destruct (I4 k1 q1 j Hq1 Hin) as [_ Hown].
    rewrite Ho in Hown. injection Hown as ->. destruct Hfree as [Hz|[_ Hd]]; [by apply (I1 k1 q1)|].
    rewrite Hlive in Hd; [done|by eapply list_elem_of_lookup_2|].
    destruct (q_closing q1) eqn:Hc; [|done]. rewrite (I7 k1 q1 Hq1 Hc) in Hin. by apply elem_of_nil in Hin. }
  assert (Hlen : zlen (owners (s_ring s')) = zlen (owners (sys_ring y))).
  { destruct A5 as [[_ ->]|(j & _ & _ & ->)]; [done|]. unfold zlen. by rewrite length_insert. }
  assert (Hkeep : forall i o, i ∉ new -> 0 <= i < zlen (owners (sys_ring y)) ->
    owners (sys_ring y) !! Z.to_nat i = Some o -> owners (s_ring s') !! Z.to_nat i = Some o).
  { intros i o Hi Hr Ho. destruct A5 as [[_ ->]|(j & -> & (Hj & _) & ->)]; [done|].
    rewrite list_lookup_insert_ne; [done|]. intros E'. apply Hi, list_elem_of_singleton. lia. }
  split; cbn [sys_ring sys_handles sys_claims].
  - intros k1 q1 [[-> ->]|[_ H]]%Hcase; [rewrite A1|]; by eapply I1.
  - intros k1 q1 [[-> ->]|[Hne H]]%Hcase.
    + specialize (Hclaims k). rewrite decide_True in Hclaims by done. rewrite A3.
      eapply perm_acct; [by apply I2|exact A4|exact Hclaims].
    + specialize (Hclaims k1). rewrite decide_False, app_nil_r in Hclaims by done.
      eapply perm_trans; [by apply I2|]. apply Permutation_app_head, Permutation_sym, Hclaims.
  - intros k1 q1 [[-> ->]|[Hne H]]%Hcase; [|by eapply I3]. rewrite A3. apply list.NoDup_app. split; [by eapply I3|]. split.
    + intros i Hi Hn. by apply (Hnew i k q Hn Hq).
    + destruct A5 as [[-> _]|(j & -> & _)]; [constructor|apply NoDup_singleton].
  - intros k1 q1 i [[-> ->]|[Hne H]]%Hcase Hi; rewrite Hlen.
    + rewrite A1. rewrite A3 in Hi. apply elem_of_app in Hi as [Hi|Hi].
      * destruct (I4 k q i Hq Hi) as [Hr Ho]. split; [done|]. apply Hkeep; [|done..].
        intros Hn. by apply (Hnew i k q Hn Hq).
      * destruct A5 as [[-> _]|(j & -> & (Hj & _) & ->)]; [by apply elem_of_nil in Hi|].
        apply list_elem_of_singleton in Hi as ->. split; [done|]. apply list_lookup_insert_eq. unfold zlen in Hj. lia.
    + destruct (I4 k1 q1 i H Hi) as [Hr Ho]. split; [done|]. apply Hkeep; [|done..]. intros Hn. by apply (Hnew i k1 q1 Hn H).
  - intros k1 k2 q1 q2 Hne [[-> ->]|[Hn1 H1]]%Hcase [[-> ->]|[Hn2 H2]]%Hcase i Hi1 Hi2; try done.
    + rewrite A3 in Hi1. apply elem_of_app in Hi1 as [Hi1|Hi1]; [by eapply (I5 k k2)|by apply (Hnew i k2 q2)].
    + rewrite A3 in Hi2. apply elem_of_app in Hi2 as [Hi2|Hi2]; [by eapply (I5 k k1)|by apply (Hnew i k1 q1)].
    + by eapply (I5 k1 k2).
  - intros k1 c Hc. destruct (Hknown k1 c Hc) as (q1 & Hq1 & Hc1). destruct (decide (k1 = k)) as [->|].
    + rewrite list_lookup_insert_eq by done. exists (s_q s'). split; [done|]. congruence.
    + rewrite list_lookup_insert_ne by done. eauto.
  - intros k1 q1 [[-> ->]|[Hne H]]%Hcase; [congruence|by eapply I7].
Qed.

(** ** Every call keeps the invariant *)

Lemma list_filter_all {A} (P : A -> Prop) `{!forall x, Decision (P x)} (l : list A) :
  (forall x, x ∈ l -> P x) -> filter P l = l.
Proof.
  induction l as [|x l IH]; intros Hall; [done|]. rewrite list.filter_cons, decide_True by (apply Hall; by left).
  f_equal. apply IH. intros y Hy. apply Hall. by right.
Qed.

Lemma list_filter_none {A} (P : A -> Prop) `{!forall x, Decision (P x)} (l : list A) :
  (forall x, x ∈ l -> ~ P x) -> filter P l = [].
Proof.
  induction l as [|x l IH]; intros Hall; [done|]. rewrite list.filter_cons, decide_False by (apply Hall; by left).
  apply IH. intros y Hy. apply Hall. by right.
Qed.

Lemma slots_held_app k l1 l2 : slots_held k (l1 ++ l2) = slots_held k l1 ++ slots_held k l2.
Proof. unfold slots_held. by rewrite list.filter_app, fmap_app. Qed.

Lemma slots_held_cons k kc l :
  slots_held k (kc :: l) = (if decide (fst kc = k) then [c_slot (snd kc)] else []) ++ slots_held k l.
Proof. unfold slots_held. rewrite list.filter_cons. by case_decide. Qed.

Lemma slots_held_other k k1 l :
  slots_held k1 (filter (fun kc => fst kc <> k) l) = if decide (k1 = k) then [] else slots_held k1 l.
Proof.
  induction l as [|x l IH]; [by case_decide|]. rewrite list.filter_cons, slots_held_cons.
  destruct (decide (fst x <> k)) as [Hx|Hx]; rewrite ?slots_held_cons, IH.
  - destruct (decide (k1 = k)) as [->|]; [by rewrite decide_False|done].
  - destruct (decide (k1 = k)) as [->|Hne]; [done|]. rewrite decide_False; [done|]. intros Hk1. apply Hx. congruence.
Qed.

Lemma remove_claim_held k k' c l :
  (k, c) ∈ l ->
  slots_held k' l ≡ₚ slots_held k' (remove_claim (k, c) l) ++ (if decide (k' = k) then [c_slot c] else []).
Proof.
  induction l as [|x l IH]; intros Hin; [by apply elem_of_nil in Hin|]. cbn [remove_claim].
  destruct (decide (x = (k, c))) as [->|Hne].
  - rewrite slots_held_cons. cbn [fst snd]. destruct (decide (k = k')) as [->|].
    + rewrite decide_True by done. apply Permutation_app_comm.
    + rewrite decide_False by done. by rewrite app_nil_r.
  - apply elem_of_cons in Hin as [Hx|Hin]; [by destruct Hne|]. rewrite !slots_held_cons, <-app_assoc.
    by apply Permutation_app_head, IH.
Qed.

Lemma remove_claim_in kc x l : x ∈ remove_claim kc l -> x ∈ l.
Proof.
  induction l as [|y l IH]; cbn; [done|]. case_decide; [by right|].
  intros [->|Hx]%elem_of_cons; [by left|right; auto].
Qed.

(** A slot comes back to the idle slots of its handle. *)
Lemma inv_put k q q' r' c y :
  sys_inv y -> sys_handles y !! k = Some q -> (k, c) ∈ sys_claims y ->
  q_self q' = q_self q -> q_owned q' = q_owned q -> q_idle q' = q_idle q ++ [c_slot c] ->
  q_closing q' = q_closing q -> owners r' = owners (sys_ring y) ->
  sys_inv (mkSystem r' (<[k := q']> (sys_handles y)) (remove_claim (k, c) (sys_claims y))).
Proof.
  intros [I1 I2 I3 I4 I5 I6 I7] Hq Hc Hself Howned Hidle Hcl Ho.
  assert (Hklt : (k < List.length (sys_handles y))%nat) by (by eapply lookup_lt_Some).
  assert (Hcase : forall k1 q1, <[k := q']> (sys_handles y) !! k1 = Some q1 ->
    (k1 = k /\ q1 = q') \/ (k1 <> k /\ sys_handles y !! k1 = Some q1)).
  { intros k1 q1 H. apply list_lookup_insert_Some in H as [(-> & -> & _)|[? ?]]; auto. }
  assert (Hperm : forall k1, slots_held k1 (sys_claims y) ≡ₚ
    slots_held k1 (remove_claim (k, c) (sys_claims y)) ++ (if decide (k1 = k) then [c_slot c] else [])).
  { intros k1. by apply remove_claim_held. }
  split; cbn [sys_ring sys_handles sys_claims]; rewrite ?Ho.
  - intros k1 q1 [[-> ->]|[_ H]]%Hcase; [rewrite Hself|]; by eapply I1.
  - intros k1 q1 [[-> ->]|[Hne H]]%Hcase.
    + specialize (Hperm k). rewrite decide_True in Hperm by done. rewrite Howned, Hidle, <-app_assoc.
      eapply perm_trans; [by apply I2|]. apply Permutation_app_head. eapply perm_trans; [exact Hperm|].
      apply Permutation_app_comm.
    + specialize (Hperm k1). rewrite decide_False, app_nil_r in Hperm by done. eapply perm_trans; [by apply I2|].
      by apply Permutation_app_head.
  - intros k1 q1 [[-> ->]|[_ H]]%Hcase; [rewrite Howned|]; by eapply I3.
  - intros k1 q1 i [[-> ->]|[_ H]]%Hcase; [rewrite Howned, Hself|]; by eapply I4.
  - intros k1 k2 q1 q2 Hne [[-> ->]|[Hn1 H1]]%Hcase [[-> ->]|[Hn2 H2]]%Hcase; try done; rewrite ?Howned.
    + by apply (I5 k k2).
    + by apply (I5 k1 k).
    + by apply (I5 k1 k2).
  - intros k1 c1 Hin%remove_claim_in. destruct (I6 k1 c1 Hin) as (q1 & Hq1 & Hc1). destruct (decide (k1 = k)) as [->|].
    + rewrite list_lookup_insert_eq by done. exists q'. split; [done|]. congruence.
    + rewrite list_lookup_insert_ne by done. eauto.
  - intros k1 q1 [[-> ->]|[Hne H]]%Hcase; [rewrite Hcl, Howned|]; by eapply I7.
Qed.

Lemma owners_dropSlot self i r :
  owners (dropSlot self i r) =
  if owner (slot (store_at i noIntent r) i) =? self then <[Z.to_nat i := 0]> (owners r) else owners r.
Proof. unfold dropSlot. case_match; by rewrite ?owners_store_owner, owners_store_at. Qed.

(** Dropping the slots of a handle leaves the other slots alone. *)
Lemma owners_drop_all self l r j :
  j ∉ (Z.to_nat <$> l) ->
  zlen (owners (foldl (fun r i => dropSlot self i r) r l)) = zlen (owners r) /\
  owners (foldl (fun r i => dropSlot self i r) r l) !! j = owners r !! j.
Proof.
  revert r. induction l as [|i l IH]; intros r Hj; cbn [foldl fmap list_fmap] in *; [done|].
  apply not_elem_of_cons in Hj as [Hne Hj]. destruct (IH (dropSlot self i r) Hj) as [-> ->].
  rewrite owners_dropSlot. case_match; [|done]. unfold zlen. rewrite length_insert, list_lookup_insert_ne by done. done.
Qed.

(** A handle that closes gives up its slots. *)
Lemma inv_close k q q' r' r1 y :
  sys_inv y -> sys_handles y !! k = Some q -> q_self q' = q_self q -> q_owned q' = [] -> q_idle q' = [] ->
  owners r1 = owners (sys_ring y) ->
  owners r' = owners (foldl (fun r i => dropSlot (q_self q) i r) r1 (q_owned q)) ->
  sys_inv (mkSystem r' (<[k := q']> (sys_handles y)) (filter (fun kc => fst kc <> k) (sys_claims y))).
Proof.
  intros [I1 I2 I3 I4 I5 I6 I7] Hq Hself Howned Hidle H1o Ho.
  assert (Hklt : (k < List.length (sys_handles y))%nat) by (by eapply lookup_lt_Some).
  assert (Hcase : forall k1 q1, <[k := q']> (sys_handles y) !! k1 = Some q1 ->
    (k1 = k /\ q1 = q') \/ (k1 <> k /\ sys_handles y !! k1 = Some q1)).
  { intros k1 q1 H. apply list_lookup_insert_Some in H as [(-> & -> & _)|[? ?]]; auto. }
  assert (Hheld : forall k1, slots_held k1 (filter (fun kc => fst kc <> k) (sys_claims y)) =
    if decide (k1 = k) then [] else slots_held k1 (sys_claims y)).
  { intros k1. apply slots_held_other. }
  split; cbn [sys_ring sys_handles sys_claims].
  - intros k1 q1 [[-> ->]|[_ H]]%Hcase; [rewrite Hself|]; by eapply I1.
  - intros k1 q1 [[-> ->]|[Hne H]]%Hcase; rewrite Hheld.
    + by rewrite Howned, Hidle, decide_True.
    + rewrite decide_False by done. by apply I2.
  - intros k1 q1 [[-> ->]|[_ H]]%Hcase; [rewrite Howned; constructor|by eapply I3].
  - intros k1 q1 i [[-> ->]|[Hne H]]%Hcase Hi; [by rewrite Howned, elem_of_nil in Hi|].
    destruct (I4 k1 q1 i H Hi) as [Hr Hown].
    destruct (owners_drop_all (q_self q) (q_owned q) r1 (Z.to_nat i)) as [Hlen Hkeep].
    { intros (j & Ej & Hj)%list_elem_of_fmap. destruct (I4 k q j Hq Hj) as [Hrj _].
      assert (i = j) as -> by lia. by eapply (I5 k1 k). }
    by rewrite Ho, Hlen, Hkeep, H1o.
  - intros k1 k2 q1 q2 Hne [[-> ->]|[Hn1 H1]]%Hcase [[-> ->]|[Hn2 H2]]%Hcase; try done;
      try (rewrite Howned; intros i; by rewrite elem_of_nil). by apply (I5 k1 k2).
  - intros k1 c1 [Hk1 Hin]%list_elem_of_filter. cbn in Hk1. rewrite list_lookup_insert_ne by done. by eapply I6.
  - intros k1 q1 [[-> ->]|[Hne H]]%Hcase; [done|by eapply I7].
Qed.

(** The end of a process keeps the invariant. *)
Lemma sys_die_inv p y : sys_inv y -> sys_inv (sys_die p y).
Proof.
  intros [I1 I2 I3 I4 I5 I6 I7].
  assert (Hcase : forall k q, sys_handles (sys_die p y) !! k = Some q -> exists q0, sys_handles y !! k = Some q0 /\
    ((q_self q0 = p /\ q = dead_handle q0) \/ (q_self q0 <> p /\ q = q0))).
  { intros k q H. cbn in H. rewrite list_lookup_fmap in H. destruct (sys_handles y !! k) as [q0|]; [|done].
    exists q0. split; [done|]. injection H as <-. destruct (Z.eqb_spec (q_self q0) p); auto. }
  assert (Hheld : forall k q, sys_handles y !! k = Some q -> slots_held k (sys_claims (sys_die p y)) =
    if decide (q_self q = p) then [] else slots_held k (sys_claims y)).
  { intros k q Hq. cbn. unfold slots_held. rewrite list_filter_filter. case_decide as Hp.
    - rewrite list_filter_none; [done|]. intros [k1 c] _ [E1 E2]. cbn in E1, E2. subst k1. unfold owned_by in E2.
      rewrite Hq in E2. by apply Z.eqb_neq in E2.
    - f_equal. apply list_filter_iff. intros [k1 c]. cbn. split; [by intros []|]. intros ->. split; [done|].
      unfold owned_by. rewrite Hq. by apply Z.eqb_neq. }
  split.
  - intros k q (q0 & H & [[? ->]|[? ->]])%Hcase; by eapply (I1 k q0).
  - intros k q (q0 & H & [[? ->]|[? ->]])%Hcase; rewrite (Hheld k q0 H).
    + by rewrite decide_True.
    + rewrite decide_False by done. by apply I2.
  - intros k q (q0 & H & [[? ->]|[? ->]])%Hcase; [constructor|by eapply I3].
  - intros k q i (q0 & H & [[? ->]|[? ->]])%Hcase; [by intros ?%elem_of_nil|by eapply I4].
  - intros k k' q q' Hne (q0 & H & [[? ->]|[? ->]])%Hcase (q1 & H' & [[? ->]|[? ->]])%Hcase i Hi Hi';
      try (by apply elem_of_nil in Hi); try (by apply elem_of_nil in Hi'). by apply (I5 k k' q0 q1 Hne H H' i).
  - intros k c [Hown Hin]%list_elem_of_filter. cbn in Hown. destruct (I6 k c Hin) as (q & Hq & Hc). exists q.
    split; [|done]. cbn. rewrite list_lookup_fmap, Hq. unfold owned_by in Hown. rewrite Hq in Hown. cbn. by rewrite Hown.
  - intros k q (q0 & H & [[? ->]|[? ->]])%Hcase; [done|by eapply I7].
Qed.

(** The run of a call whose result is dropped. *)
Lemma then_run {A B} (m : M A) (b : A -> B) s s' r :
  bind m (fun a => ret (b a)) s = Some (s', r) ->
  exists r0, m s = Some (s', r0) /\ r = match r0 with inl e => inl e | inr a => inr (b a) end.
Proof. intros [(e & H & ->)|(s1 & a & H & [= <- <-])]%bind_run; eauto. Qed.

Lemma TrySend_acct E typ payload s s' r : TrySendTyped E typ payload s = Some (s', r) -> acct E s s' [].
Proof.
  unfold TrySendTyped, entered, bind at 1, get. destruct (q_closing (s_q s)).
  { intros [= <- _]. apply acct_quiet. by split. }
  intros [(e & H & _)|(s2 & [] & H & Hw)]%bind_run; [by eapply write_acct|].
  eapply acct_then; [by eapply write_acct|]. by eapply (preserves_wakeReceiver same_slots).
Qed.

Lemma perform_acct E a s s' r :
  perform E a s = Some (s', r) ->
  match a with
  | ASend _ _ | ARecv | APeerExited _ _ | AProducerExited _ _ => acct E s s' []
  | AClaim _ _ => acct E s s' (match r with inr (Some c) => [c_slot c] | _ => [] end)
  | _ => True
  end.
Proof.
  destruct a; cbn [perform]; try done; intros (r0 & H & Hr)%then_run.
  - by eapply TrySend_acct.
  - unfold entered, bind at 1, get in H. destruct (q_closing (s_q s)).
    + injection H as <- <-. subst r. apply acct_quiet. by split.
    + apply claim_acct in H. by destruct r0; subst r.
  - apply quiet_TryRecv in H. by apply acct_quiet.
  - apply (preserves_peerExited same_slots) in H. by apply acct_quiet.
  - apply (preserves_producerExited same_slots) in H. by apply acct_quiet.
Qed.

(** A closed handle does nothing. *)
Lemma perform_closed E a s s' r :
  q_closing (s_q s) = true -> perform E a s = Some (s', r) -> s' = s /\ forall c, r <> inr (Some c).
Proof.
  intros Hc. destruct a; cbn [perform];
    unfold TrySendTyped, TryRecv_, reading, entered, Commit_, Abort_, peerExited, producerExited, Close, bind, get;
    rewrite Hc; by intros [= <- <-].
Qed.

(** A commit or an abort of a handle that is open puts the slot back. *)
Lemma settle_run (f : Ring -> Ring) c s s' r :
  (forall ring, owners (f ring) = owners ring) -> q_closing (s_q s) = false ->
  (do s <- get in
   if q_closing (s_q s) then ret tt
   else do _ <- upd_ring f in do _ <- putSlot (c_slot c) in wakeReceiver) s = Some (s', r) ->
  q_self (s_q s') = q_self (s_q s) /\ q_owned (s_q s') = q_owned (s_q s) /\
  q_idle (s_q s') = q_idle (s_q s) ++ [c_slot c] /\ q_closing (s_q s') = q_closing (s_q s) /\
  owners (s_ring s') = owners (s_ring s).
Proof.
  intros Hf Hc. unfold bind at 1, get. rewrite Hc. unfold bind at 1, upd_ring, bind at 1, putSlot, upd_queue.
  intros H%(preserves_wakeReceiver same_slots). destruct H as [H1 H2 H3 H4 H5]. cbn in *. by rewrite H1, H2, H3, H4, H5, Hf.
Qed.

Lemma Close_run s s' r :
  Close s = Some (s', r) ->
  (q_closing (s_q s) = true /\ s' = s) \/
  (q_self (s_q s') = q_self (s_q s) /\ q_owned (s_q s') = [] /\ q_idle (s_q s') = [] /\
   q_closing (s_q s') = true /\
   exists r1, owners r1 = owners (s_ring s) /\
     owners (s_ring s') = owners (foldl (fun r i => dropSlot (q_self (s_q s)) i r) r1 (q_owned (s_q s)))).
Proof.
  unfold Close, bind at 1, get. destruct (q_closing (s_q s)) eqn:Hc; [intros [= <- _]; by left|].
  intros H. right. apply bind_run in H as [(e & H & _)|(s1 & [] & [= <-] & H)]; [done|].
  assert (Hq : preserves same_slots (if q_reader (s_q s)
    then do _ <- upd_ring (fun r =>
      if consumer (hdr r) =? q_self (s_q s) then set_hdr (with_consumer noProc) r else r) in wakeSenders
    else ret tt)).
  { frame. intros s0 s1 r0 [= <- _]. split; try done. cbn. by case_match. }
  apply bind_run in H as [(e & H & _)|(s2 & [] & H2 & H)].
  { exfalso. revert H. clear Hq. destruct (q_reader (s_q s)); [|done]. unfold bind at 1, upd_ring, wakeSenders, bind, get.
    by case_match. }
  apply Hq in H2 as [E1 E2 E3 E4 E5]. cbn in E1, E2, E3, E4, E5.
  injection H as <- _. cbn. split_and!; try done. by exists (s_ring s2).
Qed.

(** ** Theorems *)

Lemma closed_no_claims y k q c :
  sys_inv y -> sys_handles y !! k = Some q -> q_closing q = true -> (k, c) ∈ sys_claims y -> False.
Proof. intros I Hq Hc Hin. destruct (si_open _ I k c Hin) as (q1 & Hq1 & Hc1). congruence. Qed.

Lemma sys_step_inv E k a y y' :
  sys_inv y -> (forall q, q ∈ sys_handles y -> q_closing q = false -> isDead E (q_self q) = false) ->
  sys_step E k a y = Some y' -> sys_inv y'.
Proof.
  intros I Hlive. unfold sys_step. destruct (sys_handles y !! k) as [q|] eqn:Hq; [|done].
  destruct (match a with ACommit c | AAbort c => _ | _ => true end) eqn:Hg; [|done].
  destruct (perform E a (mkSt q (sys_ring y) [] [])) as [[s' r]|] eqn:Hp; [|done]. intros [= <-].
  pose proof (perform_acct _ _ _ _ _ Hp) as Ha.
  destruct (q_closing q) eqn:Hopen.
  { pose proof (fun c H => closed_no_claims y k q c I Hq Hopen H) as Hnone.
    destruct (perform_closed E a (mkSt q (sys_ring y) [] []) s' r Hopen Hp) as [-> Hr]. cbn [s_ring s_q]. rewrite list_insert_id by done.
    replace (claims_after k a r (sys_claims y)) with (sys_claims y); [by destruct y|].
    destruct a; cbn [claims_after]; try done.
    - destruct r as [|[c|]]; try done. by destruct (Hr c).
    - apply bool_decide_eq_true in Hg. by apply Hnone in Hg.
    - apply bool_decide_eq_true in Hg. by apply Hnone in Hg.
    - symmetry. apply list_filter_all. intros [k1 c1] Hin. cbn. intros ->. by apply (Hnone c1). }
  assert (Hquiet : acct E (mkSt q (sys_ring y) [] []) s' [] ->
    sys_inv (mkSystem (s_ring s') (<[k := s_q s']> (sys_handles y)) (sys_claims y))).
  { intros Hacct. eapply inv_acct; [done..| |].
    - intros k'. case_decide; by rewrite app_nil_r.
    - apply I. }
  destruct a; cbn [claims_after]; auto.
  - destruct r as [e|[c|]]; auto. eapply inv_acct; [done..| |].
    + intros k'. rewrite slots_held_app, slots_held_cons. cbn. rewrite app_nil_r.
      destruct (decide (k = k')) as [->|]; [by rewrite decide_True|by rewrite decide_False].
    + intros k1 c1 [Hin|Hin%list_elem_of_singleton]%elem_of_app; [by eapply I|]. injection Hin as -> ->.
      exists q. by split.
  - apply bool_decide_eq_true in Hg. destruct (si_open _ I k c Hg) as (q1 & Hq1 & Hc1). rewrite Hq in Hq1.
    injection Hq1 as <-. cbn [perform] in Hp.
    apply then_run in Hp as (r' & H & _). apply settle_run in H as (H1 & H2 & H3 & H4 & H5); [|apply owners_Commit|done].
    by eapply inv_put.
  - apply bool_decide_eq_true in Hg. destruct (si_open _ I k c Hg) as (q1 & Hq1 & Hc1). rewrite Hq in Hq1.
    injection Hq1 as <-. cbn [perform] in Hp.
    apply then_run in Hp as (r' & H & _). apply settle_run in H as (H1 & H2 & H3 & H4 & H5); [|apply owners_Abort|done].
    by eapply inv_put.
  - cbn [perform] in Hp. apply then_run in Hp as (r' & H & _). apply Close_run in H as [[Hc _]|(H1 & H2 & H3 & _ & r1 & H4 & H5)]; [cbn in Hc; congruence|].
    by eapply inv_close.
Qed.

Lemma reachable_inv r0 y : reachable r0 y -> sys_inv y.
Proof.
  induction 1 as [|y self reader _ IH Hself|y E k a y' _ IH Hlive Hs|y p _ IH].
  - split; try done. intros k c Hin. by apply elem_of_nil in Hin.
  - destruct IH as [I1 I2 I3 I4 I5 I6 I7].
    assert (Hcase : forall k q, (sys_handles y ++ [newQueue self reader]) !! k = Some q ->
      sys_handles y !! k = Some q \/ (k = List.length (sys_handles y) /\ q = newQueue self reader)).
    { intros k q H. apply lookup_app_Some in H as [H|[Hk H]]; [by left|]. right.
      apply list_lookup_singleton_Some in H as [H1 <-]. split; [lia|done]. }
    assert (Hnone : slots_held (List.length (sys_handles y)) (sys_claims y) = []).
    { unfold slots_held. rewrite list_filter_none; [done|]. intros [k c] Hin. cbn. intros ->.
      destruct (I6 _ _ Hin) as (q & Hq & _). apply lookup_lt_Some in Hq. lia. }
    split; cbn [sys_ring sys_handles sys_claims].
    + intros k q [H|[-> ->]]%Hcase; [by eapply I1|done].
    + intros k q [H|[-> ->]]%Hcase; [by apply I2|]. by rewrite Hnone.
    + intros k q [H|[-> ->]]%Hcase; [by eapply I3|constructor].
    + intros k q i [H|[-> ->]]%Hcase; [by eapply I4|]. by intros ?%elem_of_nil.
    + intros k k' q q' Hne [H|[-> ->]]%Hcase [H'|[-> ->]]%Hcase i Hi Hi';
        [by eapply (I5 k k')|by apply elem_of_nil in Hi'|by apply elem_of_nil in Hi|done].
    + intros k c Hin. destruct (I6 k c Hin) as (q & Hq & Hc). exists q. split; [by apply lookup_app_l_Some|done].
    + intros k q [H|[-> ->]]%Hcase; [by eapply I7|done].
  - by eapply sys_step_inv.
  - by apply sys_die_inv.
Qed.

Lemma held_slot k c l : (k, c) ∈ l -> c_slot c ∈ slots_held k l.
Proof.
  intros Hin. apply list_elem_of_fmap. exists (k, c). split; [done|]. by apply list_elem_of_filter.
Qed.

(** The slots of a handle are idle or held, never both and never twice. *)
Lemma held_nodup y k q :
  sys_inv y -> sys_handles y !! k = Some q -> NoDup (q_idle q ++ slots_held k (sys_claims y)).
Proof.
  intros I Hq. apply NoDup_ListNoDup. eapply Permutation_NoDup; [by apply (si_acct _ I k q)|].
  apply NoDup_ListNoDup. by eapply si_nodup.
Qed.

Lemma held_owned y k c :
  sys_inv y -> (k, c) ∈ sys_claims y ->
  exists q, sys_handles y !! k = Some q /\ c_slot c ∈ q_owned q /\ c_slot c ∉ q_idle q.
Proof.
  intros I Hin. destruct (si_open _ I k c Hin) as (q & Hq & _). exists q. split; [done|].
  pose proof (held_slot _ _ _ Hin) as Hs. split.
  - apply list_elem_of_In. eapply Permutation_in; [apply Permutation_sym, (si_acct _ I k q Hq)|].
    apply list_elem_of_In, elem_of_app. by right.
  - intros Hi. pose proof (held_nodup y k q I Hq) as Hnd. apply list.NoDup_app in Hnd as (_ & Hnd & _).
    by apply (Hnd (c_slot c)).
Qed.

(** Two claims at different places of the list have different slots. *)
Lemma held_apart y l1 l2 k k' c c' :
  sys_inv y -> sys_claims y = l1 ++ (k, c) :: l2 -> (k', c') ∈ l1 ++ l2 -> c_slot c <> c_slot c'.
Proof.
  intros I E Hin Heq. assert (Hc : (k, c) ∈ sys_claims y) by (rewrite E, elem_of_app, elem_of_cons; auto).
  assert (Hc' : (k', c') ∈ sys_claims y).
  { rewrite E, elem_of_app, elem_of_cons. apply elem_of_app in Hin as [?|?]; auto. }
  destruct (held_owned y k c I Hc) as (q & Hq & Ho & _), (held_owned y k' c' I Hc') as (q' & Hq' & Ho' & _).
  destruct (decide (k = k')) as [<-|Hne]; 
    [|apply (si_disjoint _ I k k' q q' Hne Hq Hq' (c_slot c)); [done|by rewrite Heq]].
  pose proof (held_nodup y k q I Hq) as Hnd. apply list.NoDup_app in Hnd as (_ & _ & Hnd).
  rewrite E, slots_held_app, slots_held_cons in Hnd. cbn [fst snd] in Hnd. rewrite decide_True in Hnd by done.
  apply list.NoDup_app in Hnd as (_ & H1 & H2). cbn in H2. apply list.NoDup_cons in H2 as [H2 _].
  apply elem_of_app in Hin as [Hin|Hin]; apply held_slot in Hin; rewrite <-Heq in Hin; [|done].
  apply (H1 _ Hin). by left.
Qed.

(** C12: however the handles of a queue are used, by any number of processes that may
    die between their calls, as long as only dead processes are reported dead: two claims that are in
    progress never share a slot of the ring; the slot of a claim belongs to the process
    of the handle that made it, and that handle does not hand it out again. *)
Theorem claims_own_slots (r0 : Ring) (y : system) :
  reachable r0 y ->
  (forall l1 l2 k k' c c', sys_claims y = l1 ++ (k, c) :: l2 -> (k', c') ∈ l1 ++ l2 -> c_slot c <> c_slot c') /\
  (forall k c, (k, c) ∈ sys_claims y ->
     exists q, sys_handles y !! k = Some q /\ owner (slot (sys_ring y) (c_slot c)) = q_self q /\
       c_slot c ∉ q_idle q).
Proof.
  intros I%reachable_inv. split; [intros; by eapply held_apart|]. intros k c Hin.
  destruct (held_owned y k c I Hin) as (q & Hq & Ho & Hi). exists q. split; [done|]. split; [|done].
  destruct (si_owner _ I k q (c_slot c) Hq Ho) as [Hr Hown].
  rewrite owner_lookup in Hown by lia. by injection Hown.
Qed.

(** Two processes with a handle each and a claim in progress each. *)
Definition demo_env : env := mkEnv (fun _ => false) (fun _ => true) false None.

Definition demo_queue_ring : Ring := set_hdr (with_consumer (randomID 3)) demo.

Definition after_steps (steps : list (nat * action)) (y : system) : system :=
  foldl (fun y ka => default y (sys_step demo_env (fst ka) (snd ka) y)) y steps.

Definition demo_handles : system :=
  mkSystem demo_queue_ring [newQueue (randomID 1) false; newQueue (randomID 2) false] [].

Definition demo_system : system := after_steps [(0%nat, AClaim 7 3); (1%nat, AClaim 8 5)] demo_handles.

Lemma demo_reachable steps :
  reachable demo_queue_ring (after_steps steps demo_handles).
Proof.
  assert (H0 : reachable demo_queue_ring demo_handles).
  { apply (ReachOpen _ (mkSystem demo_queue_ring [newQueue (randomID 1) false] [])); [|vm_compute; done].
    apply (ReachOpen _ (mkSystem demo_queue_ring [] [])); [apply ReachStart|vm_compute; done]. }
  revert H0. unfold after_steps. generalize demo_handles as y. induction steps as [|[k a] steps IH]; intros y Hy; [done|].
  cbn [foldl fst snd]. apply IH. destruct (sys_step demo_env k a y) as [y'|] eqn:Hs; [|done].
  apply (ReachStep _ y demo_env k a); done.
Qed.

Lemma claims_own_slots_witness :
  exists c c', sys_claims demo_system = [(0%nat, c); (1%nat, c')] /\ c_slot c <> c_slot c'.
Proof.
  destruct (claims_own_slots demo_queue_ring demo_system (demo_reachable _)) as [H _].
  destruct (sys_claims demo_system) as [|[k c] [|[k' c'] [|]]] eqn:E; try (vm_compute in E; discriminate).
  exists c, c'. specialize (H [] [(k', c')] k k' c c' eq_refl ltac:(left)). split; [|exact H].
  vm_compute in E. injection E as <- <- <- <-. reflexivity.
Defined.
