(* ===== verification/QueueFlow.v ===== *)
(** * What the calls of a queue handle return

    Receiving ends on any memory contents and skips the claims of dead producers;
    sends and receives through any number of handles are a first-in first-out queue;
    [park] hands on what its attempts return and leaves no waiter counted. *)

From Stdlib Require Import ZArith Lia Bool.
From coqutil Require Import Byte Word.LittleEndianList.
From stdpp Require Import base numbers list list_numbers option.
From S2P Require Import Prelude Ipc Ring RingInv RingSeq Recover Queue QueueThm.

#[local] Open Scope Z_scope.
#[local] Open Scope queue_scope.

(** ** Reads of any memory contents *)

(** The bytes between the cursors of a ring. *)
Definition available (r : Ring) : Z := tail (hdr r) -64 head (hdr r).

(** The length field at the reading cursor. *)
Definition front_length (r : Ring) : Z := loadLength r (Z.land (head (hdr r)) (mask r)).

(** What the reader relies on: the ring is one that [AttachRing] returns, of less than
    2 GiB, and the cursor that the reader alone stores is a multiple of eight. The other
    cursor is any word, and the records and the slots hold anything. *)
Record readable (r : Ring) : Prop := {
  rd_ok : ring_ok r;
  rd_max : zlen (data r) < 2 ^ 31;
  rd_head : 0 <= head (hdr r) < 2 ^ 64;
  rd_tail : 0 <= tail (hdr r) < 2 ^ 64;
  rd_align : head (hdr r) mod 8 = 0 }.

Lemma u64_mod8 x : u64 x mod 8 = x mod 8.
Proof.
  unfold u64. apply Z.mod_mod_divide. exists (2 ^ 61). reflexivity.
Qed.

Lemma align_mod8 n : align n mod 8 = 0.
Proof.
  unfold align, recordAlignment. rewrite u64_mod8, <-Z.ldiff_land. change (8 - 1) with (Z.ones 3).
  rewrite Z.ldiff_ones_r by lia. rewrite Z.shiftl_mul_pow2 by lia. by apply Z.mod_mul.
Qed.

Lemma read_pass_step left_ index r r' step msg :
  read_pass left_ index r = Record_ r' step msg -> step mod 8 = 0.
Proof.
  unfold read_pass. case_match; [done|]. case_match; [done|]. intros [= _ <- _]. apply align_mod8.
Qed.

(** A read that reports no error moves the cursor forward by whole records. *)
Lemma read_loop_moves fuel limit hd av consumed out r res :
  ring_ok r -> zlen (data r) <= 2 ^ 31 -> 0 <= consumed <= av -> av < 2 ^ 64 -> consumed mod 8 = 0 ->
  read_loop fuel limit hd av consumed out r = Some res -> rd_err res = None ->
  ring_ok (rd_ring res) /\ zlen (data (rd_ring res)) = zlen (data r) /\
  tail (hdr (rd_ring res)) = tail (hdr r) /\
  exists n, consumed <= n <= av /\ n mod 8 = 0 /\
    head (hdr (rd_ring res)) = if 0 <? n then hd +64 n else head (hdr r).
Proof.
  revert consumed out r. induction fuel as [|fuel IH]; intros consumed out r Hok Hcap Hc Hav H8; cbn [read_loop]; [done|].
  assert (Hfin : forall res, Some (mkRead (if 0 <? consumed then set_hdr (with_head (hd +64 consumed)) r else r)
      out None) = Some res -> rd_err res = None ->
    ring_ok (rd_ring res) /\ zlen (data (rd_ring res)) = zlen (data r) /\
    tail (hdr (rd_ring res)) = tail (hdr r) /\
    exists n, consumed <= n <= av /\ n mod 8 = 0 /\
      head (hdr (rd_ring res)) = if 0 <? n then hd +64 n else head (hdr r)).
  { intros res' [= <-] _. cbn [rd_ring]. split; [case_match; [by destruct Hok|done]|]. split; [by case_match|].
    split; [by case_match|]. exists consumed. split; [lia|]. split; [done|by case_match]. }
  destruct ((zlen out <? limit) && (consumed <? av)) eqn:E; [|apply Hfin]. reflect_bools.
  rewrite index_ok, (u64_small (av - consumed)) by (done || lia).
  pose proof (read_pass_total (av - consumed) ((hd +64 consumed) mod zlen (data r)) r Hok Hcap
    ltac:(apply Z.mod_pos_bound; by apply ring_pos) ltac:(lia)) as Hp.
  pose proof (read_pass_step (av - consumed) ((hd +64 consumed) mod zlen (data r)) r) as Hs8.
  destruct (read_pass _ _ r) as [| |r' step msg]; [apply Hfin|by intros [= <-]|].
  destruct Hp as (Hs & Hh & Hok' & Hd & _). specialize (Hs8 _ _ _ eq_refl).
  rewrite (u64_small (consumed + step)) by lia. intros Hrun Herr.
  destruct (IH (consumed + step) (out ++ msg) r') as (R1 & R2 & R3 & n & R4 & R5 & R6); rewrite ?Hd; try done; try lia.
  { rewrite Z.add_mod, H8, Hs8 by lia. reflexivity. }
  rewrite Hd in R2. rewrite Hh in R3, R6. split_and!; try done. exists n. split; [lia|done].
Qed.

(** Every read ends; without an error it keeps the ring readable, and it passes a
    record when there is one that is committed at the cursor. *)
Lemma Read_moves limit r :
  readable r ->
  exists res, Read limit r = Some res /\ zlen (rd_out res) <= Z.max 0 limit /\
    match rd_err res with
    | Some e => e = ErrCorrupt
    | None => readable (rd_ring res) /\ zlen (data (rd_ring res)) = zlen (data r) /\
        exists n, 0 <= n <= available r /\ available (rd_ring res) = available r - n /\
          (0 < limit -> 0 < available r -> 0 < front_length r -> 8 <= n) /\
          (limit <= 0 -> rd_ring res = r)
    end.
Proof.
  intros [Hok Hmax Hh Ht H8]. pose proof (u64_range (tail (hdr r) - head (hdr r)) : 0 <= available r < 2 ^ 64) as Hav.
  unfold Read. destruct (Z.leb_spec limit 0) as [Hl|Hl].
  { eexists. split; [reflexivity|]. cbn. rewrite zlen_nil. split; [lia|]. split; [by split|]. split; [done|].
    exists 0. split_and!; lia || done. }
  destruct (read_loop_total (read_fuel (available r)) limit (head (hdr r)) (available r) 0 [] r)
    as (res & Hr & Ho & _ & _ & He); try done; try lia.
  { unfold read_fuel. rewrite Z.sub_0_r. pose proof (Z.div_pos (available r) 8). lia. }
  { unfold read_fuel. lia. }
  { rewrite zlen_nil. lia. }
  exists res. split; [exact Hr|]. split; [done|]. destruct (rd_err res) as [e|] eqn:Herr; [apply He|].
  assert (Hgo : exists n, (0 <= n <= available r /\ n mod 8 = 0 /\ (0 < available r -> 0 < front_length r -> 8 <= n)) /\
    ring_ok (rd_ring res) /\ zlen (data (rd_ring res)) = zlen (data r) /\ tail (hdr (rd_ring res)) = tail (hdr r) /\
    head (hdr (rd_ring res)) = if 0 <? n then head (hdr r) +64 n else head (hdr r)).
  { destruct (decide (0 < available r /\ 0 < front_length r)) as [[Hpos Hlen]|Hno].
    - unfold read_fuel in Hr. revert Hr. generalize (S (Z.to_nat (available r / 8))) as fuel. intros fuel Hr.
      cbn [read_loop] in Hr. rewrite zlen_nil in Hr.
      rewrite (proj2 (Z.ltb_lt _ _) Hl), (proj2 (Z.ltb_lt _ _) Hpos) in Hr. cbn [andb] in Hr.
      rewrite Z.add_0_r, Z.sub_0_r, !u64_small in Hr by lia. fold (front_length r) in Hr.
      pose proof (read_pass_total (available r) (Z.land (head (hdr r)) (mask r)) r Hok ltac:(lia)
        ltac:(rewrite index_ok by done; apply Z.mod_pos_bound; by apply ring_pos) ltac:(lia)) as Hp.
      pose proof (read_pass_step (available r) (Z.land (head (hdr r)) (mask r)) r) as Hs8.
      destruct (read_pass _ _ r) as [| |r' step msg] eqn:E; [|injection Hr as <-; discriminate Herr|].
      { exfalso. revert E. unfold read_pass. change (loadLength r (Z.land (head (hdr r)) (mask r))) with (front_length r).
        rewrite (proj2 (Z.leb_gt _ _) Hlen). cbv zeta. destruct (_ || _); discriminate. }
      destruct Hp as (Hs & Hh' & Hok' & Hd & _). specialize (Hs8 _ _ _ eq_refl).
      rewrite Z.add_0_l, (u64_small step) in Hr by lia.
      destruct (read_loop_moves _ limit (head (hdr r)) (available r) step _ r' res Hok' ltac:(lia) ltac:(lia) ltac:(lia) Hs8 Hr Herr)
        as (R1 & R2 & R3 & n & R4 & R5 & R6). rewrite Hh' in R3, R6. rewrite Hd in R2.
      exists n. split_and!; try done; lia.
    - destruct (read_loop_moves _ limit (head (hdr r)) (available r) 0 _ r res Hok ltac:(lia) ltac:(lia) ltac:(lia) eq_refl Hr Herr)
        as (R1 & R2 & R3 & n & R4 & R5 & R6). exists n. split_and!; try done; try lia; intros; lia. }
  destruct Hgo as (n & (Hn & Hn8 & Hadv) & R1 & R2 & R3 & R4).
  assert (Hhead : head (hdr (rd_ring res)) = u64 (head (hdr r) + n)).
  { rewrite R4. destruct (Z.ltb_spec 0 n); [done|]. replace (head (hdr r) + n) with (head (hdr r)) by lia.
    by rewrite u64_small. }
  split.
  { split; [done|lia| |lia|]; rewrite Hhead; [apply u64_range|]. rewrite u64_mod8, Z.add_mod, H8, Hn8 by lia. reflexivity. }
  split; [done|]. exists n. split; [lia|]. split; [|split; [done|lia]].
  unfold available in *. rewrite R3, Hhead. unfold u64 in *. rewrite Zminus_mod_idemp_r.
  replace (tail (hdr r) - (head (hdr r) + n)) with (tail (hdr r) - head (hdr r) - n) by lia.
  rewrite <-Zminus_mod_idemp_l. apply Z.mod_small. lia.
Qed.

(** ** The loop of [receive] *)

Lemma judge_end self isDead r at0 idxs dead end_ dead' e :
  judge self isDead r at0 idxs dead end_ = inr (dead', e) ->
  dead = [] \/ at0 < end_ < 2 ^ 64 -> dead' = [] \/ at0 < e < 2 ^ 64.
Proof.
  revert dead end_. induction idxs as [|i idxs IH]; intros dead end_; cbn [judge]; [by intros [= <- <-]|].
  case_match eqn:E1; [apply IH|]. do 3 (case_match; [done|]). intros Hj _. eapply IH; [exact Hj|]. right. reflect_bools.
  pose proof (u64_range (at_ (slot r i) + size_ (slot r i))). lia.
Qed.

Lemma clear_intents dead r :
  let r' := foldl (fun r idx => store_at idx noIntent r) r dead in
  data r' = data r /\ mask r' = mask r /\ head (hdr r') = head (hdr r) /\ tail (hdr r') = tail (hdr r) /\
  capacity (hdr r') = capacity (hdr r).
Proof.
  cbv zeta. revert r. induction dead as [|i dead IH]; intros r; [done|]. cbn [foldl].
  destruct (IH (store_at i noIntent r)) as (-> & -> & -> & -> & ->). done.
Qed.

(** A reclaimed claim is a committed record at the cursor. *)
Lemma reclaim_front idxs e dead r :
  readable r -> head (hdr r) < e < 2 ^ 64 ->
  let '(r', ok) := reclaim (mkStall (head (hdr r)) (front_length r) idxs) e dead r in
  ok = true /\ readable r' /\ available r' = available r /\ 0 < front_length r'.
Proof.
  intros [Hok Hmax Hh Ht H8] He. unfold reclaim, front_length. cbn [st_at st_length].
  pose proof (ring_pos r Hok) as Hpos. rewrite !index_ok, u64_Capacity by done.
  set (index := head (hdr r) mod zlen (data r)).
  pose proof (Z.mod_pos_bound (head (hdr r)) (zlen (data r)) Hpos) as Hi.
  pose proof (index_room (zlen (data r)) (head (hdr r)) Hpos (ok_dvd r Hok) H8) as Hroom.
  fold index in Hi, Hroom. rewrite !u64_small by lia.
  set (size := if _ <? _ then _ else _).
  assert (Hsize : 0 < size < 2 ^ 31) by (unfold size; destruct (Z.ltb_spec (zlen (data r) - index) (e - head (hdr r))); lia).
  unfold casLength. rewrite Z.eqb_refl. cbn [negb]. rewrite i32_small by lia.
  set (r2 := storeType index TypePadding (storeLength index size r)).
  assert (Hd2 : zlen (data r2) = zlen (data r)).
  { unfold r2. rewrite zlen_storeType, zlen_storeLength; rewrite ?zlen_storeLength; lia. }
  assert (Hlen : loadLength r2 index = size).
  { transitivity (loadLength (storeLength index size r) index); [|apply load_after_store; lia].
    pose proof (zlen_storeLength index size r ltac:(lia) ltac:(lia)) as Hz.
    unfold r2, loadLength, get_i32, get_u32, storeType. cbn [data set_data].
    rewrite sub_blit_disj; [done|rewrite ?zlen_put32; lia..]. }
  assert (Hgo : forall r3, data r3 = data r2 -> mask r3 = mask r -> head (hdr r3) = head (hdr r) ->
    tail (hdr r3) = tail (hdr r) -> capacity (hdr r3) = capacity (hdr r) ->
    true = true /\ readable r3 /\ available r3 = available r /\ 0 < loadLength r3 (Z.land (head (hdr r3)) (mask r3))).
  { intros r3 E1 E2 E3 E4 E5.
    assert (Hok3 : ring_ok r3) by (destruct Hok; split; rewrite ?E1, ?E2, ?E5, ?Hd2; done).
    split; [done|]. split; [split; rewrite ?E1, ?E3, ?E4, ?Hd2; done|]. split; [unfold available; by rewrite E3, E4|].
    rewrite index_ok, E1, E3, Hd2 by done. fold index. unfold loadLength in *. rewrite E1. lia. }
  case_match; [|by apply Hgo]. destruct (clear_intents dead r2) as (? & ? & ? & ? & ?). by apply Hgo.
Qed.

Lemma unstall_front self dead r :
  readable r ->
  let '(r', v) := unstall self dead r in
  readable r' /\ available r' = available r /\
  (v = Reclaimed true -> front_length r <= 0 /\ 0 < available r' /\ 0 < front_length r').
Proof.
  intros Hr. unfold unstall. unfold stalled. change (loadLength r _) with (front_length r).
  destruct (Z.eqb_spec (head (hdr r)) (tail (hdr r))) as [|Hne]; [split_and!; done|].
  destruct (Z.ltb_spec 0 (front_length r)) as [|Hlen]; [split_and!; done|]. cbn [st_at st_slots].
  destruct (judge _ _ _ _ _ _ _) as [v|[d e]] eqn:Hj; [split_and!; [done..|]|].
  { intros ->. exfalso. revert Hj. clear. generalize ([] : list Z) as dd. generalize 0 as ee.
    generalize (filter (fun idx => covers (slot r idx) (head (hdr r)) = true) (slot_range r)) as l.
    induction l as [|i l IH]; intros ee dd; cbn [judge]; [done|]. repeat case_match; try done; apply IH. }
  destruct (Z.eqb_spec (zlen d) 0) as [|Hd]; [split_and!; done|].
  destruct (judge_end _ _ _ _ _ _ _ _ _ Hj) as [->|He]; [by left|done|].
  pose proof (reclaim_front (filter (fun idx => covers (slot r idx) (head (hdr r)) = true) (slot_range r)) e d r Hr He) as Hrec.
  destruct (reclaim _ e d r) as [r' ok]. destruct Hrec as (-> & Hr' & Ha & Hf). split; [done|]. split; [done|].
  intros _. split; [done|]. split; [|done]. rewrite Ha. unfold available, u64.
  destruct Hr as [_ _ Hh Ht _]. pose proof (Z.mod_pos_bound (tail (hdr r) - head (hdr r)) (2 ^ 64) ltac:(lia)) as Hm.
  destruct (Z.eq_dec ((tail (hdr r) - head (hdr r)) mod 2 ^ 64) 0) as [E|]; [|lia].
  apply Z.mod_divide in E as [k Hk]; lia.
Qed.

(** What [receive] can return with [gone] of [peerErr]. *)
Definition receive_result (gone : option failure) (limit : Z) (res : failure + list delivery) : Prop :=
  match res with
  | inr out => 0 < zlen out <= limit
  | inl e => e = Of ErrCorrupt \/ e = CannotWatch \/ e = default (Of ErrEmpty) gone
  end.

Lemma wakeSenders_run s : exists l, wakeSenders s = Some (mkSt (s_q s) (s_ring s) (s_out s ++ l) (s_fn s), inr tt).
Proof.
  unfold wakeSenders, bind, get. destruct (0 <? _).
  - by eexists.
  - exists []. rewrite app_nil_r. by destruct s.
Qed.

Lemma watchProducer_run E id s :
  exists s', s_ring s' = s_ring s /\ (watchProducer E id s = Some (s', inr tt) \/ watchProducer E id s = Some (s', inl CannotWatch)).
Proof.
  unfold watchProducer, bind, get. repeat first [case_match | case_decide]; eexists; split;
    try (left; reflexivity); try (right; reflexivity); done.
Qed.

Lemma unstall_run E s :
  readable (s_ring s) ->
  exists s' res, unstall_ E s = Some (s', res) /\
    match res with
    | inl e => e = CannotWatch \/ e = Of ErrCorrupt
    | inr b => readable (s_ring s') /\ available (s_ring s') = available (s_ring s) /\
        (b = true -> front_length (s_ring s) <= 0 /\ 0 < available (s_ring s') /\ 0 < front_length (s_ring s'))
    end.
Proof.
  intros Hr. pose proof (unstall_front (q_self (s_q s)) (isDead E) (s_ring s) Hr) as Hu.
  unfold unstall_, bind at 1, get. destruct (unstall _ _ _) as [r' v]. unfold bind at 1, upd_ring.
  destruct Hu as (H1 & H2 & H3). destruct v as [|id| |b].
  - do 2 eexists. split; [reflexivity|]. done.
  - destruct (watchProducer_run E id (mkSt (s_q s) r' (s_out s) (s_fn s))) as (s' & Hs & [E1|E1]);
      unfold bind; rewrite E1; do 2 eexists; (split; [reflexivity|]).
    + rewrite Hs. done.
    + by left.
  - do 2 eexists. split; [reflexivity|]. by right.
  - do 2 eexists. split; [reflexivity|]. split; [done|]. split; [done|]. intros ->. by apply H3.
Qed.

(** The rounds that [receive] can still take. *)
Definition rounds_left (r : Ring) : Z := available r / 8 + if 0 <? front_length r then 1 else 2.

Lemma receive_loop_returns fuel E gone limit s :
  readable (s_ring s) -> rounds_left (s_ring s) <= Z.of_nat fuel ->
  exists s' res, receive_loop fuel E gone limit s = Some (s', res) /\ receive_result gone limit res.
Proof.
  revert s. induction fuel as [|fuel IH]; intros s Hr Hf.
  { exfalso. unfold rounds_left in Hf. pose proof (u64_range (tail (hdr (s_ring s)) - head (hdr (s_ring s)))) as Hu.
    fold (available (s_ring s)) in Hu. pose proof (Z.div_pos (available (s_ring s)) 8). case_match; lia. }
  destruct (Read_moves limit (s_ring s) Hr) as (res & Hread & Hout & Herr).
  cbn [receive_loop]. unfold bind at 1, get. unfold bind at 1, ring_read. rewrite Hread. cbn [rd_out rd_err].
  unfold bind at 1, get. unfold bind at 1. set (s1 := mkSt _ _ _ _). set (w := if _ =? _ then _ else _).
  assert (Hw : exists l, w s1 = Some (mkSt (s_q s1) (s_ring s1) (s_out s1 ++ l) (s_fn s1), inr tt)).
  { unfold w. destruct (_ =? _); [|apply wakeSenders_run]. exists []. rewrite app_nil_r. done. }
  destruct Hw as [l ->]. set (s2 := mkSt _ _ _ _). destruct (rd_err res) as [e|].
  { do 2 eexists. split; [reflexivity|]. left. by rewrite Herr. }
  destruct Herr as (Hr1 & Hd1 & n & Hn & Ha1 & Hadv & Hsame). destruct (rd_out res) as [|m ms].
  2:{ do 2 eexists. split; [reflexivity|]. cbn. rewrite zlen_cons in *. pose proof (zlen_nonneg ms). lia. }
  destruct (unstall_run E s2 Hr1) as (s3 & ur & Hu & Hres). unfold bind. rewrite Hu. destruct ur as [e|[]].
  - do 2 eexists. split; [reflexivity|]. cbn. tauto.
  - destruct Hres as (Hr3 & Ha3 & Hfront). destruct (Hfront eq_refl) as (Hf1 & Hpos & Hf3).
    apply IH; [done|]. change (s_ring s2) with (rd_ring res) in *. unfold rounds_left in *.
    rewrite (proj2 (Z.ltb_lt _ _) Hf3). rewrite Ha3, Ha1 in *.
    destruct (Z.ltb_spec 0 (front_length (s_ring s))) as [Hfl|Hfl].
    + destruct (Z_le_gt_dec limit 0) as [Hl|Hl]; [rewrite Hsame in Hf1 by done; lia|].
      specialize (Hadv ltac:(lia) ltac:(lia) Hfl).
      assert ((available (s_ring s) - n) / 8 <= available (s_ring s) / 8 + -1); [|lia].
      rewrite <-(Z.div_add _ (-1) 8) by lia. apply Z.div_le_mono; lia.
    + assert ((available (s_ring s) - n) / 8 <= available (s_ring s) / 8) by (apply Z.div_le_mono; lia). lia.
  - destruct gone as [e|]; do 2 eexists; (split; [reflexivity|]); cbn; tauto.
Qed.

(** C40: [receive] ends whatever the records, the writing cursor and the slots hold and
    whatever producers die, on an attached ring of less than 2 GiB whose reading cursor,
    which only the receiver stores, is a multiple of eight: it returns between one and
    [limit] messages, or [ErrCorrupt], a watch that failed, the reason why the far side is
    gone, or [ErrEmpty]. *)
Theorem receive_total (E : env) (limit : Z) (s : st) :
  readable (s_ring s) ->
  exists s' res, receive E limit s = Some (s', res) /\ receive_result (peerErr E) limit res.
Proof.
  intros Hr. unfold receive, bind, get. apply receive_loop_returns; [done|]. unfold rounds_left, receive_fuel, read_fuel.
  pose proof (u64_range (tail (hdr (s_ring s)) - head (hdr (s_ring s)))) as Hu. fold (available (s_ring s)) in *.
  pose proof (Z.div_pos (available (s_ring s)) 8). case_match; lia.
Qed.

(** ** Sends and receives through many handles *)

Lemma holds_hdr r r' msgs :
  holds r msgs -> data r' = data r -> mask r' = mask r -> capacity (hdr r') = capacity (hdr r) ->
  head (hdr r') = head (hdr r) -> tail (hdr r') = tail (hdr r) -> headCache (hdr r') = headCache (hdr r) ->
  holds r' msgs.
Proof.
  intros (segs & T & Hs) H1 H2 H3 H4 H5 H6. exists segs. split; [|done].
  eapply tiles_hdr; [exact T|done..|]. rewrite H6. apply T.
Qed.

(** Room for the cursors to advance, and a data region whose largest message has a
    length of 31 bits. *)
Definition send_room (r : Ring) : Prop := cursor_room r /\ zlen (data r) <= 2 ^ 31.

(** The messages and the room of [r] are those of [r']. *)
Definition same_messages (r r' : Ring) : Prop :=
  (forall msgs, holds r msgs -> holds r' msgs) /\ (send_room r -> send_room r').

Lemma same_messages_refl r : same_messages r r.
Proof. done. Qed.

Lemma same_messages_trans r1 r2 r3 : same_messages r1 r2 -> same_messages r2 r3 -> same_messages r1 r3.
Proof. intros [] []. split; auto. Qed.

Lemma same_messages_hdr r r' :
  data r' = data r -> mask r' = mask r -> capacity (hdr r') = capacity (hdr r) ->
  head (hdr r') = head (hdr r) -> tail (hdr r') = tail (hdr r) -> headCache (hdr r') = headCache (hdr r) ->
  same_messages r r'.
Proof.
  intros H1 H2 H3 H4 H5 H6. split; [intros msgs H; by eapply holds_hdr|]. unfold send_room, cursor_room.
  by rewrite H1, H5.
Qed.

Lemma same_messages_slot i f r : same_messages r (set_hdr (upd_slot i f) r).
Proof. by apply same_messages_hdr. Qed.

(** Calls that leave the messages alone and pass none. *)
Definition same_flow (s s' : st) : Prop := same_messages (s_ring s) (s_ring s') /\ s_fn s' = s_fn s.

#[export] Instance same_flow_frame : Frame same_flow.
Proof.
  split; [|done]. intros s1 s2 s3 [M1 F1] [M2 F2]. split; [by eapply same_messages_trans|congruence].
Qed.

Lemma flow_upd_ring f : (forall r, same_messages r (f r)) -> preserves same_flow (upd_ring f).
Proof. intros Hf s s' r [= <- _]. split; [apply Hf|done]. Qed.

Lemma flow_upd_queue f : preserves same_flow (upd_queue f).
Proof. by intros s s' r [= <- _]. Qed.
#[local] Hint Resolve flow_upd_queue : frame.

Lemma same_messages_take self i r : same_messages r (store_at i noIntent (store_owner i self r)).
Proof. eapply same_messages_trans; apply same_messages_slot. Qed.

Lemma flow_takeSlot E : preserves same_flow (takeSlot E).
Proof.
  intros s s' r. unfold takeSlot, bind at 1, get. destruct (unsnoc _) as [[idle slot]|]; [intros [= <- _]; done|].
  assert (Ha : same_messages (s_ring s) (acquireSlot (q_self (s_q s)) (isDead E) (s_ring s)).1).
  { unfold acquireSlot. pose proof (acquire_free_spec (q_self (s_q s)) (slot_range (s_ring s)) (s_ring s)) as Hf.
    destruct (acquire_free _ _ _) as [[r1 i]|]; [destruct Hf as (_ & _ & ->); apply same_messages_take|].
    pose proof (acquire_dead_spec (q_self (s_q s)) (head (hdr (s_ring s))) (isDead E) (slot_range (s_ring s)) (s_ring s)) as Hd.
    destruct (acquire_dead _ _ _ _ _) as [[r1 i]|]; [|done]. destruct Hd as (_ & _ & ->). apply same_messages_take. }
  destruct (acquireSlot _ _ _) as [r1 [i|e]]; intros [= <- _]; done.
Qed.

Lemma flow_Close : preserves same_flow Close.
Proof.
  unfold Close. frame.
  - apply flow_upd_ring. intros ring. case_match; [by apply same_messages_hdr|done].
  - apply flow_upd_ring. generalize (q_owned (s_q a)) as l. intros l ring. revert ring.
    induction l as [|i l IH]; intros ring; [done|]. cbn [foldl]. eapply same_messages_trans; [|apply IH].
    unfold dropSlot. case_match; [eapply same_messages_trans|]; apply same_messages_slot.
Qed.

(** A write with any arguments. *)
Lemma holds_tryWrite slot typ payload r msgs :
  holds r msgs -> send_room r -> 0 <= typ < 2 ^ 32 ->
  exists r' res, tryWrite 1 slot typ payload r = Some (r', res) /\
    holds r' (msgs ++ match res with None => [(typ, payload)] | Some _ => [] end).
Proof.
  intros Hh [Hcr Hmax] Ht. pose proof Hh as (segs & T & Hall & Hm). pose proof (zlen_nonneg payload).
  pose proof (ok_cap _ (t_ok _ _ _ T)) as Hcap.
  destruct (decide (typ = TypePadding)) as [->|Hne].
  { unfold tryWrite, tryClaim. rewrite Z.eqb_refl. do 2 eexists. split; [reflexivity|]. by rewrite app_nil_r. }
  destruct (Z_lt_le_dec (MaxMessageSize r) (zlen payload)) as [Hbig|Hfit].
  { unfold tryWrite, tryClaim. rewrite (proj2 (Z.eqb_neq _ _)) by done.
    rewrite (proj2 (Z.ltb_lt _ _) Hbig), orb_true_r. do 2 eexists. split; [reflexivity|]. by rewrite app_nil_r. }
  assert (Hlen : len_fits r (zlen payload)).
  { split; [lia|]. unfold MaxMessageSize in Hfit. rewrite Capacity_ok in Hfit by apply T.
    unfold MaxInt32, RecordHeaderSize in Hfit. pose proof (ring_pos r (t_ok _ _ _ T)).
    rewrite Z.quot_div_nonneg in Hfit by lia. pose proof (Z.mul_div_le (zlen (data r)) 2 ltac:(lia)).
    revert Hfit. destruct (Z.gtb_spec (zlen (data r) / 2 - 8) (2 ^ 31 - 1 - 8)); lia. }
  destruct (tryWrite_spec 1 slot typ payload r 0 segs T Hcr) as [(_ & r' & -> & T' & _)|(_ & ->)];
    [unfold typ_fits, TypePadding in *; lia|done|lia| |].
  - exists r', None. split; [done|]. rewrite <-Hm. by eapply holds_write; [| |unfold typ_fits, TypePadding in *; lia|].
  - do 2 eexists. split; [reflexivity|]. rewrite app_nil_r. by apply holds_release.
Qed.

Lemma write_flow E typ payload s s' r msgs :
  holds (s_ring s) msgs -> 0 <= typ < 2 ^ 32 -> send_room (s_ring s) ->
  write E typ payload s = Some (s', r) ->
  holds (s_ring s') (msgs ++ match r with inr _ => [(typ, payload)] | inl _ => [] end) /\ s_fn s' = s_fn s.
Proof.
  intros Hh Ht Hroom. unfold write.
  intros [(e & H1 & ->)|(s1 & [] & H1 & H)]%bind_run; destruct (preserves_checkPeer same_flow _ _ _ _ H1) as [[K1 R1] F1].
  { rewrite app_nil_r. auto. }
  apply bind_run in H as [(e & H2 & ->)|(s2 & slot & H2 & H)]; destruct (flow_takeSlot _ _ _ _ H2) as [[K2 R2] F2].
  { rewrite app_nil_r. split; [auto|congruence]. }
  apply attempt_run in H as (s3 & res & H3 & H). unfold ring_write in H3.
  destruct (holds_tryWrite slot typ payload (s_ring s2) msgs (K2 _ (K1 _ Hh)) (R2 (R1 Hroom)) Ht) as (r3 & err & E3 & Hh3).
  rewrite E3 in H3. destruct err as [e|]; injection H3 as <- <-; injection H as <- <-;
    (split; [exact Hh3|cbn; congruence]).
Qed.

(** A ring whose claims are all committed does not stall. *)
Lemma holds_stalled r msgs : holds r msgs -> stalled r = None.
Proof.
  intros (segs & T & Hall & _). pose proof (t_ok _ _ _ T) as Hok. unfold stalled. destruct segs as [|s rest].
  - pose proof (t_tail _ _ _ T) as Ht. rewrite segs_size_nil in Ht. destruct (Z.eqb_spec (head (hdr r)) (tail (hdr r))); [done|lia].
  - case_match; [done|]. assert (Hidx : Z.land (head (hdr r)) (mask r) = seg_index r 0 []).
    { unfold seg_index. rewrite index_ok, segs_size_nil, (ok_cap _ Hok) by done. f_equal. lia. }
    rewrite Hidx, (tiles_loadLength r 0 [] s rest T). inversion Hall as [|? ? Hs _]; subst.
    by rewrite (proj2 (Z.ltb_lt 0 (s_len s))) by lia.
Qed.

Lemma holds_Read limit r msgs :
  holds r msgs ->
  exists r', Read limit r = Some (mkRead r' (take (Z.to_nat limit) msgs) None) /\ holds r' (drop (Z.to_nat limit) msgs).
Proof.
  intros (segs & T & Hall & <-). destruct (Read_spec limit r segs T) as (r' & -> & T').
  rewrite (ready_committed segs Hall). eexists; split; [reflexivity|].
  destruct (after_read_committed (Z.to_nat limit) segs Hall). by exists (after_read (Z.to_nat limit) segs).
Qed.

(** [TryRecv] of the receiving handle takes the oldest message. *)
Lemma TryRecv_flow E s msgs :
  holds (s_ring s) msgs -> q_closing (s_q s) = false -> q_reader (s_q s) = true ->
  exists s', TryRecv_ E s = Some (s', match msgs with
      | [] => inl (default (Of ErrEmpty) (peerErr E)) | m :: _ => inr m end) /\
    holds (s_ring s') (drop 1 msgs) /\ s_fn s' = s_fn s ++ take 1 msgs.
Proof.
  intros Hh Hc Hq. unfold TryRecv_, reading, entered, bind at 1, get. rewrite Hc. unfold bind at 1. rewrite Hq.
  unfold recvOne, receive. unfold bind at 1 2, get. unfold receive_fuel. cbn [receive_loop].
  destruct (holds_Read 1 (s_ring s) msgs Hh) as (r' & Hr & Hh'). change (Z.to_nat 1) with 1%nat in *.
  unfold bind at 1, get. unfold bind at 1, ring_read. rewrite Hr. cbn [rd_ring rd_out rd_err].
  unfold bind at 1, get. unfold bind at 1. set (s1 := mkSt _ _ _ _). set (w := if _ =? _ then _ else _).
  assert (Hw : exists l, w s1 = Some (mkSt (s_q s1) (s_ring s1) (s_out s1 ++ l) (s_fn s1), inr tt)).
  { unfold w. destruct (_ =? _); [|apply wakeSenders_run]. exists []. rewrite app_nil_r. done. }
  destruct Hw as [l ->]. destruct msgs as [|m ms]; cbn [take firstn].
  - unfold bind at 1, unstall_. unfold bind at 1, get. unfold unstall. cbn [s_ring s1]. rewrite (holds_stalled r' _ Hh').
    cbn. destruct (peerErr E); eexists; (split; [reflexivity|]); cbn; rewrite ?app_nil_r; done.
  - eexists. split; [reflexivity|]. done.
Qed.

Lemma TryRecv_other E s :
  q_closing (s_q s) = true \/ q_reader (s_q s) = false ->
  exists e, TryRecv_ E s = Some (s, inl e).
Proof.
  unfold TryRecv_, reading, entered, bind, get. destruct (q_closing (s_q s)); [by eexists|].
  intros [?| ->]; [done|by eexists].
Qed.

(** The handles on one ring that send with [TrySend] and receive with [TryRecv];
    [sent] are the messages that were accepted and [got] the ones that were
    received, in their order. *)
Definition with_handle (k : nat) (s : st) (y : system) : system :=
  mkSystem (s_ring s) (<[k := s_q s]> (sys_handles y)) [].

Inductive flow (r0 : Ring) : system -> list delivery -> list delivery -> Prop :=
| FlowStart : flow r0 (mkSystem r0 [] []) [] []
| FlowOpen y sent got self reader :
    flow r0 y sent got ->
    flow r0 (mkSystem (sys_ring y) (sys_handles y ++ [newQueue self reader]) []) sent got
| FlowSend y sent got E k q typ payload s r :
    flow r0 y sent got -> sys_handles y !! k = Some q -> send_room (sys_ring y) -> 0 <= typ < 2 ^ 32 ->
    TrySendTyped E typ payload (mkSt q (sys_ring y) [] []) = Some (s, r) ->
    flow r0 (with_handle k s y) (sent ++ match r with inr _ => [(typ, payload)] | inl _ => [] end) got
| FlowRecv y sent got E k q s r :
    flow r0 y sent got -> sys_handles y !! k = Some q ->
    TryRecv_ E (mkSt q (sys_ring y) [] []) = Some (s, r) ->
    flow r0 (with_handle k s y) sent (got ++ match r with inr m => [m] | inl _ => [] end)
| FlowExit y sent got k q id err s r :
    flow r0 y sent got -> sys_handles y !! k = Some q ->
    peerExited id err (mkSt q (sys_ring y) [] []) = Some (s, r) \/
    producerExited id err (mkSt q (sys_ring y) [] []) = Some (s, r) ->
    flow r0 (with_handle k s y) sent got
| FlowClose y sent got k q s r :
    flow r0 y sent got -> sys_handles y !! k = Some q ->
    Close (mkSt q (sys_ring y) [] []) = Some (s, r) -> flow r0 (with_handle k s y) sent got
| FlowDie y sent got p : flow r0 y sent got -> flow r0 (sys_die p y) sent got.

Lemma TrySend_flow E typ payload s s' r msgs :
  holds (s_ring s) msgs -> 0 <= typ < 2 ^ 32 -> send_room (s_ring s) ->
  TrySendTyped E typ payload s = Some (s', r) ->
  holds (s_ring s') (msgs ++ match r with inr _ => [(typ, payload)] | inl _ => [] end).
Proof.
  intros Hh Ht Hroom. unfold TrySendTyped, entered, bind at 1, get. case_match.
  { intros [= <- <-]. by rewrite app_nil_r. }
  intros [(e & Hw & ->)|(s1 & [] & H1 & H2)]%bind_run; [by eapply write_flow in Hw as [? _]|].
  eapply write_flow in H1 as [Hh1 _]; [|done..]. destruct (preserves_wakeReceiver same_flow _ _ _ H2) as [[K _] _].
  replace (match r with inr _ => [(typ, payload)] | inl _ => [] end) with [(typ, payload)]; [by apply K|].
  revert H2. unfold wakeReceiver, bind, get. case_match; by intros [= _ <-].
Qed.

Lemma flow_holds r0 y sent got :
  holds r0 [] -> flow r0 y sent got -> exists rest, sent = got ++ rest /\ holds (sys_ring y) rest.
Proof.
  intros H0. induction 1 as [|y sent got self reader _ IH|y sent got E k q typ payload s r _ (rest & -> & Hh) Hq Hroom Ht Hs
    |y sent got E k q s r _ (rest & -> & Hh) Hq Hr|y sent got k q id err s r _ (rest & -> & Hh) Hq He
    |y sent got k q s r _ (rest & -> & Hh) Hq Hc|y sent got p _ IH]; [by exists []|done| | | | |done].
  - eexists. rewrite <-app_assoc. split; [done|]. eapply (TrySend_flow E typ payload (mkSt q (sys_ring y) [] [])); done.
  - destruct (q_closing q) eqn:Hc; [|destruct (q_reader q) eqn:Hrd].
    1,3: destruct (TryRecv_other E (mkSt q (sys_ring y) [] [])) as [e He]; [cbn; auto|];
      rewrite He in Hr; injection Hr as <- <-; exists rest; by rewrite app_nil_r.
    destruct (TryRecv_flow E (mkSt q (sys_ring y) [] []) rest Hh Hc Hrd) as (s' & Hr' & Hh' & _).
    rewrite Hr' in Hr. injection Hr as <- <-. exists (drop 1 rest). split; [|done].
    rewrite <-app_assoc. f_equal. by destruct rest.
  - exists rest. split; [done|]. destruct He as [He|He];
      [destruct (preserves_peerExited same_flow _ _ _ _ _ He) as [[K _] _]|destruct (preserves_producerExited same_flow _ _ _ _ _ He) as [[K _] _]];
      by apply K.
  - exists rest. split; [done|]. destruct (flow_Close _ _ _ Hc) as [[K _] _]. by apply K.
Qed.

(** C14: handles of any processes on one ring, that send and receive without waiting,
    are a first-in first-out queue: the messages received are the messages accepted,
    in their order, up to the ones that wait; the receiving handle takes the oldest of
    those, and reports an empty queue only when there is none. Closes, exits and deaths
    of the handles in between change nothing. *)
Theorem handles_fifo (r0 : Ring) (y : system) (sent got : list delivery) :
  holds r0 [] -> flow r0 y sent got ->
  exists rest, sent = got ++ rest /\
    forall E q, q ∈ sys_handles y -> q_closing q = false -> q_reader q = true ->
      exists s, TryRecv_ E (mkSt q (sys_ring y) [] []) = Some (s, match rest with
        | [] => inl (default (Of ErrEmpty) (peerErr E)) | m :: _ => inr m end).
Proof.
  intros H0 Hf. destruct (flow_holds r0 y sent got H0 Hf) as (rest & -> & Hh). exists rest. split; [done|].
  intros E q _ Hc Hr. destruct (TryRecv_flow E (mkSt q (sys_ring y) [] []) rest Hh Hc Hr) as (s & Hs & _). by exists s.
Qed.

(** ** The calls that wait *)

Definition count_of (w : side) (r : Ring) : Z :=
  match w with Receivers => recvWaiters (hdr r) | Senders => sendWaiters (hdr r) end.

(** Calls that do not touch the counters of parked callers. *)
Definition same_counts (s s' : st) : Prop := forall w, count_of w (s_ring s') = count_of w (s_ring s).

#[export] Instance same_counts_frame : Frame same_counts.
Proof. split; [|done]. intros s1 s2 s3 H1 H2 w. by rewrite H2. Qed.

Lemma add_waiters_run w n s :
  exists s', add_waiters w n s = Some (s', inr tt) /\ count_of w (s_ring s') = i32 (count_of w (s_ring s) + n).
Proof. eexists. split; [reflexivity|]. by destruct w. Qed.

Lemma count_back x : - 2 ^ 31 <= x < 2 ^ 31 -> i32 (i32 (x + 1) + -1) = x.
Proof.
  intros Hx. destruct (Z.eq_dec x (2 ^ 31 - 1)) as [->|Hne]; [reflexivity|].
  rewrite (i32_small (x + 1)) by lia. rewrite i32_small by lia. lia.
Qed.

(** What one round of [park] does: its attempts, and the counter around the second. *)
Definition round_ok (w : side) (rd : round) : Prop :=
  forall m, m = first rd \/ m = second rd \/ m = third rd ->
    forall r, count_of w (others m r) = count_of w r.

Lemma attempt_at_run {A} w (attempt : env -> M A) m s s' (r : failure + (failure + A)) :
  (forall E, preserves same_counts (attempt E)) -> (forall r, count_of w (others m r) = count_of w r) ->
  attempt_at attempt m s = Some (s', r) ->
  count_of w (s_ring s') = count_of w (s_ring s) /\ exists a, r = inr a /\
    attempt (now m) (mkSt (s_q s) (others m (s_ring s)) (s_out s) (s_fn s)) = Some (s', a).
Proof.
  intros Hu Ho. unfold attempt_at, bind, upd_ring, attempt_. destruct (attempt (now m) _) as [[s1 a]|] eqn:E; [|done].
  intros [= <- <-]. split; [|eauto]. rewrite (Hu _ _ _ _ E w). cbn. apply Ho.
Qed.

(** The accesses to the ring leave the counters and the name of the receiver alone. *)
Definition counts (r : Ring) : Z * Z * Z := (recvWaiters (hdr r), sendWaiters (hdr r), consumer (hdr r)).

Lemma same_counts_of s s' : counts (s_ring s') = counts (s_ring s) -> same_counts s s'.
Proof. intros [= H1 H2 _] []; done. Qed.

Lemma counts_tryClaim slot typ length r r' res : tryClaim 1 slot typ length r = Some (r', res) -> counts r' = counts r.
Proof.
  assert (Hpass : forall n, match claim_pass slot n r with Retry => True | Full r' | Claimed r' _ => counts r' = counts r end).
  { intros n. unfold claim_pass, claim_take, release. destruct (hasRoom _ _ _ _); cbn [negb];
      [|destruct (_ <? _); [done|destruct (hasRoom _ _ _ _); cbn [negb]]]; destruct (0 <=? slot);
      try destruct (negb _); done. }
  unfold tryClaim. case_match; [by intros [= <- _]|]. case_match; [by intros [= <- _]|]. cbn [claim_loop].
  specialize (Hpass (align (i32 (RecordHeaderSize + length)))).
  destruct (claim_pass _ _ _); [done| |]; intros [= <- _]; done.
Qed.

Lemma counts_tryWrite slot typ payload r r' res : tryWrite 1 slot typ payload r = Some (r', res) -> counts r' = counts r.
Proof.
  unfold tryWrite. destruct (tryClaim _ _ _ _ _) as [[r1 [c|e]]|] eqn:H; [| |done]; apply counts_tryClaim in H;
    intros [= <- _]; [|done]. rewrite <-H. unfold Commit, release. by case_match.
Qed.

Lemma counts_Read limit r res : Read limit r = Some res -> counts (rd_ring res) = counts r.
Proof.
  assert (Hloop : forall fuel hd av consumed out r res,
    read_loop fuel limit hd av consumed out r = Some res -> counts (rd_ring res) = counts r).
  { induction fuel as [|fuel IH]; intros hd av consumed out r0 res0; cbn [read_loop]; [done|].
    assert (Hfin : forall res, Some (mkRead (if 0 <? consumed then set_hdr (with_head (hd +64 consumed)) r0 else r0) out None)
      = Some res -> counts (rd_ring res) = counts r0) by (intros res1 [= <-]; by destruct (0 <? consumed)).
    destruct ((zlen out <? limit) && (consumed <? av)); [|apply Hfin]. unfold read_pass.
    destruct (_ <=? 0); [apply Hfin|]. cbv zeta. destruct (_ || _); [by intros [= <-]|]. by intros Hr%IH. }
  unfold Read. destruct (limit <=? 0); [by intros [= <-]|apply Hloop].
Qed.

Lemma counts_unstall self dead r : counts (unstall self dead r).1 = counts r.
Proof.
  unfold unstall. destruct (stalled r) as [st|]; [|done]. destruct (judge _ _ _ _ _ _ _) as [v|[d e]]; [done|].
  case_match; [done|]. unfold reclaim, casLength. destruct (loadLength r _ =? _); cbn [negb]; [|done].
  assert (Hfold : forall l r0, counts (foldl (fun r idx => store_at idx noIntent r) r0 l) = counts r0).
  { induction l as [|x l IH]; intros r0; [done|]. cbn. by rewrite IH. }
  case_match; [|done]. cbn [fst]. by rewrite Hfold.
Qed.

Lemma counts_acquireSlot self dead r : counts (acquireSlot self dead r).1 = counts r.
Proof.
  unfold acquireSlot. pose proof (acquire_free_spec self (slot_range r) r) as Hf.
  destruct (acquire_free _ _ _) as [[r1 i]|]; [by destruct Hf as (_ & _ & ->)|].
  pose proof (acquire_dead_spec self (head (hdr r)) dead (slot_range r) r) as Hd.
  destruct (acquire_dead _ _ _ _ _) as [[r1 i]|]; [by destruct Hd as (_ & _ & ->)|done].
Qed.

Lemma counts_takeSlot E : preserves same_counts (takeSlot E).
Proof.
  intros s s' r. unfold takeSlot, bind at 1, get. destruct (unsnoc _) as [[idle slot]|]; [by intros [= <- _]|].
  pose proof (counts_acquireSlot (q_self (s_q s)) (isDead E) (s_ring s)) as Ha.
  destruct (acquireSlot _ _ _) as [r1 [i|e]]; intros [= <- _]; by apply same_counts_of.
Qed.

Lemma counts_upd_queue f : preserves same_counts (upd_queue f).
Proof. by intros s s' r [= <- _]. Qed.

Lemma counts_ring_write slot typ payload : preserves same_counts (ring_write slot typ payload).
Proof.
  intros s s' r. unfold ring_write. destruct (tryWrite _ _ _ _ _) as [[r1 [e|]]|] eqn:H; [| |done];
    apply counts_tryWrite in H; intros [= <- _]; by apply same_counts_of.
Qed.

Lemma counts_ring_claim slot typ length : preserves same_counts (ring_claim slot typ length).
Proof.
  intros s s' r. unfold ring_claim. destruct (tryClaim _ _ _ _ _) as [[r1 [c|e]]|] eqn:H; [| |done];
    apply counts_tryClaim in H; intros [= <- _]; by apply same_counts_of.
Qed.

Lemma counts_receive E limit : preserves same_counts (receive E limit).
Proof.
  apply preserves_receive; [apply _| |].
  - intros l s s' r. unfold ring_read. destruct (Read l (s_ring s)) as [res|] eqn:H; [|done].
    apply counts_Read in H. intros [= <- _]. by apply same_counts_of.
  - apply preserves_unstall; [apply _|]. intros s. apply same_counts_of, counts_unstall.
Qed.
#[local] Hint Resolve counts_takeSlot counts_upd_queue counts_ring_write counts_ring_claim counts_receive : frame.

(** What the calls that wait attempt. *)
Lemma counts_attempts E typ payload length limit :
  preserves same_counts (send_attempt E typ payload) /\ preserves same_counts (claim_attempt E typ length) /\
  preserves same_counts (recvOne E) /\ preserves same_counts (receive E limit).
Proof.
  unfold send_attempt, claim_attempt, write, claim, recvOne, putSlot. split_and!; frame.
Qed.

Lemma park_result {A} w blocked (attempt : env -> M A) rounds s s' (res : failure + A) :
  (forall E, preserves same_counts (attempt E)) -> Forall (round_ok w) rounds ->
  - 2 ^ 31 <= count_of w (s_ring s) < 2 ^ 31 -> park w blocked attempt rounds s = Some (s', res) ->
  count_of w (s_ring s') = count_of w (s_ring s) /\
  (is_blocked blocked res = false \/ exists rd e, rd ∈ rounds /\ woken rd = Some e /\ res = inl e).
Proof.
  intros Hu. revert s. induction rounds as [|rd rounds IH]; intros s Hall Hc; cbn [park]; [done|].
  apply list.Forall_cons in Hall as [Hrd Hall].
  intros [(e & H1 & _)|(s1 & r1 & H1 & H)]%bind_run; eapply attempt_at_run in H1 as [C1 (a1 & Ea & _)];
    [done|done|apply Hrd; auto|injection Ea as <-|done|apply Hrd; auto].
  destruct (is_blocked blocked r1) eqn:B1; cbn [negb] in H.
  2:{ destruct r1 as [e|a]; injection H as <- <-; auto. }
  destruct (add_waiters_run w 1 s1) as (s2 & E2 & C2). unfold bind at 1 in H. rewrite E2 in H.
  apply bind_run in H as [(e & H3 & _)|(s3 & r3 & H3 & H)]; eapply attempt_at_run in H3 as [C3 (a3 & Ea & _)];
    [done|done|apply Hrd; auto|injection Ea as <-|done|apply Hrd; auto].
  assert (Hback : forall s4, count_of w (s_ring s4) = count_of w (s_ring s3) -> exists s5,
    add_waiters w (-1) s4 = Some (s5, inr tt) /\ count_of w (s_ring s5) = count_of w (s_ring s)).
  { intros s4 C4. destruct (add_waiters_run w (-1) s4) as (s5 & E5 & C5). exists s5. split; [done|].
    rewrite C5, C4, C3, C2, C1. by apply count_back. }
  destruct (is_blocked blocked r3) eqn:B3; cbn [negb] in H.
  2:{ destruct (Hback s3 eq_refl) as (s4 & E4 & C4). unfold bind in H. rewrite E4 in H.
      destruct r3 as [e|a]; injection H as <- <-; auto. }
  unfold bind at 1, upd_ring in H. set (s4 := mkSt _ _ _ _) in H.
  destruct (Hback s4) as (s5 & E5 & C5); [cbn; apply Hrd; auto|]. unfold bind at 1 in H. rewrite E5 in H.
  destruct (woken rd) as [e|] eqn:Hw.
  - assert (Hend : forall s6 : st, count_of w (s_ring s6) = count_of w (s_ring s) ->
      count_of w (s_ring s6) = count_of w (s_ring s) /\ (is_blocked blocked (inl e : failure + A) = false \/
        exists rd0 e0, rd0 ∈ rd :: rounds /\ woken rd0 = Some e0 /\ (inl e : failure + A) = inl e0)).
    { intros s6 C6. split; [done|]. right. exists rd, e. split; [by left|done]. }
    destruct (decide (e = Of ErrPeerGone)); [|injection H as <- <-; by apply Hend].
    apply attempt_run in H as (s6 & r6 & H6 & H). pose proof (Hu _ _ _ _ H6 w) as C6. rewrite C5 in C6.
    destruct (is_blocked blocked r6) eqn:B6; cbn [negb] in H; [injection H as <- <-; by apply Hend|].
    destruct r6 as [e6|a]; injection H as <- <-; auto.
  - destruct (IH s5 Hall ltac:(lia) H) as [C6 Hres]. split; [congruence|].
    destruct Hres as [|(rd' & e & Hin & ?)]; [by left|]. right. exists rd', e. split; [by right|done].
Qed.

(** A wait that ends the call ends it: [park] returns when its attempts do and a wait
    reports an error. *)
Lemma park_ends {A} w blocked (attempt : env -> M A) rounds s :
  (forall E s, attempt E s <> None) -> (exists rd e, rd ∈ rounds /\ woken rd = Some e) ->
  exists s' res, park w blocked attempt rounds s = Some (s', res).
Proof.
  intros Ht (rd0 & e0 & Hin & Hw). revert s. induction rounds as [|rd rounds IH]; intros s; [by apply elem_of_nil in Hin|].
  assert (Hrun : forall E s, exists s' r, attempt E s = Some (s', r)).
  { intros E s1. specialize (Ht E s1). destruct (attempt E s1) as [[s2 r]|]; [eauto|done]. }
  assert (Hre : forall (r : failure + A) s, exists s' res, rethrow r s = Some (s', res)) by (intros [] ?; do 2 eexists; reflexivity).
  cbn [park]. unfold attempt_at, bind, upd_ring, add_waiters, attempt_, upd_ring.
  destruct (Hrun (now (first rd)) (mkSt (s_q s) (others (first rd) (s_ring s)) (s_out s) (s_fn s))) as (s1 & r1 & ->).
  destruct (negb (is_blocked blocked r1)); [apply Hre|].
  match goal with |- context [attempt (now (second rd)) ?x] => destruct (Hrun (now (second rd)) x) as (s2 & r2 & ->) end.
  destruct (negb (is_blocked blocked r2)); [apply Hre|]. destruct (woken rd) as [e|] eqn:He.
  - destruct (decide (e = Of ErrPeerGone)); [|do 2 eexists; reflexivity].
    match goal with |- context [attempt (now (third rd)) ?x] => destruct (Hrun (now (third rd)) x) as (s3 & r3 & ->) end.
    destruct (negb _); [apply Hre|do 2 eexists; reflexivity].
  - apply IH. apply elem_of_cons in Hin as [->|]; [congruence|done].
Qed.

(** What others do during the rounds leaves the counter of [w] as they found it, and
    no wait returns [blocked]. *)
Definition rounds_ok (w : side) (blocked : failure) (rounds : list round) : Prop :=
  Forall (round_ok w) rounds /\ Forall (fun rd => woken rd <> Some blocked) rounds.

(** A call ended with the counter of [w] as it was, and not with [blocked]. *)
Definition settled_call {A} (w : side) (blocked : failure) (m : M A) (s : st) : Prop :=
  forall s' res, m s = Some (s', res) ->
    count_of w (s_ring s') = count_of w (s_ring s) /\ res <> inl blocked.

Lemma park_settles {A} w blocked (attempt : env -> M A) rounds s :
  (forall E, preserves same_counts (attempt E)) -> rounds_ok w blocked rounds ->
  - 2 ^ 31 <= count_of w (s_ring s) < 2 ^ 31 -> settled_call w blocked (park w blocked attempt rounds) s.
Proof.
  intros Hu [Hr Hw] Hc s' res H. destruct (park_result w blocked attempt rounds s s' res Hu Hr Hc H) as [Hcount Hres].
  split; [done|]. intros ->. destruct Hres as [Hb|(rd & e & Hin & He & [= ->])].
  - cbn in Hb. by rewrite bool_decide_true in Hb.
  - rewrite Forall_forall in Hw. apply (Hw rd); [by apply list_elem_of_In|done].
Qed.

Lemma settled_entered {A} w blocked (m : M A) s :
  blocked <> Of ErrClosed -> settled_call w blocked m s -> settled_call w blocked (entered m) s.
Proof.
  intros Hne Hm s' res. unfold entered, bind, get. case_match; [|apply Hm]. intros [= <- <-]. split; [done|congruence].
Qed.

Lemma settled_reading {A} w blocked (m : M A) s :
  blocked <> Of ErrClosed -> blocked <> Of ErrNotConsumer -> settled_call w blocked m s ->
  settled_call w blocked (reading m) s.
Proof.
  intros Hne Hn Hm. apply settled_entered; [done|]. intros s' res. unfold bind, get. case_match; [apply Hm|].
  intros [= <- <-]. split; [done|congruence].
Qed.

(** The end of [SendTyped] and of [Claim]. *)
Lemma settled_send {A B} w (m : M A) (k : A -> M B) s :
  settled_call w (Of ErrFull) m s -> (forall a s s' res, k a s = Some (s', res) -> same_counts s s' /\ res <> inl (Of ErrFull)) ->
  settled_call w (Of ErrFull) (do r <- attempt_ m in
    match r with inl e => do e <- sawPeerGone e in throw e | inr a => k a end) s.
Proof.
  intros Hm Hk s' res (s1 & r & H1 & H)%attempt_run. destruct (Hm s1 r H1) as [C1 Hne]. rewrite <-C1.
  destruct r as [e|a]; [|by destruct (Hk _ _ _ _ H)].
  apply bind_run in H as [(e' & H & ->)|(s2 & e' & H & [= <- <-])];
    pose proof (preserves_sawPeerGone same_counts _ _ _ _ H w) as C2; (split; [exact C2|]);
    revert H; unfold sawPeerGone, bind, upd_queue, ret; intros H.
  - by repeat case_decide.
  - assert (e' = e \/ e' = Of ErrPeerGone) as [-> | ->] by (repeat case_decide; injection H as _ <-; auto); congruence.
Qed.

(** the calls that wait, [Send], [Claim], [Recv] and [ReadBatch], leave no waiter
    counted, and return [ErrFull] or [ErrEmpty] never, however the others act in
    between. *)
Theorem waits_settle (rounds : list round) (typ length limit : Z) (payload : list byte) (s : st) :
  - 2 ^ 31 <= sendWaiters (hdr (s_ring s)) < 2 ^ 31 -> - 2 ^ 31 <= recvWaiters (hdr (s_ring s)) < 2 ^ 31 ->
  (rounds_ok Senders (Of ErrFull) rounds ->
     settled_call Senders (Of ErrFull) (SendTyped rounds typ payload) s /\
     settled_call Senders (Of ErrFull) (Claim_ rounds typ length) s) /\
  (rounds_ok Receivers (Of ErrEmpty) rounds ->
     settled_call Receivers (Of ErrEmpty) (RecvInto rounds) s /\
     settled_call Receivers (Of ErrEmpty) (ReadBatch rounds limit) s).
Proof.
  intros Hs Hr. pose proof (fun E => counts_attempts E typ payload length limit) as Hu. split; intros Hok; split.
  - apply settled_entered; [done|]. apply settled_send; [apply park_settles; [apply Hu|done..]|].
    intros [] s0 s1 res H. split; [by eapply (preserves_wakeReceiver same_counts)|].
    revert H. unfold wakeReceiver, bind, get. case_match; by intros [= _ <-].
  - apply settled_entered; [done|]. apply settled_send; [apply park_settles; [apply Hu|done..]|].
    intros c s0 s1 res [= <- <-]. done.
  - apply settled_reading; [done..|]. apply park_settles; [apply Hu|done..].
  - apply settled_reading; [done..|]. apply park_settles; [apply Hu|done..].
Qed.

(** ** Witnesses *)

(** A receiver and a sender on one ring. *)
Definition demo_two : list Queue := [newQueue (randomID 3) true; newQueue (randomID 1) false].

Lemma demo_queue_holds : holds demo_queue_ring [].
Proof. eapply holds_hdr; [apply demo_holds|done..]. Qed.

(** The state after a call, and its result. *)
Definition run {A} (m : M A) (q : Queue) (y : system) : st * (failure + A) :=
  default (mkSt q (sys_ring y) [] [], inl NotExist) (m (mkSt q (sys_ring y) [] [])).

Lemma run_ok {A} (m : M A) q y a :
  (run m q y).2 = inr a -> m (mkSt q (sys_ring y) [] []) = Some ((run m q y).1, inr a).
Proof. unfold run. destruct (m _) as [[s r]|]; cbn; [by intros ->|done]. Qed.

Definition flow_demo0 : system := mkSystem demo_queue_ring demo_two [].
Definition flow_demo1 : system :=
  with_handle 1 (run (TrySendTyped demo_env 0 [Byte.x01; Byte.x02]) (newQueue (randomID 1) false) flow_demo0).1 flow_demo0.
Definition flow_demo2 : system :=
  with_handle 0 (run (TryRecv_ demo_env) (newQueue (randomID 3) true) flow_demo1).1 flow_demo1.

Lemma flow_demo_sent : (run (TrySendTyped demo_env 0 [Byte.x01; Byte.x02]) (newQueue (randomID 1) false) flow_demo0).2 = inr tt.
Proof. vm_compute. reflexivity. Qed.

Lemma flow_demo_got : (run (TryRecv_ demo_env) (newQueue (randomID 3) true) flow_demo1).2 = inr (0, [Byte.x01; Byte.x02]).
Proof. vm_compute. reflexivity. Qed.

Lemma flow_demo_room : send_room (sys_ring flow_demo0).
Proof. split; vm_compute; discriminate. Qed.

Lemma flow_demo : flow demo_queue_ring flow_demo2 [(0, [Byte.x01; Byte.x02])] [(0, [Byte.x01; Byte.x02])].
Proof.
  assert (H0 : flow demo_queue_ring flow_demo0 [] []).
  { exact (FlowOpen _ _ _ _ (randomID 1) false (FlowOpen _ _ _ _ (randomID 3) true (FlowStart demo_queue_ring))). }
  pose proof (FlowSend _ flow_demo0 _ _ demo_env 1 (newQueue (randomID 1) false) 0 [Byte.x01; Byte.x02] _ (inr tt) H0
    eq_refl flow_demo_room ltac:(lia) (run_ok _ _ _ _ flow_demo_sent)) as H1.
  exact (FlowRecv _ flow_demo1 _ _ demo_env 0 (newQueue (randomID 3) true) _ _ H1 eq_refl (run_ok _ _ _ _ flow_demo_got)).
Qed.

Lemma handles_fifo_witness : exists rest, [(0, [Byte.x01; Byte.x02])] = [(0, [Byte.x01; Byte.x02])] ++ rest.
Proof.
  destruct (handles_fifo demo_queue_ring flow_demo2 _ _ demo_queue_holds flow_demo) as (rest & Hr & _). exists rest. exact Hr.
Defined.

(** A receiver behind the claim of a dead producer. *)
Lemma receive_total_witness :
  exists s' res, receive (mkEnv (fun id => id =? randomID 1) (fun _ => true) false None) 1
    (mkSt (newQueue (randomID 3) true) demo_dead [] []) = Some (s', res) /\ receive_result None 1 res.
Proof.
  apply (receive_total (mkEnv (fun id => id =? randomID 1) (fun _ => true) false None) 1
    (mkSt (newQueue (randomID 3) true) demo_dead [] [])).
  split; [apply (t_ok _ _ _ demo_dead_tiles)|vm_compute; reflexivity|vm_compute; split; [discriminate|reflexivity]..|reflexivity].
Defined.

(** A receiver that parks on an empty queue and is woken by a write. *)
Definition demo_write (r : Ring) : Ring := match tryWrite 1 (-1) 7 [Byte.x01] r with Some (r, _) => r | None => r end.
Definition demo_still : moment := mkMoment (fun r => r) demo_env.
Definition demo_rounds : list round :=
  [mkRound demo_still demo_still (mkMoment demo_write demo_env) None; mkRound demo_still demo_still demo_still None].

Lemma demo_rounds_ok : rounds_ok Receivers (Of ErrEmpty) demo_rounds.
Proof.
  assert (Hw : forall r, count_of Receivers (demo_write r) = count_of Receivers r).
  { intros r. unfold demo_write. destruct (tryWrite 1 (-1) 7 [Byte.x01] r) as [[r' res]|] eqn:E; [|done].
    apply counts_tryWrite in E. by injection E. }
  split.
  - constructor; [|constructor; [|constructor]]; intros m [->|[->| ->]] r;
      first [apply Hw|reflexivity].
  - constructor; [discriminate|constructor; [discriminate|constructor]].
Qed.

Definition demo_woken : st * (failure + delivery) := run (RecvInto demo_rounds) (newQueue (randomID 3) true) flow_demo0.

Lemma waits_settle_witness :
  let s := mkSt (newQueue (randomID 3) true) demo_queue_ring [] [] in
  RecvInto demo_rounds s = Some (demo_woken.1, inr (7, [Byte.x01])) /\ recvWaiters (hdr (s_ring demo_woken.1)) = 0 /\
  settled_call Receivers (Of ErrEmpty) (RecvInto demo_rounds) s.
Proof.
  intros s. split; [apply (run_ok _ _ flow_demo0); vm_compute; reflexivity|]. split; [vm_compute; reflexivity|].
  apply (proj2 (waits_settle demo_rounds 0 0 1 [] s ltac:(vm_compute; split; [discriminate|reflexivity])
    ltac:(vm_compute; split; [discriminate|reflexivity])) demo_rounds_ok).
Defined.
