(* ===== verification/QueueLife.v ===== *)
(** * The life of a handle: [enter], [leave] and [Close] ([src/queue.go])

    The operations of a process on one handle run on their own goroutines. Each counts
    itself in [active], and [Close] waits for them before it unmaps the segment. The
    steps here are the atomic accesses of these three functions, interleaved. *)

From stdpp Require Import base numbers list list_numbers option.
From Stdlib Require Import ZArith Lia Bool.
From S2P Require Import Prelude.

#[local] Open Scope Z_scope.

(** ** The program counters *)

(** An operation: not called; counted, before its load of [closing] in [enter]; inside,
    where it uses the mapping; parked on an event; before the decrement in [leave];
    after a decrement that returned zero; before its send to [drained]. *)
Inductive opc : Type := Outside | Counted | Inside | Parked | Leaving | LeftLast | Sending.

(** [Close]: not called; [closing] set; the events closed; waiting for [drained];
    drained, before the unmap; returned. *)
Inductive cpc : Type := NotClosed | ClosingSet | EventsClosed | Draining | Drained | ClosedDone.

#[global] Instance opc_eq_dec : EqDecision opc.
Proof. solve_decision. Defined.
#[global] Instance cpc_eq_dec : EqDecision cpc.
Proof. solve_decision. Defined.

(** The atomics of the handle, the channel [drained] of capacity one, whether the
    segment is mapped and whether the events are closed. *)
Record life : Type := mkLife {
  active : Z; closing : bool; drained : bool; mapped : bool; events_closed : bool;
  ops : list opc; closer : cpc }.

Definition with_op (i : nat) (pc : opc) (s : life) : life :=
  mkLife (active s) (closing s) (drained s) (mapped s) (events_closed s) (<[i := pc]> (ops s)) (closer s).
Definition with_active (n : Z) (s : life) : life :=
  mkLife n (closing s) (drained s) (mapped s) (events_closed s) (ops s) (closer s).
Definition with_drained (b : bool) (s : life) : life :=
  mkLife (active s) (closing s) b (mapped s) (events_closed s) (ops s) (closer s).
Definition with_closer (c : cpc) (s : life) : life :=
  mkLife (active s) (closing s) (drained s) (mapped s) (events_closed s) (ops s) c.

(** ** The steps *)

(** What an operation inside does next. *)
Inductive choice : Type := Use | Park | Finish.

Inductive label : Type := Op (i : nat) (c : choice) | CloseStep.

(** One access of [enter] and [leave], and what the operation does in between. *)
Definition op_step (i : nat) (c : choice) (s : life) : option life :=
  match ops s !! i with
  | None => None
  | Some Outside => Some (with_op i Counted (with_active (active s + 1) s))
  | Some Counted => Some (with_op i (if closing s then Leaving else Inside) s)
  | Some Inside =>
      match c with
      | Use => Some s
      | Park => Some (with_op i Parked s)
      | Finish => Some (with_op i Leaving s)
      end
  | Some Parked => Some (with_op i Inside s)
  | Some Leaving =>
      let n := active s - 1 in
      Some (with_op i (if n =? 0 then LeftLast else Outside) (with_active n s))
  | Some LeftLast => Some (with_op i (if closing s then Sending else Outside) s)
  | Some Sending => Some (with_op i Outside (with_drained true s))
  end.

Definition close_step (s : life) : option life :=
  match closer s with
  | NotClosed =>
      Some (mkLife (active s) true (drained s) (mapped s) (events_closed s) (ops s) ClosingSet)
  | ClosingSet =>
      Some (mkLife (active s) (closing s) (drained s) (mapped s) true (ops s) EventsClosed)
  | EventsClosed => Some (with_closer (if 0 <? active s then Draining else Drained) s)
  | Draining => if drained s then Some (with_closer Drained (with_drained false s)) else None
  | Drained =>
      Some (mkLife (active s) (closing s) (drained s) false (events_closed s) (ops s) ClosedDone)
  | ClosedDone => None
  end.

Definition life_step (l : label) (s : life) : option life :=
  match l with Op i c => op_step i c s | CloseStep => close_step s end.

Fixpoint life_run (ls : list label) (s : life) : option life :=
  match ls with
  | [] => Some s
  | l :: ls => match life_step l s with Some s => life_run ls s | None => None end
  end.

(** [n] goroutines that may use a handle. *)
Definition life_start (n : nat) : life := mkLife 0 false false true false (replicate n Outside) NotClosed.

(** An operation that has the mapping: it uses it now or after its wait. *)
Definition inside (pc : opc) : bool := match pc with Inside | Parked => true | _ => false end.

(** An operation that [active] counts. *)
Definition counted (pc : opc) : bool :=
  match pc with Counted | Inside | Parked | Leaving => true | _ => false end.

(** An operation that saw [active] at zero and has not sent yet. *)
Definition last_out (pc : opc) : bool := match pc with LeftLast | Sending => true | _ => false end.

Definition weight (pc : opc) : Z := if counted pc then 1 else 0.

Definition tally (l : list opc) : Z := total weight l.

(** [Close] does not begin while one operation is between its decrement to zero and
    its load of [closing] and another is in progress. *)
Definition calm_close (l : label) (s : life) : Prop :=
  match l with
  | CloseStep => closer s = NotClosed -> active s = 0 \/ forall i, ops s !! i <> Some LeftLast
  | Op _ _ => True
  end.

Fixpoint calm_run (ls : list label) (s : life) : Prop :=
  match ls with
  | [] => True
  | l :: ls => calm_close l s /\ match life_step l s with Some s => calm_run ls s | None => True end
  end.

(** ** Invariants *)

Lemma weight_nonneg pc : 0 <= weight pc.
Proof. unfold weight. destruct (counted pc); lia. Qed.

Lemma tally_zero l : tally l = 0 -> forall i pc, l !! i = Some pc -> counted pc = false.
Proof.
  intros H i pc Hi. pose proof (total_lookup weight l i pc weight_nonneg Hi) as Hp. unfold tally, weight in *.
  destruct (counted pc); [lia|done].
Qed.

Record life_ok (s : life) : Prop := {
  lo_tally : active s = tally (ops s);
  lo_closing : closing s = true <-> closer s <> NotClosed;
  lo_open : closing s = false -> drained s = false /\ forall i, ops s !! i <> Some Sending;
  lo_mapped : mapped s = false <-> closer s = ClosedDone;
  lo_wait : closer s = Draining ->
    drained s = true \/ 0 < active s \/ exists i pc, ops s !! i = Some pc /\ last_out pc = true }.

(** A token, a token about to be sent, or a drained handle: nothing is inside. *)
Definition life_safe (s : life) : Prop :=
  closing s = true ->
  (drained s = true \/ closer s = Drained \/ closer s = ClosedDone \/
   exists i pc, ops s !! i = Some pc /\ last_out pc = true) ->
  forall i pc, ops s !! i = Some pc -> inside pc = false.

Lemma life_start_ok n : life_ok (life_start n) /\ life_safe (life_start n).
Proof.
  split; [split|]; cbn; try done.
  - symmetry. apply total_zero. intros i x [-> _]%lookup_replicate. done.
  - intros _. split; [done|]. intros i H. apply lookup_replicate in H as [H _]. done.
Qed.

(** What a step of an operation changes. *)
Record op_moves (i : nat) (s s' : life) (pc pc' : opc) : Prop := {
  om_here : ops s !! i = Some pc;
  om_ops : ops s' = <[i := pc']> (ops s);
  om_closing : closing s' = closing s;
  om_closer : closer s' = closer s;
  om_mapped : mapped s' = mapped s;
  om_active : active s' = active s - weight pc + weight pc';
  om_drained : drained s' = drained s || bool_decide (pc = Sending);
  om_last : pc' = LeftLast -> active s' = 0;
  om_send : pc' = Sending -> closing s = true /\ pc = LeftLast;
  om_inside : inside pc' = true -> inside pc = true \/ closing s = false;
  om_window : last_out pc' = true -> last_out pc = true \/ active s' = 0;
  om_out : last_out pc = true -> closing s = true -> last_out pc' = true \/ drained s' = true;
  om_leave : weight pc' < weight pc -> active s' = 0 -> last_out pc' = true }.

Lemma op_step_moves i c s s' : op_step i c s = Some s' -> exists pc pc', op_moves i s s' pc pc'.
Proof.
  unfold op_step. destruct (ops s !! i) as [pc|] eqn:Hi; [|done].
  destruct pc; try destruct c; try destruct (closing s) eqn:Hc; try destruct (Z.eqb_spec (active s - 1) 0) as [Hz|Hz];
    intros [= <-]; do 2 eexists; split; try exact Hi; try reflexivity; cbn; rewrite ?orb_false_r, ?orb_true_r;
    try (symmetry; exact Hc || exact Hc); try done; try lia; auto;
    try (by rewrite list_insert_id); try (intros; lia).
  all: cbn; try lia; try (intros; discriminate); auto; congruence.
Qed.

Lemma op_step_ok i c s s' : life_ok s -> op_step i c s = Some s' -> life_ok s'.
Proof.
  intros [T C O M W] (pc & pc' & Hm)%op_step_moves. destruct Hm as [Hi Ho Hcl Hcr Hmp Ha Hd Hl Hs Hin Hw Hout Hlv].
  split; rewrite ?Hcl, ?Hcr, ?Hmp; try done.
  - unfold tally in *; rewrite Ho, (total_insert weight _ i pc pc') by done. lia.
  - intros Hc. destruct (O Hc) as [O1 O2]. split.
    + rewrite Hd, O1. cbn. apply bool_decide_eq_false. intros ->. by apply (O2 i).
    + intros j Hj. rewrite Ho in Hj. destruct (moved_cases _ _ _ _ _ Hj) as [[-> <-]|[_ Hj']]; [|by apply (O2 j)].
      destruct (Hs eq_refl). congruence.
  - intros Hc. assert (Hclo : closing s = true) by (apply C; congruence).
    destruct (W Hc) as [Hdr|[Hpos|(j & x & Hj & Hx)]].
    + left. by rewrite Hd, Hdr.
    + destruct (Z.eq_dec (active s') 0) as [Hz|Hz].
      * right; right. exists i, pc'. rewrite Ho. split; [by eapply moved_here|]. apply Hlv; [|done]. lia.
      * right; left. unfold weight in Ha. pose proof (T : active s = _). rewrite Ha in *. destruct (counted pc), (counted pc'); lia.
    + destruct (decide (j = i)) as [->|Hne].
      * rewrite Hi in Hj. injection Hj as ->. destruct (Hout Hx Hclo) as [Hl'|?]; [|by left].
        right; right. exists i, pc'. rewrite Ho. split; [by eapply moved_here|done].
      * right; right. exists j, x. rewrite Ho, list_lookup_insert_ne by done. done.
Qed.

Lemma op_step_safe i c s s' : life_ok s -> life_safe s -> op_step i c s = Some s' -> life_safe s'.
Proof.
  intros [T C O M W] S (pc & pc' & Hm)%op_step_moves. destruct Hm as [Hi Ho Hcl Hcr Hmp Ha Hd Hl Hs Hin Hw Hout Hlv].
  intros Hc Hor j x Hj. rewrite Hcl in Hc. rewrite Ho in Hj.
  (* nothing was inside before, or nothing is counted now *)
  assert (Hcase : (forall k y, ops s !! k = Some y -> inside y = false) \/ active s' = 0).
  { rewrite Hcr, Hd in Hor. destruct Hor as [Hdr|[Hor|[Hor|(k & y & Hk & Hy)]]].
    - apply orb_true_iff in Hdr as [Hdr|Hdr%bool_decide_eq_true]; [left; by apply S; auto|].
      subst pc. left. apply S; [done|]. right; right; right. by exists i, Sending.
    - left. apply S; auto.
    - left. apply S; auto.
    - rewrite Ho in Hk. destruct (moved_cases _ _ _ _ _ Hk) as [[-> ->]|[_ Hk']].
      + destruct (Hw Hy) as [Hp|Hz]; [|by right]. left. apply S; [done|]. right; right; right. by exists i, pc.
      + left. apply S; [done|]. right; right; right. by exists k, y. }
  destruct Hcase as [Hnone|Hz].
  - destruct (moved_cases _ _ _ _ _ Hj) as [[-> ->]|[_ Hj']]; [|by eapply Hnone].
    destruct (inside pc') eqn:Hp; [|done]. destruct (Hin eq_refl) as [Hp'|]; [|congruence].
    rewrite (Hnone i pc Hi) in Hp'. done.
  - assert (Hz' : tally (ops s') = 0) by (unfold tally in *; rewrite Ho, (total_insert weight _ i pc pc') by done; lia).
    rewrite Ho in Hz'. pose proof (tally_zero _ Hz' j x Hj) as Hcnt. by destruct x.
Qed.

Lemma close_step_ok s s' : life_ok s -> close_step s = Some s' -> life_ok s'.
Proof.
  intros [T C O M W]. unfold close_step.
  destruct (closer s) eqn:Hcr; try destruct (Z.ltb_spec 0 (active s)); try destruct (drained s) eqn:Hd; try done;
    intros [= <-]; split; cbn; first [done | intuition congruence].
Qed.

Lemma close_step_safe s s' :
  life_ok s -> life_safe s -> (closer s = NotClosed -> active s = 0 \/ forall i, ops s !! i <> Some LeftLast) ->
  close_step s = Some s' -> life_safe s'.
Proof.
  intros [T C O M W] S Hcalm. unfold close_step. destruct (closer s) eqn:Hcr.
  - intros [= <-] _ Hor i pc Hi. cbn in *. destruct (Hcalm eq_refl) as [Hz|Hno].
    { rewrite T in Hz. pose proof (tally_zero _ Hz i pc Hi). by destruct pc. }
    assert (Hc : closing s = false) by (destruct (closing s); [by destruct (proj1 C eq_refl)|done]).
    destruct (O Hc) as [Hd Hns]. destruct Hor as [?|[?|[?|(j & x & Hj & Hx)]]]; try congruence.
    destruct x; try done; [by apply Hno in Hj|by apply Hns in Hj].
  - intros [= <-] Hc Hor. cbn in *. apply S; [done|]. intuition congruence.
  - intros [= <-]. destruct (Z.ltb_spec 0 (active s)) as [Hp|Hp]; intros Hc Hor; cbn in *.
    + apply S; [done|]. intuition congruence.
    + intros i pc Hi. pose proof (total_nonneg weight (ops s) weight_nonneg).
      assert (Hz : tally (ops s) = 0) by (unfold tally in *; lia).
      pose proof (tally_zero _ Hz i pc Hi). by destruct pc.
  - destruct (drained s) eqn:Hd; [|done]. intros [= <-] Hc Hor. cbn in *. apply S; auto.
  - intros [= <-] Hc Hor. cbn in *. apply S; auto.
  - done.
Qed.

(** ** Runs *)

Lemma life_run_app ls1 ls2 s :
  life_run (ls1 ++ ls2) s = match life_run ls1 s with Some s => life_run ls2 s | None => None end.
Proof. revert s. induction ls1 as [|l ls1 IH]; intros s; [done|]. cbn. destruct (life_step l s); [apply IH|done]. Qed.

Lemma life_run_ok ls s s' : life_ok s -> life_run ls s = Some s' -> life_ok s'.
Proof.
  revert s. induction ls as [|l ls IH]; intros s Hs; cbn; [by intros [= <-]|].
  destruct (life_step l s) as [s1|] eqn:E; [|done]. apply IH. destruct l; [by eapply op_step_ok|by eapply close_step_ok].
Qed.

Lemma calm_run_safe ls s s' : life_ok s -> life_safe s -> calm_run ls s -> life_run ls s = Some s' -> life_safe s'.
Proof.
  revert s. induction ls as [|l ls IH]; intros s Hs Hsafe Hcalm; cbn; [by intros [= <-]|].
  destruct Hcalm as [Hl Hcalm]. destruct (life_step l s) as [s1|] eqn:E; [|done].
  destruct l; (apply IH; [| |done]).
  - by eapply op_step_ok.
  - by eapply op_step_safe.
  - by eapply close_step_ok.
  - by eapply close_step_safe.
Qed.

(** An operation in progress can return, whatever [Close] has done. *)
Lemma op_returns i s pc :
  ops s !! i = Some pc ->
  exists ls s', life_run ls s = Some s' /\ ops s' = <[i := Outside]> (ops s) /\ closer s' = closer s.
Proof.
  assert (Hstep : forall c s s1 pc pc1, ops s !! i = Some pc -> op_step i c s = Some s1 -> ops s1 = <[i := pc1]> (ops s) ->
    closer s1 = closer s ->
    (exists ls s', life_run ls s1 = Some s' /\ ops s' = <[i := Outside]> (ops s1) /\ closer s' = closer s1) ->
    exists ls s', life_run ls s = Some s' /\ ops s' = <[i := Outside]> (ops s) /\ closer s' = closer s).
  { intros c s0 s1 pc0 pc1 _ Hs Ho Hc (ls & s' & Hr & Ho' & Hc'). exists (Op i c :: ls), s'. cbn. rewrite Hs.
    split; [done|]. rewrite Ho', Ho, list_insert_insert_eq. split; [done|congruence]. }
  assert (Hout : forall s, ops s !! i = Some Outside ->
    exists ls s', life_run ls s = Some s' /\ ops s' = <[i := Outside]> (ops s) /\ closer s' = closer s).
  { intros s0 H. exists [], s0. by rewrite list_insert_id. }
  assert (Hsend : forall s, ops s !! i = Some Sending ->
    exists ls s', life_run ls s = Some s' /\ ops s' = <[i := Outside]> (ops s) /\ closer s' = closer s).
  { intros s0 H. eapply (Hstep Use); [done|by unfold op_step; rewrite H|done|done|]. apply Hout. by eapply moved_here. }
  assert (Hlast : forall s, ops s !! i = Some LeftLast ->
    exists ls s', life_run ls s = Some s' /\ ops s' = <[i := Outside]> (ops s) /\ closer s' = closer s).
  { intros s0 H. eapply (Hstep Use); [done|by unfold op_step; rewrite H|done|done|].
    destruct (closing s0); [apply Hsend|apply Hout]; by eapply moved_here. }
  assert (Hleave : forall s, ops s !! i = Some Leaving ->
    exists ls s', life_run ls s = Some s' /\ ops s' = <[i := Outside]> (ops s) /\ closer s' = closer s).
  { intros s0 H. eapply (Hstep Use); [done|by unfold op_step; rewrite H|done|done|].
    destruct (_ =? 0); [apply Hlast|apply Hout]; by eapply moved_here. }
  assert (Hin : forall s, ops s !! i = Some Inside ->
    exists ls s', life_run ls s = Some s' /\ ops s' = <[i := Outside]> (ops s) /\ closer s' = closer s).
  { intros s0 H. eapply (Hstep Finish); [done|by unfold op_step; rewrite H|done|done|]. apply Hleave. by eapply moved_here. }
  intros H. destruct pc; auto.
  - eapply (Hstep Use); [done|by unfold op_step; rewrite H|done|done|].
    destruct (closing s); [apply Hleave|apply Hin]; by eapply moved_here.
  - eapply (Hstep Use); [done|by unfold op_step; rewrite H|done|done|]. apply Hin. by eapply moved_here.
Qed.

Lemma all_return s :
  exists ls s', life_run ls s = Some s' /\ closer s' = closer s /\ forall i pc, ops s' !! i = Some pc -> pc = Outside.
Proof.
  assert (Hk : forall k, exists ls s', life_run ls s = Some s' /\ closer s' = closer s /\
    List.length (ops s') = List.length (ops s) /\ forall i pc, (i < k)%nat -> ops s' !! i = Some pc -> pc = Outside).
  { induction k as [|k (ls & s1 & Hr & Hc & Hlen & Hall)].
    - exists [], s. split_and!; try done. intros; lia.
    - destruct (ops s1 !! k) as [pc|] eqn:Hpc.
      + destruct (op_returns k s1 pc Hpc) as (ls' & s2 & Hr' & Ho & Hc'). exists (ls ++ ls'), s2.
        rewrite life_run_app, Hr. split; [done|]. split; [congruence|]. rewrite Ho, length_insert. split; [done|].
        intros i x Hi Hx. destruct (moved_cases _ _ _ _ _ Hx) as [[-> ->]|[Hne Hx']]; [done|].
        apply (Hall i x); [lia|done].
      + exists ls, s1. split_and!; try done. intros i x Hi Hx. apply (Hall i x); [|done].
        destruct (decide (i = k)) as [->|]; [congruence|lia]. }
  destruct (Hk (List.length (ops s))) as (ls & s' & Hr & Hc & Hlen & Hall). exists ls, s'. split_and!; [done..|].
  intros i pc Hi. apply (Hall i pc); [|done]. rewrite <-Hlen. by eapply lookup_lt_Some.
Qed.

Lemma tally_outside l : (forall i pc, l !! i = Some pc -> pc = Outside) -> tally l = 0.
Proof. intros Hall. apply total_zero. intros i pc Hi. by rewrite (Hall i pc Hi). Qed.

Lemma close_finishes s :
  life_ok s -> (forall i pc, ops s !! i = Some pc -> pc = Outside) -> closer s <> NotClosed ->
  exists ls s', life_run ls s = Some s' /\ closer s' = ClosedDone.
Proof.
  intros [T C O M W] Hall Hne. pose proof (tally_outside _ Hall) as Hz.
  destruct (closer s) eqn:Hcr; [done| | | | |by exists [], s].
  - exists [CloseStep; CloseStep; CloseStep]. cbn. unfold close_step at 1. rewrite Hcr. cbn.
    rewrite (proj2 (Z.ltb_ge _ _)) by lia. by eexists.
  - exists [CloseStep; CloseStep]. cbn. unfold close_step at 1. rewrite Hcr. rewrite (proj2 (Z.ltb_ge _ _)) by lia. by eexists.
  - assert (Hd : drained s = true).
    { destruct (W eq_refl) as [?|[?|(i & pc & Hi & Hpc)]]; [done|lia|]. by rewrite (Hall i pc Hi) in Hpc. }
    exists [CloseStep; CloseStep]. cbn. unfold close_step at 1. rewrite Hcr, Hd. by eexists.
  - exists [CloseStep]. cbn. unfold close_step. rewrite Hcr. by eexists.
Qed.

(** [Close] does not wait for ever: from every state it can be in while operations
    come and go, the operations in progress can return, and then [Close] returns; and
    when it waits with no operation in progress, its token is there. *)
Theorem Close_returns (n : nat) (ls : list label) (s : life) :
  life_run ls (life_start n) = Some s -> closer s <> NotClosed ->
  (exists ls' s', life_run ls' s = Some s' /\ closer s' = ClosedDone) /\
  (closer s = Draining -> (forall i pc, ops s !! i = Some pc -> pc = Outside) -> drained s = true).
Proof.
  intros Hr Hne. pose proof (life_run_ok _ _ _ (proj1 (life_start_ok n)) Hr) as Hok. split.
  - destruct (all_return s) as (ls1 & s1 & Hr1 & Hc1 & Hall).
    destruct (close_finishes s1) as (ls2 & s2 & Hr2 & Hc2); [by eapply life_run_ok|done|congruence|].
    exists (ls1 ++ ls2), s2. by rewrite life_run_app, Hr1.
  - intros Hd Hall. destruct (lo_wait _ Hok Hd) as [?|[Hp|(i & pc & Hi & Hpc)]]; [done| |].
    + rewrite (lo_tally _ Hok), tally_outside in Hp by done. lia.
    + by rewrite (Hall i pc Hi) in Hpc.
Qed.

(** C29: [Close] unmaps the segment only when no operation uses it, provided that it
    does not begin while one operation is between its decrement of [active] to zero
    and its load of [closing] and another operation is in progress. *)
Theorem Close_unmaps_last (n : nat) (ls : list label) (s : life) :
  life_run ls (life_start n) = Some s -> calm_run ls (life_start n) -> mapped s = false ->
  forall i pc, ops s !! i = Some pc -> inside pc = false.
Proof.
  intros Hr Hcalm Hm. destruct (life_start_ok n) as [H1 H2]. pose proof (life_run_ok _ _ _ H1 Hr) as Hok.
  pose proof (calm_run_safe _ _ _ H1 H2 Hcalm Hr) as Hsafe. pose proof (proj1 (lo_mapped _ Hok) Hm) as Hc.
  apply Hsafe; [|by auto]. apply (lo_closing _ Hok). congruence.
Qed.

(** Two operations, and a [Close] that begins while the first is about to load
    [closing] and the second is inside. *)
Definition close_race : list label :=
  [Op 0 Use; Op 0 Use; Op 0 Finish; Op 0 Use; Op 1 Use; Op 1 Use; CloseStep; CloseStep; CloseStep;
   Op 0 Use; Op 0 Use; CloseStep; CloseStep].

(** without that condition [Close] can unmap the segment under an operation that
    uses it: the first operation's token, sent for a moment when [active] was zero before
    [Close] began, ends the wait for the second. *)
Theorem Close_unmaps_in_use :
  exists s, life_run close_race (life_start 2) = Some s /\ mapped s = false /\ ops s !! 1%nat = Some Inside.
Proof. eexists. split; [vm_compute; reflexivity|]. split; reflexivity. Qed.

(** ** Witnesses *)

(** One operation in progress when [Close] begins. *)
Definition close_demo : list label :=
  [Op 0 Use; Op 0 Use; CloseStep; CloseStep; CloseStep; Op 0 Park; Op 0 Use; Op 0 Finish; Op 0 Use; Op 0 Use; Op 0 Use;
   CloseStep; CloseStep].
Definition close_demo_end : life := default (life_start 0) (life_run close_demo (life_start 1)).

Lemma Close_returns_witness : exists ls' s', life_run ls' close_demo_end = Some s' /\ closer s' = ClosedDone.
Proof. apply (Close_returns 1 close_demo close_demo_end); vm_compute; [reflexivity|discriminate]. Defined.

Lemma Close_unmaps_last_witness :
  ops close_demo_end !! 0%nat = Some Outside /\ inside Outside = false.
Proof.
  split; [vm_compute; reflexivity|].
  assert (Hr : life_run close_demo (life_start 1) = Some close_demo_end) by (vm_compute; reflexivity).
  apply (Close_unmaps_last 1 close_demo close_demo_end Hr) with (i := 0%nat); [|vm_compute; reflexivity..].
  vm_compute. repeat split; try discriminate. intros _. right. intros [|[|i]]; discriminate.
Defined.
