(* ===== verification/EventWin.v ===== *)
(** * Events on Windows: a named semaphore ([src/event_windows.go])

    A wait sleeps on three objects: the semaphore, the event that [close] sets, and an
    event of its own that a callback of its context sets. [waiters] keeps the handles
    open while a wait is inside. The steps are the atomic accesses, critical sections
    and system calls of [signal], [wait], [enter], [leave] and [close], interleaved. The
    gate of [close] is the one of a queue handle, and its theorems come from a simulation
    of QueueLife. *)

From stdpp Require Import base numbers list list_numbers option.
From Stdlib Require Import ZArith Lia Bool.
From S2P Require Import Prelude QueueLife.

#[local] Open Scope Z_scope.

(** ** Program counters *)

(** What [wait], [signal] and [close] return: [nil], [ErrClosed], the error of the
    context, or the error of a system call. *)
Inductive wres : Type := RNil | RClosed | RCtx | RSys.

(** A call of [wait]: not made; counted in [enter]; past [enter]; in
    [WaitForMultipleObjects]; woken by an object other than the semaphore; at its
    deferred [stop], then [CloseHandle(cancel)], then [leave]; after a decrement to zero;
    before its send to [drained]; returned. *)
Inductive wpc : Type :=
  | WOut | WAdded | WIn | WBlock | WWoken
  | WStop (r : wres) | WFree (r : wres) | WLeave (r : wres) | WZero (r : wres) | WSend (r : wres) | WRet (r : wres).

(** The callback of [context.AfterFunc]: not registered; registered; its goroutine
    started; done; stopped before its start. *)
Inductive apc : Type := ANone | AArmed | AStarted | AFired | AStopped.

(** A call of [signal]: not made; past its load of [gone]; returned. *)
Inductive spc : Type := SOut (n : Z) | SPast (n : Z) | SRet (r : wres).

(** A call of [close]: not made; [closed] set; the event set; waiting for [drained];
    before [CloseHandle]; returned. *)
Inductive clpc : Type := CIdle | CMarked | CSet | CWait | CFree | CRet (r : wres).

#[global] Instance wres_eq_dec : EqDecision wres.
Proof. solve_decision. Defined.
#[global] Instance wpc_eq_dec : EqDecision wpc.
Proof. solve_decision. Defined.
#[global] Instance apc_eq_dec : EqDecision apc.
Proof. solve_decision. Defined.

(** A call of [wait]: its context, [None] for one that never ends and otherwise whether
    it has ended; the handle of its own event; its callback. *)
Record waiter : Type := mkW { w_pc : wpc; w_ctx : option bool; w_cancel : option nat; w_after : apc }.

(** [eventImpl]: the count of the semaphore, whether the event [closing] is set, whether
    the handles of the two are closed, and the fields. [table] is the process's table of
    handles of unnamed events: free, or whether the event is set. *)
Record eventImpl : Type := mkE {
  sem : Z; closing_set : bool; freed : bool;
  e_waiters : Z; e_drained : bool; closed : bool; gone : bool;
  table : list (option bool); ws : list waiter; sgs : list spc; e_closer : clpc }.

Definition maxSemaphoreCount : Z := 2147483647.

(** ** Updates *)

Definition set_w (i : nat) (w : waiter) (e : eventImpl) : eventImpl :=
  mkE (sem e) (closing_set e) (freed e) (e_waiters e) (e_drained e) (closed e) (gone e) (table e)
      (<[i := w]> (ws e)) (sgs e) (e_closer e).
Definition set_sem (n : Z) (e : eventImpl) : eventImpl :=
  mkE n (closing_set e) (freed e) (e_waiters e) (e_drained e) (closed e) (gone e) (table e) (ws e) (sgs e) (e_closer e).
Definition set_waiters (n : Z) (e : eventImpl) : eventImpl :=
  mkE (sem e) (closing_set e) (freed e) n (e_drained e) (closed e) (gone e) (table e) (ws e) (sgs e) (e_closer e).
Definition set_drained (b : bool) (e : eventImpl) : eventImpl :=
  mkE (sem e) (closing_set e) (freed e) (e_waiters e) b (closed e) (gone e) (table e) (ws e) (sgs e) (e_closer e).
Definition set_handle (h : nat) (o : option bool) (e : eventImpl) : eventImpl :=
  mkE (sem e) (closing_set e) (freed e) (e_waiters e) (e_drained e) (closed e) (gone e) (<[h := o]> (table e))
      (ws e) (sgs e) (e_closer e).
Definition set_sg (j : nat) (p : spc) (e : eventImpl) : eventImpl :=
  mkE (sem e) (closing_set e) (freed e) (e_waiters e) (e_drained e) (closed e) (gone e) (table e) (ws e)
      (<[j := p]> (sgs e)) (e_closer e).
Definition set_cl (c : clpc) (e : eventImpl) : eventImpl :=
  mkE (sem e) (closing_set e) (freed e) (e_waiters e) (e_drained e) (closed e) (gone e) (table e) (ws e) (sgs e) c.

Definition at_pc (pc : wpc) (w : waiter) : waiter := mkW pc (w_ctx w) (w_cancel w) (w_after w).
Definition with_after (a : apc) (w : waiter) : waiter := mkW (w_pc w) (w_ctx w) (w_cancel w) a.

(** ** The steps *)

(** What the system answers a call: it works (the handle of a new event is [h]), or it
    fails. *)
Inductive answer : Type := Works (h : nat) | Fails.

(** [WaitForMultipleObjects] on the semaphore, [closing] and the event of the call: the
    first object that is signalled ends it. *)
Inductive object : Type := Sem | Closing | Cancel.

Definition signalled (e : eventImpl) (w : waiter) : option object :=
  if 0 <? sem e then Some Sem
  else if closing_set e then Some Closing
  else match w_cancel w with
       | Some h => match table e !! h with Some (Some true) => Some Cancel | _ => None end
       | None => None
       end.

(** [CreateEvent] for the context of the call, and [AfterFunc]. *)
Definition prepare (i : nat) (w : waiter) (a : answer) (e : eventImpl) : option eventImpl :=
  match w_ctx w with
  | None => Some (set_w i (at_pc WBlock w) e)
  | Some _ =>
      match a with
      | Fails => Some (set_w i (at_pc (WLeave RSys) w) e)
      | Works h =>
          match table e !! h with
          | Some None => Some (set_w i (mkW WBlock (w_ctx w) (Some h) AArmed) (set_handle h (Some false) e))
          | _ => None
          end
      end
  end.

(** The wait in the kernel. On closed handles it can fail and never succeeds. *)
Definition block (i : nat) (w : waiter) (a : answer) (e : eventImpl) : option eventImpl :=
  match a with
  | Fails => Some (set_w i (at_pc (WStop RSys) w) e)
  | Works _ =>
      if freed e then None
      else match signalled e w with
           | Some Sem => Some (set_w i (at_pc (WStop RNil) w) (set_sem (sem e - 1) e))
           | Some _ => Some (set_w i (at_pc WWoken w) e)
           | None => None
           end
  end.

(** One step of [Event.Wait], which looks at the context, and of [wait], with its [enter]
    and [leave]. *)
Definition wait_step (i : nat) (a : answer) (e : eventImpl) : option eventImpl :=
  match ws e !! i with
  | None => None
  | Some w =>
      match w_pc w with
      | WOut =>
          if bool_decide (w_ctx w = Some true) then Some (set_w i (at_pc (WRet RCtx) w) e)
          else Some (set_w i (at_pc WAdded w) (set_waiters (e_waiters e + 1) e))
      | WAdded => Some (set_w i (at_pc (if closed e then WLeave RClosed else WIn) w) e)
      | WIn => prepare i w a e
      | WBlock => block i w a e
      | WWoken =>
          Some (set_w i (at_pc (WStop (if bool_decide (w_ctx w = Some true) then RCtx else RClosed)) w) e)
      | WStop r =>
          Some (set_w i (with_after (if bool_decide (w_after w = AArmed) then AStopped else w_after w) (at_pc (WFree r) w)) e)
      | WFree r =>
          Some (set_w i (at_pc (WLeave r) w) match w_cancel w with Some h => set_handle h None e | None => e end)
      | WLeave r =>
          let n := e_waiters e - 1 in
          Some (set_w i (at_pc (if n =? 0 then WZero r else WRet r) w) (set_waiters n e))
      | WZero r => Some (set_w i (at_pc (if closed e then WSend r else WRet r) w) e)
      | WSend r => Some (set_w i (at_pc (WRet r) w) (set_drained true e))
      | WRet _ => None
      end
  end.

(** The context of call [i] ends. *)
Definition end_ctx (i : nat) (e : eventImpl) : option eventImpl :=
  match ws e !! i with
  | Some w => match w_ctx w with
              | Some false => Some (set_w i (mkW (w_pc w) (Some true) (w_cancel w) (w_after w)) e)
              | _ => None
              end
  | None => None
  end.

(** The goroutine of the callback starts once the context has ended, and then calls
    [SetEvent(cancel)]: on a free entry of the table that does nothing. *)
Definition after_step (i : nat) (e : eventImpl) : option eventImpl :=
  match ws e !! i with
  | None => None
  | Some w =>
      match w_after w, w_ctx w, w_cancel w with
      | AArmed, Some true, _ => Some (set_w i (with_after AStarted w) e)
      | AStarted, _, Some h =>
          Some (set_w i (with_after AFired w)
                 match table e !! h with Some (Some _) => set_handle h (Some true) e | _ => e end)
      | _, _, _ => None
      end
  end.

(** [signal]: the load of [gone], then [ReleaseSemaphore]. A release that would pass the
    maximum changes nothing and is not an error. *)
Definition signal_step (j : nat) (a : answer) (e : eventImpl) : option eventImpl :=
  match sgs e !! j with
  | None => None
  | Some (SOut n) => Some (set_sg j (if gone e then SRet RClosed else SPast n) e)
  | Some (SPast n) =>
      match a with
      | Fails => Some (set_sg j (SRet RSys) e)
      | Works _ =>
          if freed e then None
          else if maxSemaphoreCount <? sem e + n then Some (set_sg j (SRet RNil) e)
          else Some (set_sg j (SRet RNil) (set_sem (sem e + n) e))
      end
  | Some (SRet _) => None
  end.

Definition close_event (a : answer) (e : eventImpl) : option eventImpl :=
  match e_closer e with
  | CIdle =>
      if closed e then Some (set_cl (CRet RClosed) e)
      else Some (mkE (sem e) (closing_set e) (freed e) (e_waiters e) (e_drained e) true true (table e) (ws e) (sgs e) CMarked)
  | CMarked =>
      match a with
      | Fails => Some (set_cl (CRet RSys) e)
      | Works _ =>
          Some (mkE (sem e) true (freed e) (e_waiters e) (e_drained e) (closed e) (gone e) (table e) (ws e) (sgs e) CSet)
      end
  | CSet => Some (set_cl (if 0 <? e_waiters e then CWait else CFree) e)
  | CWait => if e_drained e then Some (set_cl CFree (set_drained false e)) else None
  | CFree =>
      Some (mkE (sem e) (closing_set e) true (e_waiters e) (e_drained e) (closed e) (gone e) (table e) (ws e) (sgs e)
              (CRet match a with Fails => RSys | Works _ => RNil end))
  | CRet _ => None
  end.

Inductive elabel : Type :=
  | LWait (i : nat) (a : answer) | LEnd (i : nat) | LAfter (i : nat) | LSignal (j : nat) (a : answer) | LClose (a : answer).

Definition event_step (l : elabel) (e : eventImpl) : option eventImpl :=
  match l with
  | LWait i a => wait_step i a e
  | LEnd i => end_ctx i e
  | LAfter i => after_step i e
  | LSignal j a => signal_step j a e
  | LClose a => close_event a e
  end.

Fixpoint event_run (ls : list elabel) (e : eventImpl) : option eventImpl :=
  match ls with
  | [] => Some e
  | l :: ls => match event_step l e with Some e => event_run ls e | None => None end
  end.

(** [Event.SignalN]: a count that is not positive is no signal. *)
Definition SignalN (n : Z) : spc := if n <=? 0 then SRet RNil else SOut n.

(** [finishEvent]: a new handle on an event whose semaphore has [n0] tokens, in a process
    with [k] free entries of its table, before calls of [wait] with the given contexts
    and calls of [signal] with the given counts. *)
Definition finishEvent (n0 : Z) (k : nat) (ctxs : list bool) (ns : list Z) : eventImpl :=
  mkE n0 false false 0 false false false (replicate k None)
      ((fun c => mkW WOut (if c : bool then Some false else None) None ANone) <$> ctxs) (SignalN <$> ns) CIdle.

(** ** The gate of [close] is that of a queue handle *)

Definition gate_pc (pc : wpc) : opc :=
  match pc with
  | WOut | WRet _ => Outside
  | WAdded => Counted
  | WIn | WBlock | WWoken | WStop _ | WFree _ => Inside
  | WLeave _ => Leaving
  | WZero _ => LeftLast
  | WSend _ => Sending
  end.

Definition gate_closer (e : eventImpl) : cpc :=
  match e_closer e with
  | CIdle => NotClosed
  | CMarked => ClosingSet
  | CSet => EventsClosed
  | CWait => Draining
  | CFree => Drained
  | CRet _ => if freed e then ClosedDone else ClosingSet
  end.

Definition gate (e : eventImpl) : life :=
  mkLife (e_waiters e) (closed e) (e_drained e) (negb (freed e)) (closing_set e)
         ((fun w => gate_pc (w_pc w)) <$> ws e) (gate_closer e).

(** A call between its [enter] and its [leave], when it uses the handles. *)
Definition uses_handles (pc : wpc) : bool :=
  match pc with WIn | WBlock | WWoken | WStop _ | WFree _ => true | _ => false end.

Lemma inside_uses pc : inside (gate_pc pc) = uses_handles pc.
Proof. by destruct pc. Qed.

Lemma gate_lookup e i w : ws e !! i = Some w -> ops (gate e) !! i = Some (gate_pc (w_pc w)).
Proof. intros H. cbn. by rewrite list_lookup_fmap, H. Qed.

(** A step that leaves the counter of its call on the same side of the gate. *)
Lemma gate_still e i w w' : ws e !! i = Some w -> gate_pc (w_pc w') = gate_pc (w_pc w) -> gate (set_w i w' e) = gate e.
Proof.
  intros Hi Hpc. unfold gate, gate_closer. cbn. f_equal. rewrite list_fmap_insert, Hpc, list_insert_id; [done|].
  by rewrite list_lookup_fmap, Hi.
Qed.

(** A step of [wait] is a step of an operation at the gate, or none. *)
Lemma wait_step_gate i a e e' :
  wait_step i a e = Some e' -> gate e' = gate e \/ exists c, op_step i c (gate e) = Some (gate e').
Proof.
  unfold wait_step. destruct (ws e !! i) as [w|] eqn:Hi; [|done]. pose proof (gate_lookup e i w Hi) as Hg.
  assert (Hset : forall n d pc, with_op i (gate_pc pc) (mkLife n (closed e) d (negb (freed e)) (closing_set e)
      ((fun w => gate_pc (w_pc w)) <$> ws e) (gate_closer e)) =
    gate (set_w i (at_pc pc w) (set_drained d (set_waiters n e)))).
  { intros n d pc. unfold gate, with_op, gate_closer. cbn. by rewrite list_fmap_insert. }
  assert (Hst : forall w' e1, ws e1 = ws e -> gate e1 = gate e -> gate_pc (w_pc w') = gate_pc (w_pc w) -> gate (set_w i w' e1) = gate e).
  { intros w' e1 Hw He Hp. rewrite (gate_still e1 i w w') by congruence. done. }
  unfold op_step. rewrite Hg. destruct (w_pc w) eqn:Hpc; cbn [gate_pc].
  - case_bool_decide; intros [= <-]; [left; by apply Hst|]. right. exists Use. f_equal. apply (Hset _ (e_drained e) WAdded).
  - intros [= <-]. right. exists Use. f_equal. change (closing (gate e)) with (closed e).
    case (closed e); [apply (Hset _ (e_drained e) (WLeave RClosed))|apply (Hset _ (e_drained e) WIn)].
  - unfold prepare. destruct (w_ctx w).
    + destruct a as [h|].
      * destruct (table e !! h) as [[|]|]; try done. intros [= <-]. left. by apply Hst.
      * intros [= <-]. right. exists Finish. f_equal. apply (Hset _ (e_drained e) (WLeave RSys)).
    + intros [= <-]. left. by apply Hst.
  - unfold block. destruct a; [|intros [= <-]; left; by apply Hst].
    destruct (freed e); [done|]. destruct (signalled e w) as [[]|]; try done; intros [= <-]; left; by apply Hst.
  - intros [= <-]. left. by apply Hst.
  - intros [= <-]. left. by apply Hst.
  - intros [= <-]. right. exists Finish. f_equal.
    transitivity (gate (set_w i (at_pc (WLeave r) w) e)); [apply (Hset _ (e_drained e) (WLeave r))|by destruct (w_cancel w)].
  - intros [= <-]. right. exists Use. f_equal. cbn. destruct (_ =? 0).
    + apply (Hset _ (e_drained e) (WZero r)).
    + apply (Hset _ (e_drained e) (WRet r)).
  - intros [= <-]. right. exists Use. f_equal. change (closing (gate e)) with (closed e). case (closed e).
    + apply (Hset _ (e_drained e) (WSend r)).
    + apply (Hset _ (e_drained e) (WRet r)).
  - intros [= <-]. right. exists Use. f_equal. cbn. apply (Hset _ true (WRet r)).
  - done.
Qed.

Lemma close_event_gate a e e' :
  life_ok (gate e) -> close_event a e = Some e' -> gate e' = gate e \/ close_step (gate e) = Some (gate e').
Proof.
  intros Hok. pose proof (lo_mapped _ Hok) as Hm. pose proof (lo_closing _ Hok) as Hc. cbn in Hm, Hc.
  unfold close_event, close_step. unfold gate_closer in *. cbn. unfold gate_closer.
  assert (Hfr : (forall r, e_closer e <> CRet r) -> freed e = false).
  { intros Hr. destruct (freed e) eqn:Hf; [|done]. exfalso.
    destruct (e_closer e); try (by apply Hm in Hf || discriminate (proj1 Hm eq_refl)). by eapply Hr. }
  destruct (e_closer e) eqn:Hcl.
  - destruct (closed e) eqn:Hcd; [by destruct (proj1 Hc eq_refl)|]. intros [= <-]. right. done.
  - destruct a; intros [= <-]; [by right|]. left. unfold gate, gate_closer. cbn. rewrite Hcl, Hfr by done. done.
  - intros [= <-]. right. unfold gate, gate_closer. cbn. by destruct (0 <? e_waiters e).
  - destruct (e_drained e) eqn:Hd; [|done]. intros [= <-]. by right.
  - intros [= <-]. by right.
  - done.
Qed.

Lemma side_step_gate l e e' :
  event_step l e = Some e' -> match l with LWait _ _ | LClose _ => False | _ => True end -> gate e' = gate e.
Proof.
  intros Hs Hl. revert Hs. destruct l as [i a|i|i|j a|a]; cbn; try done.
  - unfold end_ctx. destruct (ws e !! i) as [w|] eqn:Hi; [|done]. destruct (w_ctx w) as [[]|]; try done.
    intros [= <-]. by apply (gate_still e i w).
  - unfold after_step. destruct (ws e !! i) as [w|] eqn:Hi; [|done].
    destruct (w_after w); try done.
    + destruct (w_ctx w) as [[]|]; try done. intros [= <-]. by apply (gate_still e i w).
    + destruct (w_cancel w) as [h|]; [|by destruct (w_ctx w)]. intros H.
      assert (H' : Some (set_w i (with_after AFired w)
        match table e !! h with Some (Some _) => set_handle h (Some true) e | _ => e end) = Some e') by (by destruct (w_ctx w)).
      injection H' as <-. rewrite (gate_still _ i w) by (by destruct (table e !! h) as [[|]|]).
      by destruct (table e !! h) as [[|]|].
  - unfold signal_step. destruct (sgs e !! j) as [[n|n|r]|]; try done; [by intros [= <-]|].
    destruct a; [|by intros [= <-]]. destruct (freed e); [done|]. destruct (_ <? _); by intros [= <-].
Qed.

(** [close] does not begin while one wait is between its decrement of [waiters] to zero
    and its look at [closed] and another is counted. *)
Definition calm_event (l : elabel) (e : eventImpl) : Prop :=
  match l with
  | LClose _ => e_closer e = CIdle -> e_waiters e = 0 \/ forall i w r, ws e !! i = Some w -> w_pc w <> WZero r
  | _ => True
  end.

(** A new event does not get a handle on which a callback is about to call [SetEvent]. *)
Definition careful_event (l : elabel) (e : eventImpl) : Prop :=
  match l with
  | LWait i (Works h) => forall j w, ws e !! j = Some w -> w_cancel w = Some h -> w_after w <> AStarted
  | _ => True
  end.

(** Every step of a run satisfies a condition in the state it starts from. *)
Fixpoint along (P : elabel -> eventImpl -> Prop) (ls : list elabel) (e : eventImpl) : Prop :=
  match ls with
  | [] => True
  | l :: ls => P l e /\ match event_step l e with Some e => along P ls e | None => True end
  end.

(** A property that every step keeps under a condition holds after a run. *)
Lemma event_run_ind (P : elabel -> eventImpl -> Prop) (I : eventImpl -> Prop) ls e e' :
  (forall l e e', I e -> P l e -> event_step l e = Some e' -> I e') ->
  I e -> along P ls e -> event_run ls e = Some e' -> I e'.
Proof.
  intros Hstep. revert e. induction ls as [|l ls IH]; intros e Hi; cbn; [by intros _ [= <-]|].
  intros [Hl Hls]. destruct (event_step l e) as [e1|] eqn:E; [|done]. apply IH; [by eapply Hstep|done].
Qed.

Lemma along_true ls e : along (fun _ _ => True) ls e.
Proof. revert e. induction ls as [|l ls IH]; intros e; [done|]. split; [done|]. by destruct (event_step l e). Qed.

Lemma gate_ok_step l e e' : life_ok (gate e) -> event_step l e = Some e' -> life_ok (gate e').
Proof.
  intros Hok. destruct l as [i a|i|i|j a|a]; intros Hs;
    try (by rewrite (side_step_gate _ _ _ Hs I)).
  - destruct (wait_step_gate _ _ _ _ Hs) as [->|[c Hc]]; [done|by eapply op_step_ok].
  - destruct (close_event_gate _ _ _ Hok Hs) as [->|Hc]; [done|by eapply close_step_ok].
Qed.

Lemma gate_safe_step l e e' :
  life_ok (gate e) -> life_safe (gate e) -> calm_event l e -> event_step l e = Some e' -> life_safe (gate e').
Proof.
  intros Hok Hsafe Hcalm. destruct l as [i a|i|i|j a|a]; intros Hs;
    try (by rewrite (side_step_gate _ _ _ Hs I)).
  - destruct (wait_step_gate _ _ _ _ Hs) as [->|[c Hc]]; [done|by eapply op_step_safe].
  - destruct (close_event_gate _ _ _ Hok Hs) as [->|Hc]; [done|]. eapply close_step_safe; [done..| |done].
    intros Hn. destruct Hcalm as [Hz|Hno]; [|by left|].
    + cbn in Hn. unfold gate_closer in Hn. destruct (e_closer e); try done. by destruct (freed e).
    + right. intros i Hi. cbn in Hi. apply list_lookup_fmap_Some_1 in Hi as (w & Hw & Hi').
      specialize (Hno i w). destruct (w_pc w); try done. by apply (Hno r).
Qed.

Lemma finishEvent_gate n0 k ctxs ns : gate (finishEvent n0 k ctxs ns) = life_start (List.length ctxs).
Proof.
  unfold gate, life_start. cbn. f_equal. induction ctxs as [|c ctxs IH]; [done|]. cbn. by rewrite <-IH.
Qed.

Lemma event_gate_ok n0 k ctxs ns ls e : event_run ls (finishEvent n0 k ctxs ns) = Some e -> life_ok (gate e).
Proof.
  apply (event_run_ind (fun _ _ => True) (fun e => life_ok (gate e))).
  - intros l e0 e1 H _. by apply gate_ok_step.
  - rewrite finishEvent_gate. apply life_start_ok.
  - apply along_true.
Qed.

(** C36: [close] closes the handles of the semaphore and of the event [closing] only when
    no wait uses them, provided that it does not begin while one wait is between its
    decrement of [waiters] to zero and its look at [closed] and another is counted. *)
Theorem event_close_frees_last (n0 : Z) (k : nat) (ctxs : list bool) (ns : list Z) (ls : list elabel) (e : eventImpl) :
  event_run ls (finishEvent n0 k ctxs ns) = Some e -> along calm_event ls (finishEvent n0 k ctxs ns) -> freed e = true ->
  forall i w, ws e !! i = Some w -> uses_handles (w_pc w) = false.
Proof.
  intros Hr Hcalm Hf i w Hi.
  assert (Hall : life_ok (gate e) /\ life_safe (gate e)).
  { revert Hr. apply (event_run_ind calm_event (fun e => life_ok (gate e) /\ life_safe (gate e))); [|rewrite finishEvent_gate; apply life_start_ok|done].
    intros l e0 e1 [H1 H2] Hc Hs. split; [by eapply gate_ok_step|by eapply gate_safe_step]. }
  destruct Hall as [Hok Hsafe]. rewrite <-inside_uses. eapply Hsafe; [| |by apply gate_lookup].
  - apply (lo_closing _ Hok). intros Hn. pose proof (proj1 (lo_mapped _ Hok)) as Hm. cbn in Hm, Hn. rewrite Hf in Hm.
    by rewrite Hm in Hn.
  - right; right; left. apply (lo_mapped _ Hok). cbn. by rewrite Hf.
Qed.

(** Once [closing] is set and the handles are open, a wait that has begun never blocks:
    it takes a step in which no call fails, except that it may get no new event. *)
Lemma wait_moves e i w :
  ws e !! i = Some w -> closing_set e = true -> freed e = false -> gate_pc (w_pc w) <> Outside ->
  exists a e', wait_step i a e = Some e' /\ (a = Fails -> w_pc w = WIn).
Proof.
  intros Hi Hc Hf Hr. unfold wait_step. rewrite Hi.
  destruct (w_pc w) eqn:Hpc; try done; try (exists (Works 0); eexists; split; [reflexivity|done]).
  - exists Fails. unfold prepare. destruct (w_ctx w); eexists; (split; [reflexivity|done]).
  - exists (Works 0). unfold block, signalled. rewrite Hf, Hc. destruct (0 <? sem e); eexists; (split; [reflexivity|done]).
Qed.

(** Only [close] changes these. *)
Lemma others_keep l e e' :
  event_step l e = Some e' -> match l with LClose _ => False | _ => True end ->
  e_closer e' = e_closer e /\ closing_set e' = closing_set e /\ closed e' = closed e.
Proof.
  intros Hs Hl. destruct l as [i a|i|i|j a|a]; cbn in Hs; try done; revert Hs;
    unfold wait_step, prepare, block, end_ctx, after_step, signal_step; intros Hs; repeat case_match; simplify_eq; done.
Qed.

Lemma closing_is_set ls n0 k ctxs ns e :
  event_run ls (finishEvent n0 k ctxs ns) = Some e ->
  match e_closer e with CSet | CWait | CFree => closing_set e = true | _ => True end.
Proof.
  apply (event_run_ind (fun _ _ => True)
    (fun e => match e_closer e with CSet | CWait | CFree => closing_set e = true | _ => True end)); [|done|apply along_true].
  intros l e0 e1 H _ Hs.
  destruct l as [i a|i|i|j a|a]; try (destruct (others_keep _ _ _ Hs I) as (-> & -> & _); done).
  revert Hs. cbn. unfold close_event. destruct (e_closer e0) eqn:Hc; intros Hs; repeat case_match; simplify_eq; cbn in *; done.
Qed.

(** [close] is never stuck: while it waits for [drained], its token is there, or a wait
    that has begun and not returned takes a step without a failure of the wait itself. *)
Theorem event_close_not_stuck (n0 : Z) (k : nat) (ctxs : list bool) (ns : list Z) (ls : list elabel) (e : eventImpl) :
  event_run ls (finishEvent n0 k ctxs ns) = Some e -> e_closer e = CWait ->
  e_drained e = true \/
  exists i w a e', ws e !! i = Some w /\ wait_step i a e = Some e' /\ (a = Fails -> w_pc w = WIn).
Proof.
  intros Hr Hw. pose proof (event_gate_ok _ _ _ _ _ _ Hr) as Hok. pose proof (closing_is_set _ _ _ _ _ _ Hr) as Hset.
  rewrite Hw in Hset.
  assert (Hg : closer (gate e) = Draining) by (cbn; unfold gate_closer; by rewrite Hw).
  assert (Hf : freed e = false).
  { destruct (freed e) eqn:Hf; [|done]. pose proof (proj1 (lo_mapped _ Hok)) as Hm. cbn in Hm. rewrite Hf in Hm.
    specialize (Hm eq_refl). cbn in Hg. congruence. }
  assert (Hfin : forall i pc, ops (gate e) !! i = Some pc -> pc <> Outside ->
    exists i w a e', ws e !! i = Some w /\ wait_step i a e = Some e' /\ (a = Fails -> w_pc w = WIn)).
  { intros i pc Hi Hp. cbn in Hi. apply list_lookup_fmap_Some_1 in Hi as (w & -> & Hi).
    destruct (wait_moves e i w Hi Hset Hf Hp) as (a & e' & H1 & H2). by exists i, w, a, e'. }
  destruct (lo_wait _ Hok Hg) as [Hd|[Hp|(i & pc & Hi & Hpc)]]; [by left| |].
  - right. rewrite (lo_tally _ Hok) in Hp. destruct (decide (Exists (fun pc => pc <> Outside) (ops (gate e)))) as [He|He].
    + apply list.Exists_exists in He as (pc & (i & Hi)%list_elem_of_lookup & Hne). by eapply Hfin.
    + exfalso. apply list.not_Exists_Forall in He; [|intros x; apply _]. rewrite list.Forall_lookup in He.
      assert (tally (ops (gate e)) = 0); [|lia]. apply tally_outside. intros i pc Hi. specialize (He i pc Hi). cbn in He.
      by destruct (decide (pc = Outside)).
  - right. apply (Hfin i pc Hi). by destruct pc.
Qed.

(** ** What a wait returns *)

(** The part of a call that owns the handle of its event. *)
Definition owns (w : waiter) : bool :=
  match w_pc w with WBlock | WWoken | WStop _ | WFree _ => true | _ => false end.

Definition ended (w : waiter) : Prop := w_ctx w = Some true.

(** The result a call has decided on. *)
Definition result_of (pc : wpc) : option wres :=
  match pc with WStop r | WFree r | WLeave r | WZero r | WSend r | WRet r => Some r | _ => None end.

Record wait_ok (e : eventImpl) (w : waiter) : Prop := {
  wk_closed : result_of (w_pc w) = Some RClosed -> closed e = true;
  wk_ctx : result_of (w_pc w) = Some RCtx -> ended w;
  wk_woken : w_pc w = WWoken -> closed e = true \/ ended w;
  wk_fired : w_after w = AStarted \/ w_after w = AFired -> ended w;
  wk_fresh : result_of (w_pc w) = None -> owns w = false -> w_cancel w = None /\ w_after w = ANone;
  wk_armed : w_after w = AArmed -> owns w = true /\ forall r, w_pc w <> WFree r;
  wk_event : owns w = true -> forall h, w_cancel w = Some h ->
    exists b, table e !! h = Some (Some b) /\ (b = true -> ended w) }.

(** No callback is about to set the event of another call. *)
Definition apart (e : eventImpl) : Prop :=
  forall i j w w' h, i <> j -> ws e !! i = Some w -> ws e !! j = Some w' ->
    w_cancel w = Some h -> w_cancel w' = Some h -> owns w = true -> owns w' = false /\ w_after w' <> AStarted.

Record results_ok (e : eventImpl) : Prop := {
  ro_set : closing_set e = true -> closed e = true;
  ro_mark : e_closer e <> CIdle -> closed e = true;
  ro_waits : forall i w, ws e !! i = Some w -> wait_ok e w;
  ro_apart : apart e }.

(** A step of call [i] that leaves the table alone. *)
Lemma results_move i w w' e :
  results_ok e -> ws e !! i = Some w -> wait_ok e w' -> w_cancel w' = w_cancel w ->
  (owns w' = true -> owns w = true \/ w_cancel w = None) ->
  (w_after w' = AStarted -> w_after w = AStarted \/ owns w = true) -> results_ok (set_w i w' e).
Proof.
  intros [S M W A] Hi Hw' Hc Ho Ha. split; [done|done| |].
  - intros j x Hj. cbn in Hj. destruct (moved_cases _ _ _ _ _ Hj) as [[-> ->]|[_ Hj']]; [by destruct Hw'|].
    by destruct (W j x Hj').
  - intros j k x y h Hjk Hj Hk Hx Hy Hox. cbn in Hj, Hk.
    destruct (moved_cases _ _ _ _ _ Hj) as [[-> ->]|[Hnj Hj']], (moved_cases _ _ _ _ _ Hk) as [[-> ->]|[Hnk Hk']]; try done.
    + destruct (Ho Hox) as [Ho'|Hn]; [|congruence]. rewrite Hc in Hx. by eapply (A i k).
    + rewrite Hc in Hy. destruct (A j i x w h Hjk Hj' Hi Hx Hy Hox) as [A1 A2]. split.
      * destruct (owns w') eqn:Ho'; [|done]. destruct (Ho eq_refl) as [|Hn]; congruence.
      * intros Hs. destruct (Ha Hs); congruence.
    + by eapply (A j k).
Qed.

(** An entry of the table that no other call owns changes. *)
Lemma results_table h o e :
  results_ok e ->
  (forall i w, ws e !! i = Some w -> w_cancel w = Some h -> owns w = true -> exists b, o = Some b /\ (b = true -> ended w)) ->
  results_ok (set_handle h o e).
Proof.
  intros [S M W A] Hown. split; [done|done| |by intros i j w w' k; cbn; apply A].
  intros i w Hi. cbn in Hi. destruct (W i w Hi) as [W1 W2 W3 W4 W5 W6 W7]. split; try done.
  intros Ho k Hk. destruct (W7 Ho k Hk) as (b & Hb & He). cbn. destruct (decide (k = h)) as [->|Hne].
  - destruct (Hown i w Hi Hk Ho) as (b' & -> & He'). exists b'. split; [|done]. by eapply moved_here.
  - exists b. by rewrite list_lookup_insert_ne by done.
Qed.

(** The fields that [wait_ok] and [apart] do not mention. *)
Lemma results_frame e e' :
  closing_set e' = closing_set e -> closed e' = closed e -> table e' = table e -> ws e' = ws e ->
  (e_closer e' <> CIdle -> e_closer e <> CIdle) -> results_ok e -> results_ok e'.
Proof.
  intros H1 H2 H3 H4 H5 [S M W A]. split.
  - by rewrite H1, H2.
  - rewrite H2. auto.
  - intros i w Hi. rewrite H4 in Hi. destruct (W i w Hi). split; rewrite ?H2, ?H3; done.
  - unfold apart. by rewrite H4.
Qed.

(** [CreateEvent] for call [i]. *)
Lemma results_alloc i w h e :
  results_ok e -> ws e !! i = Some w -> w_pc w = WIn -> table e !! h = Some None ->
  (forall j w, ws e !! j = Some w -> w_cancel w = Some h -> w_after w <> AStarted) ->
  results_ok (set_w i (mkW WBlock (w_ctx w) (Some h) AArmed) (set_handle h (Some false) e)).
Proof.
  intros [S M W A] Hi Hpc Ht Hst.
  assert (Hno : forall j x, ws e !! j = Some x -> w_cancel x = Some h -> owns x = false).
  { intros j x Hj Hx. destruct (owns x) eqn:Ho; [|done]. destruct (wk_event _ _ (W j x Hj) Ho h Hx) as (b & Hb & _). congruence. }
  split; [done|done| |].
  - intros j x Hj. cbn in Hj. destruct (moved_cases _ _ _ _ _ Hj) as [[-> ->]|[_ Hj']].
    + split; try done; [by intros [[=]|[=]]|]. intros _ k [= <-]. exists false. cbn. split; [by eapply moved_here|done].
    + destruct (W j x Hj') as [W1 W2 W3 W4 W5 W6 W7]. split; try done. intros Ho k Hk. cbn.
      rewrite list_lookup_insert_ne; [by apply W7|]. intros ->. rewrite (Hno j x) in Ho; done.
  - intros j k x y h' Hjk Hj Hk Hx Hy Hox. cbn in Hj, Hk.
    destruct (moved_cases _ _ _ _ _ Hj) as [[-> ->]|[Hnj Hj']], (moved_cases _ _ _ _ _ Hk) as [[-> ->]|[Hnk Hk']]; try done.
    + injection Hx as <-. split; [by eapply Hno|by eapply Hst].
    + injection Hy as <-. rewrite (Hno j x) in Hox; done.
    + by eapply (A j k).
Qed.

Ltac wok :=
  unfold owns, ended in *; cbn in *; intros; simplify_eq;
  repeat match goal with H : w_pc _ = _ |- _ => rewrite H end; try solve [done | by auto | by eauto | by intuition eauto | intuition congruence].

(** A call that changes only its counter. *)
Lemma results_pc i w pc e :
  results_ok e -> ws e !! i = Some w -> wait_ok e (at_pc pc w) ->
  (owns (at_pc pc w) = true -> owns w = true \/ w_cancel w = None) -> results_ok (set_w i (at_pc pc w) e).
Proof. intros Hok Hi Hw Ho. apply (results_move i w); auto. Qed.

Lemma wait_step_results i a e e' :
  results_ok e -> careful_event (LWait i a) e -> wait_step i a e = Some e' -> results_ok e'.
Proof.
  intros Hok Hcare. pose proof Hok as [S M W A]. unfold wait_step. destruct (ws e !! i) as [w|] eqn:Hi; [|done].
  pose proof (W i w Hi) as Hw. destruct Hw as [W1 W2 W3 W4 W5 W6 W7]. unfold owns, ended in W3, W4, W5, W6, W7.
  assert (Hpc' : forall pc e1, closing_set e1 = closing_set e -> closed e1 = closed e -> table e1 = table e -> ws e1 = ws e -> e_closer e1 = e_closer e ->
    (wait_ok e (at_pc pc w) /\ (owns (at_pc pc w) = true -> owns w = true \/ w_cancel w = None)) -> results_ok (set_w i (at_pc pc w) e1)).
  { intros pc e1 H1 H2 H3 H4 H7 [H5 H6]. apply (results_frame (set_w i (at_pc pc w) e)); cbn; try congruence. by apply results_pc. }
  destruct (w_pc w) eqn:Hpc; cbn in W1, W2, W3, W4, W5, W6, W7.
  - case_bool_decide; intros [= <-]; (apply Hpc'; [done..|]; split; [split|]; wok).
  - intros [= <-]. apply Hpc'; try done. destruct (closed e) eqn:Hcl; (split; [split|]; wok).
  - unfold prepare. destruct (W5 eq_refl eq_refl) as [Hn Ha]. destruct (w_ctx w) eqn:Hctx.
    + destruct a as [h|].
      * destruct (table e !! h) as [[|]|] eqn:Ht; try done. intros [= <-]. rewrite <-Hctx. by apply results_alloc.
      * intros [= <-]. apply Hpc'; try done. split; [split|]; wok.
    + intros [= <-]. apply Hpc'; try done. split; [split|]; wok.
  - unfold block. destruct a as [h|].
    + destruct (freed e); [done|]. unfold signalled. destruct (0 <? sem e).
      * intros [= <-]. apply Hpc'; try done. split; [split|]; wok.
      * destruct (closing_set e) eqn:Hcs.
        -- intros [= <-]. apply Hpc'; try done. split; [split|]; wok.
        -- destruct (w_cancel w) as [k|] eqn:Hk; [|done]. destruct (table e !! k) as [[[]|]|] eqn:Ht; try done.
           intros [= <-]. apply Hpc'; try done. destruct (W7 eq_refl k eq_refl) as (b & Hb & He).
           split; [split|]; wok.
    + intros [= <-]. apply Hpc'; try done. split; [split|]; wok.
  - intros [= <-]. apply Hpc'; try done. case_bool_decide; (split; [split|]; wok).
  - intros [= <-]. apply (results_move i w); try done; unfold owns; cbn; rewrite ?Hpc; auto.
    case_bool_decide; (split; wok).
  - intros [= <-].
    assert (Hm : results_ok (set_w i (at_pc (WLeave r) w) e)).
    { apply Hpc'; try done. split; [split|]; wok. }
    destruct (w_cancel w) as [h|] eqn:Hc; [|done].
    apply (results_table h None _ Hm). intros j x Hj Hx Ho. cbn in Hj.
    destruct (moved_cases _ _ _ _ _ Hj) as [[-> ->]|[Hne Hj']]; [done|].
    destruct (A j i x w h Hne Hj' Hi Hx Hc Ho) as [A1 _]. unfold owns in A1. by rewrite Hpc in A1.
  - intros [= <-]. destruct (_ =? 0); (apply Hpc'; [done..|]; split; [split|]; wok).
  - intros [= <-]. destruct (closed e) eqn:Hcl; (apply Hpc'; [done..|]; split; [split|]; wok).
  - intros [= <-]. apply Hpc'; try done. split; [split|]; wok.
  - done.
Qed.

Lemma end_ctx_results i e e' : results_ok e -> end_ctx i e = Some e' -> results_ok e'.
Proof.
  intros Hok. pose proof Hok as [S M W A]. unfold end_ctx. destruct (ws e !! i) as [w|] eqn:Hi; [|done].
  destruct (w_ctx w) as [[]|] eqn:Hc; try done. intros [= <-]. destruct (W i w Hi) as [W1 W2 W3 W4 W5 W6 W7].
  apply (results_move i w); auto. unfold ended in *. rewrite Hc in *.
  split; cbn; unfold ended; cbn; auto.
  intros Ho h Hh. destruct (W7 Ho h Hh) as (b & Hb & _). by exists b.
Qed.

Lemma after_step_results i e e' : results_ok e -> after_step i e = Some e' -> results_ok e'.
Proof.
  intros Hok. pose proof Hok as [S M W A]. unfold after_step. destruct (ws e !! i) as [w|] eqn:Hi; [|done].
  destruct (W i w Hi) as [W1 W2 W3 W4 W5 W6 W7]. destruct (w_after w) eqn:Ha; try done.
  - destruct (w_ctx w) as [[]|] eqn:Hc; try done. intros [= <-]. destruct (W6 eq_refl) as [Ho Hf].
    apply (results_move i w); auto. split; wok.
  - destruct (w_cancel w) as [h|] eqn:Hh; [|by destruct (w_ctx w)]. intros H.
    assert (H' : Some (set_w i (with_after AFired w)
      match table e !! h with Some (Some _) => set_handle h (Some true) e | _ => e end) = Some e') by (by destruct (w_ctx w)).
    injection H' as <-.
    assert (Hm : results_ok (set_w i (with_after AFired w) e)).
    { apply (results_move i w); auto. split; wok. }
    destruct (table e !! h) as [[b|]|]; try done.
    apply (results_table h (Some true) _ Hm). intros j x Hj Hx Ho. cbn in Hj. exists true. split; [done|]. intros _.
    destruct (moved_cases _ _ _ _ _ Hj) as [[-> ->]|[Hne Hj']]; [by apply W4; left|].
    by destruct (A j i x w h Hne Hj' Hi Hx Hh Ho) as [_ []].
Qed.

Lemma event_step_results l e e' : results_ok e -> careful_event l e -> event_step l e = Some e' -> results_ok e'.
Proof.
  intros Hok Hcare. destruct l as [i a|i|i|j a|a].
  - by apply wait_step_results.
  - by apply end_ctx_results.
  - by apply after_step_results.
  - cbn. unfold signal_step. intros Hs. revert Hok. repeat case_match; simplify_eq; by apply results_frame.
  - cbn. unfold close_event. pose proof Hok as [S M W A].
    destruct (e_closer e) eqn:Hc; intros Hs.
    + destruct (closed e) eqn:Hcl; simplify_eq.
      * split; cbn; [done|done|by intros i w Hi; destruct (W i w Hi)|done].
      * split; [done|done| |done]. intros i w Hi. destruct (W i w Hi). split; cbn; auto.
    + assert (Hcl : closed e = true) by (by apply M).
      destruct a; simplify_eq; (split; [done|done| |done]); intros i w Hi; by destruct (W i w Hi).
    + simplify_eq. revert Hok. apply results_frame; cbn; try done. by rewrite Hc.
    + destruct (e_drained e); [|done]. simplify_eq. revert Hok. apply results_frame; cbn; try done. by rewrite Hc.
    + simplify_eq. revert Hok. apply results_frame; cbn; try done. by rewrite Hc.
    + done.
Qed.

Lemma finishEvent_results n0 k ctxs ns : results_ok (finishEvent n0 k ctxs ns).
Proof.
  assert (Hw : forall i w, ws (finishEvent n0 k ctxs ns) !! i = Some w ->
    w_pc w = WOut /\ w_cancel w = None /\ w_after w = ANone).
  { intros i w Hi. cbn in Hi. by apply list_lookup_fmap_Some_1 in Hi as (c & -> & _). }
  split; [done|done| |].
  - intros i w Hi. destruct (Hw i w Hi) as (H1 & H2 & H3). split; unfold owns; rewrite ?H1, ?H2, ?H3; try done. by intros [|].
  - intros i j w w' h _ Hi _ Hc. destruct (Hw i w Hi) as (_ & H2 & _). congruence.
Qed.

(** A wait returns [ErrClosed] only after [close] began and the error of its context
    only after the context ended, provided that no new event gets a handle on which a
    callback of another wait is about to call [SetEvent]. *)
Theorem event_wait_results (n0 : Z) (k : nat) (ctxs : list bool) (ns : list Z) (ls : list elabel) (e : eventImpl) :
  event_run ls (finishEvent n0 k ctxs ns) = Some e -> along careful_event ls (finishEvent n0 k ctxs ns) ->
  forall i w r, ws e !! i = Some w -> w_pc w = WRet r ->
    (r = RClosed -> closed e = true) /\ (r = RCtx -> ended w).
Proof.
  intros Hr Hcare i w r Hi Hpc.
  assert (Hok : results_ok e).
  { revert Hr. apply (event_run_ind careful_event results_ok); [|apply finishEvent_results|done].
    intros l e0 e1 H1 H2 H3. by eapply event_step_results. }
  destruct (ro_waits _ Hok i w Hi) as [W1 W2 _ _ _ _ _]. rewrite Hpc in W1, W2. split; intros ->; auto.
Qed.

(** ** Two races *)

(** Two waits. The first takes a token and decrements [waiters] to zero; the second
    enters and blocks; [close] marks the event and sets [closing]; the first then finds
    [closed] set and leaves a token in [drained], which ends the wait of [close]. *)
Definition drained_race : list elabel :=
  [LWait 0 Fails; LWait 0 Fails; LWait 0 Fails; LWait 0 (Works 0); LWait 0 Fails; LWait 0 Fails; LWait 0 Fails;
   LWait 1 Fails; LWait 1 Fails; LWait 1 Fails; LClose (Works 0); LClose (Works 0); LClose (Works 0);
   LWait 0 Fails; LWait 0 Fails; LClose (Works 0); LClose (Works 0)].

(** Without its condition on [close], the handles can be closed under a wait: [close]
    takes a token of [drained] that was sent for a moment before it began, and closes the
    semaphore and [closing] while another call is in [WaitForMultipleObjects] on them. *)
Theorem event_handles_closed_in_use :
  exists e w, event_run drained_race (finishEvent 1 0 [false; false] []) = Some e /\
    freed e = true /\ e_closer e = CRet RNil /\ ws e !! 1%nat = Some w /\ w_pc w = WBlock.
Proof. do 2 eexists. split; [vm_compute; reflexivity|]. repeat split. Qed.

(** The context of the first wait ends as it takes a token: its callback has started when
    [stop] runs, and its event is closed. The second wait gets the same handle, and the
    callback of the first sets it. *)
Definition cancel_race : list elabel :=
  [LWait 0 Fails; LWait 0 Fails; LWait 0 (Works 0); LEnd 0; LAfter 0; LWait 0 (Works 0); LWait 0 Fails; LWait 0 Fails;
   LWait 0 Fails; LWait 0 Fails; LWait 1 Fails; LWait 1 Fails; LWait 1 (Works 0); LAfter 0; LWait 1 (Works 0); LWait 1 Fails;
   LWait 1 Fails; LWait 1 Fails; LWait 1 Fails; LWait 1 Fails].

(** without its condition on handles, a wait can return [ErrClosed] on an event that
    is open and whose context has not ended: the callback of an earlier wait calls
    [SetEvent] on a handle that was closed and given out again. *)
Theorem stale_cancel_reports_closed :
  exists e w, event_run cancel_race (finishEvent 1 1 [true; true] []) = Some e /\
    ws e !! 1%nat = Some w /\ w_pc w = WRet RClosed /\ closed e = false /\ e_closer e = CIdle /\ w_ctx w = Some false.
Proof. do 2 eexists. split; [vm_compute; reflexivity|]. repeat split. Qed.

(** A third: [signal] does not count itself in [waiters]. One that has found [gone] unset
    can call [ReleaseSemaphore] after [close] has closed the handle. *)
Theorem signal_on_closed_handle :
  exists e, event_run [LSignal 0 Fails; LClose Fails; LClose (Works 0); LClose Fails; LClose (Works 0)] (finishEvent 0 0 [] [1]) = Some e /\
    freed e = true /\ sgs e !! 0%nat = Some (SPast 1).
Proof. eexists. split; [vm_compute; reflexivity|]. split; reflexivity. Qed.

(** ** Witnesses *)

(** One wait is asleep when [close] begins. *)
Definition close_event_demo : list elabel :=
  [LSignal 0 Fails; LSignal 0 (Works 0); LWait 1 Fails; LWait 1 Fails; LWait 1 (Works 0); LWait 1 (Works 0);
   LWait 0 Fails; LWait 0 Fails; LWait 0 Fails;
   LClose Fails; LClose (Works 0); LClose Fails; LWait 0 (Works 0); LWait 0 Fails; LWait 0 Fails; LWait 0 Fails; LWait 1 Fails;
   LWait 1 Fails; LWait 0 Fails; LWait 1 Fails; LWait 1 Fails; LWait 1 Fails; LClose Fails; LClose (Works 0)].
Definition event_demo_start : eventImpl := finishEvent 0 1 [false; true] [1].
Definition event_demo_end : eventImpl := default event_demo_start (event_run close_event_demo event_demo_start).

Lemma event_close_frees_last_witness : uses_handles (WRet RClosed) = false.
Proof.
  assert (Hr : event_run close_event_demo event_demo_start = Some event_demo_end) by (vm_compute; reflexivity).
  apply (event_close_frees_last 0 1 [false; true] [1] close_event_demo event_demo_end Hr) with (i := 0%nat) (w := mkW (WRet RClosed) None None ANone);
    [|vm_compute; reflexivity..].
  vm_compute. repeat (split; [first [exact I | solve [intros [=]] | intros _; right; intros [|[|i]] w r [= <-]; discriminate]|]). exact I.
Defined.

Lemma event_wait_results_witness : closed event_demo_end = true.
Proof.
  assert (Hr : event_run close_event_demo event_demo_start = Some event_demo_end) by (vm_compute; reflexivity).
  refine (proj1 (event_wait_results 0 1 [false; true] [1] close_event_demo event_demo_end Hr _ 0 (mkW (WRet RClosed) None None ANone) RClosed _ _) _);
    [|vm_compute; reflexivity..].
  vm_compute. repeat (split; [first [exact I | intros [|[|i]] w [= <-]; discriminate]|]). exact I.
Defined.
