(* ===== verification/Channel.v ===== *)
(** * Channels ([src/channel.go])

    A channel is a queue for each direction. [CreateChannel] leaves the receiving end of
    the direction to the peer open, and the first [OpenChannel] takes it. The operations
    of a channel are those of its two queues. *)

From stdpp Require Import base numbers list list_numbers option.
From coqutil Require Import Byte.
From Stdlib Require Import ZArith Lia Bool.
From S2P Require Import Prelude Ipc Ring RingInv RingSeq Recover Queue QueueThm QueueFlow.

#[local] Open Scope Z_scope.
#[local] Open Scope queue_scope.

(** ** The channel *)

Record Channel : Type := mkChannel { tx : Queue; rx : Queue; ch_owner : bool }.

Definition set_reader (q : Queue) : Queue :=
  mkQueue (q_self q) true (q_idle q) (q_owned q) (q_peer q) (q_producers q) (q_onPeerGone q) (q_closing q).

(** [peerErr] of [rx] is an answer of the environment of its calls. *)
Definition newChannel (tx rx : Queue) (owner : bool) : Channel :=
  mkChannel
    (mkQueue (q_self tx) (q_reader tx) (q_idle tx) (q_owned tx) (q_peer tx) (q_producers tx)
       (q_onPeerGone tx ++ [SignalOther]) (q_closing tx))
    rx owner.

(** On the rings that [createQueue] has made: the one to the peer, whose receiver is
    pending, and the one from it. *)
Definition CreateChannel (self : Z) : Channel := newChannel (newQueue self false) (newQueue self true) true.

(** [rx.ring.hdr.consumer.CompareAndSwap(pendingProc, rx.self)]. *)
Definition take_reader : M bool := fun s =>
  if consumer (hdr (s_ring s)) =? pendingProc
  then Some (mkSt (s_q s) (set_hdr (with_consumer (q_self (s_q s))) (s_ring s)) (s_out s) (s_fn s), inr true)
  else Some (s, inr false).

(** On the ring from the opener ([down]) and the ring to it ([up]), which [openQueue] has
    attached: the rings afterwards, the handles, the error, and the signals sent on each. *)
Record open_result : Type := mkOpen {
  o_down : Ring; o_up : Ring; o_tx : Queue; o_rx : Queue; o_result : failure + Channel; o_signals : list signal }.

Definition OpenChannel (E : env) (self : Z) (down up : Ring) : option open_result :=
  match checkPeer E (mkSt (newQueue self false) down [] []) with
  | None => None
  | Some (s, inl e) =>
      match Close s with
      | None => None
      | Some (s, _) => Some (mkOpen (s_ring s) up (s_q s) (set_closing (newQueue self false)) (inl e) (s_out s))
      end
  | Some (s, inr _) =>
      match take_reader (mkSt (newQueue self false) up [] []) with
      | None => None
      | Some (t, inl e) => None
      | Some (t, inr false) =>
          match Close t, Close s with
          | Some (t, _), Some (s, _) => Some (mkOpen (s_ring s) (s_ring t) (s_q s) (s_q t) (inl (Of ErrInUse)) (s_out s ++ s_out t))
          | _, _ => None
          end
      | Some (t, inr true) =>
          match wakeSenders (mkSt (set_reader (s_q t)) (s_ring t) (s_out t) (s_fn t)) with
          | None => None
          | Some (t, _) =>
              let ch := newChannel (s_q s) (s_q t) false in
              Some (mkOpen (s_ring s) (s_ring t) (tx ch) (rx ch) (inr ch) (s_out s ++ [SignalNotEmpty] ++ s_out t))
          end
      end
  end.

(** ** The handles of a channel *)

(** The two directions with all handles on them, and the places of the handles of the
    openers that succeeded. *)
Record channels : Type := mkChannels { ch_up : system; ch_down : system; ch_opened : list (nat * nat) }.

Definition channels_start (self : Z) (up down : Ring) : channels :=
  let c := CreateChannel self in mkChannels (mkSystem up [tx c] []) (mkSystem down [rx c] []) [].

Definition add_handle (q : Queue) (r : Ring) (y : system) : system := mkSystem r (sys_handles y ++ [q]) (sys_claims y).

Definition open_step (E : env) (self : Z) (s : channels) : option channels :=
  match OpenChannel E self (sys_ring (ch_down s)) (sys_ring (ch_up s)) with
  | None => None
  | Some o =>
      Some (mkChannels (add_handle (o_rx o) (o_up o) (ch_up s)) (add_handle (o_tx o) (o_down o) (ch_down s))
        (ch_opened s ++
         match o_result o with
         | inr _ => [(List.length (sys_handles (ch_up s)), List.length (sys_handles (ch_down s)))]
         | inl _ => []
         end))
  end.

(** The channels that processes reach: one creates the channel, any number open it, and
    all use and close the queues of their channels. *)
Inductive channel_reach (self : Z) (up down : Ring) : channels -> Prop :=
| ChStart : channel_reach self up down (channels_start self up down)
| ChOpen E p s s' :
    channel_reach self up down s -> p <> pendingProc -> open_step E p s = Some s' -> channel_reach self up down s'
| ChUp E k a s y :
    channel_reach self up down s -> sys_step E k a (ch_up s) = Some y ->
    channel_reach self up down (mkChannels y (ch_down s) (ch_opened s))
| ChDown E k a s y :
    channel_reach self up down s -> sys_step E k a (ch_down s) = Some y ->
    channel_reach self up down (mkChannels (ch_up s) y (ch_opened s))
| ChDie p s :
    channel_reach self up down s ->
    channel_reach self up down (mkChannels (sys_die p (ch_up s)) (sys_die p (ch_down s)) (ch_opened s)).

(** ** What a call does to the receiving end *)

(** The handle stays a reader or not, and the receiver of the ring stays or goes. *)
Definition keeps_reader (s s' : st) : Prop :=
  q_reader (s_q s') = q_reader (s_q s) /\
  (consumer (hdr (s_ring s')) = consumer (hdr (s_ring s)) \/ consumer (hdr (s_ring s')) = noProc).

#[export] Instance keeps_reader_frame : Frame keeps_reader.
Proof.
  split; [|by intros; split; [|left]]. intros s1 s2 s3 [H1 H2] [H3 H4]. split; [congruence|].
  destruct H4 as [->| ->]; [done|by right].
Qed.

Lemma keeps_of s s' : q_reader (s_q s') = q_reader (s_q s) -> counts (s_ring s') = counts (s_ring s) -> keeps_reader s s'.
Proof. intros Hq [= _ _ H]. split; [done|by left]. Qed.

Lemma keeps_takeSlot E : preserves keeps_reader (takeSlot E).
Proof.
  intros s s' r. unfold takeSlot, bind at 1, get. destruct (unsnoc _) as [[idle slot]|]; [intros [= <- _]; by apply keeps_of|].
  pose proof (counts_acquireSlot (q_self (s_q s)) (isDead E) (s_ring s)) as Ha.
  destruct (acquireSlot _ _ _) as [r1 [i|e]]; intros [= <- _]; by apply keeps_of.
Qed.

Lemma keeps_putSlot slot : preserves keeps_reader (putSlot slot).
Proof. intros s s' r [= <- _]. by apply keeps_of. Qed.

Lemma keeps_ring_write slot typ payload : preserves keeps_reader (ring_write slot typ payload).
Proof.
  intros s s' r. unfold ring_write. destruct (tryWrite _ _ _ _ _) as [[r1 [e|]]|] eqn:H; [| |done];
    apply counts_tryWrite in H; intros [= <- _]; by apply keeps_of.
Qed.

Lemma keeps_ring_claim slot typ length : preserves keeps_reader (ring_claim slot typ length).
Proof.
  intros s s' r. unfold ring_claim. destruct (tryClaim _ _ _ _ _) as [[r1 [c|e]]|] eqn:H; [| |done];
    apply counts_tryClaim in H; intros [= <- _]; by apply keeps_of.
Qed.

Lemma keeps_receive E limit : preserves keeps_reader (receive E limit).
Proof.
  apply preserves_receive; [apply _| |].
  - intros l s s' r. unfold ring_read. destruct (Read l (s_ring s)) as [res|] eqn:H; [|done].
    apply counts_Read in H. intros [= <- _]. by apply keeps_of.
  - apply preserves_unstall; [apply _|]. intros s. apply keeps_of; [done|apply counts_unstall].
Qed.

Lemma keeps_upd_ring f : (forall r, counts (f r) = counts r) -> preserves keeps_reader (upd_ring f).
Proof. intros Hf s s' r [= <- _]. apply keeps_of; [done|apply Hf]. Qed.

Lemma counts_settle c r : counts (Commit c r) = counts r /\ counts (Abort c r) = counts r.
Proof. unfold Commit, Abort, release. by split; case_match. Qed.

Lemma keeps_settle c : preserves keeps_reader (upd_ring (Commit c)) /\ preserves keeps_reader (upd_ring (Abort c)).
Proof. split; apply keeps_upd_ring; intros r; apply (counts_settle c r). Qed.

#[local] Hint Resolve keeps_takeSlot keeps_putSlot keeps_ring_write keeps_ring_claim keeps_receive : frame.

Lemma keeps_upd_queue f : (forall q, q_reader (f q) = q_reader q) -> preserves keeps_reader (upd_queue f).
Proof. intros Hf s s' r [= <- _]. apply keeps_of; [apply Hf|done]. Qed.

Lemma counts_drop self l r : counts (foldl (fun r slot => dropSlot self slot r) r l) = counts r.
Proof.
  revert r. induction l as [|x l IH]; intros r; [done|]. cbn [foldl]. rewrite IH. unfold dropSlot. repeat case_match; done.
Qed.

Lemma keeps_Close : preserves keeps_reader Close.
Proof.
  assert (Hreader : forall b self, preserves keeps_reader (if b : bool then
      do _ <- upd_ring (fun r => if consumer (hdr r) =? self then set_hdr (with_consumer noProc) r else r) in wakeSenders else ret tt)).
  { intros [] self; [|frame]. apply preserves_bind; [apply _| |intros _; frame]. intros s s' r [= <- _]. split; [done|]. cbn.
    case_match; [by right|by left]. }
  unfold Close. apply preserves_bind; [apply _|apply preserves_get; apply _|]. intros s. case_match; [frame|].
  apply preserves_bind; [apply _|by apply keeps_upd_queue|intros _]. apply preserves_bind; [apply _|apply Hreader|intros _].
  apply preserves_bind; [apply _|by apply keeps_upd_queue|intros _]. apply preserves_bind; [apply _|by apply keeps_upd_queue|intros _].
  apply preserves_bind; [apply _|apply keeps_upd_ring; intros; apply counts_drop|intros _]. by apply keeps_upd_queue.
Qed.

Lemma keeps_perform E a : preserves keeps_reader (perform E a).
Proof.
  pose proof keeps_Close. pose proof (fun c => proj1 (keeps_settle c)). pose proof (fun c => proj2 (keeps_settle c)).
  destruct a; cbn [perform]; (apply preserves_bind; [apply _| |intros; frame]);
    unfold TrySendTyped, entered, write, claim, Commit_, Abort_, TryRecv_, reading, entered, recvOne; frame.
Qed.

(** ** One receiver for each direction *)

(** The handles of [y] that may receive are at [ks]. *)
Definition readers_at (y : system) (ks : list nat) : Prop :=
  forall k q, sys_handles y !! k = Some q -> q_reader q = true -> k ∈ ks.

Record one_reader (s : channels) : Prop := {
  or_up : readers_at (ch_up s) (ch_opened s).*1;
  or_down : readers_at (ch_down s) [0%nat];
  or_once : (List.length (ch_opened s) <= 1)%nat;
  or_pending : consumer (hdr (sys_ring (ch_up s))) = pendingProc -> ch_opened s = [] }.

Lemma sys_step_readers E k a y y' ks :
  sys_step E k a y = Some y' -> readers_at y ks ->
  readers_at y' ks /\ (consumer (hdr (sys_ring y')) = pendingProc -> consumer (hdr (sys_ring y)) = pendingProc).
Proof.
  unfold sys_step. destruct (sys_handles y !! k) as [q|] eqn:Hq; [|done]. case_match; [|done].
  destruct (perform E a (mkSt q (sys_ring y) [] [])) as [[s' r]|] eqn:Hp; [|done]. intros [= <-] Hr.
  apply keeps_perform in Hp as [H1 H2]. cbn in H1, H2. split.
  - intros j q' [[-> ->]|[_ Hj]]%moved_cases; [rewrite H1; by apply Hr|by apply Hr].
  - cbn. unfold pendingProc, noProc in *. destruct H2; congruence.
Qed.

Lemma sys_die_readers p y ks : readers_at y ks -> readers_at (sys_die p y) ks.
Proof.
  intros Hr k q. unfold sys_die. cbn. rewrite list_lookup_fmap. destruct (sys_handles y !! k) as [q0|] eqn:E; [|done]. cbn.
  intros [= <-] Hq. apply (Hr k q0 E). by destruct (q_self q0 =? p).
Qed.

Lemma add_readers q r y ks :
  readers_at y ks -> (q_reader q = true -> List.length (sys_handles y) ∈ ks) -> readers_at (add_handle q r y) ks.
Proof.
  intros Hr Hq k q' [H|[H1 H2]]%lookup_app_Some; [by apply Hr|]. apply list_lookup_singleton_Some in H2 as [Hk <-].
  intros Hrd. by replace k with (List.length (sys_handles y)) by lia; auto.
Qed.

(** What an open does: the handles it makes read only when it succeeds, and it succeeds
    only when no peer has taken the channel. *)
Lemma OpenChannel_spec E self down up o :
  self <> pendingProc -> OpenChannel E self down up = Some o ->
  q_reader (o_tx o) = false /\
  match o_result o with
  | inr _ => consumer (hdr up) = pendingProc /\ consumer (hdr (o_up o)) <> pendingProc
  | inl _ => q_reader (o_rx o) = false /\ (consumer (hdr (o_up o)) = pendingProc -> consumer (hdr up) = pendingProc)
  end.
Proof.
  intros Hself. unfold OpenChannel. destruct (checkPeer E _) as [[s [e|[]]]|] eqn:Hc; [| |done];
    apply (preserves_checkPeer keeps_reader) in Hc as [H1 _]; cbn in H1.
  - destruct (Close s) as [[s' r]|] eqn:Hcl; [|done]. intros [= <-]. apply keeps_Close in Hcl as [H2 _]. cbn. split; [congruence|done].
  - unfold take_reader. cbn [s_ring s_q]. destruct (Z.eqb_spec (consumer (hdr up)) pendingProc) as [Hp|Hp].
    + destruct (wakeSenders _) as [[t r]|] eqn:Hw; [|done]. intros [= <-].
      assert (Hring : s_ring t = set_hdr (with_consumer self) up).
      { revert Hw. unfold wakeSenders, bind, get. cbn. case_match; by intros [= <- _]. }
      cbn. split; [done|]. split; [done|]. by rewrite Hring.
    + destruct (Close (mkSt (newQueue self false) up [] [])) as [[t r]|] eqn:Ht; [|done]. destruct (Close s) as [[s' r']|] eqn:Hs; [|done].
      intros [= <-]. apply keeps_Close in Ht as [H2 H3]. apply keeps_Close in Hs as [H4 _]. cbn in *. split; [congruence|]. split; [done|].
      unfold pendingProc, noProc in *. destruct H3; congruence.
Qed.

Lemma open_step_inv E self s s' : self <> pendingProc -> one_reader s -> open_step E self s = Some s' -> one_reader s'.
Proof.
  intros Hself []. unfold open_step. destruct (OpenChannel _ _ _ _) as [o|] eqn:Ho; [|done]. intros [= <-].
  apply OpenChannel_spec in Ho as [Htx Hres]; [|done].
  assert (Hup : readers_at (ch_up s) ((ch_opened s ++ match o_result o with
    | inr _ => [(List.length (sys_handles (ch_up s)), List.length (sys_handles (ch_down s)))] | inl _ => [] end).*1)).
  { intros k q Hk Hq. rewrite fmap_app. apply elem_of_app. left. by eapply or_up0. }
  split; cbn [ch_up ch_down ch_opened].
  - apply add_readers; [done|]. destruct (o_result o); [destruct Hres; congruence|]. intros _. rewrite fmap_app. apply elem_of_app. right. by left.
  - apply add_readers; [done|congruence].
  - destruct (o_result o); [by rewrite app_nil_r|]. destruct Hres as [Hp _]. by rewrite (or_pending0 Hp).
  - cbn. destruct (o_result o); [|destruct Hres; congruence]. destruct Hres as [_ Hp]. rewrite app_nil_r. auto.
Qed.

Lemma channel_reach_inv self up down s : channel_reach self up down s -> one_reader s.
Proof.
  induction 1 as [|E p s s' _ IH Hp Hs|E k a s y _ IH Hs|E k a s y _ IH Hs|p s _ IH].
  - split; cbn; try done; try lia.
    + intros [|k] q Hk Hq; [by injection Hk as <-|done].
    + intros [|k] q Hk Hq; [by left|done].
  - by eapply open_step_inv.
  - destruct IH. destruct (sys_step_readers _ _ _ _ _ _ Hs or_up0) as [H1 H2]. split; [done|done|done|]. intros Hp. by apply or_pending0, H2.
  - destruct IH. destruct (sys_step_readers _ _ _ _ _ _ Hs or_down0) as [H1 H2]. by split.
  - destruct IH. split; [by apply sys_die_readers|by apply sys_die_readers|done|done].
Qed.

(** ** Theorems *)

(** C22: each direction of a channel has one receiver. However many processes open a
    channel, use its queues, close them and die, at most one open succeeds ever, only the
    creator may receive in the direction from the peer, and only the opener that
    succeeded in the direction to it: the ring of each direction is read through one
    handle. *)
Theorem channel_one_reader (self : Z) (up down : Ring) (s : channels) :
  channel_reach self up down s ->
  (List.length (ch_opened s) <= 1)%nat /\
  (forall k k' q q', sys_handles (ch_up s) !! k = Some q -> sys_handles (ch_up s) !! k' = Some q' ->
     q_reader q = true -> q_reader q' = true -> k = k') /\
  (forall k q, sys_handles (ch_down s) !! k = Some q -> q_reader q = true -> k = 0%nat).
Proof.
  intros Hr. destruct (channel_reach_inv self up down s Hr). split; [done|]. split.
  - intros k k' q q' Hk Hk' Hq Hq'. pose proof (or_up0 k q Hk Hq) as H1. pose proof (or_up0 k' q' Hk' Hq') as H2.
    destruct (ch_opened s) as [|x [|y l]]; cbn in *; [by apply not_elem_of_nil in H1| |lia].
    apply list_elem_of_singleton in H1. apply list_elem_of_singleton in H2. congruence.
  - intros k q Hk Hq. pose proof (or_down0 k q Hk Hq) as H. by apply list_elem_of_singleton in H.
Qed.

(** ** Witnesses *)

Definition demo_up : Ring := set_hdr (with_consumer pendingProc) demo_queue_ring.
Definition demo_channels0 : channels := channels_start (randomID 3) demo_up demo_queue_ring.
Definition demo_channels (p : Z) (s : channels) : channels := default s (open_step demo_env p s).
Definition demo_channels2 : channels := demo_channels (randomID 2) (demo_channels (randomID 1) demo_channels0).

Lemma demo_open p s : match open_step demo_env p s with Some _ => true | None => false end = true ->
  open_step demo_env p s = Some (demo_channels p s).
Proof. unfold demo_channels. by destruct (open_step demo_env p s). Qed.

Lemma channel_one_reader_witness : (List.length (ch_opened demo_channels2) <= 1)%nat /\ List.length (ch_opened demo_channels2) = 1%nat.
Proof.
  split; [|vm_compute; reflexivity].
  refine (proj1 (channel_one_reader (randomID 3) demo_up demo_queue_ring demo_channels2 _)).
  eapply ChOpen; [eapply ChOpen; [apply ChStart| |apply demo_open]| |apply demo_open]; vm_compute; reflexivity || discriminate.
Defined.
