(* ===== verification/ChannelFlow.v ===== *)
(** * The operations of a channel ([src/channel.go])

    A channel sends on one queue and receives from the other, and its receiving queue
    asks the sending one whether the peer is gone ([rx.peerErr = tx.checkPeer]), before it
    reads. The calls are those of Queue on one of the two handles. Two ends that use a
    channel over its two rings are two first-in first-out queues, and an end whose peer
    has closed gets every message the peer sent and then [ErrPeerGone]. *)

From stdpp Require Import base numbers list list_numbers option.
From coqutil Require Import Byte.
From Stdlib Require Import ZArith Lia Bool.
From S2P Require Import Prelude Ipc Ring RingInv RingSeq Recover Queue QueueThm QueueFlow Channel.

#[local] Open Scope Z_scope.
#[local] Open Scope queue_scope.

(** ** The calls *)

(** A channel in a process, with the ring it sends on, the ring it receives from and the
    signals of its calls. *)
Record cstate : Type := mkCs { cs_ch : Channel; cs_out : Ring; cs_in : Ring; cs_signals : list signal }.

Definition CM (A : Type) : Type := cstate -> option (cstate * (failure + A)).

Definition on_tx {A} (m : M A) : CM A := fun c =>
  match m (mkSt (tx (cs_ch c)) (cs_out c) [] []) with
  | None => None
  | Some (s, r) =>
      Some (mkCs (mkChannel (s_q s) (rx (cs_ch c)) (ch_owner (cs_ch c))) (s_ring s) (cs_in c) (cs_signals c ++ s_out s), r)
  end.

Definition on_rx {A} (m : M A) : CM A := fun c =>
  match m (mkSt (rx (cs_ch c)) (cs_in c) [] []) with
  | None => None
  | Some (s, r) =>
      Some (mkCs (mkChannel (tx (cs_ch c)) (s_q s) (ch_owner (cs_ch c))) (cs_out c) (s_ring s) (cs_signals c ++ s_out s), r)
  end.

Definition Channel_SendTyped (rounds : list round) (typ : Z) (payload : list byte) : CM unit := on_tx (SendTyped rounds typ payload).
Definition Channel_Send (rounds : list round) (payload : list byte) : CM unit := on_tx (SendTyped rounds 0 payload).
Definition Channel_TrySendTyped (E : env) (typ : Z) (payload : list byte) : CM unit := on_tx (TrySendTyped E typ payload).
Definition Channel_TrySend (E : env) (payload : list byte) : CM unit := on_tx (TrySendTyped E 0 payload).
Definition Channel_Claim (rounds : list round) (typ length : Z) : CM Claim := on_tx (Claim_ rounds typ length).
Definition Channel_Commit (cl : Claim) : CM unit := on_tx (Commit_ cl).
Definition Channel_Abort (cl : Claim) : CM unit := on_tx (Abort_ cl).

(** In the calls that wait, what [peerErr] reports is an answer of each moment. *)
Definition Channel_RecvInto (rounds : list round) : CM delivery := on_rx (RecvInto rounds).
Definition Channel_Recv (rounds : list round) : CM delivery := Channel_RecvInto rounds.
Definition Channel_ReadBatch (rounds : list round) (limit : Z) : CM (list delivery) := on_rx (ReadBatch rounds limit).

Definition Channel_MaxMessageSize (c : cstate) : Z := MaxMessageSize (cs_out c).

Definition with_peerErr (e : option failure) (E : env) : env := mkEnv (isDead E) (canWatch E) (receiverUnlinked E) e.

Definition error_of {A} (r : failure + A) : option failure := match r with inl e => Some e | inr _ => None end.

(** [receive] calls [tx.checkPeer] once its own checks have passed, before it reads. *)
Definition Channel_TryRecv (E : env) : CM delivery := fun c =>
  if q_closing (rx (cs_ch c)) || negb (q_reader (rx (cs_ch c))) then on_rx (TryRecv_ E) c
  else match on_tx (checkPeer E) c with
       | None => None
       | Some (c, r) => on_rx (TryRecv_ (with_peerErr (error_of r) E)) c
       end.

(** The receiving end closes first; [tx.notEmpty.Signal] then wakes a peer in [Recv]. *)
Definition Channel_Close_ : CM unit := fun c =>
  match on_rx Close c with
  | None => None
  | Some (c, r1) =>
      match on_tx Close (mkCs (cs_ch c) (cs_out c) (cs_in c) (cs_signals c ++ [SignalNotEmpty])) with
      | None => None
      | Some (c, r2) => Some (c, match r1 with inl e => inl e | inr _ => r2 end)
      end
  end.

(** ** The two ends *)

(** The ends by a flag: the creator's is [true]. [ring_of e] is the ring on which [e] sends. *)
Record duplex : Type := mkDuplex { end_of : bool -> Channel; ring_of : bool -> Ring }.

Definition upd {A} (e : bool) (x : A) (f : bool -> A) : bool -> A := fun e' => if Bool.eqb e' e then x else f e'.

Definition at_end {A} (e : bool) (m : CM A) (d : duplex) : option (duplex * (failure + A)) :=
  match m (mkCs (end_of d e) (ring_of d e) (ring_of d (negb e)) []) with
  | None => None
  | Some (c, r) => Some (mkDuplex (upd e (cs_ch c) (end_of d)) (upd e (cs_out c) (upd (negb e) (cs_in c) (ring_of d))), r)
  end.

Definition ok_of {A B} (x : B) (r : failure + A) : list B := match r with inr _ => [x] | inl _ => [] end.
Definition values {A} (r : failure + A) : list A := match r with inr a => [a] | inl _ => [] end.

(** The two ends send and receive without waiting, learn of exits, and close. [sent e] are
    the messages that [e] had accepted, [got e] those that it received. *)
Inductive talk (d0 : duplex) : duplex -> (bool -> list delivery) -> (bool -> list delivery) -> Prop :=
| TalkStart : talk d0 d0 (fun _ => []) (fun _ => [])
| TalkSend d sent got e E typ payload d' r :
    talk d0 d sent got -> send_room (ring_of d e) -> 0 <= typ < 2 ^ 32 ->
    at_end e (Channel_TrySendTyped E typ payload) d = Some (d', r) ->
    talk d0 d' (upd e (sent e ++ ok_of (typ, payload) r) sent) got
| TalkRecv d sent got e E d' r :
    talk d0 d sent got -> at_end e (Channel_TryRecv E) d = Some (d', r) ->
    talk d0 d' sent (upd e (got e ++ values r) got)
| TalkExit d sent got e id err d' r :
    talk d0 d sent got ->
    at_end e (on_tx (peerExited id err)) d = Some (d', r) \/ at_end e (on_rx (producerExited id err)) d = Some (d', r) ->
    talk d0 d' sent got
| TalkClose d sent got e d' r :
    talk d0 d sent got -> at_end e Channel_Close_ d = Some (d', r) -> talk d0 d' sent got.

(** ** What a call keeps of an end *)

Definition same_end (s s' : st) : Prop :=
  q_self (s_q s') = q_self (s_q s) /\ q_reader (s_q s') = q_reader (s_q s) /\ q_closing (s_q s') = q_closing (s_q s) /\
  consumer (hdr (s_ring s')) = consumer (hdr (s_ring s)).

#[export] Instance same_end_frame : Frame same_end.
Proof. split; [|done]. intros s1 s2 s3 (?&?&?&?) (?&?&?&?). split_and!; congruence. Qed.

Lemma same_end_of s s' :
  q_self (s_q s') = q_self (s_q s) -> q_reader (s_q s') = q_reader (s_q s) -> q_closing (s_q s') = q_closing (s_q s) ->
  counts (s_ring s') = counts (s_ring s) -> same_end s s'.
Proof. intros H1 H2 H3 [= _ _ H]. done. Qed.

Lemma end_takeSlot E : preserves same_end (takeSlot E).
Proof.
  intros s s' r. unfold takeSlot, bind at 1, get. destruct (unsnoc _) as [[idle slot]|]; [intros [= <- _]; by apply same_end_of|].
  pose proof (counts_acquireSlot (q_self (s_q s)) (isDead E) (s_ring s)) as Ha.
  destruct (acquireSlot _ _ _) as [r1 [i|e]]; intros [= <- _]; by apply same_end_of.
Qed.

Lemma end_putSlot slot : preserves same_end (putSlot slot).
Proof. intros s s' r [= <- _]. by apply same_end_of. Qed.

Lemma end_ring_write slot typ payload : preserves same_end (ring_write slot typ payload).
Proof.
  intros s s' r. unfold ring_write. destruct (tryWrite _ _ _ _ _) as [[r1 [e|]]|] eqn:H; [| |done];
    apply counts_tryWrite in H; intros [= <- _]; by apply same_end_of.
Qed.

Lemma end_receive E limit : preserves same_end (receive E limit).
Proof.
  apply preserves_receive; [apply _| |].
  - intros l s s' r. unfold ring_read. destruct (Read l (s_ring s)) as [res|] eqn:H; [|done].
    apply counts_Read in H. intros [= <- _]. by apply same_end_of.
  - apply preserves_unstall; [apply _|]. intros s. apply same_end_of; try done. apply counts_unstall.
Qed.
#[local] Hint Resolve end_takeSlot end_putSlot end_ring_write end_receive : frame.

Lemma end_TrySend E typ payload : preserves same_end (TrySendTyped E typ payload).
Proof. unfold TrySendTyped, entered, write. frame. Qed.

Lemma end_TryRecv E : preserves same_end (TryRecv_ E).
Proof. unfold TryRecv_, reading, entered, recvOne. frame. Qed.

Lemma wakeSenders_end s : exists l, wakeSenders s = Some (mkSt (s_q s) (s_ring s) l (s_fn s), inr tt).
Proof. unfold wakeSenders, bind, get. case_match; [by eexists|]. destruct s. by eexists. Qed.

(** What [Close] does to an end. *)
Lemma Close_end s :
  exists s' r, Close s = Some (s', r) /\ q_self (s_q s') = q_self (s_q s) /\ q_reader (s_q s') = q_reader (s_q s) /\
    q_closing (s_q s') = true /\
    consumer (hdr (s_ring s')) =
      (if negb (q_closing (s_q s)) && q_reader (s_q s) && (consumer (hdr (s_ring s)) =? q_self (s_q s)) then noProc
       else consumer (hdr (s_ring s))).
Proof.
  unfold Close, bind at 1, get. destruct (q_closing (s_q s)) eqn:Hc; [by do 2 eexists|].
  assert (Hd : forall self l r, consumer (hdr (foldl (fun r slot => dropSlot self slot r) r l)) = consumer (hdr r)).
  { intros self l r. pose proof (counts_drop self l r) as [= _ _ H]. done. }
  unfold bind, upd_queue, upd_ring. destruct (q_reader (s_q s)) eqn:Hr.
  - cbn [s_q s_ring s_out s_fn set_closing q_self]. match goal with |- context [wakeSenders ?x] => destruct (wakeSenders_end x) as [l ->] end.
    cbn. do 2 eexists. split; [done|]. cbn. split_and!; try done. rewrite Hd. by case_match.
  - cbn. do 2 eexists. split; [done|]. cbn. split_and!; try done; by rewrite Hd.
Qed.

(** ** The invariant *)

(** What the calls of a channel other than [Close] keep. *)
Definition same_ends (c c' : cstate) : Prop :=
  q_reader (tx (cs_ch c')) = q_reader (tx (cs_ch c)) /\ q_reader (rx (cs_ch c')) = q_reader (rx (cs_ch c)) /\
  q_self (rx (cs_ch c')) = q_self (rx (cs_ch c)) /\ q_closing (rx (cs_ch c')) = q_closing (rx (cs_ch c)) /\
  consumer (hdr (cs_out c')) = consumer (hdr (cs_out c)) /\ consumer (hdr (cs_in c')) = consumer (hdr (cs_in c)).

Lemma same_ends_trans c1 c2 c3 : same_ends c1 c2 -> same_ends c2 c3 -> same_ends c1 c3.
Proof. intros (?&?&?&?&?&?) (?&?&?&?&?&?). split_and!; congruence. Qed.

Lemma on_tx_ends {A} (m : M A) c c' r : preserves same_end m -> on_tx m c = Some (c', r) -> same_ends c c' /\ cs_in c' = cs_in c.
Proof.
  intros Hm. unfold on_tx. destruct (m _) as [[s r0]|] eqn:E; [|done]. intros [= <- <-]. destruct (Hm _ _ _ E) as (H1 & H2 & H3 & H4).
  by split_and!.
Qed.

Lemma on_rx_ends {A} (m : M A) c c' r : preserves same_end m -> on_rx m c = Some (c', r) -> same_ends c c' /\ cs_out c' = cs_out c.
Proof.
  intros Hm. unfold on_rx. destruct (m _) as [[s r0]|] eqn:E; [|done]. intros [= <- <-]. destruct (Hm _ _ _ E) as (H1 & H2 & H3 & H4).
  by split_and!.
Qed.

Definition closed_end (d : duplex) (e : bool) : bool := q_closing (rx (end_of d e)).

(** An end receives from its ring until it closes. *)
Definition end_ok (d : duplex) (e : bool) : Prop :=
  q_reader (tx (end_of d e)) = false /\ q_reader (rx (end_of d e)) = true /\ q_self (rx (end_of d e)) <> noProc /\
  consumer (hdr (ring_of d (negb e))) = if closed_end d e then noProc else q_self (rx (end_of d e)).

(** Both ends as [CreateChannel] and [OpenChannel] leave them, with empty rings. *)
Definition ready (d : duplex) : Prop := forall e, end_ok d e /\ closed_end d e = false /\ holds (ring_of d e) [].

Definition talk_ok (d : duplex) (sent got : bool -> list delivery) : Prop :=
  forall e, end_ok d e /\ exists rest, sent e = got (negb e) ++ rest /\ holds (ring_of d e) rest.

(** A call at one end that keeps the ends, and what it does to the messages. *)
Lemma talk_ok_call {A} (m : CM A) e d d' r sent got sent' got' :
  talk_ok d sent got -> at_end e m d = Some (d', r) ->
  (forall c c', m c = Some (c', r) -> same_ends c c') ->
  (forall e', exists rest, sent' e' = got' (negb e') ++ rest /\ holds (ring_of d' e') rest) -> talk_ok d' sent' got'.
Proof.
  intros Hok Ha Hm Hmsg e'. split; [|apply Hmsg]. unfold at_end in Ha. destruct (m _) as [[c r0]|] eqn:E; [|done].
  injection Ha as <- <-. destruct (Hm _ _ E) as (H1 & H2 & H3 & H4 & H5 & H6). cbn in *. destruct (Hok e') as [(K1 & K2 & K3 & K4) _].
  unfold end_ok, closed_end in *. cbn. unfold upd. destruct e, e'; cbn in *; rewrite ?H1, ?H2, ?H3, ?H4, ?H5, ?H6; by split_and!.
Qed.

Lemma upd_same {A} e (x : A) f : upd e x f e = x.
Proof. unfold upd. by rewrite Bool.eqb_reflx. Qed.
Lemma upd_other {A} e (x : A) f : upd e x f (negb e) = f (negb e).
Proof. unfold upd. by destruct e. Qed.
Lemma negb_cases (e e' : bool) : e' = e \/ e' = negb e.
Proof. destruct e, e'; auto. Qed.

(** A call keeps the messages of a ring, as relation on the rings of an end. *)
Definition same_rings (c c' : cstate) : Prop := same_messages (cs_out c) (cs_out c') /\ same_messages (cs_in c) (cs_in c').

Lemma quiet_call {A} (m : CM A) e d d' r sent got :
  talk_ok d sent got -> at_end e m d = Some (d', r) ->
  (forall c c', m c = Some (c', r) -> same_ends c c' /\ same_rings c c') -> talk_ok d' sent got.
Proof.
  intros Hok Ha Hm. eapply talk_ok_call; [exact Hok|exact Ha|intros c c' Hc; by apply Hm|]. intros e'. destruct (Hok e') as [_ (rest & Hs & Hh)].
  exists rest. split; [done|]. unfold at_end in Ha. destruct (m _) as [[c r0]|] eqn:E; [|done]. injection Ha as <- <-.
  destruct (Hm _ _ E) as [_ [[M1 _] [M2 _]]]. cbn in *. destruct (negb_cases e e') as [-> | ->]; [rewrite upd_same; auto|].
  rewrite upd_other, upd_same. auto.
Qed.

Lemma on_tx_rings {A} (m : M A) c c' r : preserves same_flow m -> on_tx m c = Some (c', r) -> same_rings c c'.
Proof.
  intros Hm. unfold on_tx. destruct (m _) as [[s r0]|] eqn:E; [|done]. intros [= <- <-]. destruct (Hm _ _ _ E) as [H _]. by split.
Qed.

Lemma on_rx_rings {A} (m : M A) c c' r : preserves same_flow m -> on_rx m c = Some (c', r) -> same_rings c c'.
Proof.
  intros Hm. unfold on_rx. destruct (m _) as [[s r0]|] eqn:E; [|done]. intros [= <- <-]. destruct (Hm _ _ _ E) as [H _]. by split.
Qed.

Lemma send_ok e E typ payload d d' r sent got :
  talk_ok d sent got -> send_room (ring_of d e) -> 0 <= typ < 2 ^ 32 ->
  at_end e (Channel_TrySendTyped E typ payload) d = Some (d', r) -> talk_ok d' (upd e (sent e ++ ok_of (typ, payload) r) sent) got.
Proof.
  intros Hok Hroom Ht Ha. eapply talk_ok_call; [exact Hok|exact Ha| |].
  { intros c c' Hc. by apply (on_tx_ends _ _ _ _ (end_TrySend E typ payload)) in Hc as [? _]. }
  unfold at_end, Channel_TrySendTyped, on_tx in Ha. cbn [cs_ch cs_out] in Ha. destruct (TrySendTyped E typ payload _) as [[s r0]|] eqn:Es; [|done]. injection Ha as <- <-.
  intros e'. destruct (Hok e') as [_ (rest & Hs & Hh)]. destruct (negb_cases e e') as [-> | ->]; cbn.
  - eexists. rewrite !upd_same, Hs, <-app_assoc. split; [done|]. eapply (TrySend_flow E typ payload (mkSt (tx (end_of d e)) (ring_of d e) [] [])); done.
  - rewrite !upd_other, upd_same. exists rest. done.
Qed.

(** What the sending queue reports of the peer. *)
Definition reported (E : env) (d : duplex) (e : bool) : option failure :=
  match checkPeer E (mkSt (tx (end_of d e)) (ring_of d e) [] []) with Some (_, inl f) => Some f | _ => None end.

(** A receive at an open end: the oldest message, or what was reported of the peer. *)
Lemma recv_open e E d rest sent got :
  talk_ok d sent got -> holds (ring_of d (negb e)) rest -> closed_end d e = false ->
  exists d', at_end e (Channel_TryRecv E) d =
      Some (d', match rest with [] => inl (default (Of ErrEmpty) (reported E d e)) | m :: _ => inr m end) /\
    holds (ring_of d' (negb e)) (drop 1 rest) /\ (forall msgs, holds (ring_of d e) msgs -> holds (ring_of d' e) msgs).
Proof.
  intros Hok Hh Hc. destruct (Hok e) as [(_ & Hr & _) _]. unfold closed_end in Hc. unfold at_end, Channel_TryRecv.
  cbn [cs_ch]. rewrite Hc, Hr. cbn [orb negb]. unfold reported, on_tx. cbn [cs_ch cs_out cs_in]. destruct (checkPeer E _) as [[s r0]|] eqn:Ec.
  2:{ exfalso. revert Ec. unfold checkPeer, watchPeer, check, bind, get, upd_queue, throw, ret. repeat case_match; done. }
  destruct (preserves_checkPeer same_flow E _ _ _ Ec) as [[Hm _] _]. cbn in Hm.
  unfold on_rx. cbn [cs_ch cs_in rx]. destruct (TryRecv_flow (with_peerErr (error_of r0) E) (mkSt (rx (end_of d e)) (ring_of d (negb e)) [] []) rest Hh Hc Hr)
    as (s' & -> & Hh' & _). eexists. split; [by destruct rest, r0|]. cbn. rewrite upd_other, !upd_same. auto.
Qed.

Lemma TryRecv_ends E c c' r : Channel_TryRecv E c = Some (c', r) -> same_ends c c'.
Proof.
  unfold Channel_TryRecv. case_match; [by intros [? _]%(on_rx_ends _ _ _ _ (end_TryRecv E))|].
  destruct (on_tx (checkPeer E) c) as [[c1 r1]|] eqn:E1; [|done]. apply on_tx_ends in E1 as [H1 _]; [|by apply preserves_checkPeer, _].
  intros [H2 _]%(on_rx_ends _ _ _ _ (end_TryRecv _)). by eapply same_ends_trans.
Qed.

Lemma recv_ok e E d d' r sent got :
  talk_ok d sent got -> at_end e (Channel_TryRecv E) d = Some (d', r) -> talk_ok d' sent (upd e (got e ++ values r) got).
Proof.
  intros Hok Ha. destruct (closed_end d e) eqn:Hc.
  - destruct (TryRecv_other E (mkSt (rx (end_of d e)) (ring_of d (negb e)) [] [])) as [f Hf]; [by left|].
    unfold at_end, Channel_TryRecv, closed_end in Ha, Hc. cbn [cs_ch] in Ha. rewrite Hc in Ha. unfold on_rx in Ha. cbn [orb cs_ch cs_in] in Ha.
    rewrite Hf in Ha. injection Ha as <- <-. cbn. rewrite app_nil_r. intros e'. destruct (Hok e') as [(K1 & K2 & K3 & K4) (rest & Hs & Hh)].
    unfold end_ok, closed_end, upd in *. destruct e, e'; cbn in *; split; eauto.
  - destruct (Hok (negb e)) as [_ (rest & Hs & Hh)]. rewrite negb_involutive in Hs.
    destruct (recv_open e E d rest sent got Hok Hh Hc) as (d1 & Ha' & Hh' & Hm). rewrite Ha' in Ha. injection Ha as <- <-.
    eapply talk_ok_call; [exact Hok|exact Ha'|intros c c' Hcc; by eapply TryRecv_ends|]. intros e'. destruct (negb_cases e e') as [-> | ->].
    + destruct (Hok e) as [_ (rest' & Hs' & Hh2)]. exists rest'. rewrite upd_other. auto.
    + exists (drop 1 rest). rewrite negb_involutive, upd_same, Hs, <-app_assoc. split; [by destruct rest|done].
Qed.

Lemma close_ok e d d' r sent got : talk_ok d sent got -> at_end e Channel_Close_ d = Some (d', r) -> talk_ok d' sent got.
Proof.
  intros Hok. unfold at_end, Channel_Close_, on_rx, on_tx. cbn [cs_ch cs_in cs_out].
  destruct (Close_end (mkSt (rx (end_of d e)) (ring_of d (negb e)) [] [])) as (s1 & r1 & Hc1 & A1 & A2 & A3 & A4). rewrite Hc1. cbn [cs_ch cs_in cs_out tx rx].
  destruct (Close_end (mkSt (tx (end_of d e)) (ring_of d e) [] [])) as (s2 & r2 & Hc2 & B1 & B2 & B3 & B4). rewrite Hc2. cbn [cs_ch cs_in cs_out].
  intros [= <- <-]. destruct (flow_Close _ _ _ Hc1) as [[M1 _] _]. destruct (flow_Close _ _ _ Hc2) as [[M2 _] _].
  cbn [s_q s_ring] in *. destruct (Hok e) as [(K1 & K2 & K3 & K4) _]. rewrite K1, andb_false_r in B4. cbn in B4.
  intros e'. destruct (Hok e') as [(J1 & J2 & J3 & J4) (rest & Hs & Hh)]. destruct (negb_cases e e') as [-> | ->]; split.
  - unfold end_ok, closed_end in *. cbn. rewrite upd_same, upd_other, upd_same. cbn. rewrite A3. split_and!; try congruence.
    rewrite A4, K2. destruct (q_closing (rx (end_of d e))); cbn; [by rewrite K4|]. by rewrite K4, Z.eqb_refl.
  - exists rest. cbn. rewrite upd_same. auto.
  - unfold end_ok, closed_end in *. cbn. rewrite upd_other, negb_involutive, upd_same, B4. rewrite negb_involutive in J4. done.
  - exists rest. cbn. rewrite upd_other, upd_same. auto.
Qed.

Lemma talk_talk_ok d0 d sent got : ready d0 -> talk d0 d sent got -> talk_ok d sent got.
Proof.
  intros H0. induction 1 as [|d sent got e E typ payload d' r _ IH Hr Ht Ha|d sent got e E d' r _ IH Ha|d sent got e id err d' r _ IH Ha
    |d sent got e d' r _ IH Ha].
  - intros e. destruct (H0 e) as (H1 & _ & H2). split; [done|]. by exists [].
  - by eapply send_ok.
  - by eapply recv_ok.
  - destruct Ha as [Ha|Ha]; (eapply quiet_call; [exact IH|exact Ha|]); intros c c' Hc; split.
    + eapply on_tx_ends; [|exact Hc]. apply preserves_peerExited, _.
    + eapply on_tx_rings; [|exact Hc]. apply preserves_peerExited, _.
    + eapply on_rx_ends; [|exact Hc]. apply preserves_producerExited, _.
    + eapply on_rx_rings; [|exact Hc]. apply preserves_producerExited, _.
  - by eapply close_ok.
Qed.

(** C21: A channel is a first-in first-out queue in each direction, and its end is seen in
    order. However two ends send, receive, learn of exits and close, each end has received
    what the other sent, in its order, up to the messages that wait; an end that is open
    receives the oldest of those whatever is known of the peer, and only when there is
    none an error, which is [ErrPeerGone] if the peer has closed its end and otherwise
    what the sending queue reports of the peer, or that the queue is empty. *)
Theorem channel_delivers (d0 d : duplex) (sent got : bool -> list delivery) (e : bool) :
  ready d0 -> talk d0 d sent got ->
  exists rest, sent (negb e) = got e ++ rest /\
    (closed_end d e = false -> forall E, exists d', at_end e (Channel_TryRecv E) d =
      Some (d', match rest with [] => inl (default (Of ErrEmpty) (reported E d e)) | m :: _ => inr m end)) /\
    (closed_end d (negb e) = true -> forall E, reported E d e = Some (Of ErrPeerGone)).
Proof.
  intros H0 Ht. pose proof (talk_talk_ok _ _ _ _ H0 Ht) as Hok. destruct (Hok (negb e)) as [(_ & _ & _ & K) (rest & Hs & Hh)].
  rewrite negb_involutive in *. exists rest. split; [done|]. split.
  - intros Hc E. destruct (recv_open e E d rest sent got Hok Hh Hc) as (d' & Ha & _). by exists d'.
  - intros Hc E. unfold reported, checkPeer, bind, get. cbn. rewrite K, Hc. done.
Qed.

(** ** A witness *)

(** The creator's end, and the end of a process that opened the channel. *)
Definition demo_opened : open_result :=
  default (mkOpen demo_up demo_up (newQueue 0 false) (newQueue 0 false) (inl NotExist) [])
    (OpenChannel demo_env (randomID 1) demo_queue_ring demo_up).
Definition demo_duplex : duplex :=
  mkDuplex (fun e => if e then CreateChannel (randomID 3) else mkChannel (o_tx demo_opened) (o_rx demo_opened) false)
    (fun e => if e then o_up demo_opened else o_down demo_opened).

Lemma demo_duplex_ready : ready demo_duplex.
Proof.
  intros []; (split; [|split; [vm_compute; reflexivity|]]); try (split_and!; vm_compute; [reflexivity|reflexivity|discriminate|reflexivity]).
  - eapply holds_hdr; [apply demo_queue_holds|vm_compute; reflexivity..].
  - eapply holds_hdr; [apply demo_queue_holds|vm_compute; reflexivity..].
Qed.

(** The opener sends a message and closes. *)
Definition demo_sends := at_end false (Channel_TrySendTyped demo_env 7 [Byte.x01]) demo_duplex.
Definition demo_sent : duplex := (default (demo_duplex, inl NotExist) demo_sends).1.
Definition demo_closes := at_end false Channel_Close_ demo_sent.
Definition demo_closed : duplex := (default (demo_sent, inl NotExist) demo_closes).1.

#[local] Strategy expand [demo_sends demo_sent demo_closes demo_closed].

Lemma ran {A} (o : option (duplex * (failure + A))) d r :
  (match o with Some (_, inr _) => true | _ => false end) = true -> exists a, o = Some ((default (d, r) o).1, inr a).
Proof. destruct o as [[d1 [e|a]]|]; try done. by exists a. Qed.

Lemma demo_talk : talk demo_duplex demo_closed (upd false [(7, [Byte.x01])] (fun _ => [])) (fun _ => []).
Proof.
  destruct (ran demo_sends demo_duplex (inl NotExist)) as [a Ha]; [vm_compute; reflexivity|].
  destruct (ran demo_closes demo_sent (inl NotExist)) as [b Hb]; [vm_compute; reflexivity|].
  eapply TalkClose; [|exact Hb]. refine (TalkSend _ _ _ _ false demo_env 7 [Byte.x01] _ _ (TalkStart _) _ _ Ha); split; vm_compute; done.
Qed.

Lemma channel_delivers_witness :
  (exists d', at_end true (Channel_TryRecv demo_env) demo_closed = Some (d', inr (7, [Byte.x01]))) /\
  reported demo_env demo_closed true = Some (Of ErrPeerGone).
Proof.
  destruct (channel_delivers demo_duplex demo_closed _ _ true demo_duplex_ready demo_talk) as (rest & Hs & H1 & H2).
  cbn in Hs. subst rest. split; [apply H1; vm_compute; reflexivity|apply H2; vm_compute; reflexivity].
Defined.
