(* ===== verification/Park.v ===== *)
(** * Parking and waking ([src/queue.go], [src/event_unix.go])

    The receiver and the senders of a queue around [park], [wakeReceiver],
    [wakeSenders] and [unstall]: every access to the ring as a queue of records, to the
    counters of parked callers and to the tokens of the two events is one step, and the
    steps interleave. A sender can die between any two steps. It then stays in the
    counters, keeps its open claim, and wakes nobody. The receiver turns the claim of a
    dead sender that stops it into padding, and watches a living one. Every sender has a
    life socket and is not in the process of the receiver. The steps of the reclaim
    itself are in [RingConc.v]. *)

From stdpp Require Import base numbers list list_numbers option.
From Stdlib Require Import ZArith Lia Bool.
From S2P Require Import Prelude.

#[local] Open Scope Z_scope.

(** ** Events *)

(** The largest write that a pipe delivers whole, and the tokens a pipe holds. *)
Definition pipeBuf : Z := 4096.
Definition pipeSize : Z := 65536.

(** [signal]: the write is whole, or it is dropped when the pipe has no room for it. *)
Definition signal_tokens (n tokens : Z) : Z :=
  if n <=? 0 then tokens
  else
    let n := if pipeBuf <? n then pipeBuf else n in
    if tokens + n <=? pipeSize then tokens + n else tokens.

(** ** The records of the ring *)

Inductive entry_state : Type := EOpen | EMsg | EPad.

(** The sender that claimed the record, its size and its state. *)
Record entry : Type := mkEntry { e_owner : nat; e_size : Z; e_state : entry_state }.

Definition ready_entry (e : entry) : bool := match e_state e with EOpen => false | _ => true end.

(** What a read of at most [k] messages leaves, whether it passed a record, and
    whether it passed a message. *)
Fixpoint pop (k : nat) (l : list entry) : list entry * bool * bool :=
  match k, l with
  | S k', e :: rest =>
      match e_state e with
      | EOpen => (l, false, false)
      | EPad => let '(l', _, got) := pop k rest in (l', true, got)
      | EMsg => let '(l', _, _) := pop k' rest in (l', true, true)
      end
  | _, _ => (l, false, false)
  end.

(** The state of the record that sender [i] holds open. *)
Fixpoint settle (i : nat) (v : entry_state) (l : list entry) : list entry :=
  match l with
  | [] => []
  | e :: l =>
      if bool_decide (e_owner e = i) && negb (ready_entry e) then mkEntry i (e_size e) v :: l
      else e :: settle i v l
  end.

(** ** Program counters *)

(** A sender: idle; before its first attempt; after it failed; counted, before its
    second attempt; at the wait; woken; its context ended; with an open claim; with a
    settled claim, before the load in [wakeReceiver]; before its signal; dead. The flag
    [c] says that it is still counted, and [o] that its claim is open. *)
Inductive spc : Type :=
| SIdle | STry (n : Z) | SFull (n : Z) | SCounted (n : Z) | SWait (n : Z) | SWoken (n : Z) | SGiveUp
| SOpen (c : bool) | SWrote (c : bool) | SSignal | SDead (c o : bool).

(** The receiver, in the same way. [RFreed] is before the load in [wakeSenders] and
    [RSignal] before its signal; [RStall] is before [unstall]. The flags say whether the
    receiver is counted and whether the read passed a message. *)
Inductive rpc : Type :=
| RIdle | RTry | REmpty | RCounted | RWait | RWoken | RGiveUp | RUncount
| RFreed (c got : bool) | RSignal (w : Z) (c got : bool) | RStall (c : bool).

(** [watched] has the senders that [producers] watches. [lost] is not in the program: it
    says that a sender died between its commit and its signal since the last read. *)
Record pk : Type := mkPk {
  entries : list entry; ne : Z; nf : Z; recvW : Z; sendW : Z; rcv : rpc; snd_ : list spc;
  watched : list nat; lost : bool }.

(** Whether [sendWaiters] counts a sender, whether it is at the wait, and whether it is
    on its way to wake the receiver. *)
Definition scount (pc : spc) : Z :=
  match pc with SCounted _ | SWait _ | SWoken _ | SGiveUp | SOpen true | SWrote true | SDead true _ => 1 | _ => 0 end.
Definition swait (pc : spc) : Z := match pc with SWait _ => 1 | _ => 0 end.
Definition waking (pc : spc) : bool := match pc with SWrote _ | SSignal => true | _ => false end.
Definition wants (pc : spc) : option Z :=
  match pc with STry n | SFull n | SCounted n | SWait n | SWoken n => Some n | _ => None end.
Definition is_open (pc : spc) : bool := match pc with SOpen _ => true | SDead _ o => o | _ => false end.
Definition is_dead (pc : spc) : bool := match pc with SDead _ _ => true | _ => false end.

(** ** The steps *)

(** [Call n] starts a send of [n] bytes; [Go] takes the next step; [Stop] returns to the
    caller, after a try that failed or when the context ends; [Pad] aborts the claim. *)
Inductive act : Type := Call (n : Z) | Go | Stop | Pad.

(** [Die_ i]: sender [i] dies. [Exited_ i]: the watch on sender [i] reports its exit. *)
Inductive plabel : Type := Send_ (i : nat) (a : act) | Recv_ (k : nat) (a : act) | Die_ (i : nat) | Exited_ (i : nat).

Section Steps.
  (** Whether a record of a size fits behind the records of the ring. *)
  Context (fits : list entry -> Z -> bool).

Definition with_sender (i : nat) (pc : spc) (s : pk) : pk :=
  mkPk (entries s) (ne s) (nf s) (recvW s) (sendW s) (rcv s) (<[i := pc]> (snd_ s)) (watched s) (lost s).
Definition with_entries (l : list entry) (s : pk) : pk :=
  mkPk l (ne s) (nf s) (recvW s) (sendW s) (rcv s) (snd_ s) (watched s) (lost s).
Definition with_events (e f : Z) (s : pk) : pk :=
  mkPk (entries s) e f (recvW s) (sendW s) (rcv s) (snd_ s) (watched s) (lost s).
Definition with_waiting (r w : Z) (s : pk) : pk :=
  mkPk (entries s) (ne s) (nf s) r w (rcv s) (snd_ s) (watched s) (lost s).
Definition with_receiver (pc : rpc) (s : pk) : pk :=
  mkPk (entries s) (ne s) (nf s) (recvW s) (sendW s) pc (snd_ s) (watched s) (lost s).
Definition with_watched (l : list nat) (s : pk) : pk :=
  mkPk (entries s) (ne s) (nf s) (recvW s) (sendW s) (rcv s) (snd_ s) l (lost s).
Definition with_lost (b : bool) (s : pk) : pk :=
  mkPk (entries s) (ne s) (nf s) (recvW s) (sendW s) (rcv s) (snd_ s) (watched s) b.

(** An attempt to claim [n] bytes. *)
Definition attempt_claim (i : nat) (n : Z) (c : bool) (blocked : spc) (s : pk) : pk :=
  if fits (entries s) n
  then with_sender i (SOpen c) (with_entries (entries s ++ [mkEntry i n EOpen]) s)
  else with_sender i blocked s.

Definition sender_step (i : nat) (a : act) (s : pk) : option pk :=
  match snd_ s !! i with
  | None => None
  | Some SIdle => match a with Call n => if fits [] n then Some (with_sender i (STry n) s) else None | _ => None end
  | Some (STry n) => Some (attempt_claim i n false (SFull n) s)
  | Some (SFull n) =>
      match a with
      | Stop => Some (with_sender i SIdle s)
      | _ => Some (with_sender i (SCounted n) (with_waiting (recvW s) (sendW s + 1) s))
      end
  | Some (SCounted n) => Some (attempt_claim i n true (SWait n) s)
  | Some (SWait n) =>
      match a with
      | Stop => Some (with_sender i SGiveUp s)
      | _ => if 0 <? nf s then Some (with_sender i (SWoken n) (with_events (ne s) (nf s - 1) s)) else None
      end
  | Some (SWoken n) => Some (with_sender i (STry n) (with_waiting (recvW s) (sendW s - 1) s))
  | Some SGiveUp => Some (with_sender i SIdle (with_waiting (recvW s) (sendW s - 1) s))
  | Some (SOpen c) =>
      match a with
      | Stop => if c then Some (with_sender i (SOpen false) (with_waiting (recvW s) (sendW s - 1) s)) else None
      | Pad => Some (with_sender i (SWrote c) (with_entries (settle i EPad (entries s)) s))
      | _ => Some (with_sender i (SWrote c) (with_entries (settle i EMsg (entries s)) s))
      end
  | Some (SWrote true) => Some (with_sender i (SWrote false) (with_waiting (recvW s) (sendW s - 1) s))
  | Some (SWrote false) => Some (with_sender i (if 0 <? recvW s then SSignal else SIdle) s)
  | Some SSignal => Some (with_sender i SIdle (with_events (signal_tokens 1 (ne s)) (nf s) s))
  | Some (SDead _ _) => None
  end.

(** A sender dies where it is. *)
Definition sender_dies (i : nat) (s : pk) : option pk :=
  match snd_ s !! i with
  | None | Some (SDead _ _) => None
  | Some pc => Some (with_lost (lost s || waking pc) (with_sender i (SDead (0 <? scount pc) (is_open pc)) s))
  end.

(** Where a receive goes on after its read and its wake-up of the senders. *)
Definition after_read_pc (c got : bool) : rpc :=
  if got then (if c then RUncount else RIdle) else RStall c.

(** An attempt to receive at most [S k] messages. *)
Definition attempt_read (k : nat) (c : bool) (s : pk) : pk :=
  let '(l, freed, got) := pop (S k) (entries s) in
  with_receiver (if freed then RFreed c got else after_read_pc c false) (with_lost false (with_entries l s)).

(** [watchProducer]: one watch for a producer. *)
Definition park_watch (i : nat) (s : pk) : pk :=
  if bool_decide (i ∈ watched s) then s else with_watched (i :: watched s) s.

(** [unstall], and the rest of the loop in [receive]: the claim of a dead sender at the
    front becomes padding and the read runs again; a living one gets a watch. *)
Definition park_unstall (c : bool) (s : pk) : pk :=
  let blocked := with_receiver (if c then RWait else REmpty) in
  match entries s with
  | [] => blocked s
  | e :: _ =>
      if ready_entry e then blocked s
      else
        match snd_ s !! e_owner e with
        | Some (SDead w true) =>
            with_receiver (if c then RCounted else RTry)
              (with_sender (e_owner e) (SDead w false) (with_entries (settle (e_owner e) EPad (entries s)) s))
        | _ => blocked (park_watch (e_owner e) s)
        end
  end.

(** [producerExited]: the watch of a dead sender ends and the receiver gets a token. *)
Definition park_exited (i : nat) (s : pk) : option pk :=
  match snd_ s !! i with
  | Some (SDead _ _) =>
      if bool_decide (i ∈ watched s)
      then Some (with_watched (filter (fun j => j <> i) (watched s)) (with_events (signal_tokens 1 (ne s)) (nf s) s))
      else None
  | _ => None
  end.

Definition receiver_step (k : nat) (a : act) (s : pk) : option pk :=
  match rcv s with
  | RIdle => Some (with_receiver RTry s)
  | RTry => Some (attempt_read k false s)
  | REmpty =>
      match a with
      | Stop => Some (with_receiver RIdle s)
      | _ => Some (with_receiver RCounted (with_waiting (recvW s + 1) (sendW s) s))
      end
  | RCounted => Some (attempt_read k true s)
  | RFreed c got => Some (with_receiver (if 0 <? sendW s then RSignal (sendW s) c got else after_read_pc c got) s)
  | RSignal w c got =>
      Some (with_receiver (after_read_pc c got) (with_events (ne s) (signal_tokens w (nf s)) s))
  | RWait =>
      match a with
      | Stop => Some (with_receiver RGiveUp s)
      | _ => if 0 <? ne s then Some (with_receiver RWoken (with_events (ne s - 1) (nf s) s)) else None
      end
  | RWoken => Some (with_receiver RTry (with_waiting (recvW s - 1) (sendW s) s))
  | RGiveUp => Some (with_receiver RIdle (with_waiting (recvW s - 1) (sendW s) s))
  | RUncount => Some (with_receiver RIdle (with_waiting (recvW s - 1) (sendW s) s))
  | RStall c => Some (park_unstall c s)
  end.

Definition park_step (l : plabel) (s : pk) : option pk :=
  match l with
  | Send_ i a => sender_step i a s
  | Recv_ k a => receiver_step k a s
  | Die_ i => sender_dies i s
  | Exited_ i => park_exited i s
  end.

Fixpoint park_run (ls : list plabel) (s : pk) : option pk :=
  match ls with
  | [] => Some s
  | l :: ls => match park_step l s with Some s => park_run ls s | None => None end
  end.
End Steps.

(** An empty queue, a receiver and [n] senders. *)
Definition park_start (n : nat) : pk := mkPk [] 0 0 0 0 RIdle (replicate n SIdle) [] false.

(** ** Facts about reads *)

Definition opens (l : list entry) : list nat := e_owner <$> filter (fun e => ready_entry e = false) l.

#[global] Arguments opens : simpl never.

Definition front_ready (l : list entry) : bool := match l with [] => false | e :: _ => ready_entry e end.

Lemma opens_ready e l : ready_entry e = true -> opens (e :: l) = opens l.
Proof. intros H. unfold opens. by rewrite list.filter_cons, decide_False by congruence. Qed.

Lemma opens_open e l : ready_entry e = false -> opens (e :: l) = e_owner e :: opens l.
Proof. intros H. unfold opens. by rewrite list.filter_cons, decide_True. Qed.

Lemma opens_app l1 l2 : opens (l1 ++ l2) = opens l1 ++ opens l2.
Proof. unfold opens. by rewrite list.filter_app, fmap_app. Qed.

(** A read leaves the open records; one that passes no record changes nothing, and one
    that passes no message stops in front of a record that is not settled. *)
Lemma pop_spec k l :
  let '(l', freed, got) := pop k l in
  opens l' = opens l /\ (freed = false -> l' = l /\ got = false) /\ (got = false -> k <> 0%nat -> front_ready l' = false).
Proof.
  revert k. induction l as [|e l IH]; intros [|k]; try done; cbn [pop].
  destruct (e_state e) eqn:E.
  - split; [done|]. split; [done|]. intros _ _. cbn. unfold ready_entry. by rewrite E.
  - specialize (IH k). destruct (pop k l) as [[l' freed] got]. split; [|done].
    rewrite opens_ready by (unfold ready_entry; by rewrite E). apply IH.
  - specialize (IH (S k)). destruct (pop (S k) l) as [[l' freed] got]. split; [|split; [done|apply IH]].
    rewrite opens_ready by (unfold ready_entry; by rewrite E). apply IH.
Qed.

(** Settling the one open record of sender [i]. *)
Lemma settle_opens i v l :
  v <> EOpen -> NoDup (opens l) ->
  NoDup (opens (settle i v l)) /\ forall j, j ∈ opens (settle i v l) <-> j ∈ opens l /\ j <> i.
Proof.
  intros Hv. induction l as [|e l IH]; intros Hnd.
  { split; [done|]. intros j. cbn. rewrite elem_of_nil. tauto. }
  cbn [settle]. destruct (ready_entry e) eqn:He.
  - rewrite andb_false_r. rewrite !opens_ready in * by done. by apply IH.
  - rewrite andb_true_r. rewrite opens_open in Hnd by done. apply list.NoDup_cons in Hnd as [Hni Hnd].
    destruct (bool_decide_reflect (e_owner e = i)) as [<-|Hne]; cbn [negb].
    + rewrite opens_ready by (by destruct v). split; [done|]. intros j. rewrite (opens_open e l He), elem_of_cons.
      split; [intros Hj; split; [by right|by intros ->]|]. intros [[->|Hj] Hne]; done.
    + destruct (IH Hnd) as [Hnd' Hmem]. rewrite !opens_open by done. split.
      * apply list.NoDup_cons. split; [|done]. rewrite Hmem. tauto.
      * intros j. rewrite !elem_of_cons, Hmem. split; [|tauto]. intros [->|[Hj Hji]]; [split; [by left|done]|split; [by right|done]].
Qed.

(** A record at the front stays as it is, or it is the one that is settled. *)
Lemma settle_front i v l : front_ready l = true -> front_ready (settle i v l) = true.
Proof. destruct l as [|e l]; cbn; [done|]. intros He. rewrite He, andb_false_r. done. Qed.

Lemma settle_nil i v l : settle i v l = [] -> l = [].
Proof. destruct l as [|e l]; cbn; [done|]. by destruct (_ && _). Qed.

(** ** The invariant *)

(** Whether [recvWaiters] counts the receiver, and whether it goes to the wait without
    another read. *)
Definition rcount (pc : rpc) : Z :=
  match pc with
  | RCounted | RWait | RWoken | RGiveUp | RUncount | RFreed true _ | RSignal _ true _ | RStall true => 1
  | _ => 0
  end.
Definition bound (pc : rpc) : bool :=
  match pc with RWait | RFreed true false | RSignal _ true false | RStall true => true | _ => false end.

(** As many senders as one signal can wake. *)
Definition few (s : pk) : Prop := Z.of_nat (List.length (snd_ s)) <= pipeBuf.

(** The senders at the wait have a token each, or will have one. *)
Definition released (s : pk) : Prop :=
  match rcv s with
  | RFreed _ _ => True
  | RSignal w _ _ => total swait (snd_ s) <= w
  | _ => total swait (snd_ s) <= nf s
  end.

#[global] Arguments released : simpl never.

Section Invariant.
  Context (fits : list entry -> Z -> bool).

Record pk_ok (s : pk) : Prop := {
  po_recv : recvW s = rcount (rcv s);
  po_send : sendW s = total scount (snd_ s);
  po_size : forall i pc n, snd_ s !! i = Some pc -> wants pc = Some n -> fits [] n = true;
  po_tokens : 0 <= ne s /\ 0 <= nf s;
  po_nodup : NoDup (opens (entries s));
  po_open : forall i, i ∈ opens (entries s) <-> exists pc, snd_ s !! i = Some pc /\ is_open pc = true;
  po_wait : bound (rcv s) = true -> front_ready (entries s) = true ->
    0 < ne s \/ lost s = true \/ exists i pc, snd_ s !! i = Some pc /\ waking pc = true;
  po_room : few s -> entries s = [] -> released s }.

Lemma park_start_ok n : pk_ok (park_start n).
Proof.
  assert (Hall : forall i pc, replicate n SIdle !! i = Some pc -> pc = SIdle).
  { intros i pc H. by apply lookup_replicate in H as [-> _]. }
  split; cbn; try done.
  - symmetry. apply total_zero. intros i pc ->%Hall. done.
  - intros i pc m ->%Hall. done.
  - constructor.
  - intros i. rewrite elem_of_nil. split; [done|]. by intros (pc & ->%Hall & ?).
  - intros _ _. unfold released. cbn. rewrite total_zero; [done|]. intros i pc ->%Hall. done.
Qed.

(** What a step of sender [i] must establish. *)
Record sender_moves (i : nat) (s s' : pk) (pc pc' : spc) : Prop := {
  sm_here : snd_ s !! i = Some pc;
  sm_snd : snd_ s' = <[i := pc']> (snd_ s);
  sm_rcv : rcv s' = rcv s;
  sm_recvW : recvW s' = recvW s;
  sm_sendW : sendW s' = sendW s - scount pc + scount pc';
  sm_size : forall n, wants pc' = Some n -> fits [] n = true;
  sm_nf : 0 <= nf s';
  sm_ne : ne s <= ne s';
  sm_nodup : NoDup (opens (entries s'));
  sm_open : forall j, j ∈ opens (entries s') <-> (j <> i /\ j ∈ opens (entries s)) \/ (j = i /\ is_open pc' = true);
  sm_front : front_ready (entries s') = true -> front_ready (entries s) = true \/ waking pc' = true;
  sm_lost : lost s = true -> lost s' = true;
  sm_wake : waking pc = true -> bound (rcv s) = true -> waking pc' = true \/ 0 < ne s' \/ lost s' = true;
  sm_room : entries s' = [] -> entries s = [] /\ swait pc' <= swait pc /\ swait pc' - swait pc <= nf s' - nf s }.

Lemma sender_moves_ok i s s' pc pc' : pk_ok s -> sender_moves i s s' pc pc' -> pk_ok s'.
Proof.
  intros [R S Z T N O W P] [Hh Hs Hr HrW HsW Hz Hnf Hne Hnd Hop Hfr Hlo Hwk Hrm]. split; rewrite ?Hr; try done.
  - by rewrite HrW.
  - rewrite Hs, (total_insert scount _ i pc pc') by done. lia.
  - intros j x n Hj Hx. rewrite Hs in Hj. apply moved_cases in Hj as [[-> ->]|[_ Hj]]; [by apply Hz|by eapply Z].
  - lia.
  - intros j. rewrite Hop, Hs. split.
    + intros [[Hne' Hj]|[-> Hj]]; [|exists pc'; split; [by eapply moved_here|done]].
      apply O in Hj as (x & Hj & Hx). exists x. split; [by apply moved_other|done].
    + intros (x & Hj & Hx). apply moved_cases in Hj as [[-> ->]|[Hne' Hj]]; [by right|]. left. split; [done|].
      apply O. eauto.
  - intros Hb Hf. destruct (Hfr Hf) as [Hf'|Hw]; [|right; right; exists i, pc'; rewrite Hs; split; [by eapply moved_here|done]].
    destruct (W Hb Hf') as [?|[?|(j & x & Hj & Hx)]]; [left; lia|auto|]. rewrite Hs. destruct (decide (j = i)) as [->|Hne'].
    + rewrite Hh in Hj. injection Hj as ->. destruct (Hwk Hx Hb) as [Hw|?]; [|tauto].
      right; right. exists i, pc'. split; [by eapply moved_here|done].
    + right; right. exists j, x. split; [by apply moved_other|done].
  - intros Hfew He. destruct (Hrm He) as (He' & H1 & H2).
    assert (Hfew' : few s) by (revert Hfew; unfold few; by rewrite Hs, length_insert). specialize (P Hfew' He'). unfold released in *. rewrite Hr, Hs.
    rewrite (total_insert swait _ i pc pc') by done. destruct (rcv s); try done; lia.
Qed.

(** Whether a sender has an open record is as its program counter says. *)
Lemma open_as (s : pk) i pc : pk_ok s -> snd_ s !! i = Some pc ->
  forall j, j ∈ opens (entries s) <-> (j <> i /\ j ∈ opens (entries s)) \/ (j = i /\ is_open pc = true).
Proof.
  intros Hok Hi j. destruct (decide (j = i)) as [->|Hne]; [|tauto].
  assert (Hj : i ∈ opens (entries s) <-> is_open pc = true); [|tauto].
  rewrite (po_open _ Hok). split; [|eauto]. intros (x & Hx & Ho). congruence.
Qed.

Lemma signal_tokens_le n t : 0 <= t -> t <= signal_tokens n t.
Proof. intros Ht. unfold signal_tokens, pipeBuf, pipeSize. repeat case_match; reflect_bools; lia. Qed.

Lemma signal_one t : 0 <= t -> 0 < signal_tokens 1 t.
Proof. intros Ht. unfold signal_tokens, pipeBuf, pipeSize. cbn. destruct (Z.leb_spec (t + 1) 65536); lia. Qed.

(** A signal of [w] leaves a token for each of up to [pipeBuf] waiters. *)
Lemma signal_many w n t : n <= w -> n <= pipeBuf -> 0 <= t -> n <= signal_tokens w t.
Proof. intros Hw Hn Ht. unfold signal_tokens, pipeBuf, pipeSize in *. repeat case_match; reflect_bools; lia. Qed.

(** A step that leaves the records alone. *)
Lemma sender_still i s pc pc' s' :
  pk_ok s -> snd_ s !! i = Some pc -> is_open pc' = is_open pc ->
  entries s' = entries s -> snd_ s' = <[i := pc']> (snd_ s) -> rcv s' = rcv s -> recvW s' = recvW s ->
  sendW s' = sendW s - scount pc + scount pc' -> (forall n, wants pc' = Some n -> fits [] n = true) ->
  0 <= nf s' -> ne s <= ne s' -> (lost s = true -> lost s' = true) ->
  (waking pc = true -> bound (rcv s) = true -> waking pc' = true \/ 0 < ne s' \/ lost s' = true) ->
  (entries s = [] -> swait pc' <= swait pc /\ swait pc' - swait pc <= nf s' - nf s) -> pk_ok s'.
Proof.
  intros Hok Hi Ho He Hs Hr HrW HsW Hz Hnf Hne Hlo Hwk Hrm. eapply sender_moves_ok; [exact Hok|].
  split; try eassumption; rewrite ?He; auto; try apply Hok. rewrite Ho. by apply open_as.
Qed.

Lemma attempt_claim_ok (i : nat) (n : Z) (c : bool) (pc blocked : spc) (s : pk) :
  pk_ok s -> snd_ s !! i = Some pc -> wants pc = Some n -> scount pc = (if c then 1 else 0) -> waking pc = false ->
  is_open pc = false -> is_open blocked = is_open pc -> wants blocked = Some n -> scount blocked = scount pc -> 
  swait pc = 0 -> pk_ok (attempt_claim fits i n c blocked s).
Proof.
  intros Hok Hi Hw Hsc Hwk Ho Hob Hwb Hsb Hsw. pose proof (po_size _ Hok i pc n Hi Hw) as Hfit. unfold attempt_claim.
  destruct (fits (entries s) n) eqn:Hf.
  - eapply sender_moves_ok; [exact Hok|]. split; cbn; [exact Hi|done..| | |apply (po_tokens _ Hok)|done| | | |done| |].
    + rewrite Hsc. destruct c; cbn; lia.
    + done.
    + rewrite opens_app. change (opens [mkEntry i n EOpen]) with [i]. apply list.NoDup_app. split; [apply Hok|].
      split; [|apply NoDup_singleton]. intros j Hj. rewrite list_elem_of_singleton. intros ->. apply (po_open _ Hok) in Hj as (x & Hj & Hx). congruence.
    + intros j. rewrite opens_app. change (opens [mkEntry i n EOpen]) with [i]. rewrite elem_of_app, list_elem_of_singleton.
      rewrite (open_as s i pc Hok Hi), Ho. intuition congruence.
    + destruct (entries s); [done|auto].
    + by rewrite Hwk.
    + by destruct (entries s).
  - eapply (sender_still i s pc blocked); try done; try apply Hok; cbn; [lia| | |].
    + intros m Hm. rewrite Hwb in Hm. by injection Hm as <-.
    + by rewrite Hwk.
    + intros He. rewrite He in Hf. congruence.
Qed.

Ltac still := try done; cbn; try lia; auto.

Lemma sender_step_ok i a s s' : pk_ok s -> sender_step fits i a s = Some s' -> pk_ok s'.
Proof.
  intros Hok. unfold sender_step. destruct (snd_ s !! i) as [pc|] eqn:Hi; [|done].
  pose proof (po_tokens _ Hok) as [Ht1 Ht2].
  assert (Hsz : forall n, wants pc = Some n -> fits [] n = true) by (intros n; by eapply (po_size _ Hok)).
  destruct pc as [|n|n|n|n|n| |c|c| |c o]; [..|done].
  - destruct a as [n| | |]; try done. destruct (fits [] n) eqn:Hf; [|done]. intros [= <-].
    eapply (sender_still i s SIdle (STry n)); still; by intros m [= <-].
  - intros [= <-]. by eapply attempt_claim_ok.
  - destruct a; intros [= <-]; first
      [ solve [eapply (sender_still i s (SFull n) SIdle); still]
      | eapply (sender_still i s (SFull n) (SCounted n)); still; apply Hsz ].
  - intros [= <-]. by eapply attempt_claim_ok.
  - assert (Hgo : forall s', (if 0 <? nf s then Some (with_sender i (SWoken n) (with_events (ne s) (nf s - 1) s)) else None)
      = Some s' -> pk_ok s').
    { intros s0. destruct (Z.ltb_spec 0 (nf s)); [|done]. intros [= <-].
      eapply (sender_still i s (SWait n) (SWoken n)); still; apply Hsz. }
    destruct a; try apply Hgo. intros [= <-]. eapply (sender_still i s (SWait n) SGiveUp); still.
  - intros [= <-]. eapply (sender_still i s (SWoken n) (STry n)); still; apply Hsz.
  - intros [= <-]. eapply (sender_still i s SGiveUp SIdle); still.
  - assert (Hopen : i ∈ opens (entries s)) by (apply (po_open _ Hok); by exists (SOpen c)).
    assert (Hset : forall v, v <> EOpen -> pk_ok (with_sender i (SWrote c) (with_entries (settle i v (entries s)) s))).
    { intros v Hv. destruct (settle_opens i v (entries s) Hv (po_nodup _ Hok)) as [Hnd Hmem].
      eapply sender_moves_ok; [exact Hok|]. split; cbn; try done; try lia; auto.
      - destruct c; cbn; lia.
      - intros j. rewrite Hmem. split; [tauto|]. intros [?|[_ ?]]; [tauto|done].
      - intros He%settle_nil. rewrite He in Hopen. by apply elem_of_nil in Hopen. }
    destruct a.
    + intros [= <-]. by apply Hset.
    + intros [= <-]. by apply Hset.
    + destruct c; [|done]. intros [= <-]. eapply (sender_still i s (SOpen true) (SOpen false)); still.
    + intros [= <-]. by apply Hset.
  - destruct c; intros [= <-].
    + eapply (sender_still i s (SWrote true) (SWrote false)); still.
    + rewrite (po_recv _ Hok). assert (Hb : bound (rcv s) = true -> rcount (rcv s) = 1) by (by destruct (rcv s) as [| | | | | | | |[] []|? [] []|[]]).
      destruct (Z.ltb_spec 0 (rcount (rcv s))).
      * eapply (sender_still i s (SWrote false) SSignal); still.
      * eapply (sender_still i s (SWrote false) SIdle); still. intros _ Hbound. specialize (Hb Hbound). lia.
  - intros [= <-]. pose proof (signal_one (ne s) Ht1). pose proof (signal_tokens_le 1 (ne s) Ht1).
    eapply (sender_still i s SSignal SIdle); still.
Qed.

Lemma sender_dies_ok i s s' : pk_ok s -> sender_dies i s = Some s' -> pk_ok s'.
Proof.
  intros Hok. unfold sender_dies. destruct (snd_ s !! i) as [pc|] eqn:Hi; [|done].
  pose proof (po_tokens _ Hok) as [Ht1 Ht2]. intros H.
  assert (s' = with_lost (lost s || waking pc) (with_sender i (SDead (0 <? scount pc) (is_open pc)) s)) as ->
    by (destruct pc; congruence).
  eapply (sender_still i s pc (SDead (0 <? scount pc) (is_open pc))); try done; cbn.
  - destruct pc as [| | | | | | |[]|[]| |[] ?]; cbn; lia.
  - intros ->. done.
  - intros -> _. rewrite orb_true_r. auto.
  - intros _. destruct pc; cbn; lia.
Qed.

(** What a step of the receiver must establish. *)
Lemma receiver_moves_ok s s' :
  pk_ok s -> snd_ s' = snd_ s -> sendW s' = sendW s -> recvW s' = rcount (rcv s') -> 0 <= ne s' -> 0 <= nf s' ->
  opens (entries s') = opens (entries s) ->
  (bound (rcv s') = true -> front_ready (entries s') = true ->
     bound (rcv s) = true /\ front_ready (entries s) = true /\ ne s <= ne s' /\ lost s' = lost s) ->
  (few s -> entries s' = [] -> released s') -> pk_ok s'.
Proof.
  intros [R S Z T N O W P] Hs HsW HrW Hne Hnf Hop Hw Hrm. split; rewrite ?Hs, ?HsW, ?Hop; try done.
  - intros Hb Hf. destruct (Hw Hb Hf) as (Hb' & Hf' & Hle & ->). destruct (W Hb' Hf') as [?|[?|?]]; [left; lia|auto..].
  - unfold few in *. by rewrite Hs.
Qed.

Lemma waiting_few s : pk_ok s -> total swait (snd_ s) <= sendW s /\ (few s -> total swait (snd_ s) <= pipeBuf).
Proof.
  intros Hok. rewrite (po_send _ Hok). split; [apply total_le; by intros [| | | | | | |[]|[]| |[] ?]|].
  intros Hfew. unfold few in Hfew.
  assert (Hlen : forall l : list spc, total swait l <= Z.of_nat (List.length l)); [|specialize (Hlen (snd_ s)); lia].
  induction l as [|x l IH]; [done|]. cbn [total List.length]. assert (swait x <= 1) by (by destruct x). lia.
Qed.

Lemma attempt_read_ok k (c : bool) s :
  pk_ok s -> rcv s = (if c then RCounted else RTry) -> pk_ok (attempt_read k c s).
Proof.
  intros Hok Hr. unfold attempt_read. pose proof (pop_spec (S k) (entries s)) as Hp.
  pose proof (po_tokens _ Hok) as [Ht1 Ht2]. pose proof (po_recv _ Hok) as HrW. rewrite Hr in HrW.
  destruct (pop (S k) (entries s)) as [[l freed] got]. destruct Hp as (Hop & Hsame & Hfront).
  apply (receiver_moves_ok s); cbn; try done.
  - destruct freed, c; cbn in *; lia.
  - intros Hb Hf. destruct got; [|rewrite Hfront in Hf; done]. destruct freed; [by destruct c|].
    by destruct (Hsame eq_refl).
  - intros Hfew He. unfold released. cbn. destruct freed; [done|]. destruct (Hsame eq_refl) as [-> _].
    pose proof (po_room _ Hok Hfew He) as Hroom. unfold released in Hroom. rewrite Hr in Hroom. by destruct c.
Qed.

(** A step that leaves the records alone and signals no sender. *)
Lemma receiver_still s s' :
  pk_ok s -> snd_ s' = snd_ s -> sendW s' = sendW s -> entries s' = entries s -> nf s' = nf s -> lost s' = lost s ->
  recvW s' = rcount (rcv s') -> 0 <= ne s' ->
  (bound (rcv s') = true -> bound (rcv s) = true /\ ne s <= ne s') ->
  match rcv s, rcv s' with RFreed _ _, _ | RSignal _ _ _, _ | _, RSignal _ _ _ => False | _, _ => True end -> pk_ok s'.
Proof.
  intros Hok Hs HsW He Hnf Hlo HrW Hne Hb Hm. pose proof (po_tokens _ Hok) as [Ht1 Ht2].
  apply (receiver_moves_ok s); rewrite ?He, ?Hnf, ?Hlo; try done; [intros Hb' Hf; by destruct (Hb Hb')|].
  intros Hfew Hnil. pose proof (po_room _ Hok Hfew Hnil) as P. unfold released in *. rewrite Hs, Hnf.
  destruct (rcv s), (rcv s'); done.
Qed.

(** A claim at the front is turned into padding; its sender is dead. *)
Lemma reclaim_ok (c : bool) i w s :
  pk_ok s -> rcv s = RStall c -> snd_ s !! i = Some (SDead w true) ->
  pk_ok (with_receiver (if c then RCounted else RTry)
           (with_sender i (SDead w false) (with_entries (settle i EPad (entries s)) s))).
Proof.
  intros Hok Hr Hi. destruct (settle_opens i EPad (entries s) ltac:(done) (po_nodup _ Hok)) as [Hnd Hmem].
  assert (Hopen : i ∈ opens (entries s)) by (apply (po_open _ Hok); by exists (SDead w true)).
  assert (Hne : settle i EPad (entries s) <> []).
  { intros He%settle_nil. rewrite He in Hopen. by apply elem_of_nil in Hopen. }
  pose proof (po_recv _ Hok) as HrW. rewrite Hr in HrW. cbn in HrW.
  split; cbn; try done.
  - by destruct c.
  - rewrite (po_send _ Hok), (total_insert scount _ i (SDead w true) (SDead w false)) by done. by destruct w; cbn; lia.
  - intros j x n Hj Hx. apply moved_cases in Hj as [[-> ->]|[_ Hj]]; [done|by eapply (po_size _ Hok)].
  - apply Hok.
  - intros j. rewrite Hmem, (po_open _ Hok). split.
    + intros [(x & Hj & Hx) Hji]. exists x. split; [by apply moved_other|done].
    + intros (x & Hj & Hx). apply moved_cases in Hj as [[-> ->]|[Hji Hj]]; [done|]. eauto.
  - by destruct c.
Qed.

Lemma park_unstall_ok c s : pk_ok s -> rcv s = RStall c -> pk_ok (park_unstall c s).
Proof.
  intros Hok Hr. unfold park_unstall. pose proof (po_tokens _ Hok) as [Ht1 Ht2]. pose proof (po_recv _ Hok) as HrW.
  rewrite Hr in HrW. cbn in HrW.
  assert (Hstill : forall s', s' = with_watched (watched s') s -> pk_ok (with_receiver (if c then RWait else REmpty) s')).
  { intros s' ->. apply (receiver_still s); cbn; rewrite ?Hr; try done; destruct c; cbn; try done; auto with lia. }
  assert (Hself : s = with_watched (watched s) s) by (by destruct s).
  destruct (entries s) as [|e l] eqn:He; [by apply Hstill|]. destruct (ready_entry e); [by apply Hstill|].
  assert (Hw : pk_ok (with_receiver (if c then RWait else REmpty) (park_watch (e_owner e) s))).
  { apply Hstill. unfold park_watch. by destruct (bool_decide _). }
  destruct (snd_ s !! e_owner e) as [[]|] eqn:Hi; try done. destruct o; [|done].
  rewrite <- He. by apply reclaim_ok.
Qed.

Lemma park_exited_ok i s s' : pk_ok s -> park_exited i s = Some s' -> pk_ok s'.
Proof.
  intros Hok. unfold park_exited. destruct (snd_ s !! i) as [[]|]; try done. destruct (bool_decide _); [|done].
  intros [= <-]. destruct Hok as [R S Z T N O W P]. pose proof (signal_tokens_le 1 (ne s) ltac:(lia)) as Hle.
  revert Hle. generalize (signal_tokens 1 (ne s)). intros t Hle. split; cbn; try done; [lia|]. intros Hb Hf. destruct (W Hb Hf); [left; lia|auto].
Qed.

Lemma receiver_step_ok k a s s' : pk_ok s -> receiver_step k a s = Some s' -> pk_ok s'.
Proof.
  intros Hok. unfold receiver_step. pose proof (po_tokens _ Hok) as [Ht1 Ht2]. pose proof (po_recv _ Hok) as HrW.
  pose proof (waiting_few s Hok) as [Hfew1 Hfew2].
  destruct (rcv s) as [| | | | | | | |c got|w c got|c] eqn:Hr; cbn in HrW.
  - intros [= <-]. apply (receiver_still s); cbn; rewrite ?Hr; done || lia.
  - intros [= <-]. by apply attempt_read_ok.
  - destruct a; intros [= <-]; apply (receiver_still s); cbn; rewrite ?Hr; done || lia.
  - intros [= <-]. by apply attempt_read_ok.
  - assert (Hgo : forall s', (if 0 <? ne s then Some (with_receiver RWoken (with_events (ne s - 1) (nf s) s)) else None)
      = Some s' -> pk_ok s').
    { intros s0. destruct (Z.ltb_spec 0 (ne s)); [|done]. intros [= <-].
      apply (receiver_still s); cbn; rewrite ?Hr; done || lia. }
    destruct a; try apply Hgo. intros [= <-]. apply (receiver_still s); cbn; rewrite ?Hr; done || lia.
  - intros [= <-]. apply (receiver_still s); cbn; rewrite ?Hr; done || lia.
  - intros [= <-]. apply (receiver_still s); cbn; rewrite ?Hr; done || lia.
  - intros [= <-]. apply (receiver_still s); cbn; rewrite ?Hr; done || lia.
  - intros [= <-]. apply (receiver_moves_ok s); cbn; try done.
    + destruct (0 <? sendW s), c, got; cbn in *; lia.
    + intros Hb Hf. rewrite Hr. split; [|split; [done|split; [lia|done]]]. destruct (0 <? sendW s), c, got; done.
    + intros _ He. unfold released. cbn. destruct (Z.ltb_spec 0 (sendW s)); [done|]. destruct c, got; cbn; lia.
  - intros [= <-]. pose proof (signal_tokens_le w (nf s) Ht2). apply (receiver_moves_ok s); cbn; try done; try lia.
    + destruct c, got; cbn in *; lia.
    + intros Hb Hf. rewrite Hr. split; [|split; [done|split; [lia|done]]]. destruct c, got; done.
    + intros Hfew He. pose proof (po_room _ Hok Hfew He) as P. unfold released in *. rewrite Hr in P. cbn.
      pose proof (signal_many w _ (nf s) P (Hfew2 Hfew) Ht2). destruct c, got; done.
  - intros [= <-]. by apply park_unstall_ok.
Qed.

Lemma park_run_ok ls s s' : pk_ok s -> park_run fits ls s = Some s' -> pk_ok s'.
Proof.
  revert s. induction ls as [|l ls IH]; intros s Hok; cbn; [by intros [= <-]|].
  destruct (park_step fits l s) as [s1|] eqn:E; [|done]. apply IH.
  destruct l; [by eapply sender_step_ok|by eapply receiver_step_ok|by eapply sender_dies_ok|by eapply park_exited_ok].
Qed.

Lemma park_step_length l s s' : park_step fits l s = Some s' -> List.length (snd_ s') = List.length (snd_ s).
Proof.
  intros H. destruct l as [i a|k a|i|i]; cbn in H; revert H;
    unfold sender_step, receiver_step, sender_dies, park_exited, park_unstall, park_watch, attempt_read, attempt_claim;
    repeat case_match; intros [= <-]; cbn; by rewrite ?length_insert.
Qed.

Lemma park_run_length ls s s' : park_run fits ls s = Some s' -> List.length (snd_ s') = List.length (snd_ s).
Proof.
  revert s. induction ls as [|l ls IH]; intros s; cbn; [by intros [= <-]|].
  destruct (park_step fits l s) as [s1|] eqn:E; [|done]. intros H%IH. by rewrite H, (park_step_length _ _ _ E).
Qed.
End Invariant.

(** ** Theorems *)

(** C27: no message waits for a receiver that sleeps. Whatever the interleaving of a
    receiver with any number of senders, which may die at any step: when the receiver is
    at its wait and no token is pending, no sender is on its way to signal, and no
    sender died between its commit and its signal since the last read, then the queue
    has no settled record at its front. [lost_signal] shows that the last condition is
    needed. *)
Theorem receiver_not_missed (fits : list entry -> Z -> bool) (n : nat) (ls : list plabel) (s : pk) :
  park_run fits ls (park_start n) = Some s ->
  rcv s = RWait -> ne s = 0 -> lost s = false -> (forall i pc, snd_ s !! i = Some pc -> waking pc = false) ->
  front_ready (entries s) = false.
Proof.
  intros Hr Hw Ht Hl Hq. pose proof (park_run_ok fits _ _ _ (park_start_ok fits n) Hr) as Hok.
  destruct (front_ready (entries s)) eqn:Hf; [|done].
  destruct (po_wait _ _ Hok) as [?|[?|(i & pc & Hi & Hpc)]]; [by rewrite Hw|done|lia|congruence|].
  rewrite (Hq i pc Hi) in Hpc. done.
Qed.

(** C16: the receiver and the senders of a queue are never all asleep over records that
    someone could still move. The receiver is at its wait with no token pending, and
    every sender is idle, at its wait or dead, none of them dead between its commit and
    its signal since the last read. Then the queue is empty, and with at most 4096
    senders, which is as many as one signal wakes, every sender at its wait has a token
    pending; or the record at the front is the open claim of a dead sender.
    [dead_claim_parks_all] shows that the second case occurs. *)
Theorem never_all_parked (fits : list entry -> Z -> bool) (n : nat) (ls : list plabel) (s : pk) :
  park_run fits ls (park_start n) = Some s -> rcv s = RWait -> ne s = 0 -> lost s = false ->
  (forall i pc, snd_ s !! i = Some pc -> pc = SIdle \/ (exists m, pc = SWait m) \/ is_dead pc = true) ->
  (entries s = [] /\ (Z.of_nat n <= pipeBuf -> total swait (snd_ s) <= nf s)) \/
  (exists e l c, entries s = e :: l /\ e_state e = EOpen /\ snd_ s !! e_owner e = Some (SDead c true)).
Proof.
  intros Hr Hw Ht Hl Hq. pose proof (park_run_ok fits _ _ _ (park_start_ok fits n) Hr) as Hok.
  destruct (entries s) as [|e l] eqn:He.
  - left. split; [done|]. intros Hn. assert (Hfew : few s) by (unfold few; rewrite (park_run_length _ _ _ _ Hr); cbn; by rewrite length_replicate).
    pose proof (po_room _ _ Hok Hfew He) as P. unfold released in P. by rewrite Hw in P.
  - right. assert (Hf : ready_entry e = false).
    { destruct (ready_entry e) eqn:Hf; [|done].
      destruct (po_wait _ _ Hok) as [?|[?|(i & pc & Hi & Hpc)]]; [by rewrite Hw|by rewrite He|lia|congruence|].
      destruct (Hq i pc Hi) as [->|[[m ->]|Hd]]; [done|done|by destruct pc]. }
    assert (Hin : e_owner e ∈ opens (entries s)) by (rewrite He, opens_open by done; by left).
    apply (po_open _ _ Hok) in Hin as (pc & Hi & Hpc). destruct (Hq _ pc Hi) as [->|[[m ->]|Hd]]; [done|done|].
    destruct pc as [| | | | | | | | | |c []]; try done. exists e, l, c. split; [done|]. split; [|done].
    unfold ready_entry in Hf. by destruct (e_state e).
Qed.

(** A ring of [cap] bytes without padding. *)
Definition fits_in (cap : Z) (l : list entry) (n : Z) : bool := total e_size l + n <=? cap.

(** Sender 2 fills the ring, sender 0 parks for 4 bytes, the receiver frees 5 bytes and
    signals once, and sender 1 parks for 8 bytes and takes that token. *)
Definition stolen_token : list plabel :=
  let send i n := [Send_ i (Call n); Send_ i Go; Send_ i Go; Send_ i Go] in
  let parks i n := [Send_ i (Call n); Send_ i Go; Send_ i Go; Send_ i Go] in
  send 2%nat 5 ++ send 2%nat 5 ++ parks 0%nat 4 ++ [Recv_ 0 Go; Recv_ 0 Go; Recv_ 0 Go; Recv_ 0 Go] ++
  parks 1%nat 8 ++ [Send_ 1 Go; Send_ 1 Go; Send_ 1 Go; Send_ 1 Go; Send_ 1 Go].

(** [wakeSenders] does not release every parked sender: one that parks later can take
    the token, and the earlier one then sleeps although its message fits and nobody is
    on its way to wake it. *)
Theorem parked_sender_missed :
  exists s, park_run (fits_in 10) stolen_token (park_start 3) = Some s /\
    snd_ s !! 0%nat = Some (SWait 4) /\ fits_in 10 (entries s) 4 = true /\ nf s = 0 /\ rcv s = RIdle.
Proof. eexists. split; [vm_compute; reflexivity|]. vm_compute. repeat split. Qed.

(** A receiver parks, and a sender commits and dies before it loads [recvWaiters]. *)
Definition lost_signal : list plabel :=
  [Recv_ 0 Go; Recv_ 0 Go; Recv_ 0 Go; Recv_ 0 Go; Recv_ 0 Go; Recv_ 0 Go;
   Send_ 0 (Call 4); Send_ 0 Go; Send_ 0 Go; Die_ 0].

(** A sender that dies between its commit and [wakeReceiver] leaves the receiver asleep
    over a message: there is no token, no watch, and no living sender. *)
Theorem lost_signal_strands_message :
  exists s, park_run (fits_in 10) lost_signal (park_start 1) = Some s /\
    rcv s = RWait /\ ne s = 0 /\ watched s = [] /\ entries s = [mkEntry 0 4 EMsg] /\ snd_ s = [SDead false false].
Proof. eexists. split; [vm_compute; reflexivity|]. vm_compute. repeat split. Qed.

(** A receiver parks on an empty queue, a sender claims the whole ring and dies, and
    another sender parks. *)
Definition dead_claim : list plabel :=
  [Recv_ 0 Go; Recv_ 0 Go; Recv_ 0 Go; Recv_ 0 Go; Recv_ 0 Go; Recv_ 0 Go;
   Send_ 0 (Call 10); Send_ 0 Go; Die_ 0; Send_ 1 (Call 4); Send_ 1 Go; Send_ 1 Go; Send_ 1 Go].

(** The receiver has no watch on a sender that claims after it went to sleep. When that
    sender dies, the receiver does not learn of it, and a sender that needs the room
    sleeps as long as the receiver does. *)
Theorem dead_claim_parks_all :
  exists s, park_run (fits_in 10) dead_claim (park_start 2) = Some s /\
    rcv s = RWait /\ ne s = 0 /\ nf s = 0 /\ watched s = [] /\ snd_ s = [SDead false true; SWait 4] /\
    (forall l, l <> Send_ 1 Stop -> (forall k, l <> Recv_ k Stop) -> l <> Die_ 1 -> park_step (fits_in 10) l s = None).
Proof.
  eexists. split; [vm_compute; reflexivity|]. repeat (split; [vm_compute; reflexivity|]).
  intros [[|[|i]] a|k a|[|[|i]]|[|[|i]]] H1 H2 H3; try destruct a;
    first [reflexivity | by destruct (H1 eq_refl) | by destruct (H3 eq_refl) | by destruct (H2 k eq_refl)].
Qed.

(** ** Witnesses *)

(** A message that is sent and received, a sender that dies with an open claim, which the
    receiver turns into padding, and a receiver that then parks. *)
Definition park_demo : list plabel :=
  [Recv_ 0 Go; Recv_ 0 Go; Recv_ 0 Go; Recv_ 0 Go; Recv_ 0 Go; Recv_ 0 Go;
   Send_ 0 (Call 4); Send_ 0 Go; Send_ 0 Go; Send_ 0 Go; Send_ 0 Go; Send_ 1 (Call 4); Send_ 1 Go; Die_ 1;
   Recv_ 0 Go; Recv_ 0 Go; Recv_ 0 Go; Recv_ 0 Go; Recv_ 0 Go; Recv_ 0 Go;
   Recv_ 0 Go; Recv_ 0 Go; Recv_ 0 Go; Recv_ 0 Go; Recv_ 0 Go; Recv_ 0 Go; Recv_ 0 Go].
Definition park_demo_end : pk := default (park_start 0) (park_run (fits_in 10) park_demo (park_start 2)).

Lemma park_demo_run : park_run (fits_in 10) park_demo (park_start 2) = Some park_demo_end /\ rcv park_demo_end = RWait.
Proof. split; vm_compute; reflexivity. Qed.

Lemma receiver_not_missed_witness : rcv park_demo_end = RWait /\ front_ready (entries park_demo_end) = false.
Proof.
  split; [apply park_demo_run|].
  apply (receiver_not_missed (fits_in 10) 2 park_demo park_demo_end);
    [apply park_demo_run|apply park_demo_run|vm_compute; reflexivity|vm_compute; reflexivity|].
  vm_compute. intros [|[|[|i]]] pc; [by intros [= <-]|by intros [= <-]|done|done].
Defined.

Lemma never_all_parked_witness :
  (entries park_demo_end = [] /\ (Z.of_nat 2 <= pipeBuf -> total swait (snd_ park_demo_end) <= nf park_demo_end)) \/
  (exists e l c, entries park_demo_end = e :: l /\ e_state e = EOpen /\
     snd_ park_demo_end !! e_owner e = Some (SDead c true)).
Proof.
  apply (never_all_parked (fits_in 10) 2 park_demo park_demo_end);
    [apply park_demo_run|apply park_demo_run|vm_compute; reflexivity|vm_compute; reflexivity|].
  intros [|[|[|i]]] pc Hi; vm_compute in Hi;
    [left; by injection Hi as <-|right; right; by injection Hi as <-|done|done].
Defined.
