(* ===== verification/Conn.v ===== *)
(** * A byte stream over a channel ([src/conn.go], [src/channel.go])

    [Write] splits its input into messages and [Read] puts the stream back together.
    What the calls of the channel return, and whether the deadline of the call has
    passed by then, is the outcome that each step is given; the messages of a channel
    arrive in order ([QueueFlow]). *)

From Stdlib Require Import ZArith Lia Bool.
From coqutil Require Import Byte Word.LittleEndianList.
From stdpp Require Import base numbers list list_numbers option.
From S2P Require Import Prelude Ipc Ring RingInv RingSeq Recover Queue QueueThm QueueFlow.

#[local] Open Scope Z_scope.

(** ** The connection *)

Definition typeStreamData : Z := 0.
Definition typeStreamEOF : Z := 1.

(** The errors that a caller of a connection sees. *)
Inductive conn_error : Type :=
| Passed (e : failure)
| ErrDeadlineExceeded
| NetErrClosed
| EOF.

Record Conn : Type := mkConn { pending : list byte; eof : bool; eofSent : bool }.

Definition newConn : Conn := mkConn [] false false.

(** [expired] says that the cause of the context is the deadline. *)
Definition translate (expired : bool) (err : option failure) : option conn_error :=
  if expired then Some ErrDeadlineExceeded
  else
    match err with
    | Some ContextEnded | Some (Of ErrClosed) => Some NetErrClosed
    | Some e => Some (Passed e)
    | None => None
    end.

(** A call of the channel: whether [begin] finds the deadline passed, what the call
    returns, and whether the deadline has passed when [translate] looks. *)
Record outcome (A : Type) : Type := mkOutcome { late : bool; returned : failure + A; passed : bool }.
Arguments mkOutcome {A} _ _ _.
Arguments late {A} _.
Arguments returned {A} _.
Arguments passed {A} _.

Definition error_of {A} (r : failure + A) : option failure := match r with inl e => Some e | inr _ => None end.

(** The messages that a send put on the channel. *)
Definition put (typ : Z) (payload : list byte) (o : outcome unit) : list delivery :=
  match returned o with inr _ => [(typ, payload)] | inl _ => [] end.

(** ** Writing *)

(** The loop of [Write]: the bytes written, the error and the messages sent. [None] when
    the caller is still blocked after the last outcome. *)
Fixpoint write_loop (limit : Z) (p : list byte) (written : Z) (os : list (outcome unit))
    : option (Z * option conn_error * list delivery) :=
  if written <? zlen p then
    match os with
    | [] => None
    | o :: os =>
        let end_ := written + limit in
        let end_ := if zlen p <? end_ then zlen p else end_ in
        if late o then Some (written, Some ErrDeadlineExceeded, [])
        else
          let msgs := put typeStreamData (sub p written (end_ - written)) o in
          match translate (passed o) (error_of (returned o)) with
          | Some e => Some (written, Some e, msgs)
          | None =>
              match write_loop limit p end_ os with
              | None => None
              | Some (n, err, rest) => Some (n, err, msgs ++ rest)
              end
          end
    end
  else Some (written, None, []).

(** A [Write] holds [writeMu] from its first message to its last. [Close] does not take that
    lock; here it comes before the [Write] or after it, and what a [Close] does to the
    messages of a [Write] that is under way is only in the outcomes [os]. *)
Definition Write (limit : Z) (p : list byte) (os : list (outcome unit)) (c : Conn)
    : option (Z * option conn_error * list delivery) :=
  if eofSent c then Some (0, Some NetErrClosed, []) else write_loop limit p 0 os.

Definition set_eofSent (c : Conn) : Conn := mkConn (pending c) (eof c) true.

Definition CloseWrite (o : outcome unit) (c : Conn) : Conn * option conn_error * list delivery :=
  if eofSent c then (c, Some NetErrClosed, [])
  else if late o then (c, Some ErrDeadlineExceeded, [])
  else
    let msgs := put typeStreamEOF [] o in
    match translate (passed o) (error_of (returned o)) with
    | Some e => (c, Some e, msgs)
    | None => (set_eofSent c, None, msgs)
    end.

(** [tried] is what [TrySendTyped] returns; its error is ignored. *)
Definition Close_ (tried : failure + unit) (c : Conn) : Conn * list delivery :=
  if eofSent c then (c, []) else (set_eofSent c, put typeStreamEOF [] (mkOutcome false tried false)).

(** ** Reading *)

(** The loop of [Read]: it leaves with an error or with bytes in [pending]. The last
    component is the messages it took from the channel. *)
Fixpoint read_loop_ (os : list (outcome delivery)) (c : Conn)
    : option (Conn * option conn_error * list delivery) :=
  match pending c with
  | _ :: _ => Some (c, None, [])
  | [] =>
      if eof c then Some (c, Some EOF, [])
      else
        match os with
        | [] => None
        | o :: os =>
            if late o then Some (c, Some ErrDeadlineExceeded, [])
            else
              let took := match returned o with inr m => [m] | inl _ => [] end in
              match translate (passed o) (error_of (returned o)) with
              | Some e => Some (c, Some e, took)
              | None =>
                  match returned o with
                  | inl _ => None
                  | inr (typ, msg) =>
                      if typ =? typeStreamEOF then Some (mkConn (pending c) true (eofSent c), Some EOF, took)
                      else
                        match read_loop_ os (mkConn msg (eof c) (eofSent c)) with
                        | None => None
                        | Some (c, err, rest) => Some (c, err, took ++ rest)
                        end
                  end
              end
        end
  end.

(** [Read] into a slice of [n] bytes: the bytes and the error it returns. *)
Definition Read_ (n : Z) (os : list (outcome delivery)) (c : Conn)
    : option (Conn * (list byte * option conn_error) * list delivery) :=
  match read_loop_ os c with
  | None => None
  | Some (c, Some e, took) => Some (c, ([], Some e), took)
  | Some (c, None, took) =>
      let out := take (Z.to_nat n) (pending c) in
      Some (mkConn (drop (Z.to_nat n) (pending c)) (eof c) (eofSent c), (out, None), took)
  end.

(** ** The stream *)

(** The bytes that messages carry. *)
Definition data_of (m : delivery) : list byte := if fst m =? typeStreamEOF then [] else snd m.
Definition data_bytes (msgs : list delivery) : list byte := mjoin (data_of <$> msgs).

Definition is_eof (m : delivery) : bool := fst m =? typeStreamEOF.

(** The deadline does not pass between the success of a call and [translate]. *)
Definition timely {A} (o : outcome A) : Prop := match returned o with inr _ => passed o = false | inl _ => True end.

(** What the writing side of a connection does, and what it reports as written. *)
Inductive waction : Type :=
| WWrite (p : list byte) (os : list (outcome unit))
| WCloseWrite (o : outcome unit)
| WClose (tried : failure + unit).

Definition write_act (limit : Z) (a : waction) (c : Conn) : option (Conn * list byte * list delivery) :=
  match a with
  | WWrite p os =>
      match Write limit p os c with
      | None => None
      | Some (n, _, msgs) => Some (c, take (Z.to_nat n) p, msgs)
      end
  | WCloseWrite o => let '(c, _, msgs) := CloseWrite o c in Some (c, [], msgs)
  | WClose tried => let '(c, msgs) := Close_ tried c in Some (c, [], msgs)
  end.

Fixpoint writer_run (limit : Z) (l : list waction) (c : Conn) : option (Conn * list byte * list delivery) :=
  match l with
  | [] => Some (c, [], [])
  | a :: l =>
      match write_act limit a c with
      | None => None
      | Some (c, accepted, msgs) =>
          match writer_run limit l c with
          | None => None
          | Some (c, accepted', msgs') => Some (c, accepted ++ accepted', msgs ++ msgs')
          end
      end
  end.

Definition waction_timely (a : waction) : Prop :=
  match a with WWrite _ os => Forall timely os | WCloseWrite o => timely o | WClose _ => True end.

(** What the reading side reads. *)
Fixpoint reader_run (l : list (Z * list (outcome delivery))) (c : Conn) : option (Conn * list byte * list delivery) :=
  match l with
  | [] => Some (c, [], [])
  | (n, os) :: l =>
      match Read_ n os c with
      | None => None
      | Some (c, (out, _), took) =>
          match reader_run l c with
          | None => None
          | Some (c, out', took') => Some (c, out ++ out', took ++ took')
          end
      end
  end.

(** ** Lemmas *)

Lemma data_bytes_app l1 l2 : data_bytes (l1 ++ l2) = data_bytes l1 ++ data_bytes l2.
Proof. unfold data_bytes. by rewrite fmap_app, join_app. Qed.

Lemma data_bytes_one m : data_bytes [m] = data_of m.
Proof. unfold data_bytes. cbn. apply app_nil_r. Qed.

Lemma translate_ok passed err : translate passed err = None <-> passed = false /\ err = None.
Proof.
  unfold translate. destruct passed; [split; [done|by intros [? _]]|].
  destruct err as [[[]| | |]|]; (split; [done|]); intros [_ ?]; done.
Qed.

(** A timely call that reports an error put nothing on the channel. *)
Lemma timely_error {A} (o : outcome A) e :
  timely o -> translate (passed o) (error_of (returned o)) = Some e -> exists f, returned o = inl f.
Proof.
  unfold timely. destruct (returned o) as [f|a]; [eauto|]. intros ->. cbn. done.
Qed.

Lemma sub_join (p : list byte) i j k : 0 <= i <= j -> j <= k -> sub p i (j - i) ++ sub p j (k - j) = sub p i (k - i).
Proof.
  intros Hij Hjk. unfold sub. apply list_eq. intros x.
  destruct (decide (x < Z.to_nat (j - i))%nat) as [Hx|Hx].
  - rewrite lookup_take_lt by lia. destruct (decide (Z.to_nat i + x < length p)%nat) as [Hp|Hp].
    + rewrite lookup_app_l by (rewrite length_take, length_drop; lia). by rewrite lookup_take_lt by lia.
    + rewrite lookup_drop, (lookup_ge_None_2 p) by lia. apply lookup_ge_None_2.
      rewrite length_app, !length_take, !length_drop. lia.
  - destruct (decide (Z.to_nat j <= length p)%nat) as [Hp|Hp].
    + rewrite lookup_app_r by (rewrite length_take, length_drop; lia). rewrite length_take, length_drop.
      replace (x - Z.to_nat (j - i) `min` (length p - Z.to_nat i))%nat with (x - Z.to_nat (j - i))%nat by lia.
      destruct (decide (x < Z.to_nat (k - i))%nat).
      * rewrite !lookup_take_lt, !lookup_drop by lia. f_equal. lia.
      * rewrite !lookup_take_ge by lia. done.
    + rewrite !lookup_ge_None_2; [done|..]; rewrite ?length_app, ?length_take, ?length_drop; lia.
Qed.

Lemma write_loop_spec limit p written os n err msgs :
  0 < limit -> 0 <= written <= zlen p -> Forall timely os -> write_loop limit p written os = Some (n, err, msgs) ->
  written <= n <= zlen p /\ (err = None -> n = zlen p) /\ data_bytes msgs = sub p written (n - written) /\
  Forall (fun m => is_eof m = false /\ zlen (snd m) <= limit) msgs.
Proof.
  intros Hl. revert written n err msgs. induction os as [|o os IH]; intros written n err msgs Hw Ht; cbn [write_loop].
  { destruct (Z.ltb_spec written (zlen p)); [done|]. intros [= <- <- <-]. rewrite Z.sub_diag. split; [lia|]. split; [lia|done]. }
  destruct (Z.ltb_spec written (zlen p)) as [Hlt|Hge].
  2:{ intros [= <- <- <-]. rewrite Z.sub_diag. split; [lia|]. split; [lia|done]. }
  apply list.Forall_cons in Ht as [Ho Ht]. set (end_ := if zlen p <? written + limit then zlen p else written + limit).
  assert (Hend : written < end_ <= zlen p /\ end_ - written <= limit)
    by (unfold end_; destruct (Z.ltb_spec (zlen p) (written + limit)); lia).
  destruct (late o).
  { intros [= <- <- <-]. rewrite Z.sub_diag. split; [lia|done]. }
  destruct (translate (passed o) (error_of (returned o))) as [e|] eqn:Htr.
  - destruct (timely_error o e Ho Htr) as [f Hf]. unfold put. rewrite Hf. intros [= <- <- <-]. rewrite Z.sub_diag.
    split; [lia|done].
  - apply translate_ok in Htr as [_ Herr]. unfold put. destruct (returned o) as [f|[]]; [done|].
    destruct (write_loop limit p end_ os) as [[[n' err'] rest]|] eqn:E; [|done]. intros [= <- <- <-].
    destruct (IH end_ n' err' rest ltac:(lia) Ht E) as (Hn & He & Hd & Hall).
    assert (Hz : zlen (sub p written (end_ - written)) = end_ - written) by (apply zlen_sub; lia).
    split; [lia|]. split; [done|]. split.
    + change (data_bytes (([(typeStreamData, sub p written (end_ - written))]) ++ rest) = sub p written (n' - written)).
      rewrite data_bytes_app, data_bytes_one, Hd. unfold data_of. cbn. apply sub_join; lia.
    + constructor; [|done]. split; [done|]. cbn [snd]. lia.
Qed.

(** As many outcomes as chunks end the loop. *)
Lemma write_loop_ends limit p written os :
  0 < limit -> 0 <= written -> zlen p - written <= limit * zlen os -> exists r, write_loop limit p written os = Some r.
Proof.
  intros Hl. revert written. induction os as [|o os IH]; intros written Hw Hlen; cbn [write_loop];
    destruct (Z.ltb_spec written (zlen p)) as [Hlt|Hge]; try (eexists; reflexivity).
  - change (zlen []) with 0 in Hlen. lia.
  - rewrite zlen_cons in Hlen. destruct (late o); [by eexists|]. destruct (translate _ _); [by eexists|].
    destruct (IH (if zlen p <? written + limit then zlen p else written + limit)) as [[[n err] rest] ->]; [| |by eexists].
    + destruct (Z.ltb_spec (zlen p) (written + limit)); lia.
    + destruct (Z.ltb_spec (zlen p) (written + limit)); [pose proof (zlen_nonneg os)|]; nia.
Qed.

(** The end of the stream comes last. *)
Definition eof_last (l : list delivery) : Prop := forall l1 m l2, l = l1 ++ m :: l2 -> is_eof m = true -> l2 = [].

Lemma eof_last_none l : Forall (fun m => is_eof m = false) l -> eof_last l.
Proof.
  intros Hall l1 m l2 -> Hm. apply Forall_app in Hall as [_ Hall]. apply list.Forall_cons in Hall as [Hm' _]. congruence.
Qed.

Lemma eof_last_app l l' : Forall (fun m => is_eof m = false) l -> eof_last l' -> eof_last (l ++ l').
Proof.
  intros Hall Hl. induction Hall as [|x l Hx _ IH]; [done|]. intros [|y l1] m l2 E Hm; cbn in E.
  - injection E as -> _. congruence.
  - injection E as _ E. by eapply IH.
Qed.

(** One action of the writing side. *)
Lemma write_act_spec limit a c c' accepted msgs :
  0 < limit -> waction_timely a -> write_act limit a c = Some (c', accepted, msgs) ->
  data_bytes msgs = accepted /\ Forall (fun m => zlen (snd m) <= limit) msgs /\
  (eofSent c = true -> msgs = [] /\ eofSent c' = true) /\
  (Forall (fun m => is_eof m = false) msgs \/ (eof_last msgs /\ eofSent c' = true)).
Proof.
  intros Hl Ht. destruct a as [p os|o|tried]; cbn [write_act].
  - unfold Write. destruct (eofSent c) eqn:He.
    { intros [= <- <- <-]. split_and!; try done. by left. }
    destruct (write_loop limit p 0 os) as [[[n err] ms]|] eqn:E; [|done]. intros [= <- <- <-].
    destruct (write_loop_spec limit p 0 os n err ms Hl ltac:(pose proof (zlen_nonneg p); lia) Ht E) as (Hn & _ & Hd & Hall).
    rewrite Z.sub_0_r in Hd. unfold sub in Hd. cbn in Hd. split; [done|]. split; [eapply List.Forall_impl; [|exact Hall]; by intros m []|].
    split; [congruence|]. left. eapply List.Forall_impl; [|exact Hall]. by intros m [].
  - unfold CloseWrite. destruct (eofSent c) eqn:He; [|destruct (late o)].
    1,2: intros [= <- <- <-]; split_and!; try done; try congruence; by left.
    destruct (translate (passed o) (error_of (returned o))) as [e|] eqn:Htr.
    + destruct (timely_error o e Ht Htr) as [f Hf]. unfold put. rewrite Hf. intros [= <- <- <-].
      split_and!; try done; try congruence. by left.
    + apply translate_ok in Htr as [_ Herr]. unfold put. destruct (returned o) as [f|[]]; [done|]. intros [= <- <- <-].
      split_and!; try done. { constructor; [change (0 <= limit); lia|done]. } right. split; [|done].
      intros [|x [|y l1]] m l2 E _; by injection E.
  - unfold Close_. destruct (eofSent c) eqn:He.
    { intros [= <- <- <-]. split_and!; try done. by left. }
    unfold put. cbn [returned]. destruct tried as [f|[]]; intros [= <- <- <-]; split_and!; try done.
    + by left.
    + constructor; [change (0 <= limit); lia|done].
    + right. split; [|done]. intros [|x [|y l1]] m l2 E _; by injection E.
Qed.

Lemma writer_run_spec limit l c c' accepted msgs :
  0 < limit -> Forall waction_timely l -> writer_run limit l c = Some (c', accepted, msgs) ->
  data_bytes msgs = accepted /\ Forall (fun m => zlen (snd m) <= limit) msgs /\
  (eofSent c = true -> msgs = []) /\ eof_last msgs.
Proof.
  intros Hl. revert c c' accepted msgs. induction l as [|a l IH]; intros c c' accepted msgs Ht; cbn [writer_run].
  { intros [= <- <- <-]. split_and!; try done. by intros [|] ? ?. }
  apply list.Forall_cons in Ht as [Ha Ht].
  destruct (write_act limit a c) as [[[c1 acc1] ms1]|] eqn:E1; [|done].
  destruct (writer_run limit l c1) as [[[c2 acc2] ms2]|] eqn:E2; [|done]. intros [= <- <- <-].
  destruct (write_act_spec _ _ _ _ _ _ Hl Ha E1) as (D1 & F1 & S1 & L1).
  destruct (IH _ _ _ _ Ht E2) as (D2 & F2 & S2 & L2).
  split; [by rewrite data_bytes_app, D1, D2|]. split; [by apply Forall_app|]. split.
  - intros He. destruct (S1 He) as [-> Hc]. by rewrite S2.
  - destruct L1 as [Hno|[Hlast Hc]]; [by apply eof_last_app|]. rewrite (S2 Hc), app_nil_r. done.
Qed.

Lemma read_loop_spec_ os c c' err took :
  Forall timely os -> read_loop_ os c = Some (c', err, took) ->
  pending c' = pending c ++ data_bytes took /\ eof c' = eof c || existsb is_eof took.
Proof.
  revert c c' err took. induction os as [|o os IH]; intros c c' err took Ht; cbn [read_loop_].
  - destruct (pending c) as [|b bs] eqn:Hp; [destruct (eof c) eqn:He; [|done]|]; intros [= <- <- <-];
      rewrite ?Hp, ?He, ?app_nil_r, ?orb_false_r; done.
  - destruct (pending c) as [|b bs] eqn:Hp; [destruct (eof c) eqn:He|].
    1,3: intros [= <- <- <-]; rewrite ?Hp, ?He, ?app_nil_r, ?orb_false_r; done.
    apply list.Forall_cons in Ht as [Ho Ht]. destruct (late o).
    { intros [= <- <- <-]. rewrite ?Hp, ?He. done. }
    destruct (translate (passed o) (error_of (returned o))) as [e|] eqn:Htr.
    + destruct (timely_error o e Ho Htr) as [f Hf]. rewrite Hf. intros [= <- <- <-]. rewrite ?Hp, ?He. done.
    + destruct (returned o) as [f|[typ msg]]; [done|]. destruct (typ =? typeStreamEOF) eqn:Htyp.
      * intros [= <- <- <-]. cbn. rewrite ?Hp. unfold data_bytes, data_of, is_eof. cbn. by rewrite Htyp.
      * destruct (read_loop_ os _) as [[[c1 err1] rest]|] eqn:E; [|done]. intros [= <- <- <-].
        destruct (IH _ _ _ _ Ht E) as [Hpend Heof]. cbn [pending eof] in Hpend, Heof.
        change ((typ, msg) :: rest) with ([(typ, msg)] ++ rest). rewrite data_bytes_app, data_bytes_one, Hpend, Heof.
        unfold data_of. cbn [fst snd existsb app]. unfold is_eof. cbn [fst]. by rewrite Htyp.
Qed.

Lemma reader_run_spec l c c' out took :
  Forall (fun r => Forall timely (snd r)) l -> reader_run l c = Some (c', out, took) ->
  out ++ pending c' = pending c ++ data_bytes took /\ eof c' = eof c || existsb is_eof took.
Proof.
  revert c c' out took. induction l as [|[n os] l IH]; intros c c' out took Ht; cbn [reader_run].
  { intros [= <- <- <-]. by rewrite app_nil_r, orb_false_r. }
  apply list.Forall_cons in Ht as [Ho Ht]. cbn [snd] in Ho. unfold Read_.
  destruct (read_loop_ os c) as [[[c1 err] took1]|] eqn:E1; [|done].
  destruct (read_loop_spec_ _ _ _ _ _ Ho E1) as [P1 F1].
  destruct err as [e|].
  - destruct (reader_run l c1) as [[[c2 out2] took2]|] eqn:E2; [|done]. intros [= <- <- <-].
    destruct (IH _ _ _ _ Ht E2) as [P2 F2]. cbn [app]. rewrite data_bytes_app, existsb_app, F2, F1, P2, P1.
    by rewrite app_assoc, orb_assoc.
  - destruct (reader_run l _) as [[[c2 out2] took2]|] eqn:E2; [|done]. intros [= <- <- <-].
    destruct (IH _ _ _ _ Ht E2) as [P2 F2]. cbn [pending eof] in P2, F2.
    rewrite data_bytes_app, existsb_app, F2, F1, orb_assoc. split; [|done].
    rewrite <-app_assoc, P2, app_assoc, take_drop, P1. by rewrite app_assoc.
Qed.

(** The end of the stream is reported when nothing is buffered. *)
Lemma read_loop_eof os c c' err took :
  (eof c = true -> pending c = []) -> read_loop_ os c = Some (c', err, took) ->
  (eof c' = true -> pending c' = []) /\ (err = None -> eof c' = false).
Proof.
  revert c c' err took. induction os as [|o os IH]; intros c c' err took Hc; cbn [read_loop_];
    (destruct (pending c) as [|b bs] eqn:Hp; [destruct (eof c) eqn:He|]).
  1,3,4,6: try done; intros [= <- <- <-]; (split; [intros He'; rewrite ?Hp; auto|]);
    intros He'; destruct (eof c) eqn:He''; try done; by specialize (Hc eq_refl).
  - done.
  - destruct (late o); [intros [= <- <- <-]; split; congruence|].
    destruct (translate _ _); [intros [= <- <- <-]; split; congruence|].
    destruct (returned o) as [f|[typ msg]]; [done|]. destruct (typ =? _); [intros [= <- <- <-]; by split|].
    destruct (read_loop_ os _) as [[[c1 err1] rest]|] eqn:E; [|done]. intros [= <- <- <-].
    eapply IH; [|exact E]. cbn. done.
Qed.

Lemma reader_run_eof l c c' out took :
  (eof c = true -> pending c = []) -> reader_run l c = Some (c', out, took) -> eof c' = true -> pending c' = [].
Proof.
  revert c c' out took. induction l as [|[n os] l IH]; intros c c' out took Hc; cbn [reader_run].
  { by intros [= <- <- <-]. }
  unfold Read_. destruct (read_loop_ os c) as [[[c1 err] took1]|] eqn:E1; [|done].
  destruct (read_loop_eof _ _ _ _ _ Hc E1) as [H1 H2]. destruct err as [e|].
  - destruct (reader_run l c1) as [[[c2 out2] took2]|] eqn:E2; [|done]. intros [= <- <- <-]. by eapply IH.
  - destruct (reader_run l _) as [[[c2 out2] took2]|] eqn:E2; [|done]. intros [= <- <- <-].
    eapply IH; [|exact E2]. cbn. by rewrite H2.
Qed.

(** ** Theorems *)

(** C20: a connection over a queue is a byte stream: whatever the sizes of the writes and
    of the reads, and whatever errors end some of them, the bytes read, followed by the
    bytes still buffered or on their way, are the bytes that [Write] reported, as long as
    no deadline passes between the success of a call of the channel and the look at its
    context. A reader that sees the end of the stream has read all of them. *)
Theorem conn_stream (limit : Z) (wacts : list waction) (reads : list (Z * list (outcome delivery)))
    (cw cr : Conn) (accepted out : list byte) (sent took : list delivery) (r0 : Ring) (y : system) :
  0 < limit -> holds r0 [] -> flow r0 y sent took ->
  writer_run limit wacts newConn = Some (cw, accepted, sent) -> Forall waction_timely wacts ->
  reader_run reads newConn = Some (cr, out, took) -> Forall (fun r => Forall timely (snd r)) reads ->
  exists rest, accepted = out ++ pending cr ++ rest /\ (eof cr = true -> accepted = out).
Proof.
  intros Hl H0 Hflow Hw Htw Hr Htr. destruct (flow_holds r0 y sent took H0 Hflow) as (rest & -> & _).
  destruct (writer_run_spec _ _ _ _ _ _ Hl Htw Hw) as (Hd & _ & _ & Hlast).
  destruct (reader_run_spec _ _ _ _ _ Htr Hr) as [Hp He]. cbn [pending eof newConn app] in Hp, He.
  rewrite data_bytes_app in Hd. exists (data_bytes rest). rewrite app_assoc, Hp. split; [done|].
  intros Heof. rewrite Heof in He. cbn in He. symmetry in He. apply existsb_exists in He as (m & Hin & Hm).
  apply list_elem_of_In, list_elem_of_split in Hin as (l1 & l2 & ->).
  assert (Hnil : l2 ++ rest = []) by (eapply (Hlast l1 m); [by rewrite <-app_assoc|done]).
  apply app_eq_nil in Hnil as [_ ->]. rewrite (reader_run_eof reads newConn cr out _ ltac:(done) Hr Heof) in Hp.
  rewrite app_nil_r in Hd, Hp. congruence.
Qed.

(** [Write] ends once the channel has answered for every chunk; the messages it sent
    are as large as the channel takes and carry exactly the bytes that it reports, which
    are all of them when it reports no error. *)
Theorem Write_reports (limit : Z) (p : list byte) (os : list (outcome unit)) (c : Conn) :
  0 < limit -> eofSent c = false -> zlen p <= limit * zlen os -> Forall timely os ->
  exists n err msgs, Write limit p os c = Some (n, err, msgs) /\ 0 <= n <= zlen p /\ (err = None -> n = zlen p) /\
    data_bytes msgs = take (Z.to_nat n) p /\ Forall (fun m => is_eof m = false /\ zlen (snd m) <= limit) msgs.
Proof.
  intros Hl He Hlen Ht. unfold Write. rewrite He.
  destruct (write_loop_ends limit p 0 os Hl ltac:(lia) ltac:(lia)) as [[[n err] msgs] E]. exists n, err, msgs.
  destruct (write_loop_spec limit p 0 os n err msgs Hl ltac:(pose proof (zlen_nonneg p); lia) Ht E) as (Hn & Hnone & Hd & Hall).
  split; [done|]. split; [done|]. split; [done|]. split; [|done]. by rewrite Z.sub_0_r in Hd.
Qed.

(** a deadline that passes right after the channel succeeded breaks the stream: a
    [Read] reports the deadline and drops the message that it took, and a [Write] reports
    none of the bytes of the chunk that it sent. *)
Theorem deadline_breaks_stream (limit n : Z) (p msg : list byte) (c : Conn) :
  pending c = [] -> eof c = false -> eofSent c = false -> 0 < limit -> 0 < zlen p ->
  Read_ n [mkOutcome false (inr (typeStreamData, msg)) true] c =
    Some (c, ([], Some ErrDeadlineExceeded), [(typeStreamData, msg)]) /\
  Write limit p [mkOutcome false (inr tt) true] c =
    Some (0, Some ErrDeadlineExceeded, [(typeStreamData, take (Z.to_nat limit) p)]).
Proof.
  intros Hp He Hs Hl Hlen. split.
  - unfold Read_. cbn [read_loop_]. by rewrite Hp, He.
  - unfold Write. rewrite Hs. cbn [write_loop]. rewrite (proj2 (Z.ltb_lt _ _)) by lia. cbn [late passed returned translate].
    do 3 f_equal. unfold put. cbn [returned]. do 2 f_equal. unfold sub. cbn [drop Z.to_nat]. rewrite Z.sub_0_r.
    destruct (Z.ltb_spec (zlen p) (0 + limit)); [|done]. unfold zlen in *. change (drop (Z.to_nat 0) p) with p. rewrite !take_ge by lia. done.
Qed.

(** ** Witnesses *)

Definition sent_ok : outcome unit := mkOutcome false (inr tt) false.
Definition got_msg (m : delivery) : outcome delivery := mkOutcome false (inr m) false.

(** A write of two bytes through the queue of [flow_demo], read one byte at a time. *)
Lemma conn_stream_witness :
  exists rest, [Byte.x01; Byte.x02] = [Byte.x01] ++ [Byte.x02] ++ rest.
Proof.
  destruct (conn_stream 2040 [WWrite [Byte.x01; Byte.x02] [sent_ok]] [(1, [got_msg (0, [Byte.x01; Byte.x02])])]
    newConn (mkConn [Byte.x02] false false) [Byte.x01; Byte.x02] [Byte.x01] [(0, [Byte.x01; Byte.x02])] [(0, [Byte.x01; Byte.x02])]
    demo_queue_ring flow_demo2) as (rest & Hr & _);
    [lia|apply demo_queue_holds|apply flow_demo|reflexivity|repeat constructor|reflexivity|repeat constructor|].
  exists rest. exact Hr.
Defined.

Lemma Write_reports_witness :
  exists n err msgs, Write 1 [Byte.x01; Byte.x02] [sent_ok; sent_ok] newConn = Some (n, err, msgs) /\ 0 <= n <= 2 /\
    (err = None -> n = 2) /\ data_bytes msgs = take (Z.to_nat n) [Byte.x01; Byte.x02] /\
    Forall (fun m => is_eof m = false /\ zlen (snd m) <= 1) msgs.
Proof. apply (Write_reports 1 [Byte.x01; Byte.x02] [sent_ok; sent_ok] newConn); [done..|repeat constructor]. Defined.

Lemma deadline_breaks_stream_witness :
  Read_ 8 [mkOutcome false (inr (typeStreamData, [Byte.x01])) true] newConn =
    Some (newConn, ([], Some ErrDeadlineExceeded), [(typeStreamData, [Byte.x01])]).
Proof. apply (deadline_breaks_stream 2040 8 [Byte.x01] [Byte.x01] newConn); done. Defined.
