(* ===== verification/SockEvent.v ===== *)
(** * Events over a socket ([src/event_sock.go])

    On a host without FIFOs the creator of an event serves its tokens over a Unix
    socket. A client sends [W] for each wait, [C] for each wait that was cancelled and
    [S] with the tokens it signals or gives back; the server answers [T] for a token.
    Each step is one critical section or one message. *)

From Stdlib Require Import ZArith Lia Bool.
From stdpp Require Import base numbers list list_numbers option.
From S2P Require Import Prelude.

#[local] Open Scope Z_scope.

(** ** The protocol *)

(** What a client sends; the tokens of an [S] fit one byte. *)
Inductive cmsg : Type := CW | CC | CS (n : Z).

(** A [sockEvent] and the two directions of its connection. [unW] waits have joined
    [waiters] and not sent their [W], [unC] cancelled waits have not sent their [C], and
    [unS] tokens wait to be given back; [inbox] counts the [T] on their way. *)
Record sockEvent : Type := mkSock {
  waiters : list nat; unW : Z; unC : Z; unS : Z; outbox : list cmsg; inbox : Z; up : bool }.

(** A [sockServer] and its clients. The last three count tokens: signalled, handed to a
    wait, and lost with a connection. *)
Record sockServer : Type := mkServer {
  tokens : Z; waiting : list nat; clients : list sockEvent; signalled : Z; delivered : Z; lost : Z }.

Definition set_client (c : nat) (e : sockEvent) (s : sockServer) : sockServer :=
  mkServer (tokens s) (waiting s) (<[c := e]> (clients s)) (signalled s) (delivered s) (lost s).

(** [remove]: the first entry of [c]. *)
Fixpoint remove_ (c : nat) (l : list nat) : list nat :=
  match l with [] => [] | x :: l => if bool_decide (x = c) then l else x :: remove_ c l end.

Definition push_token (e : sockEvent) : sockEvent :=
  mkSock (waiters e) (unW e) (unC e) (unS e) (outbox e) (inbox e + 1) (up e).

(** The loop of [client] that hands out tokens. A write to a connection that broke fails
    and costs no token. *)
Fixpoint hand_out (waiting : list nat) (tokens : Z) (cs : list sockEvent) : list nat * Z * list sockEvent :=
  if 0 <? tokens then
    match waiting with
    | [] => ([], tokens, cs)
    | c :: waiting =>
        match cs !! c with
        | Some e =>
            if up e then hand_out waiting (tokens - 1) (<[c := push_token e]> cs)
            else hand_out waiting tokens cs
        | None => hand_out waiting tokens cs
        end
    end
  else (waiting, tokens, cs).

(** One round of [client]: a message, and then the tokens. *)
Definition handle (c : nat) (m : cmsg) (s : sockServer) : sockServer :=
  let waiting := match m with CW => waiting s ++ [c] | CC => remove_ c (waiting s) | CS _ => waiting s end in
  let tokens := match m with CS n => tokens s + n | _ => tokens s end in
  let '(waiting, tokens, cs) := hand_out waiting tokens (clients s) in
  mkServer tokens waiting cs (signalled s) (delivered s) (lost s).

(** The tokens that a message carries. *)
Definition carried (m : cmsg) : Z := match m with CS n => n | _ => 0 end.

(** ** The steps *)

Inductive slabel : Type :=
| Wait_ (c w : nat)          (* [wait] joins [waiters] *)
| SendW (c : nat)            (* and sends its [W] *)
| Cancel (c w : nat)         (* [withdraw] *)
| SendC (c : nat)            (* and sends its [C] *)
| Signal_ (c : nat) (n : Z)  (* one message of [signal] *)
| Serve (c : nat)            (* a round of [client] *)
| ReadT (c : nat)            (* a round of [read] *)
| GiveBack (c : nat)         (* and its [S] when no wait is left *)
| Hangup (c : nat).          (* the connection breaks: [lose] and [drop] *)

Definition with_waiters_ (ws : list nat) (uW uC : Z) (e : sockEvent) : sockEvent :=
  mkSock ws uW uC (unS e) (outbox e) (inbox e) (up e).
Definition with_out (uW uC uS : Z) (m : cmsg) (e : sockEvent) : sockEvent :=
  mkSock (waiters e) uW uC uS (outbox e ++ [m]) (inbox e) (up e).

Definition sock_step (l : slabel) (s : sockServer) : option sockServer :=
  let at_ c (k : sockEvent -> option sockServer) :=
    match clients s !! c with Some e => if up e then k e else None | None => None end in
  match l with
  | Wait_ c w => at_ c (fun e => Some (set_client c (with_waiters_ (waiters e ++ [w]) (unW e + 1) (unC e) e) s))
  | SendW c => at_ c (fun e =>
      if 0 <? unW e then Some (set_client c (with_out (unW e - 1) (unC e) (unS e) CW e) s) else None)
  | Cancel c w => at_ c (fun e =>
      if bool_decide (w ∈ waiters e)
      then Some (set_client c (with_waiters_ (remove_ w (waiters e)) (unW e) (unC e + 1) e) s) else None)
  | SendC c => at_ c (fun e =>
      if 0 <? unC e then Some (set_client c (with_out (unW e) (unC e - 1) (unS e) CC e) s) else None)
  | Signal_ c n => at_ c (fun e =>
      if (0 <? n) && (n <=? 255)
      then Some (mkServer (tokens s) (waiting s) (<[c := with_out (unW e) (unC e) (unS e) (CS n) e]> (clients s))
             (signalled s + n) (delivered s) (lost s))
      else None)
  | Serve c => at_ c (fun e =>
      match outbox e with
      | [] => None
      | m :: out =>
          Some (handle c m (set_client c (mkSock (waiters e) (unW e) (unC e) (unS e) out (inbox e) (up e)) s))
      end)
  | ReadT c => at_ c (fun e =>
      if 0 <? inbox e then
        match waiters e with
        | w :: ws =>
            Some (mkServer (tokens s) (waiting s)
              (<[c := mkSock ws (unW e) (unC e) (unS e) (outbox e) (inbox e - 1) (up e)]> (clients s))
              (signalled s) (delivered s + 1) (lost s))
        | [] => Some (set_client c (mkSock [] (unW e) (unC e) (unS e + 1) (outbox e) (inbox e - 1) (up e)) s)
        end
      else None)
  | GiveBack c => at_ c (fun e =>
      if 0 <? unS e then Some (set_client c (with_out (unW e) (unC e) (unS e - 1) (CS 1) e) s) else None)
  | Hangup c => at_ c (fun e =>
      Some (mkServer (tokens s) (remove_ c (waiting s)) (<[c := mkSock [] 0 0 0 [] 0 false]> (clients s))
        (signalled s) (delivered s) (lost s + inbox e + unS e + total carried (outbox e))))
  end.

Fixpoint sock_run (ls : list slabel) (s : sockServer) : option sockServer :=
  match ls with
  | [] => Some s
  | l :: ls => match sock_step l s with Some s => sock_run ls s | None => None end
  end.

Definition sock_start (n : nat) : sockServer :=
  mkServer 0 [] (replicate n (mkSock [] 0 0 0 [] 0 true)) 0 0 0.

(** ** Tokens are conserved *)

(** The tokens a client has: on their way to it, to be given back, and on their way
    from it. *)
Definition held (e : sockEvent) : Z := inbox e + unS e + total carried (outbox e).

Definition balance (s : sockServer) : Prop :=
  signalled s = tokens s + total held (clients s) + delivered s + lost s.

Lemma hand_out_total w t cs :
  let '(w', t', cs') := hand_out w t cs in t' + total held cs' = t + total held cs /\ (0 < t' -> w' = []) /\ (0 <= t -> 0 <= t').
Proof.
  revert t cs. induction w as [|c w IH]; intros t cs; cbn [hand_out]; destruct (Z.ltb_spec 0 t) as [Ht|Ht].
  1,2,4: split; [done|]; split; [intros; done || lia|lia].
  destruct (cs !! c) as [e|] eqn:He; [destruct (up e)|].
  - specialize (IH (t - 1) (<[c := push_token e]> cs)). destruct (hand_out _ _ _) as [[w' t'] cs'].
    destruct IH as (IH1 & IH2 & IH3). rewrite (total_insert held cs c e) in IH1 by done.
    unfold held, push_token in IH1. cbn in IH1. fold held in IH1. split; [unfold held in *; lia|]. split; [done|lia].
  - specialize (IH t cs). destruct (hand_out w t cs) as [[w' t'] cs']. done.
  - specialize (IH t cs). destruct (hand_out w t cs) as [[w' t'] cs']. done.
Qed.

(** The server keeps a token only when no wait is queued. *)
Definition served (s : sockServer) : Prop := 0 <= tokens s /\ (0 < tokens s -> waiting s = []).

Lemma handle_balance c m s :
  0 <= tokens s -> 0 <= carried m ->
  tokens (handle c m s) + total held (clients (handle c m s)) = tokens s + carried m + total held (clients s) /\
  signalled (handle c m s) = signalled s /\ delivered (handle c m s) = delivered s /\ lost (handle c m s) = lost s /\
  served (handle c m s).
Proof.
  intros Ht Hm. unfold handle, served.
  pose proof (hand_out_total (match m with CW => waiting s ++ [c] | CC => remove_ c (waiting s) | CS _ => waiting s end)
    (match m with CS n => tokens s + n | _ => tokens s end) (clients s)) as Hh.
  destruct (hand_out _ _ _) as [[w' t'] cs']. cbn [tokens waiting clients signalled delivered lost].
  destruct Hh as (H1 & H2 & H3). split; [destruct m; cbn in *; lia|]. split_and!; try done. apply H3. destruct m; cbn in *; lia.
Qed.

Lemma remove_nil c l : l = [] -> remove_ c l = [].
Proof. by intros ->. Qed.

(** Every message of a client carries at least no tokens. *)
Definition box_ok (s : sockServer) : Prop :=
  forall c e, clients s !! c = Some e -> 0 <= unS e /\ Forall (fun m => 0 <= carried m) (outbox e).

Lemma hand_out_clients w t cs c e :
  (hand_out w t cs).2 !! c = Some e ->
  exists e0, cs !! c = Some e0 /\ waiters e = waiters e0 /\ unW e = unW e0 /\ unC e = unC e0 /\ unS e = unS e0 /\
    outbox e = outbox e0 /\ up e = up e0.
Proof.
  revert t cs. induction w as [|x w IH]; intros t cs; cbn [hand_out]; destruct (0 <? t); try (intros H; exists e; done).
  destruct (cs !! x) as [ex|] eqn:Hx; [destruct (up ex)|]; try apply IH.
  intros (e0 & H & E)%IH. apply moved_cases in H as [[-> ->]|[_ H]]; [|eauto]. exists ex. by cbn in E.
Qed.

Lemma set_client_total c e e' s :
  clients s !! c = Some e -> total held (clients (set_client c e' s)) = total held (clients s) - held e + held e'.
Proof. intros H. cbn. by apply total_insert. Qed.

Lemma sock_step_balance l s s' :
  box_ok s -> served s -> balance s -> sock_step l s = Some s' -> balance s' /\ served s' /\ box_ok s'.
Proof.
  intros Hbox Hserved Hbal Hstep.
  (* a step that moves one client and the counters *)
  assert (Hmove : forall c e e' dsig ddel dlost w,
    clients s !! c = Some e -> 0 <= unS e' -> Forall (fun m => 0 <= carried m) (outbox e') ->
    dsig = held e' - held e + ddel + dlost -> (waiting s = [] -> w = []) ->
    let s1 := mkServer (tokens s) w (<[c := e']> (clients s)) (signalled s + dsig) (delivered s + ddel) (lost s + dlost) in
    balance s1 /\ served s1 /\ box_ok s1).
  { intros c e e' dsig ddel dlost w He H1 H2 Hd Hw s1. unfold s1, balance, served, box_ok in *. cbn. split_and!.
    - rewrite (total_insert held _ c e) by done. lia.
    - apply Hserved.
    - intros Ht. apply Hw, Hserved, Ht.
    - intros c1 e1 H. apply moved_cases in H as [[-> ->]|[_ H]]; [done|by apply Hbox in H]. }
  assert (Hlocal : forall c e e', clients s !! c = Some e -> 0 <= unS e' -> Forall (fun m => 0 <= carried m) (outbox e') ->
    held e' = held e -> balance (set_client c e' s) /\ served (set_client c e' s) /\ box_ok (set_client c e' s)).
  { intros c e e' He H1 H2 Hd. pose proof (Hmove c e e' 0 0 0 (waiting s) He H1 H2 ltac:(lia) (fun H => H)) as Hm.
    cbv zeta in Hm. rewrite !Z.add_0_r in Hm. exact Hm. }
  assert (Hsnoc : forall c e m, clients s !! c = Some e -> 0 <= carried m -> Forall (fun m => 0 <= carried m) (outbox e ++ [m])).
  { intros c e m He Hm. apply Forall_app. split; [by apply (Hbox c e)|by constructor]. }
  unfold sock_step in Hstep. destruct l as [c w|c|c w|c|c n|c|c|c|c];
    (destruct (clients s !! c) as [e|] eqn:He; [|done]); (destruct (up e) eqn:Hup; [|done]);
    pose proof (Hbox c e He) as [HuS Hfa].
  - injection Hstep as <-. by eapply Hlocal.
  - destruct (0 <? unW e); [|done]. injection Hstep as <-. eapply Hlocal; [done|done|by eapply Hsnoc|].
    unfold held. cbn. rewrite total_app. cbn. lia.
  - destruct (bool_decide _); [|done]. injection Hstep as <-. by eapply Hlocal.
  - destruct (0 <? unC e); [|done]. injection Hstep as <-. eapply Hlocal; [done|done|by eapply Hsnoc|].
    unfold held. cbn. rewrite total_app. cbn. lia.
  - destruct ((0 <? n) && (n <=? 255)) eqn:Hn; [|done]. reflect_bools. injection Hstep as <-.
    pose proof (Hmove c e (with_out (unW e) (unC e) (unS e) (CS n) e) n 0 0 (waiting s) He HuS
      ltac:(eapply Hsnoc; [done|cbn; lia]) ltac:(unfold held; cbn; rewrite total_app; cbn; lia) (fun H => H)) as Hm.
    cbv zeta in Hm. rewrite !Z.add_0_r in Hm. exact Hm.
  - destruct (outbox e) as [|m out] eqn:Hout; [done|]. injection Hstep as <-.
    apply list.Forall_cons in Hfa as [Hm Hfa]. set (s1 := set_client _ _ s).
    destruct (handle_balance c m s1 (proj1 Hserved) Hm) as (H1 & H2 & H3 & H4 & H5).
    split; [|split; [done|]].
    + unfold balance in *. rewrite H2, H3, H4. unfold s1 in *. rewrite (set_client_total c e) in H1 by done.
      assert (Hh : held (mkSock (waiters e) (unW e) (unC e) (unS e) out (inbox e) true) = held e - carried m)
        by (unfold held; rewrite Hout; cbn; lia).
      rewrite Hh in H1. cbn [tokens signalled delivered lost set_client] in *. lia.
    + intros c1 e1 Hc1. unfold handle in Hc1. destruct (hand_out _ _ _) as [[w' t'] cs'] eqn:Hh. cbn [clients] in Hc1.
      pose proof (hand_out_clients (match m with CW => waiting s1 ++ [c] | CC => remove_ c (waiting s1) | CS _ => waiting s1 end)
        (match m with CS n => tokens s1 + n | _ => tokens s1 end) (clients s1) c1 e1) as Hcl. rewrite Hh in Hcl.
      destruct (Hcl Hc1) as (e0 & H0 & _ & _ & _ & -> & -> & _). unfold s1 in H0. cbn in H0.
      apply moved_cases in H0 as [[-> ->]|[_ H0]]; [done|by apply Hbox in H0].
  - destruct (0 <? inbox e); [|done]. destruct (waiters e) as [|w ws]; injection Hstep as <-.
    + eapply Hlocal; [done|cbn; lia|done|]. unfold held. cbn. lia.
    + pose proof (Hmove c e (mkSock ws (unW e) (unC e) (unS e) (outbox e) (inbox e - 1) true) 0 1 0 (waiting s) He HuS Hfa
        ltac:(unfold held; cbn; lia) (fun H => H)) as Hm.
      cbv zeta in Hm. rewrite !Z.add_0_r in Hm. exact Hm.
  - destruct (Z.ltb_spec 0 (unS e)); [|done]. injection Hstep as <-.
    eapply Hlocal; [done|cbn; lia|eapply Hsnoc; [done|cbn; lia]|]. unfold held. cbn. rewrite total_app. cbn. lia.
  - injection Hstep as <-.
    pose proof (Hmove c e (mkSock [] 0 0 0 [] 0 false) 0 0 (inbox e + unS e + total carried (outbox e)) (remove_ c (waiting s)) He
      ltac:(done) ltac:(done) ltac:(unfold held; cbn; lia) (remove_nil c (waiting s))) as Hm.
    cbv zeta in Hm. rewrite !Z.add_0_r, !Z.add_assoc in Hm. exact Hm.
Qed.

Lemma sock_run_balance ls s s' :
  box_ok s -> served s -> balance s -> sock_run ls s = Some s' -> balance s' /\ served s'.
Proof.
  revert s. induction ls as [|l ls IH]; intros s H1 H2 H3; cbn; [by intros [= <-]|].
  destruct (sock_step l s) as [s1|] eqn:E; [|done]. destruct (sock_step_balance _ _ _ H1 H2 H3 E) as (? & ? & ?). by apply IH.
Qed.

Lemma start_client n c e : clients (sock_start n) !! c = Some e -> e = mkSock [] 0 0 0 [] 0 true.
Proof. cbn. intros H. by apply lookup_replicate in H as [-> _]. Qed.

Lemma sock_start_ok n : box_ok (sock_start n) /\ served (sock_start n) /\ balance (sock_start n).
Proof.
  split_and!; try done.
  - intros c e ->%start_client. done.
  - unfold balance. cbn [signalled tokens delivered lost]. rewrite total_zero; [done|]. intros c e ->%start_client. done.
Qed.

(** ** Waits without cancellation *)

(** The records of the waits of client [c]. *)
Definition is_w (m : cmsg) : Z := match m with CW => 1 | _ => 0 end.
Definition queued (c : nat) (l : list nat) : Z := total (fun x => if bool_decide (x = c) then 1 else 0) l.

(** Every wait has its [W] or its [T] on the way, or is queued. *)
Definition accounted (s : sockServer) : Prop :=
  forall c e, clients s !! c = Some e ->
    zlen (waiters e) = unW e + total is_w (outbox e) + queued c (waiting s) + inbox e /\ unC e = 0 /\ up e = true /\
    0 <= unW e /\ 0 <= inbox e /\ Forall (fun m => m <> CC) (outbox e).

Definition uncancelled (l : slabel) : bool :=
  match l with Cancel _ _ | SendC _ | Hangup _ => false | _ => true end.

Lemma queued_nonneg c l : 0 <= queued c l.
Proof. apply total_nonneg. intros x. case_bool_decide; lia. Qed.

Lemma is_w_nonneg l : 0 <= total is_w l.
Proof. apply total_nonneg. by intros []. Qed.

(** Handing a token over keeps the account of every client. *)
Lemma hand_out_accounted w t cs :
  (forall c e, cs !! c = Some e -> up e = true) ->
  let '(w', _, cs') := hand_out w t cs in
  forall c e', cs' !! c = Some e' -> exists e, cs !! c = Some e /\ queued c w' + inbox e' = queued c w + inbox e /\
    inbox e <= inbox e' /\ waiters e' = waiters e /\ unW e' = unW e /\ unC e' = unC e /\ outbox e' = outbox e /\ up e' = up e.
Proof.
  revert t cs. induction w as [|x w IH]; intros t cs Hup; cbn [hand_out]; destruct (0 <? t).
  1,2,4: intros c e' H; exists e'; split_and!; try done; lia.
  destruct (cs !! x) as [ex|] eqn:Hx.
  - rewrite (Hup x ex Hx). specialize (IH (t - 1) (<[x := push_token ex]> cs)).
    destruct (hand_out _ _ _) as [[w' t'] cs']. intros c e' H. destruct (IH) with (c := c) (e' := e') as (e & He & Hq & Hrest); [|done|].
    { intros c1 e1 H1. apply moved_cases in H1 as [[-> ->]|[_ H1]]; [exact (Hup x ex Hx)|by eapply Hup]. }
    unfold queued in *. cbn [total]. apply moved_cases in He as [[-> ->]|[Hne He]].
    + exists ex. rewrite bool_decide_true by done. cbn in *. split; [done|]. split; [lia|]. split; [lia|]. apply Hrest.
    + exists e. rewrite bool_decide_false by done. split; [done|]. split; [lia|done].
  - specialize (IH t cs Hup). destruct (hand_out w t cs) as [[w' t'] cs']. intros c e' H.
    destruct (IH c e' H) as (e & He & Hq & Hrest). exists e. unfold queued in *. cbn [total].
    rewrite bool_decide_false by (intros ->; congruence). split; [done|]. split; [lia|done].
Qed.

Lemma queued_snoc c l x : queued c (l ++ [x]) = queued c l + if bool_decide (x = c) then 1 else 0.
Proof. unfold queued. rewrite total_app. cbn. lia. Qed.

Lemma sock_step_accounted l s s' : accounted s -> uncancelled l = true -> sock_step l s = Some s' -> accounted s'.
Proof.
  intros Hacc Hun Hstep.
  assert (Hlocal : forall c e e' sg d, clients s !! c = Some e ->
    zlen (waiters e') - unW e' - total is_w (outbox e') - inbox e' = zlen (waiters e) - unW e - total is_w (outbox e) - inbox e ->
    unC e' = 0 -> up e' = true -> 0 <= unW e' -> 0 <= inbox e' -> Forall (fun m => m <> CC) (outbox e') ->
    accounted (mkServer (tokens s) (waiting s) (<[c := e']> (clients s)) sg d (lost s))).
  { intros c e e' sg d He Hq H1 H2 H3 H4 H5 c1 e1 Hc1. cbn [clients waiting] in Hc1 |- *. apply moved_cases in Hc1 as [[-> ->]|[_ Hc1]]; [|by apply Hacc].
    destruct (Hacc c e He) as [Ha _]. split; [lia|done]. }
  assert (Hsnoc : forall e m, Forall (fun m => m <> CC) (outbox e) -> m <> CC -> Forall (fun m => m <> CC) (outbox e ++ [m])).
  { intros e m Hf Hm. apply Forall_app. split; [done|by constructor]. }
  unfold sock_step in Hstep. destruct l as [c w|c|c w|c|c n|c|c|c|c]; try done;
    (destruct (clients s !! c) as [e|] eqn:He; [|done]); (destruct (up e) eqn:Hup; [|done]);
    destruct (Hacc c e He) as (Ha & HuC & _ & HuW & Hin & Hcc).
  - injection Hstep as <-. eapply Hlocal; try done; cbn; [rewrite zlen_app, zlen_cons, zlen_nil; lia|lia].
  - destruct (Z.ltb_spec 0 (unW e)); [|done]. injection Hstep as <-. eapply Hlocal; try done; cbn; [rewrite total_app; cbn; lia|lia|].
    by apply Hsnoc.
  - destruct (_ && _); [|done]. injection Hstep as <-. eapply Hlocal; try done; cbn; [rewrite total_app; cbn; lia|]. by apply Hsnoc.
  - destruct (outbox e) as [|m out] eqn:Hout; [done|]. injection Hstep as <-. apply list.Forall_cons in Hcc as [Hm Hcc].
    set (e1 := mkSock _ _ _ _ _ _ _). unfold handle. cbn [waiting tokens clients set_client signalled delivered lost].
    pose proof (hand_out_accounted (match m with CW => waiting s ++ [c] | CC => remove_ c (waiting s) | CS _ => waiting s end)
      (match m with CS n => tokens s + n | _ => tokens s end) (<[c := e1]> (clients s))) as Hh.
    destruct (hand_out _ _ _) as [[w' t'] cs']. intros c2 e2 H2. cbn [clients waiting] in H2 |- *.
    destruct Hh with (c := c2) (e' := e2) as (e3 & H3 & Hq & Hle & -> & -> & -> & -> & ->); [|done|].
    { intros c4 e4 H4. apply moved_cases in H4 as [[-> ->]|[_ H4]]; [done|]. by apply Hacc in H4 as (_ & _ & ? & _). }
    apply moved_cases in H3 as [[-> ->]|[Hne H3]].
    + unfold e1 in *. cbn [waiters unW unC outbox inbox up] in *. cbn [total] in Ha.
      destruct m; [|done|]; rewrite ?queued_snoc in Hq; cbn [is_w] in Ha;
        rewrite ?bool_decide_true in Hq by done; split_and!; try done; lia.
    + destruct (Hacc c2 e3 H3) as (Ha3 & ? & ? & ? & ? & ?).
      destruct m; [|done|]; rewrite ?queued_snoc in Hq;
        rewrite ?bool_decide_false in Hq by done; split_and!; try done; lia.
  - destruct (Z.ltb_spec 0 (inbox e)); [|done]. destruct (waiters e) as [|w ws] eqn:Hw; injection Hstep as <-.
    + exfalso. rewrite zlen_nil in Ha. pose proof (queued_nonneg c (waiting s)). pose proof (is_w_nonneg (outbox e)). lia.
    + eapply Hlocal; try done; cbn; [rewrite Hw, zlen_cons; lia|lia].
  - destruct (0 <? unS e); [|done]. injection Hstep as <-. eapply Hlocal; try done; cbn; [rewrite total_app; cbn; lia|]. by apply Hsnoc.
Qed.

Lemma sock_run_accounted ls s s' :
  accounted s -> Forall (fun l => uncancelled l = true) ls -> sock_run ls s = Some s' -> accounted s'.
Proof.
  revert s. induction ls as [|l ls IH]; intros s Hs Hall; cbn; [by intros [= <-]|].
  apply list.Forall_cons in Hall as [Hl Hall]. destruct (sock_step l s) as [s1|] eqn:E; [|done].
  apply IH; [|done]. by eapply sock_step_accounted.
Qed.

(** ** Theorems *)

(** Nothing is on its way between the server and its clients. *)
Definition settled_socks (s : sockServer) : Prop :=
  forall c e, clients s !! c = Some e -> unW e = 0 /\ unC e = 0 /\ unS e = 0 /\ outbox e = [] /\ inbox e = 0.

(** C30: tokens are neither lost nor invented. Every token that was signalled is at the
    server, on its way, was handed to a wait, or went with a connection that broke; and
    the server keeps a token only when no wait is queued. *)
Theorem sock_tokens_conserved (n : nat) (ls : list slabel) (s : sockServer) :
  sock_run ls (sock_start n) = Some s ->
  signalled s = tokens s + total held (clients s) + delivered s + lost s /\ (0 < tokens s -> waiting s = []).
Proof.
  intros Hr. destruct (sock_start_ok n) as (H1 & H2 & H3). destruct (sock_run_balance _ _ _ H1 H2 H3 Hr) as [Hb [_ Hs]].
  by split.
Qed.

(** while no wait is cancelled and no connection breaks, no wake-up is lost: when
    nothing is on its way and some client waits, the server has no token left. *)
Theorem sock_waits_served (n : nat) (ls : list slabel) (s : sockServer) (c : nat) (e : sockEvent) :
  sock_run ls (sock_start n) = Some s -> Forall (fun l => uncancelled l = true) ls -> settled_socks s ->
  clients s !! c = Some e -> waiters e <> [] -> tokens s = 0.
Proof.
  intros Hr Hun Hset He Hw. destruct (sock_start_ok n) as (H1 & H2 & H3).
  destruct (sock_run_balance _ _ _ H1 H2 H3 Hr) as [_ [Ht Hs]].
  assert (Hstart : accounted (sock_start n)) by (intros c0 e0 ->%start_client; cbn; split_and!; done).
  destruct (sock_run_accounted _ _ _ Hstart Hun Hr c e He) as [Ha _]. destruct (Hset c e He) as (E1 & _ & _ & E2 & E3).
  rewrite E1, E2, E3 in Ha. cbn [total] in Ha. destruct (Z.eq_dec (tokens s) 0) as [|Hne]; [done|].
  rewrite (Hs ltac:(lia)) in Ha. destruct (waiters e); [done|]. rewrite zlen_cons in Ha. pose proof (zlen_nonneg l).
  cbn in Ha. lia.
Qed.

(** Wait 1 is cancelled while its token is on its way; wait 2 sends its [W] before the
    [C] of wait 1 and before the token is given back. *)
Definition stranded_wait : list slabel :=
  [Wait_ 0 1; SendW 0; Serve 0; Signal_ 0 1; Serve 0; Cancel 0 1; ReadT 0; Wait_ 0 2; SendW 0; SendC 0; GiveBack 0;
   Serve 0; Serve 0; Serve 0].

(** the [C] of a cancelled wait can drop the [W] of another wait of the same process:
    that wait then sleeps for ever, although the server has a token and nothing is on its
    way. *)
Theorem sock_wait_stranded :
  exists s e, sock_run stranded_wait (sock_start 1) = Some s /\ clients s !! 0%nat = Some e /\ waiters e = [2%nat] /\
    settled_socks s /\ tokens s = 1 /\ waiting s = [].
Proof.
  do 2 eexists. split; [vm_compute; reflexivity|]. split; [reflexivity|]. split; [reflexivity|]. split; [|done].
  intros [|[|c]] e H; [|done|done]. by injection H as <-.
Qed.

(** ** Witnesses *)

(** A wait of client 1 that gets its token, and one that waits. *)
Definition sock_demo : list slabel :=
  [Wait_ 1 1; SendW 1; Wait_ 1 2; SendW 1; Serve 1; Serve 1; Signal_ 0 1; Serve 0; ReadT 1].
Definition sock_demo_end : sockServer := default (sock_start 0) (sock_run sock_demo (sock_start 2)).

Lemma sock_demo_run : sock_run sock_demo (sock_start 2) = Some sock_demo_end.
Proof. vm_compute. reflexivity. Qed.

Lemma sock_tokens_conserved_witness :
  signalled sock_demo_end = tokens sock_demo_end + total held (clients sock_demo_end) + delivered sock_demo_end + lost sock_demo_end.
Proof. apply (sock_tokens_conserved 2 sock_demo sock_demo_end sock_demo_run). Defined.

Lemma sock_waits_served_witness : tokens sock_demo_end = 0.
Proof.
  apply (sock_waits_served 2 sock_demo sock_demo_end 1 (mkSock [2%nat] 0 0 0 [] 0 true) sock_demo_run);
    [repeat constructor| |vm_compute; reflexivity|done].
  intros [|[|[|c]]] e H; vm_compute in H; try done; by injection H as <-.
Defined.
