(* ===== verification/SockServer.v ===== *)
(** * Making and shutting down a socket event ([src/event_sock.go])

    The creator of a socket event listens, accepts a connection for each handle on the
    event and runs a goroutine for it; when it closes, every other process has to learn of
    it from its connection. This file has [createSockEvent], [openSockEvent], [serve],
    [client], [drop], [shutdown] and [close], interleaved one system call or critical
    section at a time. What the messages on the connections do is in SockEvent. *)

From Stdlib Require Import Lia Bool.
From stdpp Require Import base numbers list list_numbers option.
From S2P Require Import Prelude.

(** ** The state *)

(** The goroutine of [serve]: not started; in [Accept]; with a connection, before the
    lock; about to close a connection that came too late; with a client in the table,
    before its goroutine; returned. *)
Inductive svpc : Type := SvNone | SvAccept | SvGot (c : nat) | SvRefuse (c : nat) | SvSpawn (c : nat) | SvEnd.

(** The goroutine of a client: none; reading; after a read that failed, before [drop];
    before the deferred [Close]; returned. *)
Inductive gopc : Type := GoNone | GoRead | GoDrop | GoClose | GoDone.

(** The creator: before and after the first [Remove]; listening, before its own dial; with
    its event; in [shutdown], before [ln.Close], before the lock and before the last
    [Remove], for a [close] or for a create that failed; returned; a create that made
    nothing. *)
Inductive ownpc : Type :=
  | OIdle | ORemoved | OListen | OReady (c : nat)
  | OShut (made : bool) | OHang (made : bool) | OUnlink (made : bool) | OGone (made : bool) | OFailed.

#[global] Instance svpc_eq_dec : EqDecision svpc.
Proof. solve_decision. Defined.
#[global] Instance gopc_eq_dec : EqDecision gopc.
Proof. solve_decision. Defined.

(** A connection: whether it waits for [Accept], whether the creator's end is closed, and
    its goroutine. *)
Record sconn : Type := mkSconn { backlog : bool; hung : bool; goer : gopc }.

(** The listener, the file of the socket, the fields of [sockServer], the goroutines and
    the connections. [sv_clients] is [None] for a nil map, and [sv_panic] is set by a
    write to one. *)
Record sockServer : Type := mkServer {
  sv_listening : bool; sv_path : bool; sv_closed : bool; sv_clients : option (list nat);
  sv_serve : svpc; sv_conns : list sconn; sv_owner : ownpc; sv_panic : bool }.

Definition set_serve (p : svpc) (s : sockServer) : sockServer :=
  mkServer (sv_listening s) (sv_path s) (sv_closed s) (sv_clients s) p (sv_conns s) (sv_owner s) (sv_panic s).
Definition set_owner (o : ownpc) (s : sockServer) : sockServer :=
  mkServer (sv_listening s) (sv_path s) (sv_closed s) (sv_clients s) (sv_serve s) (sv_conns s) o (sv_panic s).
Definition set_clients (l : option (list nat)) (s : sockServer) : sockServer :=
  mkServer (sv_listening s) (sv_path s) (sv_closed s) l (sv_serve s) (sv_conns s) (sv_owner s) (sv_panic s).
Definition set_conns (l : list sconn) (s : sockServer) : sockServer :=
  mkServer (sv_listening s) (sv_path s) (sv_closed s) (sv_clients s) (sv_serve s) l (sv_owner s) (sv_panic s).
Definition set_path (listening path : bool) (s : sockServer) : sockServer :=
  mkServer listening path (sv_closed s) (sv_clients s) (sv_serve s) (sv_conns s) (sv_owner s) (sv_panic s).

Definition hang (k : sconn) : sconn := mkSconn (backlog k) true (goer k).
Definition set_goer (g : gopc) (k : sconn) : sconn := mkSconn (backlog k) (hung k) g.
Definition accepted (k : sconn) : sconn := mkSconn false (hung k) (goer k).
Definition on_conn (c : nat) (f : sconn -> sconn) (s : sockServer) : sockServer := set_conns (alter f c (sv_conns s)) s.

(** ** The steps *)

(** A dial that works adds a connection to the backlog. *)
Definition dialed (s : sockServer) : sockServer := set_conns (sv_conns s ++ [mkSconn true false GoNone]) s.

(** The loop of [serve]. [Accept] returns the connection [c], or fails if [ok] is false. *)
Definition serve_step (c : nat) (ok : bool) (s : sockServer) : option sockServer :=
  match sv_serve s with
  | SvAccept =>
      if ok then
        match sv_conns s !! c with
        | Some k => if sv_listening s && backlog k then Some (set_serve (SvGot c) (on_conn c accepted s)) else None
        | None => None
        end
      else Some (set_serve SvEnd s)
  | SvGot c =>
      if sv_closed s then Some (set_serve (SvRefuse c) s)
      else match sv_clients s with
           | Some l => Some (set_serve (SvSpawn c) (set_clients (Some (c :: l)) s))
           | None => Some (mkServer (sv_listening s) (sv_path s) (sv_closed s) None (sv_serve s) (sv_conns s) (sv_owner s) true)
           end
  | SvRefuse c => Some (set_serve SvAccept (on_conn c hang s))
  | SvSpawn c => Some (set_serve SvAccept (on_conn c (set_goer GoRead) s))
  | SvNone | SvEnd => None
  end.

(** What the reads of a client's goroutine return: a whole message, a failure before a
    message, or an S whose number does not arrive. *)
Inductive sread : Type := RMsg | RFail | RShort.

Definition drop (c : nat) (s : sockServer) : sockServer :=
  set_clients (filter (fun d => d <> c) <$> sv_clients s) s.

(** The goroutine of a client. Its end may be closed by the peer at any time; a read on a
    connection that the creator closed fails. *)
Definition client_step (c : nat) (r : sread) (s : sockServer) : option sockServer :=
  match sv_conns s !! c with
  | None => None
  | Some k =>
      match goer k with
      | GoRead =>
          match r with
          | RMsg => if hung k then None else Some s
          | RFail => Some (on_conn c (set_goer GoDrop) s)
          | RShort => Some (on_conn c (set_goer GoClose) s)
          end
      | GoDrop => Some (on_conn c (set_goer GoClose) (drop c s))
      | GoClose => Some (on_conn c (fun k => set_goer GoDone (hang k)) s)
      | GoNone | GoDone => None
      end
  end.

(** The critical section of [shutdown]. *)
Definition hang_up (s : sockServer) : sockServer :=
  let l := default [] (sv_clients s) in
  mkServer (sv_listening s) (sv_path s) true None (sv_serve s)
    (imap (fun c k => if bool_decide (c ∈ l) then hang k else k) (sv_conns s)) (sv_owner s) (sv_panic s).

(** [ln.Close] removes the file and resets what waits for [Accept]. *)
Definition close_listener (s : sockServer) : sockServer :=
  set_path false false (set_conns ((fun k => if backlog k then mkSconn false true (goer k) else k) <$> sv_conns s) s).

(** A dial of its own socket that fails leads to [shutdown]. *)
Definition createSockEvent (ok : bool) (s : sockServer) : option sockServer :=
  match sv_owner s with
  | OIdle => Some (set_owner ORemoved (set_path false (if ok then false else sv_path s) s))
  | ORemoved =>
      if ok && negb (sv_path s) then Some (set_owner OListen (set_serve SvAccept (set_clients (Some []) (set_path true true s))))
      else Some (set_owner OFailed s)
  | OListen =>
      if ok then Some (set_owner (OReady (List.length (sv_conns s))) (dialed s)) else Some (set_owner (OShut false) s)
  | _ => None
  end.

Definition shutdown (s : sockServer) : option sockServer :=
  match sv_owner s with
  | OShut made => Some (set_owner (OHang made) (close_listener s))
  | OHang made => Some (set_owner (OUnlink made) (hang_up s))
  | _ => None
  end.

(** [close] of the event, and the [Remove] after [shutdown] in it and in a create that failed. *)
Definition close_sock (s : sockServer) : option sockServer :=
  match sv_owner s with
  | OReady _ => Some (set_owner (OShut true) s)
  | OUnlink made => Some (set_owner (OGone made) (set_path (sv_listening s) false s))
  | _ => None
  end.

Definition owner_step (ok : bool) (s : sockServer) : option sockServer :=
  match sv_owner s with
  | OIdle | ORemoved | OListen => createSockEvent ok s
  | OShut _ | OHang _ => shutdown s
  | OReady _ | OUnlink _ | OGone _ | OFailed => close_sock s
  end.

Inductive opened : Type := OpMissing | OpStarted (c : nat) | OpLost | OpError.

(** [seen] is what [Lstat] found, now or before; [other] is a dial that fails for a reason
    of its own. *)
Definition openSockEvent (seen other : bool) (s : sockServer) : opened * sockServer :=
  if negb seen then (OpMissing, s)
  else if other then (OpError, s)
  else if sv_listening s && sv_path s then (OpStarted (List.length (sv_conns s)), dialed s)
  else (OpLost, s).

Inductive vlabel : Type := VOwner (ok : bool) | VServe (c : nat) (ok : bool) | VClient (c : nat) (r : sread) | VOpen (seen other : bool).

Definition server_step (l : vlabel) (s : sockServer) : option sockServer :=
  match l with
  | VOwner ok => owner_step ok s
  | VServe c ok => serve_step c ok s
  | VClient c r => client_step c r s
  | VOpen seen other => Some (snd (openSockEvent seen other s))
  end.

Fixpoint server_run (ls : list vlabel) (s : sockServer) : option sockServer :=
  match ls with
  | [] => Some s
  | l :: ls => match server_step l s with Some s => server_run ls s | None => None end
  end.

(** Before [createSockEvent]; [stale] is a file that an earlier creator left. *)
Definition server_start (stale : bool) : sockServer := mkServer false stale false None SvNone [] OIdle false.

(** ** The invariant *)

Definition in_table (c : nat) (s : sockServer) : Prop := exists l, sv_clients s = Some l /\ c ∈ l.

(** Who closes a connection that is still open. *)
Definition kept (c : nat) (k : sconn) (s : sockServer) : Prop :=
  hung k = true \/ backlog k = true /\ sv_listening s = true \/ sv_serve s = SvGot c \/ sv_serve s = SvRefuse c \/
  (sv_serve s = SvSpawn c \/ goer k = GoRead \/ goer k = GoDrop) /\ in_table c s \/ goer k = GoClose.

Definition conn_ok (c : nat) (k : sconn) (s : sockServer) : Prop := kept c k s /\ (backlog k = true -> goer k = GoNone).

Definition phase_ok (s : sockServer) : Prop :=
  match sv_owner s with
  | OIdle | ORemoved | OFailed => sv_serve s = SvNone /\ sv_conns s = [] /\ sv_listening s = false /\ sv_closed s = false
  | OListen | OReady _ | OShut _ => sv_serve s <> SvNone /\ sv_closed s = false /\ sv_listening s = true
  | OHang _ => sv_serve s <> SvNone /\ sv_closed s = false /\ sv_listening s = false /\ sv_path s = false
  | OUnlink _ | OGone _ => sv_serve s <> SvNone /\ sv_closed s = true /\ sv_listening s = false /\ sv_path s = false
  end.

(** The connection that [serve] has. *)
Definition holds (p : svpc) : option nat := match p with SvGot c | SvRefuse c | SvSpawn c => Some c | _ => None end.

Record server_ok (s : sockServer) : Prop := {
  so_phase : phase_ok s;
  so_table : sv_closed s = false -> sv_serve s <> SvNone -> is_Some (sv_clients s);
  so_nil : sv_closed s = true -> sv_clients s = None;
  so_serve : forall c, holds (sv_serve s) = Some c -> exists k, sv_conns s !! c = Some k /\ goer k = GoNone /\ backlog k = false;
  so_conn : forall c k, sv_conns s !! c = Some k -> conn_ok c k s;
  so_panic : sv_panic s = false }.

Lemma alter_cases {A} (f : A -> A) (i j : nat) (l : list A) (x : A) :
  alter f i l !! j = Some x -> exists y, l !! j = Some y /\ (j = i /\ x = f y \/ j <> i /\ x = y).
Proof.
  destruct (decide (j = i)) as [->|Hne]; [rewrite list_lookup_alter_eq|rewrite list_lookup_alter_ne by done; eauto].
  intros (y & Hy & ->)%fmap_Some. eauto.
Qed.

(** The creator does not move, and who keeps a connection stays or is known. *)
Ltac clear_laws := repeat match goal with H : forall _, _ |- _ => clear H end.
Ltac same_phase :=
  clear_laws; unfold phase_ok in *; cbn; match goal with s : sockServer |- _ => destruct (sv_owner s); intuition congruence end.
Ltac keeper :=
  match goal with
  | H : kept _ _ ?s |- _ =>
      unfold kept, in_table in *; cbn; try match goal with E : sv_serve s = _ |- _ => rewrite E in H end; clear_laws;
      destruct H as [?|[[? ?]|[?|[?|[[[?|[?|?]] ?]|?]]]]]; simplify_eq; auto 10; try congruence
  end.
Ltac still_kept := split; [keeper|done].

Lemma serve_step_ok c ok s s' : server_ok s -> serve_step c ok s = Some s' -> server_ok s'.
Proof.
  intros [P T N V C Q]. unfold serve_step. destruct (sv_serve s) as [| |d|d|d|] eqn:Hs; try done.
  - destruct ok.
    + destruct (sv_conns s !! c) as [k|] eqn:Hc; [|done]. destruct (sv_listening s) eqn:Hl; [|done]. destruct (backlog k) eqn:Hb; [|done].
      intros [= <-]. split; cbn; try done.
      * same_phase.
      * intros ? _. apply T; congruence.
      * intros d [= <-]. exists (accepted k). rewrite list_lookup_alter_eq, Hc. destruct (C c k Hc) as [_ H]. by split_and!; auto.
      * intros d k' Hd. apply alter_cases in Hd as (k0 & Hk0 & [[-> ->]|[Hne ->]]).
        -- split; [right; right; by left|done].
        -- destruct (C d k0 Hk0) as [H1 H2]. still_kept.
    + intros [= <-]. split; cbn; try done.
      * same_phase.
      * intros ? _. apply T; congruence.
      * intros d k Hd. destruct (C d k Hd) as [H1 H2]. still_kept.
  - destruct (sv_closed s) eqn:Hcl.
    + intros [= <-]. split; cbn; try done.
      * same_phase.
      * by rewrite Hcl.
      * intros _. by apply N.
      * intros d' k Hd. destruct (C d' k Hd) as [H1 H2]. still_kept.
    + destruct (T eq_refl ltac:(congruence)) as [l Hl]. rewrite Hl. intros [= <-]. split; cbn; try done.
      * same_phase.
      * congruence.
      * intros d' k Hd. destruct (C d' k Hd) as [H1 H2]. split; [|done]. unfold kept, in_table in *. cbn. rewrite Hs, Hl in H1.
        assert (Hin : forall x, (exists l0, Some l = Some l0 /\ x ∈ l0) \/ x = d -> exists l0, Some (d :: l) = Some l0 /\ x ∈ l0).
        { intros x [(l0 & [= <-] & Hx)| ->]; exists (d :: l); (split; [done|]); [by apply list_elem_of_further|by apply list_elem_of_here]. }
        clear C V T. destruct H1 as [?|[[? ?]|[[= ->]|[?|[[[?|[?|?]] ?]|?]]]]]; try done; auto 10.
  - intros [= <-]. split; cbn; try done.
    + same_phase.
    + intros ? _. apply T; congruence.
    + intros d' k Hd. apply alter_cases in Hd as (k0 & Hk0 & [[-> ->]|[Hne ->]]); destruct (C _ k0 Hk0) as [H1 H2].
      * split; [by left|done].
      * still_kept.
  - intros [= <-]. destruct (V d eq_refl) as (kd & Hkd & Hg & Hb). split; cbn; try done.
    + same_phase.
    + intros ? _. apply T; congruence.
    + intros d' k Hd. apply alter_cases in Hd as (k0 & Hk0 & [[-> ->]|[Hne ->]]); destruct (C _ k0 Hk0) as [H1 H2].
      * simplify_eq. split; [keeper|cbn; congruence].
      * still_kept.
Qed.

Lemma client_step_ok c r s s' : server_ok s -> client_step c r s = Some s' -> server_ok s'.
Proof.
  intros [P T N V C Q]. unfold client_step. destruct (sv_conns s !! c) as [k|] eqn:Hc; [|done].
  destruct (C c k Hc) as [Hk Hb].
  assert (Hmove : forall f cl, (sv_clients s = None -> cl = None) -> (is_Some (sv_clients s) -> is_Some cl) -> goer k <> GoNone ->
    (forall k, backlog (f k) = backlog k) -> (kept c k s -> kept c (f k) (set_clients cl s)) ->
    (forall d, d <> c -> in_table d s -> in_table d (set_clients cl s)) ->
    server_ok (on_conn c f (set_clients cl s))).
  { intros f cl H1 H2 H3 H4 H5 H6. split; cbn; try done.
    - clear -P Hc. unfold phase_ok in *. cbn. destruct (sv_owner s); try done; destruct P as (_ & E & _); by rewrite E in Hc.
    - auto.
    - auto.
    - intros d Hd. destruct (V d Hd) as (kd & Hkd & Hg & Hbd). exists kd. rewrite list_lookup_alter_ne; [done|]. intros ->. by simplify_eq.
    - intros d k' Hd. apply alter_cases in Hd as (k0 & Hk0 & [[-> ->]|[Hne ->]]).
      + simplify_eq. split; [by apply H5|]. rewrite H4. intros Hbl. by apply Hb in Hbl.
      + destruct (C d k0 Hk0) as [Hd Hd']. split; [|done]. specialize (H6 d Hne). clear -Hd H6. unfold kept in *. cbn in *. intuition. }
  assert (Hsame : forall f, server_ok (on_conn c f (set_clients (sv_clients s) s)) -> server_ok (on_conn c f s)) by (by destruct s).
  destruct (goer k) eqn:Hg; try done.
  - destruct r; [destruct (hung k); [done|]; by intros [= <-]| |]; intros [= <-]; apply Hsame, Hmove; auto; try done; intros H; clear -H Hg; keeper.
  - intros [= <-]. apply Hmove; try done.
    + by intros ->.
    + intros [l ->]. by eexists.
    + intros _. unfold kept. cbn. auto 10.
    + intros d Hne (l & Hl & Hin). exists (filter (fun d => d <> c) l). unfold set_clients. cbn. rewrite Hl. split; [done|]. by apply list_elem_of_filter.
  - intros [= <-]. apply Hsame, Hmove; auto; try done. intros _. by left.
Qed.

(** A new connection waits for [Accept]. *)
Lemma dialed_ok s : server_ok s -> sv_serve s <> SvNone -> sv_listening s = true -> server_ok (dialed s).
Proof.
  intros [P T N V C Q] Hs Hl. split; cbn; try done.
  - same_phase.
  - intros c Hc. destruct (V c Hc) as (k & Hk & H). exists k. split; [by apply lookup_app_l_Some|done].
  - intros c k [Hk|[_ Hk]]%lookup_app_Some.
    + destruct (C c k Hk) as [H1 H2]. split; [|done]. clear -H1. unfold kept, in_table in *. done.
    + apply list_lookup_singleton_Some in Hk as [_ <-]. split; [right; left; done|done].
Qed.

(** The connections after a step of [shutdown], with the goroutines as they were. *)
Lemma conns_ok s s' f :
  (forall c k, sv_conns s !! c = Some k -> conn_ok c k s) ->
  (forall c k, goer (f c k) = goer k /\ (backlog (f c k) = true -> backlog k = true)) ->
  (forall c k, sv_conns s !! c = Some k -> kept c k s -> kept c (f c k) s') -> sv_conns s' = imap f (sv_conns s) ->
  forall c k, sv_conns s' !! c = Some k -> conn_ok c k s'.
Proof.
  intros C Hf Hk He c k. rewrite He, list_lookup_imap. intros (k0 & Hk0 & ->)%fmap_Some. destruct (C c k0 Hk0) as [H1 H2].
  destruct (Hf c k0) as [H3 H4]. split; [by apply Hk|]. rewrite H3. auto.
Qed.

Lemma serve_conn s f c :
  (forall c k, goer (f c k) = goer k /\ (backlog (f c k) = true -> backlog k = true)) ->
  (exists k, sv_conns s !! c = Some k /\ goer k = GoNone /\ backlog k = false) ->
  exists k, imap f (sv_conns s) !! c = Some k /\ goer k = GoNone /\ backlog k = false.
Proof.
  intros Hf (k & Hk & Hg & Hb). exists (f c k). rewrite list_lookup_imap, Hk. destruct (Hf c k) as [H1 H2]. split_and!; [done|congruence|].
  destruct (backlog (f c k)); [by rewrite H2 in Hb|done].
Qed.

Lemma close_listener_ok s made :
  server_ok s -> sv_owner s = OShut made -> server_ok (set_owner (OHang made) (close_listener s)).
Proof.
  intros [P T N V C Q] Ho. set (f := fun (_ : nat) k => if backlog k then mkSconn false true (goer k) else k).
  assert (Hc : sv_conns (set_owner (OHang made) (close_listener s)) = imap f (sv_conns s)).
  { cbn. clear. symmetry. generalize (sv_conns s). intros l. induction l as [|k l IH]; [done|]. cbn. f_equal. by rewrite <-IH. }
  assert (Hf : forall c k, goer (f c k) = goer k /\ (backlog (f c k) = true -> backlog k = true)).
  { intros c k. unfold f. destruct (backlog k) eqn:E; cbn; rewrite ?E; auto. }
  split; try done.
  - unfold phase_ok in *. cbn. rewrite Ho in P. tauto.
  - intros c Hh. rewrite Hc. apply serve_conn; [done|]. by apply V.
  - apply (conns_ok s _ f); try done. intros c k _ Hk. unfold f. destruct (backlog k) eqn:E; [by left|]. clear -E Hk. unfold kept, in_table in *. cbn.
    destruct Hk as [?|[[? ?]|?]]; [auto|congruence|auto 10].
Qed.

Lemma hang_up_ok s made : server_ok s -> sv_owner s = OHang made -> server_ok (set_owner (OUnlink made) (hang_up s)).
Proof.
  intros [P T N V C Q] Ho. unfold phase_ok in P. rewrite Ho in P. destruct P as (Hs & Hcl & Hl & Hp). destruct (T Hcl Hs) as [l Ht].
  assert (Hf : forall (c : nat) k, let f := fun c k => if bool_decide (c ∈ l) then hang k else k in
    goer (f c k) = goer k /\ (backlog (f c k) = true -> backlog k = true)) by (intros c k; cbn; by case_bool_decide).
  split; try done.
  - cbn. rewrite Ht. intros c Hh. apply serve_conn; [done|]. by apply V.
  - apply (conns_ok s _ (fun c k => if bool_decide (c ∈ l) then hang k else k)); try done; [|cbn; by rewrite Ht].
    intros c k _ Hk. case_bool_decide as Hin; [by left|]. unfold kept, in_table in *. cbn.
    destruct Hk as [?|[[_ ?]|[?|[?|[[_ (l' & ? & ?)]|?]]]]]; [auto|congruence|auto|auto| |auto 10]. rewrite Ht in *. by simplify_eq.
Qed.

Lemma owner_step_ok ok s s' : server_ok s -> owner_step ok s = Some s' -> server_ok s'.
Proof.
  intros Hok. pose proof Hok as [P T N V C Q]. unfold owner_step, createSockEvent, shutdown, close_sock.
  destruct (sv_owner s) eqn:Ho; try done.
  - intros [= <-]. split; cbn; try done; [same_phase|]. unfold phase_ok in P. rewrite Ho in P. destruct P as (_ & -> & _). done.
  - unfold phase_ok in P. rewrite Ho in P. destruct P as (Hs & Hc & Hl & Hcl).
    destruct (ok && _); intros [= <-]; split; cbn; rewrite ?Hs, ?Hc, ?Hcl; try done; by eexists.
  - destruct ok; intros [= <-].
    + unfold phase_ok in P. rewrite Ho in P. destruct P as (Hs & Hcl & Hl). destruct (dialed_ok s Hok Hs Hl) as [P' T' N' V' C' Q'].
      split; cbn; try done.
    + split; cbn; try done. same_phase.
  - intros [= <-]. split; cbn; try done. same_phase.
  - intros [= <-]. by apply close_listener_ok.
  - intros [= <-]. by apply hang_up_ok.
  - intros [= <-]. split; cbn; try done. same_phase.
Qed.

Lemma server_step_ok l s s' : server_ok s -> server_step l s = Some s' -> server_ok s'.
Proof.
  intros Hok. destruct l as [ok|c ok|c r|seen other]; cbn.
  - by apply owner_step_ok.
  - by apply serve_step_ok.
  - by apply client_step_ok.
  - unfold openSockEvent. destruct (negb seen); [by intros [= <-]|]. destruct other; [by intros [= <-]|].
    destruct (sv_listening s) eqn:Hl; [|by intros [= <-]]. destruct (sv_path s); intros [= <-]; [|done]. apply dialed_ok; try done.
    pose proof (so_phase _ Hok) as P. unfold phase_ok in P. destruct (sv_owner s); intuition congruence.
Qed.

Lemma server_run_ok ls s s' : server_ok s -> server_run ls s = Some s' -> server_ok s'.
Proof.
  revert s. induction ls as [|l ls IH]; intros s Hok; cbn; [by intros [= <-]|].
  destruct (server_step l s) as [s1|] eqn:E; [|done]. apply IH. by eapply server_step_ok.
Qed.

Lemma server_start_ok stale : server_ok (server_start stale).
Proof. split; done. Qed.

(** ** What is left to do after a shutdown *)

Definition go_work (k : sconn) : Z := match goer k with GoRead => 3 | GoDrop => 2 | GoClose => 1 | GoNone | GoDone => 0 end.
Definition serve_work (p : svpc) : Z :=
  match p with SvSpawn _ => 5 | SvGot _ => 3 | SvRefuse _ => 2 | SvAccept => 1 | SvNone | SvEnd => 0 end.
Definition work (s : sockServer) : Z := serve_work (sv_serve s) + total go_work (sv_conns s).

(** The steps of the creator's goroutines. *)
Definition serving (l : vlabel) : bool := match l with VServe _ _ | VClient _ _ => true | VOwner _ | VOpen _ _ => false end.

Lemma total_alter f (l : list sconn) c k g : l !! c = Some k -> total f (alter g c l) = total f l - f k + f (g k).
Proof.
  intros Hc. rewrite <-(total_insert f l c k (g k) Hc). f_equal. apply list_eq. intros i. destruct (decide (i = c)) as [->|Hne].
  - rewrite list_lookup_alter_eq, Hc. symmetry. by eapply moved_here.
  - by rewrite list_lookup_alter_ne, list_lookup_insert_ne.
Qed.

Lemma go_work_nonneg k : 0 <= go_work k.
Proof. unfold go_work. destruct (goer k); lia. Qed.

(** After the shutdown the connections that are open are in the hands of a goroutine that
    closes them. *)
Lemma closed_kept s c k :
  server_ok s -> sv_closed s = true -> sv_listening s = false -> sv_conns s !! c = Some k ->
  hung k = true \/ sv_serve s = SvGot c \/ sv_serve s = SvRefuse c \/ goer k = GoClose.
Proof.
  intros [P T N V C Q] Hcl Hl Hc. destruct (C c k Hc) as [[?|[[_ ?]|[?|[?|[[_ (l & Ht & _)]|?]]]]] _]; auto; [congruence|].
  by rewrite (N Hcl) in Ht.
Qed.

Lemma serving_works l s s' :
  server_ok s -> sv_closed s = true -> sv_listening s = false -> serving l = true -> server_step l s = Some s' -> work s' < work s.
Proof.
  intros Hok Hcl Hl Hs. pose proof Hok as [P T N V C Q]. destruct l as [|c ok|c r|]; try done; cbn.
  - unfold serve_step, work. destruct (sv_serve s) as [| |d|d|d|] eqn:Hp; try done; rewrite ?Hl, ?Hcl.
    + destruct ok; [destruct (sv_conns s !! c); done|]. intros [= <-]. cbn. lia.
    + intros [= <-]. cbn. lia.
    + intros [= <-]. destruct (V d eq_refl) as (k & Hk & _). cbn. rewrite (total_alter _ _ _ _ _ Hk). change (go_work (hang k)) with (go_work k). lia.
    + intros [= <-]. destruct (V d eq_refl) as (k & Hk & _). cbn. rewrite (total_alter _ _ _ _ _ Hk). cbn. pose proof (go_work_nonneg k). lia.
  - unfold client_step, work. destruct (sv_conns s !! c) as [k|] eqn:Hc; [|done]. destruct (goer k) eqn:Hg; try done.
    + destruct r; [|intros [= <-]; cbn; rewrite (total_alter _ _ _ _ _ Hc); unfold go_work at 2; rewrite Hg; cbn; lia..].
      destruct (closed_kept s c k Hok Hcl Hl Hc) as [->|[Hp|[Hp|?]]]; [done| | |congruence];
        (destruct (V c) as (k' & ? & ? & _); [by rewrite Hp|]); congruence.
    + intros [= <-]. cbn. rewrite (total_alter _ _ _ _ _ Hc). unfold go_work at 2. rewrite Hg. cbn. lia.
    + intros [= <-]. cbn. rewrite (total_alter _ _ _ _ _ Hc). unfold go_work at 2. rewrite Hg. cbn. lia.
Qed.

(** Work that is left can be done now. *)
Lemma work_enabled s : server_ok s -> work s <> 0 -> exists l s', serving l = true /\ server_step l s = Some s'.
Proof.
  intros [P T N V C Q] Hw. destruct (decide (serve_work (sv_serve s) = 0)) as [Hz|Hz].
  - destruct (decide (total go_work (sv_conns s) = 0)) as [?|Ht]; [unfold work in Hw; lia|].
    destruct (decide (Exists (fun k => go_work k <> 0) (sv_conns s))) as [Hx|Hx].
    + apply list.Exists_exists in Hx as (k & Hin & Hg). apply list_elem_of_lookup in Hin as [c Hc]. exists (VClient c RFail). cbn.
      unfold client_step. rewrite Hc. unfold go_work in Hg. destruct (goer k); try done; by eexists.
    + exfalso. apply Ht. apply total_zero. intros i k Hk. destruct (decide (go_work k = 0)) as [?|Hn]; [done|]. exfalso. apply Hx.
      apply list.Exists_exists. exists k. split; [by eapply list_elem_of_lookup_2|done].
  - exists (VServe 0 false). cbn. unfold serve_step. destruct (sv_serve s) as [| |d|d|d|]; try done; try by eexists.
    destruct (sv_closed s); [by eexists|]. destruct (sv_clients s); by eexists.
Qed.

Lemma no_work_hung s : server_ok s -> sv_closed s = true -> sv_listening s = false -> work s = 0 -> Forall (fun k => hung k = true) (sv_conns s).
Proof.
  intros Hok Hcl Hl Hw. apply list.Forall_lookup. intros c k Hc. pose proof (total_lookup go_work _ _ _ go_work_nonneg Hc) as H1.
  pose proof (go_work_nonneg k) as H2. assert (H3 : 0 <= serve_work (sv_serve s)) by (by destruct (sv_serve s)). unfold work in Hw.
  destruct (closed_kept s c k Hok Hcl Hl Hc) as [?|[Hp|[Hp|Hg]]]; [done| | |].
  - rewrite Hp in *. cbn in *. lia.
  - rewrite Hp in *. cbn in *. lia.
  - unfold go_work at 1 in H1. rewrite Hg in H1. lia.
Qed.

(** C31: Closing a socket event hangs up on everybody. In every interleaving of the creator
    with opens, accepts and the goroutines of clients, nothing writes to the nil table;
    and once [close], or a create that failed, has returned, the file and the listener are
    gone, each step of the goroutines that are left brings them closer to their end, one
    can be taken while any is left, and at their end the creator's end of every
    connection is closed. *)
Theorem sock_close_hangs_up (stale : bool) (ls : list vlabel) (s : sockServer) :
  server_run ls (server_start stale) = Some s ->
  sv_panic s = false /\
  forall made, sv_owner s = OGone made ->
    sv_path s = false /\ sv_listening s = false /\
    (forall l s', serving l = true -> server_step l s = Some s' -> 0 <= work s' < work s) /\
    (work s <> 0 -> exists l s', serving l = true /\ server_step l s = Some s') /\
    (work s = 0 -> Forall (fun k => hung k = true) (sv_conns s)).
Proof.
  intros Hr. pose proof (server_run_ok _ _ _ (server_start_ok stale) Hr) as Hok. split; [apply Hok|]. intros made Ho.
  pose proof (so_phase _ Hok) as P. unfold phase_ok in P. rewrite Ho in P. destruct P as (_ & Hcl & Hl & Hp). split_and!; try done.
  - intros l s' Hs Hst. split; [|by eapply serving_works]. unfold work. pose proof (total_nonneg go_work (sv_conns s') go_work_nonneg).
    assert (0 <= serve_work (sv_serve s')) by (by destruct (sv_serve s')). lia.
  - by apply work_enabled.
  - by apply no_work_hung.
Qed.

(** ** An error of [Accept]

    [serve] returns on any error of [Accept], also on one that is not the end of the
    listener, such as a process that has no descriptor left. *)

Definition not_owner (l : vlabel) : bool := match l with VOwner _ => false | _ => true end.

(** Once [serve] has returned, a connection that waits for [Accept] waits until the
    creator closes, although its dial worked. *)
Theorem accept_error_strands (s : sockServer) (c : nat) (k : sconn) (ls : list vlabel) (s' : sockServer) :
  sv_serve s = SvEnd -> sv_conns s !! c = Some k -> backlog k = true -> goer k = GoNone ->
  Forall (fun l => not_owner l = true) ls -> server_run ls s = Some s' ->
  sv_serve s' = SvEnd /\ sv_conns s' !! c = Some k.
Proof.
  intros Hs Hc Hb Hg. revert s Hs Hc. induction ls as [|l ls IH]; intros s Hs Hc Hl; [by intros [= <-]|].
  apply list.Forall_cons in Hl as [Hl Hls]. cbn. destruct (server_step l s) as [s1|] eqn:E; [|done]. intros Hr.
  enough (sv_serve s1 = SvEnd /\ sv_conns s1 !! c = Some k) as [H1 H2] by by eapply IH.
  destruct l as [|d ok|d r|seen other]; [done| | |]; cbn in E.
  - unfold serve_step in E. by rewrite Hs in E.
  - unfold client_step in E. destruct (sv_conns s !! d) as [kd|] eqn:Hd; [|done].
    assert (forall f, alter f d (sv_conns s) !! c = sv_conns s !! c \/ c = d) as Ha.
    { intros f. destruct (decide (c = d)) as [->|Hne]; [by right|left]. by apply list_lookup_alter_ne. }
    destruct (goer kd) eqn:Hgd; try done; [destruct r; [by destruct (hung kd); simplify_eq| |]|..]; injection E as <-; cbn;
      (split; [done|]); (match goal with |- alter ?f _ _ !! _ = _ => destruct (Ha f) as [-> | ->] end); congruence.
  - injection E as <-. unfold openSockEvent. destruct (negb seen), other, (sv_listening s && sv_path s); cbn; try done.
    split; [done|]. by apply lookup_app_l_Some.
Qed.

(** ** A witness *)

(** Another process opens the event; [serve] has accepted it but not entered it in the
    table when the creator closes. *)
Definition server_demo : list vlabel :=
  [VOwner true; VOwner true; VOwner true; VServe 0 true; VServe 0 true; VServe 0 true; VOpen true false; VServe 1 true;
   VOwner true; VOwner true; VOwner true; VOwner true; VServe 0 true; VServe 0 true; VServe 0 false; VClient 0 RFail; VClient 0 RFail; VClient 0 RFail].
Definition server_end : sockServer := default (server_start false) (server_run server_demo (server_start true)).

Lemma sock_close_hangs_up_witness : Forall (fun k => hung k = true) (sv_conns server_end) /\ List.length (sv_conns server_end) = 2%nat.
Proof.
  split; [|vm_compute; reflexivity]. refine (proj2 (proj2 (proj2 (proj2 (proj2 (sock_close_hangs_up true server_demo server_end _) true _)))) _); vm_compute; reflexivity.
Defined.
