(* ===== verification/Service.v ===== *)
(** * Calls between a client and a service ([src/service.go])

    The frames of the service layer, the handler side of a session ([answer],
    [serve]), the typed handlers, and the client side ([Call], [CallTyped]). A
    session joins one client and the service over the two queues of a channel; what it
    needs of a queue is the class [Fifo], which [QueueFlow] discharges. *)

From Stdlib Require Import ZArith Lia Bool String.
From coqutil Require Import Byte Word.LittleEndianList.
From stdpp Require Import base numbers list list_numbers option sorting pretty.
From S2P Require Import Prelude Ipc Ring RingInv RingSeq Recover Queue QueueThm QueueFlow.

#[local] Open Scope Z_scope.
#[local] Arguments zlen : simpl never.

(** ** Constants and frames *)

Definition serviceReservedMin : Z := 0xFFFFFFF0.
Definition typeServiceKnock : Z := 0xFFFFFFF0.
Definition typeServiceHello : Z := 0xFFFFFFF1.
Definition typeServiceError : Z := 0xFFFFFFF2.
Definition serviceSeqSize : Z := 8.
Definition serviceFirstSeq : Z := 1.

Definition frame (seq : Z) (payload : list byte) : list byte := put64 seq ++ payload.

(** [binary.LittleEndian.Uint64(msg)] and [msg\[serviceSeqSize:\]]. *)
Definition seq_of (msg : list byte) : Z := get_u64 msg 0.
Definition body_of (msg : list byte) : list byte := drop (Z.to_nat serviceSeqSize) msg.

(** The text of an error. *)
Definition text : Type := list byte.
Definition text_of (s : string) : text := list_byte_of_string s.

Definition short_request : text := text_of "ipc: request is shorter than its sequence number".
Definition reserved_request (typ : Z) : text := text_of ("ipc: request type " +:+ pretty typ +:+ " is reserved").
Definition reserved_reply (typ : Z) : text := text_of ("ipc: reply type " +:+ pretty typ +:+ " is reserved").

(** ** Messages and handlers *)

Class Message (Msg : Type) : Type := {
  TypeID : Msg -> Z;
  MarshalBinary : Msg -> text + list byte;
  UnmarshalBinary : Msg -> list byte -> text + Msg }.

(** What a handler answers: the text of its error, or the type and bytes of its reply. *)
Definition answered : Type := text + delivery.

Class Handler (St : Type) : Type := {
  Handler_Call : St -> Z -> list byte -> St * answered;
  Handler_Gone : St -> St }.

Record TypedHandler (St Msg : Type) : Type := mkTyped {
  th_New : Z -> option Msg;
  th_Call : St -> Msg -> St * (text + option Msg);
  th_Gone : option (St -> St) }.
Arguments mkTyped {St Msg} _ _ _.
Arguments th_New {St Msg} _ _.
Arguments th_Call {St Msg} _ _ _.
Arguments th_Gone {St Msg} _.

Definition unknown_type (typ : Z) : text := text_of ("ipc: no message has type ID " +:+ pretty typ).
Definition no_reply : text := text_of "ipc: the handler returned no reply".

Definition typedHandler_Call {St Msg} `{Message Msg} (t : TypedHandler St Msg) (h : St) (typ : Z) (payload : list byte)
    : St * answered :=
  match th_New t typ with
  | None => (h, inl (unknown_type typ))
  | Some req =>
      match UnmarshalBinary req payload with
      | inl err => (h, inl err)
      | inr req =>
          let '(h, r) := th_Call t h req in
          match r with
          | inl err => (h, inl err)
          | inr None => (h, inl no_reply)
          | inr (Some reply) =>
              match MarshalBinary reply with
              | inl err => (h, inl err)
              | inr b => (h, inr (TypeID reply, b))
              end
          end
      end
  end.

Definition typedHandler_Gone {St Msg} (t : TypedHandler St Msg) (h : St) : St :=
  match th_Gone t with Some gone => gone h | None => h end.

(** [Handler()]: the handler of a typed handler. *)
Definition typed_handler {St Msg} `{Message Msg} (t : TypedHandler St Msg) : Handler St :=
  {| Handler_Call := typedHandler_Call t; Handler_Gone := typedHandler_Gone t |}.

(** ** The service's side of a session *)

(** A send of a channel whose messages have at most [limit] bytes succeeds only within
    the limit. *)
Definition limited (limit : Z) (payload : list byte) (o : failure + unit) : failure + unit :=
  match o with
  | inl e => inl e
  | inr _ => if limit <? zlen payload then inl (Of ErrMessageTooLarge) else inr tt
  end.

(** [answer] up to its [reply]: the message that is sent, and what the handler returned
    if it ran. *)
Definition answer {St} `{Handler St} (h : St) (typ : Z) (msg : list byte) : St * option answered * delivery :=
  if zlen msg <? serviceSeqSize then (h, None, (typeServiceError, frame 0 short_request))
  else
    let seq := seq_of msg in
    if serviceReservedMin <=? typ then (h, None, (typeServiceError, frame seq (reserved_request typ)))
    else
      let '(h, a) := Handler_Call h typ (body_of msg) in
      match a with
      | inl err => (h, Some a, (typeServiceError, frame seq err))
      | inr (replyTyp, reply) =>
          if serviceReservedMin <=? replyTyp then (h, Some a, (typeServiceError, frame seq (reserved_reply replyTyp)))
          else (h, Some a, (replyTyp, frame seq reply))
      end.

(** A session as [serve] has it: the state of the handler, whether [serve] runs, whether
    the channel is closed and its name removed, and whether the handler was told that
    the client went. *)
Record Session (St : Type) : Type := mkSession {
  ss_handler : St; ss_serving : bool; ss_closed : bool; ss_unlinked : bool; ss_gone : bool }.
Arguments mkSession {St} _ _ _ _ _.
Arguments ss_handler {St} _.
Arguments ss_serving {St} _.
Arguments ss_closed {St} _.
Arguments ss_unlinked {St} _.
Arguments ss_gone {St} _.

(** The deferred [forget]. *)
Definition forget_ {St} (s : Session St) : Session St :=
  mkSession (ss_handler s) false true (ss_unlinked s) (ss_gone s).

(** A round of [serve]: [got] is what [RecvInto] returns and [sent] what the send of the
    reply returns. The messages are those put on the channel. *)
Definition serve_round {St} `{Handler St} (limit : Z) (got : failure + delivery) (sent : failure + unit) (s : Session St)
    : Session St * option answered * list delivery :=
  match got with
  | inl (Of ErrPeerGone) => (forget_ (mkSession (Handler_Gone (ss_handler s)) true true true true), None, [])
  | inl _ => (forget_ s, None, [])
  | inr (typ, msg) =>
      let '(h, a, rep) := answer (ss_handler s) typ msg in
      let s := mkSession h (ss_serving s) (ss_closed s) (ss_unlinked s) (ss_gone s) in
      match limited limit (snd rep) sent with
      | inl _ => (forget_ s, a, [])
      | inr _ => (s, a, [rep])
      end
  end.

(** ** The client's side *)

(** What is wrong with a reply. *)
Inductive corruption : Type := ReplyShort | ReplyAhead (rseq : Z) | ReplyReserved (rtyp : Z).

Inductive call_error : Type :=
| Refused (e : error)
| FromChannel (e : failure)
| Corrupt (c : corruption)
| CallError (Message : text).

Definition called : Type := call_error + delivery.

Definition MaxPayloadSize (limit : Z) : Z := limit - serviceSeqSize.

(** [Call] up to the send, on the last sequence number that the client used: the next
    one, and the error or the message to send. *)
Definition Call_begin (limit typ : Z) (payload : list byte) (seq : Z) : Z * (error + delivery) :=
  if serviceReservedMin <=? typ then (seq, inl ErrReservedType)
  else if MaxPayloadSize limit <? zlen payload then (seq, inl ErrMessageTooLarge)
  else let seq := (seq + 1) mod 2 ^ 64 in (seq, inr (typ, frame seq payload)).

(** A message that the loop of [Call] receives: [None] to go on. *)
Definition Call_reply (seq : Z) (m : delivery) : option called :=
  let '(rtyp, msg) := m in
  if zlen msg <? serviceSeqSize then Some (inl (Corrupt ReplyShort))
  else
    let rseq := seq_of msg in
    if rseq <? seq then None
    else if seq <? rseq then Some (inl (Corrupt (ReplyAhead rseq)))
    else if rtyp =? typeServiceError then Some (inl (CallError (body_of msg)))
    else if serviceReservedMin <=? rtyp then Some (inl (Corrupt (ReplyReserved rtyp)))
    else Some (inr (rtyp, body_of msg)).

(** The loop on what the calls of [Recv] return; [None] while the caller is blocked. *)
Fixpoint call_loop (seq : Z) (os : list (failure + delivery)) : option called :=
  match os with
  | [] => None
  | inl e :: _ => Some (inl (FromChannel e))
  | inr m :: os => match Call_reply seq m with Some r => Some r | None => call_loop seq os end
  end.

Definition Call_ (limit typ : Z) (payload : list byte) (sent : failure + unit) (os : list (failure + delivery)) (seq : Z)
    : Z * option called :=
  match Call_begin limit typ payload seq with
  | (seq, inl e) => (seq, Some (inl (Refused e)))
  | (seq, inr m) =>
      match limited limit (snd m) sent with
      | inl e => (seq, Some (inl (FromChannel e)))
      | inr _ => (seq, call_loop seq os)
      end
  end.

(** The errors of [CallTyped] besides those of [Call]. *)
Inductive typed_error : Type :=
| BadRequest (t : text)
| CallFailed (e : call_error)
| WrongReply (req got want : Z)
| BadReply (t : text).

Definition CallTyped {Msg} `{Message Msg} (call : Z -> list byte -> called) (req reply : Msg) : typed_error + Msg :=
  match MarshalBinary req with
  | inl err => inl (BadRequest err)
  | inr payload =>
      match call (TypeID req) payload with
      | inl e => inl (CallFailed e)
      | inr (typ, msg) =>
          if negb (typ =? TypeID reply) then inl (WrongReply (TypeID req) typ (TypeID reply))
          else match UnmarshalBinary reply msg with inl err => inl (BadReply err) | inr m => inr m end
      end
  end.

(** ** A session *)

(** What a client and the service rely on of the queue between them: what is received is
    what was sent, in order, as far as it was received. *)
Class Fifo (C : Type) : Type := {
  history : C -> list delivery -> list delivery -> Prop;
  fifo_prefix c sent got : history c sent got -> exists rest, sent = got ++ rest }.

(** The handles of a queue keep that promise. *)
#[refine] Instance queue_fifo (r0 : Ring) (H0 : holds r0 []) : Fifo system := {| history := flow r0 |}.
Proof. intros y sent got Hf. destruct (flow_holds r0 y sent got H0 Hf) as (rest & Hr & _). by exists rest. Defined.

(** A call: its sequence number, type and payload. *)
Definition call : Type := Z * Z * list byte.
Definition c_seq (c : call) : Z := fst (fst c).
Definition c_typ (c : call) : Z := snd (fst c).
Definition c_payload (c : call) : list byte := snd c.

Definition request_of (c : call) : delivery := (c_typ c, frame (c_seq c) (c_payload c)).
Definition call_of (m : delivery) : call := (seq_of (snd m), fst m, body_of (snd m)).

(** Both sides: the last sequence number and the call in progress of the client, the
    service's session, and for each direction the messages sent and received. The calls
    that were sent, those that were handled with what the handler returned, and those
    that returned with their result are recorded. *)
Record link (St : Type) : Type := mkLink {
  l_seq : Z; l_pc : option call; l_server : Session St;
  l_reqs : list delivery; l_taken : list delivery; l_reps : list delivery; l_read : list delivery;
  l_calls : list call; l_handled : list (call * answered); l_finished : list (call * called) }.
Arguments mkLink {St} _ _ _ _ _ _ _ _ _ _.
Arguments l_seq {St} _.
Arguments l_pc {St} _.
Arguments l_server {St} _.
Arguments l_reqs {St} _.
Arguments l_taken {St} _.
Arguments l_reps {St} _.
Arguments l_read {St} _.
Arguments l_calls {St} _.
Arguments l_handled {St} _.
Arguments l_finished {St} _.

Inductive laction : Type :=
| ACall (typ : Z) (payload : list byte) (sent : failure + unit)
| ARecv (o : failure + delivery)
| AServe (got : failure + delivery) (sent : failure + unit).

Definition set_call {St} (seq : Z) (pc : option call) (reqs : list delivery) (calls : list call)
    (fin : list (call * called)) (s : link St) : link St :=
  mkLink seq pc (l_server s) (l_reqs s ++ reqs) (l_taken s) (l_reps s) (l_read s) (l_calls s ++ calls) (l_handled s)
    (l_finished s ++ fin).

Definition set_read {St} (pc : option call) (m : list delivery) (fin : list (call * called)) (s : link St) : link St :=
  mkLink (l_seq s) pc (l_server s) (l_reqs s) (l_taken s) (l_reps s) (l_read s ++ m) (l_calls s) (l_handled s)
    (l_finished s ++ fin).

Definition set_served {St} (srv : Session St) (m : list delivery) (done : list (call * answered)) (reps : list delivery)
    (s : link St) : link St :=
  mkLink (l_seq s) (l_pc s) srv (l_reqs s) (l_taken s ++ m) (l_reps s ++ reps) (l_read s) (l_calls s)
    (l_handled s ++ done) (l_finished s).

Definition message_of (o : failure + delivery) : list delivery := match o with inr m => [m] | inl _ => [] end.

Definition link_step {St} `{Handler St} (limit : Z) (a : laction) (s : link St) : option (link St) :=
  match a with
  | ACall typ payload sent =>
      match l_pc s with
      | Some _ => None
      | None =>
          match Call_begin limit typ payload (l_seq s) with
          | (seq, inl e) => Some (set_call seq None [] [] [((seq, typ, payload), inl (Refused e))] s)
          | (seq, inr m) =>
              match limited limit (snd m) sent with
              | inl e => Some (set_call seq None [] [] [((seq, typ, payload), inl (FromChannel e))] s)
              | inr _ => Some (set_call seq (Some (seq, typ, payload)) [m] [(seq, typ, payload)] [] s)
              end
          end
      end
  | ARecv o =>
      match l_pc s with
      | None => None
      | Some c =>
          match o with
          | inl e => Some (set_read None [] [(c, inl (FromChannel e))] s)
          | inr m =>
              match Call_reply (c_seq c) m with
              | Some r => Some (set_read None [m] [(c, r)] s)
              | None => Some (set_read (Some c) [m] [] s)
              end
          end
      end
  | AServe got sent =>
      if ss_serving (l_server s) then
        let '(srv, a, reps) := serve_round limit got sent (l_server s) in
        let done := match got, a with inr m, Some a => [(call_of m, a)] | _, _ => [] end in
        Some (set_served srv (message_of got) done reps s)
      else None
  end.

Definition link_start {St} (h : St) : link St :=
  mkLink (serviceFirstSeq - 1) None (mkSession h true false false false) [] [] [] [] [] [] [].

(** The states of a session whose queues keep their promise. *)
Inductive session_reach {St C} `{Handler St} `{Fifo C} (limit : Z) (h : St) : link St -> Prop :=
| ReachStart : session_reach limit h (link_start h)
| ReachLink a s s' up down :
    session_reach limit h s -> link_step limit a s = Some s' ->
    history up (l_reqs s') (l_taken s') -> history down (l_reps s') (l_read s') -> session_reach limit h s'.

(** What a call returns when the handler returned [a]. *)
Definition reply_of (a : answered) : called :=
  match a with
  | inl err => inl (CallError err)
  | inr (typ, reply) =>
      if serviceReservedMin <=? typ then inl (CallError (reserved_reply typ)) else inr (typ, reply)
  end.

(** The message that carries it. *)
Definition reply_frame (ca : call * answered) : delivery :=
  let '(c, a) := ca in
  match reply_of a with
  | inl (CallError t) => (typeServiceError, frame (c_seq c) t)
  | inl _ => (typeServiceError, [])
  | inr (typ, reply) => (typ, frame (c_seq c) reply)
  end.

(** ** Frames *)

Lemma frame_short seq payload : (zlen (frame seq payload) <? serviceSeqSize) = false.
Proof. apply Z.ltb_ge. unfold frame. rewrite zlen_app, zlen_put64. pose proof (zlen_nonneg payload). unfold serviceSeqSize. lia. Qed.

Lemma seq_of_frame seq payload : 0 <= seq < 2 ^ 64 -> seq_of (frame seq payload) = seq.
Proof. intros. unfold seq_of, frame. by rewrite get_u64_put_0, u64_small. Qed.

Lemma body_of_frame seq payload : body_of (frame seq payload) = payload.
Proof. unfold body_of, frame. rewrite drop_app_length'; [done|]. unfold put64. by rewrite length_le_split. Qed.

Create Rewrite HintDb frames.
#[local] Arguments reply_frame : simpl never.
#[local] Hint Rewrite frame_short body_of_frame : frames.

Lemma call_of_request c : 0 <= c_seq c < 2 ^ 64 -> call_of (request_of c) = c.
Proof.
  destruct c as [[seq typ] payload]. unfold call_of, request_of, c_seq, c_typ, c_payload. cbn [fst snd]. intros.
  by rewrite seq_of_frame, body_of_frame.
Qed.

(** The answer to the request of a call is the frame of what the handler returned. *)
Lemma answer_request {St} `{Handler St} (h : St) (c : call) :
  0 <= c_seq c < 2 ^ 64 -> c_typ c < serviceReservedMin ->
  exists h' a, answer h (fst (request_of c)) (snd (request_of c)) = (h', Some a, reply_frame (c, a)).
Proof.
  intros Hs Ht. unfold answer, request_of. cbn [fst snd]. autorewrite with frames. rewrite seq_of_frame by done.
  rewrite (proj2 (Z.leb_gt _ _)) by lia. destruct (Handler_Call h (c_typ c) (c_payload c)) as [h' a]. exists h', a.
  unfold reply_frame, reply_of. destruct a as [err|[typ reply]]; [done|]. by destruct (serviceReservedMin <=? typ).
Qed.

(** A reply to an earlier call is skipped, and one to this call is what it returns. *)
Lemma Call_reply_frame seq c a :
  0 <= c_seq c < 2 ^ 64 -> c_seq c <= seq ->
  seq_of (snd (reply_frame (c, a))) = c_seq c /\
  Call_reply seq (reply_frame (c, a)) = if c_seq c <? seq then None else Some (reply_of a).
Proof.
  intros Hs Hle. unfold reply_frame, reply_of.
  assert (Hgt : (seq <? c_seq c) = false) by (apply Z.ltb_ge; lia).
  destruct a as [err|[typ reply]].
  - cbn [snd Call_reply]. autorewrite with frames. by rewrite !seq_of_frame, Hgt.
  - destruct (serviceReservedMin <=? typ) eqn:Ht; cbn [snd Call_reply]; autorewrite with frames;
      rewrite !seq_of_frame, Hgt by done; [done|]. split; [done|]. destruct (c_seq c <? seq); [done|].
    apply Z.leb_gt in Ht. unfold serviceReservedMin, typeServiceError in *. rewrite (proj2 (Z.eqb_neq _ _)) by lia.
    by rewrite (proj2 (Z.leb_gt _ _)) by lia.
Qed.

(** ** The invariant of a session *)

(** A finished call has the answer to itself, unless it was refused or the channel failed. *)
Definition answered_by (handled : list (call * answered)) (cr : call * called) : Prop :=
  match snd cr with
  | inl (Refused _) | inl (FromChannel _) => True
  | r => exists a, (fst cr, a) ∈ handled /\ r = reply_of a
  end.

Definition call_ok (last : Z) (c : call) : Prop := 1 <= c_seq c <= last /\ c_typ c < serviceReservedMin.

Definition busy {St} (s : link St) : Z := match l_pc s with Some _ => 1 | None => 0 end.

Record link_inv {St} (s : link St) : Prop := {
  li_seq : 0 <= l_seq s <= zlen (l_finished s) + busy s;
  li_reqs : l_reqs s = request_of <$> l_calls s;
  li_calls : Forall (call_ok (l_seq s)) (l_calls s);
  li_sorted : StronglySorted (fun c c' => c_seq c < c_seq c') (l_calls s);
  li_pc : forall c, l_pc s = Some c -> c ∈ l_calls s /\ c_seq c = l_seq s;
  li_taken : l_taken s = request_of <$> (l_handled s).*1;
  li_handled : exists rest, l_calls s = (l_handled s).*1 ++ rest;
  li_reps : exists rest, reply_frame <$> l_handled s = l_reps s ++ rest /\ (ss_serving (l_server s) = true -> rest = []);
  li_read : exists rest, l_reps s = l_read s ++ rest;
  li_waits : forall c m, l_pc s = Some c -> m ∈ l_read s -> seq_of (snd m) < c_seq c;
  li_finished : Forall (answered_by (l_handled s)) (l_finished s) }.

Lemma answered_by_mono h h' cr : answered_by h cr -> answered_by (h ++ h') cr.
Proof.
  unfold answered_by. destruct (snd cr) as [[]|]; [done|done| | |]; intros (a & Ha & Hr); exists a;
    (split; [apply elem_of_app; by left|done]).
Qed.

Lemma call_ok_mono last last' l : last <= last' -> Forall (call_ok last) l -> Forall (call_ok last') l.
Proof. intros Hl. apply List.Forall_impl. intros c [? ?]. split; [lia|done]. Qed.

Lemma zlen_snoc {A} (l : list A) x : zlen (l ++ [x]) = zlen l + 1.
Proof. rewrite zlen_app. reflexivity. Qed.

(** Fewer than 2^64 calls were made. *)
Definition few_calls {St} (s : link St) : Prop := zlen (l_finished s) + busy s < 2 ^ 64.

Lemma sorted_unique (l : list call) c c' :
  StronglySorted (fun c c' => c_seq c < c_seq c') l -> c ∈ l -> c' ∈ l -> c_seq c = c_seq c' -> c = c'.
Proof.
  induction 1 as [|x l _ IH Hall]; [by intros ?%not_elem_of_nil|]. rewrite list.Forall_forall in Hall.
  intros [->|Hc]%elem_of_cons [->|Hc']%elem_of_cons E; [done| | |by apply IH].
  - specialize (Hall c' Hc'). lia.
  - specialize (Hall c Hc). lia.
Qed.

Lemma sorted_snoc (l : list call) c :
  StronglySorted (fun c c' => c_seq c < c_seq c') l -> Forall (fun x => c_seq x < c_seq c) l ->
  StronglySorted (fun c c' => c_seq c < c_seq c') (l ++ [c]).
Proof.
  induction 1 as [|x l _ IH Hall]; cbn; [repeat constructor|]. intros [Hx Hl]%Forall_cons_1. constructor; [by apply IH|].
  apply Forall_app. split; [done|by constructor].
Qed.

(** Every message that was read is the reply to a call that was made. *)
Lemma read_reply {St} (s : link St) m :
  link_inv s -> m ∈ l_reps s -> exists c a, m = reply_frame (c, a) /\ (c, a) ∈ l_handled s /\ c ∈ l_calls s.
Proof.
  intros Hi Hm. destruct (li_reps s Hi) as (rest & Hr & _). destruct (li_handled s Hi) as (later & Hl).
  assert (Hin : m ∈ reply_frame <$> l_handled s) by (rewrite Hr; apply elem_of_app; by left).
  apply list_elem_of_fmap in Hin as ([c a] & -> & Hin). exists c, a. split; [done|]. split; [done|].
  rewrite Hl. apply elem_of_app. left. apply list_elem_of_fmap. by exists (c, a).
Qed.

(** A call that ends at once: nothing was sent. *)
Lemma inv_refused {St} (s : link St) seq c r :
  link_inv s -> l_pc s = None -> l_seq s <= seq <= l_seq s + 1 -> match r with Refused _ | FromChannel _ => True | _ => False end ->
  link_inv (set_call seq None [] [] [(c, inl r)] s).
Proof.
  intros Hi Hpc Hseq Hr. destruct (li_seq s Hi) as [H1 H2]. unfold busy in H2. rewrite Hpc in H2.
  destruct Hi. unfold set_call. constructor; cbn; rewrite ?app_nil_r; try done.
  - unfold busy. cbn [l_pc]. rewrite (zlen_snoc (l_finished s)). lia.
  - by apply (call_ok_mono (l_seq s)); [lia|].
  - apply Forall_app. split; [done|]. constructor; [|done]. unfold answered_by. cbn. by destruct r.
Qed.

Lemma inv_sent {St} (s : link St) (c : call) :
  link_inv s -> l_pc s = None -> l_seq s + 1 < 2 ^ 64 -> c_seq c = l_seq s + 1 -> c_typ c < serviceReservedMin ->
  link_inv (set_call (l_seq s + 1) (Some c) [request_of c] [c] [] s).
Proof.
  intros Hi Hpc Hbig Hc Ht. destruct (li_seq s Hi) as [H1 H2]. unfold busy in H2. rewrite Hpc in H2.
  pose proof (li_calls s Hi) as Hcalls. pose proof (read_reply s) as Hread.
  unfold set_call. constructor; cbn.
  - unfold busy. cbn. rewrite app_nil_r. lia.
  - by rewrite fmap_app, (li_reqs s Hi).
  - apply Forall_app. split; [apply (call_ok_mono (l_seq s)); [lia|done]|]. constructor; [|done]. split; [lia|done].
  - apply sorted_snoc; [apply (li_sorted s Hi)|]. revert Hcalls. apply List.Forall_impl. intros x [? _]. lia.
  - intros ? [= <-]. split; [|done]. apply elem_of_app. right. by left.
  - apply (li_taken s Hi).
  - destruct (li_handled s Hi) as (rest & ->). exists (rest ++ [c]). by rewrite app_assoc.
  - apply (li_reps s Hi).
  - apply (li_read s Hi).
  - intros ? m [= <-] Hm. destruct (li_read s Hi) as (rest & Hrest).
    destruct (Hread m Hi) as (c' & a & -> & _ & Hin); [rewrite Hrest; apply elem_of_app; by left|].
    rewrite list.Forall_forall in Hcalls. destruct (Hcalls c' Hin) as [Hs _].
    destruct (Call_reply_frame (c_seq c') c' a ltac:(lia) ltac:(lia)) as [-> _]. lia.
  - rewrite app_nil_r. apply (li_finished s Hi).
Qed.

Lemma call_step_inv {St} `{Handler St} limit typ payload sent (s s' : link St) :
  link_inv s -> few_calls s' -> link_step limit (ACall typ payload sent) s = Some s' -> link_inv s'.
Proof.
  intros Hi Hfew. cbn [link_step]. destruct (l_pc s) eqn:Hpc; [done|]. unfold Call_begin.
  destruct (serviceReservedMin <=? typ) eqn:Ht; [intros [= <-]; apply inv_refused; [done|done|lia|done]|].
  destruct (MaxPayloadSize limit <? zlen payload); [intros [= <-]; apply inv_refused; [done|done|lia|done]|].
  apply Z.leb_gt in Ht. pose proof (li_seq s Hi) as [H1 H2].
  destruct (limited _ _ _); intros [= <-]; unfold few_calls, busy, set_call in Hfew; cbn in Hfew; unfold busy in H2;
    rewrite Hpc in H2; rewrite ?app_nil_r, ?zlen_snoc in Hfew; rewrite Z.mod_small by lia.
  - apply inv_refused; [done|done|lia|done].
  - apply (inv_sent s (l_seq s + 1, typ, payload)); [done|done|lia|done|done].
Qed.

Lemma recv_step_inv {St C} `{Handler St} `{Fifo C} limit o (s s' : link St) down :
  link_inv s -> few_calls s' -> link_step limit (ARecv o) s = Some s' -> history down (l_reps s') (l_read s') -> link_inv s'.
Proof.
  intros Hi Hfew Hstep Hdown. cbn [link_step] in Hstep. destruct (l_pc s) as [c|] eqn:Hpc; [|done].
  destruct (li_seq s Hi) as [H1 H2]. unfold busy in H2. rewrite Hpc in H2. destruct (li_pc s Hi c Hpc) as [Hc Hcs].
  destruct o as [e|m].
  { injection Hstep as <-. destruct Hi. unfold set_read. constructor; cbn; rewrite ?app_nil_r; try done.
    - unfold busy. cbn [l_pc]. rewrite (zlen_snoc (l_finished s)). lia.
    - apply Forall_app. split; [done|]. by constructor. }
  apply fifo_prefix in Hdown.
  assert (Hin : m ∈ l_reps s).
  { destruct Hdown as (rest & Hr). destruct (Call_reply (c_seq c) m); injection Hstep as <-; cbn in Hr; rewrite Hr;
      apply elem_of_app; left; apply elem_of_app; right; by left. }
  destruct (read_reply s m Hi Hin) as (c' & a & -> & Ha & Hc').
  pose proof (li_calls s Hi) as Hcalls. rewrite list.Forall_forall in Hcalls. destruct (Hcalls c' Hc') as [Hs _].
  destruct (Hcalls c Hc) as [Hs' _].
  assert (Hbound : c_seq c' < 2 ^ 64).
  { unfold few_calls in Hfew. destruct (Call_reply _ _); injection Hstep as <-; unfold busy, set_read in Hfew;
      cbn [l_pc l_finished] in Hfew; rewrite ?app_nil_r, ?zlen_snoc in Hfew; lia. }
  destruct (Call_reply_frame (c_seq c) c' a ltac:(lia) ltac:(lia)) as [Hseq Hrep]. rewrite Hrep in Hstep.
  destruct (Z.ltb_spec (c_seq c') (c_seq c)) as [Hlt|Hge]; injection Hstep as <-; unfold set_read in *; cbn in Hdown.
  - destruct Hi. constructor; cbn; rewrite ?app_nil_r; try done.
    + by intros ? [= <-].
    + intros ? m [= <-] [Hm|Hm]%elem_of_app; [by eapply li_waits0|]. apply list_elem_of_singleton in Hm as ->. lia.
  - assert (c' = c) as -> by (eapply sorted_unique; [apply (li_sorted s Hi)|done|done|lia]).
    destruct Hi. constructor; cbn; try done.
    + unfold busy. cbn [l_pc]. rewrite (zlen_snoc (l_finished s)). lia.
    + apply Forall_app. split; [done|]. constructor; [|done]. unfold answered_by. cbn [fst snd].
      assert (exists a0, (c, a0) ∈ l_handled s /\ reply_of a = reply_of a0) as HH by (by exists a).
      by destruct (reply_of a) as [[]|].
Qed.

(** The next request that the service takes is that of the first call not handled. *)
Lemma taken_next {St} (s : link St) m rest :
  link_inv s -> l_seq s < 2 ^ 64 -> l_reqs s = (l_taken s ++ [m]) ++ rest ->
  exists c later, m = request_of c /\ call_of m = c /\ call_ok (l_seq s) c /\ l_calls s = ((l_handled s).*1 ++ [c]) ++ later.
Proof.
  intros Hi Hbig Hr. destruct (li_handled s Hi) as (later & Hl). rewrite (li_reqs s Hi), (li_taken s Hi), Hl, fmap_app, <-app_assoc in Hr.
  apply app_inv_head in Hr. destruct later as [|c later]; [done|]. injection Hr as Hm _. exists c, later.
  pose proof (li_calls s Hi) as Hall. rewrite Hl in Hall. apply Forall_app in Hall as [_ [Hc _]%Forall_cons_1].
  split; [done|]. split; [rewrite <-Hm; apply call_of_request; destruct Hc; lia|]. split; [done|]. by rewrite <-app_assoc.
Qed.

(** [serve] that ends without a request. *)
Lemma inv_ended {St} (s : link St) srv :
  link_inv s -> ss_serving srv = false -> link_inv (set_served srv [] [] [] s).
Proof.
  intros [] Hsrv. unfold set_served. constructor; cbn; rewrite ?app_nil_r; try done.
  destruct li_reps0 as (rest & Hr & _). exists rest. split; [done|]. by rewrite Hsrv.
Qed.

Lemma inv_served {St} (s : link St) srv c a reps later :
  link_inv s -> ss_serving (l_server s) = true -> l_calls s = ((l_handled s).*1 ++ [c]) ++ later ->
  (ss_serving srv = true /\ reps = [reply_frame (c, a)] \/ ss_serving srv = false /\ reps = []) ->
  link_inv (set_served srv [request_of c] [(c, a)] reps s).
Proof.
  intros [] Hon Hl Hsrv. destruct li_reps0 as (rest & Hr & Hnil). rewrite (Hnil Hon), app_nil_r in Hr.
  unfold set_served. constructor; cbn; try done.
  - by rewrite fmap_app, fmap_app, li_taken0.
  - exists later. by rewrite fmap_app.
  - rewrite fmap_app, Hr. cbn. destruct Hsrv as [[Hs ->]|[Hs ->]].
    + exists []. by rewrite app_nil_r.
    + rewrite app_nil_r. exists [reply_frame (c, a)]. split; [done|]. by rewrite Hs.
  - destruct li_read0 as (rest0 & ->). exists (rest0 ++ reps). by rewrite app_assoc.
  - revert li_finished0. apply List.Forall_impl. intros cr. apply answered_by_mono.
Qed.

Lemma serve_step_inv {St C} `{Handler St} `{Fifo C} limit got sent (s s' : link St) up :
  link_inv s -> few_calls s' -> link_step limit (AServe got sent) s = Some s' -> history up (l_reqs s') (l_taken s') -> link_inv s'.
Proof.
  intros Hi Hfew Hstep Hup. cbn [link_step] in Hstep. destruct (ss_serving (l_server s)) eqn:Hon; [|done].
  apply fifo_prefix in Hup. destruct got as [e|[typ msg]].
  { assert (Hend : exists srv, serve_round limit (inl e) sent (l_server s) = (srv, None, []) /\ ss_serving srv = false).
    { unfold serve_round. destruct e as [[]| | |]; eauto. }
    destruct Hend as (srv & Hround & Hsrv). rewrite Hround in Hstep. injection Hstep as <-. by apply inv_ended. }
  destruct (serve_round _ _ _ _) as [[srv a] reps] eqn:Hround. injection Hstep as <-. cbn in Hup.
  destruct Hup as (rest & Hr). destruct (li_seq s Hi) as [_ Hseq].
  unfold few_calls, busy, set_served in Hfew. cbn [l_pc l_finished] in Hfew. unfold busy in Hseq.
  destruct (taken_next s (typ, msg) rest Hi ltac:(lia) Hr) as (c & later & Hm & Hc & [Hok Ht] & Hl).
  destruct (answer_request (ss_handler (l_server s)) c ltac:(lia) Ht) as (h' & a' & Ha).
  unfold serve_round in Hround. rewrite <-Hm in Ha. cbn [fst snd] in Ha. rewrite Ha in Hround.
  rewrite Hm in Hc |- *. cbn [message_of].
  destruct (limited limit _ sent); injection Hround as <- <- <-; rewrite Hc; (eapply inv_served; [done|done|done|]).
  - by right.
  - left. by rewrite Hon.
Qed.

Lemma link_start_inv {St} (h : St) : link_inv (link_start h).
Proof.
  constructor; cbn; try done; try (by constructor); try (by exists []).
Qed.

Lemma finished_grows {St} `{Handler St} limit a (s s' : link St) :
  link_step limit a s = Some s' -> zlen (l_finished s) + busy s <= zlen (l_finished s') + busy s'.
Proof.
  unfold busy. destruct a as [typ payload sent|o|got sent]; cbn [link_step].
  - destruct (l_pc s); [done|]. destruct (Call_begin _ _ _ _) as [seq [e|m]]; [|destruct (limited _ _ _)]; intros [= <-];
      unfold set_call; cbn [l_pc l_finished]; rewrite ?app_nil_r, ?zlen_snoc; lia.
  - destruct (l_pc s); [|done]. destruct o as [e|m]; [|destruct (Call_reply _ _)]; intros [= <-];
      unfold set_read; cbn [l_pc l_finished]; rewrite ?app_nil_r, ?zlen_snoc; lia.
  - destruct (ss_serving _); [|done]. destruct (serve_round _ _ _ _) as [[srv a] reps]. intros [= <-]. cbn [set_served l_pc l_finished]. lia.
Qed.

Lemma session_reach_inv {St C} `{Handler St} `{Fifo C} limit (h : St) s :
  session_reach limit h s -> few_calls s -> link_inv s.
Proof.
  induction 1 as [|a s s' up down _ IH Hstep Hup Hdown]; intros Hfew; [apply link_start_inv|].
  assert (Hi : link_inv s) by (apply IH; unfold few_calls in *; pose proof (finished_grows _ _ _ _ Hstep); lia).
  destruct a; [by eapply call_step_inv|by eapply recv_step_inv|by eapply serve_step_inv].
Qed.

(** ** The handler, one call at a time *)

(** A handler that runs on calls in order: its state and what it returns for each. *)
Fixpoint replay {St} `{Handler St} (h : St) (calls : list call) : St * list answered :=
  match calls with
  | [] => (h, [])
  | c :: calls =>
      let '(h, a) := Handler_Call h (c_typ c) (c_payload c) in
      let '(h, l) := replay h calls in (h, a :: l)
  end.

Lemma replay_snoc {St} `{Handler St} (h : St) calls c :
  replay h (calls ++ [c]) =
    let '(h1, l) := replay h calls in let '(h2, a) := Handler_Call h1 (c_typ c) (c_payload c) in (h2, l ++ [a]).
Proof.
  revert h. induction calls as [|c0 calls IH]; intros h; cbn; [by destruct (Handler_Call _ _ _)|].
  destruct (Handler_Call h _ _) as [h1 a]. rewrite IH. destruct (replay h1 calls) as [h2 l].
  by destruct (Handler_Call h2 _ _).
Qed.

Lemma answer_handled {St} `{Handler St} (h h' : St) typ msg a rep :
  answer h typ msg = (h', Some a, rep) -> Handler_Call h typ (body_of msg) = (h', a).
Proof.
  unfold answer. destruct (zlen msg <? serviceSeqSize); [done|]. destruct (serviceReservedMin <=? typ); [done|].
  destruct (Handler_Call h typ (body_of msg)) as [h1 [err|[rt reply]]]; [by intros [= -> <- _]|].
  destruct (serviceReservedMin <=? rt); by intros [= -> <- _].
Qed.

Lemma answer_refused {St} `{Handler St} (h h' : St) typ msg rep : answer h typ msg = (h', None, rep) -> h' = h.
Proof.
  unfold answer. destruct (zlen msg <? serviceSeqSize); [by intros [= -> _]|].
  destruct (serviceReservedMin <=? typ); [by intros [= -> _]|].
  destruct (Handler_Call h typ (body_of msg)) as [h1 [err|[rt reply]]]; [done|]. by destruct (serviceReservedMin <=? rt).
Qed.

Definition replayed {St} `{Handler St} (h : St) (s : link St) : Prop :=
  (replay h (l_handled s).*1).2 = (l_handled s).*2 /\
  (ss_serving (l_server s) = true -> (replay h (l_handled s).*1).1 = ss_handler (l_server s)).

Lemma step_replayed {St} `{Handler St} limit a (h : St) s s' :
  replayed h s -> link_step limit a s = Some s' -> replayed h s'.
Proof.
  unfold replayed. destruct a as [typ payload sent|o|got sent]; cbn [link_step].
  - destruct (l_pc s); [done|]. destruct (Call_begin _ _ _ _) as [seq [e|m]]; [|destruct (limited _ _ _)];
      intros Hs [= <-]; done.
  - destruct (l_pc s); [|done]. destruct o as [e|m]; [|destruct (Call_reply _ _)]; intros Hs [= <-]; done.
  - destruct (ss_serving (l_server s)) eqn:Hon; [|done]. intros [H1 H2]. specialize (H2 eq_refl). destruct got as [e|[typ msg]].
    + assert (Hend : exists srv, serve_round limit (inl e) sent (l_server s) = (srv, None, []) /\ ss_serving srv = false).
      { unfold serve_round. destruct e as [[]| | |]; eauto. }
      destruct Hend as (srv & Hround & Hsrv). rewrite Hround. intros [= <-]. cbn. rewrite app_nil_r, Hsrv. done.
    + unfold serve_round. destruct (answer _ _ _) as [[h' [a|]] rep] eqn:Ha.
      * apply answer_handled in Ha. destruct (limited _ _ _); intros [= <-]; cbn [set_served l_handled l_server];
          rewrite !fmap_app, !list_fmap_singleton, replay_snoc; destruct (replay h _) as [h1 l] eqn:Hrep; cbn in H1, H2; subst h1;
          unfold call_of, c_typ, c_payload; cbn [fst snd]; rewrite Ha; cbn; by rewrite H1.
      * apply answer_refused in Ha as ->. destruct (limited _ _ _); intros [= <-]; cbn [set_served l_handled l_server];
          rewrite app_nil_r; done.
Qed.

Lemma session_reach_replayed {St C} `{Handler St} `{Fifo C} limit (h : St) s : session_reach limit h s -> replayed h s.
Proof. induction 1 as [|a s s' up down _ IH Hstep _ _]; [done|by eapply step_replayed]. Qed.

(** ** Theorems *)

(** C23: a call that returns has the answer to itself. The handler runs on the calls that
    were sent, each at most once and in their order, as if they were made one after the
    other; and every call that was not refused, and for which the channel did not fail,
    returns what the handler returned for that call. It never takes the reply to a call
    that was given up, and never finds a reply corrupt. *)
Theorem session_answers {St C} `{Handler St} `{Fifo C} (limit : Z) (h : St) (s : link St) :
  session_reach limit h s -> few_calls s ->
  (exists rest, l_calls s = (l_handled s).*1 ++ rest) /\ NoDup (c_seq <$> l_calls s) /\
  (replay h (l_handled s).*1).2 = (l_handled s).*2 /\
  forall c r, (c, r) ∈ l_finished s ->
    (exists e, r = inl (Refused e)) \/ (exists e, r = inl (FromChannel e)) \/
    (exists a, (c, a) ∈ l_handled s /\ r = reply_of a).
Proof.
  intros Hr Hfew. pose proof (session_reach_inv limit h s Hr Hfew) as Hi. split; [apply (li_handled s Hi)|]. split.
  - pose proof (li_sorted s Hi) as Hs. induction Hs as [|c l _ IH Hall]; [constructor|]. cbn. constructor; [|done].
    intros (c' & E & Hc')%list_elem_of_fmap. rewrite list.Forall_forall in Hall. specialize (Hall c' Hc'). lia.
  - split; [apply (session_reach_replayed limit h s Hr)|]. intros c r Hin. pose proof (li_finished s Hi) as Hall.
    rewrite list.Forall_forall in Hall. specialize (Hall _ Hin). unfold answered_by in Hall. cbn in Hall.
    destruct r as [[]|]; eauto.
Qed.

(** a call does not wait for a reply that cannot come: while the service serves the
    session, when it has taken every request and the client has read every reply, no call
    is in progress. *)
Theorem call_not_stuck {St C} `{Handler St} `{Fifo C} (limit : Z) (h : St) (s : link St) :
  session_reach limit h s -> few_calls s -> ss_serving (l_server s) = true -> l_taken s = l_reqs s -> l_read s = l_reps s ->
  l_pc s = None.
Proof.
  intros Hr Hfew Hon Htaken Hread. pose proof (session_reach_inv limit h s Hr Hfew) as Hi.
  destruct (l_pc s) as [c|] eqn:Hpc; [|done]. exfalso. destruct (li_pc s Hi c Hpc) as [Hc Hcs].
  destruct (li_handled s Hi) as (rest & Hl). destruct (li_reps s Hi) as (more & Hm & Hnil). rewrite (Hnil Hon), app_nil_r in Hm.
  rewrite (li_taken s Hi), (li_reqs s Hi), Hl, fmap_app in Htaken.
  apply (f_equal length) in Htaken. rewrite length_app, !length_fmap in Htaken. destruct rest; [|cbn in Htaken; lia].
  rewrite app_nil_r in Hl. rewrite Hl in Hc. apply list_elem_of_fmap in Hc as ([c' a] & -> & Hin). cbn [fst] in *.
  pose proof (li_calls s Hi) as Hall. rewrite list.Forall_forall in Hall.
  assert (Hok : call_ok (l_seq s) c') by (apply Hall; rewrite Hl; apply list_elem_of_fmap; by exists (c', a)).
  destruct (li_seq s Hi) as [_ Hseq]. unfold few_calls in Hfew. destruct Hok as [Hok _].
  destruct (Call_reply_frame (c_seq c') c' a ltac:(lia) ltac:(lia)) as [Hrs _].
  pose proof (li_waits s Hi c' (reply_frame (c', a)) Hpc) as Hw. rewrite Hread, <-Hm in Hw.
  specialize (Hw ltac:(apply list_elem_of_fmap; by exists (c', a))). lia.
Qed.

(** a client that exits while the handler runs is not reported to it: the send of the
    reply finds the client gone, and the session ends without [Gone] and without the
    removal of the channel's name, for every request. Only an exit that [RecvInto] finds
    is reported. *)
Theorem exit_during_call_unreported {St} `{Handler St} (limit typ : Z) (msg : list byte) (s : Session St) :
  let '(s', _, sent) := serve_round limit (inr (typ, msg)) (inl (Of ErrPeerGone)) s in
  ss_serving s' = false /\ ss_closed s' = true /\ ss_gone s' = ss_gone s /\ ss_unlinked s' = ss_unlinked s /\ sent = [] /\
  let '(s'', _, _) := serve_round limit (inl (Of ErrPeerGone)) (inr tt) s in
  ss_serving s'' = false /\ ss_closed s'' = true /\ ss_gone s'' = true /\ ss_unlinked s'' = true.
Proof. unfold serve_round. destruct (answer _ _ _) as [[h a] rep]. done. Qed.

(** an error of a handler whose text is longer than a payload, or a reply that is,
    does not reach the client: nothing is sent and the session ends. *)
Theorem long_answer_ends_session {St} `{Handler St} (limit : Z) (c : call) (sent : failure + unit) (s : Session St) (h : St)
    (a : answered) :
  0 <= c_seq c < 2 ^ 64 -> c_typ c < serviceReservedMin -> ss_serving s = true ->
  Handler_Call (ss_handler s) (c_typ c) (c_payload c) = (h, a) ->
  match a with inl err => limit < serviceSeqSize + zlen err
             | inr (typ, reply) => typ < serviceReservedMin /\ limit < serviceSeqSize + zlen reply end ->
  let '(s', _, reps) := serve_round limit (inr (request_of c)) sent s in
  ss_serving s' = false /\ ss_closed s' = true /\ ss_gone s' = ss_gone s /\ reps = [].
Proof.
  intros Hs Ht Hon Hh Hlong. unfold serve_round.
  destruct (answer_request (ss_handler s) c Hs Ht) as (h' & a' & Ha). unfold request_of in *. cbn [fst snd] in Ha. rewrite Ha.
  apply answer_handled in Ha. rewrite body_of_frame, Hh in Ha. injection Ha as <- <-.
  assert (exists e, limited limit (snd (reply_frame (c, a))) sent = inl e) as (e & ->); [|done].
  assert (Hz : limit < zlen (snd (reply_frame (c, a)))).
  { unfold reply_frame, reply_of. unfold serviceSeqSize in Hlong. destruct a as [err|[typ reply]].
    - cbn [snd]. unfold frame. by rewrite zlen_app, zlen_put64.
    - destruct Hlong as [Htyp Hlong]. rewrite (proj2 (Z.leb_gt _ _)) by lia. cbn [snd]. unfold frame. by rewrite zlen_app, zlen_put64. }
  unfold limited. destruct sent; [by eexists|]. rewrite (proj2 (Z.ltb_lt _ _)) by lia. by eexists.
Qed.

(** [CallTyped] over a typed handler returns the message that the handler returned, when
    the messages survive their encoding. *)
Lemma typed_call {St Msg} `{Message Msg} (t : TypedHandler St Msg) (h h' : St) (req rep blank proto : Msg) (b b' : list byte) :
  MarshalBinary req = inr b -> th_New t (TypeID req) = Some blank -> UnmarshalBinary blank b = inr req ->
  th_Call t h req = (h', inr (Some rep)) -> MarshalBinary rep = inr b' -> TypeID rep < serviceReservedMin ->
  TypeID proto = TypeID rep -> UnmarshalBinary proto b' = inr rep ->
  CallTyped (fun typ payload => reply_of (typedHandler_Call t h typ payload).2) req proto = inr rep.
Proof.
  intros H1 H2 H3 H4 H5 H6 H7 H8. unfold CallTyped, typedHandler_Call. rewrite H1, H2, H3, H4, H5. cbn [snd reply_of].
  rewrite (proj2 (Z.leb_gt _ _)) by lia. by rewrite H7, Z.eqb_refl, H8.
Qed.

(** ** Witnesses *)

(** A queue as the lists of what was sent and received. *)
#[refine] Instance list_fifo : Fifo unit := {| history _ sent got := exists rest, sent = got ++ rest |}.
Proof. done. Defined.

(** A handler that counts its calls and returns what it was given. *)
#[export] Instance echo : Handler Z :=
  {| Handler_Call h typ payload := (h + 1, if typ =? 9 then inl payload else inr (typ, payload)); Handler_Gone h := h |}.

(** A call that is given up, and one that skips its reply and gets its own. *)
Definition demo_request (seq : Z) : delivery := request_of (seq, 7, [Byte.x01]).
Definition demo_actions : list laction :=
  [ACall 7 [Byte.x01] (inr tt); ARecv (inl ContextEnded); ACall 7 [Byte.x01] (inr tt); AServe (inr (demo_request 1)) (inr tt);
   AServe (inr (demo_request 2)) (inr tt); ARecv (inr (demo_request 1)); ARecv (inr (demo_request 2))].

Fixpoint link_run {St} `{Handler St} (limit : Z) (l : list laction) (s : link St) : link St :=
  match l with [] => s | a :: l => link_run limit l (default s (link_step limit a s)) end.

Definition demo_link (n : nat) : link Z := link_run 2040 (take n demo_actions) (link_start 0).

Lemma demo_reach : session_reach (C := unit) 2040 0 (demo_link 7).
Proof.
  eapply (ReachLink 2040 0 (ARecv (inr (demo_request 2))) (demo_link 6) _ tt tt);
    [|vm_compute; reflexivity|vm_compute; by exists []|vm_compute; by exists []].
  eapply (ReachLink 2040 0 (ARecv (inr (demo_request 1))) (demo_link 5) _ tt tt);
    [|vm_compute; reflexivity|vm_compute; by exists []|vm_compute; by eexists].
  eapply (ReachLink 2040 0 (AServe (inr (demo_request 2)) (inr tt)) (demo_link 4) _ tt tt);
    [|vm_compute; reflexivity|vm_compute; by exists []|vm_compute; by eexists].
  eapply (ReachLink 2040 0 (AServe (inr (demo_request 1)) (inr tt)) (demo_link 3) _ tt tt);
    [|vm_compute; reflexivity|vm_compute; by eexists|vm_compute; by eexists].
  eapply (ReachLink 2040 0 (ACall 7 [Byte.x01] (inr tt)) (demo_link 2) _ tt tt);
    [|vm_compute; reflexivity|vm_compute; by eexists|vm_compute; by eexists].
  eapply (ReachLink 2040 0 (ARecv (inl ContextEnded)) (demo_link 1) _ tt tt);
    [|vm_compute; reflexivity|vm_compute; by eexists|vm_compute; by eexists].
  eapply (ReachLink 2040 0 (ACall 7 [Byte.x01] (inr tt)) (link_start 0) _ tt tt);
    [constructor|vm_compute; reflexivity|vm_compute; by eexists|vm_compute; by eexists].
Qed.

Lemma session_answers_witness : exists a, ((2, 7, [Byte.x01]), a) ∈ l_handled (demo_link 7) /\ inr (7, [Byte.x01]) = reply_of a.
Proof.
  destruct (session_answers (C := unit) 2040 0 (demo_link 7) demo_reach) as (_ & _ & _ & H); [vm_compute; reflexivity|].
  destruct (H (2, 7, [Byte.x01]) (inr (7, [Byte.x01]))) as [(e & He)|[(e & He)|Ha]]; [|discriminate|discriminate|exact Ha].
  vm_compute. right. left.
Defined.

Lemma call_not_stuck_witness : l_pc (demo_link 7) = None.
Proof.
  apply (call_not_stuck (C := unit) 2040 0 (demo_link 7) demo_reach); vm_compute; reflexivity.
Defined.

Lemma long_answer_ends_session_witness :
  let '(s', _, reps) := serve_round 10 (inr (request_of (1, 9, [Byte.x01; Byte.x02; Byte.x03]))) (inr tt) (mkSession 0 true false false false) in
  ss_serving s' = false /\ ss_closed s' = true /\ ss_gone s' = false /\ reps = [].
Proof.
  apply (long_answer_ends_session 10 (1, 9, [Byte.x01; Byte.x02; Byte.x03]) (inr tt) (mkSession 0 true false false false) 1
    (inl [Byte.x01; Byte.x02; Byte.x03])); vm_compute; [split|..]; done.
Defined.
