(* ===== verification/ServiceLife.v ===== *)
(** * The life of a service ([src/service.go])

    [Serve] adopts the clients it finds, [run] adopts each client that knocks, a
    goroutine serves each session, and [Close] ends them all. Their accesses to the
    service are interleaved; what a goroutine does with its channel between two of them
    is in [Service]. *)

From stdpp Require Import base numbers list list_numbers option.
From Stdlib Require Import ZArith Lia Bool.
From S2P Require Import Prelude Ipc Queue.

#[local] Open Scope Z_scope.

(** The goroutine of a session: not started; serving; the client went, before its channel
    is closed; before [forget]; before [forget] closes the channel; returned. *)
Inductive gpc : Set := GNone | GServe | GGone | GForget | GClose | GEnd.

(** A channel that [adopt] opened: the ordinal of its session, whether it is closed, and
    its goroutine. *)
Record chan : Type := mkChan { ch_ordinal : option Z; ch_closed : bool; ch_run : gpc }.

(** The goroutine that adopts, first in [Serve] with the ids of the scan and then in
    [run]: between clients; in [adopt] before the open; with a channel, before its session
    is made; before the hello; in [forget], before and after the section under the
    mutex; returned, with [knocks] closed. [rest] is what is left of the scan. *)
Inductive apc : Type :=
| AIdle (rest : option (list nat))
| AOpen (id : nat) (rest : option (list nat))
| ASession (k : nat) (rest : option (list nat))
| AHello (k : nat) (rest : option (list nat))
| AForget (k : nat) (rest : option (list nat))
| AClose (k : nat) (rest : option (list nat))
| AEnded.

(** [Close]: not called; after [cancel]; after the close of the queue; closing the
    channels; before [Unlink]; returned. *)
Inductive vcpc : Type := VIdle | VCancelled | VClosed | VChannels (l : list nat) | VUnlink | VDone.

Record svc : Type := mkSvc {
  v_adopt : apc; v_next : Z; v_sessions : list nat; v_chans : list chan; v_cancelled : bool; v_err : option failure;
  v_regClosed : bool; v_unlinked : bool; v_close : vcpc }.

Inductive vlabel : Type :=
| VKnock (id : option nat)     (* a message of the queue: a knock with an id, or another *)
| VFails (e : failure)         (* [RecvInto] of the queue fails: [stop] *)
| VNext                        (* the next id of the scan, or the start of [run] *)
| VOpens (ok : bool)           (* [OpenChannel] *)
| VAdopts (ok : bool)          (* the next access of [adopt]; [ok] says whether the hello was sent *)
| VServes (k : nat) (gone : bool)  (* the goroutine of a session: its next access *)
| VCloses.                     (* the next access of [Close] *)

Definition set_adopt (a : apc) (v : svc) : svc :=
  mkSvc a (v_next v) (v_sessions v) (v_chans v) (v_cancelled v) (v_err v) (v_regClosed v) (v_unlinked v) (v_close v).
Definition set_chan (k : nat) (c : chan) (v : svc) : svc :=
  mkSvc (v_adopt v) (v_next v) (v_sessions v) (<[k := c]> (v_chans v)) (v_cancelled v) (v_err v) (v_regClosed v) (v_unlinked v) (v_close v).
Definition set_sessions (l : list nat) (v : svc) : svc :=
  mkSvc (v_adopt v) (v_next v) l (v_chans v) (v_cancelled v) (v_err v) (v_regClosed v) (v_unlinked v) (v_close v).
Definition set_closing (c : vcpc) (v : svc) : svc :=
  mkSvc (v_adopt v) (v_next v) (v_sessions v) (v_chans v) (v_cancelled v) (v_err v) (v_regClosed v) (v_unlinked v) c.

Definition without (k : nat) (l : list nat) : list nat := filter (fun x => x <> k) l.

(** [stop]. *)
Definition stop_ (e : failure) (v : svc) : svc :=
  let err :=
    match v_err v with
    | Some e => Some e
    | None => match e with Of ErrClosed | ContextEnded => None | e => Some e end
    end in
  mkSvc (v_adopt v) (v_next v) (v_sessions v) (v_chans v) true err (v_regClosed v) (v_unlinked v) (v_close v).

(** The accesses of [adopt] after the open. *)
Definition adopt_next (ok : bool) (v : svc) : option svc :=
  match v_adopt v with
  | ASession k rest =>
      match v_chans v !! k with
      | Some c =>
          Some (mkSvc (AHello k rest) (v_next v + 1) (v_sessions v ++ [k])
            (<[k := mkChan (Some (v_next v)) (ch_closed c) (ch_run c)]> (v_chans v)) (v_cancelled v) (v_err v)
            (v_regClosed v) (v_unlinked v) (v_close v))
      | None => None
      end
  | AHello k rest =>
      match v_chans v !! k with
      | Some c =>
          if ok then Some (set_adopt (AIdle rest) (set_chan k (mkChan (ch_ordinal c) (ch_closed c) GServe) v))
          else Some (set_adopt (AForget k rest) v)
      | None => None
      end
  | AForget k rest => Some (set_adopt (AClose k rest) (set_sessions (without k (v_sessions v)) v))
  | AClose k rest =>
      match v_chans v !! k with
      | Some c => Some (set_adopt (AIdle rest) (set_chan k (mkChan (ch_ordinal c) true GEnd) v))
      | None => None
      end
  | _ => None
  end.

(** The accesses of [serve] and [forget]; [gone] says how [serve] leaves its loop. *)
Definition serve_next (k : nat) (gone : bool) (c : chan) (v : svc) : option svc :=
  match ch_run c with
  | GServe => Some (set_chan k (mkChan (ch_ordinal c) (ch_closed c) (if gone then GGone else GForget)) v)
  | GGone => Some (set_chan k (mkChan (ch_ordinal c) true GForget) v)
  | GForget => Some (set_sessions (without k (v_sessions v)) (set_chan k (mkChan (ch_ordinal c) (ch_closed c) GClose) v))
  | GClose => Some (set_chan k (mkChan (ch_ordinal c) true GEnd) v)
  | GNone | GEnd => None
  end.

Definition close_next_ (v : svc) : option svc :=
  match v_close v with
  | VIdle =>
      match v_adopt v with
      | AIdle (Some _) | AOpen _ (Some _) | ASession _ (Some _) | AHello _ (Some _) | AForget _ (Some _) | AClose _ (Some _) =>
          None (* [Serve] has not returned *)
      | _ => Some (set_closing VCancelled (mkSvc (v_adopt v) (v_next v) (v_sessions v) (v_chans v) true (v_err v)
               (v_regClosed v) (v_unlinked v) (v_close v)))
      end
  | VCancelled =>
      Some (mkSvc (v_adopt v) (v_next v) (v_sessions v) (v_chans v) (v_cancelled v) (v_err v) true (v_unlinked v) VClosed)
  | VClosed => match v_adopt v with AEnded => Some (set_closing (VChannels (v_sessions v)) v) | _ => None end
  | VChannels (k :: l) =>
      match v_chans v !! k with
      | Some c => Some (set_closing (VChannels l) (set_chan k (mkChan (ch_ordinal c) true (ch_run c)) v))
      | None => None
      end
  | VChannels [] => Some (set_closing VUnlink v)
  | VUnlink =>
      Some (mkSvc (v_adopt v) (v_next v) (v_sessions v) (v_chans v) (v_cancelled v) (v_err v) (v_regClosed v) true VDone)
  | VDone => None
  end.

Definition svc_step (l : vlabel) (v : svc) : option svc :=
  match l with
  | VKnock id =>
      match v_adopt v with
      | AIdle None => Some (match id with Some id => set_adopt (AOpen id None) v | None => v end)
      | _ => None
      end
  | VFails e => match v_adopt v with AIdle None => Some (set_adopt AEnded (stop_ e v)) | _ => None end
  | VNext =>
      match v_adopt v with
      | AIdle (Some (id :: rest)) => Some (set_adopt (AOpen id (Some rest)) v)
      | AIdle (Some []) => Some (set_adopt (AIdle None) v)
      | _ => None
      end
  | VOpens ok =>
      match v_adopt v with
      | AOpen _ rest =>
          if ok then
            Some (set_adopt (ASession (List.length (v_chans v)) rest)
              (mkSvc (v_adopt v) (v_next v) (v_sessions v) (v_chans v ++ [mkChan None false GNone]) (v_cancelled v) (v_err v)
                (v_regClosed v) (v_unlinked v) (v_close v)))
          else Some (set_adopt (AIdle rest) v)
      | _ => None
      end
  | VAdopts ok => adopt_next ok v
  | VServes k gone => match v_chans v !! k with Some c => serve_next k gone c v | None => None end
  | VCloses => close_next_ v
  end.

(** A service that has found the ids [scan]. *)
Definition svc_start (scan : list nat) : svc := mkSvc (AIdle (Some scan)) 0 [] [] false None false false VIdle.

Fixpoint svc_run (ls : list vlabel) (v : svc) : option svc :=
  match ls with
  | [] => Some v
  | l :: ls => match svc_step l v with Some v => svc_run ls v | None => None end
  end.

(** ** The invariant *)

(** The channel is the one that the adopting goroutine is to make a session of, or to
    close. *)
Definition adopting (k : nat) (a : apc) : bool :=
  match a with ASession j _ | AClose j _ => bool_decide (j = k) | _ => false end.

(** The channel is one that [Close] is to close. *)
Definition closing_it (k : nat) (c : vcpc) : Prop := match c with VChannels l => k ∈ l | _ => False end.

Definition before_channels (c : vcpc) : bool := match c with VIdle | VCancelled | VClosed => true | _ => false end.

(** The channel has an adopting goroutine, whose pc names it. *)
Definition adopted_by (k : nat) (a : apc) : bool :=
  match a with ASession j _ | AHello j _ | AForget j _ | AClose j _ => bool_decide (j = k) | _ => false end.

(** A channel that is not closed is in [sessions], or somebody is about to take care of
    it. *)
Definition cared_for (k : nat) (c : chan) (v : svc) : Prop :=
  ch_closed c = true \/ ch_run c = GClose \/ adopting k (v_adopt v) = true \/
  k ∈ v_sessions v /\ (before_channels (v_close v) = true \/ closing_it k (v_close v)).

Record sinv (v : svc) : Prop := {
  si_chans : forall k c, v_chans v !! k = Some c -> cared_for k c v;
  si_run : forall k c, v_chans v !! k = Some c -> adopted_by k (v_adopt v) = true <-> ch_run c = GNone;
  si_range : forall k, k ∈ v_sessions v \/ closing_it k (v_close v) \/ adopted_by k (v_adopt v) = true -> (k < List.length (v_chans v))%nat;
  si_ended : before_channels (v_close v) = false -> v_adopt v = AEnded;
  si_ord : forall k c o, v_chans v !! k = Some c -> ch_ordinal c = Some o -> 0 <= o < v_next v;
  si_once : forall k k' c c' o, v_chans v !! k = Some c -> v_chans v !! k' = Some c' -> ch_ordinal c = Some o -> ch_ordinal c' = Some o -> k = k';
  si_next : 0 <= v_next v;
  si_fresh : forall k rest c, v_adopt v = ASession k rest -> v_chans v !! k = Some c -> ch_ordinal c = None }.

(** A step that changes one channel and keeps its ordinal. *)
Lemma sinv_chan v v' k c c' :
  sinv v -> v_chans v !! k = Some c -> v_chans v' = <[k := c']> (v_chans v) -> ch_ordinal c' = ch_ordinal c -> v_next v' = v_next v ->
  cared_for k c' v' -> (forall j d, j <> k -> v_chans v !! j = Some d -> cared_for j d v -> cared_for j d v') ->
  (forall j, j <> k -> adopted_by j (v_adopt v') = adopted_by j (v_adopt v)) ->
  (adopted_by k (v_adopt v') = true <-> ch_run c' = GNone) ->
  (forall j, j ∈ v_sessions v' \/ closing_it j (v_close v') -> j ∈ v_sessions v \/ closing_it j (v_close v)) ->
  (before_channels (v_close v') = false -> v_adopt v' = AEnded) ->
  (forall j rest, v_adopt v' = ASession j rest -> v_adopt v = ASession j rest) -> sinv v'.
Proof.
  intros [] Hc Hall Ho Hn Hcare Hothers Had Hrun Hrange Hend Hfr.
  split; rewrite ?Hall, ?Hn, ?length_insert; try done.
  - intros j d [[-> ->]|[Hne Hd]]%moved_cases; [done|]. apply Hothers; [done|done|by apply si_chans0].
  - intros j d [[-> ->]|[Hne Hd]]%moved_cases; [done|]. rewrite Had by done. by apply si_run0.
  - intros j Hj. destruct (decide (j = k)) as [->|Hne]; [by eapply lookup_lt_Some|]. apply si_range0.
    destruct Hj as [H|[H|H]]; [destruct (Hrange j (or_introl H)); auto|destruct (Hrange j (or_intror H)); auto|]. rewrite Had in H by done. auto.
  - intros j d o [[-> ->]|[Hne Hd]]%moved_cases; rewrite ?Ho; eauto.
  - intros j j' d d' o [[-> ->]|[Hne Hd]]%moved_cases [[-> ->]|[Hne' Hd']]%moved_cases; rewrite ?Ho; eauto.
  - intros j rest d Hj%Hfr [[-> ->]|[Hne Hd]]%moved_cases; rewrite ?Ho; eauto.
Qed.

(** A step that changes no channel. *)
Lemma sinv_same v v' :
  sinv v -> v_chans v' = v_chans v -> v_next v' = v_next v ->
  (forall j d, v_chans v !! j = Some d -> cared_for j d v -> cared_for j d v') ->
  (forall j, adopted_by j (v_adopt v') = adopted_by j (v_adopt v)) ->
  (forall j, j ∈ v_sessions v' \/ closing_it j (v_close v') -> j ∈ v_sessions v \/ closing_it j (v_close v)) ->
  (before_channels (v_close v') = false -> v_adopt v' = AEnded) ->
  (forall j rest, v_adopt v' = ASession j rest -> v_adopt v = ASession j rest) -> sinv v'.
Proof.
  intros [] Hall Hn Hothers Had Hrange Hend Hfr. split; rewrite ?Hall, ?Hn; try done.
  - intros j d Hd. apply Hothers; [done|by apply si_chans0].
  - intros j d Hd. rewrite Had. by apply si_run0.
  - intros j [H|[H|H]]; apply si_range0; [destruct (Hrange j (or_introl H)); auto|destruct (Hrange j (or_intror H)); auto|].
    rewrite Had in H. auto.
  - intros j rest d Hj%Hfr. eauto.
Qed.

(** While the adopting goroutine runs, [Close] has not come to the channels. *)
Lemma sinv_before v : sinv v -> v_adopt v <> AEnded -> before_channels (v_close v) = true.
Proof. intros Hi Hne. destruct (before_channels (v_close v)) eqn:E; [done|]. by destruct Hne; apply (si_ended v Hi). Qed.

Lemma not_closing_it k c : before_channels c = true -> closing_it k c -> False.
Proof. by destruct c. Qed.

Lemma elem_without j k l : j ∈ without k l <-> j <> k /\ j ∈ l.
Proof. unfold without. by rewrite list_elem_of_filter. Qed.

Lemma sinv_serve v v' k gone c : sinv v -> v_chans v !! k = Some c -> serve_next k gone c v = Some v' -> sinv v'.
Proof.
  intros Hi Hc. pose proof (si_chans v Hi k c Hc) as Hcare. pose proof (si_run v Hi k c Hc) as Hrun. pose proof (si_ended v Hi) as Hend.
  unfold serve_next. destruct (ch_run c) eqn:Hr; try done; intros [= <-];
    (eapply (sinv_chan v _ k c); [done|done|done|done|done| | |done|cbn; rewrite Hrun; by destruct gone| | |done]); try done.
  - destruct Hcare as [?|[?|[?|?]]]; [by left|congruence|by right; right; left|by right; right; right].
  - by left.
  - right. left. done.
  - intros j d Hne _ [?|[?|[?|[Hin ?]]]]; [by left|by right; left|by right; right; left|]. right. right. right. split; [|done].
    apply elem_without. done.
  - cbn. intros j [[_ ?]%elem_without|?]; auto.
  - by left.
Qed.

Lemma sinv_adopt v v' ok : sinv v -> adopt_next ok v = Some v' -> sinv v'.
Proof.
  intros Hi. unfold adopt_next. destruct (v_adopt v) as [rest|id rest|k rest|k rest|k rest|k rest|] eqn:Ha; try done;
    pose proof (sinv_before v Hi ltac:(congruence)) as Hb.
  - destruct (v_chans v !! k) as [c|] eqn:Hc; [|done]. intros [= <-]. pose proof (si_fresh v Hi k rest c Ha Hc) as Hfresh.
    assert (Hrun : ch_run c = GNone) by (apply (si_run v Hi k c Hc); rewrite Ha; cbn; by rewrite bool_decide_true).
    destruct Hi. split; cbn [v_chans v_adopt v_next v_sessions v_close]; rewrite ?length_insert.
    + intros j d [[-> ->]|[Hne Hd]]%moved_cases.
      * right. right. right. cbn. split; [apply elem_of_app; right; by left|by left].
      * destruct (si_chans0 j d Hd) as [?|[?|[H|[? ?]]]]; [by left|by right; left| |].
        -- rewrite Ha in H. cbn in H. apply bool_decide_eq_true in H. done.
        -- right. right. right. cbn. split; [apply elem_of_app; by left|done].
    + intros j d [[-> ->]|[Hne Hd]]%moved_cases; [cbn; by rewrite Hrun, bool_decide_true|].
      rewrite <-(si_run0 j d Hd), Ha. done.
    + intros j [[H|H]%elem_of_app|[H|H]]; apply si_range0; rewrite ?Ha; auto. apply list_elem_of_singleton in H as ->. cbn.
      rewrite bool_decide_true by done. auto.
    + congruence.
    + intros j d o [[-> ->]|[Hne Hd]]%moved_cases.
      * cbn. intros [= <-]. lia.
      * intros Ho. specialize (si_ord0 j d o Hd Ho). lia.
    + intros j j' d d' o [[-> ->]|[Hne Hd]]%moved_cases [[-> ->]|[Hne' Hd']]%moved_cases; cbn; [done| | |by eauto].
      * intros [= <-] Ho. specialize (si_ord0 j' d' _ Hd' Ho). lia.
      * intros Ho [= <-]. specialize (si_ord0 j d _ Hd Ho). lia.
    + lia.
    + done.
  - destruct (v_chans v !! k) as [c|] eqn:Hc; [|done].
    assert (Hcare : cared_for k c v) by (by apply (si_chans v Hi)).
    destruct ok; intros [= <-].
    + eapply (sinv_chan v _ k c); [done|done|done|done|done| | | | |done| |done].
      * destruct Hcare as [?|[?|[H|?]]]; [by left| |rewrite Ha in H; done|by right; right; right].
        assert (ch_run c = GNone) by (apply (si_run v Hi k c Hc); rewrite Ha; cbn; by rewrite bool_decide_true). congruence.
      * intros j d Hne _ [?|[?|[H|?]]]; [by left|by right; left|rewrite Ha in H; done|by right; right; right].
      * intros j Hne. rewrite Ha. cbn. by rewrite bool_decide_false.
      * done.
      * cbn. congruence.
    + eapply (sinv_same v); [done|done|done| | |done| |done].
      * intros j d _ [?|[?|[H|?]]]; [by left|by right; left|rewrite Ha in H; done|by right; right; right].
      * intros j. by rewrite Ha.
      * cbn. congruence.
  - intros [= <-]. eapply (sinv_same v); [done|done|done| | | | |done].
    + intros j d _ [?|[?|[H|[Hin ?]]]]; [by left|by right; left|rewrite Ha in H; done|].
      destruct (decide (j = k)) as [->|Hne]; [right; right; left; cbn; by rewrite bool_decide_true|].
      right. right. right. cbn. split; [by apply elem_without|done].
    + intros j. by rewrite Ha.
    + cbn. intros j [[_ ?]%elem_without|?]; auto.
    + cbn. congruence.
  - destruct (v_chans v !! k) as [c|] eqn:Hc; [|done]. intros [= <-].
    eapply (sinv_chan v _ k c); [done|done|done|done|done| | | | |done| |done].
    + by left.
    + intros j d Hne _ [?|[?|[H|?]]]; [by left|by right; left| |by right; right; right]. rewrite Ha in H. cbn in H.
      apply bool_decide_eq_true in H. congruence.
    + intros j Hne. rewrite Ha. cbn. by rewrite bool_decide_false.
    + done.
    + cbn. congruence.
Qed.

Lemma sinv_close v v' : sinv v -> close_next_ v = Some v' -> sinv v'.
Proof.
  intros Hi. unfold close_next_. pose proof (si_ended v Hi) as Hend. destruct (v_close v) as [| | |[|k l]| |] eqn:Hcl; try done.
  - intros Hs. assert (v' = set_closing VCancelled (mkSvc (v_adopt v) (v_next v) (v_sessions v) (v_chans v) true (v_err v)
      (v_regClosed v) (v_unlinked v) (v_close v))) as -> by (by destruct (v_adopt v) as [[]|? []|? []|? []|? []|? []|]; try discriminate Hs; injection Hs as <-).
    eapply (sinv_same v); [done|done|done| |done| |done|done].
    + intros j d _ [?|[?|[?|[? _]]]]; [by left|by right; left|by right; right; left|]. right. right. right. split; [done|by left].
    + cbn. intros j [?|?]; [by left|done].
  - intros [= <-]. eapply (sinv_same v); [done|done|done| |done| |done|done].
    + intros j d _ [?|[?|[?|[? _]]]]; [by left|by right; left|by right; right; left|]. right. right. right. split; [done|by left].
    + cbn. intros j [?|?]; [by left|done].
  - destruct (v_adopt v) eqn:Ha; try done. intros [= <-]. eapply (sinv_same v); [done|done|done| |done| |done|done].
    + intros j d _ [?|[?|[?|[? _]]]]; [by left|by right; left|by right; right; left|]. right. right. right. split; [done|by right].
    + cbn. intros j [?|?]; by left.
  - intros [= <-]. eapply (sinv_same v); [done|done|done| |done| | |done].
    + intros j d _ [?|[?|[?|[? [H|H]]]]]; [by left|by right; left|by right; right; left|by rewrite Hcl in H|].
      rewrite Hcl in H. by apply not_elem_of_nil in H.
    + cbn. intros j [?|?]; [by left|done].
    + intros _. by apply Hend.
  - destruct (v_chans v !! k) as [c|] eqn:Hc; [|done]. intros [= <-].
    eapply (sinv_chan v _ k c); [done|done|done|done|done| | |done|apply (si_run v Hi k c Hc)| |intros _; by apply Hend|done].
    + by left.
    + intros j d Hne _ [?|[?|[?|[? [H|H]]]]]; [by left|by right; left|by right; right; left|by rewrite Hcl in H|].
      right. right. right. split; [done|]. right. rewrite Hcl in H. cbn in *. by apply elem_of_cons in H as [->|H].
    + cbn. rewrite Hcl. intros j [?|?]; [by left|right; by right].
  - intros [= <-]. eapply (sinv_same v); [done|done|done| |done| |intros _; by apply Hend|done].
    + intros j d _ [?|[?|[?|[? [H|H]]]]]; [by left|by right; left|by right; right; left|by rewrite Hcl in H..].
    + cbn. intros j [?|?]; [by left|done].
Qed.

(** The adopting goroutine between two clients. *)
Lemma sinv_idle v v' :
  sinv v -> (forall j, adopted_by j (v_adopt v) = false) -> (forall j, adopted_by j (v_adopt v') = false) -> v_adopt v <> AEnded ->
  v_chans v' = v_chans v -> v_next v' = v_next v -> v_sessions v' = v_sessions v -> v_close v' = v_close v -> sinv v'.
Proof.
  intros Hi H1 H2 Hne E1 E2 E3 E4. pose proof (sinv_before v Hi Hne) as Hb.
  eapply (sinv_same v); [done|done|done| | | | |].
  - intros j d _ [?|[?|[H|H]]]; [by left|by right; left| |right; right; right; by rewrite E3, E4].
    specialize (H1 j). by destruct (v_adopt v); cbn in *; congruence.
  - intros j. by rewrite H1, H2.
  - by rewrite E3, E4.
  - rewrite E4. congruence.
  - intros j rest Hj. specialize (H2 j). rewrite Hj in H2. cbn in H2. by rewrite bool_decide_true in H2.
Qed.

Lemma sinv_opened v rest id :
  sinv v -> v_adopt v = AOpen id rest ->
  sinv (set_adopt (ASession (List.length (v_chans v)) rest)
    (mkSvc (v_adopt v) (v_next v) (v_sessions v) (v_chans v ++ [mkChan None false GNone]) (v_cancelled v) (v_err v)
      (v_regClosed v) (v_unlinked v) (v_close v))).
Proof.
  intros Hi Ha. pose proof (sinv_before v Hi ltac:(congruence)) as Hb. destruct Hi.
  assert (Hcase : forall j d, (v_chans v ++ [mkChan None false GNone]) !! j = Some d ->
    j = List.length (v_chans v) /\ d = mkChan None false GNone \/ j <> List.length (v_chans v) /\ v_chans v !! j = Some d).
  { intros j d [H|[H1 H2]]%lookup_app_Some; [right; split; [apply lookup_lt_Some in H; lia|done]|].
    left. apply list_lookup_singleton_Some in H2 as [? <-]. split; [lia|done]. }
  split; cbn [set_adopt v_chans v_adopt v_next v_sessions v_close]; try done.
  - intros j d [[-> ->]|[Hne Hd]]%Hcase; [right; right; left; cbn; by rewrite bool_decide_true|].
    destruct (si_chans0 j d Hd) as [?|[?|[H|?]]]; [by left|by right; left|rewrite Ha in H; done|by right; right; right].
  - intros j d [[-> ->]|[Hne Hd]]%Hcase; cbn; [by rewrite bool_decide_true|]. rewrite bool_decide_false by congruence.
    rewrite <-(si_run0 j d Hd), Ha. done.
  - intros j. rewrite length_app. cbn. intros [H|[H|H]]; [specialize (si_range0 j (or_introl H)); lia| |].
    + specialize (si_range0 j (or_intror (or_introl H))). lia.
    + apply bool_decide_eq_true in H. lia.
  - congruence.
  - intros j d o [[-> ->]|[Hne Hd]]%Hcase; [done|eauto].
  - intros j j' d d' o [[-> ->]|[Hne Hd]]%Hcase [[-> ->]|[Hne' Hd']]%Hcase; try done. eauto.
  - intros j r d [= <- <-] [[_ ->]|[Hne _]]%Hcase; done.
Qed.

Lemma sinv_step l v v' : sinv v -> svc_step l v = Some v' -> sinv v'.
Proof.
  intros Hi. destruct l as [id|e| |ok|ok|k gone|]; cbn [svc_step].
  - destruct (v_adopt v) as [[]| | | | | |] eqn:Ha; try done. destruct id; intros [= <-]; [|done].
    apply (sinv_idle v); [done|by rewrite Ha|done|congruence|done|done|done|done].
  - destruct (v_adopt v) as [[]| | | | | |] eqn:Ha; try done. intros [= <-]. apply (sinv_idle v); [done|by rewrite Ha|done|congruence|done|done|done|done].
  - destruct (v_adopt v) as [[[|id rest]|]| | | | | |] eqn:Ha; try done; intros [= <-]; (apply (sinv_idle v); [done|by rewrite Ha|done|congruence|done|done|done|done]).
  - destruct (v_adopt v) as [|id rest| | | | |] eqn:Ha; try done. destruct ok; intros [= <-].
    + rewrite <-Ha. by eapply sinv_opened.
    + apply (sinv_idle v); [done|by rewrite Ha|done|congruence|done|done|done|done].
  - by apply sinv_adopt.
  - destruct (v_chans v !! k) as [c|] eqn:Hc; [|done]. by apply sinv_serve.
  - by apply sinv_close.
Qed.

Lemma sinv_reach scan ls v : svc_run ls (svc_start scan) = Some v -> sinv v.
Proof.
  assert (Hgen : forall v0, sinv v0 -> svc_run ls v0 = Some v -> sinv v).
  { induction ls as [|l ls IH]; intros v0 Hi; cbn; [by intros [= <-]|]. destruct (svc_step l v0) as [v1|] eqn:E; [|done].
    apply IH. by eapply sinv_step. }
  apply Hgen. split; cbn; try done. intros k [?%not_elem_of_nil|[?|?]]; done.
Qed.

(** ** Theorems *)

(** C37: a service leaves no client behind. When [Close] has returned, the goroutine that
    adopts has ended, and every channel that it ever opened is closed, or the goroutine of
    its session is about to close it; also those of clients that were being adopted when
    [Close] began. The sessions of a service have different ordinals. *)
Theorem Close_leaves_no_session (scan : list nat) (ls : list vlabel) (v : svc) :
  svc_run ls (svc_start scan) = Some v ->
  (v_close v = VDone -> v_adopt v = AEnded /\
     forall k c, v_chans v !! k = Some c -> ch_closed c = true \/ ch_run c = GClose) /\
  (forall k k' c c' o, v_chans v !! k = Some c -> v_chans v !! k' = Some c' -> ch_ordinal c = Some o -> ch_ordinal c' = Some o -> k = k').
Proof.
  intros Hr. destruct (sinv_reach scan ls v Hr). split; [|done]. intros Hcl. rewrite Hcl in si_ended0. specialize (si_ended0 eq_refl).
  split; [done|]. intros k c Hc. destruct (si_chans0 k c Hc) as [?|[?|[H|[_ [H|H]]]]]; [by left|by right| | |].
  - rewrite si_ended0 in H. done.
  - by rewrite Hcl in H.
  - by rewrite Hcl in H.
Qed.

(** ** Witnesses *)

(** A client of the scan, one that knocks and goes, and one that is adopted while [Close]
    runs. *)
Definition svc_demo : list vlabel :=
  [VNext; VOpens true; VAdopts true; VAdopts true; VNext; VKnock (Some 5%nat); VOpens true; VAdopts true; VAdopts true;
   VServes 1 true; VServes 1 true; VServes 1 true; VKnock (Some 6%nat); VCloses; VOpens true; VAdopts true; VAdopts false; VAdopts true; VCloses;
   VAdopts true; VFails ContextEnded; VCloses; VCloses; VServes 0 false; VCloses; VCloses].
Definition svc_end : svc := default (svc_start []) (svc_run svc_demo (svc_start [4%nat])).

Lemma svc_demo_run : svc_run svc_demo (svc_start [4%nat]) = Some svc_end.
Proof. vm_compute. reflexivity. Qed.

Lemma Close_leaves_no_session_witness : ch_closed (mkChan (Some 0) true GForget) = true \/ GForget = GClose.
Proof.
  refine (proj2 (proj1 (Close_leaves_no_session [4%nat] svc_demo svc_end svc_demo_run) _) 0%nat (mkChan (Some 0) true GForget) _);
    vm_compute; reflexivity.
Defined.
