(* ===== verification/Names.v ===== *)
(** * Names of queues ([src/name.go], [src/name_unix.go], [src/service.go])

    A name points at an instance through two files: the name file, whose lock the
    creator holds, and the file with the incarnation of the instance. The first part has
    the incarnations and the scan for the clients of a service. The second part
    interleaves the calls that create, remove and sweep one name, one access of the file
    system at a time. *)

From Stdlib Require Import ZArith Lia Bool String.
From coqutil Require Import Byte.
From stdpp Require Import base numbers list option.
From S2P Require Import Prelude Ipc GoStd.

(** ** Incarnations *)

Definition incarnationLen : nat := 16.

(** On the bytes of [rand.Read]. *)
Definition newIncarnation (raw : list byte) : list byte := hex_EncodeToString raw.

Definition parseIncarnation (content : list byte) : option (list byte) :=
  if negb (List.length content =? incarnationLen)%nat then None
  else match hex_DecodeString content with None => None | Some _ => Some content end.

Definition dot : list byte := list_byte_of_string ".".
Definition instanceName (name inc : list byte) : list byte := name ++ dot ++ inc.

(** ** Strings *)

(** [strings.CutPrefix] and [strings.CutSuffix]. *)
Fixpoint CutPrefix (s prefix : list byte) {struct prefix} : option (list byte) :=
  match prefix, s with
  | [], _ => Some s
  | b :: prefix, c :: s => if Byte.eqb b c then CutPrefix s prefix else None
  | _ :: _, [] => None
  end.

Definition CutSuffix (s suffix : list byte) : option (list byte) :=
  option_map (@rev byte) (CutPrefix (rev s) (rev suffix)).

(** ** The files of a name *)

Definition namePrefix : list byte := list_byte_of_string "go-ipc-".
Definition nameSuffix : list byte := list_byte_of_string ".name".
Definition incSuffix : list byte := list_byte_of_string ".inc".

(** Below the runtime directory. *)
Definition namePath (name : list byte) : list byte := namePrefix ++ name ++ nameSuffix.
Definition incPath (name : list byte) : list byte := namePrefix ++ name ++ incSuffix.

Definition serviceClientPrefix : list byte := list_byte_of_string ".c.".
Definition chanOpenerToCreator : list byte := list_byte_of_string ".o2c".
Definition chanCreatorToOpener : list byte := list_byte_of_string ".c2o".

(** The channel of a client, as [Connect] and [adopt] name it. *)
Definition client_channel (name id : list byte) : list byte := name ++ serviceClientPrefix ++ id.

(** On the entries of the runtime directory; [None] when it cannot be read. *)
Fixpoint scan_entries (name : list byte) (entries : list (list byte)) : list (list byte) :=
  match entries with
  | [] => []
  | entry :: entries =>
      let ids := scan_entries name entries in
      match CutPrefix entry (namePrefix ++ name ++ serviceClientPrefix) with
      | None => ids
      | Some rest =>
          match CutSuffix rest (chanOpenerToCreator ++ nameSuffix) with
          | None => ids
          | Some id => match parseIncarnation id with Some _ => id :: ids | None => ids end
          end
      end
  end.

Definition scanClients (name : list byte) (entries : option (list (list byte))) : list (list byte) :=
  match entries with None => [] | Some entries => scan_entries name entries end.

(** What [sweepDir] does for an entry of the directory: [sweepLife] of a socket,
    [sweepName] of a name, or nothing. *)
Inductive sweep : Type := SweepLife (entry : list byte) | SweepName (name : list byte).

Definition HasPrefix (s prefix : list byte) : bool := match CutPrefix s prefix with Some _ => true | None => false end.
Definition HasSuffix (s suffix : list byte) : bool := match CutSuffix s suffix with Some _ => true | None => false end.

Definition sweep_entry (entry : list byte) : list sweep :=
  if HasPrefix entry (list_byte_of_string "go-ipc-life-") && HasSuffix entry (list_byte_of_string ".sock") then [SweepLife entry]
  else
    match CutPrefix entry namePrefix with
    | None => []
    | Some name =>
        match match CutSuffix name nameSuffix with Some base => Some base | None => CutSuffix name incSuffix end with
        | None => []
        | Some base => match validateName (string_of_list_byte base) with None => [SweepName base] | Some _ => [] end
        end
    end.

Definition sweepDir (entries : option (list (list byte))) : list sweep :=
  match entries with None => [] | Some entries => mjoin (sweep_entry <$> entries) end.

Lemma CutPrefix_spec s prefix rest : CutPrefix s prefix = Some rest <-> s = prefix ++ rest.
Proof.
  revert s. induction prefix as [|b prefix IH]; intros s; [by split; [intros [= ->]|intros ->]|].
  destruct s as [|c s]; [done|]. cbn. destruct (Byte.eqb b c) eqn:E.
  - apply Byte.byte_dec_bl in E as ->. rewrite IH. split; [by intros ->|by intros [= ->]].
  - split; [done|]. intros [= -> _]. by rewrite Byte.byte_dec_lb in E.
Qed.

Lemma CutSuffix_spec s suffix rest : CutSuffix s suffix = Some rest <-> s = rest ++ suffix.
Proof.
  unfold CutSuffix. destruct (CutPrefix (rev s) (rev suffix)) as [r|] eqn:E; cbn.
  - apply CutPrefix_spec in E. apply (f_equal (@rev byte)) in E. rewrite rev_involutive, rev_app_distr, rev_involutive in E.
    subst s. split; [by intros [= ->]|]. intros H. apply app_inv_tail in H. by subst.
  - split; [done|]. intros ->. rewrite rev_app_distr in E.
    assert (CutPrefix (rev suffix ++ rev rest) (rev suffix) = Some (rev rest)) by by apply CutPrefix_spec. congruence.
Qed.

Lemma parseIncarnation_same content inc : parseIncarnation content = Some inc -> inc = content.
Proof. unfold parseIncarnation. destruct (negb _); [done|]. destruct (hex_DecodeString content); [by intros [= <-]|done]. Qed.

Lemma hex_digit_char v : (0 <= v < 16)%Z -> hex_digit (hex_char v) = Some v.
Proof.
  intros Hv. assert (v ∈ seqZ 0 16) as Hin by (apply elem_of_seqZ; lia). vm_compute in Hin.
  repeat (apply elem_of_cons in Hin as [->|Hin]; [reflexivity|]). by apply not_elem_of_nil in Hin.
Qed.

Lemma hex_roundtrip raw : hex_DecodeString (hex_EncodeToString raw) = Some raw.
Proof.
  induction raw as [|b raw IH]; [done|]. pose proof (byte.unsigned_range b) as Hb.
  change (hex_EncodeToString (b :: raw)) with
    (hex_char (byte.unsigned b / 16) :: hex_char (byte.unsigned b mod 16) :: hex_EncodeToString raw).
  cbn [hex_DecodeString]. rewrite !hex_digit_char, IH.
  - do 2 f_equal. rewrite Z.mul_comm, <-Z.div_mod by lia. apply byte.of_Z_unsigned.
  - apply Z.mod_pos_bound. lia.
  - split; [apply Z.div_pos; lia|apply Z.div_lt_upper_bound; lia].
Qed.

(** A fresh incarnation is one that a name file can hold. *)
Lemma newIncarnation_parses raw :
  List.length raw = 8%nat -> parseIncarnation (newIncarnation raw) = Some (newIncarnation raw).
Proof.
  intros Hl. unfold parseIncarnation, newIncarnation. rewrite hex_roundtrip.
  assert (List.length (hex_EncodeToString raw) = 2 * List.length raw)%nat as ->; [|by rewrite Hl].
  clear Hl. induction raw as [|b raw IH]; [done|].
  change (hex_EncodeToString (b :: raw)) with
    (hex_char (byte.unsigned b / 16) :: hex_char (byte.unsigned b mod 16) :: hex_EncodeToString raw).
  cbn [List.length]. rewrite IH. lia.
Qed.

(** Every name whose name file is left in the directory is swept. *)
Lemma sweepDir_names entries name :
  validateName (string_of_list_byte name) = None -> namePath name ∈ entries -> SweepName name ∈ sweepDir (Some entries).
Proof.
  intros Hv Hin. cbn. apply list_elem_of_join. exists (sweep_entry (namePath name)). split.
  2:{ apply list_elem_of_fmap. by exists (namePath name). }
  unfold sweep_entry. assert (HasSuffix (namePath name) (list_byte_of_string ".sock") = false) as ->.
  { unfold HasSuffix. destruct (CutSuffix _ _) as [r|] eqn:E; [|done]. apply CutSuffix_spec in E. unfold namePath in E.
    rewrite app_assoc in E. apply (f_equal (@rev byte)) in E. rewrite !rev_app_distr in E. cbn in E. discriminate E. }
  rewrite andb_false_r. unfold namePath. rewrite (proj2 (CutPrefix_spec _ _ (name ++ nameSuffix)) eq_refl).
  rewrite (proj2 (CutSuffix_spec _ _ name) eq_refl), Hv. by left.
Qed.

(** ** The lock of a name *)

(** Why a call takes the lock: to create the queue, or to sweep the name. *)
Inductive job : Set := JCreate | JSweep.

(** Where a call on the name is. A file is named by its inode, and an instance by a
    number in place of its incarnation. *)
Inductive npc : Type :=
| NIdle
| NFlock (j : job) (ino : nat)              (* [lockName]: the name file is open *)
| NCheck (j : job) (ino : nat)              (* it is locked *)
| NPrev (j : job) (ino : nat)               (* [previous]: the lock is on the file of the name *)
| NRemove (j : job) (ino old : nat)         (* [removeInstance] of the previous instance *)
| NBuild (ino : nat)                        (* [build], from [newIncarnation] on *)
| NPublish (ino inc : nat)                  (* [publish] *)
| NWrite (ino inc file : nat)               (* its write to the file it opened *)
| NLive (ino inc : nat)                     (* [createQueue] returned *)
| NClosed (inc : nat)                       (* [Close] released the lock *)
| NUnlink (held : option nat) (inc : nat)   (* [Unlink] of the queue: [unlinkName] *)
| NUnlinkInc (held : option nat) (inc : nat) (* [removeName]: the file with the incarnation *)
| NUnlinkName (held : option nat) (inc : nat) (* and the name file *)
| NUnlinked (held : option nat) (inc : nat)
| NSweepInc (ino : nat)                     (* [removeName] of a sweep *)
| NSweepName (ino : nat)
| NRelease (ino : nat).

(** The inode that a call has locked. *)
Definition holds_lock (p : npc) : option nat :=
  match p with
  | NIdle | NFlock _ _ | NClosed _ => None
  | NCheck _ ino | NPrev _ ino | NRemove _ ino _ | NBuild ino | NPublish ino _ | NWrite ino _ _ | NLive ino _
  | NSweepInc ino | NSweepName ino | NRelease ino => Some ino
  | NUnlink held _ | NUnlinkInc held _ | NUnlinkName held _ | NUnlinked held _ => held
  end.

(** The name file, as the inode at its path; the file with the incarnation, as the
    inode at its path and its content, [None] while it is empty; the instances that exist, and all that were made; the
    next inode; the calls. *)
Record names : Type := mkNames {
  n_name : option nat; n_inc : option (nat * option nat); n_inst : list nat; n_made : list nat; n_next : nat;
  n_procs : list npc }.

Inductive nlabel : Type :=
| NStart (j : job)       (* [lockName] begins: the open of the name file *)
| NGo                    (* the next access *)
| NFresh (inc : nat)     (* [newIncarnation] and the events and the segment of the instance *)
| NClose                 (* [Close] of the queue *)
| NDoUnlink              (* [Unlink] of the queue: [removeInstance] *)
| NDie.                  (* the process dies: the kernel closes its files *)

Definition set_proc (i : nat) (p : npc) (s : names) : names :=
  mkNames (n_name s) (n_inc s) (n_inst s) (n_made s) (n_next s) (<[i := p]> (n_procs s)).
Definition set_inst (l : list nat) (s : names) : names :=
  mkNames (n_name s) (n_inc s) l (n_made s) (n_next s) (n_procs s).
Definition set_inc (f : option (nat * option nat)) (s : names) : names :=
  mkNames (n_name s) f (n_inst s) (n_made s) (n_next s) (n_procs s).
Definition set_name (f : option nat) (s : names) : names :=
  mkNames f (n_inc s) (n_inst s) (n_made s) (n_next s) (n_procs s).

(** [lockName] opens the name file, and makes it when there is none. *)
Definition open_name (i : nat) (j : job) (s : names) : names :=
  match n_name s with
  | Some ino => set_proc i (NFlock j ino) s
  | None =>
      set_proc i (NFlock j (n_next s))
        (mkNames (Some (n_next s)) (n_inc s) (n_inst s) (n_made s) (S (n_next s)) (n_procs s))
  end.

(** [filelock.Take] without waiting: no other open file has the lock. *)
Definition flock_free (ino : nat) (s : names) : bool :=
  forallb (fun p => negb (bool_decide (holds_lock p = Some ino))) (n_procs s).

(** [removeInstance]. *)
Definition remove_instance (inc : nat) (s : names) : names :=
  set_inst (filter (fun i => i <> inc) (n_inst s)) s.

(** [previous], and the part of [unlinkName] that reads: the incarnation in its file. *)
Definition read_inc (s : names) : option nat := match n_inc s with Some (_, c) => c | None => None end.

(** [readName]: what an open of the queue finds. *)
Definition readName (s : names) : option nat := match n_name s with None => None | Some _ => read_inc s end.

Definition after_remove (j : job) (ino : nat) : npc := match j with JCreate => NBuild ino | JSweep => NSweepInc ino end.

(** The next access of the call [i], which is at [p]. *)
Definition names_go (i : nat) (p : npc) (s : names) : option names :=
  match p with
  | NFlock j ino => Some (set_proc i (if flock_free ino s then NCheck j ino else NIdle) s)
  | NCheck j ino => Some (if bool_decide (n_name s = Some ino) then set_proc i (NPrev j ino) s else open_name i j s)
  | NPrev j ino =>
      Some (set_proc i (match read_inc s with Some old => NRemove j ino old | None => after_remove j ino end) s)
  | NRemove j ino old => Some (set_proc i (after_remove j ino) (remove_instance old s))
  | NPublish ino inc =>
      match n_inc s with
      | Some (file, _) => Some (set_proc i (NWrite ino inc file) s)
      | None =>
          Some (set_proc i (NWrite ino inc (n_next s))
            (mkNames (n_name s) (Some (n_next s, None)) (n_inst s) (n_made s) (S (n_next s)) (n_procs s)))
      end
  | NWrite ino inc file =>
      Some (set_proc i (NLive ino inc)
        (match n_inc s with
         | Some (f, _) => if (f =? file)%nat then set_inc (Some (f, Some inc)) s else s
         | None => s
         end))
  | NUnlink held inc =>
      Some (set_proc i (if bool_decide (read_inc s = Some inc) then NUnlinkInc held inc else NUnlinked held inc) s)
  | NUnlinkInc held inc => Some (set_proc i (NUnlinkName held inc) (set_inc None s))
  | NUnlinkName held inc => Some (set_proc i (NUnlinked held inc) (set_name None s))
  | NSweepInc ino => Some (set_proc i (NSweepName ino) (set_inc None s))
  | NSweepName ino => Some (set_proc i (NRelease ino) (set_name None s))
  | NRelease ino => Some (set_proc i NIdle s)
  | NIdle | NBuild _ | NLive _ _ | NClosed _ | NUnlinked _ _ => None
  end.

Definition names_step (i : nat) (l : nlabel) (s : names) : option names :=
  match n_procs s !! i with
  | None => None
  | Some p =>
      match l with
      | NGo => names_go i p s
      | NStart j => match p with NIdle => Some (open_name i j s) | _ => None end
      | NFresh inc =>
          match p with
          | NBuild ino =>
              if bool_decide (inc ∈ n_made s) then None
              else Some (set_proc i (NPublish ino inc)
                     (mkNames (n_name s) (n_inc s) (inc :: n_inst s) (inc :: n_made s) (n_next s) (n_procs s)))
          | _ => None
          end
      | NClose =>
          match p with
          | NLive _ inc => Some (set_proc i (NClosed inc) s)
          | NUnlinked (Some _) inc => Some (set_proc i NIdle s)
          | _ => None
          end
      | NDoUnlink =>
          match p with
          | NLive ino inc => Some (set_proc i (NUnlink (Some ino) inc) (remove_instance inc s))
          | NClosed inc => Some (set_proc i (NUnlink None inc) (remove_instance inc s))
          | _ => None
          end
      | NDie => Some (set_proc i NIdle s)
      end
  end.

Definition names_start (n : nat) : names := mkNames None None [] [] 0 (replicate n NIdle).

Fixpoint names_run (ls : list (nat * nlabel)) (s : names) : option names :=
  match ls with
  | [] => Some s
  | (i, l) :: ls => match names_step i l s with Some s => names_run ls s | None => None end
  end.


(** ** One holder at a time *)

(** The file whose lock a call has found to be the one of the name, while the call has
    not removed it. *)
Definition current (p : npc) : option nat :=
  match p with
  | NPrev _ ino | NRemove _ ino _ | NBuild ino | NPublish ino _ | NWrite ino _ _ | NLive ino _
  | NUnlink (Some ino) _ | NUnlinkInc (Some ino) _ | NUnlinkName (Some ino) _ | NSweepInc ino | NSweepName ino => Some ino
  | _ => None
  end.

(** The call removes a name whose lock it does not hold. *)
Definition unlinks_unlocked (p : npc) : bool :=
  match p with NUnlink None _ | NUnlinkInc None _ | NUnlinkName None _ => true | _ => false end.

(** What a call relies on of the incarnation file and of the instances. *)
Definition relies (s : names) (p : npc) : Prop :=
  match p with
  | NPublish _ inc => inc ∈ n_inst s
  | NWrite _ inc file => inc ∈ n_inst s /\ exists c, n_inc s = Some (file, c)
  | NLive _ inc => inc ∈ n_inst s /\ exists file, n_inc s = Some (file, Some inc)
  | _ => True
  end.

Record ninv (s : names) : Prop := {
  ni_locks : forall i j p q ino, n_procs s !! i = Some p -> n_procs s !! j = Some q ->
    holds_lock p = Some ino -> holds_lock q = Some ino -> i = j;
  ni_current : forall i p ino, n_procs s !! i = Some p -> current p = Some ino -> n_name s = Some ino;
  ni_locked : forall i p, n_procs s !! i = Some p -> unlinks_unlocked p = false;
  ni_relies : forall i p, n_procs s !! i = Some p -> relies s p }.

(** The runs in which no queue is unlinked after it was closed. *)
Inductive NReach (n : nat) : names -> Prop :=
| NReachStart : NReach n (names_start n)
| NReachStep i l s s' :
    NReach n s -> names_step i l s = Some s' ->
    (forall inc, n_procs s !! i = Some (NClosed inc) -> l <> NDoUnlink) -> NReach n s'.

Lemma current_holds p ino : current p = Some ino -> holds_lock p = Some ino.
Proof. by destruct p as [| | | | | | | | | |[]|[]|[]|[]| | |]. Qed.

Lemma one_current s i j p q ino ino' :
  ninv s -> n_procs s !! i = Some p -> n_procs s !! j = Some q -> current p = Some ino -> current q = Some ino' -> i = j.
Proof.
  intros Hi Hp Hq Cp Cq. assert (ino' = ino) as ->.
  { pose proof (ni_current s Hi i p ino Hp Cp). pose proof (ni_current s Hi j q ino' Hq Cq). congruence. }
  eapply (ni_locks s Hi i j p q ino); [done|done|by apply current_holds..].
Qed.

Lemma relies_idle s p : current p = None -> relies s p.
Proof. by destruct p as [| | | | | | | | | |[]|[]|[]|[]| | |]. Qed.

(** A step of the call [i] to [p'] that keeps its lock or gives it up, and that may change
    the files only while [i] is the current holder. *)
Lemma ninv_step s s' i p p' :
  ninv s -> n_procs s !! i = Some p -> n_procs s' = <[i := p']> (n_procs s) ->
  (forall ino, holds_lock p' = Some ino -> holds_lock p = Some ino \/ flock_free ino s = true) ->
  (current p <> None \/ (n_name s = n_name s' \/ n_name s = None) /\ n_inc s' = n_inc s /\ n_inst s' = n_inst s) ->
  (forall ino, current p' = Some ino -> n_name s' = Some ino) -> unlinks_unlocked p' = false -> relies s' p' ->
  ninv s'.
Proof.
  intros Hi Hp Hprocs Hlock Hfiles Hcur Hunl Hrel.
  assert (Hfree : forall j q ino, j <> i -> n_procs s !! j = Some q -> holds_lock p' = Some ino -> holds_lock q = Some ino -> False).
  { intros j q ino Hne Hq H1 H2. destruct (Hlock ino H1) as [H|H].
    - apply Hne. eapply (ni_locks s Hi j i q p ino); done.
    - unfold flock_free in H. rewrite forallb_forall in H. specialize (H q).
      rewrite H2, bool_decide_true in H by done. discriminate H. apply list_elem_of_In, list_elem_of_lookup. by exists j. }
  assert (Hother : forall j q ino, j <> i -> n_procs s !! j = Some q -> current q = Some ino ->
    (n_name s = n_name s' /\ n_inc s' = n_inc s /\ n_inst s' = n_inst s)).
  { intros j q ino Hne Hq Cq. destruct Hfiles as [Cp|[[Hn|Hn] [H1 H2]]]; [|done|].
    - destruct (current p) as [ino'|] eqn:E; [|done]. exfalso. apply Hne. by eapply (one_current s j i q p).
    - pose proof (ni_current s Hi j q ino Hq Cq). congruence. }
  split.
  - intros j k q r ino. rewrite Hprocs. intros [[-> ->]|[Hj Hq]]%moved_cases [[-> ->]|[Hk Hr]]%moved_cases H1 H2.
    + done.
    + exfalso. eapply (Hfree k r); done.
    + exfalso. eapply (Hfree j q); done.
    + by eapply (ni_locks s Hi).
  - intros j q ino. rewrite Hprocs. intros [[-> ->]|[Hj Hq]]%moved_cases Cq; [by apply Hcur|].
    destruct (Hother j q ino) as [<- _]; [done..|]. by eapply (ni_current s Hi).
  - intros j q. rewrite Hprocs. intros [[-> ->]|[Hj Hq]]%moved_cases; [done|]. by eapply (ni_locked s Hi).
  - intros j q. rewrite Hprocs. intros [[-> ->]|[Hj Hq]]%moved_cases; [done|].
    destruct (current q) as [ino|] eqn:Cq; [|by apply relies_idle].
    destruct (Hother j q ino) as (_ & H1 & H2); [done..|]. pose proof (ni_relies s Hi j q Hq) as Hq'.
    destruct q; cbn in *; rewrite ?H1, ?H2; done.
Qed.

Lemma open_name_inv i j s p :
  ninv s -> n_procs s !! i = Some p -> ninv (open_name i j s).
Proof.
  intros Hi Hp. unfold open_name. destruct (n_name s) as [ino|] eqn:Hn; (eapply ninv_step; [done|done|done|done| |done|done|done]).
  - right. split; [by left|done].
  - right. split; [by right|done].
Qed.

(** A step of the holder that leaves the name file alone. *)
Lemma holder_step s s' i p p' ino :
  ninv s -> n_procs s !! i = Some p -> current p = Some ino -> n_procs s' = <[i := p']> (n_procs s) ->
  holds_lock p' = Some ino \/ holds_lock p' = None -> current p' = None \/ current p' = Some ino /\ n_name s' = n_name s ->
  unlinks_unlocked p' = false -> relies s' p' -> ninv s'.
Proof.
  intros Hi Hp Hc Hprocs Hl Hcur Hu Hr. eapply ninv_step; [done|done|done| | | |done|done].
  - intros ino' H'. left. rewrite (current_holds p ino Hc). destruct Hl; congruence.
  - left. by rewrite Hc.
  - intros ino' H'. pose proof (ni_current s Hi i p ino Hp Hc). destruct Hcur as [|[? ->]]; congruence.
Qed.

Lemma ninv_go i p s s' : ninv s -> n_procs s !! i = Some p -> names_go i p s = Some s' -> ninv s'.
Proof.
  intros Hi Hp Hgo. pose proof (ni_locked s Hi i p Hp) as Hu. pose proof (ni_relies s Hi i p Hp) as Hrel.
  destruct p as [|j ino|j ino|j ino|j ino old|ino|ino inc|ino inc file|ino inc|inc|[ino|] inc|[ino|] inc|[ino|] inc|held inc|ino|ino|ino];
    try done; cbn [names_go] in Hgo.
  - injection Hgo as <-. destruct (flock_free ino s) eqn:Hf; (eapply ninv_step; [done|done|done| | |done|done|done]); try done.
    + intros ? [= <-]. by right.
    + right. split; [by left|done].
    + right. split; [by left|done].
  - injection Hgo as <-. case_bool_decide as Hn; [|by eapply open_name_inv].
    eapply ninv_step; [done|done|done| | | |done|done].
    + intros ? [= <-]. by left.
    + right. split; [by left|done].
    + by intros ? [= <-].
  - injection Hgo as <-. destruct (read_inc s); [|destruct j]; (eapply (holder_step s); [done|done|done|done|by left|by right|done|done]).
  - injection Hgo as <-. destruct j; (eapply (holder_step s); [done|done|done|done|by left|by right|done|done]).
  - destruct (n_inc s) as [[file c]|] eqn:E; injection Hgo as <-; (eapply (holder_step s); [done|done|done|done|by left|by right|done|]);
      cbn in *; eauto.
  - injection Hgo as <-. destruct Hrel as (Hin & c & Hc). rewrite Hc, Nat.eqb_refl.
    eapply (holder_step s); [done|done|done|done|by left|by right|done|]. cbn. eauto.
  - injection Hgo as <-. case_bool_decide; (eapply (holder_step s); [done|done|done|done|by left| |done|done]); [by right|by left].
  - injection Hgo as <-. eapply (holder_step s); [done|done|done|done|by left|by right|done|done].
  - injection Hgo as <-. eapply (holder_step s); [done|done|done|done|by left|by left|done|done].
  - injection Hgo as <-. eapply (holder_step s); [done|done|done|done|by left|by right|done|done].
  - injection Hgo as <-. eapply (holder_step s); [done|done|done|done|by left|by left|done|done].
  - injection Hgo as <-. eapply ninv_step; [done|done|done|done| |done|done|done]. right. split; [by left|done].
Qed.

Lemma ninv_reach n s : NReach n s -> ninv s.
Proof.
  induction 1 as [|i l s s' _ Hi Hstep Hd].
  { split; cbn; intros; try (by match goal with H : replicate _ _ !! _ = Some _ |- _ => apply lookup_replicate in H as [-> _] end). }
  unfold names_step in Hstep. destruct (n_procs s !! i) as [p|] eqn:Hp; [|done].
  destruct l as [j| |inc| | |].
  - destruct p; try done. injection Hstep as <-. by eapply open_name_inv.
  - by eapply ninv_go.
  - destruct p as [| | | | |ino| | | | | | | | | | |]; try done. case_bool_decide; [done|]. injection Hstep as <-.
    eapply (holder_step s); [done|done|done|done|by left|by right|done|]. cbn. by left.
  - destruct p as [| | | | | | | |ino inc| | | | |[ino|] inc| | |]; try done; injection Hstep as <-.
    + eapply (holder_step s); [done|done|done|done|by right|by left|done|done].
    + eapply ninv_step; [done|done|done|done| |done|done|done]. right. split; [by left|done].
  - destruct p as [| | | | | | | |ino inc|inc| | | | | | |]; try done; [|by destruct (Hd inc)]. injection Hstep as <-.
    eapply (holder_step s); [done|done|done|done|by left|by right|done|done].
  - injection Hstep as <-. eapply ninv_step; [done|done|done|done| |done|done|done]. right. split; [by left|done].
Qed.

(** ** Theorems *)


(** Call 0 creates the queue and closes it; call 1 takes the lock and reads the name of
    the old instance before call 0 unlinks, and publishes its own before call 0 removes
    the name file; call 2 then creates the queue. *)
Definition unlink_race : list (nat * nlabel) :=
  [(0, NStart JCreate); (0, NGo); (0, NGo); (0, NGo); (0, NFresh 1); (0, NGo); (0, NGo); (0, NClose);
   (1, NStart JCreate); (1, NGo); (1, NGo); (1, NGo);
   (0, NDoUnlink); (0, NGo); (0, NGo);
   (1, NGo); (1, NFresh 2); (1, NGo); (1, NGo);
   (0, NGo);
   (2, NStart JCreate); (2, NGo); (2, NGo); (2, NGo); (2, NGo); (2, NFresh 3); (2, NGo); (2, NGo)]%nat.

(** a queue that is unlinked after it was closed, as the service and its clients do,
    can take the name from another queue: there is a run in which two queues of the same
    name live, and the instance of one was removed by the creation of the other. *)
Theorem unlink_after_close_steals_name :
  exists s ino ino', names_run unlink_race (names_start 3) = Some s /\
    n_procs s !! 1%nat = Some (NLive ino 2) /\ n_procs s !! 2%nat = Some (NLive ino' 3) /\ ~ (2%nat ∈ n_inst s) /\
    readName s = Some 3%nat.
Proof.
  do 3 eexists. split; [vm_compute; reflexivity|]. split; [reflexivity|]. split; [reflexivity|]. split; [|reflexivity].
  cbn. intros [?|?%not_elem_of_nil]%elem_of_cons; done.
Qed.

(** the scan of a service that starts finds exactly the clients whose channel has a
    name: the ids that are incarnations and for which the file that [lockName] makes for
    the receiving end of the client's channel is there. *)
Theorem scanClients_exact (name id : list byte) (entries : list (list byte)) :
  id ∈ scanClients name (Some entries) <->
  parseIncarnation id = Some id /\ namePath (client_channel name id ++ chanOpenerToCreator) ∈ entries.
Proof.
  cbn [scanClients]. induction entries as [|e entries IH]; cbn [scan_entries].
  { split; [by intros ?%not_elem_of_nil|by intros [_ ?%not_elem_of_nil]]. }
  assert (Hpath : namePath (client_channel name id ++ chanOpenerToCreator) =
    (namePrefix ++ name ++ serviceClientPrefix) ++ id ++ chanOpenerToCreator ++ nameSuffix).
  { unfold namePath, client_channel. by rewrite <-!app_assoc. }
  rewrite elem_of_cons.
  destruct (CutPrefix e _) as [rest|] eqn:E1.
  2:{ rewrite IH. split; [by intros [? ?]; auto|]. intros [Hid [He|?]]; [|done]. exfalso.
      rewrite <-He, Hpath in E1. by rewrite (proj2 (CutPrefix_spec _ _ _) eq_refl) in E1. }
  apply CutPrefix_spec in E1. destruct (CutSuffix rest _) as [id'|] eqn:E2.
  2:{ rewrite IH. split; [by intros [? ?]; auto|]. intros [Hid [He|?]]; [|done]. exfalso.
      rewrite E1, Hpath in He. apply app_inv_head in He. subst rest. by rewrite (proj2 (CutSuffix_spec _ _ _) eq_refl) in E2. }
  apply CutSuffix_spec in E2. subst rest.
  assert (Hid : parseIncarnation id = Some id /\ namePath (client_channel name id ++ chanOpenerToCreator) = e <->
    parseIncarnation id = Some id /\ id = id').
  { rewrite Hpath, E1. split; intros [? H]; (split; [done|]); [apply app_inv_head, app_inv_tail in H; done|by rewrite H]. }
  destruct (parseIncarnation id') as [x|] eqn:E3.
  - pose proof (parseIncarnation_same _ _ E3) as ->. rewrite elem_of_cons, IH. split; [|tauto].
    intros [->|[? ?]]; [|tauto]. tauto.
  - rewrite IH. split; [tauto|]. intros [Hp [He|?]]; [|done]. destruct (proj1 Hid (conj Hp He)) as [_ ->]. congruence.
Qed.

(** ** Witnesses *)

Definition names_demo : list (nat * nlabel) :=
  [(0, NStart JCreate); (0, NGo); (0, NGo); (0, NGo); (0, NFresh 1); (0, NGo); (0, NGo); (0, NDie);
   (1, NStart JCreate); (1, NGo); (1, NGo); (1, NGo); (1, NGo); (1, NFresh 2); (1, NGo); (1, NGo)]%nat.

Definition calm (s : names) (i : nat) (l : nlabel) : bool :=
  match n_procs s !! i, l with Some (NClosed _), NDoUnlink => false | _, _ => true end.

Fixpoint calm_names (ls : list (nat * nlabel)) (s : names) : bool :=
  match ls with
  | [] => true
  | (i, l) :: ls => calm s i l && match names_step i l s with Some s => calm_names ls s | None => false end
  end.

Lemma names_run_reach n ls s s' : NReach n s -> calm_names ls s = true -> names_run ls s = Some s' -> NReach n s'.
Proof.
  revert s. induction ls as [|[i l] ls IH]; intros s Hr; cbn; [by intros _ [= <-]|].
  intros [Hc Hrest]%andb_true_iff. destruct (names_step i l s) as [s1|] eqn:E; [|done]. apply IH; [|done].
  eapply NReachStep; [done|done|]. intros inc Hp ->. unfold calm in Hc. by rewrite Hp in Hc.
Qed.

Definition names_end : names := default (names_start 0) (names_run names_demo (names_start 2)).

