(* ===== verification/NameWin.v ===== *)
(** * Names on Windows ([src/name_windows.go])

    The creator of a queue holds the file of the name open, with no write sharing and
    with delete-on-close; the file dies with its handle. Readers open it for a moment.
    The steps are the system calls of [lockName], [publish], [release], [unlink] and
    [readName] of any number of processes, interleaved. The directory entry of one name
    follows the rules of the file system: an open with write access fails while another
    handle shares only reads; a file whose last holder closed it while a reader has it
    open is delete-pending, and opens of it fail; a POSIX unlink removes the entry at
    once. *)

From Stdlib Require Import Strings.Byte Lia Bool List.
From stdpp Require Import base numbers list list_numbers option.
From S2P Require Import Prelude Ipc GoStd Names.

#[local] Open Scope list_scope.

(** A creator: before [lockName]; holding the name, before [publish]; after it; with the
    name unlinked and the handle open; refused; after [release] or its exit. *)
Inductive wnpc : Type := WnIdle | WnHeld | WnLive | WnUnlinked | WnRefused | WnGone.

(** What [readName] returns: the instance, no such name, or a file without an instance. *)
Inductive name_result : Type := NameIs (inc : list byte) | NoName | NotReady.

(** A reader: before [CreateFile]; with the file of a creator open; after its read; returned. *)
Inductive rnpc : Type := RnIdle | RnOpen (f : nat) | RnRead (f : nat) (r : name_result) | RnDone (r : name_result).

#[global] Instance wnpc_eq_dec : EqDecision wnpc.
Proof. solve_decision. Defined.

(** The entry of the name: the file of the creator that made it, and whether it is
    delete-pending. [wn_content] has the content of each creator's file. *)
Record winname : Type := mkWin {
  wn_entry : option nat; wn_pending : bool; wn_content : list (list byte); wn_creators : list wnpc; wn_readers : list rnpc }.

Definition wn_entry_set (o : option nat) (p : bool) (s : winname) : winname :=
  mkWin o p (wn_content s) (wn_creators s) (wn_readers s).
Definition wn_creator (i : nat) (pc : wnpc) (s : winname) : winname :=
  mkWin (wn_entry s) (wn_pending s) (wn_content s) (<[i := pc]> (wn_creators s)) (wn_readers s).
Definition wn_reader (r : nat) (pc : rnpc) (s : winname) : winname :=
  mkWin (wn_entry s) (wn_pending s) (wn_content s) (wn_creators s) (<[r := pc]> (wn_readers s)).

Definition reads_file (f : nat) (pc : rnpc) : bool :=
  match pc with RnOpen g | RnRead g _ => Nat.eqb f g | _ => false end.

(** Some reader has the file open. *)
Definition is_read (f : nat) (l : list rnpc) : bool := existsb (reads_file f) l.

(** ** The steps *)

Inductive wnlabel : Type :=
  | WLock (i : nat) (ok : bool) | WPublish (i : nat) (inc : list byte) | WUnlink (i : nat) (ok : bool) | WRelease (i : nat)
  | WRead (r : nat).

(** [lockName]: a sharing violation or a denied access is [ErrInUse]. *)
Definition win_lockName (i : nat) (ok : bool) (s : winname) : option winname :=
  match wn_creators s !! i with
  | Some WnIdle =>
      match wn_entry s with
      | None => if ok then Some (wn_creator i WnHeld (wn_entry_set (Some i) false s)) else Some (wn_creator i WnRefused s)
      | Some _ => Some (wn_creator i WnRefused s)
      end
  | _ => None
  end.

Definition win_publish (i : nat) (inc : list byte) (s : winname) : option winname :=
  match wn_creators s !! i with
  | Some WnHeld =>
      Some (wn_creator i WnLive (mkWin (wn_entry s) (wn_pending s) (<[i := inc]> (wn_content s)) (wn_creators s) (wn_readers s)))
  | _ => None
  end.

(** [unlink]: the handle stays open; an error leaves the name. *)
Definition win_unlink (i : nat) (ok : bool) (s : winname) : option winname :=
  match wn_creators s !! i with
  | Some (WnHeld | WnLive) => if ok then Some (wn_creator i WnUnlinked (wn_entry_set None false s)) else Some s
  | Some WnUnlinked => Some s
  | _ => None
  end.

(** [release], or the exit of the process: the file goes with its handle, or when the
    last reader closes it. *)
Definition win_release (i : nat) (s : winname) : option winname :=
  match wn_creators s !! i with
  | Some (WnHeld | WnLive) =>
      Some (wn_creator i WnGone (if is_read i (wn_readers s) then wn_entry_set (Some i) true s else wn_entry_set None false s))
  | Some WnUnlinked => Some (wn_creator i WnGone s)
  | _ => None
  end.

Definition win_readName (r : nat) (s : winname) : option winname :=
  match wn_readers s !! r with
  | Some RnIdle =>
      match wn_entry s with
      | Some f => if wn_pending s then Some (wn_reader r (RnDone NoName) s) else Some (wn_reader r (RnOpen f) s)
      | None => Some (wn_reader r (RnDone NoName) s)
      end
  | Some (RnOpen f) =>
      let content := take (incarnationLen + 1) (default [] (wn_content s !! f)) in
      Some (wn_reader r (RnRead f match parseIncarnation content with Some inc => NameIs inc | None => NotReady end) s)
  | Some (RnRead f res) =>
      let s := wn_reader r (RnDone res) s in
      Some (if bool_decide (wn_entry s = Some f) && wn_pending s && negb (is_read f (wn_readers s)) then wn_entry_set None false s else s)
  | _ => None
  end.

Definition win_step (l : wnlabel) (s : winname) : option winname :=
  match l with
  | WLock i ok => win_lockName i ok s
  | WPublish i inc => win_publish i inc s
  | WUnlink i ok => win_unlink i ok s
  | WRelease i => win_release i s
  | WRead r => win_readName r s
  end.

Fixpoint win_run (ls : list wnlabel) (s : winname) : option winname :=
  match ls with
  | [] => Some s
  | l :: ls => match win_step l s with Some s => win_run ls s | None => None end
  end.

(** [n] creators and [m] readers of a name that does not exist. *)
Definition win_start (n m : nat) : winname := mkWin None false (replicate n []) (replicate n WnIdle) (replicate m RnIdle).

(** The instance that an open of the name finds now. *)
Definition win_resolve (s : winname) : name_result :=
  match wn_entry s with
  | Some f => if wn_pending s then NoName
              else match parseIncarnation (default [] (wn_content s !! f)) with Some inc => NameIs inc | None => NotReady end
  | None => NoName
  end.

(** ** The invariant *)

Definition holds_name (pc : wnpc) : bool := match pc with WnHeld | WnLive => true | _ => false end.

Record win_ok (s : winname) : Prop := {
  wo_len : List.length (wn_content s) = List.length (wn_creators s);
  wo_holder : forall i pc, wn_creators s !! i = Some pc -> (holds_name pc = true <-> wn_entry s = Some i /\ wn_pending s = false);
  wo_entry : forall f, wn_entry s = Some f -> exists pc, wn_creators s !! f = Some pc /\ pc <> WnIdle;
  wo_pending : wn_pending s = true -> exists f, wn_entry s = Some f /\ is_read f (wn_readers s) = true }.

Lemma win_start_ok n m : win_ok (win_start n m).
Proof.
  split; cbn; try done; [by rewrite !length_replicate|]. intros i pc [-> _]%lookup_replicate. by split; [|intros [? _]].
Qed.

Lemma is_read_insert f r pc l old :
  l !! r = Some old -> reads_file f old = false -> is_read f l = true -> is_read f (<[r := pc]> l) = true.
Proof.
  unfold is_read. intros Hr Ho Hl. apply existsb_exists in Hl as (x & Hx & Hf). apply existsb_exists. exists x. split; [|done].
  apply list_elem_of_In in Hx as (k & Hk)%list_elem_of_lookup. apply list_elem_of_In, list_elem_of_lookup. exists k.
  rewrite list_lookup_insert_ne; [done|]. intros ->. congruence.
Qed.

Lemma is_read_here f r pc l : (r < List.length l)%nat -> reads_file f pc = true -> is_read f (<[r := pc]> l) = true.
Proof.
  intros Hr Hf. apply existsb_exists. exists pc. split; [|done]. apply list_elem_of_In, list_elem_of_lookup. exists r.
  by rewrite list_lookup_insert_eq.
Qed.

(** A creator that holds the name is the one of the entry; no other holds it. *)
Lemma win_holder s i pc : win_ok s -> wn_creators s !! i = Some pc -> holds_name pc = true -> wn_entry s = Some i /\ wn_pending s = false.
Proof. intros Hok Hi Hp. by apply (wo_holder _ Hok i pc Hi). Qed.

(** Creator [i] moves and the entry changes: from free to its own, or from its own to
    free or pending. *)
Lemma win_ok_creator s i pc pc' e p :
  win_ok s -> wn_creators s !! i = Some pc -> pc' <> WnIdle -> (wn_entry s = None \/ wn_entry s = Some i /\ wn_pending s = false) ->
  (e = None /\ p = false \/ e = Some i /\ p = negb (holds_name pc')) ->
  (holds_name pc' = true -> e = Some i) -> (p = true -> is_read i (wn_readers s) = true) ->
  win_ok (mkWin e p (wn_content s) (<[i := pc']> (wn_creators s)) (wn_readers s)).
Proof.
  intros [H1 H2 H3 H4] Hi Hid He Hep Hh Hp. split; cbn.
  - by rewrite length_insert.
  - intros j x Hj. destruct (moved_cases _ _ _ _ _ Hj) as [[-> ->]|[Hne Hj']].
    + destruct Hep as [[-> ->]|[-> ->]]; [split; [intros H'; by discriminate (Hh H')|by intros [? _]]|].
      destruct (holds_name pc'); [done|]. by split; [|intros [_ ?]].
    + rewrite (H2 j x Hj'). split; intros [E _]; exfalso.
      * destruct He as [He|[He _]]; congruence.
      * destruct Hep as [[-> _]|[-> _]]; congruence.
  - intros f ->. destruct Hep as [[? _]|[[= ->] _]]; [done|]. exists pc'. split; [by eapply moved_here|done].
  - intros ->. destruct Hep as [[_ ?]|[-> _]]; [done|]. exists i. auto.
Qed.

Lemma win_ok_reader s r old pc :
  win_ok s -> wn_readers s !! r = Some old ->
  (wn_pending s = true -> forall f, wn_entry s = Some f -> is_read f (<[r := pc]> (wn_readers s)) = true) -> win_ok (wn_reader r pc s).
Proof.
  intros [H1 H2 H3 H4] Hr Hp. split; cbn; try done. intros Hpd. destruct (H4 Hpd) as (f & Hf & _). exists f. split; [done|]. by apply Hp.
Qed.

Lemma win_step_ok l s s' : win_ok s -> win_step l s = Some s' -> win_ok s'.
Proof.
  intros Hok. destruct l as [i ok|i inc|i ok|i|r]; cbn.
  - unfold win_lockName. destruct (wn_creators s !! i) as [[]|] eqn:Hi; try done.
    assert (Href : win_ok (wn_creator i WnRefused s)).
    { destruct Hok as [H1 H2 H3 H4]. split; cbn; try done; [by rewrite length_insert| |].
      - intros j x Hj. destruct (moved_cases _ _ _ _ _ Hj) as [[-> ->]|[_ Hj']]; [|by apply H2]. exact (H2 i WnIdle Hi).
      - intros f Hf. destruct (H3 f Hf) as (x & Hx & Hn). destruct (decide (f = i)) as [->|Hne]; [congruence|].
        exists x. by rewrite list_lookup_insert_ne. }
    destruct (wn_entry s) eqn:He; [by intros [= <-]|]. destruct ok; intros [= <-]; [|done].
    apply (win_ok_creator s i WnIdle WnHeld (Some i) false Hok Hi); try done; [by left|by right].
  - unfold win_publish. destruct (wn_creators s !! i) as [[]|] eqn:Hi; try done. intros [= <-].
    destruct (win_holder s i _ Hok Hi eq_refl) as [He Hp]. destruct Hok as [H1 H2 H3 H4].
    assert (Hx : win_ok (mkWin (Some i) false (wn_content s) (<[i := WnLive]> (wn_creators s)) (wn_readers s))).
    { eapply win_ok_creator; [by split| exact Hi|done|by right|by right|done|done]. }
    destruct Hx as [X1 X2 X3 X4]. unfold wn_creator. rewrite He, Hp. split; cbn; try done. by rewrite !length_insert.
  - unfold win_unlink. destruct (wn_creators s !! i) as [pc|] eqn:Hi; [|done].
    assert (Hu : holds_name pc = true -> win_ok (wn_creator i WnUnlinked (wn_entry_set None false s))).
    { intros Hh. destruct (win_holder s i _ Hok Hi Hh). apply (win_ok_creator s i pc WnUnlinked None false Hok Hi); try done; [by right|by left]. }
    destruct pc; try done; try (by intros [= <-]); destruct ok; intros [= <-]; auto.
  - unfold win_release. destruct (wn_creators s !! i) as [pc|] eqn:Hi; [|done].
    assert (Hu : holds_name pc = true -> win_ok (wn_creator i WnGone (if is_read i (wn_readers s) then wn_entry_set (Some i) true s else wn_entry_set None false s))).
    { intros Hh. destruct (win_holder s i _ Hok Hi Hh). destruct (is_read i (wn_readers s)) eqn:Hr.
      - apply (win_ok_creator s i pc WnGone (Some i) true Hok Hi); try done; by right.
      - apply (win_ok_creator s i pc WnGone None false Hok Hi); try done; [by right|by left]. }
    destruct pc; try done; intros [= <-]; auto. destruct Hok as [H1 H2 H3 H4]. split; cbn; try done; [by rewrite length_insert| |].
    + intros j x Hj. destruct (moved_cases _ _ _ _ _ Hj) as [[-> ->]|[_ Hj']]; [|by apply H2]. exact (H2 i WnUnlinked Hi).
    + intros f Hf. destruct (H3 f Hf) as (x & Hx & Hn). destruct (decide (f = i)) as [->|Hne]; [exists WnGone; split; [by eapply moved_here|done]|].
      exists x. by rewrite list_lookup_insert_ne.
  - unfold win_readName. destruct (wn_readers s !! r) as [[|f|f res|]|] eqn:Hr; try done.
    + assert (Hd : win_ok (wn_reader r (RnDone NoName) s)).
      { eapply win_ok_reader; [done..|]. intros Hp f Hf. destruct (wo_pending _ Hok Hp) as (g & Hg & Hrd).
        eapply is_read_insert; [done|done|congruence]. }
      destruct (wn_entry s) as [f|] eqn:He; [|by intros [= <-]]. destruct (wn_pending s) eqn:Hp; intros [= <-]; [done|].
      eapply win_ok_reader; [done..|]. congruence.
    + intros [= <-]. eapply win_ok_reader; [done..|]. intros Hp g Hg. destruct (wo_pending _ Hok Hp) as (g' & Hg' & Hrd).
      rewrite Hg in Hg'. injection Hg' as <-. destruct (Nat.eqb_spec g f) as [->|Hne].
      * apply is_read_here; [by eapply lookup_lt_Some|cbn; by apply Nat.eqb_refl].
      * eapply is_read_insert; [done| |done]. cbn. by apply Nat.eqb_neq.
    + intros [= <-]. destruct (_ && _) eqn:Hc.
      * apply andb_true_iff in Hc as [[Hc1%bool_decide_eq_true Hc2]%andb_true_iff _]. cbn in Hc1, Hc2. destruct Hok as [H1 H2 H3 H4].
        split; cbn; try done. intros j x Hj. rewrite (H2 j x Hj), Hc2. split; [by intros [_ ?]|by intros [? _]].
      * eapply win_ok_reader; [done..|]. intros Hp g Hg. destruct (wo_pending _ Hok Hp) as (g' & Hg' & Hrd).
        rewrite Hg in Hg'. injection Hg' as <-. destruct (Nat.eqb_spec g f) as [->|Hne].
        -- cbn in Hc. rewrite bool_decide_true, Hp in Hc by done. cbn in Hc. by apply negb_false_iff in Hc.
        -- eapply is_read_insert; [done| |done]. cbn. by apply Nat.eqb_neq.
Qed.

Lemma win_run_ok ls s s' : win_ok s -> win_run ls s = Some s' -> win_ok s'.
Proof.
  revert s. induction ls as [|l ls IH]; intros s Hok; cbn; [by intros [= <-]|].
  destruct (win_step l s) as [s1|] eqn:E; [|done]. apply IH. by eapply win_step_ok.
Qed.

(** C25: On Windows a name lives exactly as long as its holder. While a creator has
    published its instance and has neither released nor unlinked it, the name resolves to
    that instance, no other creator holds the name and every [lockName] is refused; and
    when nobody holds the name it resolves to nothing, and its entry is gone as soon as
    no reader has the file open. *)
Theorem win_name_lives_with_holder (n m : nat) (ls : list wnlabel) (s : winname) :
  win_run ls (win_start n m) = Some s ->
  (forall i inc, wn_creators s !! i = Some WnLive -> wn_content s !! i = Some inc -> parseIncarnation inc = Some inc ->
    win_resolve s = NameIs inc /\
    (forall j pc, wn_creators s !! j = Some pc -> holds_name pc = true -> j = i) /\
    (forall j ok, wn_creators s !! j = Some WnIdle -> win_lockName j ok s = Some (wn_creator j WnRefused s))) /\
  ((forall i pc, wn_creators s !! i = Some pc -> holds_name pc = false) ->
    win_resolve s = NoName /\ (wn_entry s = None \/ exists f, wn_entry s = Some f /\ is_read f (wn_readers s) = true)).
Proof.
  intros Hr. pose proof (win_run_ok _ _ _ (win_start_ok n m) Hr) as Hok. split.
  - intros i inc Hi Hc Hp. destruct (win_holder s i _ Hok Hi eq_refl) as [He Hpd]. split_and!.
    + unfold win_resolve. rewrite He, Hpd, Hc. cbn [default]. unfold default. cbn. by rewrite Hp.
    + intros j pc Hj Hh. destruct (win_holder s j _ Hok Hj Hh). congruence.
    + intros j ok Hj. unfold win_lockName. by rewrite Hj, He.
  - intros Hno. unfold win_resolve. destruct (wn_entry s) as [f|] eqn:He; [|auto].
    destruct (wo_entry _ Hok f He) as (pc & Hf & _). destruct (wn_pending s) eqn:Hp.
    + split; [done|]. right. destruct (wo_pending _ Hok Hp) as (g & Hg & Hrd). exists g. split; [congruence|done].
    + pose proof (proj2 (wo_holder _ Hok f pc Hf) (conj He Hp)) as Hh. rewrite (Hno f pc Hf) in Hh. done.
Qed.

(** ** A witness *)

Definition win_inc : list byte := newIncarnation (replicate 8 Byte.x5a).

(** A creator publishes, a second one is refused, and a reader has the file open. *)
Definition win_demo : list wnlabel := [WLock 0 true; WPublish 0 win_inc; WLock 1 true; WRead 0].
Definition win_end : winname := default (win_start 0 0) (win_run win_demo (win_start 3 1)).

Lemma win_name_lives_with_holder_witness :
  win_resolve win_end = NameIs win_inc /\
  win_lockName 2 true win_end = Some (wn_creator 2 WnRefused win_end).
Proof.
  assert (Hr : win_run win_demo (win_start 3 1) = Some win_end) by (vm_compute; reflexivity).
  destruct (proj1 (win_name_lives_with_holder 3 1 win_demo win_end Hr) 0%nat win_inc) as (H1 & _ & H2); [vm_compute; reflexivity..|].
  split; [exact H1|apply H2; vm_compute; reflexivity].
Defined.
