(* ===== verification/Life.v ===== *)
(** * The life socket of a process ([src/identity.go], [src/life_unix.go])

    A process listens on a socket whose name is its identity for as long as it lives. A
    dial that is refused means that it has exited: [isDead] then lets others take its
    claims, and [sweepLife] removes the socket. The steps here are the system calls of
    [listenLife], [Release] and [sweepLife] of any number of processes, interleaved, with
    processes that exit anywhere. A listener stays open until its process exits; what
    follows when an [Accept] of [serveLife] fails is in [LifeConn.v]. On Windows
    ([src/life_windows.go]) the socket keeps its mode, and the sweep of the directory looks
    at life sockets only. *)

From Stdlib Require Import Strings.Byte String Lia Bool ZArith List.
From coqutil Require Import Byte Word.LittleEndianList.
From stdpp Require Import base numbers list list_numbers option.
From S2P Require Import Prelude Ipc Recover GoStd Names.

#[local] Open Scope Z_scope.
#[local] Open Scope list_scope.

#[local] Instance byte_dec : EqDecision byte := Byte.byte_eq_dec.

(** ** Names *)

(** [fmt.Sprintf("%016x", id)]: the bytes of the word, the highest first. *)
Definition Sprintf_016x (id : Z) : list byte := hex_EncodeToString (rev (le_split 8 id)).

Definition lifePrefix : list byte := list_byte_of_string "go-ipc-life-".
Definition lifeSuffix : list byte := list_byte_of_string ".sock".

(** Below the runtime directory. *)
Definition lifePath (id : Z) : list byte := lifePrefix ++ Sprintf_016x id ++ lifeSuffix.
Definition lifeTmp (id : Z) : list byte := lifePath id ++ list_byte_of_string ".tmp".

(** The entries that the sweep of the directory dials. *)
Definition is_life (entry : list byte) : bool := HasPrefix entry lifePrefix && HasSuffix entry lifeSuffix.

(** ** The processes *)

(** A process: before [selfID]; with its socket bound, not yet listening; listening; with
    its mode set; with its socket in place; after [Release]; after a call that failed,
    with the socket closed; without a life socket; exited. *)
Inductive lpc : Type := LIdle | LBound | LListening | LReady | LLive | LReleased | LClosing | LFailed | LExited.

#[global] Instance lpc_eq_dec : EqDecision lpc.
Proof. solve_decision. Defined.

(** A sweeper: idle; before its dial; before its remove. *)
Inductive swpc : Type := SwIdle | SwDial (entry : list byte) | SwRemove (entry : list byte).

(** The identities of the processes, their counters, the sockets in the directory with
    the process that bound each, the sweepers, and the identities in [exited]. *)
Record lives : Type := mkLives {
  ids : list Z; lprocs : list lpc; dir : list byte -> option nat; sweepers : list swpc; exited : list Z }.

Definition set_dir (name : list byte) (o : option nat) (s : lives) : lives :=
  mkLives (ids s) (lprocs s) (fun n => if decide (n = name) then o else dir s n) (sweepers s) (exited s).
Definition set_lpc (i : nat) (pc : lpc) (s : lives) : lives :=
  mkLives (ids s) (<[i := pc]> (lprocs s)) (dir s) (sweepers s) (exited s).
Definition set_sw (k : nat) (pc : swpc) (s : lives) : lives :=
  mkLives (ids s) (lprocs s) (dir s) (<[k := pc]> (sweepers s)) (exited s).

(** A socket takes connections while its process lives and listens. *)
Definition listening (pc : lpc) : bool := match pc with LListening | LReady | LLive | LReleased => true | _ => false end.

(** What [net.Dial] returns: a connection, a refusal, no such file, or another error. *)
Inductive dialed : Type := Connected | Refused | NoFile | DialError.

Definition dial (name : list byte) (s : lives) : dialed :=
  match dir s name with
  | None => NoFile
  | Some i => if listening (default LExited (lprocs s !! i)) then Connected else Refused
  end.

Definition lifeGone (d : dialed) : bool := match d with Refused | NoFile => true | _ => false end.

(** [other] is a dial that fails for another reason than the state of the socket. *)
Definition isDead_ (other : bool) (id : Z) (s : lives) : bool :=
  if negb (watchable id) then false
  else if bool_decide (id ∈ exited s) then true
  else match (if other then DialError else dial (lifePath id) s) with
       | Connected => false
       | d => lifeGone d
       end.

(** [selfID]: a process that could not make its socket takes an identity that nobody can
    watch. *)
Definition self_id (id : Z) (pc : lpc) : Z := match pc with LFailed => Z.ldiff id watchable_bit | _ => id end.

(** ** The steps *)

(** [Release] of a process whose socket listens. One that fails changes nothing. *)
Definition Release_life (i : nat) (id : Z) (ok : bool) (s : lives) : option lives :=
  if ok then Some (set_lpc i LReleased (set_dir (lifePath id) None s)) else None.

(** One call of [listenLife] in [selfID], or of [Release]; [ok] is whether it works. *)
Definition life_go (i : nat) (ok : bool) (s : lives) : option lives :=
  match ids s !! i, lprocs s !! i with
  | Some id, Some pc =>
      match pc with
      | LIdle =>
          if ok && negb (bool_decide (is_Some (dir s (lifeTmp id)))) then Some (set_lpc i LBound (set_dir (lifeTmp id) (Some i) s))
          else Some (set_lpc i LFailed s)
      | LBound => Some (set_lpc i (if ok then LListening else LFailed) s)
      | LListening => Some (set_lpc i (if ok then LReady else LClosing) s)
      | LReady =>
          if ok then Some (set_lpc i LLive (set_dir (lifePath id) (Some i) (set_dir (lifeTmp id) None s)))
          else Some (set_lpc i LClosing s)
      | LClosing => Some (set_lpc i LFailed (if ok then set_dir (lifeTmp id) None s else s))
      | LLive => Release_life i id ok s
      | LReleased | LFailed | LExited => None
      end
  | _, _ => None
  end.

(** [listenLife] of [life_windows.go] renames the socket as soon as it listens. *)
Definition life_go_windows (i : nat) (ok : bool) (s : lives) : option lives :=
  match lprocs s !! i with
  | Some LListening => life_go i ok (set_lpc i LReady s)
  | _ => life_go i ok s
  end.

(** [sweepLife] of an entry that the listing of the directory gave, now or before. *)
Definition sweepLife (k : nat) (entry : list byte) (other : bool) (s : lives) : option lives :=
  match sweepers s !! k with
  | None => None
  | Some SwIdle => if is_life entry then Some (set_sw k (SwDial entry) s) else None
  | Some (SwDial n) => Some (set_sw k (match (if other then DialError else dial n s) with Refused => SwRemove n | _ => SwIdle end) s)
  | Some (SwRemove n) => Some (set_sw k SwIdle (set_dir n None s))
  end.

(** A watch of a process ends when the process exits; it enters its identity in [exited]. *)
Definition saw_exit (i : nat) (s : lives) : option lives :=
  match ids s !! i, lprocs s !! i with
  | Some id, Some LExited => Some (mkLives (ids s) (lprocs s) (dir s) (sweepers s) (id :: exited s))
  | _, _ => None
  end.

Inductive llabel : Type :=
  | LGo (windows : bool) (i : nat) (ok : bool) | LExit (i : nat) | LSweep (k : nat) (entry : list byte) (other : bool) | LSaw (i : nat).

Definition lives_step (l : llabel) (s : lives) : option lives :=
  match l with
  | LGo windows i ok => if windows then life_go_windows i ok s else life_go i ok s
  | LExit i => match lprocs s !! i with Some _ => Some (set_lpc i LExited s) | None => None end
  | LSweep k entry other => sweepLife k entry other s
  | LSaw i => saw_exit i s
  end.

Fixpoint lives_run (ls : list llabel) (s : lives) : option lives :=
  match ls with
  | [] => Some s
  | l :: ls => match lives_step l s with Some s => lives_run ls s | None => None end
  end.

(** Processes with these identities, [m] sweepers and an empty directory. *)
Definition lives_start (l : list Z) (m : nat) : lives :=
  mkLives l (replicate (List.length l) LIdle) (fun _ => None) (replicate m SwIdle) [].

(** ** Names of different processes differ *)

Lemma hex_inj a b : hex_EncodeToString a = hex_EncodeToString b -> a = b.
Proof. intros H. apply (f_equal hex_DecodeString) in H. rewrite !hex_roundtrip in H. by injection H. Qed.

Definition word (z : Z) : Prop := 0 <= z < 2 ^ 64.

Lemma lifePath_inj a b : word a -> word b -> lifePath a = lifePath b -> a = b.
Proof.
  unfold word. intros Ha Hb Hp. unfold lifePath in Hp. apply app_inv_head, app_inv_tail in Hp. apply hex_inj in Hp.
  apply (f_equal (@rev byte)) in Hp. rewrite !rev_involutive in Hp. apply (f_equal le_combine) in Hp.
  rewrite !le_combine_split in Hp. rewrite !Z.mod_small in Hp by (change (2 ^ (Z.of_nat 8 * 8)) with (2 ^ 64); lia). done.
Qed.

Lemma is_life_path id : is_life (lifePath id) = true.
Proof.
  unfold is_life, HasPrefix, HasSuffix, lifePath.
  rewrite (proj2 (CutPrefix_spec _ _ (Sprintf_016x id ++ lifeSuffix)) eq_refl).
  by rewrite (proj2 (CutSuffix_spec _ _ (lifePrefix ++ Sprintf_016x id))) by (by rewrite app_assoc).
Qed.

(** The sweep never touches a temporary name: it ends in another suffix. *)
Lemma is_life_tmp id : is_life (lifeTmp id) = false.
Proof.
  unfold is_life. apply andb_false_iff. right. unfold HasSuffix. destruct (CutSuffix _ _) as [rest|] eqn:E; [|done]. exfalso.
  apply CutSuffix_spec in E. unfold lifeTmp in E. apply (f_equal (@rev byte)) in E. rewrite !rev_app_distr in E. discriminate E.
Qed.

Lemma lifePath_tmp a b : lifePath a <> lifeTmp b.
Proof. intros H. pose proof (is_life_path a) as Ha. rewrite H, is_life_tmp in Ha. done. Qed.

Lemma lifeTmp_inj a b : word a -> word b -> lifeTmp a = lifeTmp b -> a = b.
Proof. intros Ha Hb H. apply app_inv_tail in H. by apply lifePath_inj. Qed.

(** [sweepStale] of [name_windows.go]. *)
Definition win_sweepStale (entries : option (list (list byte))) : list (list byte) :=
  match entries with None => [] | Some entries => filter (fun entry => is_life entry = true) entries end.

Definition dials (w : sweep) : bool := match w with SweepLife _ => true | SweepName _ => false end.

(** The sweep on Windows dials the life sockets that the sweep on Unix dials, in the same
    order. *)
Theorem win_sweep_same (entries : option (list (list byte))) :
  SweepLife <$> win_sweepStale entries = filter (fun w => dials w = true) (sweepDir entries).
Proof.
  destruct entries as [l|]; [|done]. unfold win_sweepStale, sweepDir. induction l as [|e l IH]; [done|].
  change (mjoin (sweep_entry <$> e :: l)) with (sweep_entry e ++ mjoin (sweep_entry <$> l)).
  rewrite list.filter_app, <-IH, filter_cons. unfold sweep_entry. fold lifePrefix lifeSuffix. fold (is_life e).
  destruct (is_life e) eqn:He; [by rewrite decide_True by done|]. rewrite decide_False by done.
  destruct (CutPrefix e namePrefix) as [name|]; [|done]. repeat case_match; done.
Qed.

(** ** The invariant *)

Record lives_ok (s : lives) : Prop := {
  lk_nodup : base.NoDup (ids s);
  lk_word : Forall word (ids s);
  (** a socket has the name of its process, and its final name only once it listens *)
  lk_dir : forall n i, dir s n = Some i -> exists id pc, ids s !! i = Some id /\ lprocs s !! i = Some pc /\
    (n = lifePath id /\ (pc = LLive \/ pc = LExited) \/ n = lifeTmp id);
  lk_live : forall i id, ids s !! i = Some id -> lprocs s !! i = Some LLive -> dir s (lifePath id) = Some i;
  lk_dial : forall k n, sweepers s !! k = Some (SwDial n) -> is_life n = true;
  lk_sweep : forall k n, sweepers s !! k = Some (SwRemove n) ->
    is_life n = true /\ forall i id, ids s !! i = Some id -> lifePath id = n -> lprocs s !! i = Some LExited;
  lk_exited : forall i id, id ∈ exited s -> ids s !! i = Some id -> lprocs s !! i = Some LExited }.

Lemma same_process s i j id id' :
  lives_ok s -> ids s !! i = Some id -> ids s !! j = Some id' -> lifePath id = lifePath id' -> i = j /\ id = id'.
Proof.
  intros Hok Hi Hj Hp. pose proof (lk_word _ Hok) as Hw. rewrite list.Forall_lookup in Hw.
  apply lifePath_inj in Hp; [|by eapply Hw..]. subst id'. split; [|done]. by eapply NoDup_lookup; [apply Hok|..].
Qed.

(** A process that has exited stays exited, and a step of one process is no step of another. *)
Lemma moved_exited (l : list lpc) (i : nat) (pc : lpc) (j : nat) : l !! i <> Some LExited -> l !! j = Some LExited -> <[i := pc]> l !! j = Some LExited.
Proof. intros Hi Hj. by rewrite list_lookup_insert_ne by congruence. Qed.

(** A process that is not live moves, and at most its temporary name changes. *)
Lemma ok_move s i id pc pc' d :
  lives_ok s -> ids s !! i = Some id -> lprocs s !! i = Some pc -> pc <> LLive -> pc <> LExited -> pc' <> LLive ->
  (forall n, n <> lifeTmp id -> d n = dir s n) -> (d (lifeTmp id) = None \/ d (lifeTmp id) = Some i \/ d (lifeTmp id) = dir s (lifeTmp id)) ->
  lives_ok (mkLives (ids s) (<[i := pc']> (lprocs s)) d (sweepers s) (exited s)).
Proof.
  intros Hok Hid Hpc Hl He Hl' Hd Ht. pose proof Hok as [N W D L SD SR E]. split; cbn; try done.
  - intros n j Hn. assert (Hn' : dir s n = Some j \/ n = lifeTmp id /\ j = i).
    { destruct (decide (n = lifeTmp id)) as [->|Hne]; [|left; by rewrite <-Hd]. destruct Ht as [Ht|[Ht|Ht]]; [congruence| |left; congruence].
      right. split; [done|congruence]. }
    destruct Hn' as [Hn'|[-> ->]].
    + destruct (D n j Hn') as (jd & jpc & Hj & Hjp & Hc). destruct (decide (j = i)) as [->|Hne].
      * rewrite Hid in Hj. injection Hj as <-. rewrite Hpc in Hjp. injection Hjp as <-. exists id, pc'.
        split; [done|]. split; [by eapply moved_here|]. destruct Hc as [[_ [?|?]]|?]; [done|done|by right].
      * exists jd, jpc. split; [done|]. by rewrite list_lookup_insert_ne.
    + exists id, pc'. split; [done|]. split; [by eapply moved_here|by right].
  - intros j jd Hj Hjp. destruct (moved_cases _ _ _ _ _ Hjp) as [[-> ?]|[Hne Hjp']]; [done|].
    rewrite Hd by apply lifePath_tmp. by apply L.
  - intros k n Hk. destruct (SR k n Hk) as [H1 H2]. split; [done|]. intros j jd Hj Hp. apply moved_exited; [congruence|by eapply H2].
  - intros j jd Hx Hj. apply moved_exited; [congruence|by eapply E].
Qed.

Lemma life_go_ok i ok s s' : lives_ok s -> life_go i ok s = Some s' -> lives_ok s'.
Proof.
  intros Hok. unfold life_go. destruct (ids s !! i) as [id|] eqn:Hid; [|done]. destruct (lprocs s !! i) as [pc|] eqn:Hpc; [|done].
  assert (Hmove : forall pc' d, pc <> LLive -> pc <> LExited -> pc' <> LLive -> (forall n, n <> lifeTmp id -> d n = dir s n) ->
    (d (lifeTmp id) = None \/ d (lifeTmp id) = Some i \/ d (lifeTmp id) = dir s (lifeTmp id)) ->
    lives_ok (mkLives (ids s) (<[i := pc']> (lprocs s)) d (sweepers s) (exited s))).
  { intros. by eapply ok_move. }
  pose proof Hok as [N W D L SD SR E]. destruct pc; try done.
  - destruct (_ && _); intros [= <-]; apply Hmove; cbn; try done; auto.
    + intros n Hn. by rewrite decide_False.
    + rewrite decide_True by done. auto.
  - intros [= <-]. apply Hmove; auto; by destruct ok.
  - intros [= <-]. apply Hmove; auto; by destruct ok.
  - destruct ok; intros [= <-]; [|apply Hmove; auto]. split; cbn; try done.
    + intros n j. case_decide as H1; [|case_decide as H2; [done|]].
      * intros [= <-]. exists id, LLive. split; [done|]. split; [by eapply moved_here|]. left. auto.
      * intros Hn. destruct (D n j Hn) as (jd & jpc & Hj & Hjp & Hc). destruct (decide (j = i)) as [->|Hne].
        -- rewrite Hid in Hj. injection Hj as <-. destruct Hc as [[? _]|?]; done.
        -- exists jd, jpc. split; [done|]. by rewrite list_lookup_insert_ne.
    + intros j jd Hj Hjp. destruct (moved_cases _ _ _ _ _ Hjp) as [[-> _]|[Hne Hjp']].
      * rewrite decide_True by congruence. done.
      * rewrite decide_False; [rewrite decide_False by apply lifePath_tmp; by apply L|].
        intros Hp. by destruct (same_process s j i jd id Hok Hj Hid Hp).
    + intros k n Hk. destruct (SR k n Hk) as [H1 H2]. split; [done|]. intros j jd Hj Hp. apply moved_exited; [congruence|by eapply H2].
    + intros j jd Hx Hj. apply moved_exited; [congruence|by eapply E].
  - unfold Release_life. destruct ok; [|done]. intros [= <-]. split; cbn; try done.
    + intros n j. case_decide as H1; [done|]. intros Hn. destruct (D n j Hn) as (jd & jpc & Hj & Hjp & Hc).
      destruct (decide (j = i)) as [->|Hne].
      * rewrite Hid in Hj. injection Hj as <-. exists id, LReleased. split; [done|]. split; [by eapply moved_here|].
        destruct Hc as [[? _]|?]; [done|by right].
      * exists jd, jpc. split; [done|]. by rewrite list_lookup_insert_ne.
    + intros j jd Hj Hjp. destruct (moved_cases _ _ _ _ _ Hjp) as [[-> ?]|[Hne Hjp']]; [done|].
      rewrite decide_False; [by apply L|]. intros Hp. by destruct (same_process s j i jd id Hok Hj Hid Hp).
    + intros k n Hk. destruct (SR k n Hk) as [H1 H2]. split; [done|]. intros j jd Hj Hp. apply moved_exited; [congruence|by eapply H2].
    + intros j jd Hx Hj. apply moved_exited; [congruence|by eapply E].
  - intros [= <-]. destruct ok; cbn; apply Hmove; cbn; auto.
    + intros n Hn. by rewrite decide_False.
    + rewrite decide_True by done. auto.
Qed.

Lemma life_go_windows_ok i ok s s' : lives_ok s -> life_go_windows i ok s = Some s' -> lives_ok s'.
Proof.
  intros Hok. unfold life_go_windows. destruct (lprocs s !! i) as [[]|] eqn:Hi; try (by apply life_go_ok). intros Hg.
  refine (life_go_ok i ok _ _ _ Hg). destruct (ids s !! i) as [id|] eqn:Hid; [eapply ok_move; try done; auto|].
  unfold life_go in Hg. cbn in Hg. by rewrite Hid in Hg.
Qed.

Lemma exit_ok i pc s : lives_ok s -> lprocs s !! i = Some pc -> lives_ok (set_lpc i LExited s).
Proof.
  intros Hok Hpc. pose proof Hok as [N W D L SD SR E].
  assert (Hstay : forall j, lprocs s !! j = Some LExited -> <[i := LExited]> (lprocs s) !! j = Some LExited).
  { intros j Hj. destruct (decide (j = i)) as [->|Hne]; [by eapply moved_here|by rewrite list_lookup_insert_ne]. }
  split; cbn; try done.
  - intros n j Hn. destruct (D n j Hn) as (jd & jpc & Hj & Hjp & Hc). destruct (decide (j = i)) as [->|Hne].
    + exists jd, LExited. split; [done|]. split; [by eapply moved_here|]. destruct Hc as [[? _]|?]; [left; auto|by right].
    + exists jd, jpc. split; [done|]. by rewrite list_lookup_insert_ne.
  - intros j jd Hj Hjp. destruct (moved_cases _ _ _ _ _ Hjp) as [[-> ?]|[Hne Hjp']]; [done|]. by apply L.
  - intros k n Hk. destruct (SR k n Hk) as [H1 H2]. split; [done|]. intros j jd Hj Hp. eapply Hstay, H2; done.
  - intros j jd Hx Hj. eapply Hstay, E; done.
Qed.

(** A refused dial of an entry that the sweep looks at is one of a process that exited. *)
Lemma refused_exited s n i id :
  lives_ok s -> is_life n = true -> dial n s = Refused -> ids s !! i = Some id -> lifePath id = n -> lprocs s !! i = Some LExited.
Proof.
  intros Hok Hl Hd Hi Hp. pose proof Hok as [N W D L SD SR E]. unfold dial in Hd. destruct (dir s n) as [j|] eqn:Hn; [|done].
  destruct (D n j Hn) as (jd & jpc & Hj & Hjp & [[Hjn Hc]|Hjn]).
  - destruct (same_process s i j id jd Hok Hi Hj) as [-> ->]; [congruence|]. rewrite Hjp in *. cbn in Hd. by destruct Hc as [-> | ->].
  - rewrite Hjn, is_life_tmp in Hl. done.
Qed.

Lemma sweepLife_ok k entry other s s' : lives_ok s -> sweepLife k entry other s = Some s' -> lives_ok s'.
Proof.
  intros Hok. unfold sweepLife. destruct (sweepers s !! k) as [pc|] eqn:Hk; [|done]. pose proof Hok as [N W D L SD SR E].
  destruct pc as [|n|n].
  - destruct (is_life entry) eqn:Hl; [|done]. intros [= <-]. split; cbn; try done.
    + intros k' n Hk'. destruct (moved_cases _ _ _ _ _ Hk') as [[-> [= ->]]|[_ H']]; [done|by eapply SD].
    + intros k' n Hk'. destruct (moved_cases _ _ _ _ _ Hk') as [[-> ?]|[_ H']]; [done|by eapply SR].
  - intros [= <-]. pose proof (SD k n Hk) as Hl. split; cbn; try done.
    + intros k' n' Hk'. destruct (moved_cases _ _ _ _ _ Hk') as [[-> H']|[_ H']]; [|by eapply SD].
      destruct other; [done|]. by destruct (dial n s).
    + intros k' n' Hk'. destruct (moved_cases _ _ _ _ _ Hk') as [[-> H']|[_ H']]; [|by eapply SR].
      destruct other; [done|]. destruct (dial n s) eqn:Hd; try done. injection H' as ->. split; [done|].
      intros i id Hi Hp. by eapply refused_exited.
  - intros [= <-]. destruct (SR k n Hk) as [Hl Hx]. split; cbn; try done.
    + intros n' j. case_decide; [done|]. apply D.
    + intros j jd Hj Hjp. rewrite decide_False; [by apply L|]. intros Hp. rewrite (Hx j jd Hj Hp) in Hjp. done.
    + intros k' n' Hk'. destruct (moved_cases _ _ _ _ _ Hk') as [[-> ?]|[_ H']]; [done|by eapply SD].
    + intros k' n' Hk'. destruct (moved_cases _ _ _ _ _ Hk') as [[-> ?]|[_ H']]; [done|by eapply SR].
Qed.

Lemma lives_step_ok l s s' : lives_ok s -> lives_step l s = Some s' -> lives_ok s'.
Proof.
  intros Hok. destruct l as [[] i ok|i|k entry other|i]; cbn.
  - by apply life_go_windows_ok.
  - by apply life_go_ok.
  - destruct (lprocs s !! i) eqn:Hi; [|done]. intros [= <-]. by eapply exit_ok.
  - by apply sweepLife_ok.
  - unfold saw_exit. destruct (ids s !! i) as [id|] eqn:Hid; [|done]. destruct (lprocs s !! i) as [[]|] eqn:Hi; try done.
    intros [= <-]. pose proof Hok as [N W D L SD SR E]. split; cbn; try done.
    intros j jd [->|Hx]%elem_of_cons Hj; [|by eapply E]. by rewrite (NoDup_lookup _ _ _ _ N Hj Hid).
Qed.

Lemma lives_start_ok l m : base.NoDup l -> Forall word l -> lives_ok (lives_start l m).
Proof.
  intros HN HW. split; cbn; try done.
  - intros i id _ H. by apply lookup_replicate in H as [? _].
  - intros k n H. by apply lookup_replicate in H as [? _].
  - intros k n H. by apply lookup_replicate in H as [? _].
  - by intros i id H%not_elem_of_nil.
Qed.

Lemma lives_run_ok ls s s' : lives_ok s -> lives_run ls s = Some s' -> lives_ok s' /\ ids s' = ids s.
Proof.
  revert s. induction ls as [|l ls IH]; intros s Hok; cbn; [by intros [= <-]|].
  destruct (lives_step l s) as [s1|] eqn:E; [|done]. intros Hr. destruct (IH s1 (lives_step_ok _ _ _ Hok E) Hr) as [H1 H2].
  split; [done|]. rewrite H2. clear -E. destruct l; cbn in E; unfold life_go_windows, life_go, Release_life, sweepLife, saw_exit in E; repeat case_match; simplify_eq; done.
Qed.

(** C8: A live process is never taken for dead. In every interleaving of processes that
    start, release and exit with others that dial and sweep, [isDead] is false of a
    process whose life socket is in place, however the dial ends, its socket takes
    connections, and no sweeper is about to remove it. *)
Theorem live_never_dead (l : list Z) (m : nat) (ls : list llabel) (s : lives) (i : nat) (id : Z) :
  base.NoDup l -> Forall word l -> lives_run ls (lives_start l m) = Some s ->
  l !! i = Some id -> lprocs s !! i = Some LLive ->
  dial (lifePath id) s = Connected /\ (forall other, isDead_ other id s = false) /\
  forall k, sweepers s !! k <> Some (SwRemove (lifePath id)).
Proof.
  intros HN HW Hr Hi Hl. destruct (lives_run_ok _ _ _ (lives_start_ok l m HN HW) Hr) as [Hok Hids]. cbn in Hids. rewrite <-Hids in Hi.
  assert (Hd : dial (lifePath id) s = Connected) by (unfold dial; rewrite (lk_live _ Hok i id Hi Hl), Hl; done).
  split; [done|]. split.
  - intros other. unfold isDead_. destruct (negb _); [done|]. rewrite bool_decide_eq_false_2.
    + destruct other; [done|]. by rewrite Hd.
    + intros Hx. rewrite (lk_exited _ Hok i id Hx Hi) in Hl. done.
  - intros k Hk. destruct (lk_sweep _ Hok k _ Hk) as [_ Hx]. rewrite (Hx i id Hi eq_refl) in Hl. done.
Qed.

(** C9: The death of a process is found by every check that can be made. Once a process that
    can be watched has exited or released its socket, in every later state and whether its
    socket was swept or not: [isDead] is true of it exactly when the dial does not fail for
    a reason of its own, such as a lack of descriptors, or a watch has seen the exit. A
    process that cannot be checked counts as alive. *)
Theorem dead_is_found (l : list Z) (m : nat) (ls : list llabel) (s : lives) (i : nat) (id : Z) :
  base.NoDup l -> Forall word l -> lives_run ls (lives_start l m) = Some s ->
  l !! i = Some id -> watchable id = true -> lprocs s !! i = Some LExited \/ lprocs s !! i = Some LReleased ->
  forall other, isDead_ other id s = true <-> other = false \/ id ∈ exited s.
Proof.
  intros HN HW Hr Hi Hw Hx. destruct (lives_run_ok _ _ _ (lives_start_ok l m HN HW) Hr) as [Hok Hids]. cbn in Hids. rewrite <-Hids in Hi.
  intros other. unfold isDead_. rewrite Hw. cbn [negb]. case_bool_decide as He; [tauto|].
  destruct other; [split; [done|by intros [?|?]]|]. split; [by left|intros _]. unfold dial. destruct (dir s (lifePath id)) as [j|] eqn:Hd; [|done].
  destruct (lk_dir _ Hok _ _ Hd) as (jd & jpc & Hj & Hjp & [[Hn Hc]|Hn]); [|by apply lifePath_tmp in Hn].
  destruct (same_process s i j id jd Hok Hi Hj Hn) as [-> ->]. rewrite Hjp in *. destruct Hx as [[= ->]|[= ->]]; [done|by destruct Hc].
Qed.

(** A process without a life socket is never taken for dead. *)
Theorem unwatched_never_dead (id : Z) (other : bool) (s : lives) : isDead_ other (self_id id LFailed) s = false.
Proof.
  unfold isDead_, self_id, watchable. assert (Z.land (Z.ldiff id watchable_bit) watchable_bit = 0) as ->; [|done].
  apply Z.bits_inj. intros n. rewrite Z.land_spec, Z.ldiff_spec, Z.bits_0. by destruct (Z.testbit id n), (Z.testbit watchable_bit n).
Qed.

(** ** Witnesses *)

Definition life_ids : list Z := [randomID 1; randomID 2].

(** The first process starts and the second starts and exits; a sweeper removes the
    socket of the second. *)
Definition life_demo : list llabel :=
  [LGo false 0 true; LGo true 1 true; LGo true 1 true; LGo false 0 true; LGo false 0 true; LGo true 1 true; LGo false 0 true; LExit 1;
   LSweep 0 (lifePath (randomID 2)) false; LSweep 0 [] false; LSweep 0 [] false; LSweep 0 (lifePath (randomID 1)) false; LSweep 0 [] false].
Definition life_end : lives := default (lives_start [] 0) (lives_run life_demo (lives_start life_ids 1)).

Lemma life_demo_runs : lives_run life_demo (lives_start life_ids 1) = Some life_end.
Proof.
  assert (Hr : forall (o : option lives) d, (match o with Some _ => true | None => false end) = true -> o = Some (default d o)) by (by intros []).
  apply Hr. vm_compute. reflexivity.
Qed.

Lemma life_ids_ok : base.NoDup life_ids /\ Forall word life_ids.
Proof. split; [apply (bool_decide_unpack _); vm_compute; reflexivity|repeat constructor; vm_compute; done]. Qed.

Lemma live_never_dead_witness : isDead_ false (randomID 1) life_end = false.
Proof.
  refine (proj1 (proj2 (live_never_dead life_ids 1 life_demo life_end 0 (randomID 1) (proj1 life_ids_ok) (proj2 life_ids_ok)
    life_demo_runs eq_refl _)) false).
  vm_compute. reflexivity.
Defined.

Lemma dead_is_found_witness : isDead_ false (randomID 2) life_end = true.
Proof.
  refine (proj2 (dead_is_found life_ids 1 life_demo life_end 1 (randomID 2) (proj1 life_ids_ok) (proj2 life_ids_ok) life_demo_runs eq_refl _
    (or_introl _) false) (or_introl eq_refl)).
  - vm_compute. reflexivity.
  - vm_compute. reflexivity.
Defined.
