(* ===== verification/LifeConn.v ===== *)
(** * Watching a process over its life socket ([src/identity.go])

    A watch of a process is a connection to its life socket that carries no bytes: it ends
    when the process exits. The steps are those of [serveLife] with its goroutines, of
    [openExit] and of the [wait] and [close] of the waiters that it returns, in any number
    of other processes, interleaved. After [serveLife] has returned nothing refers to the
    listener, and the garbage collector closes its descriptor. What a watch does when its
    wait returns is in Watch. *)

From Stdlib Require Import Lia Bool.
From stdpp Require Import base numbers list list_numbers option.
From S2P Require Import Prelude.

(** ** The state *)

(** The end of the watched process: waiting for [Accept]; in [io.Copy]; before
    [conn.Close]; closed. *)
Inductive kside : Type := KBacklog | KCopy | KClosing | KClosed.

(** What [wait] returned: [nil] for the end of the stream, or an error. *)
Inductive kwait : Type := KNil | KErr.

#[global] Instance kside_eq_dec : EqDecision kside.
Proof. solve_decision. Defined.

(** A connection: the end of the watched process, whether the watcher's end is open, whether
    the watcher called [close], and what its [wait] returned. *)
Record lconn : Type := mkLconn { k_side : kside; k_open : bool; k_cut : bool; k_done : option kwait }.

(** The watched process: whether it runs, whether [serveLife] has not returned, whether the
    descriptor of the listener is open, and the connections. *)
Record lifeserver : Type := mkLs { ls_alive : bool; ls_serving : bool; ls_listening : bool; ls_conns : list lconn }.

Definition set_lconn (c : nat) (k : lconn) (s : lifeserver) : lifeserver :=
  mkLs (ls_alive s) (ls_serving s) (ls_listening s) (<[c := k]> (ls_conns s)).

(** ** The steps *)

(** [openExit]: a dial is refused when no process listens. *)
Definition openExit (s : lifeserver) : option lifeserver :=
  if ls_alive s && ls_listening s
  then Some (mkLs true (ls_serving s) true (ls_conns s ++ [mkLconn KBacklog true false None])) else None.

(** The loop of [serveLife]: [Accept] returns the connection [c], or fails. *)
Definition serveLife (c : nat) (ok : bool) (s : lifeserver) : option lifeserver :=
  if negb (ls_alive s && ls_serving s) then None
  else if ok then
    match ls_conns s !! c with
    | Some (mkLconn KBacklog o cut r) => Some (set_lconn c (mkLconn KCopy o cut r) s)
    | _ => None
    end
  else Some (mkLs true false (ls_listening s) (ls_conns s)).

(** The finalizer of the listener, once [serveLife] has returned: the system closes the
    connections that wait in the backlog. *)
Definition unlistened (k : lconn) : lconn :=
  match k with mkLconn KBacklog o cut r => mkLconn KClosed o cut r | _ => k end.

Definition collect_listener (s : lifeserver) : option lifeserver :=
  if ls_alive s && negb (ls_serving s) && ls_listening s
  then Some (mkLs true false false (unlistened <$> ls_conns s)) else None.

(** The goroutine of a connection. Nobody writes to it, so [io.Copy] returns when the
    watcher's end is closed, and not before. *)
Definition hold_open (c : nat) (s : lifeserver) : option lifeserver :=
  if negb (ls_alive s) then None
  else
    match ls_conns s !! c with
    | Some (mkLconn KCopy false cut r) => Some (set_lconn c (mkLconn KClosing false cut r) s)
    | Some (mkLconn KClosing o cut r) => Some (set_lconn c (mkLconn KClosed o cut r) s)
    | _ => None
    end.

(** [connWaiter.close], also by the exit of the watcher. *)
Definition waiter_close (c : nat) (s : lifeserver) : option lifeserver :=
  match ls_conns s !! c with
  | Some (mkLconn side _ _ r) => Some (set_lconn c (mkLconn side false true r) s)
  | None => None
  end.

(** The read of [connWaiter.wait] returns when either end is closed: with an error when it
    is its own, and otherwise with the end of the stream or, if [reset], an error. *)
Definition waiter_wait (c : nat) (reset : bool) (s : lifeserver) : option lifeserver :=
  match ls_conns s !! c with
  | Some (mkLconn side o cut None) =>
      if negb o then Some (set_lconn c (mkLconn side false cut (Some KErr)) s)
      else if negb (ls_alive s) || bool_decide (side = KClosed)
      then Some (set_lconn c (mkLconn side false cut (Some (if reset then KErr else KNil))) s)
      else None
  | _ => None
  end.

Inductive klabel : Type :=
  | KOpen | KServe (c : nat) (ok : bool) | KCollect | KHold (c : nat) | KClose (c : nat) | KWait (c : nat) (reset : bool) | KExit.

Definition lserver_step (l : klabel) (s : lifeserver) : option lifeserver :=
  match l with
  | KOpen => openExit s
  | KServe c ok => serveLife c ok s
  | KCollect => collect_listener s
  | KHold c => hold_open c s
  | KClose c => waiter_close c s
  | KWait c reset => waiter_wait c reset s
  | KExit => if ls_alive s then Some (mkLs false (ls_serving s) (ls_listening s) (ls_conns s)) else None
  end.

Fixpoint lserver_run (ls : list klabel) (s : lifeserver) : option lifeserver :=
  match ls with
  | [] => Some s
  | l :: ls => match lserver_step l s with Some s => lserver_run ls s | None => None end
  end.

Definition lserver_start : lifeserver := mkLs true true true [].

(** ** The invariant *)

(** While the process runs, its end of a connection is closed only after the watcher's end,
    and that only by the watcher's [close]; unless the listener was collected first. *)
Definition lconn_ok (alive listening : bool) (k : lconn) : Prop :=
  (k_side k = KClosing -> k_open k = false) /\
  (k_side k = KClosed -> k_open k = false \/ listening = false) /\
  (k_open k = false \/ k_done k <> None -> k_cut k = true \/ alive = false \/ (listening = false /\ k_side k = KClosed)).

Record lserver_ok (s : lifeserver) : Prop := {
  lo_serving : ls_serving s = true -> ls_listening s = true;
  lo_conns : Forall (lconn_ok (ls_alive s) (ls_listening s)) (ls_conns s) }.

Lemma lconn_ok_exit b k : lconn_ok true b k -> lconn_ok false b k.
Proof. intros (H1 & H2 & H3). split_and!; auto. Qed.

Lemma lconn_ok_unlistened k : lconn_ok true true k -> lconn_ok true false (unlistened k).
Proof. destruct k as [[] o cut r]; intros (H1 & H2 & H3); split_and!; cbn in *; auto; naive_solver. Qed.

Lemma set_lconn_ok c k k' s :
  lserver_ok s -> ls_conns s !! c = Some k ->
  (lconn_ok (ls_alive s) (ls_listening s) k -> lconn_ok (ls_alive s) (ls_listening s) k') -> lserver_ok (set_lconn c k' s).
Proof.
  intros [Hs Hok] Hc Hk. split; [done|]. apply list.Forall_insert; [exact Hok|]. apply Hk.
  rewrite list.Forall_lookup in Hok. by eapply Hok.
Qed.

Lemma serve_ok c ok s s' : lserver_ok s -> serveLife c ok s = Some s' -> lserver_ok s'.
Proof.
  intros Hok. unfold serveLife. destruct (ls_alive s) eqn:Ha, (ls_serving s) eqn:Hs; try done. destruct ok.
  - destruct (ls_conns s !! c) as [[[] o cut r]|] eqn:Hc; try done. intros [= <-].
    pose proof (lo_serving _ Hok Hs) as Hl. eapply set_lconn_ok; [done..|]. intros (H1 & H2 & H3).
    rewrite Ha, Hl in *. cbn in *. split_and!; cbn; [done..|]. intros H. destruct (H3 H) as [?|[?|[? ?]]]; auto.
  - intros [= <-]. destruct Hok as [_ Hok]. rewrite Ha in Hok. by split.
Qed.

Lemma wait_ok c reset s s' : lserver_ok s -> waiter_wait c reset s = Some s' -> lserver_ok s'.
Proof.
  intros Hok. unfold waiter_wait. destruct (ls_conns s !! c) as [[side o cut [r|]]|] eqn:Hc; try done. destruct o; cbn.
  - destruct (ls_alive s) eqn:Ha; cbn; [case_bool_decide as Hb; [subst side|done]|]; intros [= <-];
      (eapply set_lconn_ok; [done..|]); rewrite Ha; intros (H1 & H2 & H3); split_and!; cbn in *; auto.
    intros _. destruct (H2 eq_refl); [done|auto].
  - intros [= <-]. eapply set_lconn_ok; [done..|]. intros (H1 & H2 & H3). split_and!; cbn in *; auto.
Qed.

Lemma lserver_step_ok l s s' : lserver_ok s -> lserver_step l s = Some s' -> lserver_ok s'.
Proof.
  intros Hok. destruct l as [|c ok| |c|c|c reset|]; cbn.
  - unfold openExit. destruct (ls_alive s) eqn:Ha, (ls_listening s) eqn:Hl; try done. intros [= <-].
    destruct Hok as [_ Hok]. rewrite Ha, Hl in Hok. split; [done|]. apply list.Forall_app. split; [done|].
    apply list.Forall_singleton. split_and!; cbn; [done..|]. intros [?|?]; done.
  - by apply serve_ok.
  - unfold collect_listener. destruct (ls_alive s) eqn:Ha, (ls_serving s) eqn:Hs, (ls_listening s) eqn:Hl; try done.
    intros [= <-]. destruct Hok as [_ Hok]. rewrite Ha, Hl in Hok. split; [done|]. cbn. apply list.Forall_fmap.
    eapply list.Forall_impl; [exact Hok|]. apply lconn_ok_unlistened.
  - unfold hold_open. destruct (ls_alive s) eqn:Ha; [|done]. destruct (ls_conns s !! c) as [[[] [] cut r]|] eqn:Hc; try done;
      intros [= <-]; (eapply set_lconn_ok; [done..|]); intros (H1 & H2 & H3); split_and!; cbn in *; auto; try done.
    all: intros H; destruct (H3 H) as [?|[?|[? ?]]]; auto; done.
  - unfold waiter_close. destruct (ls_conns s !! c) as [[side o cut r]|] eqn:Hc; [|done]. intros [= <-]. eapply set_lconn_ok; [done..|].
    intros (H1 & H2 & H3). split_and!; cbn in *; auto.
  - by apply wait_ok.
  - destruct (ls_alive s) eqn:Ha; [|done]. intros [= <-]. destruct Hok as [Hs Hok]. rewrite Ha in Hok. split; [done|].
    eapply list.Forall_impl; [exact Hok|]. apply lconn_ok_exit.
Qed.

Lemma lserver_run_ok ls s s' : lserver_ok s -> lserver_run ls s = Some s' -> lserver_ok s'.
Proof.
  revert s. induction ls as [|l ls IH]; intros s Hok; cbn; [by intros [= <-]|].
  destruct (lserver_step l s) as [s1|] eqn:E; [|done]. apply IH. by eapply lserver_step_ok.
Qed.

(** C10: A watch ends with the process it watches. Take a watch whose [close] was not
    called. While the watched process runs, and its listener is open or it has accepted the
    connection, the [wait] of the watch neither has returned nor can return. The listener
    is open as long as [serveLife] has not returned, that is, until an [Accept] fails.
    Once the process has exited, every [wait] that has not returned can return, also one
    whose connection was never accepted. [watch_ends_early] shows what happens after an
    [Accept] has failed. *)
Theorem wait_ends_with_process (ls : list klabel) (s : lifeserver) (c : nat) (k : lconn) :
  lserver_run ls lserver_start = Some s -> ls_conns s !! c = Some k -> k_cut k = false ->
  (ls_serving s = true -> ls_listening s = true) /\
  (ls_alive s = true -> ls_listening s = true \/ k_side k = KCopy ->
     k_done k = None /\ forall reset, waiter_wait c reset s = None) /\
  (ls_alive s = false -> k_done k = None -> forall reset, exists s', waiter_wait c reset s = Some s').
Proof.
  intros Hr Hc Hcut. assert (Hok : lserver_ok s) by (eapply lserver_run_ok; [|exact Hr]; split; [done|by constructor]).
  destruct Hok as [Hs Hok]. rewrite list.Forall_lookup in Hok. destruct (Hok c k Hc) as (H1 & H2 & H3).
  destruct k as [side o cut r]. cbn in *. subst cut. split; [done|]. split.
  - intros Ha Hl. assert (Hno : ~ (o = false \/ r <> None)).
    { intros H. destruct (H3 H) as [?|[?|[? ?]]]; [done|congruence|]. destruct Hl; congruence. }
    assert (Ho : o = true) by (destruct o; tauto). assert (Hd : r = None) by (destruct r; [|done]; exfalso; apply Hno; by right).
    split; [done|]. intros reset. unfold waiter_wait. rewrite Hc, Hd, Ho, Ha. cbn.
    rewrite bool_decide_eq_false_2; [done|]. intros ->. destruct (H2 eq_refl); [congruence|]. destruct Hl; congruence.
  - intros Ha -> reset. unfold waiter_wait. rewrite Hc, Ha. destruct o; by eexists.
Qed.

(** A watch that the process has not accepted, an [Accept] that fails, and the finalizer of
    the listener. *)
Definition early_end : list klabel := [KOpen; KServe 0 false; KCollect].

(** After an [Accept] has failed, a watch in the backlog ends and a dial is refused although
    the process runs: to its peers the process has exited. *)
Theorem watch_ends_early :
  exists s, lserver_run early_end lserver_start = Some s /\ ls_alive s = true /\ openExit s = None /\
    exists s', waiter_wait 0 false s = Some s' /\ ls_conns s' = [mkLconn KClosed false false (Some KNil)].
Proof. eexists. split; [reflexivity|]. split; [done|]. split; [done|]. eexists. split; reflexivity. Qed.

(** ** A witness *)

(** Three watches: one is accepted, one is closed, and one is never accepted because
    [serveLife] has returned. *)
Definition lserver_demo : list klabel := [KOpen; KServe 0 true; KOpen; KServe 1 true; KClose 1; KHold 1; KServe 0 false; KOpen; KHold 1; KWait 1 false].
Definition lserver_end : lifeserver := default lserver_start (lserver_run (lserver_demo ++ [KExit]) lserver_start).

Lemma wait_ends_with_process_witness : exists s', waiter_wait 2 false lserver_end = Some s'.
Proof.
  refine (proj2 (proj2 (wait_ends_with_process (lserver_demo ++ [KExit]) lserver_end 2 (mkLconn KBacklog true false None) _ _ _)) _ _ false); reflexivity.
Defined.
