(* ===== verification/FileLock.v ===== *)
(** * The file lock ([src/filelock])

    Calls of [Lock] and [TryLock] on one file by any number of goroutines and processes.
    [Lock] waits in the kernel on a goroutine of its own, so that a context that ends
    returns the caller at once. The steps are the system calls, the hand-over of the
    granted lock and the end of a context, interleaved. *)

From stdpp Require Import base numbers list list_numbers option.
From Stdlib Require Import Lia Bool.
From S2P Require Import Prelude.

(** ** Program counters *)

(** The caller: before [OpenFile]; in the [select] of [Lock], or in [Take] of [TryLock];
    with the lock, before it calls the function it got; after [Release]; returned with
    no lock, by an error, by its context, or after [unlock]; about to close the file
    after an error. *)
Inductive fcaller : Type := FIdle | FWait | FHeld | FReleased | FError | FAbandoned | FDone | FFailing.

(** The goroutine of [Lock]: none; in [Take]; with its result, before its [select]; with
    an abandoned call, after [Release] or with nothing to release; returned. *)
Inductive fworker : Type := GNone | GTake | GGot (ok : bool) | GClose | GEnd.

#[global] Instance fcaller_eq_dec : EqDecision fcaller.
Proof. solve_decision. Defined.
#[global] Instance fworker_eq_dec : EqDecision fworker.
Proof. solve_decision. Defined.

(** A call: whether it is a [TryLock], its two counters, and whether its file is open. *)
Record lockcall : Type := mkCall { lc_try : bool; lc_caller : fcaller; lc_worker : fworker; lc_open : bool }.

(** The calls and the one whose open file has the lock. *)
Record lockfile : Type := mkFile { lf_calls : list lockcall; lf_holder : option nat }.

Definition set_call (i : nat) (c : lockcall) (s : lockfile) : lockfile := mkFile (<[i := c]> (lf_calls s)) (lf_holder s).
Definition set_holder (o : option nat) (s : lockfile) : lockfile := mkFile (lf_calls s) o.

(** Closing a file, or the exit of its process, drops its lock. *)
Definition drop_lock (i : nat) (s : lockfile) : lockfile :=
  if bool_decide (lf_holder s = Some i) then set_holder None s else s.

(** ** The steps *)

(** What the kernel answers a call. *)
Inductive kernel : Type := KOk | KInterrupted | KError.

(** [Take]: [flock] again while a signal interrupts it. [None] is a call that waits, and
    [Some None] one that is made again. *)
Definition Take (i : nat) (wait : bool) (k : kernel) (s : lockfile) : option (option (bool * lockfile)) :=
  match k with
  | KError => Some (Some (false, s))
  | KInterrupted => Some None
  | KOk =>
      match lf_holder s with
      | None => Some (Some (true, set_holder (Some i) s))
      | Some _ => if wait then None else Some (Some (false, s))
      end
  end.

(** [Take] of [filelock_windows.go]: [LockFileEx] once, and every failure is the result. *)
Definition Take_windows (i : nat) (wait : bool) (k : kernel) (s : lockfile) : option (option (bool * lockfile)) :=
  match k with
  | KError | KInterrupted => Some (Some (false, s))
  | KOk =>
      match lf_holder s with
      | None => Some (Some (true, set_holder (Some i) s))
      | Some _ => if wait then None else Some (Some (false, s))
      end
  end.

Definition Release (i : nat) (s : lockfile) : lockfile := drop_lock i s.

Section host.
(** The host the package is built for. *)
Context (windows : bool).

Definition take : nat -> bool -> kernel -> lockfile -> option (option (bool * lockfile)) := if windows then Take_windows else Take.

(** The caller. *)
Definition caller_step (i : nat) (k : kernel) (s : lockfile) : option lockfile :=
  match lf_calls s !! i with
  | None => None
  | Some c =>
      match lc_caller c with
      | FIdle =>
          match k with
          | KOk => Some (set_call i (mkCall (lc_try c) FWait (if lc_try c then GNone else GTake) true) s)
          | _ => Some (set_call i (mkCall (lc_try c) FError GNone false) s)
          end
      | FWait =>
          if lc_try c then
            match take i false k s with
            | Some (Some (ok, s)) => Some (set_call i (mkCall true (if ok then FHeld else FFailing) GNone true) s)
            | Some None => Some s
            | None => None
            end
          else
            match lc_worker c with
            | GGot ok => Some (set_call i (mkCall false (if ok then FHeld else FFailing) GEnd true) s)
            | _ => None
            end
      | FFailing => Some (set_call i (mkCall (lc_try c) FError (lc_worker c) false) (drop_lock i s))
      | FHeld => Some (set_call i (mkCall (lc_try c) FReleased (lc_worker c) true) (Release i s))
      | FReleased => Some (set_call i (mkCall (lc_try c) FDone (lc_worker c) false) (drop_lock i s))
      | FError | FAbandoned | FDone => None
      end
  end.

(** The context of a caller in [select] ends: [close(abandoned)]. *)
Definition abandon (i : nat) (s : lockfile) : option lockfile :=
  match lf_calls s !! i with
  | Some (mkCall false FWait g o) => Some (set_call i (mkCall false FAbandoned g o) s)
  | _ => None
  end.

(** The goroutine of [Lock]. Its send of the result is the step of the caller that takes it. *)
Definition worker_step (i : nat) (k : kernel) (s : lockfile) : option lockfile :=
  match lf_calls s !! i with
  | None => None
  | Some c =>
      match lc_worker c with
      | GTake =>
          match take i true k s with
          | Some (Some (ok, s)) => Some (set_call i (mkCall (lc_try c) (lc_caller c) (GGot ok) (lc_open c)) s)
          | Some None => Some s
          | None => None
          end
      | GGot ok =>
          if bool_decide (lc_caller c = FAbandoned)
          then Some (set_call i (mkCall (lc_try c) FAbandoned GClose (lc_open c)) (if ok then Release i s else s))
          else None
      | GClose => Some (set_call i (mkCall (lc_try c) (lc_caller c) GEnd false) (drop_lock i s))
      | GNone | GEnd => None
      end
  end.

Inductive flabel : Type := LCaller (i : nat) (k : kernel) | LWorker (i : nat) (k : kernel) | LCtx (i : nat).

Definition lock_step (l : flabel) (s : lockfile) : option lockfile :=
  match l with LCaller i k => caller_step i k s | LWorker i k => worker_step i k s | LCtx i => abandon i s end.

Fixpoint lock_run (ls : list flabel) (s : lockfile) : option lockfile :=
  match ls with
  | [] => Some s
  | l :: ls => match lock_step l s with Some s => lock_run ls s | None => None end
  end.

(** Calls of [Lock] and, where the flag is set, of [TryLock], before they begin. *)
Definition lock_start (tries : list bool) : lockfile := mkFile ((fun t => mkCall t FIdle GNone false) <$> tries) None.

(** ** The invariant *)

(** A call whose open file has the lock. *)
Definition has_lock (c : lockcall) : bool :=
  match lc_caller c, lc_worker c with
  | FHeld, _ => true
  | (FWait | FAbandoned), GGot ok => ok
  | _, _ => false
  end.

(** The counters that go together, and when the file is open. *)
Definition call_shape (c : lockcall) : bool :=
  match lc_try c, lc_caller c, lc_worker c, lc_open c with
  | _, FIdle, GNone, false => true
  | true, FWait, GNone, true | false, FWait, (GTake | GGot _), true => true
  | true, (FHeld | FFailing | FReleased), GNone, true | false, (FHeld | FFailing | FReleased), GEnd, true => true
  | _, (FError | FDone), (GNone | GEnd), false => true
  | false, FAbandoned, (GTake | GGot _ | GClose), true | false, FAbandoned, GEnd, false => true
  | _, _, _, _ => false
  end.

Definition lock_ok (s : lockfile) : Prop :=
  (forall i, lf_holder s = Some i -> exists c, lf_calls s !! i = Some c) /\
  forall i c, lf_calls s !! i = Some c -> call_shape c = true /\ (lf_holder s = Some i <-> has_lock c = true).

Lemma lock_ok_move s i c c' h' :
  lock_ok s -> lf_calls s !! i = Some c -> call_shape c' = true -> (h' = Some i <-> has_lock c' = true) ->
  (h' = lf_holder s \/ (lf_holder s = None \/ lf_holder s = Some i) /\ (h' = None \/ h' = Some i)) ->
  lock_ok (mkFile (<[i := c']> (lf_calls s)) h').
Proof.
  intros [H1 H2] Hi Hs Hl Hh. split; cbn.
  - intros j Hj. destruct (decide (j = i)) as [->|Hne]; [exists c'; by eapply moved_here|].
    destruct (H1 j) as [cj Hcj]; [destruct Hh as [<-|[_ [?|?]]]; congruence|]. exists cj. by rewrite list_lookup_insert_ne.
  - intros j cj Hj. destruct (moved_cases _ _ _ _ _ Hj) as [[-> ->]|[Hne Hj']]; [done|]. destruct (H2 j cj Hj') as [H3 H4].
    split; [done|]. rewrite <-H4. destruct Hh as [->|[[?|?] [?|?]]]; try done; split; congruence.
Qed.

Lemma drop_lock_calls i s : lf_calls (drop_lock i s) = lf_calls s.
Proof. unfold drop_lock. by case_bool_decide. Qed.

Lemma drop_lock_holder i s : lf_holder (drop_lock i s) <> Some i /\
  (lf_holder (drop_lock i s) = lf_holder s \/ lf_holder s = Some i /\ lf_holder (drop_lock i s) = None).
Proof. unfold drop_lock. case_bool_decide; cbn; auto. Qed.

(** A step of call [i] that drops its lock. *)
Lemma lock_ok_drop s i c c' :
  lock_ok s -> lf_calls s !! i = Some c -> call_shape c' = true -> has_lock c' = false -> lock_ok (set_call i c' (drop_lock i s)).
Proof.
  intros Hok Hi Hs Hl. unfold set_call. rewrite drop_lock_calls. destruct (drop_lock_holder i s) as [H1 H2].
  apply (lock_ok_move s i c); try done; [rewrite Hl; split; [intros H'; by destruct (H1 H')|done]|]. destruct H2 as [->|[H2 H3]]; auto.
Qed.

(** A step of call [i] that leaves the lock where it is. *)
Lemma lock_ok_stay s i c c' :
  lock_ok s -> lf_calls s !! i = Some c -> call_shape c' = true -> has_lock c' = has_lock c -> lock_ok (set_call i c' s).
Proof. intros Hok Hi Hs Hl. eapply lock_ok_move; try done; [|by left]. rewrite Hl. by apply Hok. Qed.

Lemma take_cases i wait k s ok s' :
  take i wait k s = Some (Some (ok, s')) ->
  ok = false /\ s' = s \/ ok = true /\ lf_holder s = None /\ s' = set_holder (Some i) s.
Proof.
  unfold take, Take, Take_windows. intros H.
  destruct windows, k; try done; try (destruct (lf_holder s) eqn:Hh; [destruct wait; [done|]|]); injection H as <- <-; auto.
Qed.

(** A step of call [i] after [Take]. *)
Lemma lock_ok_take s i c c' ok s' wait k :
  lock_ok s -> lf_calls s !! i = Some c -> has_lock c = false -> take i wait k s = Some (Some (ok, s')) ->
  call_shape c' = true -> has_lock c' = ok -> lock_ok (set_call i c' s').
Proof.
  intros Hok Hi Hc Ht Hs Hl. destruct (take_cases _ _ _ _ _ _ Ht) as [[-> ->]|(-> & Hn & ->)].
  - eapply lock_ok_stay; try done. congruence.
  - apply (lock_ok_move s i c c' (Some i)); [done..| |]; [by rewrite Hl|auto].
Qed.

Lemma lock_step_ok l s s' : lock_ok s -> lock_step l s = Some s' -> lock_ok s'.
Proof.
  intros Hok. pose proof Hok as [_ H2]. destruct l as [i k|i k|i]; cbn.
  - unfold caller_step. destruct (lf_calls s !! i) as [[t p g o]|] eqn:Hi; [|done]. destruct (H2 i _ Hi) as [Hs Hl]. cbn.
    destruct p; cbn; try done.
    + destruct k; intros [= <-]; (eapply lock_ok_stay; [done..| |]); destruct t, g, o; done.
    + destruct t; cbn.
      * destruct (take i false k s) as [[[ok s1]|]|] eqn:Ht; try done; intros [= <-]; [|done].
        eapply lock_ok_take; [done..| |exact Ht| |]; destruct g, o, ok; done.
      * destruct g as [| |ok| |]; try done. intros [= <-]. eapply lock_ok_stay; [done..| |]; destruct ok, o; done.
    + intros [= <-]. eapply lock_ok_drop; [done..| |]; destruct t, g, o; done.
    + intros [= <-]. eapply lock_ok_drop; [done..| |]; destruct t, g, o; done.
    + intros [= <-]. eapply lock_ok_drop; [done..| |]; destruct t, g, o; done.
  - unfold worker_step. destruct (lf_calls s !! i) as [[t p g o]|] eqn:Hi; [|done]. destruct (H2 i _ Hi) as [Hs Hl]. cbn.
    destruct g as [| |ok| |]; cbn; try done.
    + destruct (take i true k s) as [[[ok s1]|]|] eqn:Ht; try done; intros [= <-]; [|done].
      eapply lock_ok_take; [done..| |exact Ht| |]; destruct t, p, o, ok; done.
    + case_bool_decide as Hp; [|done]. subst p. intros [= <-]. destruct ok.
      * eapply lock_ok_drop; [done..| |]; destruct t, o; done.
      * eapply lock_ok_stay; [done..| |]; destruct t, o; done.
    + intros [= <-]. eapply lock_ok_drop; [done..| |]; destruct t, p, o; done.
  - unfold abandon. destruct (lf_calls s !! i) as [[[] [] g o]|] eqn:Hi; try done. destruct (H2 i _ Hi) as [Hs Hl].
    intros [= <-]. eapply lock_ok_stay; [done..| |]; destruct g, o; done.
Qed.

Lemma lock_run_ok ls s s' : lock_ok s -> lock_run ls s = Some s' -> lock_ok s'.
Proof.
  revert s. induction ls as [|l ls IH]; intros s Hok; cbn; [by intros [= <-]|].
  destruct (lock_step l s) as [s1|] eqn:E; [|done]. apply IH. by eapply lock_step_ok.
Qed.

Lemma lock_start_ok tries : lock_ok (lock_start tries).
Proof.
  split; [done|]. intros i c Hi. cbn in Hi. apply list_lookup_fmap_Some_1 in Hi as (t & -> & _). split; [by destruct t|done].
Qed.

(** ** The theorems *)

(** A call that is over: it returned an error, its [unlock] ran, or it was abandoned and
    its goroutine returned. *)
Definition over (c : lockcall) : bool :=
  match lc_caller c, lc_worker c with
  | (FError | FDone), _ => true
  | FAbandoned, GEnd => true
  | _, _ => false
  end.

(** C26: The lock is exclusive and is not lost. In every interleaving at most one caller
    has the lock; a call that is over has its file closed and not the lock; and when the
    lock is taken by a call whose context has ended, that call's goroutine gives it back
    with its next step, without waiting for anything. *)
Theorem lock_exclusive (tries : list bool) (ls : list flabel) (s : lockfile) :
  lock_run ls (lock_start tries) = Some s ->
  (forall i j c d, lf_calls s !! i = Some c -> lf_calls s !! j = Some d ->
    lc_caller c = FHeld -> lc_caller d = FHeld -> i = j) /\
  (forall i c, lf_calls s !! i = Some c -> over c = true -> lc_open c = false /\ lf_holder s <> Some i) /\
  (forall i c, lf_calls s !! i = Some c -> lf_holder s = Some i -> lc_caller c = FAbandoned ->
    forall k, exists s', worker_step i k s = Some s' /\ lf_holder s' = None).
Proof.
  intros Hr. pose proof (lock_run_ok _ _ _ (lock_start_ok tries) Hr) as [_ Hok]. split_and!.
  - intros i j c d Hi Hj Hc Hd. destruct (Hok i c Hi) as [_ Hi']. destruct (Hok j d Hj) as [_ Hj'].
    unfold has_lock in *. rewrite Hc in Hi'. rewrite Hd in Hj'. pose proof (proj2 Hi' eq_refl). pose proof (proj2 Hj' eq_refl). congruence.
  - intros i c Hi Hov. destruct (Hok i c Hi) as [Hs Hl]. destruct c as [t p g o]. unfold over in Hov. cbn in *.
    destruct p, g; try done; (split; [by destruct t, o|]; intros Hh; by apply Hl in Hh).
  - intros i c Hi Hh Hc k. destruct (Hok i c Hi) as [Hs Hl]. apply Hl in Hh as Hk. unfold has_lock in Hk. rewrite Hc in Hk.
    destruct (lc_worker c) as [| |ok| |] eqn:Hg; try done. subst ok. unfold worker_step. rewrite Hi, Hg, bool_decide_true by done.
    eexists. split; [done|]. cbn. unfold Release, drop_lock. by rewrite bool_decide_true.
Qed.

End host.

(** ** A witness *)

(** The second call waits for the first, its context ends, and it gets the lock when the
    first lets go. *)
Definition lock_demo : list flabel :=
  [LCaller 0 KOk; LCaller 1 KOk; LWorker 0 KInterrupted; LWorker 0 KOk; LCaller 2 KOk; LCaller 2 KOk; LCaller 0 KOk; LCtx 1;
   LCaller 0 KOk; LWorker 1 KOk].
Definition lock_demo_end : lockfile := default (lock_start []) (lock_run false lock_demo (lock_start [false; false; true])).

Lemma lock_exclusive_witness : exists s', worker_step false 1 KOk lock_demo_end = Some s' /\ lf_holder s' = None.
Proof.
  apply (lock_exclusive false [false; false; true] lock_demo lock_demo_end) with (c := mkCall false FAbandoned (GGot true) true); reflexivity.
Defined.
