(* ===== verification/Endpoint.v ===== *)
(** * Making, closing and removing endpoints

    [createQueue], [OpenQueue], [Close] and [Unlink] of [src/queue.go], and the channels,
    connections and clients built on them ([src/channel.go], [src/conn.go],
    [src/service.go]), as sequences of calls of the operating system of which any may
    fail. What a process holds open and what it leaves in the file system is explicit: the
    descriptors of its handles, the listener that [selfID] makes once for the process, and
    the connections of the table of watches ([src/identity.go], [src/queue_peer.go]).
    Events are FIFOs ([src/event_unix.go]); the shared memory package is the class [Shm]
    with its laws. Calls of other processes in between are the subject of Names. *)

From Stdlib Require Import Strings.Byte String Lia Bool ZArith List.
From coqutil Require Import Byte Word.LittleEndianList.
From stdpp Require Import base numbers list list_numbers option sets.
From S2P Require Import Prelude Ipc Ring Recover GoStd Queue Names.

#[local] Open Scope Z_scope.
#[local] Open Scope list_scope.

#[export] Instance byte_decision : EqDecision byte := Byte.byte_eq_dec.

(** ** Shared memory *)

(** The named segments of the machine: their bytes, a successful [Create] with a size,
    stores through a mapping, and [Unlink]. *)
Class Shm (S : Type) : Type := {
  seg_at : S -> list byte -> option (list byte);
  seg_create : list byte -> Z -> S -> S;
  seg_store : list byte -> list byte -> S -> S;
  seg_unlink : list byte -> S -> S }.

(** What its documentation promises: a new segment is zero, bytes stored are the bytes
    that an open finds, an unlinked name is gone, and other names are not touched. *)
Class ShmLaws (S : Type) `{Shm S} : Prop := {
  seg_create_at : forall n size s m, seg_at (seg_create n size s) m = if decide (m = n) then Some (zeros size) else seg_at s m;
  seg_store_at : forall n b s m, seg_at (seg_store n b s) m =
    if decide (m = n) then match seg_at s n with Some _ => Some b | None => None end else seg_at s m;
  seg_unlink_at : forall n s m, seg_at (seg_unlink n s) m = if decide (m = n) then None else seg_at s m }.

(** ** The operating system *)

(** An error of the package, a file that does not exist, a name file without an
    instance, a connection that is refused, and any other. *)
Inductive oserr : Type := OPkg (e : error) | ONotExist | ONotReady | ORefused | OSys.

(** What the system answers its [n]-th call: the error of a call that acquires
    something, whether a call that removes something fails, random bytes, the address of
    a mapping, and the bytes that a failed write wrote. *)
Record answers : Type := mkAnswers {
  a_call : nat -> option oserr; a_remove : nat -> bool; a_raw : nat -> list byte; a_addr : nat -> Z; a_short : nat -> nat }.

(** What a process has once, whatever its handles. [p_life] is the variable [self]: nothing
    before its [once] has run, then the identity and, if it listens, the descriptor of the
    life socket. [p_watches] is [watches.byID]: a process, the connection to it, and the
    keys of the callbacks. [p_exited] is [exited]. *)
Record process : Type := mkProcess {
  p_life : option (Z * option nat); p_watches : list (Z * (nat * list nat)); p_next : nat; p_exited : list Z }.

(** The descriptors the process has open for its handles, what it has once, the segments,
    the FIFOs by path, and the content of the name and incarnation files by name. The
    numbers of all descriptors come from [fresh]. *)
Record os (S : Type) : Type := mkOs {
  tick : nat; fresh : nat; opened : list nat; proc : process;
  segs : S; fifos : list byte -> bool; name_files : list byte -> bool; incs : list byte -> option (list byte) }.
Arguments mkOs {S}. Arguments tick {S}. Arguments fresh {S}. Arguments opened {S}. Arguments proc {S}. Arguments segs {S}.
Arguments fifos {S}. Arguments name_files {S}. Arguments incs {S}.

Definition update {A} (f : list byte -> A) (k : list byte) (v : A) : list byte -> A :=
  fun x => if decide (x = k) then v else f x.

Section Endpoints.
Context {S : Type} `{Shm S}.
Variable A : answers.

Implicit Types w : os S.

Definition ticked w : os S := mkOs (tick w + 1) (fresh w) (opened w) (proc w) (segs w) (fifos w) (name_files w) (incs w).
Definition set_proc (p : process) w : os S := mkOs (tick w) (fresh w) (opened w) p (segs w) (fifos w) (name_files w) (incs w).
Definition set_segs (s : S) w : os S := mkOs (tick w) (fresh w) (opened w) (proc w) s (fifos w) (name_files w) (incs w).
Definition set_fifos f w : os S := mkOs (tick w) (fresh w) (opened w) (proc w) (segs w) f (name_files w) (incs w).
Definition set_names f w : os S := mkOs (tick w) (fresh w) (opened w) (proc w) (segs w) (fifos w) f (incs w).
Definition set_incs f w : os S := mkOs (tick w) (fresh w) (opened w) (proc w) (segs w) (fifos w) (name_files w) f.

(** A new descriptor, and [Close] of one, which frees it also when it reports an error. *)
Definition acquire w : nat * os S :=
  (fresh w, mkOs (tick w) (fresh w + 1) (opened w ++ [fresh w]) (proc w) (segs w) (fifos w) (name_files w) (incs w)).
Definition close_fd (fd : nat) w : os S :=
  mkOs (tick w) (fresh w) (filter (fun x => x <> fd) (opened w)) (proc w) (segs w) (fifos w) (name_files w) (incs w).

(** A sequence of calls: it changes the system and returns a value or an error. *)
Definition io (B : Type) : Type := os S -> (oserr + B) * os S.
Definition ret {B} (b : B) : io B := fun w => (inr b, w).
Definition throw {B} (e : oserr) : io B := fun w => (inl e, w).
Definition bind {B C} (m : io B) (k : B -> io C) : io C :=
  fun w => match m w with (inl e, w) => (inl e, w) | (inr b, w) => k b w end.
(** The error as a value: the code goes on. *)
Definition attempt {B} (m : io B) : io (option oserr) :=
  fun w => match m w with (inl e, w) => (inr (Some e), w) | (inr _, w) => (inr None, w) end.
Definition modify (f : os S -> os S) : io unit := fun w => (inr tt, f w).

(** A call that the system may refuse. *)
Definition call : io unit := fun w => (match a_call A (tick w) with Some e => inl e | None => inr tt end, ticked w).
Definition removing : io unit := fun w => (if a_remove A (tick w) then inl OSys else inr tt, ticked w).
Definition get_fd : io nat := fun w => let (fd, w) := acquire w in (inr fd, w).
Definition open_fd : io nat := bind call (fun _ => get_fd).
End Endpoints.

Declare Scope io_scope.
Notation "'let!' x := m 'in' k" := (bind m (fun x => k)) (at level 10, x binder, m at level 100, k at level 200) : io_scope.
Notation "m ;! k" := (bind m (fun _ => k)) (at level 199, right associativity) : io_scope.
#[local] Open Scope io_scope.

(** ** Events ([src/event.go], [src/event_unix.go]) *)

Definition str (s : string) : list byte := list_byte_of_string s.
Definition eventPath (name : list byte) : list byte := str "go-ipc-" ++ name ++ str ".event".

(** [validateName] on the bytes of a name. *)
Definition check_name {S} (name : list byte) : io (S := S) unit :=
  match validateName (string_of_list_byte name) with Some e => throw (OPkg e) | None => ret tt end.

Section Calls.
Context {S : Type} `{Shm S}.
Variable A : answers.

Implicit Types w : os S.

Definition remove_fifo (path : list byte) : io (S := S) unit :=
  removing A ;! modify (fun w => set_fifos (update (fifos w) path false) w).

Definition openFIFO (path : list byte) : io (S := S) nat := fun w =>
  if negb (fifos w path) then (inl ONotExist, w)
  else
    (let! fd := open_fd A in
     let! failed := attempt (call A) in
     match failed with
     | Some _ => modify (close_fd fd) ;! throw (OPkg ErrNotPollable)
     | None => ret fd
     end) w.

Definition createEventImpl (name : list byte) : io (S := S) nat :=
  let path := eventPath name in
  remove_fifo path ;!
  call A ;!
  modify (fun w => set_fifos (update (fifos w) path true) w) ;!
  openFIFO path.

Definition openEventImpl (name : list byte) : io (S := S) nat := openFIFO (eventPath name).

(** A file that does not exist is not an error. *)
Definition unlinkEventImpl (name : list byte) : io (S := S) unit := fun w =>
  if fifos w (eventPath name) then remove_fifo (eventPath name) w else (inr tt, w).

Definition CreateEvent (name : list byte) : io (S := S) nat := check_name name ;! createEventImpl name.
Definition OpenEvent (name : list byte) : io (S := S) nat := check_name name ;! openEventImpl name.

(** A descriptor of its own for a wait: the handle for writing is duplicated. The first
    two calls ask for the handle and lock it. *)
Definition dupFIFO : io (S := S) nat :=
  call A ;!
  call A ;!
  let! fd := open_fd A in
  let! failed := attempt (call A) in
  match failed with
  | Some _ => modify (close_fd fd) ;! throw (OPkg ErrNotPollable)
  | None => ret fd
  end.

(** *** On Windows ([src/event_windows.go])

    A handle is a descriptor; an event has one of the semaphore and one of the event that
    [close] sets. The first call of the two constructors makes the name a wide string,
    the second makes or opens the semaphore. *)

Definition win_finishEvent (sem : nat) : io (S := S) (nat * nat) := fun w =>
  match open_fd A w with
  | (inl e, w) => (inl e, close_fd sem w)
  | (inr closing, w) => (inr (sem, closing), w)
  end.

Definition win_createEventImpl : io (S := S) (nat * nat) := call A ;! let! h := open_fd A in win_finishEvent h.
Definition win_openEventImpl : io (S := S) (nat * nat) := call A ;! let! h := open_fd A in win_finishEvent h.
Definition win_close (h : nat * nat) w : os S := close_fd (snd h) (close_fd (fst h) w).


(** ** Instances ([src/name.go], [src/name_unix.go]) *)

Definition notEmptyName (inst : list byte) : list byte := inst ++ str ".ne".
Definition notFullName (inst : list byte) : list byte := inst ++ str ".nf".

Definition shm_Open (inst : list byte) : io (S := S) nat := fun w =>
  match seg_at (segs w) inst with None => (inl ONotExist, w) | Some _ => open_fd A w end.
Definition shm_Create (inst : list byte) (size : Z) : io (S := S) nat :=
  let! fd := open_fd A in modify (fun w => set_segs (seg_create inst size (segs w)) w) ;! ret fd.

Definition first_error (e1 e2 : option oserr) : option oserr := match e1 with Some _ => e1 | None => e2 end.
Definition give (e : option oserr) : io (S := S) unit := match e with Some e => throw e | None => ret tt end.

(** A segment that another process unlinks in between is not an error. *)
Definition unlinkSegment (inst : list byte) : io (S := S) unit :=
  removing A ;! modify (fun w => set_segs (seg_unlink inst (segs w)) w).

(** A segment that cannot be opened stays. *)
Definition remove_segment (inst : list byte) : io (S := S) (option oserr) := fun w =>
  match seg_at (segs w) inst with
  | None => (inr None, w)
  | Some _ =>
      match (removing A ;! get_fd) w with
      | (inl _, w) => (inr None, w)
      | (inr fd, w) => (let! err := attempt (unlinkSegment inst) in modify (close_fd fd) ;! ret err) w
      end
  end.

Definition removeInstance (name inc : list byte) : io (S := S) unit :=
  let inst := instanceName name inc in
  let! err := remove_segment inst in
  let! e1 := attempt (unlinkEventImpl (notEmptyName inst)) in
  let! e2 := attempt (unlinkEventImpl (notFullName inst)) in
  give (first_error (first_error err e1) e2).

(** [OpenFile], which makes the file, then [Take]. That no other process replaces the file
    in between is the subject of Names. *)
Definition lockName (name : list byte) : io (S := S) nat :=
  let! fd := open_fd A in
  modify (fun w => set_names (update (name_files w) name true) w) ;!
  let! failed := attempt (call A) in
  match failed with
  | Some e => modify (close_fd fd) ;! throw e
  | None => ret fd
  end.

Definition previous (name : list byte) : io (S := S) (list byte) := fun w =>
  (inr (default [] (match incs w name with Some content => parseIncarnation content | None => None end)), w).

(** [WriteAt] over the old content, then [Truncate]. A write that fails may have written
    some of the bytes. *)
Definition publish_write (name inc : list byte) : io (S := S) unit := fun w =>
  let old := default [] (incs w name) in
  let n := a_short A (tick w) in
  match call A w with
  | (inl e, w) => (inl e, set_incs (update (incs w) name (Some (take n inc ++ drop n old))) w)
  | (inr _, w) =>
      let w := set_incs (update (incs w) name (Some (inc ++ drop (List.length inc) old))) w in
      match call A w with
      | (inl e, w) => (inl e, w)
      | (inr _, w) => (inr tt, set_incs (update (incs w) name (Some inc)) w)
      end
  end.

Definition publish (name inc : list byte) : io (S := S) unit :=
  let! fd := open_fd A in
  let! err := attempt (publish_write name inc) in
  modify (close_fd fd) ;! give err.

Definition readName_ (name : list byte) : io (S := S) (list byte) := fun w =>
  if negb (name_files w name) then (inl ONotExist, w)
  else match call A w with
       | (inl e, w) => (inl e, w)
       | (inr _, w) =>
           match parseIncarnation (default [] (incs w name)) with
           | None => (inl ONotReady, w)
           | Some inc => (inr inc, w)
           end
       end.

(** [os.Remove] of the incarnation file, then of the name file. *)
Definition removeName (name : list byte) : io (S := S) unit :=
  removing A ;! modify (fun w => set_incs (update (incs w) name None) w) ;!
  removing A ;! modify (fun w => set_names (update (name_files w) name false) w).

Definition unlinkName (name inc : list byte) : io (S := S) unit := fun w =>
  match incs w name with
  | None => (inr tt, w)
  | Some content =>
      match call A w with
      | (inl e, w) => (inl e, w)
      | (inr _, w) => if bool_decide (default [] (parseIncarnation content) = inc) then removeName name w else (inr tt, w)
      end
  end.

(** [sweepName], and [sweepStale] on the names that the scan of the directory finds; none
    after the first time. *)
Definition sweep_locked (name : list byte) : io (S := S) unit :=
  let! inc := previous name in
  (match inc with [] => ret tt | _ => removeInstance name inc end) ;! removeName name.

Definition sweepName (name : list byte) (w : os S) : os S :=
  match lockName name w with
  | (inl _, w) => w
  | (inr fd, w) =>
      close_fd fd (snd (sweep_locked name w))
  end.

Definition sweepStale (found : list (list byte)) (w : os S) : os S := foldl (fun w name => sweepName name w) w found.
End Calls.

(** ** The life socket and the watches of a process ([src/identity.go]) *)

(** A callback in the table of watches: the process and the key. *)
Definition reg : Type := Z * nat.

(** The table without some callbacks; a watch without a callback is closed. *)
Definition strip_entry (K : list reg) (e : Z * (nat * list nat)) : list (Z * (nat * list nat)) :=
  let '(id, (fd, keys)) := e in
  match filter (fun k => (id, k) ∉ K) keys with [] => [] | keys => [(id, (fd, keys))] end.
Definition strip (K : list reg) (t : list (Z * (nat * list nat))) : list (Z * (nat * list nat)) := t ≫= strip_entry K.

(** The table with one more callback of a process that has a watch. *)
Definition add_key (id : Z) (key : nat) (t : list (Z * (nat * list nat))) : list (Z * (nat * list nat)) :=
  (fun e : Z * (nat * list nat) => let '(i, (fd, keys)) := e in (i, (fd, if decide (i = id) then keys ++ [key] else keys))) <$> t.

Section Watching.
Context {S : Type} `{Shm S}.
Variable A : answers.

Implicit Types w : os S.

(** [listenLife]: [Listen], [Chmod] and [Rename]. The files are in [Life.v]. *)
Definition listen_life : io (S := S) nat :=
  let! fd := open_fd A in
  let! failed := attempt (call A ;! call A) in
  match failed with
  | Some e => modify (close_fd fd) ;! attempt (removing A) ;! throw e
  | None => ret fd
  end.

(** A descriptor that the process keeps, and no handle. *)
Definition hand_over (fd : nat) w : os S := close_fd fd w.

Definition set_life (id : Z) (o : option nat) w : os S :=
  set_proc (mkProcess (Some (id, o)) (p_watches (proc w)) (p_next (proc w)) (p_exited (proc w))) w.

(** [selfID]. The listener is the process's from here on, not a handle's. *)
Definition self_ID : io (S := S) Z := fun w =>
  match p_life (proc w) with
  | Some (id, _) => (inr id, w)
  | None =>
      let id := randomID (LittleEndianList.le_combine (a_raw A (tick w))) in
      match listen_life w with
      | (inl _, w) => let id := Z.ldiff id watchable_bit in (inr id, set_life id None w)
      | (inr fd, w) => (inr id, set_life id (Some fd) (hand_over fd w))
      end
  end.

(** [lifeGone]. *)
Definition life_gone (e : oserr) : bool := match e with ONotExist | ORefused => true | _ => false end.

(** [isDead]: the connection of the dial is closed. *)
Definition dial_dead (id : Z) w : bool * os S :=
  if negb (watchable id) then (false, w)
  else if bool_decide (id ∈ p_exited (proc w)) then (true, w)
  else match open_fd A w with
       | (inr fd, w) => (false, close_fd fd w)
       | (inl e, w) => (life_gone e, w)
       end.

(** A callback in the table, with the connection [o] of a new watch. *)
Definition add_watch (id : Z) (o : option nat) : io (S := S) reg := fun w =>
  let p := proc w in
  let key := p_next p in
  let t := match o with Some fd => p_watches p ++ [(id, (fd, [key]))] | None => add_key id key (p_watches p) end in
  (inr (id, key), set_proc (mkProcess (p_life p) t (key + 1) (p_exited p)) w).

(** [onExit], with [openExit]. The result is the function that it returns; [None] does
    nothing. *)
Definition on_exit (id : Z) : io (S := S) (option reg) := fun w =>
  if bool_decide (id ∈ (p_watches (proc w)).*1)
  then (let! r := add_watch id None in ret (Some r)) w
  else if negb (watchable id) then (inl OSys, w)
  else match open_fd A w with
       | (inl e, w) => if life_gone e then (inr None, w) else (inl e, w)
       | (inr fd, w) => (let! r := add_watch id (Some fd) in modify (hand_over fd) ;! ret (Some r)) w
       end.

(** The function that [onExit] returns. *)
Definition cancel (r : option reg) w : os S :=
  match r with
  | None => w
  | Some r => let p := proc w in set_proc (mkProcess (p_life p) (strip [r] (p_watches p)) (p_next p) (p_exited p)) w
  end.
End Watching.

(** ** Queues ([src/queue.go]) *)

(** The identity of the process that has the handle, its watch of the receiver, and its
    watches of producers. [None] is a nil function or one that does nothing. The error of a
    watch that fails later is in [Queue.v]. *)
Record links : Type := mkLinks {
  l_self : Z; l_id : Z; l_gone : bool; l_cancel : option reg; l_producers : list (Z * option reg) }.

(** The fields of a [Queue] that a constructor fills: [None] is a nil pointer and [[]] an
    empty incarnation. *)
Record Handle : Type := mkHandle {
  h_name : list byte; h_cap : Z; h_inc : list byte; h_reader : bool; h_links : links;
  h_lock : option nat; h_ne : option nat; h_nf : option nat; h_seg : option nat; h_ring : option Ring }.

Definition new_handle (name : list byte) (cap self : Z) : Handle :=
  mkHandle name cap [] false (mkLinks self 0 false None []) None None None None None.
Definition h_set_lock (fd : nat) (reader : bool) (q : Handle) : Handle :=
  mkHandle (h_name q) (h_cap q) (h_inc q) reader (h_links q) (Some fd) (h_ne q) (h_nf q) (h_seg q) (h_ring q).
Definition h_set_inc (inc : list byte) (q : Handle) : Handle :=
  mkHandle (h_name q) (h_cap q) inc (h_reader q) (h_links q) (h_lock q) (h_ne q) (h_nf q) (h_seg q) (h_ring q).
Definition h_set_ne (fd : nat) (q : Handle) : Handle :=
  mkHandle (h_name q) (h_cap q) (h_inc q) (h_reader q) (h_links q) (h_lock q) (Some fd) (h_nf q) (h_seg q) (h_ring q).
Definition h_set_nf (fd : nat) (q : Handle) : Handle :=
  mkHandle (h_name q) (h_cap q) (h_inc q) (h_reader q) (h_links q) (h_lock q) (h_ne q) (Some fd) (h_seg q) (h_ring q).
Definition h_set_seg (fd : nat) (q : Handle) : Handle :=
  mkHandle (h_name q) (h_cap q) (h_inc q) (h_reader q) (h_links q) (h_lock q) (h_ne q) (h_nf q) (Some fd) (h_ring q).
Definition h_set_ring (r : Ring) (q : Handle) : Handle :=
  mkHandle (h_name q) (h_cap q) (h_inc q) (h_reader q) (h_links q) (h_lock q) (h_ne q) (h_nf q) (h_seg q) (Some r).
Definition h_set_cap (cap : Z) (q : Handle) : Handle :=
  mkHandle (h_name q) cap (h_inc q) (h_reader q) (h_links q) (h_lock q) (h_ne q) (h_nf q) (h_seg q) (h_ring q).
Definition h_set_links (l : links) (q : Handle) : Handle :=
  mkHandle (h_name q) (h_cap q) (h_inc q) (h_reader q) l (h_lock q) (h_ne q) (h_nf q) (h_seg q) (h_ring q).

Definition instance_of (q : Handle) : list byte := instanceName (h_name q) (h_inc q).

(** What a handle holds: its descriptors and its callbacks in the table of watches. *)
Inductive holds : Type := HFd (fd : nat) | HReg (r : reg).
Definition olist (o : option nat) : list holds := match o with Some fd => [HFd fd] | None => [] end.
Definition rlist (o : option reg) : list holds := match o with Some r => [HReg r] | None => [] end.
Definition held_links (l : links) : list holds := rlist (l_cancel l) ++ (l_producers l ≫= fun p => rlist p.2).
Definition held_fds (q : Handle) : list holds := olist (h_lock q) ++ olist (h_ne q) ++ olist (h_nf q) ++ olist (h_seg q).
Definition held (q : Handle) : list holds := held_fds q ++ held_links (h_links q).

Section Queues.
Context {S : Type} `{Shm S}.
Variable A : answers.

Implicit Types w : os S.

(** The body of a constructor: it fills the handle until an error ends it. *)
Definition filling : Type := os S -> (option oserr * Handle) * os S.
Definition fill {B} (m : io (S := S) B) (q : Handle) (k : B -> filling) : filling :=
  fun w => match m w with (inl e, w) => ((Some e, q), w) | (inr b, w) => k b w end.
Definition filled (q : Handle) : filling := fun w => ((None, q), w).

Definition new_incarnation : io (S := S) (list byte) := fun w =>
  match call A w with (inl e, w) => (inl e, w) | (inr _, w) => (inr (newIncarnation (a_raw A (tick w))), w) end.

(** [initRing] and [AttachRing] on the bytes of the mapped segment. *)
Definition init_ring (inst : list byte) (reader : Z) : io (S := S) Ring := fun w =>
  match seg_at (segs w) inst with
  | None => (inl OSys, w)
  | Some buf =>
      match initRing buf (a_addr A (tick w)) reader with
      | Err e => (inl (OPkg e), w)
      | Ok r =>
          (inr r, set_segs (seg_store inst (ring_buffer r (zeros (zlen buf - HeaderSize - zlen (data r)))) (segs w)) w)
      end
  end.
Definition attach_ring (inst : list byte) : io (S := S) Ring := fun w =>
  match seg_at (segs w) inst with
  | None => (inl OSys, w)
  | Some buf => match AttachRing buf (a_addr A (tick w)) with Err e => (inl (OPkg e), w) | Ok r => (inr r, w) end
  end.

Definition build (reader : Z) (q : Handle) : filling :=
  fill (previous (h_name q)) q (fun old =>
  fill (match old with [] => ret tt | _ => removeInstance A (h_name q) old end) q (fun _ =>
  fill new_incarnation q (fun inc => let q := h_set_inc inc q in let inst := instance_of q in
  fill (CreateEvent A (notEmptyName inst)) q (fun fd => let q := h_set_ne fd q in
  fill (CreateEvent A (notFullName inst)) q (fun fd => let q := h_set_nf fd q in
  fill (shm_Create A inst (RingSize (h_cap q))) q (fun fd => let q := h_set_seg fd q in
  fill (init_ring inst reader) q (fun r => let q := h_set_ring r q in
  fill (publish A (h_name q) inc) q (fun _ => filled q)))))))).

Definition attach (q : Handle) : filling :=
  let inst := instance_of q in
  fill (shm_Open A inst) q (fun fd => let q := h_set_seg fd q in
  fill (attach_ring inst) q (fun r => let q := h_set_ring r q in
  fill (OpenEvent A (notEmptyName inst)) q (fun fd => let q := h_set_ne fd q in
  fill (OpenEvent A (notFullName inst)) q (fun fd => filled (h_set_nf fd q))))).

Definition close_opt (o : option nat) w : os S := match o with Some fd => close_fd fd w | None => w end.

Definition unwind (q : Handle) w : os S :=
  let w := close_opt (h_seg q) (close_opt (h_nf q) (close_opt (h_ne q) w)) in
  match h_lock q with
  | None => w
  | Some fd =>
      let w := match h_inc q with [] => w | _ => snd (removeInstance A (h_name q) (h_inc q) w) end in
      close_fd fd w
  end.

Definition or_unwind (m : (option oserr * Handle) * os S) : (oserr + Handle) * os S :=
  match m with
  | ((Some e, q), w) => (inl e, unwind q w)
  | ((None, q), w) => (inr q, w)
  end.

Definition configure (opts : list Option_) : io (S := S) config := fun w =>
  match apply_options opts defaultConfig with Err e => (inl (OPkg e), w) | Ok c => (inr c, w) end.

(** [newQueue] asks for the identity of the process. *)
Definition createQueue (found : list (list byte)) (name : list byte) (opts : list Option_) (pending : bool) : io (S := S) Handle :=
  check_name name ;!
  let! cfg := configure opts in
  modify (sweepStale A found) ;!
  let! lock := lockName A name in
  let! self := self_ID A in
  let q := h_set_lock lock (negb pending) (new_handle name (c_capacity cfg) self) in
  fun w => or_unwind (build (if pending then pendingProc else self) q w).

Definition set_capacity (q : Handle) : Handle := match h_ring q with Some r => h_set_cap (Capacity r) q | None => q end.

Definition openQueue (name : list byte) (opts : list Option_) : io (S := S) Handle :=
  check_name name ;!
  let! cfg := configure opts in
  let! self := self_ID A in
  let! inc := readName_ A name in
  let q := h_set_inc inc (new_handle name (c_capacity cfg) self) in
  let! q := fun w => or_unwind (attach q w) in
  ret (set_capacity q).

(** ** The watches of a handle ([src/queue_peer.go]) *)

Definition watch_peer (id : Z) (q : Handle) : filling := fun w =>
  let l := h_links q in
  let w := cancel (l_cancel l) w in
  let peer gone id c := h_set_links (mkLinks (l_self l) id gone c (l_producers l)) q in
  match dial_dead A id w with
  | (true, w) => ((Some (OPkg ErrPeerGone), peer true id None), w)
  | (false, w) =>
      match on_exit A id w with
      | (inl e, w) => ((Some e, peer false 0 None), w)
      | (inr c, w) => ((None, peer false id c), w)
      end
  end.

(** [id] is what [hdr.consumer] holds. *)
Definition check_peer (id : Z) (q : Handle) : filling := fun w =>
  if id =? noProc then ((Some (OPkg ErrPeerGone), q), w)
  else if (id =? pendingProc) || (id =? l_self (h_links q)) then ((None, q), w)
  else if negb (watchable id) then ((None, q), w)
  else if l_id (h_links q) =? id then ((if l_gone (h_links q) then Some (OPkg ErrPeerGone) else None, q), w)
  else watch_peer id q w.

Definition watch_producer (id : Z) (q : Handle) : filling := fun w =>
  let l := h_links q in
  if bool_decide (id ∈ (l_producers l).*1) then ((None, q), w)
  else
    match on_exit A id w with
    | (inl e, w) => ((Some e, q), w)
    | (inr c, w) => ((None, h_set_links (mkLinks (l_self l) (l_id l) (l_gone l) (l_cancel l) (l_producers l ++ [(id, c)])) q), w)
    end.

(** What sends and receives do to the watches of a handle: they check the receiver that
    [hdr.consumer] names, and they watch a producer. *)
Inductive use : Type := UCheck (id : Z) | UProducer (id : Z).

Definition use_handle (u : use) (q : Handle) w : Handle * os S :=
  match match u with UCheck id => check_peer id q w | UProducer id => watch_producer id q w end with
  | ((_, q), w) => (q, w)
  end.

Fixpoint used (us : list use) (q : Handle) w : Handle * os S :=
  match us with
  | [] => (q, w)
  | u :: us => let (q, w) := use_handle u q w in used us q w
  end.

(** [peer.stop] and [producers.stop]. *)
Definition stop_watches (l : links) w : os S := foldl (fun w p => cancel p.2 w) (cancel (l_cancel l) w) (l_producers l).

(** What [Close] releases, in its order. *)
Definition close_handle (q : Handle) w : os S :=
  close_opt (h_lock q) (close_opt (h_seg q) (close_opt (h_nf q) (close_opt (h_ne q) (stop_watches (h_links q) w)))).

(** [checkPeer] loads the receiver from the ring. *)
Definition receiver (q : Handle) : Z := match h_ring q with Some r => consumer (hdr r) | None => noProc end.

Definition OpenQueue (name : list byte) (opts : list Option_) : io (S := S) Handle :=
  let! q := openQueue name opts in
  fun w =>
    match check_peer (receiver q) q w with
    | ((Some e, q), w) => (inl e, close_handle q w)
    | ((None, q), w) => (inr q, w)
    end.

(** [nameLock.unlink] has nothing to do. *)
Definition Unlink (q : Handle) : io (S := S) unit :=
  let! e1 := attempt (removeInstance A (h_name q) (h_inc q)) in
  let! e2 := attempt (unlinkName A (h_name q) (h_inc q)) in
  give (first_error e1 e2).
End Queues.

(** ** Channels, connections, clients and services *)

Record Chan : Type := mkChan { c_tx : Handle; c_rx : Handle }.

Definition serviceRegistrySuffix : list byte := str ".svc".

Section Channels.
Context {S : Type} `{Shm S}.
Variable A : answers.

(** Only the first queue of a process sweeps. *)
Definition CreateChannel (found : list (list byte)) (name : list byte) (opts : list Option_) : io (S := S) Chan :=
  check_name name ;!
  let! tx := createQueue A found (name ++ chanCreatorToOpener) opts true in
  fun w => match createQueue A [] (name ++ chanOpenerToCreator) opts false w with
           | (inl e, w) => (inl e, snd (Unlink A tx (close_handle tx w)))
           | (inr rx, w) => (inr (mkChan tx rx), w)
           end.

(** [swapped] is whether the compare-and-swap of the reader works. *)
Definition OpenChannel (swapped : bool) (name : list byte) (opts : list Option_) : io (S := S) Chan :=
  check_name name ;!
  let! tx := OpenQueue A (name ++ chanOpenerToCreator) opts in
  fun w => match openQueue A (name ++ chanCreatorToOpener) opts w with
           | (inl e, w) => (inl e, close_handle tx w)
           | (inr rx, w) =>
               if swapped then (inr (mkChan tx rx), w)
               else (inl (OPkg ErrInUse), close_handle tx (close_handle rx w))
           end.

Definition Channel_Close (c : Chan) (w : os S) : os S := close_handle (c_tx c) (close_handle (c_rx c) w).
Definition Channel_Unlink (c : Chan) : io (S := S) unit :=
  let! e1 := attempt (Unlink A (c_tx c)) in
  let! e2 := attempt (Unlink A (c_rx c)) in
  give (first_error e1 e2).

Definition Listen (found : list (list byte)) (name : list byte) (opts : list Option_) : io (S := S) Chan :=
  CreateChannel found name opts.
Definition Dial (swapped : bool) (name : list byte) (opts : list Option_) : io (S := S) Chan :=
  OpenChannel swapped name opts.

(** The queue of the service, if there is one, gets a message, which uses it, and is closed. *)
Definition knock (us : list use) (name : list byte) (w : os S) : os S :=
  match OpenQueue A (name ++ serviceRegistrySuffix) [] w with
  | (inl _, w) => w
  | (inr q, w) => let (q, w) := used A us q w in close_handle q w
  end.

(** A channel after uses of its two queues. *)
Definition used_chan (us : list use * list use) (c : Chan) (w : os S) : Chan * os S :=
  let (tx, w) := used A us.1 (c_tx c) w in let (rx, w) := used A us.2 (c_rx c) w in (mkChan tx rx, w).

(** [us] are the uses of the queue of the service by the knock and of the channel by the
    wait for the service's greeting, and [hello] is the error of that wait. *)
Definition Connect (found : list (list byte)) (us : list use * (list use * list use)) (hello : option oserr) (name : list byte) (opts : list Option_) : io (S := S) Chan :=
  check_name name ;!
  let! id := new_incarnation A in
  let! ch := CreateChannel found (client_channel name id) (serviceOptions opts) in
  modify (knock us.1 name) ;!
  let! ch := fun w => let (ch, w) := used_chan us.2 ch w in (inr ch, w) in
  match hello with
  | Some e => modify (Channel_Close ch) ;! attempt (Channel_Unlink ch) ;! throw e
  | None => ret ch
  end.

Definition Client_Close (ch : Chan) : io (S := S) unit := modify (Channel_Close ch) ;! Channel_Unlink ch.

(** The part of [Serve] before the first client. *)
Definition Serve (found : list (list byte)) (name : list byte) (handler : bool) (opts : list Option_) : io (S := S) Handle :=
  check_name name ;!
  if handler then createQueue A found (name ++ serviceRegistrySuffix) opts false else throw OSys.
End Channels.

Definition held_chan (c : Chan) : list holds := held (c_tx c) ++ held (c_rx c).
