(* ===== verification/EndpointThm.v ===== *)
(** * What endpoints hold and leave

    For every constructor of Endpoint and every answer of the system: a constructor that
    fails leaves no descriptor open, a handle that is closed leaves none either, and, when
    the calls that remove files work, no segment and no FIFO stays behind. A queue that
    was created can be opened, and the opener gets its ring. *)

From Stdlib Require Import Strings.Byte String Lia Bool ZArith List.
From coqutil Require Import Byte Word.LittleEndianList.
From stdpp Require Import base numbers list list_numbers option sets.
From S2P Require Import Prelude Ipc Ring RingInv RingSeq Recover GoStd Queue Names Endpoint.

#[local] Open Scope Z_scope.
#[local] Open Scope list_scope.
#[local] Open Scope io_scope.

(** ** What a process holds open *)

(** What a process had at some time. *)
Record base : Type := mkBase { b_fds : list nat; b_watches : list (Z * (nat * list nat)); b_life : option (Z * option nat) }.
Definition base_of {S} (w : os S) : base := mkBase (opened w) (p_watches (proc w)) (p_life (proc w)).

(** The descriptors and the callbacks of what is held. *)
Definition fds (X : list holds) : list nat := X ≫= fun h => match h with HFd fd => [fd] | HReg _ => [] end.
Definition regs (X : list holds) : list reg := X ≫= fun h => match h with HFd _ => [] | HReg r => [r] end.

Lemma fds_app X Y : fds (X ++ Y) = fds X ++ fds Y.
Proof. apply bind_app. Qed.

Lemma regs_app X Y : regs (X ++ Y) = regs X ++ regs Y.
Proof. apply bind_app. Qed.

Lemma fds_perm X Y : X ≡ₚ Y -> fds X ≡ₚ fds Y.
Proof. apply bind_Permutation. Qed.

Lemma regs_perm X Y : X ≡ₚ Y -> regs X ≡ₚ regs Y.
Proof. apply bind_Permutation. Qed.

(** *** The table of watches *)

#[local] Arguments strip : simpl never.

Lemma strip_entry_ext K K' (e : Z * (nat * list nat)) :
  (forall k, k ∈ e.2.2 -> (e.1, k) ∈ K <-> (e.1, k) ∈ K') -> strip_entry K e = strip_entry K' e.
Proof.
  destruct e as [id [fd keys]]. cbn. intros Hk. assert (filter (fun k => (id, k) ∉ K) keys = filter (fun k => (id, k) ∉ K') keys) as ->; [|done].
  induction keys as [|k keys IH]; [done|]. rewrite !filter_cons. rewrite IH by (intros k' Hk'; apply Hk; by right).
  assert (Hh : (id, k) ∈ K <-> (id, k) ∈ K') by (apply Hk; by left). destruct (decide ((id, k) ∉ K)), (decide ((id, k) ∉ K')); tauto.
Qed.

Lemma strip_ext K K' t : (forall r, r ∈ K <-> r ∈ K') -> strip K t = strip K' t.
Proof. intros HK. unfold strip. induction t as [|e t IH]; [done|]. cbn. rewrite IH. f_equal. apply strip_entry_ext. auto. Qed.

Lemma strip_strip K K' t : strip K (strip K' t) = strip (K ++ K') t.
Proof.
  unfold strip. induction t as [|[id [fd keys]] t IH]; [done|]. cbn [mbind list_bind]. rewrite bind_app, IH. f_equal. cbn.
  assert (Hf : filter (fun k => (id, k) ∉ K ++ K') keys = filter (fun k => (id, k) ∉ K) (filter (fun k => (id, k) ∉ K') keys)).
  { rewrite list_filter_filter. apply list_filter_iff. intros k. rewrite elem_of_app. tauto. }
  rewrite Hf. destruct (filter (fun k => (id, k) ∉ K') keys) as [|k ks]; [done|]. cbn [mbind list_bind]. by rewrite app_nil_r.
Qed.

Lemma strip_nil t : Forall (fun e : Z * (nat * list nat) => e.2.2 <> []) t -> strip [] t = t.
Proof.
  unfold strip. induction t as [|[id [fd keys]] t IH]; [done|]. intros [He Ht]%list.Forall_cons. cbn [mbind list_bind]. rewrite IH by done.
  unfold strip_entry. match goal with |- context [filter ?P keys] => assert (filter P keys = keys) as -> end; [|by destruct keys].
  clear. induction keys as [|k keys IH]; [done|]. rewrite filter_cons_True by apply not_elem_of_nil. by rewrite IH.
Qed.

Lemma strip_app K t t' : strip K (t ++ t') = strip K t ++ strip K t'.
Proof. apply bind_app. Qed.

(** A key that no callback of the table has. *)
Definition new_key (key : nat) (t : list (Z * (nat * list nat))) : Prop := Forall (fun e : Z * (nat * list nat) => key ∉ e.2.2) t.

Lemma strip_new_key K id key t : new_key key t -> strip (K ++ [(id, key)]) t = strip K t.
Proof.
  unfold strip. induction t as [|e t IH]; [done|]. intros [He Ht]%list.Forall_cons. cbn [mbind list_bind]. rewrite IH by done. f_equal.
  apply strip_entry_ext. intros k Hk. rewrite elem_of_app, list_elem_of_singleton. split; [|tauto]. intros [?|[= _ ->]]; done.
Qed.

Lemma strip_add_key K id key t : new_key key t -> strip (K ++ [(id, key)]) (add_key id key t) = strip K t.
Proof.
  intros Hn. rewrite <-(strip_new_key K id key t Hn). unfold strip, add_key. clear Hn. induction t as [|[i [fd keys]] t IH]; [done|].
  cbn [fmap list_fmap mbind list_bind]. f_equal; [|exact IH]. destruct (decide (i = id)) as [->|]; [|done]. unfold strip_entry.
  rewrite list.filter_app, filter_cons_False, filter_nil, app_nil_r; [done|]. intros Hx. apply Hx. apply elem_of_app. right. by left.
Qed.

Section Descriptors.
Context {S : Type} `{Shm S}.
Variable A : answers.

Implicit Types w : os S.

Definition fds_ok w : Prop := base.NoDup (opened w) /\ Forall (fun fd => (fd < fresh w)%nat) (opened w).

(** Every watch has a callback, and the keys of callbacks are from [watches.next]. *)
Definition watches_ok w : Prop :=
  Forall (fun e : Z * (nat * list nat) => e.2.2 <> [] /\ Forall (fun k => (k < p_next (proc w))%nat) e.2.2) (p_watches (proc w)).

(** The process has the descriptors, the watches and the life socket of [L] and, since then,
    what [X] holds, in some order; only a process that had no identity has got one. *)
Record holding (L : base) (X : list holds) w : Prop := {
  ho_fds : fds_ok w;
  ho_watches : watches_ok w;
  ho_opened : exists Y, opened w = b_fds L ++ Y /\ Y ≡ₚ fds X;
  ho_regs : strip (regs X) (p_watches (proc w)) = b_watches L;
  ho_life : b_life L = None \/ p_life (proc w) = b_life L }.

(** Calls that start with [pre] end with [hs b] when they return [b], and with none of it
    when they fail. *)
Definition turns {B} (pre : list holds) (hs : B -> list holds) (m : io (S := S) B) : Prop :=
  forall L X w r w', m w = (r, w') -> holding L (X ++ pre) w ->
    holding L (X ++ match r with inl _ => [] | inr b => hs b end) w'.
Definition gains {B} (hs : B -> list holds) (m : io (S := S) B) : Prop := turns [] hs m.
Definition keeps {B} (m : io (S := S) B) : Prop := turns [] (fun _ => []) m.
(** A change of the system that keeps the descriptors. *)
Definition keeps_fds (f : os S -> os S) : Prop := forall L X w, holding L X w -> holding L X (f w).

Lemma holding_perm L X X' w : X ≡ₚ X' -> holding L X w -> holding L X' w.
Proof.
  intros HX [H1 H2 (Y & H3 & H4) H5 H6]. split; [done|done| | |done].
  - exists Y. split; [done|]. etrans; [exact H4|by apply fds_perm].
  - rewrite <-H5. apply strip_ext. intros r. symmetry. apply (elem_of_Permutation_proper r), regs_perm, HX.
Qed.

(** Nothing is held any more: what the process had is as it was, but for an identity. *)
Definition restored (L : base) w : Prop :=
  opened w = b_fds L /\ p_watches (proc w) = b_watches L /\ (b_life L = None \/ p_life (proc w) = b_life L).

Lemma holding_nil L w : holding L [] w -> restored L w.
Proof.
  intros [_ Hw (Y & Ho & HY) Hr Hl]. apply Permutation_nil_r in HY as ->. rewrite app_nil_r in Ho. split; [done|]. split; [|done].
  rewrite <-Hr. symmetry. apply strip_nil. eapply list.Forall_impl; [exact Hw|]. by intros e [? _].
Qed.

Lemma holding_here w : fds_ok w -> watches_ok w -> holding (base_of w) [] w.
Proof.
  intros H1 H2. split; [done|done| | |by right].
  - exists []. by rewrite app_nil_r.
  - apply strip_nil. eapply list.Forall_impl; [exact H2|]. by intros e [? _].
Qed.

Lemma holding_same L X w w' : opened w' = opened w -> fresh w' = fresh w -> proc w' = proc w -> holding L X w -> holding L X w'.
Proof. intros H1 H2 H3 [A1 A2 A3 A4 A5]. split; unfold fds_ok, watches_ok; by rewrite ?H1, ?H2, ?H3. Qed.

Lemma holding_acquire L X w : holding L X w -> holding L (X ++ [HFd (fresh w)]) (acquire w).2.
Proof.
  intros [[H1 H2] Hw (Y & H3 & H4) Hr Hl]. split; [split|exact Hw| | |exact Hl]; cbn.
  - apply list.NoDup_app. split; [done|]. split; [|apply list.NoDup_singleton]. intros x Hx ->%list_elem_of_singleton.
    rewrite list.Forall_forall in H2. apply H2 in Hx. lia.
  - apply list.Forall_app. split; [|apply list.Forall_singleton; lia]. eapply list.Forall_impl; [exact H2|]. cbn. lia.
  - exists (Y ++ [fresh w]). rewrite H3, fds_app, app_assoc. split; [done|by apply Permutation_app].
  - by rewrite regs_app, app_nil_r.
Qed.

Lemma filter_others (fd : nat) (l : list nat) : fd ∉ l -> filter (fun x => x <> fd) l = l.
Proof.
  induction l as [|x l IH]; [done|]. intros [Hx Hl]%not_elem_of_cons. rewrite filter_cons_True by done. by rewrite IH.
Qed.

Lemma holding_close L X fd w : holding L (HFd fd :: X) w -> holding L X (close_fd fd w).
Proof.
  intros [[H1 H2] Hw (Y & H3 & H4) Hr Hl]. rewrite H3 in H1. apply list.NoDup_app in H1 as (HL & Hd & HY). change (fds (HFd fd :: X)) with (fd :: fds X) in H4.
  split; [split|exact Hw| |exact Hr|exact Hl]; cbn.
  - apply list.NoDup_filter. rewrite H3. by apply list.NoDup_app.
  - rewrite list.Forall_forall in *. intros x [_ Hx]%list_elem_of_filter. by apply H2.
  - exists (filter (fun x => x <> fd) Y). rewrite H3, list.filter_app. split.
    + f_equal. apply filter_others. intros Hx. apply (Hd fd Hx). apply (elem_of_Permutation_proper fd _ _ H4). by left.
    + etrans; [apply (filter_Permutation _ _ _ H4)|]. apply (NoDup_Permutation_proper _ _ H4) in HY.
      apply list.NoDup_cons in HY as [Hn _]. rewrite filter_cons_False by naive_solver. by rewrite filter_others.
Qed.

Lemma holding_close_in L X1 X2 fd w : holding L (X1 ++ HFd fd :: X2) w -> holding L (X1 ++ X2) (close_fd fd w).
Proof. intros Hh. apply holding_close. eapply holding_perm; [|done]. symmetry. apply Permutation_middle. Qed.

Lemma turns_ret {B} pre (hs : B -> list holds) b : pre ≡ₚ hs b -> turns pre hs (ret b).
Proof. intros Hp L X w r w' [= <- <-] Hh. eapply holding_perm; [|done]. by apply Permutation_app_head. Qed.

Lemma turns_throw {B} (hs : B -> list holds) e : turns [] hs (throw e).
Proof. intros L X w r w' [= <- <-] Hh. done. Qed.

Lemma turns_bind {B C} pre h1 (hs : C -> list holds) (m : io (S := S) B) k :
  turns pre h1 m -> (forall b, turns (h1 b) hs (k b)) -> turns pre hs (bind m k).
Proof.
  intros Hm Hk L X w r w' Hr Hh. unfold bind in Hr. destruct (m w) as [[e|b] w1] eqn:E.
  - injection Hr as <- <-. by apply (Hm _ _ _ _ _ E).
  - eapply Hk; [done|]. by apply (Hm _ _ _ _ _ E).
Qed.

Lemma turns_attempt {B} pre (m : io (S := S) B) : keeps m -> turns pre (fun _ => pre) (attempt m).
Proof.
  intros Hm L X w r w' Hr Hh. unfold attempt in Hr. destruct (m w) as [[e|b] w1] eqn:E; injection Hr as <- <-.
  - specialize (Hm L (X ++ pre) w _ _ E). rewrite !app_nil_r in Hm. by apply Hm.
  - specialize (Hm L (X ++ pre) w _ _ E). rewrite !app_nil_r in Hm. by apply Hm.
Qed.

Lemma turns_frame {B} pre (m : io (S := S) B) : keeps m -> (forall w e w', m w <> (inl e, w')) -> turns pre (fun _ => pre) m.
Proof.
  intros Hm Hno L X w r w' Hr Hh. rewrite <-(app_nil_r (X ++ pre)) in Hh. apply (Hm _ _ _ _ _ Hr) in Hh.
  destruct r as [e|b]; [by apply Hno in Hr|]. by rewrite app_nil_r in Hh.
Qed.

Lemma turns_modify pre f : keeps_fds f -> turns pre (fun _ => pre) (modify f).
Proof. intros Hf L X w r w' [= <- <-] Hh. by apply Hf. Qed.

Ltac kept H := eapply holding_same; [..|exact H]; reflexivity.
Ltac same_fds := apply turns_modify; let H := fresh in intros ? ? ? H; kept H.

Lemma turns_close pre fd : turns (pre ++ [HFd fd]) (fun _ => pre) (modify (close_fd fd)).
Proof.
  intros L X w r w' [= <- <-] Hh. rewrite app_assoc in Hh. apply holding_close_in in Hh. by rewrite app_nil_r in Hh.
Qed.

Lemma turns_close1 fd : turns [HFd fd] (fun _ => []) (modify (close_fd fd)).
Proof. apply (turns_close []). Qed.

Lemma keeps_give e : keeps (give e).
Proof. destruct e; [apply turns_throw|by apply turns_ret]. Qed.

Lemma keeps_call : keeps (call A).
Proof.
  intros L X w r w' Hr Hh. unfold call in Hr. simplify_eq. rewrite app_nil_r in Hh. destruct (a_call A (tick w)); rewrite app_nil_r; kept Hh.
Qed.

Lemma keeps_removing : keeps (removing A).
Proof.
  intros L X w r w' Hr Hh. unfold removing in Hr. simplify_eq. rewrite app_nil_r in Hh. destruct (a_remove A (tick w)); rewrite app_nil_r; kept Hh.
Qed.

Lemma gains_get_fd : gains (fun fd => [HFd fd]) get_fd.
Proof. intros L X w r w' [= <- <-] Hh. rewrite app_nil_r in Hh. by apply holding_acquire. Qed.

Lemma gains_open_fd : gains (fun fd => [HFd fd]) (open_fd A).
Proof. eapply turns_bind; [apply keeps_call|]. intros ?. apply gains_get_fd. Qed.

Lemma keeps_check_name name : keeps (check_name name).
Proof. unfold check_name. destruct (validateName _); [apply turns_throw|by apply turns_ret]. Qed.

(** *** Events and instances *)

Lemma keeps_remove_fifo path : keeps (remove_fifo A path).
Proof. eapply turns_bind; [apply keeps_removing|]. intros ?. same_fds. Qed.

Lemma gains_openFIFO path : gains (fun fd => [HFd fd]) (openFIFO A path).
Proof.
  intros L X w r w' Hr Hh. unfold openFIFO in Hr. destruct (negb _); [by injection Hr as <- <-|]. revert L X w r w' Hr Hh.
  apply turns_bind with (h1 := fun fd => [HFd fd]); [apply gains_open_fd|]. intros fd.
  eapply turns_bind; [apply turns_attempt, keeps_call|]. intros [e|]; [|by apply turns_ret].
  eapply turns_bind; [apply turns_close1|]. intros ?. apply turns_throw.
Qed.

Lemma gains_dupFIFO : gains (fun fd => [HFd fd]) (dupFIFO A).
Proof.
  eapply turns_bind; [apply keeps_call|]. intros ?. eapply turns_bind; [apply keeps_call|]. intros ?.
  apply turns_bind with (h1 := fun fd => [HFd fd]); [apply gains_open_fd|]. intros fd.
  eapply turns_bind; [apply turns_attempt, keeps_call|]. intros [e|]; [|by apply turns_ret].
  eapply turns_bind; [apply turns_close1|]. intros ?. apply turns_throw.
Qed.

Lemma turns_win_finishEvent sem : turns [HFd sem] (fun h => [HFd h.1; HFd h.2]) (win_finishEvent A sem).
Proof.
  intros L X w r w' Hr Hh. unfold win_finishEvent in Hr. destruct (open_fd A w) as [[e|c] w1] eqn:E; injection Hr as <- <-;
    pose proof (gains_open_fd L (X ++ [HFd sem]) w _ _ E) as Hg; rewrite app_nil_r in Hg; specialize (Hg Hh).
  - cbn in Hg. rewrite app_nil_r in Hg. apply (holding_close_in _ _ [] sem) in Hg. exact Hg.
  - cbn in *. by rewrite <-app_assoc in Hg.
Qed.

Lemma gains_win_createEventImpl : gains (fun h => [HFd h.1; HFd h.2]) (win_createEventImpl A).
Proof.
  eapply turns_bind; [apply keeps_call|]. intros ?. apply turns_bind with (h1 := fun fd => [HFd fd]); [apply gains_open_fd|].
  intros fd. apply turns_win_finishEvent.
Qed.

Lemma gains_CreateEvent name : gains (fun fd => [HFd fd]) (CreateEvent A name).
Proof.
  eapply turns_bind; [apply keeps_check_name|]. intros ?. eapply turns_bind; [apply keeps_remove_fifo|]. intros ?.
  eapply turns_bind; [apply keeps_call|]. intros ?. eapply turns_bind; [same_fds|]. intros ?. apply gains_openFIFO.
Qed.

Lemma gains_OpenEvent name : gains (fun fd => [HFd fd]) (OpenEvent A name).
Proof. eapply turns_bind; [apply keeps_check_name|]. intros ?. apply gains_openFIFO. Qed.

Lemma keeps_unlinkEventImpl name : keeps (unlinkEventImpl A name).
Proof.
  intros L X w r w' Hr Hh. unfold unlinkEventImpl in Hr. destruct (fifos w _); [by eapply keeps_remove_fifo|].
  by injection Hr as <- <-.
Qed.

Lemma keeps_remove_segment inst : keeps (remove_segment A inst).
Proof.
  intros L X w r w' Hr Hh. unfold remove_segment in Hr. destruct (seg_at _ _); [|by injection Hr as <- <-].
  destruct ((removing A ;! get_fd) w) as [[e|fd] w1] eqn:E.
  - injection Hr as <- <-.
    by apply (turns_bind [] (fun _ => []) (fun fd => [HFd fd]) _ _ keeps_removing (fun _ => gains_get_fd) _ _ _ _ _ E).
  - apply (turns_bind [] (fun _ => []) (fun fd => [HFd fd]) _ _ keeps_removing (fun _ => gains_get_fd) _ _ _ _ _ E) in Hh.
    revert Hr Hh. apply (turns_bind [HFd fd] (fun _ => [HFd fd]) (fun _ => [])).
    + apply turns_attempt. eapply turns_bind; [apply keeps_removing|]. intros ?. same_fds.
    + intros err. eapply turns_bind; [apply turns_close1|]. intros ?. by apply turns_ret.
Qed.

Lemma keeps_removeInstance name inc : keeps (removeInstance A name inc).
Proof.
  eapply turns_bind; [apply keeps_remove_segment|]. intros err.
  eapply turns_bind; [apply turns_attempt, keeps_unlinkEventImpl|]. intros e1.
  eapply turns_bind; [apply turns_attempt, keeps_unlinkEventImpl|]. intros e2. apply keeps_give.
Qed.

Lemma gains_lockName name : gains (fun fd => [HFd fd]) (lockName A name).
Proof.
  eapply turns_bind; [apply gains_open_fd|]. intros fd. eapply turns_bind; [same_fds|]. intros ?.
  eapply turns_bind; [apply turns_attempt, keeps_call|]. intros [e|]; [|by apply turns_ret].
  eapply turns_bind; [apply turns_close1|]. intros ?. apply turns_throw.
Qed.

Lemma keeps_previous name : keeps (previous name).
Proof. intros L X w r w' [= <- <-] Hh. done. Qed.

Lemma keeps_write name inc : keeps (publish_write A name inc).
Proof.
  intros L X w r w' Hr Hh. unfold publish_write in Hr. cbn in Hr.
  destruct (a_call A (tick w)); [injection Hr as <- <-; kept Hh|]. destruct (a_call A _); injection Hr as <- <-; kept Hh.
Qed.

Lemma keeps_publish name inc : keeps (publish A name inc).
Proof.
  eapply turns_bind; [apply gains_open_fd|]. intros fd. eapply turns_bind; [apply turns_attempt, keeps_write|]. intros err.
  eapply turns_bind; [apply turns_close1|]. intros ?. apply keeps_give.
Qed.

Lemma keeps_removeName name : keeps (removeName A name).
Proof.
  eapply turns_bind; [apply keeps_removing|]. intros ?. eapply turns_bind; [same_fds|]. intros ?.
  eapply turns_bind; [apply keeps_removing|]. intros ?. same_fds.
Qed.

Lemma keeps_sweepName name : keeps_fds (sweepName A name).
Proof.
  intros L X w Hh. unfold sweepName. destruct (lockName A name w) as [[e|fd] w1] eqn:E.
  - rewrite <-(app_nil_r X) in Hh. apply (gains_lockName _ _ _ _ _ _ E) in Hh. by rewrite app_nil_r in Hh.
  - rewrite <-(app_nil_r X) in Hh. apply (gains_lockName _ _ _ _ _ _ E) in Hh.
    assert (Hk : keeps (sweep_locked A name)).
    { eapply turns_bind; [apply keeps_previous|]. intros inc. eapply turns_bind; [|intros ?; apply keeps_removeName].
      destruct inc; [by apply turns_ret|apply keeps_removeInstance]. }
    destruct (sweep_locked A name w1) as [r w2] eqn:E2. apply holding_close. cbn. rewrite <-(app_nil_r (X ++ _)) in Hh.
    apply (Hk _ _ _ _ _ E2) in Hh. destruct r; rewrite app_nil_r in Hh; (eapply holding_perm; [|exact Hh]); symmetry; apply Permutation_cons_append.
Qed.

Lemma keeps_sweepStale found : keeps_fds (sweepStale A found).
Proof.
  unfold sweepStale. induction found as [|name found IH]; intros L X w Hh; [done|]. cbn. apply IH. by apply keeps_sweepName.
Qed.

(** *** Queues *)

Lemma keeps_new_incarnation : keeps (new_incarnation A).
Proof. intros L X w r w' Hr Hh. unfold new_incarnation, call in Hr. destruct (a_call A (tick w)); simplify_eq; kept Hh. Qed.

Lemma keeps_init_ring inst reader : keeps (init_ring A inst reader).
Proof. intros L X w r w' Hr Hh. unfold init_ring in Hr. repeat case_match; simplify_eq; kept Hh. Qed.

Lemma keeps_attach_ring inst : keeps (attach_ring A inst).
Proof. intros L X w r w' Hr Hh. unfold attach_ring in Hr. repeat case_match; simplify_eq; kept Hh. Qed.

Lemma keeps_readName name : keeps (readName_ A name).
Proof. intros L X w r w' Hr Hh. unfold readName_, call in Hr. repeat case_match; simplify_eq; kept Hh. Qed.

Lemma keeps_configure opts : keeps (configure opts).
Proof. intros L X w r w' Hr Hh. unfold configure in Hr. repeat case_match; simplify_eq; kept Hh. Qed.

Lemma keeps_unlinkName name inc : keeps (unlinkName A name inc).
Proof.
  intros L X w r w' Hr Hh. unfold unlinkName in Hr. destruct (incs w name); [|by simplify_eq].
  destruct (call A w) as [[e|?] w1] eqn:E; apply (keeps_call _ _ _ _ _ E) in Hh; [by simplify_eq|].
  case_bool_decide; [by eapply keeps_removeName|by simplify_eq].
Qed.

Lemma keeps_Unlink q : keeps (Unlink A q).
Proof.
  eapply turns_bind; [apply turns_attempt, keeps_removeInstance|]. intros e1.
  eapply turns_bind; [apply turns_attempt, keeps_unlinkName|]. intros e2. apply keeps_give.
Qed.

Lemma gains_shm_Open inst : gains (fun fd => [HFd fd]) (shm_Open A inst).
Proof. intros L X w r w' Hr Hh. unfold shm_Open in Hr. destruct (seg_at _ _); [by eapply gains_open_fd|by simplify_eq]. Qed.

Lemma gains_shm_Create inst size : gains (fun fd => [HFd fd]) (shm_Create A inst size).
Proof.
  eapply turns_bind; [apply gains_open_fd|]. intros fd. eapply turns_bind; [same_fds|]. intros ?. by apply turns_ret.
Qed.

(** *** The life socket and the watches *)

Lemma gains_listen_life : gains (fun fd => [HFd fd]) (listen_life A).
Proof.
  eapply turns_bind; [apply gains_open_fd|]. intros fd.
  eapply turns_bind; [apply turns_attempt; eapply turns_bind; [apply keeps_call|intros ?; apply keeps_call]|]. intros [e|]; [|by apply turns_ret].
  eapply turns_bind; [apply turns_close1|]. intros ?. eapply turns_bind; [apply turns_attempt, keeps_removing|]. intros ?. apply turns_throw.
Qed.

Lemma holding_set_life L X id o w : p_life (proc w) = None -> holding L X w -> holding L X (set_life id o w).
Proof. intros Hn [H1 H2 H3 H4 H5]. split; try done. left. destruct H5; congruence. Qed.

Lemma open_fd_life w : p_life (proc (open_fd A w).2) = p_life (proc w).
Proof. unfold open_fd, bind, call. by destruct (a_call A (tick w)). Qed.

Lemma listen_life_life w : p_life (proc (listen_life A w).2) = p_life (proc w).
Proof.
  unfold listen_life, bind at 1. pose proof (open_fd_life w) as Ho. destruct (open_fd A w) as [[e|fd] w1]; [done|]. rewrite <-Ho.
  unfold attempt, bind, call, removing, modify, throw, ret. repeat (case_match; simplify_eq/=); done.
Qed.

Lemma keeps_self_ID : keeps (self_ID A).
Proof.
  intros L X w r w' Hr Hh. unfold self_ID in Hr. destruct (p_life (proc w)) as [[id o]|] eqn:Hl; [by simplify_eq|].
  pose proof (listen_life_life w) as Hn. rewrite Hl in Hn.
  destruct (listen_life A w) as [[e|fd] w1] eqn:E; apply (gains_listen_life _ _ _ _ _ E) in Hh; simplify_eq.
  - by apply holding_set_life.
  - apply holding_set_life; [done|]. by apply holding_close_in in Hh.
Qed.

Lemma self_ID_returns w e w' : self_ID A w <> (inl e, w').
Proof. unfold self_ID. destruct (p_life (proc w)) as [[id o]|]; [done|]. by destruct (listen_life A w) as [[?|?] ?]. Qed.

Lemma dial_dead_keeps id : keeps_fds (fun w => (dial_dead A id w).2).
Proof.
  intros L X w Hh. unfold dial_dead. destruct (negb _); [done|]. case_bool_decide; [done|]. rewrite <-(app_nil_r X) in Hh.
  destruct (open_fd A w) as [[e|fd] w1] eqn:E; apply (gains_open_fd _ _ _ _ _ E) in Hh; cbn.
  - by rewrite app_nil_r in Hh.
  - apply holding_close_in in Hh. by rewrite app_nil_r in Hh.
Qed.

Lemma watches_new_key w : watches_ok w -> new_key (p_next (proc w)) (p_watches (proc w)).
Proof.
  intros Hw. eapply list.Forall_impl; [exact Hw|]. intros e [_ Hk] Hin. rewrite list.Forall_forall in Hk. apply Hk in Hin. lia.
Qed.

Lemma add_key_ok n id t :
  Forall (fun e : Z * (nat * list nat) => e.2.2 <> [] /\ Forall (fun k => (k < n)%nat) e.2.2) t ->
  Forall (fun e : Z * (nat * list nat) => e.2.2 <> [] /\ Forall (fun k => (k < n + 1)%nat) e.2.2) (add_key id n t).
Proof.
  intros Ht. apply list.Forall_fmap. eapply list.Forall_impl; [exact Ht|]. intros [i [fd keys]] [Hne Hk]. cbn in *.
  assert (Hk' : Forall (fun k => (k < n + 1)%nat) keys) by (eapply list.Forall_impl; [exact Hk|]; cbn; lia).
  destruct (decide (i = id)); [|done]. split; [by destruct keys|]. apply list.Forall_app. split; [done|]. apply list.Forall_singleton. lia.
Qed.

Lemma holding_add_watch L X id o w : holding L X w -> holding L (X ++ [HReg (id, p_next (proc w))]) (add_watch id o w).2.
Proof.
  intros [H1 H2 H3 H4 H5]. pose proof (watches_new_key w H2) as Hn. split; cbn; [done| | | |done].
  - unfold watches_ok. destruct o as [fd|]; cbn; [|by apply add_key_ok]. apply list.Forall_app. split.
    + eapply list.Forall_impl; [exact H2|]. intros e [? Hk]. split; [done|]. eapply list.Forall_impl; [exact Hk|]. cbn. lia.
    + apply list.Forall_singleton. split; [done|]. apply list.Forall_singleton. lia.
  - destruct H3 as (Y & H3 & HY). exists Y. split; [done|]. by rewrite fds_app, app_nil_r.
  - rewrite regs_app. change (regs [HReg (id, p_next (proc w))]) with [(id, p_next (proc w))]. rewrite <-H4. destruct o as [fd|].
    + rewrite strip_app, strip_new_key by done. unfold strip at 2. cbn [mbind list_bind strip_entry].
      rewrite filter_cons_False, filter_nil; [by rewrite app_nil_r|]. intros Hx. apply Hx. apply elem_of_app. right. by left.
    + by apply strip_add_key.
Qed.

Lemma gains_on_exit id : gains rlist (on_exit A id).
Proof.
  intros L X w r w' Hr Hh. rewrite app_nil_r in Hh. unfold on_exit in Hr. case_bool_decide.
  { unfold bind, ret, add_watch in Hr. simplify_eq. by apply (holding_add_watch L X id None w). }
  destruct (negb _); [by simplify_eq; rewrite app_nil_r|]. rewrite <-(app_nil_r X) in Hh.
  destruct (open_fd A w) as [[e|fd] w1] eqn:E; apply (gains_open_fd _ _ _ _ _ E) in Hh.
  - destruct (life_gone e); by simplify_eq.
  - unfold bind, ret, modify, add_watch in Hr. simplify_eq. apply (holding_add_watch _ _ id (Some fd)) in Hh. rewrite <-app_assoc in Hh.
    by apply holding_close_in in Hh.
Qed.

Lemma holding_cancel L X o w : holding L (X ++ rlist o) w -> holding L X (cancel o w).
Proof.
  destruct o as [r|]; [|by rewrite app_nil_r]. intros [H1 H2 (Y & H3 & HY) H4 H5]. rewrite fds_app, app_nil_r in HY. rewrite regs_app in H4.
  split; cbn; [done| |by exists Y| |done].
  - unfold watches_ok in *. cbn. unfold strip. apply list.Forall_bind. eapply list.Forall_impl; [exact H2|].
    intros [i [fd keys]] [_ Hk]. unfold compose, strip_entry. cbv beta iota. match goal with |- context [filter ?P keys] => destruct (filter P keys) as [|k ks] eqn:Ef end; [done|]. apply list.Forall_singleton. split; [done|].
    cbn. rewrite <-Ef. rewrite list.Forall_forall in *. intros x [_ Hx]%list_elem_of_filter. by apply Hk.
  - by rewrite strip_strip.
Qed.

Lemma holding_cancel_in L X1 X2 o w : holding L (X1 ++ rlist o ++ X2) w -> holding L (X1 ++ X2) (cancel o w).
Proof.
  intros Hh. apply holding_cancel. eapply holding_perm; [|exact Hh]. rewrite <-app_assoc. apply Permutation_app_head, Permutation_app_comm.
Qed.

(** [peer.stop] and [producers.stop] take back every callback of a handle. *)
Lemma holding_stop_watches L X l w : holding L (X ++ held_links l) w -> holding L X (stop_watches l w).
Proof.
  unfold held_links, stop_watches. intros Hh. apply holding_cancel_in in Hh. revert Hh. generalize (cancel (l_cancel l) w) as v.
  induction (l_producers l) as [|[id o] ps IH]; intros v Hh; [by rewrite app_nil_r in Hh|]. cbn [foldl]. apply IH.
  cbn [mbind list_bind] in Hh. by apply holding_cancel_in in Hh.
Qed.

(** A constructor's body that starts with [pre] ends with what its handle holds, also when
    it fails, and starts no watch. *)
Definition fills (pre : list holds) (f : filling (S := S)) : Prop :=
  forall L X w e q w', f w = ((e, q), w') -> holding L (X ++ pre) w -> holding L (X ++ held q) w' /\ held_links (h_links q) = [].

Lemma fills_filled pre q : pre ≡ₚ held q -> held_links (h_links q) = [] -> fills pre (filled q).
Proof. intros Hp Hn L X w e q' w' [= <- <- <-] Hh. split; [|done]. eapply holding_perm; [|done]. by apply Permutation_app_head. Qed.

Lemma fills_fill {B} (hs : B -> list holds) m q k pre :
  pre ≡ₚ held q -> held_links (h_links q) = [] -> gains hs m -> (forall b, fills (held q ++ hs b) (k b)) -> fills pre (fill m q k).
Proof.
  intros Hp Hn Hm Hk L X w e q' w' Hr Hh. apply (holding_perm _ _ (X ++ held q)) in Hh; [|by apply Permutation_app_head].
  unfold fill in Hr. rewrite <-(app_nil_r (X ++ _)) in Hh. destruct (m w) as [[e1|b] w1] eqn:E.
  - simplify_eq. apply (Hm _ _ _ _ _ E) in Hh. by rewrite app_nil_r in Hh.
  - apply (Hm _ _ _ _ _ E) in Hh. rewrite <-app_assoc in Hh. by eapply Hk.
Qed.

Ltac perm := cbn; repeat first [reflexivity | apply perm_skip | apply perm_swap | etrans; [apply Permutation_app_comm|cbn]].

Lemma fills_build reader name cap self lock r : fills [HFd lock] (build A reader (h_set_lock lock r (new_handle name cap self))).
Proof.
  unfold build. eapply fills_fill; [done|done|apply keeps_previous|]. intros old.
  eapply (fills_fill (fun _ => [])); [done|done|destruct old; [by apply turns_ret|apply keeps_removeInstance]|]. intros ?.
  eapply fills_fill; [done|done|apply keeps_new_incarnation|]. intros inc.
  eapply fills_fill; [done|done|apply gains_CreateEvent|]. intros ne.
  eapply fills_fill; [done|done|apply gains_CreateEvent|]. intros nf.
  eapply fills_fill; [done|done|apply gains_shm_Create|]. intros seg.
  eapply fills_fill; [done|done|apply keeps_init_ring|]. intros ring.
  eapply fills_fill; [done|done|apply keeps_publish|]. intros ?. by apply fills_filled.
Qed.

Lemma fills_attach name cap self inc : fills [] (attach A (h_set_inc inc (new_handle name cap self))).
Proof.
  unfold attach. eapply fills_fill; [done|done|apply gains_shm_Open|]. intros seg.
  eapply fills_fill; [done|done|apply keeps_attach_ring|]. intros ring.
  eapply fills_fill; [done|done|apply gains_OpenEvent|]. intros ne.
  eapply fills_fill; [perm|done|apply gains_OpenEvent|]. intros nf. apply fills_filled; [perm|done].
Qed.

Lemma holding_close_opt L X1 X2 o w : holding L (X1 ++ olist o ++ X2) w -> holding L (X1 ++ X2) (close_opt o w).
Proof. destruct o; [apply holding_close_in|done]. Qed.

Lemma holding_close_last L X o w : holding L (X ++ olist o) w -> holding L X (close_opt o w).
Proof. intros Hh. rewrite <-(app_nil_r X). apply holding_close_opt. by rewrite app_nil_r. Qed.

Lemma holding_win_close L X (h : nat * nat) w : holding L (X ++ [HFd h.1; HFd h.2]) w -> holding L X (win_close h w).
Proof. intros Hh. apply holding_close_in in Hh. by apply (holding_close_last _ _ (Some h.2)). Qed.

(** Everything but the lock, which [Close] and [unwind] close last. *)
Lemma holding_close_rest L X q w :
  holding L (X ++ held_fds q) w -> holding L (X ++ olist (h_lock q)) (close_opt (h_seg q) (close_opt (h_nf q) (close_opt (h_ne q) w))).
Proof.
  intros Hh. unfold held_fds in Hh. rewrite app_assoc in Hh. apply holding_close_opt in Hh. apply holding_close_opt in Hh.
  by apply holding_close_last.
Qed.

Lemma holding_close_handle L X q w : holding L (X ++ held q) w -> holding L X (close_handle q w).
Proof.
  intros Hh. apply holding_close_last, holding_close_rest, holding_stop_watches. unfold held in Hh. by rewrite app_assoc in Hh.
Qed.

Lemma keeps_snd {B} (m : io (S := S) B) L X w : keeps m -> holding L X w -> holding L X (m w).2.
Proof.
  intros Hm Hh. destruct (m w) as [r w'] eqn:E. cbn. rewrite <-(app_nil_r X) in Hh.
  apply (Hm _ _ _ _ _ E) in Hh. by destruct r; rewrite app_nil_r in Hh.
Qed.

Lemma holding_unwind L X q w : held_links (h_links q) = [] -> holding L (X ++ held q) w -> holding L X (unwind A q w).
Proof.
  intros Hn Hh. unfold held in Hh. rewrite Hn, app_nil_r in Hh. apply holding_close_rest in Hh. unfold unwind. destruct (h_lock q) as [fd|]; [|by rewrite app_nil_r in Hh].
  apply (holding_close_last L X (Some fd)). destruct (h_inc q); [done|]. by apply keeps_snd; [apply keeps_removeInstance|].
Qed.

Lemma gains_or_unwind pre f : fills pre f -> turns pre held (fun w => or_unwind A (f w)).
Proof.
  intros Hf L X w r w' Hr Hh. destruct (f w) as [[e q] w1] eqn:E. apply (Hf _ _ _ _ _ _ E) in Hh as [Hh Hn].
  destruct e; simplify_eq/=; [|done]. rewrite app_nil_r. by apply holding_unwind.
Qed.

Lemma gains_createQueue found name opts pending : gains held (createQueue A found name opts pending).
Proof.
  eapply turns_bind; [apply keeps_check_name|]. intros ?. eapply turns_bind; [apply keeps_configure|]. intros cfg.
  eapply turns_bind; [apply turns_modify, keeps_sweepStale|]. intros ?. eapply turns_bind; [apply gains_lockName|]. intros lock.
  apply turns_bind with (h1 := fun _ => [HFd lock]); [apply turns_frame; [apply keeps_self_ID|apply self_ID_returns]|]. intros self.
  apply gains_or_unwind, fills_build.
Qed.

Lemma held_set_capacity q : held (set_capacity q) = held q.
Proof. unfold set_capacity. by destruct (h_ring q). Qed.

Lemma gains_openQueue name opts : gains held (openQueue A name opts).
Proof.
  eapply turns_bind; [apply keeps_check_name|]. intros ?. eapply turns_bind; [apply keeps_configure|]. intros cfg.
  eapply turns_bind; [apply keeps_self_ID|]. intros self.
  eapply turns_bind; [apply keeps_readName|]. intros inc. eapply turns_bind; [apply gains_or_unwind, fills_attach|]. intros q.
  apply turns_ret. by rewrite held_set_capacity.
Qed.

Lemma turns_close_handle q : turns (held q) (fun _ => []) (modify (close_handle q)).
Proof. intros L X w r w' [= <- <-] Hh. rewrite app_nil_r. by apply holding_close_handle. Qed.

(** *** The watches of a handle *)

(** Calls on a handle end with what the handle then holds. *)
Definition renews (f : Handle -> filling (S := S)) : Prop :=
  forall L X q w e q' w', f q w = ((e, q'), w') -> holding L (X ++ held q) w -> holding L (X ++ held q') w'.

Lemma held_set_links l q : held (h_set_links l q) = held_fds q ++ held_links l.
Proof. done. Qed.

Lemma watch_peer_renews id : renews (watch_peer A id).
Proof.
  intros L X q w e q' w' Hr Hh. unfold watch_peer in Hr. set (l := h_links q) in *.
  unfold held, held_links in Hh. fold l in Hh. rewrite app_assoc in Hh. apply holding_cancel_in in Hh.
  apply (dial_dead_keeps id) in Hh. destruct (dial_dead A id _) as [[] w1]; cbn [snd] in Hh.
  { simplify_eq. by rewrite held_set_links, app_assoc. }
  rewrite <-(app_nil_r (_ ++ _)) in Hh.
  destruct (on_exit A id w1) as [[e1|c] w2] eqn:E; apply (gains_on_exit _ _ _ _ _ _ E) in Hh; simplify_eq; rewrite held_set_links, app_assoc.
  - by rewrite app_nil_r in Hh.
  - eapply holding_perm; [|exact Hh]. unfold held_links. cbn. rewrite <-!app_assoc. do 2 apply Permutation_app_head. apply Permutation_app_comm.
Qed.

Lemma check_peer_renews id : renews (check_peer A id).
Proof.
  intros L X q w e q' w' Hr Hh. unfold check_peer in Hr. 
  destruct (id =? noProc), ((id =? pendingProc) || (id =? l_self (h_links q))), (negb (watchable id)), (l_id (h_links q) =? id); try (by simplify_eq). by eapply watch_peer_renews.
Qed.

Lemma watch_producer_renews id : renews (watch_producer A id).
Proof.
  intros L X q w e q' w' Hr Hh. unfold watch_producer in Hr. case_bool_decide; [by simplify_eq|]. rewrite <-(app_nil_r (_ ++ _)) in Hh.
  destruct (on_exit A id w) as [[e1|c] w2] eqn:E; apply (gains_on_exit _ _ _ _ _ _ E) in Hh; simplify_eq.
  - by rewrite app_nil_r in Hh.
  - rewrite held_set_links. unfold held, held_links in *. cbn. rewrite bind_app. cbn. rewrite app_nil_r. by rewrite <-!app_assoc in Hh.
Qed.

Lemma used_renews us L X q w : holding L (X ++ held q) w -> holding L (X ++ held (used A us q w).1) (used A us q w).2.
Proof.
  revert q w. induction us as [|u us IH]; intros q w Hh; [done|]. cbn [used]. unfold use_handle.
  destruct u as [id|id].
  - destruct (check_peer A id q w) as [[e q1] w1] eqn:E. apply IH. by eapply check_peer_renews.
  - destruct (watch_producer A id q w) as [[e q1] w1] eqn:E. apply IH. by eapply watch_producer_renews.
Qed.

Lemma gains_OpenQueue name opts : gains held (OpenQueue A name opts).
Proof.
  eapply turns_bind; [apply gains_openQueue|]. intros q L X w r w' Hr Hh.
  destruct (check_peer A _ q w) as [[[e|] q1] w1] eqn:E; apply (check_peer_renews _ _ _ _ _ _ _ _ E) in Hh; simplify_eq; [|done].
  rewrite app_nil_r. by apply holding_close_handle.
Qed.

(** *** Channels and what is built on them *)

Lemma gains_CreateChannel found name opts : gains held_chan (CreateChannel A found name opts).
Proof.
  eapply turns_bind; [apply keeps_check_name|]. intros ?. eapply turns_bind; [apply gains_createQueue|]. intros tx.
  intros L X w r w' Hr Hh. rewrite <-(app_nil_r (X ++ _)) in Hh.
  destruct (createQueue A [] _ opts false w) as [[e|rx] w1] eqn:E; apply (gains_createQueue _ _ _ _ _ _ _ _ _ E) in Hh; simplify_eq.
  - rewrite app_nil_r in Hh. rewrite app_nil_r. apply keeps_snd; [apply keeps_Unlink|]. by apply holding_close_handle.
  - by rewrite <-app_assoc in Hh.
Qed.

Lemma gains_OpenChannel swapped name opts : gains held_chan (OpenChannel A swapped name opts).
Proof.
  eapply turns_bind; [apply keeps_check_name|]. intros ?. eapply turns_bind; [apply gains_OpenQueue|]. intros tx.
  intros L X w r w' Hr Hh. rewrite <-(app_nil_r (X ++ _)) in Hh.
  destruct (openQueue A _ opts w) as [[e|rx] w1] eqn:E; apply (gains_openQueue _ _ _ _ _ _ _ E) in Hh.
  - simplify_eq. rewrite app_nil_r in Hh. rewrite app_nil_r. by apply holding_close_handle.
  - destruct swapped; simplify_eq; [by rewrite <-app_assoc in Hh|]. rewrite app_nil_r. by do 2 apply holding_close_handle.
Qed.

Lemma holding_close_chan L X c w : holding L (X ++ held_chan c) w -> holding L X (Channel_Close c w).
Proof. intros Hh. unfold held_chan in Hh. rewrite app_assoc in Hh. by do 2 apply holding_close_handle. Qed.

Lemma used_chan_renews us L X c w : holding L (X ++ held_chan c) w -> holding L (X ++ held_chan (used_chan A us c w).1) (used_chan A us c w).2.
Proof.
  intros Hh. unfold held_chan in *. unfold used_chan. apply (holding_perm _ _ ((X ++ held (c_rx c)) ++ held (c_tx c))) in Hh;
    [|rewrite <-app_assoc; apply Permutation_app_head, Permutation_app_comm].
  apply (used_renews us.1) in Hh. destruct (used A us.1 (c_tx c) w) as [tx w1]. cbn [fst snd] in Hh.
  apply (holding_perm _ _ ((X ++ held tx) ++ held (c_rx c))) in Hh;
    [|rewrite <-!app_assoc; apply Permutation_app_head, Permutation_app_comm].
  apply (used_renews us.2) in Hh. destruct (used A us.2 (c_rx c) w1) as [rx w2]. cbn in *. by rewrite <-app_assoc in Hh.
Qed.

Lemma keeps_Channel_Unlink c : keeps (Channel_Unlink A c).
Proof.
  eapply turns_bind; [apply turns_attempt, keeps_Unlink|]. intros e1.
  eapply turns_bind; [apply turns_attempt, keeps_Unlink|]. intros e2. apply keeps_give.
Qed.

Lemma keeps_knock us name : keeps_fds (knock A us name).
Proof.
  intros L X w Hh. unfold knock. rewrite <-(app_nil_r X) in Hh.
  destruct (OpenQueue A _ [] w) as [[e|q] w1] eqn:E; apply (gains_OpenQueue _ _ _ _ _ _ _ E) in Hh.
  - by rewrite app_nil_r in Hh.
  - apply (used_renews us) in Hh. destruct (used A us q w1) as [q' w2]. by apply holding_close_handle.
Qed.

Lemma gains_Connect found us hello name opts : gains held_chan (Connect A found us hello name opts).
Proof.
  eapply turns_bind; [apply keeps_check_name|]. intros ?. eapply turns_bind; [apply keeps_new_incarnation|]. intros id.
  eapply turns_bind; [apply gains_CreateChannel|]. intros ch. eapply turns_bind; [apply turns_modify, keeps_knock|]. intros ?.
  apply turns_bind with (h1 := held_chan).
  { intros L X w r w' Hr Hh. apply (used_chan_renews us.2) in Hh. destruct (used_chan A us.2 ch w) as [ch' w1]. by simplify_eq. }
  clear ch. intros ch. destruct hello; [|by apply turns_ret].
  apply turns_bind with (h1 := fun _ => []); [intros L X w r w' [= <- <-] Hh; rewrite app_nil_r; by apply holding_close_chan|].
  intros ?. eapply turns_bind; [apply turns_attempt, keeps_Channel_Unlink|]. intros ?. apply turns_throw.
Qed.

Lemma gains_Serve found name handler opts : gains held (Serve A found name handler opts).
Proof.
  eapply turns_bind; [apply keeps_check_name|]. intros ?. destruct handler; [apply gains_createQueue|apply turns_throw].
Qed.
End Descriptors.

(** ** What a process leaves in the file system *)

Section Files.
Context {S : Type} `{ShmLaws S}.
Variable A : answers.

Implicit Types w : os S.

(** The FIFOs of an instance. *)
Definition fifo_of (inst p : list byte) : Prop := p = eventPath (notEmptyName inst) \/ p = eventPath (notFullName inst).

(** An identity that the process has is a 64-bit word. *)
Definition life_word w : Prop := forall id o, p_life (proc w) = Some (id, o) -> 0 <= id < 2 ^ 64.

(** Every segment and every FIFO of the second state that is not of an instance in [I] is
    one of the first state, and a process keeps its identity. *)
Record leaves (I : list (list byte)) w w' : Prop := {
  le_segs : forall n, is_Some (seg_at (segs w') n) -> is_Some (seg_at (segs w) n) \/ n ∈ I;
  le_fifos : forall p, fifos w' p = true -> fifos w p = true \/ exists n, n ∈ I /\ fifo_of n p;
  le_life : forall x, p_life (proc w) = Some x -> p_life (proc w') = Some x;
  le_word : life_word w -> life_word w' }.

(** The same for calls, however they end. *)
Definition makes {B} (I : list (list byte)) (m : io (S := S) B) : Prop := forall w, leaves I w (m w).2.

Lemma leaves_refl I w : leaves I w w.
Proof. split; auto. Qed.

Lemma leaves_same I w w' : segs w' = segs w -> fifos w' = fifos w -> p_life (proc w') = p_life (proc w) -> leaves I w w'.
Proof. intros H1 H2 H3. split; unfold life_word; rewrite ?H1, ?H2, ?H3; auto. Qed.

Lemma leaves_trans I w1 w2 w3 : leaves I w1 w2 -> leaves I w2 w3 -> leaves I w1 w3.
Proof. intros [A1 A2 A3 A4] [B1 B2 B3 B4]. split; [intros n Hn; destruct (B1 n Hn); auto|intros p Hp; destruct (B2 p Hp); auto|auto..]. Qed.

Lemma leaves_close_fd I fd w w' : leaves I w w' -> leaves I w (close_fd fd w').
Proof. intros Hl. eapply leaves_trans; [exact Hl|by apply leaves_same]. Qed.

Lemma leaves_more I J w w' : I ⊆ J -> leaves I w w' -> leaves J w w'.
Proof.
  intros Hs [A1 A2 A3 A4]. split; [| |exact A3|exact A4].
  - intros n Hn. destruct (A1 n Hn); auto.
  - intros p Hp. destruct (A2 p Hp) as [|(n & Hn & Hf)]; [by left|]. right. exists n. auto.
Qed.

Lemma makes_bind {B C} I (m : io (S := S) B) (k : B -> io (S := S) C) : makes I m -> (forall b, makes I (k b)) -> makes I (bind m k).
Proof.
  intros Hm Hk w. unfold bind. specialize (Hm w). destruct (m w) as [[e|b] w1]; [done|]. eapply leaves_trans; [done|apply Hk].
Qed.

Lemma makes_attempt {B} I (m : io (S := S) B) : makes I m -> makes I (attempt m).
Proof. intros Hm w. specialize (Hm w). unfold attempt. by destruct (m w) as [[e|b] w1]. Qed.

Lemma makes_ret {B} I (b : B) : makes I (ret b).
Proof. intros w. apply leaves_refl. Qed.

Lemma makes_throw {B} I e : makes I (throw (B := B) e).
Proof. intros w. apply leaves_refl. Qed.

Lemma makes_modify I (f : os S -> os S) : (forall w, leaves I w (f w)) -> makes I (modify f).
Proof. intros Hf w. apply Hf. Qed.

Lemma makes_more {B} I J (m : io (S := S) B) : I ⊆ J -> makes I m -> makes J m.
Proof. intros Hs Hm w. by eapply leaves_more. Qed.

(** Calls that change neither. *)
Ltac no_files := let w := fresh "w" in intros w; unfold call, removing, get_fd, give, check_name, configure, previous in *;
  repeat case_match; simplify_eq/=; by apply leaves_same.

Lemma makes_call I : makes I (call A).
Proof. no_files. Qed.
Lemma makes_removing I : makes I (removing A).
Proof. no_files. Qed.
Lemma makes_get_fd I : makes I get_fd.
Proof. intros w. by apply leaves_same. Qed.
Lemma makes_open_fd I : makes I (open_fd A).
Proof. apply makes_bind; [apply makes_call|intros _; apply makes_get_fd]. Qed.
Lemma makes_check_name I name : makes I (check_name name).
Proof. no_files. Qed.
Lemma makes_give I e : makes I (give e).
Proof. no_files. Qed.
Lemma makes_previous I name : makes I (previous name).
Proof. no_files. Qed.
Lemma makes_configure I opts : makes I (configure opts).
Proof. no_files. Qed.
Lemma makes_close_fd I fd : makes I (modify (close_fd fd)).
Proof. no_files. Qed.

Create HintDb files.
Hint Resolve makes_call makes_removing makes_get_fd makes_open_fd makes_check_name makes_give makes_previous makes_configure
  makes_close_fd makes_ret makes_throw : files.

Lemma makes_remove_fifo I path : makes I (remove_fifo A path).
Proof.
  apply makes_bind; [auto with files|]. intros _ w. split; [auto| |auto..]. cbn. unfold update. intros p. case_decide; [done|auto].
Qed.

Lemma makes_openFIFO I path : makes I (openFIFO A path).
Proof.
  intros w. unfold openFIFO. destruct (negb _); [apply leaves_refl|].
  apply (makes_bind I); [auto with files|]. intros fd. apply makes_bind; [apply makes_attempt; auto with files|].
  intros [|]; [|auto with files]. apply makes_bind; auto with files.
Qed.

Lemma makes_CreateEvent I name :
  (exists n, n ∈ I /\ fifo_of n (eventPath name)) -> makes I (CreateEvent A name).
Proof.
  intros Hn. apply makes_bind; [auto with files|]. intros _. apply makes_bind; [apply makes_remove_fifo|]. intros _.
  apply makes_bind; [auto with files|]. intros _. apply makes_bind; [|intros _; apply makes_openFIFO].
  intros w. split; [auto| |auto..]. cbn. unfold update. intros p. case_decide; [subst; auto|auto].
Qed.

Lemma makes_unlinkEventImpl I name : makes I (unlinkEventImpl A name).
Proof. intros w. unfold unlinkEventImpl. destruct (fifos w _); [apply makes_remove_fifo|apply leaves_refl]. Qed.

Lemma makes_unlinkSegment I inst : makes I (unlinkSegment A inst).
Proof.
  apply makes_bind; [auto with files|]. intros _ w. split; [|auto..]. cbn. intros n. rewrite seg_unlink_at. case_decide; [|auto].
  by intros [? [=]].
Qed.

Lemma makes_remove_segment I inst : makes I (remove_segment A inst).
Proof.
  intros w. unfold remove_segment. destruct (seg_at _ _); [|apply leaves_refl].
  pose proof (makes_bind I _ _ (makes_removing I) (fun _ => makes_get_fd I) w) as Hm.
  destruct ((removing A ;! get_fd) w) as [[e|fd] w1]; [done|]. eapply leaves_trans; [exact Hm|].
  apply (makes_bind I); [apply makes_attempt, makes_unlinkSegment|]. intros err. apply makes_bind; auto with files.
Qed.

Lemma makes_removeInstance I name inc : makes I (removeInstance A name inc).
Proof.
  apply makes_bind; [apply makes_remove_segment|]. intros err.
  apply makes_bind; [apply makes_attempt, makes_unlinkEventImpl|]. intros e1.
  apply makes_bind; [apply makes_attempt, makes_unlinkEventImpl|]. intros e2. auto with files.
Qed.

Lemma makes_lockName I name : makes I (lockName A name).
Proof.
  apply makes_bind; [auto with files|]. intros fd. apply makes_bind; [intros w; by apply leaves_same|]. intros _.
  apply makes_bind; [apply makes_attempt; auto with files|]. intros [e|]; [|auto with files]. apply makes_bind; auto with files.
Qed.

Lemma makes_publish_write I name inc : makes I (publish_write A name inc).
Proof. intros w. unfold publish_write. cbn. repeat case_match; simplify_eq/=; by apply leaves_same. Qed.

Lemma makes_publish I name inc : makes I (publish A name inc).
Proof.
  apply makes_bind; [auto with files|]. intros fd. apply makes_bind; [apply makes_attempt, makes_publish_write|]. intros err.
  apply makes_bind; auto with files.
Qed.

Lemma makes_removeName I name : makes I (removeName A name).
Proof.
  do 3 (apply makes_bind; [first [apply makes_removing | intros w; by apply leaves_same]|intros _]). intros w. by apply leaves_same.
Qed.

Lemma makes_unlinkName I name inc : makes I (unlinkName A name inc).
Proof.
  intros w. unfold unlinkName. destruct (incs w name); [|apply leaves_refl]. pose proof (makes_call I w) as Hc.
  destruct (call A w) as [[e|?] w1]; [done|]. case_bool_decide; [|done]. eapply leaves_trans; [exact Hc|apply makes_removeName].
Qed.

Lemma makes_Unlink I q : makes I (Unlink A q).
Proof.
  apply makes_bind; [apply makes_attempt, makes_removeInstance|]. intros e1.
  apply makes_bind; [apply makes_attempt, makes_unlinkName|]. intros e2. auto with files.
Qed.

Lemma makes_new_incarnation I : makes I (new_incarnation A).
Proof. intros w. unfold new_incarnation. cbn. destruct (a_call A (tick w)); by apply leaves_same. Qed.

Lemma makes_shm_Create inst size : makes [inst] (shm_Create A inst size).
Proof.
  apply makes_bind; [auto with files|]. intros fd. apply makes_bind; [|auto with files].
  intros w. split; [|auto..]. cbn. intros n. rewrite seg_create_at. case_decide; [subst; right; by left|auto].
Qed.

Lemma makes_init_ring I inst reader : makes I (init_ring A inst reader).
Proof.
  intros w. unfold init_ring. destruct (seg_at (segs w) inst) as [buf|] eqn:Hs; [|apply leaves_refl].
  destruct (initRing _ _ _); [|apply leaves_refl]. split; [|auto..]. cbn. intros n. rewrite seg_store_at, Hs.
  case_decide; [subst; left; by rewrite Hs|auto].
Qed.

Lemma leaves_sweepName I name w : leaves I w (sweepName A name w).
Proof.
  unfold sweepName. pose proof (makes_lockName I name w) as Hl. destruct (lockName A name w) as [[e|fd] w1]; [done|].
  eapply leaves_trans; [exact Hl|]. apply leaves_close_fd.
  apply (makes_bind I); [auto with files|]. intros inc. apply makes_bind; [|intros _; apply makes_removeName].
  destruct inc; [auto with files|apply makes_removeInstance].
Qed.

Lemma leaves_sweepStale I found w : leaves I w (sweepStale A found w).
Proof.
  revert w. unfold sweepStale. induction found as [|name found IH]; intros w; [apply leaves_refl|].
  eapply leaves_trans; [apply leaves_sweepName|apply IH].
Qed.

(** *** Calls that remove work *)

Hypothesis removable : forall n, a_remove A n = false.
Hypothesis random : forall n, List.length (a_raw A n) = 8%nat.

(** Nothing of the instance is there. *)
Definition cleared (inst : list byte) w : Prop :=
  seg_at (segs w) inst = None /\ forall p, fifo_of inst p -> fifos w p = false.

Lemma absent_seg w w' n : leaves [] w w' -> seg_at (segs w) n = None -> seg_at (segs w') n = None.
Proof.
  intros [H1 _ _ _] Hn. destruct (seg_at (segs w') n) eqn:E; [|done]. destruct (H1 n) as [[x Hx]|Hx]; [by rewrite E|congruence|].
  by apply not_elem_of_nil in Hx.
Qed.

Lemma absent_fifo w w' p : leaves [] w w' -> fifos w p = false -> fifos w' p = false.
Proof.
  intros [_ H1 _ _] Hn. destruct (fifos w' p) eqn:E; [|done]. destruct (H1 p E) as [Hx|(n & Hx & _)]; [congruence|].
  by apply not_elem_of_nil in Hx.
Qed.

Lemma unlinkEventImpl_gone name w : fifos (unlinkEventImpl A name w).2 (eventPath name) = false.
Proof.
  unfold unlinkEventImpl. destruct (fifos w (eventPath name)) eqn:E; [|done].
  unfold remove_fifo, bind, removing. rewrite removable. cbn. unfold update. by rewrite decide_True.
Qed.

Lemma remove_segment_gone inst w : seg_at (segs (remove_segment A inst w).2) inst = None.
Proof.
  unfold remove_segment. destruct (seg_at (segs w) inst) eqn:E; [|done].
  unfold unlinkSegment, bind, attempt, removing, get_fd, modify. rewrite removable. cbn. rewrite removable. cbn.
  rewrite seg_unlink_at. by rewrite decide_True.
Qed.

Lemma bind_attempt {B C} (m : io (S := S) B) (k : option oserr -> io (S := S) C) w :
  bind (attempt m) k w = k (match (m w).1 with inl e => Some e | inr _ => None end) (m w).2.
Proof. unfold bind, attempt. by destruct (m w) as [[e|b] w1]. Qed.

Lemma remove_segment_returns inst w : exists e, remove_segment A inst w = (inr e, (remove_segment A inst w).2).
Proof.
  unfold remove_segment. destruct (seg_at (segs w) inst); [|by eexists].
  destruct ((removing A ;! get_fd) w) as [[|fd] w1]; [by eexists|]. rewrite bind_attempt. by eexists.
Qed.

Lemma removeInstance_clears name inc w : cleared (instanceName name inc) (removeInstance A name inc w).2.
Proof.
  unfold removeInstance. set (inst := instanceName name inc). unfold bind at 1.
  pose proof (remove_segment_gone inst w) as Hs. destruct (remove_segment_returns inst w) as [err ->].
  set (w1 := (remove_segment A inst w).2) in *. rewrite !bind_attempt.
  pose proof (unlinkEventImpl_gone (notEmptyName inst) w1) as H1.
  pose proof (makes_unlinkEventImpl [] (notEmptyName inst) w1) as L1. set (w2 := (unlinkEventImpl A (notEmptyName inst) w1).2) in *.
  pose proof (unlinkEventImpl_gone (notFullName inst) w2) as H2.
  pose proof (makes_unlinkEventImpl [] (notFullName inst) w2) as L2. set (w3 := (unlinkEventImpl A (notFullName inst) w2).2) in *.
  match goal with |- cleared _ (give ?e _).2 => pose proof (makes_give [] e w3) as L3 end.
  split; [by eapply absent_seg; [eapply leaves_trans; [exact L1|eapply leaves_trans; [exact L2|exact L3]]|]|]. intros p [->| ->].
  - eapply absent_fifo; [eapply leaves_trans; [exact L2|exact L3]|exact H1].
  - eapply absent_fifo; [exact L3|exact H2].
Qed.

Lemma leaves_cleared inst I w0 w w' : leaves (inst :: I) w0 w -> leaves [] w w' -> cleared inst w' -> leaves I w0 w'.
Proof.
  intros [A1 A2 A3 A4] [B1 B2 B3 B4] [C1 C2]. split; [| |auto..].
  - intros n Hn. destruct (B1 n Hn) as [Hw|[]%not_elem_of_nil]. destruct (A1 n Hw) as [|[->|Hi]%elem_of_cons]; [by left| |by right].
    rewrite C1 in Hn. by destruct Hn.
  - intros p Hp. destruct (B2 p Hp) as [Hw|(n & []%not_elem_of_nil & _)].
    destruct (A2 p Hw) as [|(n & [->|Hi]%elem_of_cons & Hf)]; [by left| |by right; exists n].
    rewrite (C2 p Hf) in Hp. done.
Qed.

(** The instance that a handle names, if its incarnation is set. *)
Definition inst_list (q : Handle) : list (list byte) := match h_inc q with [] => [] | _ => [instance_of q] end.

Lemma makes_CreateEvent_ne inst : makes [inst] (CreateEvent A (notEmptyName inst)).
Proof. apply makes_CreateEvent. exists inst. split; [by left|by left]. Qed.
Lemma makes_CreateEvent_nf inst : makes [inst] (CreateEvent A (notFullName inst)).
Proof. apply makes_CreateEvent. exists inst. split; [by left|by right]. Qed.

(** The body of a constructor leaves at most the files of the instance in its handle. *)
Definition fills_files (I : list (list byte)) (lock : nat) (f : filling (S := S)) : Prop :=
  forall w e q w', f w = ((e, q), w') -> leaves I w w' /\ inst_list q = I /\ h_lock q = Some lock.

Lemma fills_files_fill {B} I lock (m : io (S := S) B) q k :
  inst_list q = I -> h_lock q = Some lock -> makes I m -> (forall b, fills_files I lock (k b)) -> fills_files I lock (fill m q k).
Proof.
  intros Hq Hlk Hm Hk w e q' w' Hr. unfold fill in Hr. specialize (Hm w). destruct (m w) as [[e1|b] w1].
  - simplify_eq. done.
  - destruct (Hk b w1 e q' w' Hr) as (Hl & Hi & Hk'). split; [by eapply leaves_trans|done].
Qed.

Lemma newIncarnation_nonempty n : newIncarnation (a_raw A n) <> [].
Proof. specialize (random n). destruct (a_raw A n); done. Qed.

Lemma build_leaves reader name cap self lock r w e q w' :
  build A reader (h_set_lock lock r (new_handle name cap self)) w = ((e, q), w') ->
  h_lock q = Some lock /\
  (inst_list q = [instance_of q] /\ leaves [instance_of q] w w' \/ inst_list q = [] /\ leaves [] w w' /\ e <> None).
Proof.
  unfold build. intros Hr. unfold fill at 1 in Hr. cbn in Hr. unfold fill at 1 in Hr.
  set (old := default [] _) in Hr. set (m := match old with [] => ret tt | _ => removeInstance A name old end) in Hr.
  assert (Hm : makes [] m) by (unfold m; destruct old; [apply makes_ret|apply makes_removeInstance]). specialize (Hm w).
  change (match old with [] => ret tt | _ :: _ => removeInstance A name old end) with m in Hr.
  destruct (m w) as [[e1|[]] w1]; [by simplify_eq; split; [|right]|]. cbn in Hm.
  unfold fill at 1, new_incarnation, call in Hr. destruct (a_call A (tick w1)) as [e2|].
  { simplify_eq. split; [done|]. right. split; [done|]. split; [|done]. eapply leaves_trans; [exact Hm|]. by apply leaves_same. }
  set (inc := newIncarnation _) in Hr. set (inst := instanceName name inc).
  assert (Hinc : inc <> []) by apply newIncarnation_nonempty.
  assert (Hin : forall q, h_name q = name -> h_inc q = inc -> inst_list q = [inst] /\ inst = instance_of q).
  { intros q0 H1 H2. unfold inst_list, instance_of. rewrite H1, H2. by destruct inc. }
  cbn in Hr. revert Hr.
  match goal with |- ?f (ticked w1) = _ -> _ => assert (Hf : fills_files [inst] lock f) end.
  { eapply fills_files_fill; [by apply Hin|done|apply makes_CreateEvent_ne|]. intros ne.
    eapply fills_files_fill; [by apply Hin|done|apply makes_CreateEvent_nf|]. intros nf.
    eapply fills_files_fill; [by apply Hin|done|apply makes_shm_Create|]. intros seg.
    eapply fills_files_fill; [by apply Hin|done|apply makes_init_ring|]. intros ring.
    eapply fills_files_fill; [by apply Hin|done|apply makes_publish|]. intros ?.
    intros w0 e0 q0 w0' [= <- <- <-]. split; [apply leaves_refl|split; [by apply Hin|done]]. }
  intros Hr. destruct (Hf _ _ _ _ Hr) as (Hl & Hi & Hk). split; [done|]. left.
  assert (Hq : instance_of q = inst) by (unfold inst_list in Hi; destruct (h_inc q); by simplify_eq). rewrite Hq. split; [done|].
  eapply leaves_trans; [eapply leaves_more; [|exact Hm]; apply list_subseteq_nil|]. eapply leaves_trans; [|exact Hl]. by apply leaves_same.
Qed.

Lemma leaves_close_opt I o w : leaves I w (close_opt o w).
Proof. destruct o; by apply leaves_same. Qed.

Lemma leaves_cancel I o w : leaves I w (cancel o w).
Proof. destruct o; by apply leaves_same. Qed.

Lemma leaves_stop_watches I l w : leaves I w (stop_watches l w).
Proof.
  unfold stop_watches. apply (leaves_trans _ _ (cancel (l_cancel l) w)); [apply leaves_cancel|]. generalize (cancel (l_cancel l) w) as v.
  induction (l_producers l) as [|p ps IH]; intros v; [apply leaves_refl|]. cbn [foldl].
  apply (leaves_trans _ _ (cancel p.2 v)); [apply leaves_cancel|apply IH].
Qed.

Lemma leaves_close_handle I q w : leaves I w (close_handle q w).
Proof.
  unfold close_handle. repeat (eapply leaves_trans; [|apply leaves_close_opt]). apply leaves_stop_watches.
Qed.

Lemma randomID_word raw : 0 <= raw < 2 ^ 64 -> 0 <= randomID raw < 2 ^ 64.
Proof.
  intros Hr. unfold randomID. assert (Hl : forall a b, 0 <= a < 2 ^ 64 -> 0 <= b < 2 ^ 64 -> 0 <= Z.lor a b < 2 ^ 64).
  { intros a b Ha Hb. split; [apply Z.lor_nonneg; lia|]. destruct (Z.eq_dec (Z.lor a b) 0) as [->|Hz]; [lia|].
    apply Z.log2_lt_pow2; [pose proof (proj2 (Z.lor_nonneg a b)); lia|]. rewrite Z.log2_lor by lia. apply Z.max_lub_lt.
    - destruct (Z.eq_dec a 0) as [->|]; [done|apply Z.log2_lt_pow2; lia].
    - destruct (Z.eq_dec b 0) as [->|]; [done|apply Z.log2_lt_pow2; lia]. }
  apply Hl; [apply Hl; [done|]|]; vm_compute; split; discriminate || reflexivity.
Qed.

Lemma self_word n : 0 <= randomID (le_combine (a_raw A n)) < 2 ^ 64.
Proof. apply randomID_word. pose proof (le_combine_bound (a_raw A n)) as Hb. rewrite (random n) in Hb. exact Hb. Qed.

Lemma self_word_failed n : 0 <= Z.ldiff (randomID (le_combine (a_raw A n))) watchable_bit < 2 ^ 64.
Proof.
  pose proof (self_word n) as Hw. revert Hw. generalize (randomID (le_combine (a_raw A n))) as x. intros x Hw.
  assert (Z.ldiff x watchable_bit = Z.ldiff x watchable_bit mod 2 ^ 64) as ->; [|by apply Z.mod_pos_bound].
  apply Z.bits_inj'. intros k Hk. rewrite <-(Z.mod_small x (2 ^ 64)) by done. destruct (Z.ltb_spec k 64).
  - by rewrite Z.mod_pow2_bits_low by lia.
  - rewrite Z.ldiff_spec, !Z.mod_pow2_bits_high by lia. done.
Qed.

Lemma makes_self_ID I : makes I (self_ID A).
Proof.
  intros w. unfold self_ID. destruct (p_life (proc w)) as [[id o]|] eqn:Hl; [apply leaves_refl|].
  assert (Hm : makes I (listen_life A)).
  { apply makes_bind; [auto with files|]. intros fd. apply makes_bind; [apply makes_attempt, makes_bind; auto with files|].
    intros [e|]; [|auto with files]. apply makes_bind; [auto with files|]. intros _. apply makes_bind; [apply makes_attempt|]; auto with files. }
  specialize (Hm w). destruct (listen_life A w) as [[e|fd] w1]; destruct Hm as [M1 M2 M3 M4]; (split; [done|done| |]);
    try (intros x Hx; congruence); intros _ i o [= <- _]; [apply self_word_failed|apply self_word].
Qed.

Lemma makes_on_exit I id : makes I (on_exit A id).
Proof.
  intros w. unfold on_exit. case_bool_decide; [by apply leaves_same|]. destruct (negb _); [apply leaves_refl|].
  pose proof (makes_open_fd I w) as Ho. destruct (open_fd A w) as [[e|fd] w1]; [by destruct (life_gone e)|].
  eapply leaves_trans; [exact Ho|]. by apply leaves_same.
Qed.

Lemma leaves_dial_dead I id w : leaves I w (dial_dead A id w).2.
Proof.
  unfold dial_dead. destruct (negb _); [apply leaves_refl|]. case_bool_decide; [apply leaves_refl|].
  pose proof (makes_open_fd I w) as Ho. destruct (open_fd A w) as [[e|fd] w1]; [done|]. eapply leaves_trans; [exact Ho|]. by apply leaves_same.
Qed.

Lemma leaves_check_peer I id q w : leaves I w (check_peer A id q w).2.
Proof.
  unfold check_peer. destruct (id =? noProc), ((id =? pendingProc) || (id =? l_self (h_links q))), (negb (watchable id)), (l_id (h_links q) =? id); try apply leaves_refl.
  unfold watch_peer. apply (leaves_trans _ _ (cancel (l_cancel (h_links q)) w)); [apply leaves_cancel|]. generalize (cancel (l_cancel (h_links q)) w) as v. intros v.
  pose proof (leaves_dial_dead I id v) as Hd. destruct (dial_dead A id v) as [[] w1]; [done|]. cbn in Hd.
  eapply leaves_trans; [exact Hd|]. pose proof (makes_on_exit I id w1) as Ho. by destruct (on_exit A id w1) as [[e|c] w2].
Qed.

Lemma leaves_used I us q w : leaves I w (used A us q w).2.
Proof.
  revert q w. induction us as [|u us IH]; intros q w; [apply leaves_refl|]. cbn [used]. unfold use_handle. destruct u as [id|id].
  - pose proof (leaves_check_peer I id q w) as Hc. destruct (check_peer A id q w) as [[e q1] w1]. eapply leaves_trans; [exact Hc|apply IH].
  - assert (Hc : leaves I w (watch_producer A id q w).2).
    { unfold watch_producer. case_bool_decide; [apply leaves_refl|]. pose proof (makes_on_exit I id w) as Ho.
      by destruct (on_exit A id w) as [[e|c] w1]. }
    destruct (watch_producer A id q w) as [[e q1] w1]. eapply leaves_trans; [exact Hc|apply IH].
Qed.

(** [unwind] of a handle with a lock removes the files of its instance. *)
Lemma unwind_leaves q w0 w : h_lock q <> None -> leaves (inst_list q) w0 w -> leaves [] w0 (unwind A q w).
Proof.
  intros Hk Hl. unfold unwind. destruct (h_lock q) as [fd|]; [|done]. set (w1 := close_opt _ _).
  assert (H1 : leaves (inst_list q) w0 w1).
  { eapply leaves_trans; [exact Hl|]. unfold w1. repeat (eapply leaves_trans; [|apply leaves_close_opt]). apply leaves_refl. }
  apply leaves_close_fd. unfold inst_list in H1. destruct (h_inc q) eqn:Hi; [done|]. rewrite <-Hi in *.
  eapply leaves_cleared; [exact H1|apply makes_removeInstance|apply removeInstance_clears].
Qed.

Lemma createQueue_leaves found name opts pending w r w' :
  createQueue A found name opts pending w = (r, w') -> leaves match r with inl _ => [] | inr q => [instance_of q] end w w'.
Proof.
  unfold createQueue. intros Hr. unfold bind at 1 in Hr. pose proof (makes_check_name [] name w) as H1.
  destruct (check_name name w) as [[e|?] w1]; [by simplify_eq|]. unfold bind at 1 in Hr. pose proof (makes_configure [] opts w1) as H2.
  destruct (configure opts w1) as [[e|cfg] w2]; [by simplify_eq; eapply leaves_trans|]. unfold bind, modify at 1 in Hr.
  set (w3 := sweepStale A found w2) in *. pose proof (makes_lockName [] name w3) as H3.
  assert (H4 : leaves [] w (lockName A name w3).2).
  { eapply leaves_trans; [exact H1|]. eapply leaves_trans; [exact H2|]. eapply leaves_trans; [|exact H3]. apply leaves_sweepStale. }
  destruct (lockName A name w3) as [[e|lock] w4']; [by simplify_eq|]. cbn in H4. pose proof (makes_self_ID [] w4') as Hs.
  apply (leaves_trans _ _ _ _ H4) in Hs. clear H4. rename Hs into H4. destruct (self_ID A w4') as [[e|self] w4]; [by simplify_eq|]. cbn in H4.
  destruct (build _ _ _ w4) as [[e q] w5] eqn:E. destruct (build_leaves _ _ _ _ _ _ _ _ _ _ E) as [Hk [[Hi Hl]|(Hi & Hl & He)]].
  - assert (H5 : leaves (inst_list q) w w5).
    { rewrite Hi. eapply leaves_trans; [eapply leaves_more; [|exact H4]; apply list_subseteq_nil|done]. }
    destruct e; simplify_eq/=; [by apply unwind_leaves; [rewrite Hk|]|by rewrite Hi in H5].
  - destruct e; [|done]. simplify_eq/=. apply unwind_leaves; [by rewrite Hk|]. rewrite Hi. by eapply leaves_trans.
Qed.

Lemma Unlink_clears q I w0 w : leaves (instance_of q :: I) w0 w -> leaves I w0 (Unlink A q w).2.
Proof.
  intros Hl. unfold Unlink. rewrite !bind_attempt.
  eapply leaves_trans; [eapply leaves_cleared; [exact Hl|apply makes_removeInstance|apply removeInstance_clears]|].
  eapply leaves_trans; [apply makes_unlinkName|apply makes_give].
Qed.

Lemma leaves_none I w w' : leaves [] w w' -> leaves I w w'.
Proof. apply leaves_more, list_subseteq_nil. Qed.

Lemma CreateChannel_leaves found name opts w r w' :
  CreateChannel A found name opts w = (r, w') ->
  leaves match r with inl _ => [] | inr c => [instance_of (c_tx c); instance_of (c_rx c)] end w w'.
Proof.
  unfold CreateChannel. intros Hr. unfold bind at 1 in Hr. pose proof (makes_check_name [] name w) as H1.
  destruct (check_name name w) as [[e|?] w1]; [by simplify_eq|]. unfold bind at 1 in Hr.
  destruct (createQueue A found _ opts true w1) as [[e|tx] w2] eqn:E2; pose proof (createQueue_leaves _ _ _ _ _ _ _ E2) as H2.
  { simplify_eq. by eapply leaves_trans. }
  assert (Htx : leaves [instance_of tx] w w2) by (eapply leaves_trans; [apply leaves_none; exact H1|done]).
  destruct (createQueue A [] _ opts false w2) as [[e|rx] w3] eqn:E3; pose proof (createQueue_leaves _ _ _ _ _ _ _ E3) as H3; simplify_eq.
  - apply Unlink_clears. eapply leaves_trans; [exact Htx|]. eapply leaves_trans; [apply leaves_none; exact H3|apply leaves_close_handle].
  - cbn. eapply leaves_trans; (eapply leaves_more; [|done]); set_solver.
Qed.

Lemma Channel_Unlink_clears c w0 w : leaves [instance_of (c_tx c); instance_of (c_rx c)] w0 w -> leaves [] w0 (Channel_Unlink A c w).2.
Proof.
  intros Hl. unfold Channel_Unlink. rewrite !bind_attempt. eapply leaves_trans; [|apply makes_give].
  by apply Unlink_clears, Unlink_clears.
Qed.

Lemma leaves_Channel_Close I c w : leaves I w (Channel_Close c w).
Proof. eapply leaves_trans; apply leaves_close_handle. Qed.

(** Opening makes nothing. *)
Lemma makes_shm_Open I inst : makes I (shm_Open A inst).
Proof. intros w. unfold shm_Open. destruct (seg_at _ _); [apply makes_open_fd|apply leaves_refl]. Qed.

Lemma makes_OpenEvent I name : makes I (OpenEvent A name).
Proof. apply makes_bind; [apply makes_check_name|]. intros _. apply makes_openFIFO. Qed.

Lemma attach_leaves q w e q' w' : h_lock q = None -> attach A q w = ((e, q'), w') -> leaves [] w w' /\ h_lock q' = None.
Proof.
  intros Hk. set (inv := fun (f : filling (S := S)) => forall w e q' w', f w = ((e, q'), w') -> leaves [] w w' /\ h_lock q' = None).
  assert (Hf : forall B (m : io (S := S) B) q k, h_lock q = None -> makes [] m -> (forall b, inv (k b)) -> inv (fill m q k)).
  { intros B m q0 k Hq Hm Hk' w0 e0 q1 w1 Hr. unfold fill in Hr. specialize (Hm w0). destruct (m w0) as [[e1|b] w2]; [by simplify_eq|].
    destruct (Hk' b _ _ _ _ Hr). split; [by eapply leaves_trans|done]. }
  revert w e q' w'. change (inv (attach A q)). unfold attach.
  apply Hf; [done|apply makes_shm_Open|]. intros seg. apply Hf; [done| |].
  { intros w. unfold attach_ring. repeat case_match; apply leaves_refl. }
  intros ring. apply Hf; [done|apply makes_OpenEvent|]. intros ne. apply Hf; [done|apply makes_OpenEvent|].
  intros nf w e q' w' [= <- <- <-]. split; [apply leaves_refl|done].
Qed.

(** A process that opens a queue removes nothing of it and adds nothing to it when it fails. *)
Lemma makes_openQueue name opts : makes [] (openQueue A name opts).
Proof.
  apply makes_bind; [apply makes_check_name|]. intros _. apply makes_bind; [apply makes_configure|]. intros cfg.
  apply makes_bind; [apply makes_self_ID|]. intros self. apply makes_bind; [intros w; unfold readName_; cbn; repeat case_match; by apply leaves_same|]. intros inc.
  apply makes_bind; [|intros q; apply makes_ret]. intros w.
  destruct (attach A _ w) as [[e q] w1] eqn:E. apply attach_leaves in E as [Hl Hk]; [|done].
  destruct e; cbn; [|done]. unfold unwind. rewrite Hk. eapply leaves_trans; [exact Hl|].
  repeat (eapply leaves_trans; [|apply leaves_close_opt]). apply leaves_refl.
Qed.

Lemma leaves_knock us name w : leaves [] w (knock A us name w).
Proof.
  unfold knock. assert (Hm : makes [] (OpenQueue A (name ++ serviceRegistrySuffix) [])).
  { apply makes_bind; [apply makes_openQueue|]. intros q w0. pose proof (leaves_check_peer [] (receiver q) q w0) as Hc.
    destruct (check_peer A (receiver q) q w0) as [[[e|] q1] w1]; [|done]. eapply leaves_trans; [exact Hc|apply leaves_close_handle]. }
  specialize (Hm w). destruct (OpenQueue A _ [] w) as [[e|q] w1]; [done|]. eapply leaves_trans; [exact Hm|].
  pose proof (leaves_used [] us q w1) as Hu. destruct (used A us q w1) as [q' w2]. eapply leaves_trans; [exact Hu|apply leaves_close_handle].
Qed.

(** Uses change the watches of a handle, not its names. *)
Lemma used_names us q w : instance_of (used A us q w).1 = instance_of q.
Proof.
  revert q w. induction us as [|u us IH]; intros q w; [done|]. cbn [used]. unfold use_handle.
  assert (Hc : forall r, match u with UCheck id => check_peer A id q w | UProducer id => watch_producer A id q w end = r -> instance_of r.1.2 = instance_of q).
  { intros r <-. destruct u as [id|id]; [unfold check_peer, watch_peer|unfold watch_producer]; repeat case_match; by simplify_eq. }
  destruct (match u with UCheck id => _ | UProducer id => _ end) as [[e q1] w1]. rewrite IH. by apply (Hc _ eq_refl).
Qed.

Lemma used_chan_leaves us c w :
  leaves [] w (used_chan A us c w).2 /\
  instance_of (c_tx (used_chan A us c w).1) = instance_of (c_tx c) /\ instance_of (c_rx (used_chan A us c w).1) = instance_of (c_rx c).
Proof.
  unfold used_chan. pose proof (leaves_used [] us.1 (c_tx c) w) as L1. pose proof (used_names us.1 (c_tx c) w) as N1.
  destruct (used A us.1 (c_tx c) w) as [tx w1]. pose proof (leaves_used [] us.2 (c_rx c) w1) as L2. pose proof (used_names us.2 (c_rx c) w1) as N2.
  destruct (used A us.2 (c_rx c) w1) as [rx w2]. cbn in *. split; [by eapply leaves_trans|done].
Qed.

Lemma Connect_leaves found us hello name opts w r w' :
  Connect A found us hello name opts w = (r, w') ->
  leaves match r with inl _ => [] | inr c => [instance_of (c_tx c); instance_of (c_rx c)] end w w'.
Proof.
  unfold Connect. intros Hr. unfold bind at 1 in Hr. pose proof (makes_check_name [] name w) as H1.
  destruct (check_name name w) as [[e|?] w1]; [by simplify_eq|]. unfold bind at 1 in Hr. pose proof (makes_new_incarnation [] w1) as H2.
  destruct (new_incarnation A w1) as [[e|id] w2]; [by simplify_eq; eapply leaves_trans|]. unfold bind at 1 in Hr.
  assert (H3 : leaves [] w w2) by (by eapply leaves_trans).
  destruct (CreateChannel A found _ _ w2) as [[e|ch] w3] eqn:E; apply CreateChannel_leaves in E; [by simplify_eq; eapply leaves_trans|].
  unfold bind at 1, modify at 1 in Hr. unfold bind at 1 in Hr.
  destruct (used_chan_leaves us.2 ch (knock A us.1 name w3)) as (U1 & U2 & U3).
  destruct (used_chan A us.2 ch (knock A us.1 name w3)) as [ch' w4]. cbn in U1, U2, U3.
  assert (H4 : leaves [instance_of (c_tx ch'); instance_of (c_rx ch')] w w4).
  { rewrite U2, U3. eapply leaves_trans; [apply leaves_none; exact H3|]. eapply leaves_trans; [exact E|]. apply leaves_none.
    eapply leaves_trans; [apply leaves_knock|exact U1]. }
  destruct hello as [e|]; [|unfold ret in Hr; by simplify_eq].
  unfold bind at 1, modify at 1 in Hr. rewrite bind_attempt in Hr. unfold throw in Hr. simplify_eq. apply Channel_Unlink_clears.
  eapply leaves_trans; [exact H4|apply leaves_Channel_Close].
Qed.
End Files.

(** ** A created queue can be opened *)

Lemma bind_inv {S B C} (m : io (S := S) B) (k : B -> io (S := S) C) w c w' :
  bind m k w = (inr c, w') -> exists b w1, m w = (inr b, w1) /\ k b w1 = (inr c, w').
Proof. unfold bind. destruct (m w) as [[e|b] w1]; [done|]. intros Hr. by exists b, w1. Qed.

Lemma fill_inv {S B} (m : io (S := S) B) q (k : B -> filling (S := S)) w q' w' :
  fill m q k w = ((None, q'), w') -> exists b w1, m w = (inr b, w1) /\ k b w1 = ((None, q'), w').
Proof. unfold fill. destruct (m w) as [[e|b] w1]; [done|]. intros Hr. by exists b, w1. Qed.

Lemma eventPath_inj n m : eventPath n = eventPath m -> n = m.
Proof. unfold eventPath. intros H%app_inv_head. by apply app_inv_tail in H. Qed.

Lemma ne_nf_differ inst : eventPath (notFullName inst) <> eventPath (notEmptyName inst).
Proof. intros H%eventPath_inj%app_inv_head. discriminate H. Qed.

Section Roundtrip.
Context {S : Type} `{ShmLaws S}.
Variable A : answers.

Implicit Types w : os S.

(** What an opener looks at. *)
Record same_names w w' : Prop := { sn_names : name_files w' = name_files w; sn_incs : incs w' = incs w }.

Lemma call_inv w x w' : call A w = (inr x, w') -> w' = ticked w.
Proof. unfold call. destruct (a_call A (tick w)); [done|]. by intros [= _ <-]. Qed.

Lemma open_fd_inv w fd w' : open_fd A w = (inr fd, w') -> w' = (acquire (ticked w)).2.
Proof. intros (x & w1 & ->%call_inv & Hr)%bind_inv. unfold get_fd in Hr. by injection Hr as _ <-. Qed.

Lemma openFIFO_inv path w fd w' :
  openFIFO A path w = (inr fd, w') -> fifos w path = true /\ fifos w' = fifos w /\ segs w' = segs w /\ same_names w w'.
Proof.
  unfold openFIFO. destruct (fifos w path) eqn:Hf; [|done]. cbn. intros (x & w1 & ->%open_fd_inv & Hr)%bind_inv.
  rewrite bind_attempt in Hr. unfold call in Hr. cbn in Hr. destruct (a_call A _); [done|]. cbn in Hr. injection Hr as _ <-. by repeat split.
Qed.

Lemma removing_inv w x w' : removing A w = (inr x, w') -> w' = ticked w.
Proof. unfold removing. destruct (a_remove A (tick w)); [done|]. by intros [= _ <-]. Qed.

Lemma CreateEvent_inv name w fd w' :
  CreateEvent A name w = (inr fd, w') ->
  validateName (string_of_list_byte name) = None /\ fifos w' (eventPath name) = true /\
  (forall p, p <> eventPath name -> fifos w' p = fifos w p) /\ segs w' = segs w /\ same_names w w'.
Proof.
  intros (x & w1 & Hc & Hr)%bind_inv. unfold check_name in Hc. destruct (validateName _) eqn:Hv; [done|]. injection Hc as _ <-.
  apply bind_inv in Hr as (y & w2 & (z & w3 & ->%removing_inv & [= _ <-])%bind_inv & Hr).
  apply bind_inv in Hr as (u & w4 & ->%call_inv & Hr). apply bind_inv in Hr as (v & w5 & [= _ <-] & Hr).
  apply openFIFO_inv in Hr as (H1 & H2 & H3 & [H4 H5]). split; [done|]. rewrite H2. split; [done|]. split; [|split; [done|by split]].
  intros p Hp. cbn. unfold update. by rewrite !decide_False.
Qed.

Lemma publish_inv name inc w w' :
  publish A name inc w = (inr tt, w') ->
  incs w' name = Some inc /\ fifos w' = fifos w /\ segs w' = segs w /\ name_files w' = name_files w.
Proof.
  intros (fd & w1 & ->%open_fd_inv & Hr)%bind_inv. rewrite bind_attempt in Hr. unfold publish_write, call in Hr. cbn in Hr.
  destruct (a_call A (tick w + 1)); [done|]. cbn in Hr. destruct (a_call A (tick w + 1 + 1)); [done|]. cbn in Hr.
  injection Hr as <-. split; [cbn; unfold update; by rewrite decide_True|done].
Qed.

(** The name points at a complete instance with the ring of the handle. *)
Record published (q : Handle) w : Prop := {
  pb_name : name_files w (h_name q) = true;
  pb_inc : incs w (h_name q) = Some (h_inc q);
  pb_seg : exists r rest, h_ring q = Some r /\ seg_at (segs w) (instance_of q) = Some (ring_buffer r rest);
  pb_ne : fifos w (eventPath (notEmptyName (instance_of q))) = true;
  pb_nf : fifos w (eventPath (notFullName (instance_of q))) = true;
  pb_valid : validateName (string_of_list_byte (notEmptyName (instance_of q))) = None /\
             validateName (string_of_list_byte (notFullName (instance_of q))) = None }.

Lemma published_same q w w' :
  segs w' = segs w -> fifos w' = fifos w -> name_files w' = name_files w -> incs w' = incs w -> published q w -> published q w'.
Proof. intros H1 H2 H3 H4 [P1 P2 P3 P4 P5 P6]. split; rewrite ?H1, ?H2, ?H3, ?H4; done. Qed.

Lemma removeInstance_names name inc w : name_files (removeInstance A name inc w).2 = name_files w.
Proof.
  assert (Hu : forall n w, name_files (unlinkEventImpl A n w).2 = name_files w).
  { intros n w0. unfold unlinkEventImpl, remove_fifo, bind, removing. destruct (fifos w0 _); [|done]. by destruct (a_remove A _). }
  assert (Hs : forall n w, name_files (remove_segment A n w).2 = name_files w).
  { intros n w0. unfold remove_segment. destruct (seg_at _ _); [|done]. unfold bind at 1, removing. destruct (a_remove A _); [done|]. cbn.
    rewrite bind_attempt. cbn. unfold unlinkSegment, bind, removing. by destruct (a_remove A _). }
  unfold removeInstance. unfold bind at 1. destruct (remove_segment_returns A (instanceName name inc) w) as [err ->].
  rewrite !bind_attempt. transitivity (name_files (unlinkEventImpl A (notFullName (instanceName name inc))
    (unlinkEventImpl A (notEmptyName (instanceName name inc)) (remove_segment A (instanceName name inc) w).2).2).2).
  - match goal with |- name_files (give ?e _).2 = _ => by destruct e end.
  - by rewrite !Hu, Hs.
Qed.

Lemma init_ring_inv inst reader w r w' :
  init_ring A inst reader w = (inr r, w') ->
  exists buf, seg_at (segs w) inst = Some buf /\ initRing buf (a_addr A (tick w)) reader = Ok r /\
    (exists rest, seg_at (segs w') inst = Some (ring_buffer r rest)) /\ fifos w' = fifos w /\ name_files w' = name_files w.
Proof.
  unfold init_ring. destruct (seg_at (segs w) inst) as [buf|] eqn:Hs; [|done]. destruct (initRing _ _ _) as [r0|e] eqn:Hr; [|done].
  intros [= <- <-]. exists buf. split; [done|]. split; [done|]. split; [|done]. eexists. cbn. rewrite seg_store_at, Hs.
  by rewrite decide_True.
Qed.

Lemma build_published reader name cap self lock b w q w' :
  name_files w name = true -> build A reader (h_set_lock lock b (new_handle name cap self)) w = ((None, q), w') ->
  published q w' /\ h_name q = name /\ h_cap q = cap /\ l_self (h_links q) = self /\ (exists n, h_inc q = newIncarnation (a_raw A n)) /\
  exists r n, h_ring q = Some r /\ initRing (zeros (RingSize cap)) (a_addr A n) reader = Ok r.
Proof.
  intros Hn Hb. unfold build in Hb. apply fill_inv in Hb as (old & w1 & [= _ <-] & Hb).
  apply fill_inv in Hb as (u & w2 & Hrm & Hb). cbn in Hrm.
  assert (Hn2 : name_files w2 name = true).
  { destruct old as [|i old]; [by injection Hrm as _ <-|]. pose proof (removeInstance_names name (i :: old) w) as Hx. rewrite Hrm in Hx. cbn in Hx. by rewrite Hx. }
  apply fill_inv in Hb as (inc & w3 & Hi & Hb). unfold new_incarnation in Hi.
  destruct (call A w2) as [[|x] w3'] eqn:Hc; [done|]. injection Hi as <- <-. apply call_inv in Hc as ->.
  set (inc := newIncarnation _) in *. cbn in Hb. set (inst := instanceName name inc).
  apply fill_inv in Hb as (ne & w4 & (V1 & E1 & _ & _ & [N1 _])%CreateEvent_inv & Hb).
  apply fill_inv in Hb as (nf & w5 & (V2 & E2 & F2 & _ & [N2 _])%CreateEvent_inv & Hb).
  apply fill_inv in Hb as (seg & w6 & Hseg & Hb). apply fill_inv in Hb as (r & w7 & Hring & Hb).
  apply fill_inv in Hb as ([] & w8 & (P1 & P2 & P3 & P4)%publish_inv & [= <- <-]).
  apply bind_inv in Hseg as (fd & w6' & ->%open_fd_inv & (y & w6'' & [= _ <-] & [= <- <-])%bind_inv).
  apply init_ring_inv in Hring as (buf & B1 & B2 & (rest & B3) & B4 & B5). cbn in B1, B4, B5. rewrite seg_create_at, decide_True in B1 by done.
  injection B1 as <-. split; [|split; [done|split; [done|split; [done|split; [by eexists|by eauto]]]]].
  split; cbn; try done.
  - rewrite P4, B5, N2, N1. done.
  - exists r, rest. split; [done|]. by rewrite P3.
  - rewrite P2, B4, F2; [done|]. intros Hx. by apply (ne_nf_differ inst).
  - by rewrite P2, B4.
Qed.

Lemma self_ID_inv w id w' :
  self_ID A w = (inr id, w') -> segs w' = segs w /\ fifos w' = fifos w /\ same_names w w' /\ exists o, p_life (proc w') = Some (id, o).
Proof.
  unfold self_ID. destruct (p_life (proc w)) as [[i o]|] eqn:Hl; [intros [= <- <-]; split; [done|]; split; [done|]; split; [done|]; by exists o|].
  assert (Hf : segs (listen_life A w).2 = segs w /\ fifos (listen_life A w).2 = fifos w /\ same_names w (listen_life A w).2).
  { unfold listen_life, open_fd, attempt, bind, call, removing, modify, throw, ret, get_fd. repeat (case_match; simplify_eq/=); done. }
  destruct (listen_life A w) as [[e|fd] w1]; destruct Hf as (F1 & F2 & [F3 F4]); intros [= <- <-]; (split; [done|]); (split; [done|]);
    (split; [done|]); by eexists.
Qed.

Lemma createQueue_published found name opts pending w q w' :
  (forall n, List.length (a_raw A n) = 8%nat) -> life_word w ->
  createQueue A found name opts pending w = (inr q, w') ->
  exists cfg, apply_options opts defaultConfig = Ok cfg /\ validateName (string_of_list_byte name) = None /\
    published q w' /\ h_name q = name /\ h_cap q = c_capacity cfg /\ (exists n, h_inc q = newIncarnation (a_raw A n)) /\
    (exists o, p_life (proc w') = Some (l_self (h_links q), o)) /\ 0 <= l_self (h_links q) < 2 ^ 64 /\
    exists r n, h_ring q = Some r /\
      initRing (zeros (RingSize (c_capacity cfg))) (a_addr A n) (if pending then pendingProc else l_self (h_links q)) = Ok r.
Proof.
  intros Hraw Hword (x & w1 & Hc & Hr)%bind_inv. unfold check_name in Hc. destruct (validateName _) eqn:Hv; [done|]. injection Hc as _ <-.
  apply bind_inv in Hr as (cfg & w2 & Hcf & Hr). unfold configure in Hcf.
  destruct (apply_options opts defaultConfig) as [c|e]; [|done]. injection Hcf as -> <-. exists cfg. split; [done|]. split; [done|].
  apply bind_inv in Hr as (y & w3 & [= _ <-] & Hr). apply bind_inv in Hr as (lock & w4 & Hl & Hr).
  assert (Hlife : leaves [] w w4).
  { eapply leaves_trans; [apply (leaves_sweepStale A [] found)|]. pose proof (makes_lockName A [] name (sweepStale A found w)) as Hm. by rewrite Hl in Hm. }
  apply bind_inv in Hl as (fd & w5 & ->%open_fd_inv & (z & w6 & [= _ <-] & Hl)%bind_inv).
  rewrite bind_attempt in Hl. unfold call in Hl. cbn in Hl. destruct (a_call A _); [done|]. cbn in Hl. injection Hl as <- <-.
  apply bind_inv in Hr as (self & w8 & Hself & Hr). destruct (self_ID_inv _ _ _ Hself) as (_ & _ & [Hnm _] & o & Ho).
  unfold or_unwind in Hr. destruct (build _ _ _ _) as [[[e|] q0] w7] eqn:Hb; [done|]. injection Hr as -> ->.
  assert (Hp : p_life (proc w') = Some (self, o)).
  { destruct (build_leaves A Hraw _ _ _ _ _ _ _ _ _ _ Hb) as [_ [[_ Hx]|(_ & Hx & _)]]; by apply (le_life _ _ _ Hx). }
  apply build_published in Hb as (B1 & B2 & B3 & B4 & B5 & B6); [|rewrite Hnm; cbn; unfold update; by rewrite decide_True].
  assert (Hw : life_word w8).
  { match type of Hself with self_ID A ?v = _ => pose proof (makes_self_ID A Hraw [] v) as Hs end.
    rewrite Hself in Hs. by apply (le_word _ _ _ Hs), (le_word _ _ _ Hlife). }
  rewrite B4. specialize (Hw _ _ Ho). split_and!; first [done | apply Hw | by exists o].
Qed.

Lemma apply_options_ok opts cfg :
  apply_options opts defaultConfig = Ok cfg -> MinCapacity <= c_capacity cfg /\ power2 (c_capacity cfg).
Proof.
  unfold apply_options. destruct (_ || _) eqn:E; [done|]. intros [= <-]. apply orb_false_iff in E as [E1 E2]. reflect_bools.
  split; [lia|]. apply land_pred_power2; [unfold MinCapacity in *; lia|done].
Qed.

(** The header that [initRing] writes. *)
Lemma initRing_hdr_ok cap addr reader r :
  MinCapacity <= cap < 2 ^ 61 -> power2 cap -> 0 <= reader < 2 ^ 64 ->
  initRing (zeros (RingSize cap)) addr reader = Ok r ->
  ring_ok r /\ hdr_ok (hdr r) /\ magic (hdr r) = ringMagic /\ version (hdr r) = ringVersion /\
  Capacity r = cap /\ consumer (hdr r) = reader.
Proof.
  intros Hcap Hp Hrd Hi. pose proof HeaderSize_bound as HH. unfold RingSize in *.
  assert (Hlen : zlen (zeros (HeaderSize + cap)) = HeaderSize + cap) by (apply zlen_zeros; unfold MinCapacity in *; lia).
  assert (Ha : addr mod 8 = 0).
  { unfold initRing in Hi. destruct (_ <? _); [done|]. destruct (Z.eqb_spec (addr mod 8) 0); done. }
  destruct (initRing_ok (zeros (HeaderSize + cap)) addr reader) as (r' & Hr & T & Hc & Hco & Hh); [rewrite Hlen; lia|done|].
  rewrite Hi in Hr. injection Hr as <-. rewrite Hlen in Hc. pose proof (t_ok _ _ _ T) as Hok.
  assert (Hcp : capacity (hdr r) = cap).
  { destruct (ok_pow _ Hok) as (j & Hj & Hj'). destruct Hp as (k & Hk & ->). rewrite (ok_cap _ Hok), Hj' in *.
    assert (k = j); [|by subst]. replace (HeaderSize + 2 ^ k - HeaderSize) with (2 ^ k) in Hc by lia. destruct Hc as [H1 H2].
    rewrite <-Z.pow_succ_r in H2 by done. apply Z.pow_le_mono_r_iff in H1; [|lia..]. apply Z.pow_lt_mono_r_iff in H2; lia. }
  split; [done|]. split; [|split; [by rewrite Hh|split; [by rewrite Hh|split; [|done]]]].
  - rewrite Hh, Hcp. unfold MinCapacity in *.
    split; cbn [magic version flags capacity consumer tail head headCache recvWaiters sendWaiters slots]; try lia; unfold ringMagic, ringVersion; try lia.
    + unfold zlen. rewrite length_replicate. done.
    + apply list.Forall_replicate. unfold slot_ok, noIntent, MaxUint64. cbn. lia.
  - unfold Capacity. rewrite (ok_mask _ Hok), <-(ok_cap _ Hok), Hcp. lia.
Qed.
End Roundtrip.

(** A system that refuses no call and maps at aligned addresses. *)
Definition works (B : answers) : Prop := (forall n, a_call B n = None) /\ (forall n, a_addr B n mod 8 = 0).

Section Opening.
Context {S : Type} `{ShmLaws S}.
Variable B : answers.
Hypothesis B_works : works B.

Implicit Types w : os S.

Lemma call_works w : call B w = (inr tt, ticked w).
Proof. unfold call. by rewrite (proj1 B_works). Qed.

Lemma open_fd_works w : open_fd B w = (inr (fresh w), (acquire (ticked w)).2).
Proof. unfold open_fd, bind. by rewrite call_works. Qed.

Lemma openFIFO_works path w :
  fifos w path = true -> exists fd w', openFIFO B path w = (inr fd, w') /\ fifos w' = fifos w /\ segs w' = segs w.
Proof.
  intros Hf. unfold openFIFO. rewrite Hf. cbn. unfold bind at 1. rewrite open_fd_works, bind_attempt, call_works. cbn.
  by do 2 eexists.
Qed.

Lemma OpenEvent_works name w :
  validateName (string_of_list_byte name) = None -> fifos w (eventPath name) = true ->
  exists fd w', OpenEvent B name w = (inr fd, w') /\ fifos w' = fifos w /\ segs w' = segs w.
Proof. intros Hv Hf. unfold OpenEvent, bind, check_name. rewrite Hv. cbn. by apply openFIFO_works. Qed.

Lemma openQueue_works q r opts cfg w :
  published q w -> h_ring q = Some r -> parseIncarnation (h_inc q) = Some (h_inc q) ->
  (forall addr rest, addr mod 8 = 0 -> AttachRing (ring_buffer r rest) addr = Ok r) ->
  validateName (string_of_list_byte (h_name q)) = None -> apply_options opts defaultConfig = Ok cfg ->
  exists q' w', openQueue B (h_name q) opts w = (inr q', w') /\
    h_inc q' = h_inc q /\ h_ring q' = Some r /\ h_cap q' = Capacity r.
Proof.
  intros Hp Hring Hinc Hat Hv Ho.
  unfold openQueue. unfold bind at 1, check_name. rewrite Hv. cbn [ret]. unfold bind at 1, configure. rewrite Ho.
  unfold bind at 1. destruct (self_ID B w) as [[e|self] w0] eqn:Es; [by apply self_ID_returns in Es|].
  apply self_ID_inv in Es as (S1 & S2 & [S3 S4] & _). apply (published_same q w w0) in Hp; [|done..]. clear S1 S2 S3 S4 w. rename w0 into w.
  destruct Hp as [P1 P2 (r' & rest & P3 & P4) P5 P6 [P7 P8]]. rewrite P3 in Hring. injection Hring as ->.
  unfold bind at 1, readName_. rewrite P1. cbn [negb]. rewrite call_works. cbn [incs ticked]. rewrite P2. simpl default. rewrite Hinc.
  unfold bind at 1, attach, fill at 1, shm_Open. unfold instance_of in *. cbn [segs ticked h_name h_inc h_set_inc new_handle].
  rewrite P4, open_fd_works. unfold fill at 1, attach_ring. cbn [segs acquire snd ticked]. rewrite P4, Hat by apply B_works.
  unfold fill at 1.
  match goal with |- context [OpenEvent B ?n ?w] => destruct (OpenEvent_works n w) as (ne & w2 & -> & F2 & S2); [done|done|] end.
  unfold fill at 1.
  match goal with |- context [OpenEvent B ?n ?w] => destruct (OpenEvent_works n w) as (nf & w3 & -> & F3 & S3); [done|by rewrite F2|] end.
  cbn. by do 2 eexists.
Qed.
End Opening.

(** ** The theorems *)

(** After a call that fails, or one that works, uses and the [close] of what it returned, the
    process has the descriptors and the watches that it had before. *)
Definition balanced {S B} (close : B -> os S -> os S) (m : io (S := S) B) (w : os S) : Prop :=
  restored (base_of w) match m w with (inl _, w') => w' | (inr b, w') => close b w' end.

(** A handle and a channel are used before they are closed. *)
Definition use_close {S} `{Shm S} (A : answers) (us : list use) (q : Handle) (w : os S) : os S :=
  let (q, w) := used A us q w in close_handle q w.
Definition use_close_chan {S} `{Shm S} (A : answers) (us : list use * list use) (c : Chan) (w : os S) : os S :=
  let (c, w) := used_chan A us c w in Channel_Close c w.

Lemma gains_balanced {S B} (hs : B -> list holds) (close : B -> os S -> os S) (m : io (S := S) B) w :
  gains hs m -> (forall L X b w, holding L (X ++ hs b) w -> holding L X (close b w)) -> fds_ok w -> watches_ok w -> balanced close m w.
Proof.
  intros Hg Hc Hw Hk. unfold balanced. destruct (m w) as [[e|b] w'] eqn:E; specialize (Hg (base_of w) [] w _ _ E (holding_here w Hw Hk)).
  - by apply holding_nil.
  - by apply holding_nil, Hc.
Qed.

Lemma holding_use_close {S} `{Shm S} A us L X q (w : os S) : holding L (X ++ held q) w -> holding L X (use_close A us q w).
Proof.
  intros Hh. apply (used_renews A us) in Hh. unfold use_close. destruct (used A us q w) as [q' w']. by apply holding_close_handle.
Qed.

Lemma holding_use_close_chan {S} `{Shm S} A us L X c (w : os S) : holding L (X ++ held_chan c) w -> holding L X (use_close_chan A us c w).
Proof.
  intros Hh. apply (used_chan_renews A us) in Hh. unfold use_close_chan. destruct (used_chan A us c w) as [c' w']. by apply holding_close_chan.
Qed.


(** After a call that fails, or one that works and the removal of what it made, every
    segment and every FIFO is one that was there before. *)
Definition tidy {S B} `{Shm S} (remove : B -> os S -> os S) (m : io (S := S) B) (w : os S) : Prop :=
  leaves [] w match m w with (inl _, w') => w' | (inr b, w') => remove b w' end.

(** C18: No constructor leaves files behind. While the calls that remove files work, among
    them the open of the segment that [removeInstance] unlinks, a queue, channel or client
    that cannot be made, at whichever call it fails, leaves no segment and no FIFO that was
    not there, and neither does one that was made, closed and unlinked. *)
Theorem endpoints_tidy {S} `{ShmLaws S} (A : answers) (w : os S) :
  (forall n, a_remove A n = false) -> (forall n, List.length (a_raw A n) = 8%nat) ->
  (forall found name opts pending,
    tidy (fun q w => (Unlink A q (close_handle q w)).2) (createQueue A found name opts pending) w) /\
  (forall found name opts,
    tidy (fun ch w => (Channel_Unlink A ch (Channel_Close ch w)).2) (CreateChannel A found name opts) w) /\
  (forall found us hello name opts,
    tidy (fun ch w => (Client_Close A ch w).2) (Connect A found us hello name opts) w).
Proof.
  intros Hrm Hraw. unfold tidy. split_and!; intros.
  - destruct (createQueue _ _ _ _ _ w) as [[e|q] w'] eqn:E; apply createQueue_leaves in E; try done.
    apply Unlink_clears; [done|]. eapply leaves_trans; [exact E|apply leaves_close_handle].
  - destruct (CreateChannel _ _ _ _ w) as [[e|c] w'] eqn:E; apply CreateChannel_leaves in E; try done.
    apply Channel_Unlink_clears; [done|]. eapply leaves_trans; [exact E|apply leaves_Channel_Close].
  - destruct (Connect _ _ _ _ _ _ w) as [[e|c] w'] eqn:E; apply Connect_leaves in E; try done.
    unfold Client_Close, bind, modify. apply Channel_Unlink_clears; [done|]. eapply leaves_trans; [exact E|apply leaves_Channel_Close].
Qed.

(** C19: A queue that was created can be opened: after [createQueue] returns, a process
    whose calls work, whatever identity and watches it has, opens the name, finds the
    instance of the creator, and attaches to the same ring, with the capacity of the
    creator's options and the reader it set: the identity of its process, or the mark of a
    reader that is to come. *)
Theorem created_queue_opens {S} `{ShmLaws S} (A B : answers) found name opts pending (w w' : os S) q opts' cfg' (p : process) :
  (forall n, List.length (a_raw A n) = 8%nat) -> life_word w ->
  createQueue A found name opts pending w = (inr q, w') -> h_cap q < 2 ^ 61 ->
  works B -> apply_options opts' defaultConfig = Ok cfg' ->
  exists self o r q' w'', p_life (proc w') = Some (self, o) /\ openQueue B name opts' (set_proc p w') = (inr q', w'') /\
    h_inc q' = h_inc q /\ h_ring q' = Some r /\ h_ring q = Some r /\ h_cap q' = h_cap q /\
    consumer (hdr r) = if pending then pendingProc else self.
Proof.
  intros Hraw Hword Hcr Hcap HB Ho.
  destruct (createQueue_published A _ _ _ _ _ _ _ Hraw Hword Hcr)
    as (cfg & Hcfg & Hv & Hp & Hn & Hc & (n & Hinc) & (o & Hlife) & Hself & r & m & Hr & Hi).
  destruct (apply_options_ok _ _ Hcfg) as [Hmin Hpow]. rewrite Hc in *.
  assert (Hrd : 0 <= (if pending then pendingProc else l_self (h_links q)) < 2 ^ 64) by (destruct pending; [done|exact Hself]).
  destruct (initRing_hdr_ok _ _ _ _ (conj Hmin Hcap) Hpow Hrd Hi) as (R1 & R2 & R3 & R4 & R5 & R6).
  destruct (openQueue_works B HB q r opts' cfg' (set_proc p w')) as (q' & w'' & Hop & O1 & O2 & O3); try done.
  - by apply (published_same q w').
  - rewrite Hinc. by apply newIncarnation_parses.
  - intros addr rest Ha. by apply AttachRing_roundtrip.
  - by rewrite Hn.
  - exists (l_self (h_links q)), o, r, q', w''. rewrite Hn in Hop. split_and!; try done. by rewrite O3.
Qed.

(** ** Witnesses *)

(** Segments as a function of the name. *)
#[local] Instance demo_shm : Shm (list byte -> option (list byte)) := {|
  seg_at s n := s n;
  seg_create n size s := update s n (Some (zeros size));
  seg_store n b s := update s n match s n with Some _ => Some b | None => None end;
  seg_unlink n s := update s n None |}.

#[local] Instance demo_shm_laws : ShmLaws (list byte -> option (list byte)).
Proof. by split. Qed.

Definition demo_process : process := mkProcess None [] 0 [].
Definition demo_os : os (list byte -> option (list byte)) :=
  mkOs 0 3 [0; 1; 2]%nat demo_process (fun _ => None) (fun _ => false) (fun _ => false) (fun _ => None).
Definition demo_answers : answers :=
  mkAnswers (fun _ => None) (fun _ => false) (fun _ => zeros 8) (fun _ => 4096) (fun _ => 0%nat).
(** The call that makes the second FIFO fails. *)
Definition demo_failing : answers :=
  mkAnswers (fun n => if (n =? 11)%nat then Some OSys else None) (fun _ => false) (fun _ => zeros 8) (fun _ => 4096) (fun _ => 0%nat).
(** Another process, with another identity. *)
Definition demo_opening : answers :=
  mkAnswers (fun _ => None) (fun _ => false) (fun _ => replicate 8 Byte.x01) (fun _ => 4096) (fun _ => 0%nat).
Definition demo_name : list byte := str "q".
Definition demo_opts : list Option_ := [WithCapacity 4096].

Definition demo_made := createQueue demo_answers [] demo_name demo_opts false demo_os.
Definition demo_handle : Handle := match demo_made.1 with inr q => q | inl _ => new_handle [] 0 0 end.
Definition demo_opener : os (list byte -> option (list byte)) := set_proc demo_process demo_made.2.

#[local] Strategy expand [demo_made demo_handle demo_opener].

Lemma made_pair {B C} (m : (oserr + B) * C) d :
  (match m.1 with inr _ => true | inl _ => false end) = true -> m = (inr match m.1 with inr q => q | inl _ => d end, m.2).
Proof. by destruct m as [[e|b] w]. Qed.

Lemma demo_made_ok : demo_made = (inr demo_handle, demo_made.2).
Proof. apply (made_pair demo_made (new_handle [] 0 0)). vm_compute. reflexivity. Qed.

Lemma demo_opener_ok : fds_ok demo_opener /\ watches_ok demo_opener.
Proof.
  assert (Ho : opened demo_opener = [0; 1; 2; 3; 5; 6; 7]%nat /\ fresh demo_opener = 9%nat) by (split; vm_compute; reflexivity).
  destruct Ho as [H1 H2]. split; [unfold fds_ok; rewrite H1, H2; split; [apply (bool_decide_unpack _); reflexivity|repeat constructor; lia]|].
  constructor.
Qed.


Lemma endpoints_tidy_witness :
  (createQueue demo_failing [] demo_name demo_opts false demo_os).1 = inl OSys /\
  tidy (fun q w => (Unlink demo_failing q (close_handle q w)).2) (createQueue demo_failing [] demo_name demo_opts false) demo_os.
Proof. split; [vm_compute; reflexivity|]. exact (proj1 (endpoints_tidy demo_failing demo_os (fun _ => eq_refl) (fun _ => eq_refl)) [] demo_name demo_opts false). Defined.

Lemma created_queue_opens_witness :
  exists self o r q' w'', p_life (proc demo_made.2) = Some (self, o) /\
    openQueue demo_opening demo_name [] (set_proc demo_process demo_made.2) = (inr q', w'') /\
    h_inc q' = h_inc demo_handle /\ h_ring q' = Some r /\ h_ring demo_handle = Some r /\ h_cap q' = h_cap demo_handle /\
    consumer (hdr r) = self.
Proof.
  refine (created_queue_opens demo_answers demo_opening [] demo_name demo_opts false demo_os demo_made.2 demo_handle [] defaultConfig demo_process
    _ _ demo_made_ok _ _ _).
  - reflexivity.
  - done.
  - vm_compute; reflexivity.
  - split; reflexivity.
  - reflexivity.
Defined.
