(* ===== verification/Paths.v ===== *)
(** * The runtime directory and the files in it ([src/path_linux.go], [src/path_darwin.go],
    [src/path_cosmo.go], [src/path_windows.go])

    Every file of the package is in one directory: the FIFOs and sockets of events, the
    name files, and the life sockets. The paths are built with [filepath.Join], which
    cleans them, so a name that is not checked can leave the directory. This file has
    Go's [filepath.Clean], [Join] and [Dir] for Unix paths, the choice of the directory on
    each host, and the paths. *)

From Stdlib Require Import Strings.Byte String Ascii Lia Bool ZArith List.
From coqutil Require Import Byte.
From stdpp Require Import base numbers list list_numbers option.
From S2P Require Import Prelude Ipc GoStd Names Life Endpoint.

#[local] Open Scope list_scope.

(** ** Paths, as [filepath] has them on Unix *)

Definition Separator : byte := "/"%byte.
Definition dot : list byte := ["."%byte].
Definition dotdot : list byte := ["."%byte; "."%byte].

#[global] Instance byte_eq_decision : EqDecision byte := Byte.byte_eq_dec.

(** [strings.Split(path, "/")]. *)
Fixpoint elements (path : list byte) : list (list byte) :=
  match path with
  | [] => [[]]
  | b :: path =>
      if decide (b = Separator) then [] :: elements path
      else match elements path with [] => [[b]] | e :: es => (b :: e) :: es end
  end.

(** [strings.Join(elems, "/")]. *)
Fixpoint joined (elems : list (list byte)) : list byte :=
  match elems with
  | [] => []
  | [e] => e
  | e :: elems => e ++ Separator :: joined elems
  end.

(** One element of the path, with those before it, the last one first. *)
Definition clean_element (rooted : bool) (before : list (list byte)) (e : list byte) : list (list byte) :=
  if decide (e = []) then before
  else if decide (e = dot) then before
  else if decide (e = dotdot) then
    match before with
    | [] => if rooted then [] else [dotdot]
    | last :: rest => if decide (last = dotdot) then dotdot :: before else rest
    end
  else e :: before.

Definition rooted (path : list byte) : bool := match path with b :: _ => bool_decide (b = Separator) | [] => false end.

(** The elements that are left, the last one first. *)
Definition cleaned (path : list byte) : list (list byte) := foldl (clean_element (rooted path)) [] (elements path).

Definition root (r : bool) : list byte := if r then [Separator] else [].

Definition Clean (path : list byte) : list byte :=
  match root (rooted path) ++ joined (rev (cleaned path)) with [] => dot | out => out end.

(** Of two elements. *)
Definition Join (dir elem : list byte) : list byte :=
  match dir, elem with
  | [], [] => []
  | [], _ => Clean elem
  | _, _ => Clean (dir ++ Separator :: elem)
  end.

(** The path up to its last separator. *)
Fixpoint up_to_separator (path : list byte) : list byte :=
  match path with
  | [] => []
  | b :: path' => if decide (b = Separator) then b :: up_to_separator path'
                  else if decide (Separator ∈ path') then b :: up_to_separator path' else []
  end.

Definition Dir (path : list byte) : list byte := Clean (up_to_separator path).

(** ** The runtime directory *)

Definition shm_dir : list byte := list_byte_of_string "/dev/shm".

Definition runtimeDir_linux : list byte := shm_dir.

(** [shm] is whether /dev/shm is a directory, [tmp] is [os.TempDir]. *)
Definition runtimeDir_cosmo (shm : bool) (tmp : list byte) : list byte := if shm then shm_dir else tmp.

(** [cache] is [os.UserCacheDir] and [made] whether [os.MkdirAll] worked. *)
Definition runtimeDir_darwin (cache : option (list byte)) (made : bool) (tmp : list byte) : list byte :=
  match cache with
  | None => tmp
  | Some base => if made then Join (Join base (list_byte_of_string "gosmopolitan")) (list_byte_of_string "go-ipc") else tmp
  end.

(** [filepath.Join] of Windows is a parameter. *)
Definition runtimeDir_windows (Join3 : list byte -> list byte -> list byte -> list byte) (cache : option (list byte)) (made : bool) (tmp : list byte) : list byte :=
  match cache with
  | None => tmp
  | Some base => if made then Join3 base (list_byte_of_string "gosmopolitan") (list_byte_of_string "go-ipc") else tmp
  end.

(** ** The files *)

(** The kinds of files of the package: the FIFO of an event, the socket of one, the name
    file and the incarnation file, and a life socket with its temporary name. *)
Inductive file : Type :=
  | FEvent (name : list byte) | FSock (name : list byte) | FName (name : list byte) | FInc (name : list byte)
  | FLife (id : Z) | FLifeTmp (id : Z).

Definition sockSuffix : list byte := list_byte_of_string ".esock".

Section Files.
  (** The hash [sha256.Sum256], of which nothing is used but that it is a function, and the
      runtime directory. *)
  Context (Sum256 : list byte -> list byte) (dir : list byte).

(** The part of its hash that the name of a socket has: [sum[:8]] of the path of the FIFO. *)
Definition sock_sum (name : list byte) : list byte := take 8 (Sum256 (Join dir (eventPath name))).

Definition sock_name (name : list byte) : list byte := namePrefix ++ hex_EncodeToString (sock_sum name) ++ sockSuffix.

Definition sockPath (name : list byte) : list byte := Join (Dir (Join dir (eventPath name))) (sock_name name).

Definition file_name (f : file) : list byte :=
  match f with
  | FEvent name => eventPath name
  | FSock name => sock_name name
  | FName name => namePath name
  | FInc name => incPath name
  | FLife id => lifePath id
  | FLifeTmp id => lifeTmp id
  end.

Definition file_path (f : file) : list byte :=
  match f with FSock name => sockPath name | _ => Join dir (file_name f) end.
End Files.

(** ** Cleaning *)

Lemma elements_app a b : elements (a ++ Separator :: b) = elements a ++ elements b.
Proof.
  induction a as [|c a IH]; [done|]. cbn. rewrite IH. destruct (decide (c = Separator)); [done|].
  by destruct (elements a) as [|e es] eqn:E; [destruct a as [|d a]; cbn in E; [|destruct (decide (d = Separator)), (elements a)]|].
Qed.

Lemma elements_plain e : Separator ∉ e -> elements e = [e].
Proof.
  induction e as [|b e IH]; [done|]. intros [Hb He]%not_elem_of_cons. cbn. rewrite decide_False by done. by rewrite IH.
Qed.

(** Elements as [elements] gives them have no separator. *)
Lemma elements_no_sep path : Forall (fun e => Separator ∉ e) (elements path).
Proof.
  induction path as [|b path IH]; cbn; [by repeat constructor; apply not_elem_of_nil|].
  destruct (decide (b = Separator)) as [->|Hb]; [constructor; [apply not_elem_of_nil|done]|].
  destruct (elements path) as [|e es]; [|apply list.Forall_cons in IH as [He Hes]]; (constructor; [|done]);
    (apply not_elem_of_cons; split; [done|]); [apply not_elem_of_nil|done].
Qed.

(** What [Clean] leaves: no empty element, no dot, and dotdot only at the front of a path
    that is not rooted. *)
Fixpoint tidy_path (r : bool) (before : list (list byte)) : Prop :=
  match before with
  | [] => True
  | e :: before =>
      (Separator ∉ e) /\ e <> [] /\ e <> dot /\ (e = dotdot -> r = false /\ Forall (fun e => e = dotdot) before) /\ tidy_path r before
  end.

Lemma clean_element_tidy r before e : Separator ∉ e -> tidy_path r before -> tidy_path r (clean_element r before e).
Proof.
  intros He Hb. unfold clean_element. destruct (decide (e = [])); [done|]. destruct (decide (e = dot)); [done|].
  destruct (decide (e = dotdot)) as [->|Hd]; [|by split_and!].
  destruct before as [|last rest]; [destruct r; [done|]; by split_and!|].
  destruct (decide (last = dotdot)) as [->|]; [|apply Hb]. destruct Hb as (H1 & H2 & H3 & H4 & H5). destruct (H4 eq_refl) as [-> Hf].
  split_and!; try done. intros _. split; [done|]. by constructor.
Qed.

Lemma cleaned_tidy path : tidy_path (rooted path) (cleaned path).
Proof.
  unfold cleaned. pose proof (elements_no_sep path) as H. revert H. generalize (elements path) as es. intros es.
  assert (Hi : tidy_path (rooted path) []) by done. revert Hi. generalize (@nil (list byte)) as before.
  induction es as [|e es IH]; intros before Hb He; [done|]. apply list.Forall_cons in He as [H1 H2]. cbn. apply IH; [|done].
  by apply clean_element_tidy.
Qed.

(** Cleaning clean elements leaves them. *)
Lemma clean_element_clean r before e : tidy_path r (e :: before) -> clean_element r before e = e :: before.
Proof.
  intros (H1 & H2 & H3 & H4 & H5). unfold clean_element. rewrite !decide_False by done. destruct (decide (e = dotdot)) as [->|]; [|done].
  destruct (H4 eq_refl) as [-> Hf]. destruct before as [|last rest]; [done|]. apply list.Forall_cons in Hf as [-> _]. by rewrite decide_True.
Qed.

Lemma clean_clean r before : tidy_path r before -> foldl (clean_element r) [] (rev before) = before.
Proof.
  induction before as [|e before IH]; [done|]. intros Ht. cbn [rev]. rewrite foldl_app. cbn.
  rewrite IH by apply Ht. by apply clean_element_clean.
Qed.

Lemma joined_snoc l e : joined (l ++ [e]) = match l with [] => e | _ => joined l ++ Separator :: e end.
Proof.
  induction l as [|x l IH]; [done|]. destruct l as [|y l]; [done|].
  change (joined ((x :: y :: l) ++ [e])) with (x ++ Separator :: joined ((y :: l) ++ [e])). rewrite IH.
  change (joined (x :: y :: l)) with (x ++ Separator :: joined (y :: l)). by rewrite <-app_assoc.
Qed.

Lemma elements_joined l : l <> [] -> Forall (fun e => Separator ∉ e) l -> elements (joined l) = l.
Proof.
  induction l as [|x l IH]; [done|]. intros _ [Hx Hl]%list.Forall_cons. destruct l as [|y l]; [by apply elements_plain|].
  change (joined (x :: y :: l)) with (x ++ Separator :: joined (y :: l)). by rewrite elements_app, IH, elements_plain.
Qed.

Lemma tidy_no_sep r before : tidy_path r before -> Forall (fun e => Separator ∉ e) before.
Proof. induction before as [|e before IH]; [done|]. intros (H1 & _ & _ & _ & H5). constructor; auto. Qed.

(** The first element of a tidy path is not empty and has no separator. *)
Lemma tidy_front r before : tidy_path r before -> before <> [] -> exists b rest, joined (rev before) = b :: rest /\ b <> Separator.
Proof.
  induction before as [|e before IH]; [done|]. intros (H1 & H2 & H3 & H4 & H5) _. cbn [rev]. rewrite joined_snoc.
  destruct before as [|x before].
  - cbn. destruct e as [|b e]; [done|]. exists b, e. split; [done|]. intros ->. apply H1, list_elem_of_here.
  - destruct (IH H5) as (b & rest & Hj & Hb); [done|]. destruct (rev (x :: before)) eqn:E; [by apply (f_equal (@rev _)) in E; rewrite rev_involutive in E|].
    rewrite Hj. by exists b, (rest ++ Separator :: e).
Qed.

(** A path that is built from tidy elements has these elements. *)
Lemma cleaned_built r before :
  tidy_path r before -> (r = true \/ before <> []) ->
  let path := root r ++ joined (rev before) in rooted path = r /\ cleaned path = before.
Proof.
  intros Ht Hne path. assert (Hr : rooted path = r).
  { destruct r; [done|]. destruct Hne as [?|Hne]; [done|]. destruct (tidy_front _ _ Ht Hne) as (b & rest & Hj & Hb).
    unfold path. cbn. rewrite Hj. cbn. by rewrite bool_decide_eq_false_2. }
  split; [done|]. unfold cleaned. rewrite Hr. destruct before as [|e before].
  - destruct r; [done|by destruct Hne].
  - assert (He : elements (joined (rev (e :: before))) = rev (e :: before)).
    { apply elements_joined; [by destruct (rev before) eqn:E; cbn; rewrite E|]. apply List.Forall_rev. by eapply tidy_no_sep. }
    destruct r; unfold path; cbn [root app].
    + change (Separator :: joined (rev (e :: before))) with ([] ++ Separator :: joined (rev (e :: before))). rewrite elements_app, He. by apply (clean_clean true).
    + rewrite He. by apply clean_clean.
Qed.

Lemma Clean_cases path :
  (rooted path = false /\ cleaned path = [] /\ Clean path = dot) \/
  ((rooted path = true \/ cleaned path <> []) /\ Clean path = root (rooted path) ++ joined (rev (cleaned path))).
Proof.
  unfold Clean. pose proof (cleaned_tidy path) as Ht. destruct (rooted path) eqn:Hr; [right; auto|].
  destruct (decide (cleaned path = [])) as [->|Hne]; [by left|right].
  destruct (tidy_front _ _ Ht Hne) as (b & rest & Hj & _). cbn. rewrite Hj. auto.
Qed.

Lemma Clean_keeps path : rooted (Clean path) = rooted path /\ cleaned (Clean path) = cleaned path /\ Clean path <> [].
Proof.
  destruct (Clean_cases path) as [(H1 & H2 & ->)|[H ->]]; [by rewrite H1, H2|].
  destruct (cleaned_built _ _ (cleaned_tidy path) H) as [H1 H2]. split_and!; try done.
  intros [E1 E2]%app_eq_nil. destruct (rooted path); [done|]. destruct H as [?|H]; [done|].
  by destruct (tidy_front _ _ (cleaned_tidy path) H) as (b & rest & Hj & _); rewrite Hj in E2.
Qed.

Lemma Clean_idempotent path : Clean (Clean path) = Clean path.
Proof. unfold Clean at 1. destruct (Clean_keeps path) as (-> & -> & _). done. Qed.

(** ** A file in the directory *)

(** A name that is one element of a path. *)
Definition plain (e : list byte) : Prop := (Separator ∉ e) /\ e <> [] /\ e <> dot /\ e <> dotdot.

Lemma cleaned_app dir e : dir <> [] -> plain e -> rooted (dir ++ Separator :: e) = rooted dir /\ cleaned (dir ++ Separator :: e) = e :: cleaned dir.
Proof.
  intros Hd (H1 & H2 & H3 & H4). assert (Hr : rooted (dir ++ Separator :: e) = rooted dir) by (by destruct dir). split; [done|].
  unfold cleaned. rewrite Hr, elements_app, foldl_app, (elements_plain e) by done. cbn. unfold clean_element at 1. by rewrite !decide_False.
Qed.

Lemma Join_plain dir e : dir <> [] -> plain e ->
  Join dir e = root (rooted dir) ++ match cleaned dir with [] => e | _ => joined (rev (cleaned dir)) ++ Separator :: e end.
Proof.
  intros Hd He. destruct (cleaned_app dir e Hd He) as [Hr Hc]. assert (Join dir e = Clean (dir ++ Separator :: e)) as -> by (by destruct dir).
  destruct (Clean_cases (dir ++ Separator :: e)) as [(_ & H & _)|[_ ->]]; [by rewrite Hc in H|]. rewrite Hr, Hc. cbn [rev]. rewrite joined_snoc.
  destruct (cleaned dir) as [|x l]; [done|]. destruct (rev (x :: l)) eqn:E; [by apply (f_equal (@rev _)) in E; rewrite rev_involutive in E|done].
Qed.

Lemma up_to_plain e : Separator ∉ e -> up_to_separator e = [].
Proof. destruct e as [|b e]; [done|]. intros [H1 H2]%not_elem_of_cons. cbn. by rewrite !decide_False by done. Qed.

Lemma up_to_app a e : Separator ∉ e -> up_to_separator (a ++ Separator :: e) = a ++ [Separator].
Proof.
  intros He. induction a as [|b a IH]; [cbn; by rewrite decide_True, up_to_plain|]. cbn [app up_to_separator]. rewrite IH.
  destruct (decide (b = Separator)); [done|]. rewrite decide_True; [done|]. apply elem_of_app. right. apply list_elem_of_here.
Qed.

(** The directory of a joined path is the cleaned directory, and its last element the name. *)
Lemma Join_dir dir e : dir <> [] -> plain e ->
  Dir (Join dir e) = Clean dir /\ Join dir e = up_to_separator (Join dir e) ++ e.
Proof.
  intros Hd He. rewrite (Join_plain dir e Hd He). destruct He as (Hs & _). destruct (Clean_cases dir) as [(H1 & H2 & H3)|[H1 H2]].
  - unfold Dir. rewrite H1, H2, H3. cbn [root app]. by rewrite up_to_plain.
  - destruct (cleaned dir) as [|x l] eqn:Hc.
    + destruct H1 as [Hr|?]; [|done]. rewrite H2, Hr. cbn [root]. unfold Dir.
      change ([Separator] ++ e) with ([] ++ Separator :: e). by rewrite up_to_app.
    + rewrite (app_assoc (root _)), <-H2. unfold Dir. rewrite up_to_app by done. split; [|by rewrite <-app_assoc].
      destruct (Clean_keeps dir) as (Hr & Hk & Hn). unfold Clean at 1. unfold cleaned.
      assert (rooted (Clean dir ++ [Separator]) = rooted (Clean dir)) as -> by (by destruct (Clean dir)).
      rewrite elements_app, foldl_app. fold (cleaned (Clean dir)). rewrite Hr, Hk. cbn [elements foldl]. unfold clean_element. rewrite decide_True by done.
      rewrite Hc, <-H2. by destruct (Clean dir).
Qed.

Lemma Join_Clean dir e : dir <> [] -> plain e -> Join (Clean dir) e = Join dir e.
Proof. intros Hd He. destruct (Clean_keeps dir) as (Hr & Hc & Hn). by rewrite !Join_plain, Hr, Hc. Qed.

(** ** The names of the files *)

Lemma valid_no_sep name : validateName (string_of_list_byte name) = None -> Separator ∉ name.
Proof.
  unfold validateName. destruct (String.eqb _ _); [done|]. destruct (containsAny _ _) eqn:Hc; [done|]. intros _. revert Hc.
  induction name as [|b name IH]; [intros _; apply not_elem_of_nil|]. cbn. intros [Hb Hn]%orb_false_iff. apply not_elem_of_cons. split; [|by apply IH].
  intros <-. discriminate Hb.
Qed.

Lemma hex_char_no_sep v : (0 <= v < 16)%Z -> Separator <> hex_char v.
Proof. intros Hv H. pose proof (hex_digit_char v Hv) as Hd. by rewrite <-H in Hd. Qed.

Lemma hex_no_sep s : Separator ∉ hex_EncodeToString s.
Proof.
  unfold hex_EncodeToString. rewrite list_elem_of_join. intros (l & Hl & (b & -> & _)%list_elem_of_fmap).
  pose proof (byte.unsigned_range b) as Hb. revert Hl. rewrite !elem_of_cons. intros [H|[H|H]]; [| |by apply not_elem_of_nil in H].
  - revert H. apply hex_char_no_sep. split; [apply Z.div_pos; lia|apply Z.div_lt_upper_bound; lia].
  - revert H. apply hex_char_no_sep. apply Z.mod_pos_bound. lia.
Qed.

(** The names that reach the file system are checked; identities are 64-bit words. *)
Definition file_ok (f : file) : Prop :=
  match f with
  | FEvent name | FSock name | FName name | FInc name => validateName (string_of_list_byte name) = None
  | FLife id | FLifeTmp id => word id
  end.

Lemma prefix_plain mid suffix : (Separator ∉ mid) -> (Separator ∉ suffix) -> plain (namePrefix ++ mid ++ suffix).
Proof.
  intros Hm Hs. split_and!; try done. rewrite !elem_of_app. intros [H|[H|H]]; [|done..].
  apply (bool_decide_pack _) in H. vm_compute in H. done.
Qed.

Lemma sep_dec (l : list byte) : bool_decide (Separator ∈ l) = false -> Separator ∉ l.
Proof. apply bool_decide_eq_false_1. Qed.

Lemma life_plain id suffix : (Separator ∉ suffix) -> plain (lifePrefix ++ Sprintf_016x id ++ suffix).
Proof.
  intros Hs. change lifePrefix with (namePrefix ++ list_byte_of_string "life-"). rewrite <-app_assoc.
  apply (prefix_plain (list_byte_of_string "life-")); [by apply sep_dec; vm_compute|]. rewrite elem_of_app. intros [H|H]; [|done].
  by apply hex_no_sep in H.
Qed.

Lemma file_plain h dir f : file_ok f -> plain (file_name h dir f).
Proof.
  destruct f as [name|sum|name|name|id|id]; cbn; intros Hf.
  - apply prefix_plain; [by apply valid_no_sep|by apply sep_dec; vm_compute].
  - apply prefix_plain; [apply hex_no_sep|by apply sep_dec; vm_compute].
  - apply prefix_plain; [by apply valid_no_sep|by apply sep_dec; vm_compute].
  - apply prefix_plain; [by apply valid_no_sep|by apply sep_dec; vm_compute].
  - apply life_plain. by apply sep_dec; vm_compute.
  - unfold lifeTmp, lifePath. rewrite <-!app_assoc. apply life_plain. by apply sep_dec; vm_compute.
Qed.

(** Two names with different suffixes differ. *)
Lemma suffix_apart (n : nat) (a b s1 s2 : list byte) :
  bool_decide (take n (rev s1) = take n (rev s2)) = false -> (n <= List.length s1)%nat -> (n <= List.length s2)%nat -> a ++ s1 = b ++ s2 -> False.
Proof.
  intros Hd H1 H2 H. apply bool_decide_eq_false_1 in Hd. apply Hd. apply (f_equal (@rev byte)) in H. rewrite !rev_app_distr in H.
  apply (f_equal (take n)) in H. rewrite !take_app_le in H by (rewrite length_rev; lia). done.
Qed.

Lemma file_name_split h dir f : exists a, file_name h dir f = a ++
  match f with
  | FEvent _ => str ".event" | FSock _ => sockSuffix | FName _ => nameSuffix | FInc _ => incSuffix
  | FLife _ => lifeSuffix | FLifeTmp _ => list_byte_of_string ".tmp"
  end.
Proof.
  destruct f as [n|n|n|n|n|n]; [exists (str "go-ipc-" ++ n)|exists (namePrefix ++ hex_EncodeToString (sock_sum h dir n))|exists (namePrefix ++ n)..
    |exists (lifePrefix ++ Sprintf_016x n)|by exists (lifePath n)]; apply app_assoc.
Qed.

(** Two sockets of events whose hashes begin with the same eight bytes. *)
Definition same_sum (h : list byte -> list byte) (dir : list byte) (f g : file) : Prop :=
  exists n m, f = FSock n /\ g = FSock m /\ sock_sum h dir n = sock_sum h dir m.

Lemma file_name_inj h dir f g :
  file_ok f -> file_ok g -> file_name h dir f = file_name h dir g -> f = g \/ same_sum h dir f g.
Proof.
  intros Hf Hg H. destruct (file_name_split h dir f) as [a Ha], (file_name_split h dir g) as [b Hb]. assert (Hab := H). rewrite Ha, Hb in Hab.
  destruct f as [n|n|n|n|n|n], g as [m|m|m|m|m|m];
    try (exfalso; first [revert Hab; apply (suffix_apart 4); [vm_compute; reflexivity|cbn; lia|cbn; lia]
                        |revert Hab; apply (suffix_apart 5); [vm_compute; reflexivity|cbn; lia|cbn; lia]]); clear a b Ha Hb Hab; cbn [file_name] in H.
  - left. by apply app_inv_head, app_inv_tail in H as ->.
  - right. unfold sock_name in H. apply app_inv_head, app_inv_tail, hex_inj in H. by exists n, m.
  - left. by apply app_inv_head, app_inv_tail in H as ->.
  - left. by apply app_inv_head, app_inv_tail in H as ->.
  - left. by apply lifePath_inj in H as ->.
  - left. by apply lifeTmp_inj in H as ->.
Qed.

(** Every file is below the runtime directory, also the socket, whose path is made from that
    of its FIFO. *)
Lemma file_path_join h dir f : dir <> [] -> file_ok f -> file_path h dir f = Join dir (file_name h dir f).
Proof.
  intros Hd Hf. destruct f as [|name| | | |]; try done. cbn [file_path]. unfold sockPath.
  destruct (Join_dir dir (eventPath name) Hd (file_plain h dir (FEvent name) Hf)) as [-> _].
  by apply (Join_Clean dir (file_name h dir (FSock name))), file_plain.
Qed.

(** ** The theorems *)

(** C38: The files of the package stay in the runtime directory and apart from each other,
    on the hosts with Unix paths and whatever the directory is. With checked names, the
    directory of every path that the package builds is the runtime directory, cleaned, and
    its last element the file's name. Two files of different kinds, names or processes
    have different paths, except for the sockets of two events whose hashes begin with the
    same eight bytes. The paths of Windows are not covered. *)
Theorem files_in_directory (Sum256 : list byte -> list byte) (dir : list byte) (f g : file) :
  dir <> [] -> file_ok f -> file_ok g ->
  Dir (file_path Sum256 dir f) = Clean dir /\
  file_path Sum256 dir f = up_to_separator (file_path Sum256 dir f) ++ file_name Sum256 dir f /\
  (file_path Sum256 dir f = file_path Sum256 dir g -> f = g \/ same_sum Sum256 dir f g).
Proof.
  intros Hd Hf Hg. rewrite !file_path_join by done.
  destruct (Join_dir dir _ Hd (file_plain Sum256 dir f Hf)) as [H1 H2]. destruct (Join_dir dir _ Hd (file_plain Sum256 dir g Hg)) as [H3 H4].
  split_and!; try done. intros He. apply file_name_inj; [done..|].
  rewrite He in H2. by apply (app_inv_head (up_to_separator (Join dir (file_name Sum256 dir g)))); congruence.
Qed.

(** Without the check a name leaves the directory. *)
Theorem unchecked_name_escapes (Sum256 : list byte -> list byte) :
  file_path Sum256 runtimeDir_linux (FEvent (str "a/../../etc/x")) = str "/dev/etc/x.event" /\
  validateName "a/../../etc/x" = Some ErrInvalidName.
Proof. split; vm_compute; reflexivity. Qed.

(** ** A witness *)

Lemma files_in_directory_witness :
  Dir (file_path (fun path => path) (runtimeDir_darwin (Some (str "/Users/x/./Library/")) true (str "/tmp/")) (FSock (str "q"))) = str "/Users/x/Library/gosmopolitan/go-ipc".
Proof.
  refine (proj1 (files_in_directory (fun path => path) (runtimeDir_darwin (Some (str "/Users/x/./Library/")) true (str "/tmp/")) (FSock (str "q")) (FName (str "q")) _ _ _)).
  - vm_compute. discriminate.
  - vm_compute. reflexivity.
  - vm_compute. reflexivity.
Defined.
