(* ===== verification/PipeEvent.v ===== *)
(** * An event over a pipe ([src/event_unix.go])

    The pool of reader handles, the wait with its cancellation, the signals and the
    close of an event of one process, interleaved one access at a time. The tokens of
    the pipe are shared with other processes, which may signal and take tokens too. *)

From stdpp Require Import base numbers list list_numbers option.
From Stdlib Require Import ZArith Lia Bool.
From S2P Require Import Prelude Ipc Queue Park.

#[local] Open Scope Z_scope.

(** ** The event *)

(** A reader handle: whether its read deadline is in the past, and whether it is closed. *)
Record reader : Type := mkReader { r_past : bool; r_closed : bool }.

(** The function that [context.AfterFunc] runs for a wait: not registered, or done, or
    stopped; registered; running, before it sets the deadline of the reader. *)
Inductive after : Type := ANone | AReg (r : nat) | AFired (r : nat).

(** A wait: before [acquire]; in [openReader] with or without a duplicate; with a reader;
    at the read; after a read that found the deadline passed; before it resets the
    deadline; before [stop]; before [releaseReader]; before it puts the reader back. *)
Inductive wpc : Type :=
| WStart | WDup (ok : bool) | WGot (r : nat) | WRead (r : nat) | WExpired (r : nat) | WReset (r : nat)
| WStop (r : nat) (res : option failure) | WReturn (r : nat) (res : option failure) | WPut (r : nat) (res : option failure)
| WDone (res : option failure).

Record waiter : Type := mkWaiter { w_pc : wpc; w_ended : bool; w_after : after }.

(** [close]: not called; the readers it still closes; before it closes the write handle. *)
Inductive clpc : Type := ClIdle | ClReaders (l : list nat) | ClDone.

Record eventImpl : Type := mkEvent {
  e_tokens : Z; e_closed : bool; e_readers : list reader; e_idle : list nat; e_open : list nat;
  e_close : clpc; e_waiters : list waiter;
  (** the tokens that were written, and those that this process and others took *)
  e_written : Z; e_taken : Z; e_others : Z }.

Inductive elabel : Type :=
| ESignal (n : Z)       (* [signal], here or in another process *)
| EOther                (* another process takes a token *)
| EEnd (w : nat)        (* the context of a wait ends *)
| EFire (w : nat)       (* its function sets the deadline *)
| EStep (w : nat)       (* the next access of a wait *)
| ETake (w : nat)       (* its read returns a token *)
| EExpire (w : nat)     (* its read finds the deadline passed *)
| EGone (w : nat)       (* its read finds the handle closed *)
| EClose.               (* the next access of [close] *)

Definition set_waiter (w : nat) (x : waiter) (e : eventImpl) : eventImpl :=
  mkEvent (e_tokens e) (e_closed e) (e_readers e) (e_idle e) (e_open e) (e_close e) (<[w := x]> (e_waiters e))
    (e_written e) (e_taken e) (e_others e).
Definition set_readers (l : list reader) (e : eventImpl) : eventImpl :=
  mkEvent (e_tokens e) (e_closed e) l (e_idle e) (e_open e) (e_close e) (e_waiters e) (e_written e) (e_taken e) (e_others e).
Definition set_pool (idle open : list nat) (e : eventImpl) : eventImpl :=
  mkEvent (e_tokens e) (e_closed e) (e_readers e) idle open (e_close e) (e_waiters e) (e_written e) (e_taken e) (e_others e).
Definition set_pc (pc : wpc) (x : waiter) : waiter := mkWaiter pc (w_ended x) (w_after x).

(** [SetReadDeadline] of a handle; it fails on a closed one. *)
Definition set_deadline (r : nat) (past : bool) (e : eventImpl) : eventImpl :=
  match e_readers e !! r with
  | Some rd => if r_closed rd then e else set_readers (<[r := mkReader past false]> (e_readers e)) e
  | None => e
  end.

Definition reader_at (r : nat) (e : eventImpl) : reader := default (mkReader false false) (e_readers e !! r).

(** The next access of the wait [w], at [x]. *)
Definition wait_step (w : nat) (x : waiter) (e : eventImpl) : option eventImpl :=
  match w_pc x with
  | WStart =>
      if e_closed e then Some (set_waiter w (set_pc (WDone (Some (Of ErrClosed))) x) e)
      else
        match list.last (e_idle e) with
        | Some r =>
            Some (set_waiter w (set_pc (WGot r) x) (set_pool (take (List.length (e_idle e) - 1) (e_idle e)) (e_open e) e))
        | None => Some (set_waiter w (set_pc (WDup (match e_close e with ClDone => false | _ => true end)) x) e)
        end
  | WDup ok =>
      if e_closed e then Some (set_waiter w (set_pc (WDone (Some (Of ErrClosed))) x) e)
      else if ok then
        let r := List.length (e_readers e) in
        Some (set_waiter w (set_pc (WGot r) x)
          (set_pool (e_idle e) (e_open e ++ [r]) (set_readers (e_readers e ++ [mkReader false false]) e)))
      else Some (set_waiter w (set_pc (WDone (Some NotExist)) x) e)
  | WGot r => Some (set_waiter w (mkWaiter (WRead r) (w_ended x) (if w_ended x then AFired r else AReg r)) e)
  | WExpired r => Some (set_waiter w (set_pc (if w_ended x then WStop r (Some ContextEnded) else WReset r) x) e)
  | WReset r => Some (set_waiter w (set_pc (WRead r) x) (set_deadline r false e))
  | WStop r res =>
      Some (set_waiter w (mkWaiter (WReturn r res) (w_ended x) (match w_after x with AReg _ => ANone | a => a end)) e)
  | WReturn r res => Some (set_waiter w (set_pc (WPut r res) x) (set_deadline r false e))
  | WPut r res =>
      Some (set_waiter w (set_pc (WDone res) x)
        (if e_closed e then e else set_pool (e_idle e ++ [r]) (e_open e) e))
  | WRead _ | WDone _ => None
  end.

(** The next access of [close]: the flags and the readers under the mutex, then each
    reader, then the write handle. *)
Definition close_next (e : eventImpl) : option eventImpl :=
  match e_close e with
  | ClIdle =>
      Some (mkEvent (e_tokens e) true (e_readers e) [] [] (ClReaders (e_open e)) (e_waiters e) (e_written e) (e_taken e) (e_others e))
  | ClReaders (r :: l) =>
      Some (mkEvent (e_tokens e) (e_closed e) (<[r := mkReader (r_past (reader_at r e)) true]> (e_readers e)) (e_idle e)
        (e_open e) (ClReaders l) (e_waiters e) (e_written e) (e_taken e) (e_others e))
  | ClReaders [] =>
      Some (mkEvent (e_tokens e) (e_closed e) (e_readers e) (e_idle e) (e_open e) ClDone (e_waiters e) (e_written e)
        (e_taken e) (e_others e))
  | ClDone => None
  end.

Definition event_step (l : elabel) (e : eventImpl) : option eventImpl :=
  let at_ w (k : waiter -> option eventImpl) := match e_waiters e !! w with Some x => k x | None => None end in
  let reading w (k : waiter -> nat -> reader -> option eventImpl) :=
    at_ w (fun x => match w_pc x with WRead r => k x r (reader_at r e) | _ => None end) in
  match l with
  | ESignal n =>
      let t := signal_tokens n (e_tokens e) in
      Some (mkEvent t (e_closed e) (e_readers e) (e_idle e) (e_open e) (e_close e) (e_waiters e)
        (e_written e + (t - e_tokens e)) (e_taken e) (e_others e))
  | EOther =>
      if 0 <? e_tokens e
      then Some (mkEvent (e_tokens e - 1) (e_closed e) (e_readers e) (e_idle e) (e_open e) (e_close e) (e_waiters e)
             (e_written e) (e_taken e) (e_others e + 1))
      else None
  | EEnd w => at_ w (fun x =>
      Some (set_waiter w (mkWaiter (w_pc x) true (match w_after x with AReg r => AFired r | a => a end)) e))
  | EFire w => at_ w (fun x =>
      match w_after x with
      | AFired r => Some (set_waiter w (mkWaiter (w_pc x) (w_ended x) ANone) (set_deadline r true e))
      | _ => None
      end)
  | EStep w => at_ w (fun x => wait_step w x e)
  | ETake w => reading w (fun x r rd =>
      if negb (r_closed rd) && (0 <? e_tokens e)
      then Some (mkEvent (e_tokens e - 1) (e_closed e) (e_readers e) (e_idle e) (e_open e) (e_close e)
             (<[w := set_pc (WStop r None) x]> (e_waiters e)) (e_written e) (e_taken e + 1) (e_others e))
      else None)
  | EExpire w => reading w (fun x r rd =>
      if negb (r_closed rd) && r_past rd then Some (set_waiter w (set_pc (WExpired r) x) e) else None)
  | EGone w => reading w (fun x r rd =>
      if r_closed rd then Some (set_waiter w (set_pc (WStop r (Some (Of ErrClosed))) x) e) else None)
  | EClose => close_next e
  end.

Definition event_start (n : nat) : eventImpl :=
  mkEvent 0 false [] [] [] ClIdle (replicate n (mkWaiter WStart false ANone)) 0 0 0.

Fixpoint event_run (ls : list elabel) (e : eventImpl) : option eventImpl :=
  match ls with
  | [] => Some e
  | l :: ls => match event_step l e with Some e => event_run ls e | None => None end
  end.

(** Two waits that share a reader: the function of the first runs late. *)
Definition lost_cancel : list elabel :=
  [EStep 0; EStep 0; EStep 0; ESignal 1; ETake 0; EEnd 0; EStep 0; EStep 0; EStep 0;
   EStep 1; EStep 1; EFire 0; EExpire 1; EStep 1; EEnd 1; EFire 1; EStep 1]%nat.

(** A wait whose read cannot return until somebody signals or closes the event. *)
Definition blocked_read (w : nat) (e : eventImpl) : bool :=
  match e_waiters e !! w with
  | Some x =>
      match w_pc x with
      | WRead r => negb (r_closed (reader_at r e)) && negb (r_past (reader_at r e)) && (e_tokens e =? 0) &&
          match w_after x with AFired _ => false | _ => true end
      | _ => false
      end
  | None => false
  end.

(** ** The pool of readers *)

(** The reader that a wait uses. *)
Definition uses (x : waiter) : option nat :=
  match w_pc x with
  | WGot r | WRead r | WExpired r | WReset r | WStop r _ | WReturn r _ | WPut r _ => Some r
  | WStart | WDup _ | WDone _ => None
  end.

Record pool_ok (e : eventImpl) : Prop := {
  po_one : forall w w' x x' r, e_waiters e !! w = Some x -> e_waiters e !! w' = Some x' ->
    uses x = Some r -> uses x' = Some r -> w = w';
  po_idle : forall w x r, e_waiters e !! w = Some x -> uses x = Some r -> r ∉ e_idle e;
  po_nodup : NoDup (e_idle e);
  po_range : forall r, (r ∈ e_idle e \/ r ∈ e_open e \/ exists w x, e_waiters e !! w = Some x /\ uses x = Some r) ->
    (r < List.length (e_readers e))%nat;
  po_open : e_closed e = false -> e_close e = ClIdle /\
    (forall r, r ∈ e_idle e -> r ∈ e_open e) /\ forall w x r, e_waiters e !! w = Some x -> uses x = Some r -> r ∈ e_open e;
  po_closed : e_closed e = true -> e_idle e = [] /\ exists l, (e_close e = ClReaders l \/ l = [] /\ e_close e = ClDone) /\
    forall w x r, e_waiters e !! w = Some x -> uses x = Some r -> r ∈ l \/ r_closed (reader_at r e) = true }.

(** A step of a wait that keeps its reader or lets go of it. *)
Lemma pool_move e e' w x x' :
  pool_ok e -> e_waiters e !! w = Some x -> e_waiters e' = <[w := x']> (e_waiters e) ->
  uses x' = uses x \/ uses x' = None -> e_idle e' = e_idle e -> e_open e' = e_open e -> e_close e' = e_close e ->
  e_closed e' = e_closed e -> List.length (e_readers e') = List.length (e_readers e) ->
  (forall r, r_closed (reader_at r e') = r_closed (reader_at r e)) -> pool_ok e'.
Proof.
  intros [] Hx Hws Hu Hidle Hopen Hcl Hclosed Hlen Hrc.
  assert (Hback : forall v y r, e_waiters e' !! v = Some y -> uses y = Some r -> exists y', e_waiters e !! v = Some y' /\ uses y' = Some r).
  { intros v y r. rewrite Hws. intros [[-> ->]|[_ Hv]]%moved_cases Hr; [|by exists y]. exists x. split; [done|].
    destruct Hu as [<-|Hn]; congruence. }
  split; rewrite ?Hidle, ?Hopen, ?Hclosed, ?Hcl, ?Hlen.
  - intros v v' y y' r Hv Hv' Hr Hr'. destruct (Hback _ _ _ Hv Hr) as (z & ? & ?). destruct (Hback _ _ _ Hv' Hr') as (z' & ? & ?). eauto.
  - intros v y r Hv Hr. destruct (Hback _ _ _ Hv Hr) as (z & ? & ?). eauto.
  - done.
  - intros r [H|[H|(v & y & Hv & Hr)]]; apply po_range0; [by left|by right; left|]. right. right.
    destruct (Hback _ _ _ Hv Hr) as (z & ? & ?). eauto.
  - intros Hf. destruct (po_open0 Hf) as (? & ? & H). split; [done|]. split; [done|]. intros v y r Hv Hr.
    destruct (Hback _ _ _ Hv Hr) as (z & ? & ?). eauto.
  - intros Ht. destruct (po_closed0 Ht) as (? & l & ? & H). split; [done|]. exists l. split; [done|]. intros v y r Hv Hr.
    rewrite Hrc. destruct (Hback _ _ _ Hv Hr) as (z & ? & ?). eauto.
Qed.

Lemma reader_at_insert r r' rd e :
  reader_at r (set_readers (<[r' := rd]> (e_readers e)) e) =
    if bool_decide (r = r') && bool_decide (r' < List.length (e_readers e))%nat then rd else reader_at r e.
Proof.
  unfold reader_at, set_readers. cbn. case_bool_decide as E1; cbn.
  - subst r'. case_bool_decide.
    + by rewrite list_lookup_insert_eq.
    + rewrite list_insert_ge by lia. done.
  - by rewrite list_lookup_insert_ne.
Qed.

Lemma set_deadline_closed r past e r' : r_closed (reader_at r' (set_deadline r past e)) = r_closed (reader_at r' e).
Proof.
  unfold set_deadline. destruct (e_readers e !! r) as [rd|] eqn:E; [|done]. destruct (r_closed rd) eqn:Hc; [done|].
  rewrite reader_at_insert. case_bool_decide; [|done]. subst r'. case_bool_decide; [|done]. cbn. unfold reader_at. by rewrite E.
Qed.

Lemma set_deadline_same r past e :
  e_waiters (set_deadline r past e) = e_waiters e /\ e_idle (set_deadline r past e) = e_idle e /\
  e_open (set_deadline r past e) = e_open e /\ e_close (set_deadline r past e) = e_close e /\
  e_closed (set_deadline r past e) = e_closed e /\ List.length (e_readers (set_deadline r past e)) = List.length (e_readers e) /\
  e_tokens (set_deadline r past e) = e_tokens e /\ e_written (set_deadline r past e) = e_written e /\
  e_taken (set_deadline r past e) = e_taken e /\ e_others (set_deadline r past e) = e_others e.
Proof.
  unfold set_deadline. destruct (e_readers e !! r) as [rd|]; [|done]. destruct (r_closed rd); [done|]. cbn. by rewrite length_insert.
Qed.

(** The same, with a change of a deadline. *)
Lemma pool_deadline e w x x' r past :
  pool_ok e -> e_waiters e !! w = Some x -> uses x' = uses x \/ uses x' = None -> pool_ok (set_waiter w x' (set_deadline r past e)).
Proof.
  intros Hp Hx Hu. destruct (set_deadline_same r past e) as (H1 & H2 & H3 & H4 & H5 & H6 & _).
  eapply (pool_move e _ w x x'); cbn; [done|done|by rewrite H1|done|done..|]. intros r'. apply set_deadline_closed.
Qed.

Lemma last_split (l : list nat) r : list.last l = Some r -> l = take (List.length l - 1) l ++ [r].
Proof.
  intros H. apply last_Some in H as [l' ->]. rewrite length_app. cbn. replace (length l' + 1 - 1)%nat with (length l') by lia.
  by rewrite take_app_length.
Qed.

(** [acquire] takes an idle reader. *)
Lemma pool_acquire e w x r :
  pool_ok e -> e_waiters e !! w = Some x -> uses x = None -> e_closed e = false -> list.last (e_idle e) = Some r ->
  pool_ok (set_waiter w (set_pc (WGot r) x) (set_pool (take (List.length (e_idle e) - 1) (e_idle e)) (e_open e) e)).
Proof.
  intros Hp Hx Hn Hcl Hlast. destruct (po_open e Hp Hcl) as (Hc & Hio & Huo).
  pose proof (last_split _ _ Hlast) as Hidle. set (l := take _ _) in *. destruct Hp.
  assert (Hsub : forall r', r' ∈ l -> r' ∈ e_idle e) by (intros r' ?; rewrite Hidle; apply elem_of_app; by left).
  assert (Hr : r ∈ e_idle e) by (rewrite Hidle; apply elem_of_app; right; by left).
  rewrite Hidle in po_nodup0. apply list.NoDup_app in po_nodup0 as (Hnd & Hnot & _).
  assert (Hrl : r ∉ l) by (intros Hin; apply (Hnot r Hin); by left).
  assert (Hback : forall v y r', <[w := set_pc (WGot r) x]> (e_waiters e) !! v = Some y -> uses y = Some r' ->
    v = w /\ r' = r \/ v <> w /\ e_waiters e !! v = Some y).
  { intros v y r' [[-> ->]|[? ?]]%moved_cases; [intros [= <-]; by left|by right]. }
  split; cbn [set_waiter set_pool e_waiters e_idle e_open e_close e_closed e_readers].
  - intros v v' y y' r' Hv Hv' Hu Hu'.
    destruct (Hback _ _ _ Hv Hu) as [[-> ->]|[Hne Hv0]]; destruct (Hback _ _ _ Hv' Hu') as [[-> E]|[Hne' Hv0']]; [done| | |by eauto].
    + exfalso. by eapply po_idle0.
    + subst r'. exfalso. by eapply po_idle0.
  - intros v y r' Hv Hu. destruct (Hback _ _ _ Hv Hu) as [[-> ->]|[Hne Hv0]]; [done|]. intros Hin. by eapply po_idle0, Hsub.
  - done.
  - intros r' [H|[H|(v & y & Hv & Hu)]]; apply po_range0; [left; by apply Hsub|by right; left|].
    destruct (Hback _ _ _ Hv Hu) as [[-> ->]|[Hne Hv0]]; [by left|]. right. right. eauto.
  - intros _. split; [done|]. split; [eauto|]. intros v y r' Hv Hu. destruct (Hback _ _ _ Hv Hu) as [[-> ->]|[Hne Hv0]]; eauto.
  - congruence.
Qed.

(** [openReader] adds one. *)
Lemma pool_open e w x :
  pool_ok e -> e_waiters e !! w = Some x -> uses x = None -> e_closed e = false ->
  pool_ok (set_waiter w (set_pc (WGot (List.length (e_readers e))) x)
    (set_pool (e_idle e) (e_open e ++ [List.length (e_readers e)]) (set_readers (e_readers e ++ [mkReader false false]) e))).
Proof.
  intros Hp Hx Hn Hcl. destruct (po_open e Hp Hcl) as (Hc & Hio & Huo). destruct Hp. set (r := List.length (e_readers e)).
  assert (Hfresh : forall v y, e_waiters e !! v = Some y -> uses y = Some r -> False).
  { intros v y Hv Hu. assert (r < List.length (e_readers e))%nat by eauto 6. unfold r in *. lia. }
  assert (Hback : forall v y r', <[w := set_pc (WGot r) x]> (e_waiters e) !! v = Some y -> uses y = Some r' ->
    v = w /\ r' = r \/ v <> w /\ e_waiters e !! v = Some y).
  { intros v y r' [[-> ->]|[? ?]]%moved_cases; [intros [= <-]; by left|by right]. }
  split; cbn [set_waiter set_pool set_readers e_waiters e_idle e_open e_close e_closed e_readers].
  - intros v v' y y' r' Hv Hv' Hu Hu'.
    destruct (Hback _ _ _ Hv Hu) as [[-> ->]|[Hne Hv0]]; destruct (Hback _ _ _ Hv' Hu') as [[-> E]|[Hne' Hv0']]; [done| | |by eauto].
    + exfalso. by eapply Hfresh.
    + subst r'. exfalso. by eapply Hfresh.
  - intros v y r' Hv Hu. destruct (Hback _ _ _ Hv Hu) as [[-> ->]|[Hne Hv0]]; [|by eauto]. intros Hin.
    assert (r < List.length (e_readers e))%nat by eauto. unfold r in *. lia.
  - done.
  - intros r'. rewrite length_app. cbn. intros [H|[[H|H]%elem_of_app|(v & y & Hv & Hu)]].
    + assert (r' < List.length (e_readers e))%nat by eauto. lia.
    + assert (r' < List.length (e_readers e))%nat by eauto. lia.
    + apply list_elem_of_singleton in H as ->. unfold r. lia.
    + destruct (Hback _ _ _ Hv Hu) as [[-> ->]|[Hne Hv0]]; [unfold r; lia|].
      assert (r' < List.length (e_readers e))%nat by eauto 6. lia.
  - intros _. split; [done|]. split; [intros r' Hr'; apply elem_of_app; left; eauto|]. intros v y r' Hv Hu. apply elem_of_app.
    destruct (Hback _ _ _ Hv Hu) as [[-> ->]|[Hne Hv0]]; [right; by left|left; eauto].
  - congruence.
Qed.

(** [releaseReader] puts one back. *)
Lemma pool_put e w x r res :
  pool_ok e -> e_waiters e !! w = Some x -> uses x = Some r -> e_closed e = false ->
  pool_ok (set_waiter w (set_pc (WDone res) x) (set_pool (e_idle e ++ [r]) (e_open e) e)).
Proof.
  intros Hp Hx Hu Hcl. destruct (po_open e Hp Hcl) as (Hc & Hio & Huo). destruct Hp.
  assert (Hback : forall v y r', <[w := set_pc (WDone res) x]> (e_waiters e) !! v = Some y -> uses y = Some r' ->
    v <> w /\ e_waiters e !! v = Some y /\ r' <> r).
  { intros v y r' [[-> ->]|[? Hv]]%moved_cases; [done|]. intros Hr. split; [done|]. split; [done|]. intros ->.
    by assert (v = w) by eauto. }
  split; cbn [set_waiter set_pool e_waiters e_idle e_open e_close e_closed e_readers].
  - intros v v' y y' r' Hv Hv' H1 H2. destruct (Hback _ _ _ Hv H1) as (_ & ? & _). destruct (Hback _ _ _ Hv' H2) as (_ & ? & _). eauto.
  - intros v y r' Hv H1 [Hin|Hin]%elem_of_app; destruct (Hback _ _ _ Hv H1) as (_ & ? & Hne); [by eapply po_idle0|].
    apply list_elem_of_singleton in Hin. done.
  - apply list.NoDup_app. split; [done|]. split; [|apply NoDup_singleton]. intros r' Hin ->%list_elem_of_singleton. by eapply po_idle0.
  - intros r' [[H|H]%elem_of_app|[H|(v & y & Hv & H1)]]; apply po_range0.
    + by left.
    + apply list_elem_of_singleton in H as ->. eauto 6.
    + by right; left.
    + destruct (Hback _ _ _ Hv H1) as (_ & ? & _). eauto 6.
  - intros _. split; [done|]. split.
    + intros r' [H|H]%elem_of_app; [eauto|]. apply list_elem_of_singleton in H as ->. eauto.
    + intros v y r' Hv H1. destruct (Hback _ _ _ Hv H1) as (_ & ? & _). eauto.
  - congruence.
Qed.

Lemma pool_wait_step e w x e' : pool_ok e -> e_waiters e !! w = Some x -> wait_step w x e = Some e' -> pool_ok e'.
Proof.
  intros Hp Hx. unfold wait_step. destruct (w_pc x) as [|ok|r|r|r|r|r res|r res|r res|res] eqn:Hpc; try done.
  - assert (uses x = None) by (unfold uses; by rewrite Hpc).
    destruct (e_closed e) eqn:Hcl; [intros [= <-]; eapply (pool_move e _ w x); try done; by right|].
    destruct (list.last (e_idle e)) as [r|] eqn:Hl; intros [= <-]; [by apply pool_acquire|]. eapply (pool_move e _ w x); try done. by right.
  - assert (uses x = None) by (unfold uses; by rewrite Hpc).
    destruct (e_closed e) eqn:Hcl; [|destruct ok]; intros [= <-]; [|by apply pool_open|]; (eapply (pool_move e _ w x); try done; by right).
  - intros [= <-]. eapply (pool_move e _ w x); try done. left. unfold uses. by rewrite Hpc.
  - intros [= <-]. eapply (pool_move e _ w x); try done. left. unfold uses. rewrite Hpc. cbn. by destruct (w_ended x).
  - intros [= <-]. eapply pool_deadline; [done|done|]. left. unfold uses. by rewrite Hpc.
  - intros [= <-]. eapply (pool_move e _ w x); try done. left. unfold uses. by rewrite Hpc.
  - intros [= <-]. eapply pool_deadline; [done|done|]. left. unfold uses. by rewrite Hpc.
  - intros [= <-]. assert (uses x = Some r) by (unfold uses; by rewrite Hpc).
    destruct (e_closed e) eqn:Hcl; [eapply (pool_move e _ w x); try done; by right|by apply pool_put].
Qed.

Lemma pool_close_next e e' : pool_ok e -> close_next e = Some e' -> pool_ok e'.
Proof.
  intros Hp. unfold close_next. destruct (e_close e) as [|[|r l]|] eqn:Hc; [| | |done]; intros [= <-].
  - destruct (e_closed e) eqn:Hcl; [destruct (po_closed e Hp Hcl) as (_ & l & [?|[_ ?]] & _); congruence|].
    destruct (po_open e Hp Hcl) as (_ & Hio & Huo). destruct Hp. split; cbn; try done.
    + intros ? ? ? _ _ ?%not_elem_of_nil. done.
    + constructor.
    + intros r [H|[H|H]]; [by apply not_elem_of_nil in H..|]. apply po_range0. by right; right.
    + intros _. split; [done|]. exists (e_open e). split; [by left|]. intros w x r Hw Hu. left. eauto.
  - destruct (e_closed e) eqn:Hcl; [|destruct (po_open e Hp Hcl); congruence]. destruct (po_closed e Hp Hcl) as (Hi & l & Hl & Hu).
    destruct Hp. split; cbn; try done. intros _. split; [done|]. exists []. split; [by right|]. destruct Hl as [Hl|[-> Hl]]; [|congruence].
    rewrite Hc in Hl. injection Hl as <-. done.
  - destruct (e_closed e) eqn:Hcl; [|destruct (po_open e Hp Hcl); congruence]. destruct (po_closed e Hp Hcl) as (Hi & l0 & Hl & Hu).
    destruct Hl as [Hl|[-> Hl]]; [|congruence]. rewrite Hc in Hl. injection Hl as <-. destruct Hp.
    split; cbn; try done; rewrite ?length_insert; try done. intros _. split; [done|]. exists l. split; [by left|].
    intros w x r' Hw Hx. assert (Hlt : (r' < List.length (e_readers e))%nat) by (apply po_range0; right; right; by exists w, x).
    pose proof (reader_at_insert r' r (mkReader (r_past (reader_at r e)) true) e) as Hins. unfold reader_at, set_readers in *. cbn in *.
    rewrite Hins. case_bool_decide; [subst r'; rewrite bool_decide_true by done; by right|]. cbn.
    destruct (Hu w x r' Hw Hx) as [[->|?]%elem_of_cons|?]; [done|by left|by right].
Qed.

Lemma pool_step l e e' : pool_ok e -> event_step l e = Some e' -> pool_ok e'.
Proof.
  intros Hp. destruct l as [n| |w|w|w|w|w|w|]; cbn [event_step].
  - intros [= <-]. by destruct Hp.
  - destruct (0 <? e_tokens e); [|done]. intros [= <-]. by destruct Hp.
  - destruct (e_waiters e !! w) as [x|] eqn:Hx; [|done]. intros [= <-]. eapply (pool_move e _ w x); try done. by left.
  - destruct (e_waiters e !! w) as [x|] eqn:Hx; [|done]. destruct (w_after x); try done. intros [= <-].
    eapply pool_deadline; [done|done|by left].
  - destruct (e_waiters e !! w) as [x|] eqn:Hx; [|done]. by apply pool_wait_step.
  - destruct (e_waiters e !! w) as [x|] eqn:Hx; [|done]. destruct (w_pc x) eqn:Hpc; try done. case_match; [|done]. intros [= <-].
    eapply (pool_move e _ w x); try done. left. unfold uses. by rewrite Hpc.
  - destruct (e_waiters e !! w) as [x|] eqn:Hx; [|done]. destruct (w_pc x) eqn:Hpc; try done. case_match; [|done]. intros [= <-].
    eapply (pool_move e _ w x); try done. left. unfold uses. by rewrite Hpc.
  - destruct (e_waiters e !! w) as [x|] eqn:Hx; [|done]. destruct (w_pc x) eqn:Hpc; try done. case_match; [|done]. intros [= <-].
    eapply (pool_move e _ w x); try done. left. unfold uses. by rewrite Hpc.
  - by apply pool_close_next.
Qed.

(** ** Tokens *)

(** The wait took a token: it returns nil. *)
Definition took (x : waiter) : Z :=
  match w_pc x with WStop _ None | WReturn _ None | WPut _ None | WDone None => 1 | _ => 0 end.

Definition tokens_ok (e : eventImpl) : Prop :=
  e_written e = e_tokens e + e_taken e + e_others e /\ 0 <= e_tokens e /\ e_taken e = total took (e_waiters e).

Lemma tokens_move e e' w x x' :
  tokens_ok e -> e_waiters e !! w = Some x -> e_waiters e' = <[w := x']> (e_waiters e) -> took x' = took x ->
  e_tokens e' = e_tokens e -> e_written e' = e_written e -> e_taken e' = e_taken e -> e_others e' = e_others e -> tokens_ok e'.
Proof.
  intros (H1 & H2 & H3) Hx Hws Ht E1 E2 E3 E4. unfold tokens_ok. rewrite Hws, (total_insert took _ w x x' Hx), E1, E2, E3, E4, Ht.
  split; [done|]. split; [done|]. lia.
Qed.

Lemma tokens_wait_step e w x e' : tokens_ok e -> e_waiters e !! w = Some x -> wait_step w x e = Some e' -> tokens_ok e'.
Proof.
  intros Ht Hx. pose proof (set_deadline_same) as Hd. unfold wait_step.
  destruct (w_pc x) as [|ok|r|r|r|r|r res|r res|r res|res] eqn:Hpc; try done;
    repeat case_match; intros [= <-];
    (eapply (tokens_move e _ w x); [done|done|cbn; try (destruct (Hd r false e) as (-> & _)); done|
       unfold took; rewrite Hpc; cbn; try done; repeat case_match; done|
       cbn; try (destruct (Hd r false e) as (_ & _ & _ & _ & _ & _ & E1 & E2 & E3 & E4)); done..]).
Qed.

Lemma tokens_step l e e' : tokens_ok e -> event_step l e = Some e' -> tokens_ok e'.
Proof.
  intros Ht. pose proof Ht as (H1 & H2 & H3). destruct l as [n| |w|w|w|w|w|w|]; cbn [event_step].
  - intros [= <-]. unfold tokens_ok, signal_tokens, pipeBuf. cbn. repeat case_match; split_and!; lia.
  - destruct (Z.ltb_spec 0 (e_tokens e)); [|done]. intros [= <-]. unfold tokens_ok. cbn. split_and!; lia.
  - destruct (e_waiters e !! w) as [x|] eqn:Hx; [|done]. intros [= <-]. by eapply (tokens_move e _ w x).
  - destruct (e_waiters e !! w) as [x|] eqn:Hx; [|done]. destruct (w_after x) as [| |r]; try done. intros [= <-].
    destruct (set_deadline_same r true e) as (E1 & _ & _ & _ & _ & _ & E2 & E3 & E4 & E5).
    eapply (tokens_move e _ w x); cbn; [done|done|by rewrite E1|done|done..].
  - destruct (e_waiters e !! w) as [x|] eqn:Hx; [|done]. by apply tokens_wait_step.
  - destruct (e_waiters e !! w) as [x|] eqn:Hx; [|done]. destruct (w_pc x) eqn:Hpc; try done. case_match eqn:E; [|done]. intros [= <-].
    apply andb_true_iff in E as [_ E%Z.ltb_lt]. unfold tokens_ok. cbn. rewrite (total_insert took _ w x _ Hx).
    assert (took x = 0) as -> by (unfold took; by rewrite Hpc). cbn. split_and!; lia.
  - destruct (e_waiters e !! w) as [x|] eqn:Hx; [|done]. destruct (w_pc x) eqn:Hpc; try done. case_match; [|done]. intros [= <-].
    eapply (tokens_move e _ w x); try done. unfold took. by rewrite Hpc.
  - destruct (e_waiters e !! w) as [x|] eqn:Hx; [|done]. destruct (w_pc x) eqn:Hpc; try done. case_match; [|done]. intros [= <-].
    eapply (tokens_move e _ w x); try done. unfold took. by rewrite Hpc.
  - unfold close_next. destruct (e_close e) as [|[|r l]|]; try done; by intros [= <-].
Qed.

Lemma event_run_ok ls e e' : pool_ok e -> tokens_ok e -> event_run ls e = Some e' -> pool_ok e' /\ tokens_ok e'.
Proof.
  revert e. induction ls as [|l ls IH]; intros e Hp Ht; cbn; [by intros [= <-]|].
  destruct (event_step l e) as [e1|] eqn:E; [|done]. apply IH; [by eapply pool_step|by eapply tokens_step].
Qed.

Lemma start_waiter n w x : e_waiters (event_start n) !! w = Some x -> x = mkWaiter WStart false ANone.
Proof. cbn. intros [-> _]%lookup_replicate. done. Qed.

Lemma event_start_ok n : pool_ok (event_start n) /\ tokens_ok (event_start n).
Proof.
  split.
  - split.
    + intros w w' x x' r ->%start_waiter _. done.
    + intros w x r ->%start_waiter. done.
    + constructor.
    + intros r [H|[H|(w & x & ->%start_waiter & H)]]; [by apply not_elem_of_nil in H..|done].
    + intros _. split; [done|]. split; [by intros r ?%not_elem_of_nil|]. intros w x r ->%start_waiter. done.
    + done.
  - split; [done|]. split; [done|]. cbn. symmetry. apply total_zero. intros i x [-> _]%lookup_replicate. done.
Qed.

(** ** Cancellation *)

(** [stop] of the wait finds its function running. *)
Definition late_stop (l : elabel) (e : eventImpl) : bool :=
  match l with
  | EStep w =>
      match e_waiters e !! w with
      | Some x => match w_pc x, w_after x with WStop _ _, AFired _ => true | _, _ => false end
      | None => false
      end
  | _ => false
  end.

Fixpoint no_late_stop (ls : list elabel) (e : eventImpl) : bool :=
  match ls with
  | [] => true
  | l :: ls => negb (late_stop l e) && match event_step l e with Some e => no_late_stop ls e | None => true end
  end.

(** What the context and the function of a wait are, by where it is. *)
Definition wait_ok (e : eventImpl) (x : waiter) : Prop :=
  match w_pc x with
  | WStart | WDup _ | WGot _ | WReturn _ _ | WPut _ _ | WDone _ => w_after x = ANone
  | WRead r =>
      if w_ended x then w_after x = AFired r \/ w_after x = ANone /\ (r_past (reader_at r e) = true \/ r_closed (reader_at r e) = true)
      else w_after x = AReg r
  | WExpired r => w_ended x = true /\ (w_after x = AFired r \/ w_after x = ANone)
  | WReset _ => False
  | WStop r _ => if w_ended x then w_after x = AFired r \/ w_after x = ANone else w_after x = AReg r
  end.

(** A deadline in the past is that of a wait whose context ended. *)
Definition past_of (r : nat) (x : waiter) : Prop :=
  w_ended x = true /\ match w_pc x with WRead r' | WExpired r' | WStop r' _ | WReturn r' _ => r' = r | _ => False end.

Record cancel_ok (e : eventImpl) : Prop := {
  co_wait : forall w x, e_waiters e !! w = Some x -> wait_ok e x;
  co_past : forall r, r_past (reader_at r e) = true ->
    r_closed (reader_at r e) = true \/ exists w x, e_waiters e !! w = Some x /\ past_of r x }.

Lemma past_uses r x : past_of r x -> uses x = Some r.
Proof. unfold past_of, uses. intros [_ H]. by destruct (w_pc x); subst. Qed.

(** A step of a wait, with what it may do to the readers. *)
Lemma cancel_change e e' w x x' :
  cancel_ok e -> e_waiters e !! w = Some x -> e_waiters e' = <[w := x']> (e_waiters e) ->
  (forall r, r_closed (reader_at r e') = r_closed (reader_at r e)) ->
  (forall r, r_past (reader_at r e') = true -> r_past (reader_at r e) = true \/ past_of r x') ->
  (forall r, r_past (reader_at r e) = true -> r_past (reader_at r e') = true \/ forall v y, v <> w -> e_waiters e !! v = Some y -> uses y <> Some r) ->
  wait_ok e' x' -> (forall r, past_of r x -> past_of r x' \/ r_past (reader_at r e') = false \/ r_closed (reader_at r e') = true) ->
  cancel_ok e'.
Proof.
  intros [Hw Hp] Hx Hws Hcl Hnew Hold Hok Hpast. split.
  - intros v y. rewrite Hws. intros [[-> ->]|[Hne Hv]]%moved_cases; [done|]. specialize (Hw v y Hv). unfold wait_ok in *.
    destruct (w_pc y) eqn:Hpc; try done. destruct (w_ended y); [|done]. destruct Hw as [Hf|[Hf [Hr|Hr]]]; [by left| |]; right; (split; [done|]).
    + destruct (Hold _ Hr) as [?|Hno]; [by left|]. exfalso. apply (Hno v y Hne Hv). unfold uses. by rewrite Hpc.
    + right. by rewrite Hcl.
  - intros r Hr. destruct (Hnew r Hr) as [Hr'|Hx']; [|right; exists w, x'; split; [rewrite Hws; by eapply moved_here|done]].
    rewrite Hcl. destruct (Hp r Hr') as [?|(v & y & Hv & Hy)]; [by left|].
    destruct (decide (v = w)) as [->|Hne]; [|right; exists v, y; split; [rewrite Hws; by apply moved_other|done]].
    replace y with x in * by congruence. destruct (Hpast r Hy) as [?|[?|?]]; [|congruence|left; congruence].
    right. exists w, x'. split; [rewrite Hws; by eapply moved_here|done].
Qed.

(** A step that leaves the readers alone. *)
Lemma cancel_move e e' w x x' :
  cancel_ok e -> e_waiters e !! w = Some x -> e_waiters e' = <[w := x']> (e_waiters e) -> (forall r, reader_at r e' = reader_at r e) ->
  wait_ok e x' -> (forall r, past_of r x -> past_of r x') -> cancel_ok e'.
Proof.
  intros Hc Hx Hws Hrd Hok Hpast. eapply cancel_change; [done|done|done|by intros r; rewrite Hrd|intros r; rewrite Hrd; by left|
    intros r; rewrite Hrd; by left| |intros r ?; left; by apply Hpast].
  revert Hok. unfold wait_ok. destruct (w_pc x'); rewrite ?Hrd; done.
Qed.

Lemma set_deadline_past r past e r' :
  (r < List.length (e_readers e))%nat ->
  r_past (reader_at r' (set_deadline r past e)) =
    if bool_decide (r' = r) && negb (r_closed (reader_at r e)) then past else r_past (reader_at r' e).
Proof.
  intros Hlt. unfold set_deadline. destruct (e_readers e !! r) as [rd|] eqn:E; [|by apply lookup_ge_None in E; lia].
  assert (reader_at r e = rd) as -> by (unfold reader_at; by rewrite E). destruct (r_closed rd); [by rewrite andb_false_r|].
  rewrite reader_at_insert, andb_true_r. case_bool_decide; [|done]. by rewrite bool_decide_true.
Qed.

Lemma cancel_wait_step e w x e' :
  pool_ok e -> cancel_ok e -> e_waiters e !! w = Some x -> late_stop (EStep w) e = false -> wait_step w x e = Some e' -> cancel_ok e'.
Proof.
  intros Hp Hc Hx Hlate. cbn in Hlate. rewrite Hx in Hlate. pose proof (co_wait e Hc w x Hx) as Hok. unfold wait_ok in Hok.
  unfold wait_step. destruct (w_pc x) as [|ok|r|r|r|r|r res|r res|r res|res] eqn:Hpc; try done.
  - assert (Hno : forall r, ~ past_of r x) by (intros r [_ H]; by rewrite Hpc in H).
    repeat case_match; intros [= <-]; (eapply (cancel_move e _ w x); [done|done|done|done|done|intros r' Hr'; by destruct (Hno r')]).
  - assert (Hno : forall r, ~ past_of r x) by (intros r [_ H]; by rewrite Hpc in H).
    repeat case_match; intros [= <-]; (eapply (cancel_move e _ w x); [done|done|done| |done|intros r' Hr'; by destruct (Hno r')]); try done.
    intros r. unfold reader_at. cbn. destruct (decide (r < List.length (e_readers e))%nat).
    + by rewrite lookup_app_l.
    + rewrite lookup_app_r by lia. rewrite (lookup_ge_None_2 (e_readers e)) by lia. by destruct (r - List.length (e_readers e))%nat.
  - assert (Hno : forall r, ~ past_of r x) by (intros r' [_ H]; by rewrite Hpc in H).
    intros [= <-]. eapply (cancel_move e _ w x); [done|done|done|done| |intros r' Hr'; by destruct (Hno r')].
    unfold wait_ok. cbn. destruct (w_ended x); [by left|done].
  - destruct Hok as [He Ha]. rewrite He. intros [= <-]. eapply (cancel_move e _ w x); [done|done|done|done| |].
    + unfold wait_ok. cbn. by rewrite He.
    + intros r' [_ H]. rewrite Hpc in H. by split.
  - intros [= <-]. eapply (cancel_move e _ w x); [done|done|done|done| |].
    + unfold wait_ok. cbn. destruct (w_ended x); [|by rewrite Hok]. destruct Hok as [Hf|Hf]; rewrite Hf in *; done.
    + intros r' [He H]. rewrite Hpc in H. by split.
  - assert (Hlt : (r < List.length (e_readers e))%nat).
    { apply (po_range e Hp). right. right. exists w, x. split; [done|]. unfold uses. by rewrite Hpc. }
    intros [= <-]. destruct (set_deadline_same r false e) as (Hws & _).
    eapply (cancel_change e _ w x); [done|done|cbn; by rewrite Hws|intros; apply set_deadline_closed| | |by unfold wait_ok|].
    + intros r'. cbn. change (reader_at r' (set_waiter w _ ?e)) with (reader_at r' e). rewrite set_deadline_past by done.
      case_match; [done|by left].
    + intros r' Hr'. change (reader_at r' (set_waiter w _ ?e)) with (reader_at r' e). rewrite set_deadline_past by done.
      case_match eqn:E; [|by left]. right. apply andb_true_iff in E as [->%bool_decide_eq_true _]. intros v y Hne Hv Hu.
      apply Hne. eapply (po_one e Hp v w y x r); [done|done|done|]. unfold uses. by rewrite Hpc.
    + intros r' [He H]. rewrite Hpc in H. subst r'. right.
      change (reader_at r (set_waiter w _ ?e)) with (reader_at r e). rewrite set_deadline_closed, set_deadline_past by done.
      rewrite bool_decide_true by done. destruct (r_closed (reader_at r e)); [by right|by left].
  - assert (Hno : forall r, ~ past_of r x) by (intros r' [_ H]; by rewrite Hpc in H).
    intros [= <-]. eapply (cancel_move e _ w x); [done|done|by destruct (e_closed e)|by destruct (e_closed e)|done|intros r' Hr'; by destruct (Hno r')].
Qed.

Lemma cancel_fire e w x r :
  pool_ok e -> cancel_ok e -> e_waiters e !! w = Some x -> w_after x = AFired r ->
  cancel_ok (set_waiter w (mkWaiter (w_pc x) (w_ended x) ANone) (set_deadline r true e)).
Proof.
  intros Hp Hc Hx Ha. pose proof (co_wait e Hc w x Hx) as Hok. unfold wait_ok in Hok.
  assert (Hpast : past_of r x).
  { unfold past_of. destruct (w_pc x) as [| | |r'|r'| |r' ?| | |], (w_ended x); cbn in *; rewrite ?Ha in Hok; naive_solver. }
  assert (Hlt : (r < List.length (e_readers e))%nat).
  { apply (po_range e Hp). right. right. exists w, x. split; [done|]. by apply past_uses. }
  destruct (set_deadline_same r true e) as (Hws & _).
  eapply (cancel_change e _ w x); [done|done|cbn; by rewrite Hws|intros; apply set_deadline_closed| | | |].
  - intros r'. change (reader_at r' (set_waiter w _ ?e)) with (reader_at r' e). rewrite set_deadline_past by done.
    intros Hr. case_match eqn:E; [|by left]. apply andb_true_iff in E as [->%bool_decide_eq_true _]. right. exact Hpast.
  - intros r' Hr'. change (reader_at r' (set_waiter w _ ?e)) with (reader_at r' e). rewrite set_deadline_past by done.
    left. by destruct (bool_decide _ && _).
  - unfold wait_ok. cbn [w_pc w_ended w_after]. destruct Hpast as [He Hr]. rewrite He in *.
    destruct (w_pc x) as [| | |r'|r'| |r' ?| | |]; try done; subst; [|by auto|by auto]. right. split; [done|].
    change (reader_at r (set_waiter w _ ?e)) with (reader_at r e). rewrite set_deadline_closed, set_deadline_past by done.
    rewrite bool_decide_true by done. destruct (r_closed (reader_at r e)); [by right|by left].
  - intros r' Hr'. left. exact Hr'.
Qed.

Lemma cancel_step l e e' :
  pool_ok e -> cancel_ok e -> late_stop l e = false -> event_step l e = Some e' -> cancel_ok e'.
Proof.
  intros Hp Hc Hlate. destruct l as [n| |w|w|w|w|w|w|]; cbn [event_step].
  - intros [= <-]. by destruct Hc.
  - destruct (0 <? e_tokens e); [|done]. intros [= <-]. by destruct Hc.
  - destruct (e_waiters e !! w) as [x|] eqn:Hx; [|done]. intros [= <-]. pose proof (co_wait e Hc w x Hx) as Hok.
    eapply (cancel_move e _ w x); [done|done|done|done| |intros r [_ H]; by split].
    unfold wait_ok in *. cbn. destruct (w_pc x); try (by rewrite Hok); try done; try (by destruct Hok as [_ [->| ->]]; auto);
      (destruct (w_ended x); [|rewrite Hok; by left]); [by destruct Hok as [->|[-> ?]]; auto|by destruct Hok as [->| ->]; auto].
  - destruct (e_waiters e !! w) as [x|] eqn:Hx; [|done]. destruct (w_after x) eqn:Ha; try done. intros [= <-]. by apply cancel_fire.
  - destruct (e_waiters e !! w) as [x|] eqn:Hx; [|done]. by apply cancel_wait_step.
  - destruct (e_waiters e !! w) as [x|] eqn:Hx; [|done]. destruct (w_pc x) eqn:Hpc; try done. case_match; [|done]. intros [= <-].
    pose proof (co_wait e Hc w x Hx) as Hok. unfold wait_ok in Hok. rewrite Hpc in Hok.
    eapply (cancel_move e _ w x); [done|done|done|done| |intros r' [? H']; rewrite Hpc in H'; by split].
    unfold wait_ok. cbn. destruct (w_ended x); [|done]. by destruct Hok as [->|[-> ?]]; auto.
  - destruct (e_waiters e !! w) as [x|] eqn:Hx; [|done]. destruct (w_pc x) as [| | |r| | | | | |] eqn:Hpc; try done. case_match eqn:E; [|done].
    intros [= <-]. apply andb_true_iff in E as [Hnc Hr]. apply negb_true_iff in Hnc.
    pose proof (co_wait e Hc w x Hx) as Hok. unfold wait_ok in Hok. rewrite Hpc in Hok.
    destruct (co_past e Hc r Hr) as [?|(v & y & Hv & Hy)]; [congruence|].
    assert (v = w) as -> by (eapply (po_one e Hp v w y x r); [done|done|by apply past_uses|unfold uses; by rewrite Hpc]).
    replace y with x in Hy by congruence. destruct Hy as [He _]. rewrite He in Hok.
    eapply (cancel_move e _ w x); [done|done|done|done| |intros r' [? H']; rewrite Hpc in H'; by split].
    unfold wait_ok. cbn. split; [done|]. by destruct Hok as [->|[-> ?]]; auto.
  - destruct (e_waiters e !! w) as [x|] eqn:Hx; [|done]. destruct (w_pc x) eqn:Hpc; try done. case_match; [|done]. intros [= <-].
    pose proof (co_wait e Hc w x Hx) as Hok. unfold wait_ok in Hok. rewrite Hpc in Hok.
    eapply (cancel_move e _ w x); [done|done|done|done| |intros r' [? H']; rewrite Hpc in H'; by split].
    unfold wait_ok. cbn. destruct (w_ended x); [|done]. by destruct Hok as [->|[-> ?]]; auto.
  - unfold close_next. destruct (e_close e) as [|[|r l]|]; [by intros [= <-]; destruct Hc|by intros [= <-]; destruct Hc| |done].
    intros [= <-].
    assert (Hins : forall r', reader_at r' (set_readers (<[r := mkReader (r_past (reader_at r e)) true]> (e_readers e)) e) =
      if bool_decide (r' = r) && bool_decide (r < List.length (e_readers e))%nat then mkReader (r_past (reader_at r e)) true else reader_at r' e)
      by (intros; apply reader_at_insert).
    split; cbn [e_waiters].
    + intros w x Hx. pose proof (co_wait e Hc w x Hx) as Hok. unfold wait_ok in *. destruct (w_pc x) as [| | |r'| | | | | |]; try done.
      destruct (w_ended x); [|done]. destruct Hok as [?|[? H]]; [by left|]. right. split; [done|].
      change (reader_at r' _) with (reader_at r' (set_readers (<[r := mkReader (r_past (reader_at r e)) true]> (e_readers e)) e)).
      rewrite Hins. case_match; [by right|done].
    + intros r'. change (reader_at r' _) with (reader_at r' (set_readers (<[r := mkReader (r_past (reader_at r e)) true]> (e_readers e)) e)).
      rewrite Hins. case_match; [by left|]. apply (co_past e Hc).
Qed.

Lemma event_run_cancel ls e e' :
  pool_ok e -> cancel_ok e -> no_late_stop ls e = true -> event_run ls e = Some e' -> cancel_ok e'.
Proof.
  revert e. induction ls as [|l ls IH]; intros e Hp Hc; cbn; [by intros _ [= <-]|].
  intros [Hl%negb_true_iff Hrest]%andb_true_iff. destruct (event_step l e) as [e1|] eqn:E; [|done].
  apply IH; [by eapply pool_step|by eapply cancel_step|done].
Qed.

(** ** Theorems *)

(** C32: a wait takes at most one token, and only if it returns nil: the tokens that were
    written are those in the pipe, those that waits of other processes took, and one for
    each wait of this process that returns nil; a wait that is cancelled or closed takes
    none. No two waits read through the same handle, and an idle handle is used by none. *)
Theorem pipe_tokens_conserved (n : nat) (ls : list elabel) (e : eventImpl) :
  event_run ls (event_start n) = Some e ->
  e_written e = e_tokens e + total took (e_waiters e) + e_others e /\ 0 <= e_tokens e /\
  (forall w w' x x' r, e_waiters e !! w = Some x -> e_waiters e !! w' = Some x' -> uses x = Some r -> uses x' = Some r -> w = w') /\
  NoDup (e_idle e) /\ (forall w x r, e_waiters e !! w = Some x -> uses x = Some r -> r ∉ e_idle e).
Proof.
  intros Hr. destruct (event_start_ok n) as [Hp Ht]. destruct (event_run_ok _ _ _ Hp Ht Hr) as [[] (H1 & H2 & H3)].
  split; [by rewrite <-H3|]. done.
Qed.

(** once [close] has closed the last handle, every wait at its read finds its handle
    closed, so that it returns ErrClosed, and no wait gets a handle any more. *)
Theorem close_releases_waits (n : nat) (ls : list elabel) (e : eventImpl) (w r : nat) (x : waiter) :
  event_run ls (event_start n) = Some e -> e_close e = ClReaders [] \/ e_close e = ClDone -> e_waiters e !! w = Some x ->
  (w_pc x = WRead r -> exists e', event_step (EGone w) e = Some e' /\
    e_waiters e' !! w = Some (set_pc (WStop r (Some (Of ErrClosed))) x)) /\
  (w_pc x = WStart \/ (exists ok, w_pc x = WDup ok) -> exists e', event_step (EStep w) e = Some e' /\
    e_waiters e' !! w = Some (set_pc (WDone (Some (Of ErrClosed))) x)).
Proof.
  intros Hr Hcl Hx. destruct (event_start_ok n) as [Hp Ht]. destruct (event_run_ok _ _ _ Hp Ht Hr) as [Hp' _].
  assert (Hclosed : e_closed e = true).
  { destruct (e_closed e) eqn:E; [done|]. destruct (po_open e Hp' E) as (Hi & _). destruct Hcl; congruence. }
  destruct (po_closed e Hp' Hclosed) as (_ & l & Hl & Hu).
  assert (l = []) as -> by (destruct Hcl, Hl as [?|[? ?]]; congruence). split.
  - intros Hpc. destruct (Hu w x r Hx ltac:(unfold uses; by rewrite Hpc)) as [?%not_elem_of_nil|Hrc]; [done|].
    cbn [event_step]. rewrite Hx, Hpc, Hrc. eexists. split; [done|]. by eapply moved_here.
  - intros Hpc. cbn [event_step]. rewrite Hx. unfold wait_step. rewrite Hclosed.
    destruct Hpc as [->|[ok ->]]; (eexists; split; [done|by eapply moved_here]).
Qed.

(** C33: while no wait lets go of its handle with its cancel function running, a wait whose
    context has ended does not stay blocked at its read: the read finds the deadline or
    the close, or the cancel function is on its way. *)
Theorem ended_wait_not_blocked (n : nat) (ls : list elabel) (e : eventImpl) (w : nat) (x : waiter) :
  event_run ls (event_start n) = Some e -> no_late_stop ls (event_start n) = true ->
  e_waiters e !! w = Some x -> w_ended x = true -> blocked_read w e = false.
Proof.
  intros Hr Hl Hx He. destruct (event_start_ok n) as [Hp _].
  assert (Hc : cancel_ok (event_start n)).
  { split; [intros ? ? ->%start_waiter; done|]. intros r. unfold reader_at. cbn. done. }
  pose proof (co_wait e (event_run_cancel _ _ _ Hp Hc Hl Hr) w x Hx) as Hok. unfold wait_ok in Hok.
  unfold blocked_read. rewrite Hx. destruct (w_pc x); try done. rewrite He in Hok.
  destruct Hok as [->|[-> [->| ->]]]; rewrite ?andb_false_r; done.
Qed.

(** a cancellation can be lost: when the cancel function of an earlier wait on the
    same handle runs late, a wait resets the deadline that its own cancellation has set,
    and stays blocked although its context has ended and nothing is on its way. *)
Theorem late_cancel_loses_cancellation :
  exists e x, event_run lost_cancel (event_start 2) = Some e /\ e_waiters e !! 1%nat = Some x /\ w_ended x = true /\
    w_after x = ANone /\ blocked_read 1 e = true.
Proof. do 2 eexists. split; [vm_compute; reflexivity|]. split; [reflexivity|]. done. Qed.

(** ** Witnesses *)

(** A wait that is cancelled, one that takes a token, and a close. *)
Definition event_demo : list elabel :=
  [EStep 0; EStep 0; EStep 0; EEnd 0; EStep 1; EStep 1; EStep 1; ESignal 2; ETake 1; EFire 0]%nat.
Definition event_closed : list elabel := (event_demo ++ [EClose; EClose; EClose])%nat.

Definition event_end (ls : list elabel) : eventImpl := default (event_start 0) (event_run ls (event_start 3)).

Lemma event_demo_run : event_run event_demo (event_start 3) = Some (event_end event_demo).
Proof. vm_compute. reflexivity. Qed.

Lemma event_closed_run : event_run event_closed (event_start 3) = Some (event_end event_closed).
Proof. vm_compute. reflexivity. Qed.

Lemma pipe_tokens_conserved_witness : e_written (event_end event_demo) =
  e_tokens (event_end event_demo) + total took (e_waiters (event_end event_demo)) + e_others (event_end event_demo).
Proof. apply (pipe_tokens_conserved 3 event_demo _ event_demo_run). Defined.

Lemma ended_wait_not_blocked_witness : blocked_read 0 (event_end event_demo) = false.
Proof.
  apply (ended_wait_not_blocked 3 event_demo (event_end event_demo) 0 (mkWaiter (WRead 0) true ANone) event_demo_run);
    vm_compute; reflexivity.
Defined.

Lemma close_releases_waits_witness : exists e', event_step (EGone 0) (event_end event_closed) = Some e' /\
  e_waiters e' !! 0%nat = Some (mkWaiter (WStop 0 (Some (Of ErrClosed))) true ANone).
Proof.
  refine (proj1 (close_releases_waits 3 event_closed (event_end event_closed) 0 0 (mkWaiter (WRead 0) true ANone) event_closed_run _ _) eq_refl);
    [left; vm_compute; reflexivity|vm_compute; reflexivity].
Defined.
