(* ===== verification/Watch.v ===== *)
(** * Watching a process exit ([src/identity.go])

    [onExit] registers a callback for the exit of a process, with one watch for all
    callers; [run] waits for the exit and calls the callbacks. The calls of any number of
    goroutines on one process are interleaved, each section under the mutex and each
    access outside of it in one step. *)

From stdpp Require Import base numbers list list_numbers option.
From Stdlib Require Import ZArith Lia Bool.
From S2P Require Import Prelude.

#[local] Open Scope Z_scope.

(** ** The watches *)

(** The goroutine [run]: in [wait]; after it, with its error or not; after the section
    under the mutex, with the callbacks; calling them; returned. *)
Inductive rnpc : Type :=
| RnWait | RnGot (failed : bool) | RnDead (fns : list nat) (failed : bool) | RnCall (fns : list nat) (failed : bool) | RnDone.

(** The callbacks by key, and whether the waiter was closed. *)
Record watch : Type := mkWatch { wt_fns : list (nat * nat); wt_stopped : bool; wt_closed : bool; wt_run : rnpc }.

(** The watches that were made, the one in [byID], [next], [exited], and whether the
    process is dead. Of the callbacks: those that were passed to [onExit], those that were
    called and with what, the registrations, and those whose cancel function returned. *)
Record watches : Type := mkWatches {
  ws_all : list watch; ws_cur : option nat; ws_next : nat; ws_exited : bool; ws_dead : bool;
  ws_used : list nat; ws_calls : list (nat * bool); ws_regs : list (nat * nat * nat); ws_cancelled : list nat }.

(** What [openExit] returns: a waiter, that the process is gone, or another error. *)
Inductive opened : Set := OpenedOk | OpenedGone | OpenedErr.

Inductive wlabel : Type :=
| OnExit (f : nat) (o : opened)
| CancelFn (i key f : nat)
| WaitReturns (i : nat) (failed : bool)
| RunNext (i : nat) (gone : bool)   (* [gone] is what [isDead] answers, where it is asked *)
| ProcExits.

Definition set_watch (i : nat) (w : watch) (cur : option nat) (s : watches) : watches :=
  mkWatches (<[i := w]> (ws_all s)) cur (ws_next s) (ws_exited s) (ws_dead s) (ws_used s) (ws_calls s) (ws_regs s) (ws_cancelled s).

(** The section of [onExit] that registers [f] with the watch [i]. *)
Definition register (i f : nat) (w : watch) (s : watches) : watches :=
  let key := S (ws_next s) in
  mkWatches (<[i := mkWatch (wt_fns w ++ [(key, f)]) (wt_stopped w) (wt_closed w) (wt_run w)]> (ws_all s)) (ws_cur s) key
    (ws_exited s) (ws_dead s) (f :: ws_used s) (ws_calls s) (ws_regs s ++ [(i, key, f)]) (ws_cancelled s).

Definition onExit (f : nat) (o : opened) (s : watches) : option watches :=
  if bool_decide (f ∈ ws_used s) then None
  else
    match ws_cur s with
    | Some i => match ws_all s !! i with Some w => Some (register i f w s) | None => None end
    | None =>
        match o with
        | OpenedGone =>
            if ws_dead s
            then Some (mkWatches (ws_all s) None (ws_next s) (ws_exited s) (ws_dead s) (f :: ws_used s)
                   (ws_calls s ++ [(f, false)]) (ws_regs s) (ws_cancelled s))
            else None
        | OpenedErr => Some s
        | OpenedOk =>
            let i := List.length (ws_all s) in
            let w := mkWatch [] false false RnWait in
            Some (register i f w (mkWatches (ws_all s ++ [w]) (Some i) (ws_next s) (ws_exited s) (ws_dead s) (ws_used s)
              (ws_calls s) (ws_regs s) (ws_cancelled s)))
        end
    end.

(** The function that [onExit] returns. *)
Definition cancel_fn (i key f : nat) (s : watches) : option watches :=
  if bool_decide ((i, key, f) ∈ ws_regs s) then
    match ws_all s !! i with
    | None => None
    | Some w =>
        let fns := filter (fun p => p.1 <> key) (wt_fns w) in
        let stop := bool_decide (fns = []) && negb (wt_stopped w) in
        Some (mkWatches
          (<[i := mkWatch fns (wt_stopped w || stop) (wt_closed w || stop) (wt_run w)]> (ws_all s))
          (if stop then None else ws_cur s) (ws_next s) (ws_exited s) (ws_dead s) (ws_used s) (ws_calls s) (ws_regs s)
          (f :: ws_cancelled s))
    end
  else None.

Definition run_next (i : nat) (gone : bool) (w : watch) (s : watches) : option watches :=
  match wt_run w with
  | RnWait | RnDone => None
  | RnGot failed =>
      if wt_stopped w then Some (set_watch i (mkWatch (wt_fns w) true (wt_closed w) RnDone) (ws_cur s) s)
      else Some (set_watch i (mkWatch (wt_fns w) true (wt_closed w) (RnDead (wt_fns w).*2 failed)) None s)
  | RnDead fns failed =>
      let failed := failed && negb (gone && ws_dead s) in
      let s := set_watch i (mkWatch (wt_fns w) (wt_stopped w) (wt_closed w) (RnCall fns failed)) (ws_cur s) s in
      Some (mkWatches (ws_all s) (ws_cur s) (ws_next s) (ws_exited s || negb failed) (ws_dead s) (ws_used s) (ws_calls s)
        (ws_regs s) (ws_cancelled s))
  | RnCall [] failed => Some (set_watch i (mkWatch (wt_fns w) (wt_stopped w) (wt_closed w) RnDone) (ws_cur s) s)
  | RnCall (f :: fns) failed =>
      let s := set_watch i (mkWatch (wt_fns w) (wt_stopped w) (wt_closed w) (RnCall fns failed)) (ws_cur s) s in
      Some (mkWatches (ws_all s) (ws_cur s) (ws_next s) (ws_exited s) (ws_dead s) (ws_used s) (ws_calls s ++ [(f, failed)])
        (ws_regs s) (ws_cancelled s))
  end.

Definition watch_step (l : wlabel) (s : watches) : option watches :=
  match l with
  | OnExit f o => onExit f o s
  | CancelFn i key f => cancel_fn i key f s
  | WaitReturns i failed =>
      match ws_all s !! i with
      | Some w =>
          match wt_run w with
          | RnWait =>
              (* the connection ends without an error only when the process has exited *)
              if failed || ws_dead s
              then Some (set_watch i (mkWatch (wt_fns w) (wt_stopped w) (wt_closed w) (RnGot failed)) (ws_cur s) s)
              else None
          | _ => None
          end
      | None => None
      end
  | RunNext i gone => match ws_all s !! i with Some w => run_next i gone w s | None => None end
  | ProcExits =>
      Some (mkWatches (ws_all s) (ws_cur s) (ws_next s) (ws_exited s) true (ws_used s) (ws_calls s) (ws_regs s) (ws_cancelled s))
  end.

Definition watch_start : watches := mkWatches [] None 0 false false [] [] [] [].

Fixpoint watch_run (ls : list wlabel) (s : watches) : option watches :=
  match ls with
  | [] => Some s
  | l :: ls => match watch_step l s with Some s => watch_run ls s | None => None end
  end.

(** ** The callbacks *)

Definition cnt (f : nat) (l : list nat) : Z := total (fun g => if bool_decide (g = f) then 1 else 0) l.

#[local] Arguments cnt : simpl never.

(** The callbacks that a watch has still to call. *)
Definition pend (w : watch) : list nat :=
  if wt_stopped w then match wt_run w with RnDead fns _ | RnCall fns _ => fns | _ => [] end else (wt_fns w).*2.

(** How often a callback was called, or is to be called. *)
Definition load (f : nat) (s : watches) : Z := cnt f (ws_calls s).*1 + total (fun w => cnt f (pend w)) (ws_all s).

(** No failure was seen by this goroutine. *)
Definition sees_exit (r : rnpc) : bool :=
  match r with RnGot failed | RnDead _ failed | RnCall _ failed => negb failed | _ => false end.

Record winv (s : watches) : Prop := {
  wi_load : forall f, load f s <= 1;
  wi_new : forall f, f ∉ ws_used s -> load f s = 0;
  wi_kept : forall f, f ∈ ws_used s -> f ∉ ws_cancelled s -> load f s = 1;
  wi_run : forall i w, ws_all s !! i = Some w -> wt_stopped w = false ->
    match wt_run w with RnWait | RnGot _ => True | _ => False end;
  wi_regs : forall i w k f, ws_all s !! i = Some w -> (k, f) ∈ wt_fns w -> (i, k, f) ∈ ws_regs s;
  wi_keys : forall i i' k f f', (i, k, f) ∈ ws_regs s -> (i', k, f') ∈ ws_regs s -> f = f';
  wi_next : forall i k f, (i, k, f) ∈ ws_regs s -> (k <= ws_next s)%nat;
  wi_cur : forall i, ws_cur s = Some i -> exists w, ws_all s !! i = Some w /\ wt_stopped w = false;
  wi_exited : ws_exited s = true -> ws_dead s = true;
  wi_called : forall f, (f, false) ∈ ws_calls s -> ws_dead s = true;
  wi_sees : forall i w, ws_all s !! i = Some w -> sees_exit (wt_run w) = true -> ws_dead s = true }.

Lemma cnt_app f l1 l2 : cnt f (l1 ++ l2) = cnt f l1 + cnt f l2.
Proof. apply total_app. Qed.

Lemma cnt_nonneg f l : 0 <= cnt f l.
Proof. apply total_nonneg. intros x. case_bool_decide; lia. Qed.

Lemma load_nonneg f s : 0 <= load f s.
Proof. unfold load. pose proof (cnt_nonneg f (ws_calls s).*1). assert (0 <= total (fun w => cnt f (pend w)) (ws_all s)) by (apply total_nonneg; intros; apply cnt_nonneg). lia. Qed.

(** A step of a goroutine on its watch [i] that keeps what is registered. *)
Lemma winv_watch s s' i w w' :
  winv s -> ws_all s !! i = Some w -> ws_all s' = <[i := w']> (ws_all s) -> wt_fns w' = wt_fns w ->
  (forall f, load f s' = load f s) ->
  (ws_cur s' = None \/ ws_cur s' = ws_cur s /\ wt_stopped w' = wt_stopped w) ->
  (wt_stopped w' = false -> match wt_run w' with RnWait | RnGot _ => True | _ => False end) ->
  (sees_exit (wt_run w') = true -> ws_dead s = true) ->
  ws_next s' = ws_next s -> ws_regs s' = ws_regs s -> ws_used s' = ws_used s -> ws_cancelled s' = ws_cancelled s ->
  ws_dead s' = ws_dead s -> (ws_exited s' = true -> ws_dead s = true) -> (forall f, (f, false) ∈ ws_calls s' -> ws_dead s = true) ->
  winv s'.
Proof.
  intros [] Hw Hall Hfns Hload Hcur Hrun Hsees E1 E2 E3 E4 E5 Hex Hcalls.
  split; try (intros f; rewrite ?E3, ?E4, Hload; eauto); rewrite ?E1, ?E2, ?E5, ?Hall; try done.
  - intros j v [[-> ->]|[_ Hv]]%moved_cases; [done|by eapply wi_run0].
  - intros j v k f [[-> ->]|[_ Hv]]%moved_cases; rewrite ?Hfns; by eapply wi_regs0.
  - intros j Hj. destruct Hcur as [?|[Hc Hs]]; [congruence|]. rewrite Hc in Hj. destruct (wi_cur0 j Hj) as (v & Hv & Hvs).
    destruct (decide (j = i)) as [->|Hne].
    + exists w'. split; [by eapply moved_here|]. rewrite Hs. by replace w with v by congruence.
    + exists v. split; [by apply moved_other|done].
  - intros j v [[-> ->]|[_ Hv]]%moved_cases; [done|by eapply wi_sees0].
Qed.

Lemma load_watch s s' i w w' f :
  ws_all s !! i = Some w -> ws_all s' = <[i := w']> (ws_all s) ->
  load f s' = load f s + (cnt f (ws_calls s').*1 - cnt f (ws_calls s).*1) + (cnt f (pend w') - cnt f (pend w)).
Proof. intros Hw Hall. unfold load. rewrite Hall, (total_insert _ _ i w w' Hw). lia. Qed.

Lemma winv_run s s' i gone w : winv s -> ws_all s !! i = Some w -> run_next i gone w s = Some s' -> winv s'.
Proof.
  intros Hi Hw. pose proof (wi_run s Hi i w Hw) as Hrun. pose proof (wi_sees s Hi i w Hw) as Hsees.
  pose proof (wi_called s Hi) as Hcalled. pose proof (wi_exited s Hi) as Hex. unfold run_next.
  destruct (wt_run w) as [|failed|fns failed|[|f fns] failed|] eqn:Hr; try done.
  - destruct (wt_stopped w) eqn:Hst; intros [= <-]; (eapply (winv_watch s _ i w); [done|done|done|done| |..]); try done.
    + intros f. erewrite (load_watch s _ i w _ f Hw) by reflexivity. unfold pend. cbn. rewrite Hst, Hr. cbn. lia.
    + right. cbn. by rewrite Hst.
    + intros f. erewrite (load_watch s _ i w _ f Hw) by reflexivity. unfold pend. cbn. rewrite Hst. lia.
    + by left.
  - destruct (wt_stopped w) eqn:Hst; [|by destruct (Hrun eq_refl)].
    intros [= <-]. eapply (winv_watch s _ i w); [done|done|done|done| |..]; try done.
    + intros f. erewrite (load_watch s _ i w _ f Hw) by reflexivity. unfold pend. cbn. rewrite Hst, Hr. lia.
    + right. cbn. by rewrite Hst.
    + cbn. destruct failed; [|auto]. cbn. destruct gone; [|done]. cbn. by destruct (ws_dead s).
    + cbn. destruct (ws_exited s) eqn:E; [auto|]. cbn. destruct failed; [|auto]. cbn. destruct gone; [|done]. cbn. by destruct (ws_dead s).
  - destruct (wt_stopped w) eqn:Hst; [|by destruct (Hrun eq_refl)].
    intros [= <-]. eapply (winv_watch s _ i w); [done|done|done|done| |..]; try done.
    + intros f. erewrite (load_watch s _ i w _ f Hw) by reflexivity. unfold pend. cbn. rewrite Hst, Hr. cbn. lia.
    + right. cbn. by rewrite Hst.
  - destruct (wt_stopped w) eqn:Hst; [|by destruct (Hrun eq_refl)].
    intros [= <-]. eapply (winv_watch s _ i w); [done|done|done|done| |..]; try done.
    + intros g. erewrite (load_watch s _ i w _ g Hw) by reflexivity. unfold pend. cbn [ws_calls set_watch wt_stopped wt_run]. rewrite Hst, Hr.
      rewrite fmap_app, cnt_app. unfold cnt. cbn. lia.
    + right. cbn. by rewrite Hst.
    + cbn. intros g [?|[= <- <-]%list_elem_of_singleton]%elem_of_app; [by eapply Hcalled|by apply Hsees].
Qed.

Lemma winv_waited s i w failed :
  winv s -> ws_all s !! i = Some w -> wt_run w = RnWait -> failed || ws_dead s = true ->
  winv (set_watch i (mkWatch (wt_fns w) (wt_stopped w) (wt_closed w) (RnGot failed)) (ws_cur s) s).
Proof.
  intros Hi Hw Hr Hf. pose proof (wi_called s Hi) as Hcalled. pose proof (wi_exited s Hi) as Hex.
  eapply (winv_watch s _ i w); [done|done|done|done| |..]; try done.
  - intros f. erewrite (load_watch s _ i w _ f Hw) by reflexivity. unfold pend. cbn. destruct (wt_stopped w); rewrite ?Hr; lia.
  - by right.
  - cbn. by destruct failed.
Qed.

(** The registration of [f] with a watch that is not stopped. *)
Lemma winv_register s i w f :
  winv s -> ws_all s !! i = Some w -> wt_stopped w = false -> f ∉ ws_used s -> winv (register i f w s).
Proof.
  intros Hi Hw Hst Hf.
  assert (Hload : forall g, load g (register i f w s) = load g s + if bool_decide (f = g) then 1 else 0).
  { intros g. erewrite (load_watch s _ i w _ g Hw) by reflexivity. unfold pend. cbn. rewrite Hst, fmap_app, cnt_app. unfold cnt. cbn. lia. }
  pose proof (wi_new s Hi f Hf) as H0. destruct Hi. unfold register in *. split; cbn [ws_all ws_cur ws_next ws_exited ws_dead ws_used ws_calls ws_regs ws_cancelled].
  - intros g. rewrite Hload. case_bool_decide; [subst g; lia|]. specialize (wi_load0 g). lia.
  - intros g [Hne Hg]%not_elem_of_cons. rewrite Hload, bool_decide_false by congruence. rewrite wi_new0 by done. done.
  - intros g Hg Hnc. rewrite Hload. case_bool_decide; [subst g; lia|]. apply elem_of_cons in Hg as [->|Hg]; [done|].
    rewrite wi_kept0 by done. done.
  - intros j v [[-> ->]|[_ Hv]]%moved_cases; [|by eapply wi_run0]. cbn. intros _. by eapply wi_run0.
  - intros j v k g [[-> ->]|[_ Hv]]%moved_cases; cbn [wt_fns].
    + intros [?|[= -> ->]%list_elem_of_singleton]%elem_of_app; apply elem_of_app; [left; by eapply wi_regs0|right; by left].
    + intros ?. apply elem_of_app. left. by eapply wi_regs0.
  - intros j j' k g g' [H1|H1]%elem_of_app [H2|H2]%elem_of_app.
    + by eapply wi_keys0.
    + apply list_elem_of_singleton in H2 as [= -> -> ->]. apply wi_next0 in H1. lia.
    + apply list_elem_of_singleton in H1 as [= -> -> ->]. apply wi_next0 in H2. lia.
    + apply list_elem_of_singleton in H1 as [= -> -> ->]. apply list_elem_of_singleton in H2 as [= -> ->]. done.
  - intros j k g [H1|H1]%elem_of_app; [apply wi_next0 in H1; lia|]. apply list_elem_of_singleton in H1 as [= -> -> ->]. lia.
  - intros j Hj. destruct (wi_cur0 j Hj) as (v & Hv & Hvs). destruct (decide (j = i)) as [->|Hne].
    + eexists. split; [by eapply moved_here|done].
    + exists v. split; [by apply moved_other|done].
  - done.
  - done.
  - intros j v [[-> ->]|[_ Hv]]%moved_cases; [|by eapply wi_sees0]. cbn. intros ?. by eapply wi_sees0.
Qed.

Lemma winv_onExit s s' f o : winv s -> onExit f o s = Some s' -> winv s'.
Proof.
  intros Hi. unfold onExit. case_bool_decide as Hf; [done|]. destruct (ws_cur s) as [i|] eqn:Hc.
  { destruct (ws_all s !! i) as [w|] eqn:Hw; [|done]. intros [= <-]. destruct (wi_cur s Hi i Hc) as (w' & Hw' & Hst).
    apply winv_register; [done|done|congruence|done]. }
  destruct o; [|destruct (ws_dead s) eqn:Hd; [|done]|by intros [= <-]]; intros [= <-].
  - set (w := mkWatch [] false false RnWait). set (s1 := mkWatches _ _ _ _ _ _ _ _ _).
    assert (Hw : ws_all s1 !! List.length (ws_all s) = Some w) by (apply list_lookup_middle; done).
    assert (Hload : forall g, load g s1 = load g s) by (intros g; unfold load, s1; cbn; rewrite total_app; unfold cnt; cbn; lia).
    assert (Hother : forall j v, ws_all s1 !! j = Some v -> v = w \/ ws_all s !! j = Some v).
    { intros j v Hv. unfold s1 in Hv. cbn in Hv. apply lookup_app_Some in Hv as [?|[_ Hv]]; [by right|]. left.
      destruct (j - List.length (ws_all s))%nat; [by injection Hv|done]. }
    assert (Hi1 : winv s1).
    { destruct Hi. split; try (intros g; rewrite Hload; eauto); try done.
      - intros j v [->|Hv]%Hother; [done|by eapply wi_run0].
      - intros j v k g [->|Hv]%Hother; [by intros ?%not_elem_of_nil|by eapply wi_regs0].
      - intros j [= <-]. eauto.
      - intros j v [->|Hv]%Hother; [done|by eapply wi_sees0]. }
    by apply winv_register.
  - assert (Hload : forall g, load g (mkWatches (ws_all s) None (ws_next s) (ws_exited s) true (f :: ws_used s)
      (ws_calls s ++ [(f, false)]) (ws_regs s) (ws_cancelled s)) = load g s + if bool_decide (f = g) then 1 else 0).
    { intros g. unfold load. cbn [ws_calls ws_all]. rewrite fmap_app, cnt_app. unfold cnt. cbn. lia. }
    pose proof (wi_new s Hi f Hf) as H0. destruct Hi. split; cbn [ws_all ws_cur ws_next ws_exited ws_dead ws_used ws_calls ws_regs ws_cancelled]; try done.
    + intros g. rewrite Hload. case_bool_decide; [subst g; lia|]. specialize (wi_load0 g). lia.
    + intros g [Hne Hg]%not_elem_of_cons. rewrite Hload, bool_decide_false by congruence. rewrite wi_new0 by done. done.
    + intros g Hg Hnc. rewrite Hload. case_bool_decide; [subst g; lia|]. apply elem_of_cons in Hg as [->|Hg]; [done|].
      rewrite wi_kept0 by done. done.
Qed.

(** What deleting a key leaves. *)
Lemma cnt_filter g key f (l : list (nat * nat)) :
  (forall f', (key, f') ∈ l -> f' = f) ->
  cnt g (filter (fun p => p.1 <> key) l).*2 <= cnt g l.*2 /\ (g <> f -> cnt g (filter (fun p => p.1 <> key) l).*2 = cnt g l.*2).
Proof.
  induction l as [|[k h] l IH]; intros Hk; [done|]. destruct IH as [IH1 IH2]; [intros f' ?; apply Hk; by right|].
  rewrite list.filter_cons. cbn [fst]. case_decide as E; cbn [fmap list_fmap snd]; unfold cnt in *; cbn [total].
  - split; [lia|]. intros Hne. specialize (IH2 Hne). lia.
  - assert (k = key) as -> by lia. assert (h = f) as -> by (apply Hk; by left). split; [case_bool_decide; lia|].
    intros Hne. rewrite bool_decide_false by congruence. specialize (IH2 Hne). lia.
Qed.

Lemma winv_cancel s s' i key f : winv s -> cancel_fn i key f s = Some s' -> winv s'.
Proof.
  intros Hi. unfold cancel_fn. case_bool_decide as Hreg; [|done]. destruct (ws_all s !! i) as [w|] eqn:Hw; [|done].
  intros [= <-]. set (fns := filter _ _). set (stop := bool_decide (fns = []) && negb (wt_stopped w)).
  assert (Hkey : forall f', (key, f') ∈ wt_fns w -> f' = f).
  { intros f' Hin. eapply (wi_keys s Hi); [by eapply (wi_regs s Hi)|done]. }
  set (w' := mkWatch _ _ _ _). set (s' := mkWatches _ _ _ _ _ _ _ _ _).
  assert (Hpend : forall g, cnt g (pend w') <= cnt g (pend w) /\ (g <> f -> cnt g (pend w') = cnt g (pend w))).
  { intros g. destruct (cnt_filter g key f (wt_fns w) Hkey) as [H1 H2]. fold fns in H1, H2. unfold pend, w'. cbn [wt_stopped wt_run wt_fns].
    unfold stop. destruct (wt_stopped w) eqn:Hst; [done|]. cbn. rewrite andb_true_r.
    case_bool_decide as Hn; [|done]. pose proof (wi_run s Hi i w Hw Hst) as Hr. rewrite Hn in H1, H2.
    destruct (wt_run w); try done; cbn in *; unfold cnt in *; cbn in *; split; try done; pose proof (cnt_nonneg g (wt_fns w).*2); unfold cnt in *; lia. }
  assert (Hload : forall g, load g s' <= load g s /\ (g <> f -> load g s' = load g s)).
  { intros g. destruct (Hpend g) as [H1 H2]. erewrite (load_watch s s' i w w' g Hw) by reflexivity. cbn [s' ws_calls].
    split; [lia|]. intros Hne. rewrite (H2 Hne). lia. }
  destruct Hi. split; unfold s'; cbn [ws_all ws_cur ws_next ws_exited ws_dead ws_used ws_calls ws_regs ws_cancelled]; fold s'; try done.
  - intros g. destruct (Hload g). specialize (wi_load0 g). lia.
  - intros g Hg. destruct (Hload g) as [H1 _]. rewrite (wi_new0 g Hg) in H1. pose proof (load_nonneg g s'). lia.
  - intros g Hg [Hne Hnc]%not_elem_of_cons. destruct (Hload g) as [_ H2]. rewrite H2 by done. by apply wi_kept0.
  - intros j v [[-> ->]|[_ Hv]]%moved_cases; [|by eapply wi_run0]. cbn. intros [Hst _]%orb_false_iff. by eapply wi_run0.
  - intros j v k g [[-> ->]|[_ Hv]]%moved_cases; [|by eapply wi_regs0]. cbn. intros [_ Hin]%list_elem_of_filter. by eapply wi_regs0.
  - intros j Hj. destruct stop eqn:Hs; [done|]. destruct (wi_cur0 j Hj) as (v & Hv & Hvs). destruct (decide (j = i)) as [->|Hne].
    + exists w'. split; [by eapply moved_here|]. unfold w'. cbn. rewrite ?Hs, orb_false_r. by replace w with v by congruence.
    + exists v. split; [by apply moved_other|done].
  - intros j v [[-> ->]|[_ Hv]]%moved_cases; [|by eapply wi_sees0]. cbn. intros ?. by eapply wi_sees0.
Qed.

Lemma winv_step l s s' : winv s -> watch_step l s = Some s' -> winv s'.
Proof.
  intros Hi. destruct l as [f o|i key f|i failed|i gone|]; cbn [watch_step].
  - by apply winv_onExit.
  - by apply winv_cancel.
  - destruct (ws_all s !! i) as [w|] eqn:Hw; [|done]. destruct (wt_run w) eqn:Hr; try done. case_match eqn:E; [|done]. intros [= <-].
    by apply winv_waited.
  - destruct (ws_all s !! i) as [w|] eqn:Hw; [|done]. by eapply winv_run.
  - intros [= <-]. by destruct Hi.
Qed.

Lemma winv_reach ls s : watch_run ls watch_start = Some s -> winv s.
Proof.
  assert (Hgen : forall s0, winv s0 -> watch_run ls s0 = Some s -> winv s).
  { induction ls as [|l ls IH]; intros s0 Hi; cbn; [by intros [= <-]|]. destruct (watch_step l s0) as [s1|] eqn:E; [|done].
    apply IH. by eapply winv_step. }
  apply Hgen. split; cbn; try done; try (by intros; match goal with H : _ ∈ [] |- _ => by apply not_elem_of_nil in H end).
Qed.

Lemma cnt_elem f l : 0 < cnt f l <-> f ∈ l.
Proof.
  induction l as [|g l IH]; [unfold cnt; cbn; split; [lia|by intros ?%not_elem_of_nil]|].
  unfold cnt in *. cbn. rewrite elem_of_cons. pose proof (cnt_nonneg f l) as Hn. unfold cnt in Hn.
  case_bool_decide; [subst; split; [by left|lia]|]. rewrite Z.add_0_l, IH. split; [by right|]. intros [->|?]; done.
Qed.

Lemma cnt_nodup l : (forall f, cnt f l <= 1) -> NoDup l.
Proof.
  induction l as [|g l IH]; intros H; [constructor|]. constructor.
  - intros Hg%cnt_elem. specialize (H g). unfold cnt in *. cbn in H. rewrite bool_decide_true in H by done. lia.
  - apply IH. intros f. specialize (H f). unfold cnt in *. cbn in H. case_bool_decide; lia.
Qed.

(** ** Theorems *)


(** The section of [run] under the mutex comes before the cancel function, and the call
    after it. *)
Definition late_cancel : list wlabel :=
  [OnExit 7 OpenedOk; ProcExits; WaitReturns 0 false; RunNext 0 false; CancelFn 0 1 7].

(** a callback can be called after its cancel function has returned, although the call
    had not started: [run] copies the callbacks and calls the copies. *)
Theorem cancelled_callback_called :
  exists s s', watch_run late_cancel watch_start = Some s /\ 7%nat ∈ ws_cancelled s /\ ws_calls s = [] /\
    watch_run [RunNext 0 false; RunNext 0 false] s = Some s' /\ ws_calls s' = [(7%nat, false)].
Proof.
  do 2 eexists. split; [vm_compute; reflexivity|]. split; [by left|]. split; [reflexivity|]. split; [vm_compute; reflexivity|]. reflexivity.
Qed.

(** ** Witnesses *)

Definition watch_demo : list wlabel :=
  [OnExit 1 OpenedOk; OnExit 2 OpenedOk; CancelFn 0 1 1; ProcExits; WaitReturns 0 true; RunNext 0 false; RunNext 0 true;
   RunNext 0 false; RunNext 0 false; OnExit 3 OpenedGone].
Definition watch_end : watches := default watch_start (watch_run watch_demo watch_start).

Lemma watch_demo_run : watch_run watch_demo watch_start = Some watch_end.
Proof. vm_compute. reflexivity. Qed.

