(* ===== verification/Deadline.v ===== *)
(** * The deadline of a connection ([src/deadline.go])

    [set], [fire], [begin] and the function that ends an operation, interleaved with the
    clock and with timers that fire late. *)

From stdpp Require Import base numbers list list_numbers option.
From Stdlib Require Import ZArith Lia Bool.
From S2P Require Import Prelude.

#[local] Open Scope Z_scope.

(** The context of an operation: running, ended by the deadline, ended by its [done]. *)
Inductive opctx : Set := Running | DeadlineExceeded | Finished.

(** A timer that [set] started: its generation, its time, and whether its function runs. *)
Record timer : Type := mkTimer { t_gen : Z; t_at : Z; t_started : bool }.

(** The contexts are listed by the keys of [begin], the first key being 1. Besides the fields of the code
    there are the timers that have not run to the end, the clock, and the deadline that
    was last set; [d_sets] counts the calls of [set]. *)
Record deadline : Type := mkDeadline {
  d_gen : Z; d_expired : bool; d_next : nat; d_waiting : list nat; d_timers : list timer; d_ctx : list opctx;
  d_now : Z; d_at : option Z; d_sets : Z }.

(** [cancel(os.ErrDeadlineExceeded)]: the first cause of a context stays. *)
Definition cancel_ctx (why : opctx) (c : opctx) : opctx := match c with Running => why | _ => c end.

Definition expireLocked (d : deadline) : deadline :=
  mkDeadline (d_gen d) true (d_next d) (d_waiting d) (d_timers d)
    (imap (fun i c => if bool_decide (S i ∈ d_waiting d) then cancel_ctx DeadlineExceeded c else c) (d_ctx d))
    (d_now d) (d_at d) (d_sets d).

(** [Stop] of the timer: a function that has started is not stopped. *)
Definition stop_timer (gen : Z) (l : list timer) : list timer :=
  filter (fun t => t_gen t <> gen \/ t_started t = true) l.

(** [None] is the zero time. *)
Definition set_ (at_ : option Z) (d : deadline) : deadline :=
  let timers := stop_timer (d_gen d) (d_timers d) in
  let gen := (d_gen d + 1) mod 2 ^ 64 in
  let d := mkDeadline gen false (d_next d) (d_waiting d) timers (d_ctx d) (d_now d) at_ (d_sets d + 1) in
  match at_ with
  | None => d
  | Some t =>
      if t - d_now d <=? 0 then expireLocked d
      else mkDeadline gen false (d_next d) (d_waiting d) (timers ++ [mkTimer gen t false]) (d_ctx d) (d_now d) at_ (d_sets d)
  end.

Definition fire (gen : Z) (d : deadline) : deadline := if gen =? d_gen d then expireLocked d else d.

(** [None] for ErrDeadlineExceeded, and the key of the operation otherwise. *)
Definition begin_ (d : deadline) : option (nat * deadline) :=
  if d_expired d then None
  else
    let key := S (d_next d) in
    Some (key, mkDeadline (d_gen d) (d_expired d) key (d_waiting d ++ [key]) (d_timers d) (d_ctx d ++ [Running])
      (d_now d) (d_at d) (d_sets d)).

(** The function that [begin] returns. *)
Definition done_ (key : nat) (d : deadline) : deadline :=
  mkDeadline (d_gen d) (d_expired d) (d_next d) (filter (fun k => k <> key) (d_waiting d)) (d_timers d)
    (alter (cancel_ctx Finished) (key - 1)%nat (d_ctx d)) (d_now d) (d_at d) (d_sets d).

Inductive dlabel : Type :=
| DSet (at_ : option Z)
| DBegin
| DDone (key : nat)
| DTick (t : Z)          (* the clock *)
| DStart (i : nat)       (* a timer is due: its function starts *)
| DFire (i : nat).       (* and runs *)

Definition deadline_step (l : dlabel) (d : deadline) : option deadline :=
  match l with
  | DSet at_ => Some (set_ at_ d)
  | DBegin => match begin_ d with Some (_, d) => Some d | None => Some d end
  | DDone key => if bool_decide (key ∈ d_waiting d) then Some (done_ key d) else None
  | DTick t =>
      if d_now d <=? t
      then Some (mkDeadline (d_gen d) (d_expired d) (d_next d) (d_waiting d) (d_timers d) (d_ctx d) t (d_at d) (d_sets d))
      else None
  | DStart i =>
      match d_timers d !! i with
      | Some t =>
          if negb (t_started t) && (t_at t <=? d_now d)
          then Some (mkDeadline (d_gen d) (d_expired d) (d_next d) (d_waiting d)
                 (<[i := mkTimer (t_gen t) (t_at t) true]> (d_timers d)) (d_ctx d) (d_now d) (d_at d) (d_sets d))
          else None
      | None => None
      end
  | DFire i =>
      match d_timers d !! i with
      | Some t =>
          if t_started t
          then Some (fire (t_gen t) (mkDeadline (d_gen d) (d_expired d) (d_next d) (d_waiting d)
                 (delete i (d_timers d)) (d_ctx d) (d_now d) (d_at d) (d_sets d)))
          else None
      | None => None
      end
  end.

Definition deadline_start : deadline := mkDeadline 0 false 0 [] [] [] 0 None 0.

Fixpoint deadline_run (ls : list dlabel) (d : deadline) : option deadline :=
  match ls with
  | [] => Some d
  | l :: ls => match deadline_step l d with Some d => deadline_run ls d | None => None end
  end.

(** *** The two deadlines of a connection ([src/conn.go]) *)

Record deadlines : Type := mkDeadlines { readDeadline : deadline; writeDeadline : deadline }.

Definition SetDeadline (t : option Z) (c : deadlines) : deadlines := mkDeadlines (set_ t (readDeadline c)) (set_ t (writeDeadline c)).
Definition SetReadDeadline (t : option Z) (c : deadlines) : deadlines := mkDeadlines (set_ t (readDeadline c)) (writeDeadline c).
Definition SetWriteDeadline (t : option Z) (c : deadlines) : deadlines := mkDeadlines (readDeadline c) (set_ t (writeDeadline c)).

(** The setters, the clock, and the operations and timers of one direction. *)
Inductive clabel : Type :=
| CSet (t : option Z) | CSetRead (t : option Z) | CSetWrite (t : option Z) | CTick (t : Z)
| CReadSide (l : dlabel) | CWriteSide (l : dlabel).

(** The labels that a direction has of its own. *)
Definition own (l : dlabel) : bool := match l with DSet _ | DTick _ => false | _ => true end.

Definition deadlines_step (l : clabel) (c : deadlines) : option deadlines :=
  let both l1 l2 :=
    match (match l1 with Some l => deadline_step l (readDeadline c) | None => Some (readDeadline c) end),
          (match l2 with Some l => deadline_step l (writeDeadline c) | None => Some (writeDeadline c) end) with
    | Some r, Some w => Some (mkDeadlines r w)
    | _, _ => None
    end in
  match l with
  | CSet t => Some (SetDeadline t c)
  | CSetRead t => Some (SetReadDeadline t c)
  | CSetWrite t => Some (SetWriteDeadline t c)
  | CTick t => both (Some (DTick t)) (Some (DTick t))
  | CReadSide l => if own l then both (Some l) None else None
  | CWriteSide l => if own l then both None (Some l) else None
  end.

Fixpoint deadlines_run (ls : list clabel) (c : deadlines) : option deadlines :=
  match ls with
  | [] => Some c
  | l :: ls => match deadlines_step l c with Some c => deadlines_run ls c | None => None end
  end.

(** What a step is for each direction. *)
Definition read_label (l : clabel) : list dlabel :=
  match l with CSet t | CSetRead t => [DSet t] | CTick t => [DTick t] | CReadSide l => [l] | CSetWrite _ | CWriteSide _ => [] end.
Definition write_label (l : clabel) : list dlabel :=
  match l with CSet t | CSetWrite t => [DSet t] | CTick t => [DTick t] | CWriteSide l => [l] | CSetRead _ | CReadSide _ => [] end.

(** ** The invariant *)

Definition timer_ok (d : deadline) (t : timer) : Prop :=
  t_gen t <= d_sets d /\ (t_started t = true -> t_at t <= d_now d) /\ (t_gen t = d_sets d -> d_at d = Some (t_at t)).

Record dinv (d : deadline) : Prop := {
  di_gen : d_gen d = d_sets d;
  di_sets : 0 <= d_sets d;
  di_keys : forall k, k ∈ d_waiting d -> (1 <= k <= d_next d)%nat;
  di_ctx : List.length (d_ctx d) = d_next d;
  di_timers : forall t, t ∈ d_timers d -> timer_ok d t;
  di_expired : d_expired d = true -> exists t, d_at d = Some t /\ t <= d_now d;
  di_pending : forall t, d_expired d = false -> d_at d = Some t -> exists x, x ∈ d_timers d /\ t_gen x = d_sets d /\ t_at x = t;
  di_waiting : forall k c, k ∈ d_waiting d -> d_ctx d !! (k - 1)%nat = Some c ->
    c <> Finished /\ (d_expired d = true -> c = DeadlineExceeded) }.

(** [expireLocked] ends every operation. *)
Lemma expire_waiting d k c :
  (forall k, k ∈ d_waiting d -> (1 <= k)%nat) -> (forall k c, k ∈ d_waiting d -> d_ctx d !! (k - 1)%nat = Some c -> c <> Finished) ->
  k ∈ d_waiting d -> d_ctx (expireLocked d) !! (k - 1)%nat = Some c -> c <> Finished /\ (true = true -> c = DeadlineExceeded).
Proof.
  intros Hpos Hf Hk. cbn. rewrite list_lookup_imap. destruct (d_ctx d !! (k - 1)%nat) as [c0|] eqn:E; [|done]. cbn. intros [= <-].
  specialize (Hpos k Hk). replace (S (k - 1)) with k by lia. rewrite bool_decide_true by done.
  specialize (Hf k c0 Hk E). by destruct c0.
Qed.

Lemma elem_of_delete {A} (x : A) (i : nat) (l : list A) : x ∈ delete i l -> x ∈ l.
Proof.
  revert i. induction l as [|y l IH]; intros [|i] H; [done|done|by right|].
  change (delete (S i) (y :: l)) with (y :: delete i l) in H. apply elem_of_cons in H as [->|H]; [by left|right; by eapply IH].
Qed.

(** The parts that a change of the timers leaves alone. *)
Lemma timers_inv d ts :
  dinv d -> (forall t, t ∈ ts -> timer_ok d t) ->
  (forall t, d_expired d = false -> d_at d = Some t -> exists x, x ∈ ts /\ t_gen x = d_sets d /\ t_at x = t) ->
  dinv (mkDeadline (d_gen d) (d_expired d) (d_next d) (d_waiting d) ts (d_ctx d) (d_now d) (d_at d) (d_sets d)).
Proof. intros [] H1 H2. by split. Qed.

Lemma set_inv d at_ : dinv d -> d_sets d + 1 < 2 ^ 64 -> dinv (set_ at_ d).
Proof.
  intros [] Hbig. unfold set_. rewrite Z.mod_small by lia.
  assert (Hstop : forall t, t ∈ stop_timer (d_gen d) (d_timers d) -> t_gen t <= d_sets d /\ (t_started t = true -> t_at t <= d_now d)).
  { intros t [_ Ht]%list_elem_of_filter. destruct (di_timers0 t Ht) as (? & ? & _). done. }
  assert (Hok : forall d', d_sets d' = d_sets d + 1 -> d_now d' = d_now d -> forall t, t ∈ stop_timer (d_gen d) (d_timers d) -> timer_ok d' t).
  { intros d' E1 E2 t Ht. destruct (Hstop t Ht) as [? ?]. unfold timer_ok. rewrite E1, E2. split; [lia|]. split; [done|lia]. }
  assert (Hw : forall k c, k ∈ d_waiting d -> d_ctx d !! (k - 1)%nat = Some c -> c <> Finished /\ (false = true -> c = DeadlineExceeded)).
  { intros k c Hk Hc. split; [by destruct (di_waiting0 k c Hk Hc)|done]. }
  destruct at_ as [t|].
  2:{ split; cbn; [lia|lia|done|done|by apply Hok|done|done|done]. }
  cbn [d_now]. destruct (Z.leb_spec (t - d_now d) 0) as [Hp|Hp].
  - unfold expireLocked. cbn [d_gen d_next d_waiting d_timers d_ctx d_now d_at d_sets].
    split; cbn; [lia|lia|done|by rewrite length_imap|by apply Hok| |done|].
    + intros _. exists t. split; [done|lia].
    + intros k c Hk Hc. apply (expire_waiting d k c); [|by intros; eapply di_waiting0|done|done].
      intros k' Hk'. specialize (di_keys0 k' Hk'). lia.
  - split; cbn; [lia|lia|done|done| |done| |done].
    + intros x [Hx|Hx]%elem_of_app; [by apply Hok|]. apply list_elem_of_singleton in Hx as ->. unfold timer_ok. cbn. rewrite di_gen0.
      split; [lia|]. done.
    + intros t' _ [= <-]. eexists. split; [apply elem_of_app; right; by left|]. cbn. by rewrite di_gen0.
Qed.

Lemma done_inv d key : dinv d -> key ∈ d_waiting d -> dinv (done_ key d).
Proof.
  intros [] Hk. unfold done_. split; cbn; try done.
  - intros k [_ Hin]%list_elem_of_filter. by apply di_keys0.
  - by rewrite length_alter.
  - intros k c [Hne Hin]%list_elem_of_filter. pose proof (di_keys0 k Hin). pose proof (di_keys0 key Hk).
    rewrite list_lookup_alter_ne by lia. by apply di_waiting0.
Qed.

Lemma begin_inv d key d' : dinv d -> begin_ d = Some (key, d') -> dinv d'.
Proof.
  intros []. unfold begin_. destruct (d_expired d) eqn:He; [done|]. intros [= <- <-]. split; cbn; try done.
  - intros k [Hk|Hk]%elem_of_app; [specialize (di_keys0 k Hk); lia|]. apply list_elem_of_singleton in Hk as ->. lia.
  - rewrite length_app. cbn. lia.
  - intros k c [Hk|Hk]%elem_of_app.
    + pose proof (di_keys0 k Hk). rewrite lookup_app_l by lia. intros Hc. destruct (di_waiting0 k c Hk Hc). done.
    + apply list_elem_of_singleton in Hk as ->. rewrite lookup_app_r by lia. rewrite di_ctx0.
      replace (S (d_next d) - 1 - d_next d)%nat with 0%nat by lia. intros [= <-]. done.
Qed.

Lemma dinv_step l d d' : dinv d -> d_sets d' < 2 ^ 64 -> deadline_step l d = Some d' -> dinv d'.
Proof.
  intros Hi Hbig. destruct l as [at_| |key|t|i|i]; cbn [deadline_step].
  - intros [= <-]. apply set_inv; [done|]. unfold set_ in Hbig. destruct at_; [case_match|]; cbn in Hbig; lia.
  - destruct (begin_ d) as [[key d1]|] eqn:E; intros [= <-]; [by eapply begin_inv|done].
  - case_bool_decide; [|done]. intros [= <-]. by apply done_inv.
  - destruct (Z.leb_spec (d_now d) t); [|done]. intros [= <-]. destruct Hi. split; cbn; try done.
    + intros x Hx. destruct (di_timers0 x Hx) as (? & H1 & ?). unfold timer_ok. cbn. split; [done|]. split; [|done]. intros Hs. specialize (H1 Hs). lia.
    + intros He. destruct (di_expired0 He) as (t' & ? & ?). exists t'. split; [done|lia].
  - destruct (d_timers d !! i) as [t|] eqn:Ht; [|done]. case_match eqn:E; [|done]. intros [= <-].
    apply andb_true_iff in E as [_ E%Z.leb_le].
    assert (Hin : t ∈ d_timers d) by (by eapply list_elem_of_lookup_2). destruct (di_timers d Hi t Hin) as (H1 & _ & H3).
    apply timers_inv; [done| |].
    + intros x (j & Hj)%list_elem_of_lookup. apply moved_cases in Hj as [[-> ->]|[_ Hj]]; [done|]. apply (di_timers d Hi). by eapply list_elem_of_lookup_2.
    + intros t' He Ha. destruct (di_pending d Hi t' He Ha) as (x & (j & Hj)%list_elem_of_lookup & Hx1 & Hx2). destruct (decide (j = i)) as [->|Hne].
      * exists (mkTimer (t_gen t) (t_at t) true). split; [eapply list_elem_of_lookup_2; by eapply moved_here|]. cbn.
        replace x with t in * by congruence. done.
      * exists x. split; [|done]. eapply list_elem_of_lookup_2. by apply moved_other.
  - destruct (d_timers d !! i) as [t|] eqn:Ht; [|done]. destruct (t_started t) eqn:Hs; [|done]. intros [= <-].
    assert (Hin : t ∈ d_timers d) by (by eapply list_elem_of_lookup_2). destruct (di_timers d Hi t Hin) as (H1 & H2 & H3).
    assert (Hsub : forall x, x ∈ delete i (d_timers d) -> timer_ok d x).
    { intros x Hx. apply (di_timers d Hi). by eapply elem_of_delete. }
    unfold fire. cbn [d_gen]. destruct (Z.eqb_spec (t_gen t) (d_gen d)) as [Hg|Hg]; rewrite (di_gen d Hi) in Hg.
    + specialize (H2 Hs). specialize (H3 Hg). destruct Hi. split; cbn; try done.
      * by rewrite length_imap.
      * intros _. eauto.
      * intros k c Hk Hc. apply (expire_waiting d k c); [|by intros; eapply di_waiting0|done|done].
        intros k' Hk'. specialize (di_keys0 k' Hk'). lia.
    + apply timers_inv; [done|done|]. intros t' He Ha. destruct (di_pending d Hi t' He Ha) as (x & Hx & Hx1 & Hx2).
      exists x. split; [|done]. rewrite <-(take_drop_middle _ _ _ Ht) in Hx. rewrite delete_take_drop.
      apply elem_of_app in Hx as [?|[->|?]%elem_of_cons]; [apply elem_of_app; by left|congruence|apply elem_of_app; by right].
Qed.

Lemma sets_grow l d d' : deadline_step l d = Some d' -> d_sets d <= d_sets d'.
Proof.
  destruct l as [at_| |key|t|i|i]; cbn [deadline_step].
  - intros [= <-]. unfold set_. destruct at_; [case_match|]; cbn; lia.
  - unfold begin_. destruct (d_expired d); intros [= <-]; cbn; lia.
  - case_bool_decide; [|done]. intros [= <-]. cbn. lia.
  - case_match; [|done]. intros [= <-]. cbn. lia.
  - destruct (d_timers d !! i); [|done]. case_match; [|done]. intros [= <-]. cbn. lia.
  - destruct (d_timers d !! i); [|done]. case_match; [|done]. intros [= <-]. unfold fire. case_match; cbn; lia.
Qed.

Lemma dinv_reach ls d : deadline_run ls deadline_start = Some d -> d_sets d < 2 ^ 64 -> dinv d.
Proof.
  assert (Hgen : forall d0, dinv d0 -> deadline_run ls d0 = Some d -> d_sets d < 2 ^ 64 -> dinv d /\ d_sets d0 <= d_sets d).
  { induction ls as [|l ls IH]; intros d0 Hi; cbn [deadline_run]; [intros [= <-]; by split|].
    destruct (deadline_step l d0) as [d1|] eqn:E; [|done]. intros Hr Hbig. pose proof (sets_grow _ _ _ E).
    assert (Hmono : forall d2 d3, deadline_run ls d2 = Some d3 -> d_sets d2 <= d_sets d3).
    { clear. induction ls as [|l ls IH]; cbn; intros d2 d3; [intros [= <-]; lia|]. destruct (deadline_step l d2) as [d1|] eqn:E; [|done].
      intros Hr. apply sets_grow in E. specialize (IH _ _ Hr). lia. }
    specialize (Hmono _ _ Hr). destruct (IH d1) as [? ?]; [|done|done|]; [|split; [done|lia]].
    eapply dinv_step; [done| |done]. lia. }
  intros Hr Hbig. apply (Hgen deadline_start); [|done|done]. split; cbn; try done; by intros ? ?%not_elem_of_nil.
Qed.

(** ** Theorems *)

(** C35: a deadline is neither early nor missed. A connection direction is past its deadline
    only when the deadline that was last set has passed, however late the timer of an
    earlier one fires; then no operation can begin and every operation in progress has
    ended with the deadline. And once the deadline that was last set has passed and the
    functions of the timers that are due have run, it is past its deadline. *)
Theorem deadline_exact (ls : list dlabel) (d : deadline) :
  deadline_run ls deadline_start = Some d -> d_sets d < 2 ^ 64 ->
  (d_expired d = true -> (exists t, d_at d = Some t /\ t <= d_now d) /\ begin_ d = None /\
     forall k, k ∈ d_waiting d -> d_ctx d !! (k - 1)%nat = Some DeadlineExceeded) /\
  (forall t, d_at d = Some t -> t <= d_now d -> Forall (fun x => d_now d < t_at x) (d_timers d) -> d_expired d = true).
Proof.
  intros Hr Hbig. destruct (dinv_reach ls d Hr Hbig). split.
  - intros He. split; [by apply di_expired0|]. split; [unfold begin_; by rewrite He|]. intros k Hk. pose proof (di_keys0 k Hk).
    destruct (lookup_lt_is_Some_2 (d_ctx d) (k - 1)) as [c Hc]; [lia|]. destruct (di_waiting0 k c Hk Hc) as [_ H']. rewrite Hc, H'; done.
  - intros t Ha Ht Hall. destruct (d_expired d) eqn:He; [done|]. destruct (di_pending0 t eq_refl Ha) as (x & Hx & _ & <-).
    rewrite list.Forall_forall in Hall. specialize (Hall x Hx). lia.
Qed.

(** The deadlines of the two directions do not touch each other: each goes through its own
    steps and those of [SetDeadline], so [deadline_exact] is about both. *)
Theorem deadlines_apart (ls : list clabel) (c c' : deadlines) :
  deadlines_run ls c = Some c' ->
  deadline_run (mjoin (read_label <$> ls)) (readDeadline c) = Some (readDeadline c') /\
  deadline_run (mjoin (write_label <$> ls)) (writeDeadline c) = Some (writeDeadline c').
Proof.
  revert c. induction ls as [|l ls IH]; intros c; [by intros [= <-]|]. cbn [deadlines_run].
  change (mjoin (read_label <$> l :: ls)) with (read_label l ++ mjoin (read_label <$> ls)).
  change (mjoin (write_label <$> l :: ls)) with (write_label l ++ mjoin (write_label <$> ls)).
  destruct (deadlines_step l c) as [c1|] eqn:E; [|done]. intros [H1 H2]%IH. revert E. unfold deadlines_step.
  destruct l as [t|t|t|t|l|l]; try (intros [= <-]; by split).
  - destruct (deadline_step (DTick t) (readDeadline c)) as [r|] eqn:Er; [|done].
    destruct (deadline_step (DTick t) (writeDeadline c)) as [w|] eqn:Ew; [|done]. intros [= <-].
    cbn [read_label write_label app deadline_run]. by rewrite Er, Ew.
  - destruct (own l); [|done]. destruct (deadline_step l (readDeadline c)) as [r|] eqn:Er; [|done]. intros [= <-].
    cbn [read_label write_label app deadline_run]. by rewrite Er.
  - destruct (own l); [|done]. destruct (deadline_step l (writeDeadline c)) as [w|] eqn:Ew; [|done]. intros [= <-].
    cbn [read_label write_label app deadline_run]. by rewrite Ew.
Qed.

(** ** Witnesses *)

(** A deadline that is replaced while its timer runs, and one that passes. *)
Definition deadline_demo : list dlabel :=
  [DSet (Some 5); DBegin; DTick 6; DStart 0; DSet (Some 10); DFire 0; DTick 11; DStart 0; DFire 0].
Definition deadline_end : deadline := default deadline_start (deadline_run deadline_demo deadline_start).

Lemma deadline_demo_run : deadline_run deadline_demo deadline_start = Some deadline_end.
Proof. vm_compute. reflexivity. Qed.

Lemma deadline_exact_witness : d_expired deadline_end = true.
Proof.
  refine (proj2 (deadline_exact deadline_demo deadline_end deadline_demo_run _) 10 _ _ _); vm_compute; try reflexivity; [discriminate|constructor].
Defined.
