(* ===== verification/TypedCall.v ===== *)
(** * Typed calls with generated messages

    The messages that the Go generator writes ([src/ipcgen/internal/gen/golang.go]) are
    the messages of the typed calls of a service ([src/service.go]): the laws that
    [CallTyped] needs of its messages hold of them, on a schema that the checker
    ([src/ipcgen/internal/schema/check.go]) accepted. *)

From stdpp Require Import base numbers list list_numbers option strings gmap.
From coqutil Require Import Byte Word.LittleEndianList.
From Stdlib Require Import ZArith Lia Bool String Ascii.
From S2P Require Import Prelude Ipc GoStd Schema Check CheckThm Layout RefCodec RefCodecThm.
From S2P Require Import GoGen GoGenThm GoCodec Ring Queue Service.

#[local] Open Scope Z_scope.
#[local] Set Warnings "-register-all".

#[local] Existing Instance go_naming.

(** The text of an error of the generated code. *)
Definition decode_text (pkg : string) (e : decode_kind) : text :=
  text_of (pkg +:+ match e with
    | ErrShort => ": input is shorter than the fixed section"
    | ErrLength => ": a length runs past the end of the input"
    | ErrTrailing => ": bytes remain after the last field"
    | ErrBool => ": a bool is neither 0 nor 1"
    | ErrUTF8 => ": a string is not valid UTF-8"
    end)%string.
Definition too_long_text (pkg : string) : text := text_of (pkg +:+ ": a string or bytes field is longer than 4 GiB")%string.

(** The messages of a schema. What Go does not accept or where it panics is no value. *)
Definition generated (s : Schema) : Service.Message gval := {|
  Service.TypeID v := default 0 (GoGen.TypeID (s_messages s) v);
  Service.MarshalBinary v :=
    match GoGen.MarshalBinary (s_messages s) v with
    | Ok b => inr b
    | Error _ => inl (too_long_text (s_package s))
    | _ => inl []
    end;
  Service.UnmarshalBinary v b :=
    match GoGen.UnmarshalBinary (s_messages s) v b with
    | Ok v => inr v
    | Error e => inl (decode_text (s_package s) e)
    | _ => inl []
    end |}.

(** A value that [MarshalBinary] encodes and [UnmarshalBinary] accepts. *)
Definition sendable (s : Schema) (m : Schema.Message) (v : gval) : Prop :=
  value_of s m v /\ exists l, raws m v = Some l /\ fits l /\ strings_valid m l.

(** One call on a session that has nothing in flight: the request as the client frames
    it, the answer of the service, and what the client makes of the reply. A reply that
    does not fit ends the session. *)
Definition wire_call {St} `{Handler St} (limit seq : Z) (h : St) (typ : Z) (payload : list byte) : called :=
  match Call_begin limit typ payload seq with
  | (_, inl e) => inl (Refused e)
  | (seq, inr m) =>
      let '(_, _, rep) := answer h (fst m) (snd m) in
      if limit <? zlen (snd rep) then inl (FromChannel (Of ErrPeerGone))
      else match Call_reply seq rep with Some r => r | None => inl (FromChannel (Of ErrPeerGone)) end
  end.

(** When request and reply fit, the client gets what the handler returned. *)
Lemma wire_call_answer {St} `{Handler St} limit seq (h : St) typ payload :
  typ < serviceReservedMin -> zlen payload <= MaxPayloadSize limit ->
  (forall t, reply_of (Handler_Call h typ payload).2 = inl (CallError t) -> serviceSeqSize + zlen t <= limit) ->
  (forall rtyp reply, reply_of (Handler_Call h typ payload).2 = inr (rtyp, reply) -> serviceSeqSize + zlen reply <= limit) ->
  wire_call limit seq h typ payload = reply_of (Handler_Call h typ payload).2.
Proof.
  intros Ht Hp He Hr. unfold wire_call, Call_begin. rewrite (proj2 (Z.leb_gt _ _)), (proj2 (Z.ltb_ge _ _)) by lia.
  set (q := (seq + 1) mod 2 ^ 64). assert (Hq : 0 <= q < 2 ^ 64) by (apply Z.mod_pos_bound; lia). cbn [fst snd].
  destruct (answer_request h (q, typ, payload) Hq Ht) as (h' & a & Ha). cbn [request_of fst snd c_typ c_seq c_payload] in Ha.
  unfold request_of, c_typ, c_seq, c_payload in Ha. cbn [fst snd] in Ha. rewrite Ha.
  apply answer_handled in Ha. rewrite body_of_frame in Ha. rewrite Ha in He, Hr |- *. cbn [snd] in *.
  destruct (Call_reply_frame q (q, typ, payload) a Hq (Z.le_refl q)) as [_ Hrep].
  unfold c_seq in Hrep. cbn [fst snd] in Hrep. rewrite Z.ltb_irrefl in Hrep. rewrite Hrep.
  rewrite (proj2 (Z.ltb_ge _ _)); [done|]. unfold reply_frame.
  assert (Hz : forall x, zlen (Service.frame q x) = serviceSeqSize + zlen x) by (intros x; unfold Service.frame; by rewrite zlen_app, zlen_put64).
  destruct (reply_of a) as [[| | |t]|[rt reply]] eqn:Hra; cbn [snd].
  1-3: unfold reply_of in Hra; destruct a as [|[]]; [done|]; by destruct (_ <=? _).
  - unfold c_seq. cbn [fst]. rewrite Hz. by apply He.
  - unfold c_seq. cbn [fst]. rewrite Hz. by eapply Hr.
Qed.

Lemma strings_valid_ok (s : Schema) (Hck : checked s) i (m : Schema.Message) v l :
  s_messages s !! i = Some m -> value_of s m v -> raws m v = Some l -> strings_valid m l -> strings_ok (VarFields m) l = true.
Proof.
  intros Hi Hv Hl Hval. destruct (raws_Some s Hck (go_naming_ok s Hck) i m v Hi Hv) as (l1 & H1 & HF). assert (l1 = l) as -> by congruence.
  by apply (strings_ok_valid m l (Forall2_length _ _ _ HF)).
Qed.

Section generated_calls.
Context {St : Type} (s : Schema).
#[local] Instance generated_message : Service.Message gval := generated s.

(** C39: a typed call whose request and reply are messages of a schema that [Check] accepted
    calls the handler with the request and returns the reply that the handler returned,
    when the values are of their types, their strings are valid UTF-8 and with their byte
    slices shorter than 4 GiB, their type IDs are below 0xFFFFFFF0, where those that the
    service keeps begin, and both fit the channel. The messages on the channel are the
    encodings that the generated code makes, behind the sequence number of the call.
    [reserved_type_id_accepted] shows that the condition on the type IDs is needed. *)
Theorem typed_call_generated (t : TypedHandler St gval) (h h' : St) (limit seq : Z) (i j : nat)
    (mreq mrep : Schema.Message) (req rep proto : gval) :
  checked s -> s_messages s !! i = Some mreq -> s_messages s !! j = Some mrep ->
  sendable s mreq req -> sendable s mrep rep -> struct_of (s_messages s) proto = Some mrep ->
  th_New t = NewMessage (s_messages s) -> th_Call t h req = (h', inr (Some rep)) ->
  m_id mreq < serviceReservedMin -> m_id mrep < serviceReservedMin ->
  (forall b, GoGen.MarshalBinary (s_messages s) req = Ok b -> zlen b <= MaxPayloadSize limit) ->
  (forall b, GoGen.MarshalBinary (s_messages s) rep = Ok b -> zlen b <= MaxPayloadSize limit) ->
  exists b b', GoGen.MarshalBinary (s_messages s) req = Ok b /\ GoGen.MarshalBinary (s_messages s) rep = Ok b' /\
    let q := (seq + 1) mod 2 ^ 64 in
    Call_begin limit (m_id mreq) b seq = (q, inr (m_id mreq, Service.frame q b)) /\
    answer (H := typed_handler t) h (m_id mreq) (Service.frame q b) = (h', Some (inr (m_id mrep, b')), (m_id mrep, Service.frame q b')) /\
    CallTyped (wire_call (H := typed_handler t) limit seq h) req proto = inr rep.
Proof.
  intros Hck Hi Hj (Hv & l & Hl & Hfit & Hval) (Hv' & l' & Hl' & Hfit' & Hval') Hproto Hnew Hcall Hid Hid' Hlim Hlim'.
  destruct (reads_back s Hck (go_naming_ok s Hck) i mreq req l Hi Hv Hl Hfit) as (b & Hb & Hu).
  destruct (reads_back s Hck (go_naming_ok s Hck) j mrep rep l' Hj Hv' Hl' Hfit') as (b' & Hb' & Hu').
  rewrite (strings_valid_ok s Hck i mreq req l Hi Hv Hl Hval) in Hu. rewrite (strings_valid_ok s Hck j mrep rep l' Hj Hv' Hl' Hval') in Hu'.
  destruct (new_struct_ok s Hck (go_naming_ok s Hck) i mreq Hi) as (vs & Hvs & _).
  assert (Ht : Service.TypeID req = m_id mreq).
  { destruct (value_of_struct s Hck (go_naming_ok s Hck) i mreq req Hi Hv) as (fs & _ & Hst & _). cbn. unfold GoGen.TypeID. by rewrite Hst. }
  assert (Ht' : Service.TypeID rep = m_id mrep).
  { destruct (value_of_struct s Hck (go_naming_ok s Hck) j mrep rep Hj Hv') as (fs & _ & Hst & _). cbn. unfold GoGen.TypeID. by rewrite Hst. }
  assert (Hcl : typedHandler_Call t h (m_id mreq) b = (h', inr (m_id mrep, b'))).
  { unfold typedHandler_Call. rewrite Hnew, (NewMessage_ok s Hck (go_naming_ok s Hck) i mreq Hi), Hvs. cbn [Service.UnmarshalBinary generated_message generated].
    rewrite Hu by (by apply (named s Hck (go_naming_ok s Hck) i)). rewrite Hcall. cbn [Service.MarshalBinary generated_message generated].
    rewrite Hb'. by rewrite Ht'. }
  exists b, b'. split; [done|]. split; [done|]. cbv zeta. set (q := (seq + 1) mod 2 ^ 64).
  assert (Hq : 0 <= q < 2 ^ 64) by (apply Z.mod_pos_bound; lia). split.
  { unfold Call_begin. by rewrite (proj2 (Z.leb_gt _ _) Hid), (proj2 (Z.ltb_ge _ _) (Hlim b Hb)). }
  split.
  { unfold answer. cbn [Handler_Call typed_handler]. rewrite frame_short, seq_of_frame, (proj2 (Z.leb_gt _ _) Hid), body_of_frame, Hcl by done.
    by rewrite (proj2 (Z.leb_gt _ _) Hid'). }
  unfold CallTyped. rewrite Ht. cbn [Service.MarshalBinary generated_message generated]. rewrite Hb.
  rewrite (wire_call_answer (H := typed_handler t)); cbn [Handler_Call typed_handler]; rewrite ?Hcl; cbn [snd reply_of];
    rewrite ?(proj2 (Z.leb_gt _ _) Hid').
  - assert (Hpt : Service.TypeID proto = m_id mrep) by (cbn; unfold GoGen.TypeID; by rewrite Hproto).
    rewrite Hpt, Z.eqb_refl. cbn [negb Service.UnmarshalBinary generated_message generated]. by rewrite Hu'.
  - done.
  - by apply Hlim.
  - done.
  - intros rt reply [= <- <-]. specialize (Hlim' _ Hb'). unfold MaxPayloadSize in Hlim'. lia.
Qed.

(** A request whose type ID the service keeps for itself is refused by [Call]. *)
Lemma reserved_refused (t : TypedHandler St gval) (h : St) limit seq i m req proto b :
  checked s -> s_messages s !! i = Some m -> value_of s m req -> GoGen.MarshalBinary (s_messages s) req = Ok b ->
  serviceReservedMin <= m_id m ->
  CallTyped (wire_call (H := typed_handler t) limit seq h) req proto = inl (CallFailed (Refused ErrReservedType)).
Proof.
  intros Hck Hi Hv Hb Hid. destruct (value_of_struct s Hck (go_naming_ok s Hck) i m req Hi Hv) as (fs & _ & Hst & _).
  unfold CallTyped. cbn [Service.MarshalBinary Service.TypeID generated_message generated]. rewrite Hb.
  unfold GoGen.TypeID. rewrite Hst. cbn [fmap option_fmap option_map default]. unfold wire_call, Call_begin.
  cbn. by rewrite (proj2 (Z.leb_le _ _) Hid).
Qed.
End generated_calls.

(** ** Witnesses *)

(** A handler that returns the request. *)
Definition echo : TypedHandler unit gval :=
  mkTyped (NewMessage (s_messages demo_checked)) (fun h req => (h, inr (Some req))) None.

Lemma demo_sendable : sendable demo_checked demo_shape demo_go.
Proof.
  split; [exact demo_go_typed|]. exists demo_raws. split_and!; [exact demo_go_raws|exact demo_raws_fit|vm_compute; repeat constructor].
Qed.

Lemma demo_fits_channel b : GoGen.MarshalBinary (s_messages demo_checked) demo_go = Ok b -> zlen b <= MaxPayloadSize 1000.
Proof.
  intros H. assert (Hc : match GoGen.MarshalBinary (s_messages demo_checked) demo_go with
      | Ok b => zlen b <=? MaxPayloadSize 1000 | _ => false end = true) by (vm_compute; reflexivity).
  rewrite H in Hc. apply Z.leb_le. exact Hc.
Qed.

Lemma typed_call_generated_witness :
  exists b b', GoGen.MarshalBinary (s_messages demo_checked) demo_go = Ok b /\ GoGen.MarshalBinary (s_messages demo_checked) demo_go = Ok b' /\
    let q := (0 + 1) mod 2 ^ 64 in
    Call_begin 1000 (m_id demo_shape) b 0 = (q, inr (m_id demo_shape, Service.frame q b)) /\
    answer (H := typed_handler (H := generated_message demo_checked) echo) tt (m_id demo_shape) (Service.frame q b) =
      (tt, Some (inr (m_id demo_shape, b')), (m_id demo_shape, Service.frame q b')) /\
    CallTyped (H := generated_message demo_checked)
      (wire_call (H := typed_handler (H := generated_message demo_checked) echo) 1000 0 tt) demo_go demo_go = inr demo_go.
Proof.
  apply (typed_call_generated demo_checked echo tt tt 1000 0 0 0 demo_shape demo_shape demo_go demo_go demo_go).
  - exact demo_checked_ok.
  - exact demo_shape_lookup.
  - exact demo_shape_lookup.
  - exact demo_sendable.
  - exact demo_sendable.
  - vm_compute. reflexivity.
  - reflexivity.
  - reflexivity.
  - vm_compute. reflexivity.
  - vm_compute. reflexivity.
  - exact demo_fits_channel.
  - exact demo_fits_channel.
Defined.

(** A schema with one empty message, whose type ID is the first that the service keeps. *)
Definition reserved_schema : Schema :=
  mkSchema "demo.ipc" "demo" (mkPos 1 9) [mkMessage "Ping" 0xFFFFFFF0 [] (mkPos 3 9) (mkPos 3 16) 0 0] [] ∅.
Definition reserved_checked : Schema :=
  match Check_ reserved_schema with Some (inr s) => s | _ => reserved_schema end.

(** [Check] accepts a message whose type ID is 0xFFFFFFF0, which the service layer keeps
    for itself: every typed call with that message as its request is refused. *)
Theorem reserved_type_id_accepted : exists m,
  Check_ reserved_schema = Some (inr reserved_checked) /\ s_messages reserved_checked !! 0%nat = Some m /\
  m_id m = serviceReservedMin /\
  forall (St : Type) (t : TypedHandler St gval) (h : St) (limit seq : Z) (req proto : gval) (b : list byte),
    value_of reserved_checked m req -> GoGen.MarshalBinary (s_messages reserved_checked) req = Ok b ->
    CallTyped (H := generated_message reserved_checked)
      (wire_call (H := typed_handler (H := generated_message reserved_checked) t) limit seq h) req proto =
    inl (CallFailed (Refused ErrReservedType)).
Proof.
  assert (HC : Check_ reserved_schema = Some (inr reserved_checked)) by (vm_compute; reflexivity).
  assert (Hck : checked reserved_checked) by (apply (Check_checked reserved_schema); [reflexivity|exact HC]).
  eexists. split; [exact HC|]. split; [vm_compute; reflexivity|]. split; [reflexivity|].
  intros St t h limit seq req proto b Hv Hb. eapply (reserved_refused reserved_checked t h limit seq 0 _ req proto b Hck); [|exact Hv|exact Hb|].
  - vm_compute. reflexivity.
  - cbn. unfold serviceReservedMin. lia.
Qed.
